(* ===== verification/_CoqProject ===== *)
-Q . S2P
Prelude.v
GoStd.v
Lru.v
Metrics.v
Cache.v
CacheSpec.v
CacheTrace.v
Resp.v
RespStream.v
Sha256.v
HashRing.v
Migration.v
PubSub.v
Delivery.v
Health.v
ReplProtocol.v
Config.v
Flags.v
NodeState.v
Persistence.v
Leader.v
Follower.v
FollowerSpec.v
Election.v
Handler.v
HandlerSpec.v
Replication.v
Transactions.v
Connection.v
Network.v
Client.v
ClientServer.v
Transfer.v
TransferSpec.v
ClusterCommands.v
ClusterClient.v
ClusterClientSpec.v
Startup.v
Concurrency.v
TypeSafety.v
Programs.v
Demo.v
Lifecycle.v
