(* ===== verification/Prelude.v ===== *)
(** * gocache: a Rocq model of the distributed cache

    gocache is a cache server in Go that speaks the Redis protocol: an LRU cache
    with expiry, an append-only log with snapshots, leader/follower replication with
    elections, a cluster of shards on a consistent hash ring, pub/sub, transactions,
    and client libraries.  This development models these parts as executable
    functions, file by file, and proves what they promise to each other.

    ** How the parts interact

    A client connection is served by [handleConnection] (handler.go): it parses
    requests (pkg/protocol), decides with the node state (state.go) and the hash
    ring whether the request belongs to this node, and otherwise redirects; runs the
    command on the cache, appends writes to the log and hands them to the replication
    leader, which numbers them and writes them to its followers.  A follower applies
    that stream to its own cache, watches its leader and runs an election when the
    leader is gone.  CLUSTER commands change the ring and move keys between nodes
    (migrator.go, transfer.go).  server.go puts a node together from its
    configuration and its files, and accepts connections until it is stopped; every
    connection has a goroutine of its own.  The clients of pkg/client talk to all of
    this over the network; the programs under cmd/ and demo/ run a server, a client
    on a terminal and a demonstration.

    ** Conventions

    Go code becomes a function into [outcome]: it returns, panics, blocks for ever on
    a lock it holds itself, or, only in the model, runs out of fuel.  A Go pair of
    value and error is [gres].  Strings are byte strings; int and int64 are [Z], with
    the wrap-around written out where the code can reach it (sequence numbers, the
    memory counter, lengths, durations).  Pointers that are shared or compared are
    keys into a store (list nodes, subscribers, follower connections, health
    records, leaders).  What comes from outside is an argument: the clock, the disk,
    the order in which Go visits a map, ports, random ids and the network (class
    [Network]).  Everything else, SHA-256 included, is computed.

    ** The files

    - Prelude: outcomes, results, tactics, the hint database, shared lemmas.
    - GoStd: the functions of Go's standard library the sources use.
    - Lru: internal/lru on an explicit heap, with the shape predicate [dll].
    - Metrics: internal/metrics as the trace of calls on the collectors.
    - Cache, CacheSpec, CacheTrace: internal/cache; the abstract cache (a list of
      entries, most recently used first) and the refinement; sequences of calls,
      reachable caches and the class [KVStore], the interface that persistence and
      replication are proved against.
    - Resp, RespStream: pkg/protocol; parsing a stream that is cut or extended.
    - Sha256, HashRing, Migration: internal/cluster/hash.go and migration.go.
    - Health: internal/cluster/health.go.
    - PubSub: internal/pubsub, with the sender goroutine as a step relation.
      Delivery: publications that overlap (they share the read lock), with the
      senders and the other calls, as one step relation.
    - ReplProtocol, Leader, Follower, FollowerSpec, Election, Replication:
      internal/replication; Replication composes a leader that serves a session with
      a follower that reads its connection.
    - Config: internal/config.  Flags: the command line, with Go's flag package, and
      the settings that result from defaults, file and flags.  NodeState:
      internal/server/state.go, the ring built at start-up, the health callbacks,
      and the lock discipline of the state.
    - Persistence: internal/persistence, with crashes and the two steps of a
      background rewrite and of a snapshot.
    - Handler: internal/server/handler.go; HandlerSpec, Transactions, Connection:
      what a session, a transaction and the connection loop do; TypeSafety: requests
      of strings never panic, and a session of them returns; Concurrency: several
      connections, interleaved at the critical sections of their handlers, and
      beside them the goroutines that rewrite the log and write snapshots.
    - ClusterCommands: internal/server/cluster_commands.go.
    - Network: the interface to other machines.  Client: pkg/client/client.go over
      it; ClientServer: the interface implemented by the servers of this program.
    - Transfer, TransferSpec: internal/cluster/transfer.go and migrator.go, and what
      a migration does to the data of both nodes.
    - ClusterClient, ClusterClientSpec: pkg/client/cluster_client.go, and what it
      learns from CLUSTER NODES of the server.
    - Startup: internal/server/server.go.  Lifecycle: its accept loop and Stop, the
      goroutines of the replication leader and their Close, and the loops over a
      ticker, as state machines whose events are the atomic steps.
    - Programs: cmd/server, cmd/client and internal/logger; Demo: demo/.

    ** What the theorems show

    - Refinement, bottom up: the pointer list is a sequence; every sequence of cache
      calls is one of the abstract LRU cache; the bytes of a session are answered as
      the abstract cache answers (DEL with 1 for a missing key too, as the code
      does), and exactly its writes reach the log and every follower; MULTI ... EXEC
      is the sequence of its commands; a follower that reads what SET and DEL
      requests put on its connection converges to the leader; the client library
      against the server is the abstract cache again, and so are the two programs,
      from the command line of the server to the terminal of the client, for values
      that do not look like a redirect.
    - The log and its rewrite: an append that makes the log outgrow its baseline
      sets [rewriting] and starts a goroutine that replaces the log by a copy of the
      cache.  It never changes the cache, so replies and entries do not depend on
      it.  Statements about one connection describe the log as long as the flag is
      not set ([log_grew]); [restart_preserves_data] also covers a rewrite after the
      last request; in Concurrency its steps are interleaved with everything else,
      and the log is described for schedules in which it has not been replaced.
    - Concurrency: interleaved sessions are linearizable; what concurrent clients
      wrote to different keys is restored from the log, and what they wrote to one
      key need not be.  Stop closes the log after the last handler, and ends unless
      a handler is stuck in its own lock.
    - Durability: a crash at any byte of the log recovers exactly the complete
      commands; a snapshot restores the unexpired entries; a stopped node that is
      started again has its data; a new follower receives the leader's entries and
      sequence number; a migration to a node that waits to join loses nothing.
    - Routing: GetShard is the successor on the ring; a new shard takes exactly the
      keys whose successor is one of its positions; exactly the leader of the owning shard accepts a write; one redirect is
      enough; a started node routes by its configuration; the nodes agree after a
      topology change, on the notice that is written to them.
    - State machines: pub/sub never sends on a closed channel and delivers
      publications once and, unless they overlap, in order; the health status is
      determined by the trailing failures; a follower with a priority promotes
      itself only when nobody else answered; the retry schedule is bounded.
    - Wire formats: encoded arrays parse back, truncated input is an error and never
      another value, the parser ends on every input; requests of strings never
      panic, and without CLUSTER and DBSIZE a connection that sends them is served
      to its end; a flag wins over the file and the file over the default.
    - Where the code falls short, as theorems about it: concurrent writes that leave
      the log behind the cache, a cluster client that accepts no node, redirects that
      the client cannot follow, a self-deadlock of DBSIZE in a transaction, the nested
      read lock of the node state, a Stop that waits for a client or for a stuck
      handler, a rewrite that loses a write, a client that keeps a closed connection
      after a failed redirect, and further lemmas next to the definitions they
      concern.

    ** Fuel and bounds

    Loops over a byte stream consume at least one byte per turn, so they get one
    more unit of fuel than there are bytes ([parse], [serve_loop], the follower's
    [sync_loop] and [stream_loop]); that this is enough is proved ([parse_total],
    [handleConnection_fuel], [typed_session_returns], and within the follower's
    theorems, which show a result).  The client's redirect loop is bounded by
    [MaxRedirects] as in the code.
    The retry of the cluster client is unbounded in the code and gets one unit; it
    is proved never to be taken ([moved_retry_never_taken]).  The loop of the
    command-line client takes one turn per line; [programs_refine_spec] shows that
    this is enough when the last line is QUIT, and [client_spins_at_eof] that no
    number of turns is enough otherwise.  Other loops are structural.

    ** Not modelled

    The test harness and the manual test of pkg/client are not.  Log messages are
    left out, but for the demonstration, whose output they are.  Interleavings inside
    a handler are modelled for GET, SET, DEL and PING of several connections, and
    where a step matters on its own (rewrite and snapshot, locks of the node state,
    publications and pub/sub senders, start and stop); other handlers run to their
    end.  Real time is the clock argument, a ticker is the sequence of its ticks.
    Text is ASCII where the code looks for blanks.  YAML decoding, HTTP and Prometheus are libraries. *)

From Stdlib Require Export Ascii String ZArith Lia.
From stdpp Require Export base tactics option list strings gmap sorting.
From stdpp Require Export relations.

#[global] Set Default Goal Selector "!".
#[global] Arguments String.append !_ _ : simpl nomatch.

(** ** Outcomes of running Go code

    A Go call either returns, panics, blocks forever on a mutex that the same
    goroutine holds, or (only in the model) exhausts the fuel given to a loop.
    Go [error] values are ordinary results and are modelled by [gres]. *)

Inductive outcome (A : Type) : Type :=
| Ret (a : A)
| Panic
| Deadlock
| OutOfFuel.
Arguments Ret {A} a.
Arguments Panic {A}.
Arguments Deadlock {A}.
Arguments OutOfFuel {A}.

#[export] Instance outcome_ret : MRet outcome := @Ret.
#[export] Instance outcome_bind : MBind outcome := λ A B f m,
  match m with
  | Ret a => f a
  | Panic => Panic
  | Deadlock => Deadlock
  | OutOfFuel => OutOfFuel
  end.
#[export] Instance outcome_fmap : FMap outcome := λ A B f m,
  match m with
  | Ret a => Ret (f a)
  | Panic => Panic
  | Deadlock => Deadlock
  | OutOfFuel => OutOfFuel
  end.

(** A dereference of a nil pointer, or a failed type assertion without the
    comma-ok form, panics. *)
Definition or_panic {A} (o : option A) : outcome A :=
  match o with Some a => Ret a | None => Panic end.

(** A [for ... range] loop whose body may panic. *)
Fixpoint for_each {A B} (f : B → A → outcome B) (b : B) (l : list A) : outcome B :=
  match l with
  | [] => mret b
  | x :: l => b ← f b x; for_each f b l
  end.

(** A Go result pair [(value, error)]: exactly one side is meaningful. *)
Inductive gres (E A : Type) : Type :=
| GOk (a : A)
| GErr (e : E).
Arguments GOk {E A} a.
Arguments GErr {E A} e.

Section outcome_laws.
Context {A B C : Type}.
Implicit Types (m : outcome A) (f : A → outcome B) (g : B → outcome C).

Lemma outcome_bind_ret_l (a : A) f : (Ret a ≫= f) = f a.
Proof. reflexivity. Qed.

Lemma outcome_bind_ret_r m : (m ≫= Ret) = m.
Proof. by destruct m. Qed.

Lemma outcome_bind_assoc m f g : ((m ≫= f) ≫= g) = (m ≫= λ x, f x ≫= g).
Proof. by destruct m. Qed.

Lemma outcome_bind_Ret_inv m f b :
  (m ≫= f) = Ret b → ∃ a, m = Ret a ∧ f a = Ret b.
Proof. destruct m; simpl; naive_solver. Qed.
End outcome_laws.

Lemma for_each_app {A B} (f : B → A → outcome B) b l1 l2 :
  for_each f b (l1 ++ l2) = (for_each f b l1 ≫= λ b, for_each f b l2).
Proof. revert b. induction l1 as [|x l1 IH]; intros b; simpl; [done|]. destruct (f b x); [apply IH|done..]. Qed.

(** ** Machine integers *)

Definition two32 : Z := 4294967296.
Definition two63 : Z := 9223372036854775808.
Definition two64 : Z := 18446744073709551616.

(** Two's complement int64 (also Go's [int] and [time.Duration] on the 64-bit
    targets), and uint32. *)
Definition wrap64 (z : Z) : Z := (z + two63) mod two64 - two63.
#[global] Arguments wrap64 : simpl never.
Definition wrap32u (z : Z) : Z := z mod two32.

Definition int64_range (z : Z) : Prop := (- two63 ≤ z < two63)%Z.
Definition uint32_range (z : Z) : Prop := (0 ≤ z < two32)%Z.

#[export] Instance int64_range_dec z : Decision (int64_range z).
Proof. unfold int64_range. apply _. Defined.
#[export] Instance uint32_range_dec z : Decision (uint32_range z).
Proof. unfold uint32_range. apply _. Defined.

Lemma wrap64_small z : int64_range z → wrap64 z = z.
Proof.
  unfold int64_range, wrap64, two63, two64. intros.
  rewrite Z.mod_small by lia. lia.
Qed.

Lemma wrap64_range z : int64_range (wrap64 z).
Proof.
  unfold int64_range, wrap64, two63, two64.
  pose proof (Z.mod_pos_bound (z + 9223372036854775808) 18446744073709551616).
  lia.
Qed.

Lemma wrap64_add_l a b : wrap64 (wrap64 a + b) = wrap64 (a + b).
Proof.
  unfold wrap64. f_equal.
  replace ((a + two63) mod two64 - two63 + b + two63)%Z
    with ((a + two63) mod two64 + b)%Z by lia.
  rewrite Z.add_mod_idemp_l by (unfold two64; lia). f_equal. lia.
Qed.

Lemma wrap64_sub_l a b : wrap64 (wrap64 a - b) = wrap64 (a - b).
Proof. apply (wrap64_add_l a (- b)). Qed.

Lemma wrap64_add_cancel a b : wrap64 (wrap64 (a - b) + b) = wrap64 a.
Proof. rewrite wrap64_add_l. f_equal. lia. Qed.

(** ** Automation *)

Create HintDb gocache.
Create Rewrite HintDb gocache.
#[export] Hint Resolve wrap64_range : gocache.
#[export] Hint Rewrite @outcome_bind_ret_l @outcome_bind_assoc : gocache.

(** Take apart the binds of a computation known to have returned. *)
(** [Forall] over a list that is written out. *)
Ltac split_Forall := repeat first [apply Forall_nil_2 | apply Forall_cons_2].

Ltac inv_ret :=
  repeat match goal with
  | H : Ret _ = Ret _ |- _ => injection H as H; subst
  | H : mret _ = Ret _ |- _ => injection H as H; subst
  | H : (?m ≫= _) = Ret _ |- _ =>
      let a := fresh "r" in let E := fresh "E" in
      apply outcome_bind_Ret_inv in H as (a & E & H)
  | H : or_panic ?o = Ret _ |- _ =>
      let E := fresh "E" in destruct o eqn:E; [simpl in H | discriminate H]
  | H : Panic = Ret _ |- _ => discriminate H
  | H : Deadlock = Ret _ |- _ => discriminate H
  | H : OutOfFuel = Ret _ |- _ => discriminate H
  end.

(** Split every [match]/[if] of the goal, keeping the equations. *)
Ltac split_matches :=
  repeat (case_match; simplify_eq/=).

(** ** Lists *)

Section filter.
Context {A : Type} (P Q : A → Prop).
Context `{!∀ x, Decision (P x), !∀ x, Decision (Q x)}.
Implicit Types l : list A.

Lemma filter_ext_elem l :
  (∀ x, x ∈ l → P x ↔ Q x) → filter P l = filter Q l.
Proof.
  induction l as [|x l IH]; intros Hx; [done|]. rewrite !filter_cons.
  assert (P x ↔ Q x) by (apply Hx, elem_of_cons; by left).
  rewrite IH by (intros y Hy; apply Hx, elem_of_cons; by right).
  repeat case_decide; naive_solver.
Qed.

Lemma filter_all_elem l : (∀ x, x ∈ l → P x) → filter P l = l.
Proof.
  induction l as [|x l IH]; intros Hx; [done|].
  rewrite filter_cons, decide_True by (apply Hx, elem_of_cons; by left).
  rewrite IH; [done|]. intros y Hy. apply Hx, elem_of_cons. by right.
Qed.

Lemma filter_none_elem l : (∀ x, x ∈ l → ¬ P x) → filter P l = [].
Proof.
  induction l as [|x l IH]; intros Hx; [done|].
  rewrite filter_cons, decide_False by (apply Hx, elem_of_cons; by left).
  apply IH. intros y Hy. apply Hx, elem_of_cons. by right.
Qed.
End filter.
