(* ===== verification/GoStd.v ===== *)
(** * The parts of Go's standard library the sources use

    [strconv] (Itoa, Atoi, ParseInt), [strings] (HasPrefix, HasSuffix, Trim*,
    Split, ToUpper, Fields), [sort.Search], [time.Duration] arithmetic with
    the float64 of [Duration.Seconds], and [fmt.Sprintf] and [fmt.Sscanf] with %d.  A Go string
    is a sequence of bytes: [string] with [ascii] read as a byte. *)

From S2P Require Import Prelude.
From Stdlib Require Import SpecFloat.
Local Open Scope Z_scope.

(** ** Bytes *)

Definition byte_val (c : ascii) : Z := Z.of_N (N_of_ascii c).
Definition byte_of (z : Z) : ascii := ascii_of_N (Z.to_N z).

Definition CR : ascii := "013"%char.
Definition LF : ascii := "010"%char.
Definition CRLF : string := String CR (String LF EmptyString).

Definition slen (s : string) : Z := Z.of_nat (String.length s).

Lemma byte_val_of z : 0 ≤ z < 256 → byte_val (byte_of z) = z.
Proof.
  intros. unfold byte_val, byte_of. rewrite N_ascii_embedding by lia. lia.
Qed.

(** ** String lemmas shared by the parsers *)

Lemma string_app_assoc (a b c : string) : a +:+ (b +:+ c) = (a +:+ b) +:+ c.
Proof. induction a; simpl; congruence. Qed.

Lemma string_app_nil_r (a : string) : a +:+ "" = a.
Proof. induction a; simpl; congruence. Qed.

Lemma slength_app (a b : string) :
  String.length (a +:+ b) = (String.length a + String.length b)%nat.
Proof. induction a; simpl; congruence. Qed.

Fixpoint string_elem (c : ascii) (s : string) : bool :=
  match s with
  | EmptyString => false
  | String d s => bool_decide (c = d) || string_elem c s
  end.

Lemma string_elem_app c a b :
  string_elem c (a +:+ b) = string_elem c a || string_elem c b.
Proof. induction a; simpl; [done|]. rewrite IHa. by rewrite orb_assoc. Qed.

(** ** strconv *)

Definition digit_val (c : ascii) : option Z :=
  let n := byte_val c in
  if (48 <=? n) && (n <=? 57) then Some (n - 48) else None.

Definition digit_char (d : Z) : ascii := byte_of (48 + d).

Fixpoint digits_val (acc : Z) (s : string) : option Z :=
  match s with
  | EmptyString => Some acc
  | String c s => d ← digit_val c; digits_val (10 * acc + d) s
  end.

Fixpoint digits_go (fuel : nat) (n : Z) (acc : string) : string :=
  match fuel with
  | O => acc
  | S f =>
      let acc' := String (digit_char (n mod 10)) acc in
      if n <? 10 then acc' else digits_go f (n / 10) acc'
  end.

(** Decimal digits of [n ≥ 0], most significant first. *)
Definition digits (n : Z) : string := digits_go (S (Z.to_nat (Z.log2 n))) n "".

(** [strconv.Itoa], [strconv.FormatInt(n, 10)] and [%d]. *)
Definition Itoa (n : Z) : string :=
  if n <? 0 then String "-"%char (digits (- n)) else digits n.

(** [strconv.Atoi] and [strconv.ParseInt(s, 10, 64)]: an optional sign, at
    least one digit, nothing else, and the value in the int64 range.  [None]
    is the syntax or range error; no caller looks at the number then. *)
Definition unsigned_digits (s : string) : option Z :=
  match s with
  | EmptyString => None
  | _ => digits_val 0 s
  end.

Definition signed_digits (s : string) : option Z :=
  match s with
  | String "+"%char r => unsigned_digits r
  | String "-"%char r => Z.opp <$> unsigned_digits r
  | _ => unsigned_digits s
  end.

Definition Atoi (s : string) : option Z :=
  z ← signed_digits s;
  if decide (int64_range z) then Some z else None.

Definition ParseInt (s : string) : option Z := Atoi s.

Lemma digit_val_char d : 0 ≤ d < 10 → digit_val (digit_char d) = Some d.
Proof.
  intros. unfold digit_val, digit_char. rewrite byte_val_of by lia.
  destruct (Z.leb_spec 48 (48 + d)), (Z.leb_spec (48 + d) 57); try lia.
  simpl. f_equal. lia.
Qed.

Lemma digits_go_val fuel n acc :
  0 ≤ n → n < 10 ^ Z.of_nat fuel →
  (0 < fuel)%nat →
  digits_val 0 (digits_go fuel n acc) = digits_val n acc.
Proof.
  revert n acc. induction fuel as [|f IH]; intros n acc Hn Hlt Hf; [lia|].
  cbn [digits_go]. pose proof (Z.mod_pos_bound n 10).
  assert (Hd : n = 10 * (n / 10) + n mod 10) by (apply Z.div_mod; lia).
  destruct (Z.ltb_spec n 10) as [Hs|Hs].
  - cbn [digits_val]. rewrite digit_val_char by lia. simpl.
    f_equal. rewrite Z.mod_small; lia.
  - rewrite IH.
    + cbn [digits_val]. rewrite digit_val_char by lia. simpl. f_equal. lia.
    + apply Z.div_pos; lia.
    + apply Z.div_lt_upper_bound; [lia|].
      rewrite Nat2Z.inj_succ, Z.pow_succ_r in Hlt by lia. lia.
    + destruct f; [|lia]. simpl in Hlt. lia.
Qed.

Lemma digits_fuel_enough n : 0 ≤ n → n < 10 ^ Z.of_nat (S (Z.to_nat (Z.log2 n))).
Proof.
  intros Hn. rewrite Nat2Z.inj_succ, Z2Nat.id by apply Z.log2_nonneg.
  destruct (Z.eq_dec n 0) as [->|Hz]; [by vm_compute|].
  apply Z.lt_le_trans with (2 ^ Z.succ (Z.log2 n)).
  - apply Z.log2_spec. lia.
  - apply Z.pow_le_mono_l. pose proof (Z.log2_nonneg n). lia.
Qed.

Lemma digits_correct n : 0 ≤ n → digits_val 0 (digits n) = Some n.
Proof.
  intros. unfold digits. rewrite digits_go_val; [done|done| |lia].
  by apply digits_fuel_enough.
Qed.

Definition is_digit (c : ascii) : bool := (48 <=? byte_val c) && (byte_val c <=? 57).

Fixpoint all_digits (s : string) : bool :=
  match s with EmptyString => true | String c s => is_digit c && all_digits s end.

Lemma is_digit_char d : 0 ≤ d < 10 → is_digit (digit_char d) = true.
Proof.
  intros. unfold is_digit, digit_char. rewrite byte_val_of by lia. lia.
Qed.

Lemma digits_go_all fuel n acc :
  0 ≤ n → all_digits acc = true → all_digits (digits_go fuel n acc) = true.
Proof.
  revert n acc. induction fuel as [|f IH]; intros n acc Hn Ha; [done|].
  cbn [digits_go]. pose proof (Z.mod_pos_bound n 10).
  assert (all_digits (String (digit_char (n mod 10)) acc) = true).
  { cbn [all_digits]. rewrite is_digit_char by lia. done. }
  destruct (n <? 10); [done|]. apply IH; [apply Z.div_pos; lia|done].
Qed.

Lemma digits_all n : 0 ≤ n → all_digits (digits n) = true.
Proof. intros. by apply digits_go_all. Qed.

Lemma digits_nonempty n : digits n ≠ "".
Proof.
  unfold digits. assert (∀ f m acc, acc ≠ "" → digits_go f m acc ≠ "") as Hgo.
  { induction f as [|f IH]; intros m acc Ha; [done|]. cbn [digits_go].
    destruct (m <? 10); [done|]. by apply IH. }
  cbn [digits_go]. destruct (n <? 10); [done|]. by apply Hgo.
Qed.

Lemma all_digits_elem c s :
  all_digits s = true → is_digit c = false → string_elem c s = false.
Proof.
  induction s as [|d s IH]; simpl; [done|]. intros [Hd Hs]%andb_true_iff Hc.
  rewrite IH by done. rewrite bool_decide_eq_false_2; [done|]. congruence.
Qed.

Lemma unsigned_digits_digits n : 0 ≤ n → unsigned_digits (digits n) = Some n.
Proof.
  intros Hn. unfold unsigned_digits.
  destruct (digits n) eqn:E; [by destruct (digits_nonempty n)|].
  rewrite <-E. by apply digits_correct.
Qed.

Lemma signed_digits_digits n : 0 ≤ n → signed_digits (digits n) = Some n.
Proof.
  intros Hn. pose proof (digits_all n Hn) as Ha.
  pose proof (unsigned_digits_digits n Hn) as Hu.
  destruct (digits n) as [|c s]; [done|].
  simpl in Ha. apply andb_true_iff in Ha as [Hc _].
  unfold signed_digits.
  destruct c as [[] [] [] [] [] [] [] []]; try done; discriminate Hc.
Qed.

(** The reader of decimal numbers inverts the printer on the int64 range. *)
Lemma Atoi_Itoa n : int64_range n → Atoi (Itoa n) = Some n.
Proof.
  intros Hr. unfold Atoi, Itoa. destruct (Z.ltb_spec n 0) as [Hn|Hn].
  - assert (signed_digits (String "-" (digits (- n))) = Some n) as ->.
    { unfold signed_digits. rewrite unsigned_digits_digits by lia.
      simpl. by rewrite Z.opp_involutive. }
    simpl. by rewrite decide_True.
  - rewrite signed_digits_digits by done. simpl. by rewrite decide_True.
Qed.

Lemma Itoa_no_elem c n :
  is_digit c = false → c ≠ "-"%char → string_elem c (Itoa n) = false.
Proof.
  intros Hd Hc. unfold Itoa. destruct (Z.ltb_spec n 0); cbn [string_elem].
  - rewrite bool_decide_eq_false_2 by done.
    apply all_digits_elem; [apply digits_all; lia|done].
  - apply all_digits_elem; [by apply digits_all|done].
Qed.

(** ** strings *)

Definition HasPrefix (s p : string) : bool := String.prefix p s.

Fixpoint str_drop (n : nat) (s : string) : string :=
  match n, s with
  | O, _ => s
  | S n, String _ s => str_drop n s
  | S _, EmptyString => EmptyString
  end.

Fixpoint str_take (n : nat) (s : string) : string :=
  match n, s with
  | O, _ => EmptyString
  | S n, String c s => String c (str_take n s)
  | S _, EmptyString => EmptyString
  end.

Definition TrimPrefix (s p : string) : string :=
  if HasPrefix s p then str_drop (String.length p) s else s.

Definition HasSuffix (s suf : string) : bool :=
  bool_decide (String.length suf ≤ String.length s)%nat &&
  bool_decide (str_drop (String.length s - String.length suf) s = suf).

Definition TrimSuffix (s suf : string) : string :=
  if HasSuffix s suf then str_take (String.length s - String.length suf) s else s.

(** [strings.Split] with a separator of one byte. *)
Fixpoint Split (s : string) (sep : ascii) : list string :=
  match s with
  | EmptyString => [EmptyString]
  | String c s =>
      if decide (c = sep) then EmptyString :: Split s sep
      else match Split s sep with
           | [] => [String c EmptyString]
           | w :: ws => String c w :: ws
           end
  end.

(** [strings.ToUpper].  The sources only compare its result with words of capital
    letters; outside ASCII only the long s (C5 BF) and the dotless i (C4 B1) become
    one, so the other letters are left as they are. *)
Definition upper_char (c : ascii) : ascii :=
  let n := byte_val c in
  if (97 <=? n) && (n <=? 122) then byte_of (n - 32) else c.

Fixpoint ToUpper (s : string) : string :=
  match s with
  | EmptyString => EmptyString
  | String c s =>
      match s with
      | String d r =>
          if (byte_val c =? 197) && (byte_val d =? 191) then String "S" (ToUpper r)
          else if (byte_val c =? 196) && (byte_val d =? 177) then String "I" (ToUpper r)
          else String (upper_char c) (ToUpper s)
      | EmptyString => String (upper_char c) EmptyString
      end
  end.

Lemma str_drop_app a b : str_drop (String.length a) (a +:+ b) = b.
Proof. by induction a. Qed.

Lemma str_take_app a b : str_take (String.length a) (a +:+ b) = a.
Proof. induction a; simpl; congruence. Qed.

Lemma HasPrefix_app p s : HasPrefix (p +:+ s) p = true.
Proof.
  unfold HasPrefix. induction p as [|c p IH]; [by destruct s|].
  simpl. by destruct (ascii_dec c c).
Qed.

Lemma TrimPrefix_app p s : TrimPrefix (p +:+ s) p = s.
Proof. unfold TrimPrefix. by rewrite HasPrefix_app, str_drop_app. Qed.

Lemma suffix_length a b :
  (String.length (a +:+ b) - String.length b)%nat = String.length a.
Proof. rewrite slength_app. lia. Qed.

Lemma HasSuffix_app a b : HasSuffix (a +:+ b) b = true.
Proof.
  unfold HasSuffix. rewrite suffix_length, str_drop_app, slength_app.
  rewrite !bool_decide_eq_true_2; [done|done|lia].
Qed.

Lemma TrimSuffix_app a b : TrimSuffix (a +:+ b) b = a.
Proof. unfold TrimSuffix. by rewrite HasSuffix_app, suffix_length, str_take_app. Qed.

Lemma Split_no_sep s sep : string_elem sep s = false → Split s sep = [s].
Proof.
  induction s as [|c s IH]; simpl; [done|].
  intros [Hc Hs]%orb_false_iff. apply bool_decide_eq_false in Hc.
  rewrite decide_False by congruence. by rewrite IH.
Qed.

Lemma Split_app_sep a b sep :
  string_elem sep a = false → Split (a +:+ String sep b) sep = a :: Split b sep.
Proof.
  induction a as [|c a IH]; simpl; [by rewrite decide_True|].
  intros [Hc Ha]%orb_false_iff. apply bool_decide_eq_false in Hc.
  rewrite decide_False by congruence. by rewrite IH.
Qed.

(** ** make *)

(** [make([]T, n)] with elements of [size] bytes panics when the length is
    negative or the block exceeds the address space (2^48 on linux/amd64). *)
Definition maxAlloc : Z := 281474976710656.
Definition make_slice (size n : Z) : outcome unit :=
  if (n <? 0) || (maxAlloc <? size * n) then Panic else mret ().

Lemma make_slice_ok size n : 0 ≤ n → size * n ≤ maxAlloc → make_slice size n = Ret ().
Proof.
  intros. unfold make_slice.
  destruct (Z.ltb_spec n 0), (Z.ltb_spec maxAlloc (size * n)); (lia || done).
Qed.

(** ** sort.Search *)

Fixpoint search_go (fuel i j : nat) (f : nat → bool) : nat :=
  match fuel with
  | O => i
  | S fu =>
      if decide (i < j)%nat then
        let h := ((i + j) / 2)%nat in
        if f h then search_go fu i h f else search_go fu (h + 1) j f
      else i
  end.

(** [sort.Search n f].  Every turn of the loop shrinks [j - i], so [n] turns
    are enough. *)
Definition sort_Search (n : nat) (f : nat → bool) : nat := search_go n 0 n f.

Section search.
Context (f : nat → bool) (n : nat).
Context (f_mono : ∀ i j, (i ≤ j)%nat → (j < n)%nat → f i = true → f j = true).

Lemma search_go_spec fuel i j :
  (j - i ≤ fuel)%nat → (i ≤ j)%nat → (j ≤ n)%nat →
  (∀ k, (k < i)%nat → f k = false) →
  (∀ k, (j ≤ k < n)%nat → f k = true) →
  let r := search_go fuel i j f in
  (r ≤ n)%nat ∧ (∀ k, (k < r)%nat → f k = false) ∧
  (∀ k, (r ≤ k < n)%nat → f k = true).
Proof.
  revert i j. induction fuel as [|fu IH]; intros i j Hf Hij Hjn Hlo Hhi;
    cbn [search_go].
  { assert (i = j) as -> by lia. auto. }
  destruct (decide (i < j)%nat) as [Hlt|Hge]; [|assert (i = j) as -> by lia; auto].
  assert (i ≤ (i + j) / 2 < j)%nat as Hh.
  { pose proof (Nat.div_mod_eq (i + j) 2).
    pose proof (Nat.mod_upper_bound (i + j) 2). lia. }
  revert Hh. generalize ((i + j) / 2)%nat as h. intros h Hh.
  destruct (f _) eqn:E; apply IH; try lia; try done.
  - intros k Hk. apply (f_mono h); [lia|lia|done].
  - intros k Hk. destruct (f k) eqn:Ek; [|done].
    rewrite (f_mono k h) in E; [done|lia|lia|done].
Qed.

Lemma sort_Search_spec :
  let r := sort_Search n f in
  (r ≤ n)%nat ∧ (∀ k, (k < r)%nat → f k = false) ∧
  (∀ k, (r ≤ k < n)%nat → f k = true).
Proof. apply search_go_spec; try lia; intros; lia. Qed.
End search.

(** ** time

    An instant ([time.Time]) is a number of nanoseconds since the zero time
    (year 1), so the zero value is [0] and every reading of the clock is
    positive.  A [time.Duration] is an int64 number of nanoseconds. *)

Definition time_IsZero (t : Z) : bool := t =? 0.
Definition time_After (now t : Z) : bool := t <? now.

Definition Second : Z := 1000000000.

(** [time.Duration(n) * time.Second], an int64 product that wraps. *)
Definition seconds (n : Z) : Z := wrap64 (n * Second).

(** float64 (binary64): conversion from int64 (round to nearest even) and
    truncation to int64. *)
Definition f64_of_int (z : Z) : spec_float := binary_normalize 53 1024 z 0 false.

Definition int64_of_f64 (f : spec_float) : Z :=
  match f with
  | S754_finite s m e =>
      let a := if 0 <=? e then Z.pos m * 2 ^ e else Z.pos m / 2 ^ (- e) in
      if s then - a else a
  | _ => 0
  end.

(** [Duration.Seconds]: the whole seconds plus the rest divided by 1e9, both in
    float64. *)
Definition Duration_Seconds (d : Z) : spec_float :=
  SFadd 53 1024 (f64_of_int (Z.quot d Second))
    (SFdiv 53 1024 (f64_of_int (Z.rem d Second)) (f64_of_int Second)).

(** [int64(d.Seconds())] (also [int(d.Seconds())]). *)
Definition whole_seconds (d : Z) : Z := int64_of_f64 (Duration_Seconds d).

Example whole_seconds_ex1 : whole_seconds 90500000000 = 90.
Proof. by vm_compute. Qed.
Example whole_seconds_ex2 : whole_seconds (-1500000000) = -1.
Proof. by vm_compute. Qed.

(** Far from zero the float64 sum rounds up: 17000000.999999999 s is reported
    as 17000001 s. *)
Example whole_seconds_rounds : whole_seconds 17000000999999999 = 17000001.
Proof. by vm_compute. Qed.

(** *** Conversions are exact below 2^53 *)

Lemma digits2_pos_log2 m : Z.pos (digits2_pos m) = Z.log2 (Z.pos m) + 1.
Proof.
  induction m as [p IH|p IH|]; simpl digits2_pos; [| |done].
  - rewrite Pos2Z.inj_succ, IH, Pos2Z.inj_xI, Z.log2_succ_double by lia. lia.
  - rewrite Pos2Z.inj_succ, IH, Pos2Z.inj_xO, Z.log2_double by lia. lia.
Qed.

Lemma fexp_53 e : -1074 ≤ e - 53 → fexp 53 1024 e = e - 53.
Proof. unfold fexp, emin. lia. Qed.

(** A 53-bit mantissa at an exponent of the format is left alone. *)
Lemma binary_round_aux_exact s m e :
  Z.pos (digits2_pos m) = 53 → -1074 ≤ e ≤ 971 →
  binary_round_aux 53 1024 s (Z.pos m) e loc_Exact = S754_finite s m e.
Proof.
  intros Hm He.
  assert (shr_fexp 53 1024 (Z.pos m) e loc_Exact = (Build_shr_record (Z.pos m) false false, e)) as Hs.
  { unfold shr_fexp. replace (fexp 53 1024 (Zdigits2 (Z.pos m) + e) - e) with 0; [done|].
    unfold Zdigits2. rewrite Hm, fexp_53; lia. }
  unfold binary_round_aux. rewrite Hs. cbn -[Z.leb shr_fexp]. rewrite Hs. cbn -[Z.leb].
  destruct (Z.leb_spec e (1024 - 53)); [done|lia].
Qed.

Lemma binary_round_int s m :
  Z.pos m < 2 ^ 53 →
  ∃ m' e, binary_round 53 1024 s m 0 = S754_finite s m' e ∧
    -52 ≤ e ≤ 0 ∧ Z.pos m' = Z.pos m * 2 ^ (- e).
Proof.
  intros Hm. unfold binary_round.
  assert (0 ≤ Z.log2 (Z.pos m) < 53) as Hl.
  { split; [apply Z.log2_nonneg|]. apply Z.log2_lt_pow2; lia. }
  pose proof (digits2_pos_log2 m) as Hd.
  rewrite fexp_53 by lia. rewrite Z.add_0_r. unfold shl_align. rewrite Z.sub_0_r.
  destruct (Z.pos (digits2_pos m) - 53) as [|p|p] eqn:E; [|lia|].
  - exists m, 0. rewrite binary_round_aux_exact by lia. split_and!; try lia. done.
  - fold (shift_pos p m). exists (shift_pos p m), (Z.neg p).
    assert (Z.pos (shift_pos p m) = Z.pos m * 2 ^ Z.pos p) as Hsh.
    { rewrite shift_pos_correct. rewrite Z.mul_comm. done. }
    rewrite binary_round_aux_exact.
    + split_and!; try done; lia.
    + rewrite digits2_pos_log2, Hsh, Z.log2_mul_pow2 by lia. lia.
    + lia.
Qed.

Lemma int64_of_f64_of_int z : Z.abs z < 2 ^ 53 → int64_of_f64 (f64_of_int z) = z.
Proof.
  intros Hz. unfold f64_of_int. destruct z as [|p|p]; [done| |]; cbn [binary_normalize].
  - destruct (binary_round_int false p) as (m & e & -> & He & Hm); [lia|].
    cbn -[Z.pow]. rewrite Hm. destruct (Z.leb_spec 0 e).
    + assert (e = 0) as -> by lia. lia.
    + rewrite Z.div_mul; [done|]. apply Z.pow_nonzero; lia.
  - destruct (binary_round_int true p) as (m & e & -> & He & Hm); [lia|].
    cbn -[Z.pow]. rewrite Hm. destruct (Z.leb_spec 0 e).
    + assert (e = 0) as -> by lia. lia.
    + rewrite Z.div_mul; [lia|]. apply Z.pow_nonzero; lia.
Qed.

Lemma f64_add_zero z :
  Z.abs z < 2 ^ 53 → SFadd 53 1024 (f64_of_int z) (S754_zero false) = f64_of_int z.
Proof.
  intros Hz. unfold f64_of_int. destruct z as [|p|p]; [done| |]; cbn [binary_normalize].
  - by destruct (binary_round_int false p) as (m & e & -> & _); [lia|].
  - by destruct (binary_round_int true p) as (m & e & -> & _); [lia|].
Qed.

(** A duration of whole seconds is reported exactly. *)
Lemma whole_seconds_exact n : Z.abs n < 2 ^ 53 → whole_seconds (n * Second) = n.
Proof.
  intros Hn. unfold whole_seconds, Duration_Seconds.
  rewrite Z.quot_mul, Z.rem_mul by (unfold Second; lia).
  change (SFdiv 53 1024 (f64_of_int 0) (f64_of_int Second)) with (S754_zero false).
  rewrite f64_add_zero by done. by apply int64_of_f64_of_int.
Qed.

Lemma whole_seconds_seconds n :
  int64_range (n * Second) → whole_seconds (seconds n) = n.
Proof.
  intros Hr. unfold seconds. rewrite wrap64_small by done.
  apply whole_seconds_exact. unfold int64_range, two63, Second in Hr. lia.
Qed.

Lemma Itoa_nonempty n : Itoa n ≠ "".
Proof. unfold Itoa. case_match; [done|]. apply digits_nonempty. Qed.

Lemma string_app_nil_inv a b : a +:+ b = "" → a = "" ∧ b = "".
Proof. destruct a; simpl; [done|discriminate]. Qed.

(** ** Blanks *)

(** [unicode.IsSpace] on ASCII: tab to carriage return, and the blank.  Blanks
    outside ASCII are not recognised. *)
Definition is_space (c : ascii) : bool :=
  let n := byte_val c in (9 <=? n) && (n <=? 13) || (n =? 32).

Fixpoint trim_left (s : string) : string :=
  match s with
  | EmptyString => EmptyString
  | String c s' => if is_space c then trim_left s' else s
  end.
Fixpoint trim_right (s : string) : string :=
  match s with
  | EmptyString => EmptyString
  | String c s =>
      match trim_right s with
      | EmptyString => if is_space c then EmptyString else String c EmptyString
      | s => String c s
      end
  end.
Definition TrimSpace (s : string) : string := trim_right (trim_left s).

(** [strings.Fields]; [cur] is the field being read. *)
Fixpoint fields_go (cur : string) (s : string) : list string :=
  match s with
  | EmptyString => if decide (cur = "") then [] else [cur]
  | String c s =>
      if is_space c then if decide (cur = "") then fields_go "" s else cur :: fields_go "" s
      else fields_go (cur +:+ String c "") s
  end.
Definition Fields (s : string) : list string := fields_go "" s.

(** Words: no blanks in them. *)
Fixpoint no_space (s : string) : bool :=
  match s with EmptyString => true | String c s => negb (is_space c) && no_space s end.
Definition word (s : string) : Prop := s ≠ "" ∧ no_space s = true.
#[export] Instance word_dec s : Decision (word s).
Proof. unfold word. apply _. Defined.

Lemma no_space_app a b : no_space (a +:+ b) = no_space a && no_space b.
Proof. induction a as [|c a IH]; [done|]. cbn [String.append no_space]. rewrite IH. by destruct (is_space c). Qed.

Lemma no_space_LF s : no_space s = true → string_elem LF s = false.
Proof.
  induction s as [|c s IH]; [done|]. cbn [no_space string_elem]. intros [Hc Hs]%andb_true_iff.
  rewrite IH by done. rewrite orb_false_r. apply bool_decide_eq_false_2. by intros <-.
Qed.

Lemma digits_no_space s : all_digits s = true → no_space s = true.
Proof.
  induction s as [|c s IH]; [done|]. cbn [all_digits no_space]. intros [Hc Hs]%andb_true_iff.
  rewrite IH by done. rewrite andb_true_r. unfold is_digit in Hc. unfold is_space. cbv zeta. lia.
Qed.

Lemma trim_right_word w : no_space w = true → trim_right w = w.
Proof.
  induction w as [|c w IH]; [done|]. cbn [no_space trim_right]. intros [Hc Hw]%andb_true_iff.
  rewrite IH by done. destruct w; [|done]. by destruct (is_space c).
Qed.

Lemma trim_right_app a b : trim_right b ≠ "" → trim_right (a +:+ b) = a +:+ trim_right b.
Proof.
  intros Hb. induction a as [|c a IH]; [done|]. cbn [String.append trim_right]. rewrite IH.
  destruct (a +:+ trim_right b) eqn:E; [|done]. apply string_app_nil_inv in E as [_ ?]. done.
Qed.

Lemma trim_right_blank a s : trim_right s = "" → trim_right (a +:+ s) = trim_right a.
Proof. intros Hs. induction a as [|c a IH]; [done|]. cbn [String.append trim_right]. by rewrite IH. Qed.

Lemma trim_left_word w s : word w → trim_left (w +:+ s) = w +:+ s.
Proof.
  intros [Hne Hw]. destruct w as [|c w]; [done|]. cbn [no_space] in Hw. apply andb_true_iff in Hw as [Hc _].
  cbn [String.append trim_left]. by destruct (is_space c).
Qed.

Lemma fields_go_word cur w s : no_space w = true → fields_go cur (w +:+ s) = fields_go (cur +:+ w) s.
Proof.
  revert cur. induction w as [|c w IH]; intros cur; [by rewrite string_app_nil_r|].
  cbn [no_space]. intros [Hc Hw]%andb_true_iff. cbn [String.append fields_go].
  destruct (is_space c); [done|]. rewrite IH by done. by rewrite <-string_app_assoc.
Qed.

Lemma Fields_three a b c : word a → word b → word c → Fields (a +:+ " " +:+ b +:+ " " +:+ c) = [a; b; c].
Proof.
  intros [Ha1 Ha2] [Hb1 Hb2] [Hc1 Hc2]. unfold Fields. rewrite fields_go_word by done.
  cbn [String.append fields_go]. change (is_space " ") with true. cbv iota.
  rewrite decide_False by done. rewrite fields_go_word by done. cbn [String.append fields_go].
  change (is_space " ") with true. cbv iota. rewrite decide_False by done.
  rewrite <-(string_app_nil_r c). rewrite fields_go_word by done. cbn [String.append fields_go].
  rewrite string_app_nil_r. by rewrite decide_False.
Qed.

Lemma Itoa_word n : word (Itoa n).
Proof.
  split; [apply Itoa_nonempty|]. unfold Itoa. destruct (Z.ltb_spec n 0).
  - cbn [no_space]. rewrite digits_no_space by (apply digits_all; lia). done.
  - apply digits_no_space, digits_all. lia.
Qed.

(** ** fmt.Sscanf with [%d]

    An optional sign and the digits that follow are read, the rest is left; without
    a digit, or out of the range of an int64, the scan fails. *)

Fixpoint digit_prefix (s : string) : string :=
  match s with
  | String c s => if is_digit c then String c (digit_prefix s) else EmptyString
  | EmptyString => EmptyString
  end.

Definition scan_d (s : string) : option Z :=
  match s with
  | String "-"%char r => Atoi (String "-"%char (digit_prefix r))
  | String "+"%char r => Atoi (digit_prefix r)
  | _ => Atoi (digit_prefix s)
  end.

Lemma digit_prefix_all s : all_digits s = true → digit_prefix s = s.
Proof. induction s as [|c s IH]; [done|]. cbn. intros [-> Hs]%andb_true_iff. by rewrite IH. Qed.

Lemma scan_d_Itoa n : int64_range n → scan_d (Itoa n) = Some n.
Proof.
  intros Hn. rewrite <-(Atoi_Itoa n Hn). unfold Itoa. destruct (Z.ltb_spec n 0) as [Hneg|Hpos].
  - cbn [scan_d]. by rewrite digit_prefix_all by (apply digits_all; lia).
  - pose proof (digits_all n Hpos) as Hd. unfold scan_d.
    destruct (digits n) as [|c s] eqn:E; [done|]. cbn in Hd. pose proof Hd as [Hc _]%andb_true_iff.
    assert (c ≠ "-"%char ∧ c ≠ "+"%char) as [H1 H2] by (split; intros ->; done).
    rewrite digit_prefix_all by done. by repeat case_match; simplify_eq.
Qed.
