(* ===== verification/Lru.v ===== *)
(** * internal/lru: the doubly linked recency list

    The nodes live in an explicit heap, a pointer is [option loc] with [None]
    for nil, and a dereference of nil panics.  The shape predicate [dll] says
    that the heap holds a well-formed doubly linked list; the operations are
    proved to act on the list it represents as [remove], [cons] and "drop the
    last". *)

From S2P Require Import Prelude.

Module Lru.

Abbreviation loc := positive.
Abbreviation ptr := (option positive).

Record Node := mkNode { key : string; prev : ptr; next : ptr }.

Record LRU := mkLRU { cells : gmap loc Node; head : ptr; tail : ptr }.

(** [&lru.LRU{}], also [lru.New], which ignores its argument. *)
Definition LRU_New (maxSize : Z) : LRU := mkLRU ∅ None None.

(** ** Field access through a pointer *)

Definition deref (l : LRU) (p : ptr) : outcome Node :=
  or_panic (p ≫= λ a, cells l !! a).

Definition with_cells (l : LRU) (h : gmap loc Node) : LRU := mkLRU h (head l) (tail l).
Definition with_head (l : LRU) (p : ptr) : LRU := mkLRU (cells l) p (tail l).
Definition with_tail (l : LRU) (p : ptr) : LRU := mkLRU (cells l) (head l) p.

(** [p.prev = v] and [p.next = v]. *)
Definition set_prev (l : LRU) (p v : ptr) : outcome LRU :=
  match p with
  | None => Panic
  | Some a => n ← or_panic (cells l !! a);
              mret (with_cells l (<[a := mkNode (key n) v (next n)]> (cells l)))
  end.

Definition set_next (l : LRU) (p v : ptr) : outcome LRU :=
  match p with
  | None => Panic
  | Some a => n ← or_panic (cells l !! a);
              mret (with_cells l (<[a := mkNode (key n) (prev n) v]> (cells l)))
  end.

(** ** Operations *)

Definition RemoveNode (l : LRU) (node : ptr) : outcome LRU :=
  if bool_decide (head l = node) && bool_decide (tail l = node) then
    mret (with_tail (with_head l None) None)
  else if bool_decide (head l = node) then
    n ← deref l node;
    set_prev (with_head l (next n)) (next n) None
  else if bool_decide (tail l = node) then
    n ← deref l node;
    set_next (with_tail l (prev n)) (prev n) None
  else
    n ← deref l node;
    l ← set_next l (prev n) (next n);
    n ← deref l node;
    set_prev l (next n) (prev n).

Definition addToFront (l : LRU) (node : ptr) : outcome LRU :=
  if bool_decide (head l = None) && bool_decide (tail l = None) then
    let l := with_tail (with_head l node) node in
    l ← set_next l node None;
    set_prev l node None
  else
    l ← set_prev l node None;
    l ← set_next l node (head l);
    l ← set_prev l (head l) node;
    mret (with_head l node).

Definition MoveToFront (l : LRU) (node : ptr) : outcome LRU :=
  if bool_decide (head l = node) then mret l
  else l ← RemoveNode l node; addToFront l node.

Definition RemoveLRU (l : LRU) : outcome (string * LRU) :=
  match tail l with
  | None => mret (EmptyString, l)
  | Some _ =>
      n ← deref l (tail l);
      l' ← RemoveNode l (tail l);
      mret (key n, l')
  end.

Definition Add (l : LRU) (k : string) : outcome (ptr * LRU) :=
  let a := fresh (dom (cells l)) in
  let l := with_cells l (<[a := mkNode k None None]> (cells l)) in
  l' ← addToFront l (Some a);
  mret (Some a, l').

(** ** The shape of a well-formed list *)

Fixpoint dllseg (h : gmap loc Node) (p : ptr) (xs : list (loc * string)) (nx : ptr) : Prop :=
  match xs with
  | [] => True
  | (a, k) :: xs' =>
      h !! a = Some (mkNode k p (from_option (λ x, Some x.1) nx (list.head xs'))) ∧
      dllseg h (Some a) xs' nx
  end.

Definition first_ptr (xs : list (loc * string)) : ptr := fst <$> list.head xs.
Definition last_ptr (xs : list (loc * string)) : ptr := fst <$> last xs.

Record dll (l : LRU) (xs : list (loc * string)) : Prop := {
  dll_head : head l = first_ptr xs;
  dll_tail : tail l = last_ptr xs;
  dll_seg : dllseg (cells l) None xs None;
  dll_nodup : NoDup xs.*1
}.

(** ** Segments *)

Lemma dllseg_frame h a n p xs nx :
  a ∉ xs.*1 → dllseg h p xs nx → dllseg (<[a := n]> h) p xs nx.
Proof.
  revert p. induction xs as [|[b k] xs IH]; intros p; simpl; [done|].
  intros [Hab Hn]%not_elem_of_cons [Hb Hs]. split; [|by apply IH].
  by rewrite lookup_insert_ne.
Qed.

Lemma dllseg_app h p xs ys nx :
  dllseg h p (xs ++ ys) nx ↔
  dllseg h p xs (from_option (λ x, Some x.1) nx (list.head ys)) ∧
  dllseg h (from_option (λ x, Some x.1) p (last xs)) ys nx.
Proof.
  revert p. induction xs as [|[a k] xs IH]; intros p; [simpl; tauto|].
  cbn [app dllseg]. rewrite IH.
  assert (from_option (λ x, Some x.1) p (last ((a, k) :: xs)) =
          from_option (λ x, Some x.1) (Some a) (last xs)) as ->.
  { rewrite last_cons. by destruct (last xs). }
  destruct xs; simpl; tauto.
Qed.

Lemma dllseg_snoc h p xs a k nx :
  dllseg h p (xs ++ [(a, k)]) nx ↔
  dllseg h p xs (Some a) ∧
  h !! a = Some (mkNode k (from_option (λ x, Some x.1) p (last xs)) nx).
Proof. rewrite dllseg_app. simpl. tauto. Qed.

(** Redirecting the pointer that leaves a segment at its last node. *)
Lemma dllseg_set_next h p xs b k nx nx' :
  b ∉ xs.*1 → dllseg h p (xs ++ [(b, k)]) nx →
  dllseg (<[b := mkNode k (from_option (λ x, Some x.1) p (last xs)) nx']> h)
    p (xs ++ [(b, k)]) nx'.
Proof.
  intros Hb. rewrite !dllseg_snoc. intros [Hs _]. simplify_map_eq.
  split; [by apply dllseg_frame|done].
Qed.

Lemma dllseg_lookup h p xs a k ys nx :
  dllseg h p (xs ++ (a, k) :: ys) nx →
  h !! a = Some (mkNode k (from_option (λ x, Some x.1) p (last xs))
                          (from_option (λ x, Some x.1) nx (list.head ys))).
Proof. rewrite dllseg_app. simpl. tauto. Qed.

Lemma NoDup_fmap_middle (xs : list (loc * string)) a k ys :
  NoDup ((xs ++ (a, k) :: ys).*1) →
  (a ∉ xs.*1) ∧ (a ∉ ys.*1) ∧ NoDup ((xs ++ ys).*1) ∧
  (∀ b, b ∈ xs.*1 → b ∉ ys.*1).
Proof.
  rewrite !fmap_app, fmap_cons. simpl.
  rewrite !NoDup_app, NoDup_cons. set_solver.
Qed.

Lemma NoDup_fmap_adjacent (xs : list (loc * string)) b kb c kc ys :
  NoDup (((xs ++ [(b, kb)]) ++ (c, kc) :: ys).*1) →
  (b ∉ xs.*1) ∧ (c ∉ (xs ++ [(b, kb)]).*1) ∧ (c ∉ ys.*1) ∧ (b ∉ ys.*1) ∧ b ≠ c.
Proof.
  rewrite !fmap_app, fmap_cons. cbn [fst fmap list_fmap].
  intros (H1 & Hd & H2)%NoDup_app.
  apply NoDup_app in H1 as (_ & Hb & _). apply NoDup_cons in H2 as [Hc _].
  split_and!; [| |done| |].
  - intros Hx. by apply (Hb b Hx), list_elem_of_singleton.
  - intros Hx. apply (Hd c Hx), elem_of_cons. by left.
  - intros Hy. apply (Hd b); [apply elem_of_app; right; by apply list_elem_of_singleton|].
    apply elem_of_cons. by right.
  - intros ->. apply (Hd c); [apply elem_of_app; right; by apply list_elem_of_singleton|].
    apply elem_of_cons. by left.
Qed.

(** ** What the operations do to a well-formed list *)

(** [RemoveNode] neither allocates nor touches the key of any node. *)
Definition same_keys (l l' : LRU) : Prop :=
  ∀ a, key <$> (cells l' !! a) = key <$> (cells l !! a).

#[export] Instance same_keys_equiv : Equivalence same_keys.
Proof. split; unfold same_keys; [done|by intros ?? ? ?|intros ??? H1 H2 a; by rewrite H2]. Qed.

Lemma same_keys_insert l a n n' :
  cells l !! a = Some n → key n' = key n →
  same_keys l (with_cells l (<[a := n']> (cells l))).
Proof.
  intros Ha Hk b. simpl. rewrite lookup_insert. case_decide; subst; [|done].
  rewrite Ha. simpl. congruence.
Qed.

Lemma set_next_eq l a n v :
  cells l !! a = Some n →
  set_next l (Some a) v =
    Ret (with_cells l (<[a := mkNode (key n) (prev n) v]> (cells l))).
Proof. intros Ha. simpl. by rewrite Ha. Qed.

Lemma set_prev_eq l a n v :
  cells l !! a = Some n →
  set_prev l (Some a) v =
    Ret (with_cells l (<[a := mkNode (key n) v (next n)]> (cells l))).
Proof. intros Ha. simpl. by rewrite Ha. Qed.

Lemma deref_eq l a n : cells l !! a = Some n → deref l (Some a) = Ret n.
Proof. intros Ha. unfold deref. simpl. by rewrite Ha. Qed.

Lemma last_ptr_elem xs a : last_ptr xs = Some a → a ∈ xs.*1.
Proof.
  unfold last_ptr. intros (x & Hx & ->)%fmap_Some.
  apply list_elem_of_fmap_2. by apply last_Some_elem_of.
Qed.

Lemma first_ptr_elem xs a : first_ptr xs = Some a → a ∈ xs.*1.
Proof.
  destruct xs as [|[b k] xs]; cbn; [done|]. intros [= ->]. apply elem_of_cons. by left.
Qed.

Lemma last_ptr_snoc xs a k : last_ptr (xs ++ [(a, k)]) = Some a.
Proof. unfold last_ptr. by rewrite last_snoc. Qed.

Lemma last_ptr_app_cons xs y ys : last_ptr (xs ++ y :: ys) = last_ptr (y :: ys).
Proof. unfold last_ptr. by rewrite last_app_cons. Qed.

Lemma first_ptr_snoc_app xs y zs : first_ptr ((xs ++ [y]) ++ zs) = first_ptr (xs ++ [y]).
Proof. by destruct xs. Qed.

Lemma dll_nil l : head l = None → tail l = None → dll l [].
Proof. intros. split; [done|done|done|apply NoDup_nil_2]. Qed.

Section remove.
Context (l : LRU) (a : loc) (k : string).

Lemma RemoveNode_only :
  dll l [(a, k)] →
  ∃ l', RemoveNode l (Some a) = Ret l' ∧ dll l' [] ∧ same_keys l l'.
Proof.
  intros [Hh Ht Hs Hn]. unfold RemoveNode. rewrite Hh, Ht.
  rewrite !bool_decide_true by done. eexists. split; [reflexivity|].
  split; [by apply dll_nil|done].
Qed.

Lemma RemoveNode_first b kb ys :
  dll l ((a, k) :: (b, kb) :: ys) →
  ∃ l', RemoveNode l (Some a) = Ret l' ∧ dll l' ((b, kb) :: ys) ∧ same_keys l l'.
Proof.
  intros [Hh Ht (Ha & Hb & Hs) Hn]. apply NoDup_cons in Hn as [Hna Hn].
  unfold RemoveNode. rewrite Hh, Ht, (bool_decide_true (first_ptr _ = _)) by done.
  rewrite bool_decide_false; [|intros Hl; apply Hna, (last_ptr_elem ((b, kb) :: ys)), Hl].
  simpl. rewrite (deref_eq _ _ _ Ha). simpl. rewrite Hb. simpl.
  eexists. split; [reflexivity|]. split; [|by eapply (same_keys_insert l b)].
  constructor; simpl; [done|by rewrite Ht| |done].
  apply NoDup_cons in Hn as [Hnb _]. simplify_map_eq. split; [done|].
  by apply dllseg_frame.
Qed.

Lemma RemoveNode_last xs b kb :
  dll l ((xs ++ [(b, kb)]) ++ [(a, k)]) →
  ∃ l', RemoveNode l (Some a) = Ret l' ∧ dll l' (xs ++ [(b, kb)]) ∧ same_keys l l'.
Proof.
  intros [Hh Ht Hs Hn]. apply NoDup_fmap_middle in Hn as (Ha1 & _ & Hn & _).
  rewrite app_nil_r in Hn.
  apply dllseg_snoc in Hs as [Hs Ha]. pose proof Hs as [_ Hb]%dllseg_snoc.
  rewrite last_snoc in Ha. simpl in Ha.
  unfold RemoveNode. rewrite Hh, Ht, last_ptr_snoc.
  rewrite (bool_decide_false (first_ptr _ = _)).
  2: { rewrite first_ptr_snoc_app. intros Hf. by apply Ha1, first_ptr_elem. }
  rewrite bool_decide_true by done. simpl.
  rewrite (deref_eq _ _ _ Ha). simpl. rewrite Hb. simpl.
  eexists. split; [reflexivity|]. split; [|by eapply (same_keys_insert l b)].
  constructor; simpl; [|by rewrite last_ptr_snoc| |done].
  - rewrite Hh. by destruct xs.
  - rewrite fmap_app in Hn. apply NoDup_app in Hn as (_ & Hn & _).
    apply (dllseg_set_next _ _ _ _ _ (Some a)); [set_solver|done].
Qed.

Lemma RemoveNode_middle xs b kb c kc ys :
  dll l ((xs ++ [(b, kb)]) ++ (a, k) :: (c, kc) :: ys) →
  ∃ l', RemoveNode l (Some a) = Ret l' ∧
    dll l' ((xs ++ [(b, kb)]) ++ (c, kc) :: ys) ∧ same_keys l l'.
Proof.
  intros [Hh Ht Hs Hn]. apply NoDup_fmap_middle in Hn as (Ha1 & Ha2 & Hn & Hd).
  pose proof (dllseg_lookup _ _ _ _ _ _ _ Hs) as Ha.
  apply dllseg_app in Hs as [Hs1 [_ Hs2]]. simpl in Hs1, Hs2.
  pose proof Hs1 as [_ Hb]%dllseg_snoc. pose proof Hs2 as [Hc Hys].
  rewrite last_snoc in Ha. simpl in Ha.
  pose proof (NoDup_fmap_adjacent _ _ _ _ _ _ Hn) as (Hbx & Hcx & Hcy & Hby & Hbc).
  assert (a ≠ b) as Hab by (intros ->; apply Ha1; rewrite fmap_app; apply elem_of_app; right; by apply list_elem_of_singleton).
  assert (a ≠ c) as Hac by (intros ->; apply Ha2, elem_of_cons; by left).
  clear Hd.
  unfold RemoveNode.
  rewrite Hh, Ht, (bool_decide_false (first_ptr _ = _)).
  2: { rewrite first_ptr_snoc_app. intros Hf. by apply Ha1, first_ptr_elem. }
  rewrite bool_decide_false.
  2: { rewrite last_ptr_app_cons. intros Hl.
       apply Ha2, (last_ptr_elem ((c, kc) :: ys)), Hl. }
  simpl. rewrite (deref_eq _ _ _ Ha). simpl. rewrite Hb. simpl.
  rewrite (deref_eq _ a (mkNode k (Some b) (Some c))) by (simpl; by simplify_map_eq).
  simpl. rewrite lookup_insert_ne, Hc by done. simpl.
  eexists. split; [reflexivity|]. split.
  - constructor; simpl; [|by rewrite Ht, !last_ptr_app_cons| |done].
    { rewrite Hh. by destruct xs. }
    apply dllseg_app. simpl. rewrite last_snoc. simpl. split.
    + apply dllseg_frame; [done|]. by apply (dllseg_set_next _ _ _ _ _ (Some a)).
    + rewrite lookup_insert_eq. split; [done|]. by do 2 (apply dllseg_frame; [done|]).
  - intros x. simpl. rewrite !lookup_insert.
    repeat case_decide; subst; [by rewrite Hc|by rewrite Hb|done].
Qed.

(** Removing any node of the list, wherever it is. *)
Lemma RemoveNode_dll xs ys :
  dll l (xs ++ (a, k) :: ys) →
  ∃ l', RemoveNode l (Some a) = Ret l' ∧ dll l' (xs ++ ys) ∧ same_keys l l'.
Proof.
  destruct xs as [|[b kb] xs _] using rev_ind; destruct ys as [|[c kc] ys].
  - apply RemoveNode_only.
  - apply RemoveNode_first.
  - rewrite app_nil_r. apply RemoveNode_last.
  - apply RemoveNode_middle.
Qed.
End remove.

(** [addToFront] pushes a node that is not in the list. *)
Lemma addToFront_dll l xs a n :
  dll l xs → cells l !! a = Some n → a ∉ xs.*1 →
  ∃ l', addToFront l (Some a) = Ret l' ∧ dll l' ((a, key n) :: xs) ∧ same_keys l l'.
Proof.
  intros [Hh Ht Hs Hn] Ha Hin. unfold addToFront. rewrite Hh, Ht.
  destruct xs as [|[b k] xs].
  - rewrite !bool_decide_true by done. simpl. rewrite Ha. simpl.
    rewrite lookup_insert_eq. simpl. eexists. split; [reflexivity|]. split.
    + split; [done|done| |apply NoDup_singleton]. simpl. by rewrite insert_insert_eq, lookup_insert_eq.
    + intros x. simpl. rewrite !lookup_insert. case_decide; subst; [by rewrite Ha|done].
  - rewrite (bool_decide_false (first_ptr _ = _)) by done. simpl. rewrite Ha. simpl.
    rewrite lookup_insert_eq. simpl. rewrite Hh.
    destruct Hs as [Hb Hs]. apply not_elem_of_cons in Hin as [Hab Hin]. simpl in Hab.
    apply NoDup_cons in Hn as [Hbx Hn].
    simpl. rewrite insert_insert_eq, lookup_insert_ne, Hb by done. simpl.
    eexists. split; [reflexivity|]. split.
    + split; [done|done| |].
      * simpl. rewrite lookup_insert_ne, lookup_insert_eq by done. split; [done|].
        rewrite lookup_insert_eq. split; [done|]. by do 2 (apply dllseg_frame; [done|]).
      * simpl. apply NoDup_cons. split; [by apply not_elem_of_cons|].
        apply NoDup_cons. done.
    + intros x. simpl. rewrite !lookup_insert.
      repeat case_decide; subst; [by rewrite Hb|by rewrite Ha|done].
Qed.

Lemma same_keys_lookup l l' a k :
  same_keys l l' → key <$> (cells l !! a) = Some k →
  ∃ n, cells l' !! a = Some n ∧ key n = k.
Proof. intros Hk Ha. rewrite <-Hk in Ha. by apply fmap_Some in Ha as (n & -> & ->); eauto. Qed.

Lemma dll_key l xs a k ys : dll l (xs ++ (a, k) :: ys) → key <$> (cells l !! a) = Some k.
Proof. intros [_ _ Hs _]. by rewrite (dllseg_lookup _ _ _ _ _ _ _ Hs). Qed.

(** [MoveToFront] makes a node of the list the most recent one. *)
Lemma MoveToFront_dll l xs a k ys :
  dll l (xs ++ (a, k) :: ys) →
  ∃ l', MoveToFront l (Some a) = Ret l' ∧ dll l' ((a, k) :: xs ++ ys) ∧ same_keys l l'.
Proof.
  intros Hd. unfold MoveToFront.
  pose proof (dll_nodup _ _ Hd) as (Hax & Hay & _)%NoDup_fmap_middle.
  destruct (decide (head l = Some a)) as [Hf|Hf].
  - rewrite bool_decide_true by done.
    assert (xs = []) as ->.
    { destruct Hd as [Hh _ _ _]. rewrite Hf in Hh. destruct xs as [|[b kb] xs]; [done|].
      injection Hh as ->. destruct Hax. apply elem_of_cons. by left. }
    exists l. split; [done|]. split; [done|reflexivity].
  - rewrite bool_decide_false by done.
    destruct (RemoveNode_dll l a k xs ys Hd) as (l1 & -> & Hd1 & Hk1). simpl.
    destruct (same_keys_lookup l l1 a k Hk1) as (n & Hn & <-); [by eapply dll_key|].
    destruct (addToFront_dll l1 (xs ++ ys) a n) as (l2 & -> & Hd2 & Hk2); [done|done| |].
    { rewrite fmap_app. by intros [|]%elem_of_app. }
    exists l2. split; [done|]. split; [done|]. by etrans.
Qed.

(** [RemoveLRU] returns the key of the oldest node and drops that node. *)
Lemma RemoveLRU_dll l xs a k :
  dll l (xs ++ [(a, k)]) →
  ∃ l', RemoveLRU l = Ret (k, l') ∧ dll l' xs ∧ same_keys l l'.
Proof.
  intros Hd. unfold RemoveLRU.
  assert (tail l = Some a) as Ht by (rewrite (dll_tail _ _ Hd); apply last_ptr_snoc).
  destruct (RemoveNode_dll l a k xs [] Hd) as (l' & Hr & Hd' & Hk).
  pose proof (dll_seg _ _ Hd) as Hs. apply dllseg_lookup in Hs.
  rewrite Ht, (deref_eq _ _ _ Hs). simpl. rewrite Hr. simpl.
  rewrite app_nil_r in Hd'. eauto.
Qed.

Lemma RemoveLRU_nil l : dll l [] → RemoveLRU l = Ret ("", l).
Proof. intros [_ Ht _ _]. unfold RemoveLRU. by rewrite Ht. Qed.

(** [Add] allocates a node for the key and makes it the most recent one; the
    nodes allocated before keep their keys. *)
Lemma Add_dll l xs k :
  dll l xs →
  ∃ a l', Add l k = Ret (Some a, l') ∧ dll l' ((a, k) :: xs) ∧ a ∉ xs.*1.
Proof.
  intros Hd. unfold Add. set (a := fresh (dom (cells l))).
  assert (cells l !! a = None) as Ha by (apply not_elem_of_dom, is_fresh).
  assert (a ∉ xs.*1) as Hin.
  { intros ([b kb] & -> & Hin)%list_elem_of_fmap. apply list_elem_of_split in Hin as (ys & zs & ->).
    apply dll_key in Hd. simpl in Ha. by rewrite Ha in Hd. }
  set (l1 := with_cells l _).
  assert (dll l1 xs) as Hd1.
  { destruct Hd as [Hh Ht Hs Hn]. split; [done|done| |done]. by apply dllseg_frame. }
  destruct (addToFront_dll l1 xs a (mkNode k None None)) as (l2 & -> & Hd2 & _); [done| |done|].
  { simpl. by rewrite lookup_insert_eq. }
  simpl. exists a, l2. done.
Qed.

(** ** Properties *)

(** C29. The linked list operations are correct on every well-formed list, the
    empty one too, and wherever the node stands (only node, head, tail or middle):
    no operation dereferences nil, [RemoveNode] unlinks exactly that node,
    [MoveToFront] makes it the first and keeps the order of the others, [Add]
    pushes a fresh node, [RemoveLRU] unlinks the last node and returns its key
    (the empty string, and no change, on the empty list), and the result is again
    a well-formed doubly linked list. *)
Theorem linked_list_correct (l : LRU) (zs : list (loc * string)) :
  dll l zs →
  (∀ xs a k ys, zs = xs ++ (a, k) :: ys →
    (∃ l', RemoveNode l (Some a) = Ret l' ∧ dll l' (xs ++ ys)) ∧
    (∃ l', MoveToFront l (Some a) = Ret l' ∧ dll l' ((a, k) :: xs ++ ys))) ∧
  (∀ k, ∃ b l', Add l k = Ret (Some b, l') ∧ b ∉ zs.*1 ∧ dll l' ((b, k) :: zs)) ∧
  (zs = [] → RemoveLRU l = Ret ("", l)) ∧
  (∀ xs a k, zs = xs ++ [(a, k)] → ∃ l', RemoveLRU l = Ret (k, l') ∧ dll l' xs).
Proof.
  intros Hd. split_and!.
  - intros xs a k ys ->. split.
    + destruct (RemoveNode_dll _ _ _ _ _ Hd) as (l' & ? & ? & _). eauto.
    + destruct (MoveToFront_dll _ _ _ _ _ Hd) as (l' & ? & ? & _). eauto.
  - intros k. destruct (Add_dll _ _ k Hd) as (b & l' & ? & Hd' & _). exists b, l'.
    split_and!; [done| |done]. apply dll_nodup in Hd'. by apply NoDup_cons in Hd' as [? _].
  - intros ->. by apply RemoveLRU_nil.
  - intros xs a k ->. destruct (RemoveLRU_dll _ _ _ _ Hd) as (l' & ? & ? & _). eauto.
Qed.

Definition demo_list : LRU :=
  mkLRU {[ 1%positive := mkNode "x" None (Some 2%positive);
           2%positive := mkNode "y" (Some 1%positive) None ]} (Some 1%positive) (Some 2%positive).

Lemma demo_list_dll : dll demo_list [(1%positive, "x"); (2%positive, "y")].
Proof.
  constructor; [reflexivity|reflexivity|simpl; split_and!; reflexivity|].
  apply NoDup_ListNoDup. repeat constructor; simpl; intuition discriminate.
Qed.

(** At the tail of a list of two, and on the empty list. *)
Lemma linked_list_correct_witness :
  (∃ l', RemoveNode demo_list (Some 2%positive) = Ret l' ∧ dll l' [(1%positive, "x")]) ∧
  (∃ l', MoveToFront demo_list (Some 2%positive) = Ret l' ∧
     dll l' [(2%positive, "y"); (1%positive, "x")]) ∧
  (∃ l', RemoveLRU demo_list = Ret ("y", l') ∧ dll l' [(1%positive, "x")]) ∧
  (∃ b l', Add (LRU_New 0) "z" = Ret (Some b, l') ∧ b ∉ [] ∧ dll l' [(b, "z")]).
Proof.
  destruct (linked_list_correct demo_list _ demo_list_dll) as (H1 & _ & _ & H4).
  destruct (H1 [(1%positive, "x")] 2%positive "y" [] eq_refl) as [H1a H1b]. split_and!; [done|done| |].
  - by apply (H4 [(1%positive, "x")] 2%positive "y").
  - apply (linked_list_correct (LRU_New 0) []). by apply dll_nil.
Defined.

End Lru.
