(* ===== verification/Metrics.v ===== *)
(** * internal/metrics: the calls made on the Prometheus collectors

    Prometheus is a third-party library, so a collector is modelled by the
    sequence of calls the program makes on it (newest first); every method of
    [Collector] appends one call.  Counter readings are derived from the trace. *)

From S2P Require Import Prelude.

Inductive metric_call :=
| OperationsTotal_Inc (operation : string)
| CacheHits_Inc
| CacheMisses_Inc
| OperationDuration_Observe
| MemoryBytes_Set (bytes : Z)
| ItemsCount_Set (count : Z)
| EvictionsTotal_Inc
| ExpirationsTotal_Inc
| ActiveConnections_Inc
| ActiveConnections_Dec.

#[export] Instance metric_call_eq_dec : EqDecision metric_call.
Proof. solve_decision. Defined.

Definition Collector := list metric_call.

Definition NewCollector : Collector := [].
Definition RecordOperation (op : string) (c : Collector) : Collector := OperationsTotal_Inc op :: c.
Definition RecordCacheHit (c : Collector) : Collector := CacheHits_Inc :: c.
Definition RecordCacheMiss (c : Collector) : Collector := CacheMisses_Inc :: c.
Definition RecordOperationDuration (c : Collector) : Collector := OperationDuration_Observe :: c.
Definition UpdateMemoryUsage (bytes : Z) (c : Collector) : Collector := MemoryBytes_Set bytes :: c.
Definition UpdateItemsCount (count : Z) (c : Collector) : Collector := ItemsCount_Set count :: c.
Definition RecordEviction (c : Collector) : Collector := EvictionsTotal_Inc :: c.
Definition RecordExpiration (c : Collector) : Collector := ExpirationsTotal_Inc :: c.
Definition IncrementActiveConnections (c : Collector) : Collector := ActiveConnections_Inc :: c.
Definition DecrementActiveConnections (c : Collector) : Collector := ActiveConnections_Dec :: c.

(** The reading of a counter: how often it was incremented. *)
Fixpoint counter (e : metric_call) (c : Collector) : nat :=
  match c with
  | [] => O
  | x :: c => (if decide (x = e) then 1 else 0) + counter e c
  end.

(** The reading of a gauge: the last value set, [0] before that. *)
Fixpoint memory_gauge (c : Collector) : Z :=
  match c with
  | [] => 0
  | MemoryBytes_Set b :: _ => b
  | _ :: c => memory_gauge c
  end.

Fixpoint items_gauge (c : Collector) : Z :=
  match c with
  | [] => 0
  | ItemsCount_Set n :: _ => n
  | _ :: c => items_gauge c
  end.

(** Evaluate the comparisons of two known calls. *)
Ltac count_calls :=
  cbn [counter];
  repeat first [rewrite decide_True by reflexivity | rewrite decide_False by discriminate];
  cbn [Nat.add].
