(* ===== verification/Cache.v ===== *)
(** * internal/cache: the bounded TTL cache

    The data map, the recency list (a heap of nodes, file Lru), the int64
    memory counter, the metrics trace and the write lock.  Every operation is
    the whole method of cache.go.  [time.Now()] is the argument [now]; the
    order in which Go ranges over a map is the argument [order]. *)

From S2P Require Import Prelude GoStd Lru Metrics.
Local Open Scope Z_scope.

Module Cache.

Record CacheItem := mkItem { value : string; expiresAt : Z; node : Lru.ptr }.

Record Cache := mkCache {
  data : gmap string CacheItem;
  lru : Lru.LRU;
  maxSize : Z;
  mu : bool;                     (* true while the write lock is held *)
  metrics : Collector;
  currentMemoryBytes : Z         (* int64 *)
}.

Record SnapshotEntry := mkEntry { Value : string; ExpiresAt : Z }.

Definition NewCache (maxSize : Z) (metricsCollector : Collector) : Cache :=
  mkCache ∅ (Lru.mkLRU ∅ None None) maxSize false metricsCollector 0.

(** ** Field updates *)

Definition with_data (c : Cache) d := mkCache d (lru c) (maxSize c) (mu c) (metrics c) (currentMemoryBytes c).
Definition with_lru (c : Cache) l := mkCache (data c) l (maxSize c) (mu c) (metrics c) (currentMemoryBytes c).
Definition with_mu (c : Cache) b := mkCache (data c) (lru c) (maxSize c) b (metrics c) (currentMemoryBytes c).
Definition with_metrics (c : Cache) (f : Collector → Collector) :=
  mkCache (data c) (lru c) (maxSize c) (mu c) (f (metrics c)) (currentMemoryBytes c).
(** [c.currentMemoryBytes += d], in int64. *)
Definition add_mem (c : Cache) (d : Z) :=
  mkCache (data c) (lru c) (maxSize c) (mu c) (metrics c) (wrap64 (currentMemoryBytes c + d)).

Definition data_len (c : Cache) : Z := Z.of_nat (size (data c)).

(** ** The lock *)

Definition Lock (c : Cache) : outcome Cache :=
  if mu c then Deadlock else mret (with_mu c true).
Definition Unlock (c : Cache) : outcome Cache :=
  if mu c then mret (with_mu c false) else Panic.
(** [RLock] blocks while the write lock is held; it leaves no trace here since
    every read section ends in the same call. *)
Definition RLock (c : Cache) : outcome unit :=
  if mu c then Deadlock else mret ().

(** ** Operations on the locked cache *)

Definition calculateItemSize (key value : string) : Z :=
  let keySize := wrap64 (slen key + 16) in
  let valueSize := wrap64 (slen value + 16) in
  let overhead := 64 in
  wrap64 (keySize + valueSize + overhead).
#[global] Arguments calculateItemSize : simpl never.

Definition item_expired (it : CacheItem) (now : Z) : bool :=
  negb (time_IsZero (expiresAt it)) && time_After now (expiresAt it).

(** Making room: the least recently used entry goes when the cache is full. *)
Definition evict (c : Cache) : outcome Cache :=
  '(evictedKey, l) ← Lru.RemoveLRU (lru c);
  let c := with_lru c l in
  let c := match data c !! evictedKey with
           | Some it =>
               with_metrics (add_mem c (- calculateItemSize evictedKey (value it))) RecordEviction
           | None => c
           end in
  mret (with_data c (delete evictedKey (data c))).

Definition SetInternal (c : Cache) (key val : string) (ttl now : Z) : outcome Cache :=
  let existing := data c !! key in
  let c := match existing with
           | Some it => add_mem c (- calculateItemSize key (value it))
           | None => c
           end in
  c ← (if bool_decide (existing = None) && (maxSize c <=? data_len c) then
         evict c
       else mret c);
  let expires := if 0 <? ttl then now + ttl else 0 in
  c ← (match existing with
       | Some _ =>
           it ← or_panic (data c !! key);
           let c := with_data c (<[key := mkItem val expires (node it)]> (data c)) in
           l ← Lru.MoveToFront (lru c) (node it);
           mret (with_lru c l)
       | None =>
           '(n, l) ← Lru.Add (lru c) key;
           let c := with_lru c l in
           mret (with_data c (<[key := mkItem val expires n]> (data c)))
       end);
  let c := add_mem c (calculateItemSize key val) in
  let c := with_metrics c (RecordOperation "set") in
  let c := with_metrics c (UpdateItemsCount (data_len c)) in
  let c := with_metrics c (UpdateMemoryUsage (currentMemoryBytes c)) in
  mret c.

Definition GetInternal (c : Cache) (key : string) (now : Z) : outcome (string * bool * Cache) :=
  let c := with_metrics c (RecordOperation "get") in
  match data c !! key with
  | None => mret ("", false, with_metrics c RecordCacheMiss)
  | Some it =>
      if item_expired it now then
        mret ("", false, with_metrics (with_metrics c RecordCacheMiss) RecordExpiration)
      else
        let c := with_metrics c RecordCacheHit in
        l ← Lru.MoveToFront (lru c) (node it);
        mret (value it, true, with_lru c l)
  end.

Definition DeleteInternal (c : Cache) (key : string) : outcome Cache :=
  match data c !! key with
  | None => mret (with_metrics c (RecordOperation "delete"))
  | Some it =>
      let c := add_mem c (- calculateItemSize key (value it)) in
      l ← Lru.RemoveNode (lru c) (node it);
      let c := with_lru c l in
      let c := with_data c (delete key (data c)) in
      let c := with_metrics c (RecordOperation "delete") in
      let c := with_metrics c (UpdateItemsCount (data_len c)) in
      mret (with_metrics c (UpdateMemoryUsage (currentMemoryBytes c)))
  end.

(** ** The locking operations.  The bodies of [Set], [Get] and [Delete] in
    cache.go are those of the [Internal] variants between [mu.Lock()] and the
    deferred [mu.Unlock()]. *)

Definition Set_ (c : Cache) (key val : string) (ttl now : Z) : outcome Cache :=
  c ← Lock c; c ← SetInternal c key val ttl now; Unlock c.

Definition Get (c : Cache) (key : string) (now : Z) : outcome (string * bool * Cache) :=
  c ← Lock c; '(v, ok, c) ← GetInternal c key now; c ← Unlock c; mret (v, ok, c).

Definition Delete (c : Cache) (key : string) : outcome Cache :=
  c ← Lock c; c ← DeleteInternal c key; Unlock c.

Definition Snapshot (c : Cache) : outcome (gmap string SnapshotEntry * Cache) :=
  c ← Lock c;
  let snapshot := (λ v, mkEntry (value v) (expiresAt v)) <$> data c in
  c ← Unlock c;
  mret (snapshot, c).

(** One turn of the range loop of [CleanupExpired]. *)
Definition cleanup_step (now : Z) (key : string) (st : Z * Cache) : outcome (Z * Cache) :=
  let '(expiredCount, c) := st in
  match data c !! key with
  | None => mret (expiredCount, c)
  | Some it =>
      if item_expired it now then
        let c := add_mem c (- calculateItemSize key (value it)) in
        l ← Lru.RemoveNode (lru c) (node it);
        let c := with_lru c l in
        let c := with_data c (delete key (data c)) in
        mret (expiredCount + 1, with_metrics c RecordExpiration)
      else mret (expiredCount, c)
  end.

Fixpoint cleanup_loop (now : Z) (order : list string) (st : Z * Cache) : outcome (Z * Cache) :=
  match order with
  | [] => mret st
  | key :: order => st ← cleanup_step now key st; cleanup_loop now order st
  end.

Definition CleanupExpired (c : Cache) (order : list string) (now : Z) : outcome (Z * Cache) :=
  c ← Lock c;
  '(expiredCount, c) ← cleanup_loop now order (0, c);
  let c := if 0 <? expiredCount then
             let c := with_metrics c (UpdateItemsCount (data_len c)) in
             with_metrics c (UpdateMemoryUsage (currentMemoryBytes c))
           else c in
  c ← Unlock c;
  mret (expiredCount, c).

(** The keys, in the order the range loop visits them. *)
Definition GetAllKeys (c : Cache) (order : list string) : outcome (list string) :=
  _ ← RLock c;
  mret (foldl (λ keys key, keys ++ [key]) [] order).

(** ** enumeration.go *)

Definition hashInRange (hash start stop : Z) : bool :=
  if start <? stop then (start <=? hash) && (hash <? stop)
  else (start <=? hash) || (hash <? stop).

Definition GetKeysInHashRange (c : Cache) (order : list string) (start stop : Z)
    (hashFunc : string → Z) : outcome (list string) :=
  _ ← RLock c;
  mret (foldl (λ matching key,
    if hashInRange (hashFunc key) start stop then matching ++ [key] else matching) [] order).

Definition GetKeysWithValues (c : Cache) (order : list string) (start stop : Z)
    (hashFunc : string → Z) (now : Z) : outcome (gmap string string) :=
  _ ← RLock c;
  mret (foldl (λ result key,
    match data c !! key with
    | None => result
    | Some it =>
        if item_expired it now then result
        else if hashInRange (hashFunc key) start stop then <[key := value it]> result
        else result
    end) ∅ order).

Definition CountKeysInRange (c : Cache) (order : list string) (start stop : Z)
    (hashFunc : string → Z) : outcome Z :=
  _ ← RLock c;
  mret (foldl (λ count key,
    if hashInRange (hashFunc key) start stop then count + 1 else count) 0 order).

(** [order] is a possible iteration order over the map. *)
Definition range_order {A} (m : gmap string A) (order : list string) : Prop :=
  order ≡ₚ (map_to_list m).*1.

End Cache.
