(* ===== verification/CacheSpec.v ===== *)
(** * What the cache promises

    The abstract cache is a list of entries, most recently used first.  The
    concrete cache (hash map + doubly linked list + counters) refines it:
    every method terminates without panic on a well-formed cache and acts on
    the abstract list as the corresponding [spec_*] function. *)

From S2P Require Import Prelude GoStd Lru Metrics Cache.
Import Cache.
Local Open Scope Z_scope.

(** ** The abstract cache *)

Abbreviation entry := (string * (string * Z))%type.   (* key, (value, expiry) *)

Definition live (now : Z) (e : entry) : Prop := ¬ (e.2.2 ≠ 0 ∧ e.2.2 < now).
#[export] Instance live_dec now e : Decision (live now e).
Proof. unfold live. apply _. Defined.

Definition spec_del (k : string) (es : list entry) : list entry :=
  filter (λ e, e.1 ≠ k) es.

Fixpoint spec_find (k : string) (es : list entry) : option entry :=
  match es with
  | [] => None
  | e :: es => if decide (e.1 = k) then Some e else spec_find k es
  end.

Definition spec_expiry (ttl now : Z) : Z := if 0 <? ttl then now + ttl else 0.

(** An update moves the key to the front; a new key is pushed, after dropping
    the least recently used entry when the cache is full. *)
Definition spec_set (cap : Z) (k v : string) (exp : Z) (es : list entry) : list entry :=
  (k, (v, exp)) ::
  match spec_find k es with
  | Some _ => spec_del k es
  | None => if cap <=? Z.of_nat (length es) then removelast es else es
  end.

Definition spec_get (k : string) (now : Z) (es : list entry) : option string * list entry :=
  match spec_find k es with
  | Some e => if decide (live now e) then (Some e.2.1, e :: spec_del k es) else (None, es)
  | None => (None, es)
  end.

Definition spec_cleanup (now : Z) (es : list entry) : list entry := filter (live now) es.

Definition spec_memory (es : list entry) : Z :=
  foldr (λ e a, calculateItemSize e.1 e.2.1 + a) 0 es.

(** ** The representation relation *)

Abbreviation centry := (Lru.loc * entry)%type.

Definition node_of (x : centry) : Lru.loc * string := (x.1, x.2.1).
Definition item_of (x : centry) : string * CacheItem :=
  (x.2.1, mkItem x.2.2.1 x.2.2.2 (Some x.1)).

Record rep (c : Cache) (xs : list centry) : Prop := {
  rep_dll : Lru.dll (lru c) (node_of <$> xs);
  rep_data : data c = list_to_map (item_of <$> xs);
  rep_nodup : NoDup xs.*2.*1;
  rep_mem : currentMemoryBytes c = wrap64 (spec_memory xs.*2)
}.

(** [cache_rep c es]: the unlocked, well-formed cache [c] holds the entries
    [es], most recently used first. *)
Definition cache_rep (c : Cache) (es : list entry) : Prop :=
  mu c = false ∧ ∃ xs, rep c xs ∧ es = xs.*2.

(** ** Lists of entries with distinct keys *)

Lemma spec_del_id k es : k ∉ es.*1 → spec_del k es = es.
Proof.
  unfold spec_del. induction es as [|e es IH]; [done|].
  intros [Hk Hes]%not_elem_of_cons. rewrite filter_cons, decide_True by done.
  by rewrite IH.
Qed.

Lemma spec_find_None k es : spec_find k es = None ↔ k ∉ es.*1.
Proof.
  induction es as [|e es IH]; simpl; [split; [intros _; apply not_elem_of_nil|done]|].
  rewrite not_elem_of_cons, <-IH. case_decide; naive_solver.
Qed.

Section middle.
Context (es1 : list entry) (e : entry) (es2 : list entry).
Context (Hn : NoDup ((es1 ++ e :: es2).*1)).

Lemma middle_fresh : (e.1 ∉ es1.*1) ∧ (e.1 ∉ es2.*1).
Proof.
  rewrite fmap_app, fmap_cons in Hn. apply NoDup_app in Hn as (_ & Hd & H2).
  apply NoDup_cons in H2 as [H2 _]. split; [|done].
  intros Hin. apply (Hd _ Hin), elem_of_cons. by left.
Qed.

Lemma spec_find_middle : spec_find e.1 (es1 ++ e :: es2) = Some e.
Proof.
  destruct middle_fresh as [H1 _]. clear Hn. induction es1 as [|e' es IH]; simpl.
  - by rewrite decide_True.
  - apply not_elem_of_cons in H1 as [H1 H1']. rewrite decide_False by done. by apply IH.
Qed.

Lemma spec_del_middle : spec_del e.1 (es1 ++ e :: es2) = es1 ++ es2.
Proof.
  destruct middle_fresh as [H1 H2]. unfold spec_del.
  rewrite filter_app, filter_cons, decide_False by naive_solver.
  fold (spec_del e.1 es1) (spec_del e.1 es2). by rewrite !spec_del_id.
Qed.

Lemma NoDup_middle : NoDup ((es1 ++ es2).*1).
Proof.
  rewrite fmap_app, fmap_cons in Hn. rewrite fmap_app.
  apply NoDup_app in Hn as (Ha & Hd & [_ H2]%NoDup_cons). apply NoDup_app.
  split_and!; [done| |done]. intros x Hx Hx'. apply (Hd _ Hx), elem_of_cons. by right.
Qed.
End middle.

Lemma spec_memory_app es1 es2 :
  spec_memory (es1 ++ es2) = spec_memory es1 + spec_memory es2.
Proof. induction es1; simpl; [done|]. rewrite IHes1. lia. Qed.

(** ** Maps built from a list with distinct keys *)

Section list_map.
Context {V : Type}.
Implicit Types (l : list (string * V)) (m : gmap string V).

Lemma list_to_map_middle l1 k v l2 :
  NoDup ((l1 ++ (k, v) :: l2).*1) →
  (list_to_map (l1 ++ (k, v) :: l2) : gmap string V) =
    <[k := v]> (list_to_map (l1 ++ l2)).
Proof.
  intros Hn. rewrite <-list_to_map_cons. apply list_to_map_proper; [done|].
  by rewrite Permutation_middle.
Qed.

Lemma list_to_map_delete_middle l1 k v l2 :
  NoDup ((l1 ++ (k, v) :: l2).*1) →
  delete k (list_to_map (l1 ++ (k, v) :: l2) : gmap string V) =
    list_to_map (l1 ++ l2).
Proof.
  intros Hn. rewrite list_to_map_middle, delete_insert_eq, delete_id; [done| |done].
  apply not_elem_of_list_to_map_1. rewrite fmap_app, fmap_cons in Hn.
  apply NoDup_app in Hn as (_ & Hd & [H2 _]%NoDup_cons).
  rewrite fmap_app. intros [H1|H1]%elem_of_app; [|done].
  apply (Hd _ H1), elem_of_cons. by left.
Qed.
End list_map.

(** ** Reading the representation *)

Definition frame (c c' : Cache) : Prop := mu c' = mu c ∧ maxSize c' = maxSize c.

Lemma rep_ext c c' xs :
  data c' = data c → lru c' = lru c → currentMemoryBytes c' = currentMemoryBytes c →
  rep c xs → rep c' xs.
Proof. intros Hd Hl Hm [H1 H2 H3 H4]. split; congruence. Qed.

Lemma item_of_keys xs : (item_of <$> xs).*1 = xs.*2.*1.
Proof. rewrite <-!list_fmap_compose. done. Qed.

Lemma node_of_locs xs : (node_of <$> xs).*1 = xs.*1.
Proof. rewrite <-!list_fmap_compose. done. Qed.

Lemma rep_nodup_middle c xs1 a e xs2 :
  rep c (xs1 ++ (a, e) :: xs2) → NoDup ((xs1.*2 ++ e :: xs2.*2).*1).
Proof. intros [_ _ Hn _]. by rewrite (fmap_app snd), (fmap_cons snd) in Hn. Qed.

Lemma rep_lookup_Some c xs k it :
  rep c xs → data c !! k = Some it →
  ∃ xs1 a e xs2, xs = xs1 ++ (a, e) :: xs2 ∧ e.1 = k ∧
    it = mkItem e.2.1 e.2.2 (Some a).
Proof.
  intros [_ Hd _ _] Hk. rewrite Hd in Hk. apply elem_of_list_to_map_2 in Hk.
  apply list_elem_of_fmap in Hk as ([a e] & [= -> ->] & Hin).
  apply list_elem_of_split in Hin as (xs1 & xs2 & ->). by exists xs1, a, e, xs2.
Qed.

Lemma rep_lookup_None c xs k : rep c xs → data c !! k = None → k ∉ xs.*2.*1.
Proof.
  intros [_ Hd _ _] Hk. rewrite Hd in Hk. apply not_elem_of_list_to_map_2 in Hk.
  by rewrite item_of_keys in Hk.
Qed.

Lemma rep_data_len c xs : rep c xs → data_len c = Z.of_nat (length xs.*2).
Proof.
  intros [_ Hd Hn _]. unfold data_len. rewrite Hd, map_size_list_to_map.
  - by rewrite !length_fmap.
  - by rewrite item_of_keys.
Qed.

Lemma rep_lookup_spec c xs k :
  rep c xs →
  data c !! k = None ∧ spec_find k xs.*2 = None ∨
  ∃ it, data c !! k = Some it ∧ spec_find k xs.*2 = Some (k, (value it, expiresAt it)).
Proof.
  intros Hr. destruct (data c !! k) as [it|] eqn:E; [right|left].
  - destruct (rep_lookup_Some _ _ _ _ Hr E) as (xs1 & a & e & xs2 & -> & <- & ->).
    eexists. split; [done|]. rewrite fmap_app, fmap_cons. simpl.
    rewrite spec_find_middle by (by eapply rep_nodup_middle).
    by destruct e as [? []].
  - split; [done|]. apply spec_find_None. by eapply rep_lookup_None.
Qed.

(** ** Removing an entry, with whatever bookkeeping goes around it *)

Lemma wrap64_mem_sub m1 sz m2 :
  wrap64 (wrap64 (m1 + (sz + m2)) + - sz) = wrap64 (m1 + m2).
Proof. rewrite wrap64_add_l. f_equal. lia. Qed.

Lemma rep_remove c xs1 a e xs2 c' l' :
  rep c (xs1 ++ (a, e) :: xs2) →
  Lru.dll l' ((node_of <$> xs1) ++ (node_of <$> xs2)) →
  lru c' = l' → data c' = delete e.1 (data c) →
  currentMemoryBytes c' =
    wrap64 (currentMemoryBytes c + - calculateItemSize e.1 e.2.1) →
  rep c' (xs1 ++ xs2).
Proof.
  intros Hr Hl Hl' Hd' Hm'. pose proof (rep_nodup_middle _ _ _ _ _ Hr) as Hn.
  destruct Hr as [_ Hd Hn0 Hm]. split.
  - by rewrite fmap_app, Hl'.
  - rewrite Hd', Hd, !fmap_app, fmap_cons.
    change (item_of (a, e)) with (e.1, mkItem e.2.1 e.2.2 (Some a)).
    apply list_to_map_delete_middle.
    change (e.1, mkItem e.2.1 e.2.2 (Some a)) with (item_of (a, e)).
    by rewrite <-fmap_cons, <-fmap_app, item_of_keys.
  - rewrite (fmap_app snd). by eapply NoDup_middle.
  - rewrite Hm', Hm, !(fmap_app snd), (fmap_cons snd), !spec_memory_app. simpl.
    apply wrap64_mem_sub.
Qed.

Lemma rep_RemoveNode c xs1 a e xs2 :
  rep c (xs1 ++ (a, e) :: xs2) →
  ∃ l', Lru.RemoveNode (lru c) (Some a) = Ret l' ∧
    Lru.dll l' ((node_of <$> xs1) ++ (node_of <$> xs2)).
Proof.
  intros [Hl _ _ _]. rewrite fmap_app, fmap_cons in Hl.
  destruct (Lru.RemoveNode_dll _ _ _ _ _ Hl) as (l' & ? & ? & _). eauto.
Qed.

Lemma DeleteInternal_rep c xs k :
  rep c xs →
  ∃ c' xs', DeleteInternal c k = Ret c' ∧ rep c' xs' ∧
    xs'.*2 = spec_del k xs.*2 ∧ frame c c'.
Proof.
  intros Hr. unfold DeleteInternal. destruct (data c !! k) as [it|] eqn:E.
  - destruct (rep_lookup_Some _ _ _ _ Hr E) as (xs1 & a & e & xs2 & -> & <- & ->).
    destruct (rep_RemoveNode _ _ _ _ _ Hr) as (l' & Hl & Hd). simpl. rewrite Hl. simpl.
    eexists _, (xs1 ++ xs2). split; [reflexivity|]. split.
    { by eapply rep_remove. }
    split; [|done]. rewrite !(fmap_app snd), (fmap_cons snd). simpl.
    rewrite spec_del_middle by (by eapply rep_nodup_middle). done.
  - eexists _, xs. split; [reflexivity|]. split; [by apply (rep_ext c)|].
    split; [|done]. rewrite spec_del_id by (by eapply rep_lookup_None). done.
Qed.

(** ** Moving and pushing entries *)

Lemma rep_MoveToFront c xs1 a e xs2 :
  rep c (xs1 ++ (a, e) :: xs2) →
  ∃ l', Lru.MoveToFront (lru c) (Some a) = Ret l' ∧
    Lru.dll l' (node_of <$> ((a, e) :: xs1 ++ xs2)).
Proof.
  intros [Hl _ _ _]. rewrite fmap_app, fmap_cons in Hl.
  destruct (Lru.MoveToFront_dll _ _ _ _ _ Hl) as (l' & ? & ? & _).
  exists l'. split; [done|]. by rewrite fmap_cons, fmap_app.
Qed.

(** The entry of node [a] gets a new value and expiry and becomes the first. *)
Lemma rep_update c xs1 a e xs2 c' l' v exp :
  rep c (xs1 ++ (a, e) :: xs2) →
  Lru.dll l' (node_of <$> ((a, e) :: xs1 ++ xs2)) →
  lru c' = l' → data c' = <[e.1 := mkItem v exp (Some a)]> (data c) →
  currentMemoryBytes c' =
    wrap64 (currentMemoryBytes c - calculateItemSize e.1 e.2.1 + calculateItemSize e.1 v) →
  rep c' ((a, (e.1, (v, exp))) :: xs1 ++ xs2).
Proof.
  intros Hr Hl Hl' Hd' Hm'. pose proof (rep_nodup_middle _ _ _ _ _ Hr) as Hn.
  pose proof (middle_fresh _ _ _ Hn) as [H1 H2]. pose proof (NoDup_middle _ _ _ Hn) as Hn2.
  destruct Hr as [_ Hd Hn0 Hm]. split.
  - by rewrite Hl'.
  - rewrite Hd', Hd, fmap_app, fmap_cons.
    change (item_of (a, e)) with (e.1, mkItem e.2.1 e.2.2 (Some a)).
    rewrite list_to_map_middle, insert_insert_eq; [by rewrite fmap_cons, fmap_app|].
    change (e.1, mkItem e.2.1 e.2.2 (Some a)) with (item_of (a, e)).
    by rewrite <-fmap_cons, <-fmap_app, item_of_keys.
  - rewrite (fmap_cons snd), (fmap_app snd). simpl. apply NoDup_cons. split; [|done].
    rewrite fmap_app. by intros [|]%elem_of_app.
  - rewrite Hm', Hm, !(fmap_app snd), !(fmap_cons snd), (fmap_app snd). simpl.
    rewrite !spec_memory_app. simpl.
    rewrite <-Z.add_opp_r, <-Z.add_assoc, wrap64_add_l. f_equal. lia.
Qed.

(** A key that is not in the cache gets a fresh node at the front. *)
Lemma rep_push c xs k v exp c' a l' :
  rep c xs → k ∉ xs.*2.*1 →
  Lru.dll l' ((a, k) :: (node_of <$> xs)) →
  lru c' = l' → data c' = <[k := mkItem v exp (Some a)]> (data c) →
  currentMemoryBytes c' = wrap64 (currentMemoryBytes c + calculateItemSize k v) →
  rep c' ((a, (k, (v, exp))) :: xs).
Proof.
  intros [_ Hd Hn Hm] Hk Hl Hl' Hd' Hm'. split.
  - by rewrite Hl'.
  - by rewrite Hd', Hd.
  - by apply NoDup_cons.
  - rewrite Hm', Hm, wrap64_add_l, (fmap_cons snd). f_equal. simpl spec_memory. lia.
Qed.

(** ** The locked operations refine the abstract ones *)

Lemma GetInternal_rep c xs k now :
  rep c xs →
  ∃ v ok c' xs', GetInternal c k now = Ret (v, ok, c') ∧ rep c' xs' ∧ frame c c' ∧
    (if ok : bool then Some v else None, xs'.*2) = spec_get k now xs.*2.
Proof.
  intros Hr. unfold GetInternal, spec_get. simpl.
  destruct (data c !! k) as [it|] eqn:E.
  2: { eexists _, _, _, xs. split; [reflexivity|]. split; [by apply (rep_ext c)|].
       split; [done|]. by rewrite (proj2 (spec_find_None k _)) by (by eapply rep_lookup_None). }
  destruct (rep_lookup_Some _ _ _ _ Hr E) as (xs1 & a & e & xs2 & -> & <- & ->).
  pose proof (rep_nodup_middle _ _ _ _ _ Hr) as Hn.
  rewrite (fmap_app snd), (fmap_cons snd). simpl snd.
  rewrite spec_find_middle, spec_del_middle by done.
  destruct (item_expired _ now) eqn:Ex.
  - eexists _, _, _, (xs1 ++ (a, e) :: xs2). split; [reflexivity|].
    split; [by apply (rep_ext c)|]. split; [done|].
    rewrite decide_False; [by rewrite (fmap_app snd)|].
    unfold item_expired, time_IsZero, time_After in Ex. simpl in Ex.
    unfold live. lia.
  - destruct (rep_MoveToFront _ _ _ _ _ Hr) as (l' & Hl & Hd). simpl. rewrite Hl. simpl.
    eexists _, _, _, ((a, e) :: xs1 ++ xs2). split; [reflexivity|].
    rewrite decide_True; [|unfold item_expired, time_IsZero, time_After in Ex; simpl in Ex; unfold live; lia].
    split; [|split; [done|by rewrite (fmap_cons snd), (fmap_app snd)]].
    destruct e as [k [v exp]]. eapply (rep_update c _ _ (k, (v, exp))); [done|done|done| |].
    + simpl. by rewrite insert_id.
    + simpl. destruct Hr as [_ _ _ ->]. by rewrite Z.sub_add, (wrap64_small (wrap64 _)) by apply wrap64_range.
Qed.

Lemma evict_rep c xs :
  rep c xs →
  ∃ c' xs', evict c = Ret c' ∧ rep c' xs' ∧ xs' = removelast xs ∧ frame c c' ∧
    (∀ k, data c !! k = None → data c' !! k = None).
Proof.
  intros Hr. unfold evict. destruct xs as [|[a e] xs _] using rev_ind.
  - pose proof (rep_data _ _ Hr) as Hd. simpl in Hd.
    rewrite (Lru.RemoveLRU_nil _ (rep_dll _ _ Hr)). simpl.
    rewrite Hd, lookup_empty. simpl. rewrite Hd, delete_empty.
    eexists _, []. split; [reflexivity|]. split; [by apply (rep_ext c)|].
    split; [done|]. split; [done|]. intros k _. apply lookup_empty.
  - pose proof Hr as [Hl Hd Hn _]. rewrite fmap_app in Hl. cbn [fmap list_fmap] in Hl.
    destruct (Lru.RemoveLRU_dll _ _ _ _ Hl) as (l' & Hl' & Hd' & _).
    rewrite Hl'. simpl.
    assert (data c !! e.1 = Some (mkItem e.2.1 e.2.2 (Some a))) as He.
    { rewrite Hd. apply elem_of_list_to_map_1; [by rewrite item_of_keys|].
      apply (list_elem_of_fmap_2 item_of _ (a, e)). apply elem_of_app. right.
      by apply list_elem_of_singleton. }
    rewrite He. simpl. eexists _, xs. split; [reflexivity|]. split.
    { rewrite <-(app_nil_r xs). eapply (rep_remove c xs a e []); [done| |done|done|done].
      by rewrite app_nil_r. }
    split; [by rewrite removelast_last|]. split; [done|].
    intros k Hk. simpl. rewrite lookup_delete. by case_decide.
Qed.

Lemma removelast_fmap {A B} (f : A → B) l : f <$> removelast l = removelast (f <$> l).
Proof. induction l as [|x [|y l] IH]; [done|done|]. cbn in *. by rewrite IH. Qed.

Lemma SetInternal_rep c xs k v ttl now :
  rep c xs →
  ∃ c' xs', SetInternal c k v ttl now = Ret c' ∧ rep c' xs' ∧ frame c c' ∧
    xs'.*2 = spec_set (maxSize c) k v (spec_expiry ttl now) xs.*2.
Proof.
  intros Hr. unfold SetInternal. fold (spec_expiry ttl now). unfold spec_set.
  destruct (data c !! k) as [it|] eqn:E.
  - destruct (rep_lookup_Some _ _ _ _ Hr E) as (xs1 & a & e & xs2 & -> & <- & ->).
    pose proof (rep_nodup_middle _ _ _ _ _ Hr) as Hn.
    rewrite (fmap_app snd), (fmap_cons snd). simpl snd.
    rewrite spec_find_middle, spec_del_middle by done.
    destruct (rep_MoveToFront _ _ _ _ _ Hr) as (l' & Hl & Hd).
    rewrite bool_decide_false by done. simpl. rewrite E. simpl. rewrite Hl. simpl.
    eexists _, ((a, (e.1, (v, spec_expiry ttl now))) :: xs1 ++ xs2).
    split; [reflexivity|]. split; [|split; [done|by rewrite (fmap_cons snd), (fmap_app snd)]].
    eapply (rep_update c xs1 a e xs2); [done|done|done|done|].
    simpl. by rewrite wrap64_add_l, Z.add_opp_r.
  - rewrite bool_decide_true by done. rewrite andb_true_l.
    rewrite (proj2 (spec_find_None k _)) by (by eapply rep_lookup_None).
    rewrite <-(rep_data_len _ _ Hr). cbv zeta.
    assert (∃ c1 xs1, (if maxSize c <=? data_len c then evict c else mret c) = Ret c1 ∧
      rep c1 xs1 ∧ data c1 !! k = None ∧ frame c c1 ∧
      xs1.*2 = if maxSize c <=? data_len c then removelast xs.*2 else xs.*2)
      as (c1 & xs1 & -> & Hr1 & E1 & Hf & Hxs1).
    { destruct (maxSize c <=? data_len c).
      - destruct (evict_rep c xs Hr) as (c1 & xs1 & -> & Hr1 & -> & Hf & Hk).
        eexists _, _. split; [reflexivity|]. rewrite removelast_fmap.
        split; [done|]. split; [by apply Hk|]. done.
      - by exists c, xs. }
    rewrite <-Hxs1. simpl.
    destruct (Lru.Add_dll _ _ k (rep_dll _ _ Hr1)) as (a & l' & -> & Hl' & _). simpl.
    eexists _, ((a, (k, (v, spec_expiry ttl now))) :: xs1).
    split; [reflexivity|]. split; [|split; [done|done]].
    eapply (rep_push c1 xs1); [done|by eapply rep_lookup_None|done|done|done|done].
Qed.

(** ** Cleaning up *)

Lemma spec_find_unique k e es : NoDup es.*1 → e ∈ es → e.1 = k → spec_find k es = Some e.
Proof.
  intros Hn (es1 & es2 & ->)%list_elem_of_split <-. by apply spec_find_middle.
Qed.

(** An entry survives the turns of the loop for the keys of [order]. *)
Definition survives (now : Z) (order : list string) (e : entry) : Prop :=
  e.1 ∉ order ∨ live now e.
#[export] Instance survives_dec now order e : Decision (survives now order e).
Proof. unfold survives. apply _. Defined.

Lemma item_expired_live it k now :
  item_expired it now = false ↔ live now (k, (value it, expiresAt it)).
Proof. unfold item_expired, time_IsZero, time_After, live. simpl. lia. Qed.

Lemma cleanup_step_rep now k n c xs :
  rep c xs →
  ∃ c' xs', cleanup_step now k (n, c) = Ret (n + Z.of_nat (length xs) - Z.of_nat (length xs'), c') ∧
    rep c' xs' ∧ frame c c' ∧ xs'.*2 = filter (survives now [k]) xs.*2.
Proof.
  intros Hr. simpl. pose proof (rep_nodup _ _ Hr) as Hn.
  destruct (rep_lookup_spec c xs k Hr) as [[-> Hf]|(it & E & Hf)].
  { exists c, xs. split; [simpl; do 2 f_equal; lia|]. split; [done|]. split; [done|].
    symmetry. apply filter_all_elem. intros e He. left. intros Hk%list_elem_of_singleton.
    subst k. apply spec_find_None in Hf. apply Hf. by apply list_elem_of_fmap_2. }
  rewrite E. destruct (item_expired it now) eqn:Ex.
  - destruct (rep_lookup_Some _ _ _ _ Hr E) as (xs1 & a & e & xs2 & -> & <- & ->).
    destruct (rep_RemoveNode _ _ _ _ _ Hr) as (l' & Hl & Hd). simpl. rewrite Hl. simpl.
    eexists _, (xs1 ++ xs2). split.
    { do 2 f_equal. rewrite !length_app. simpl. lia. }
    split; [by eapply rep_remove|]. split; [done|].
    pose proof (rep_nodup_middle _ _ _ _ _ Hr) as Hn'.
    rewrite !(fmap_app snd), (fmap_cons snd). simpl snd.
    rewrite <-(spec_del_middle _ _ _ Hn'). apply filter_ext_elem.
    intros e' He'. unfold survives. rewrite list_elem_of_singleton.
    split; [tauto|]. intros [|Hlive]; [done|]. intros He.
    apply (spec_find_unique _ _ _ Hn' He') in He.
    rewrite spec_find_middle in He by done. injection He as <-.
    assert (item_expired (mkItem e.2.1 e.2.2 (Some a)) now = false); [|congruence].
    apply (item_expired_live _ e.1). by destruct e as [? []].
  - exists c, xs. split; [simpl; do 2 f_equal; lia|]. split; [done|]. split; [done|].
    symmetry. apply filter_all_elem. intros e He. unfold survives.
    destruct (decide (e.1 = k)) as [Hk|Hk]; [right|left; by rewrite list_elem_of_singleton].
    rewrite (spec_find_unique _ _ _ Hn He Hk) in Hf. injection Hf as ->.
    by apply item_expired_live.
Qed.

Lemma cleanup_loop_rep now order n c xs :
  rep c xs →
  ∃ c' xs', cleanup_loop now order (n, c) = Ret (n + Z.of_nat (length xs) - Z.of_nat (length xs'), c') ∧
    rep c' xs' ∧ frame c c' ∧ xs'.*2 = filter (survives now order) xs.*2.
Proof.
  revert n c xs. induction order as [|k order IH]; intros n c xs Hr.
  - exists c, xs. split; [simpl; do 2 f_equal; lia|]. split; [done|]. split; [done|].
    symmetry. apply filter_all_elem. intros e _. left. apply not_elem_of_nil.
  - cbn [cleanup_loop].
    destruct (cleanup_step_rep now k n c xs Hr) as (c1 & xs1 & -> & Hr1 & [Hf1 Hf1'] & Hx1).
    rewrite outcome_bind_ret_l.
    destruct (IH (n + Z.of_nat (length xs) - Z.of_nat (length xs1)) c1 xs1 Hr1)
      as (c2 & xs2 & -> & Hr2 & [Hf2 Hf2'] & Hx2).
    exists c2, xs2. split; [do 2 f_equal; lia|]. split; [done|]. split; [split; congruence|].
    rewrite Hx2, Hx1, list_filter_filter. apply list_filter_iff. intros e.
    unfold survives. rewrite list_elem_of_singleton, not_elem_of_cons. tauto.
Qed.

(** ** The public operations *)

Lemma cache_rep_new n m : cache_rep (NewCache n m) [].
Proof.
  split; [done|]. exists []. split; [|done]. split; [by apply Lru.dll_nil|done| |done].
  apply NoDup_nil_2.
Qed.

Lemma rep_with_mu c b xs : rep c xs → rep (with_mu c b) xs.
Proof. by apply rep_ext. Qed.

(** Running a locked body between [Lock] and [Unlock]. *)
Lemma unlock_rep c' xs :
  mu c' = true → rep c' xs →
  Unlock c' = Ret (with_mu c' false) ∧ cache_rep (with_mu c' false) xs.*2.
Proof.
  intros Hm Hr. unfold Unlock. rewrite Hm. split; [done|].
  split; [done|]. exists xs. split; [by apply rep_with_mu|done].
Qed.

(** [Cache.Set] on a well-formed cache returns (no panic, no deadlock) a
    well-formed cache that holds exactly the entries the abstract LRU cache
    holds after a set: the key is updated or pushed in front with the expiry
    computed from the TTL, and the least recently used entry goes first when a
    new key meets a full cache. *)
Lemma Set_rep (c : Cache) (es : list entry) (k v : string) (ttl now : Z) :
  cache_rep c es →
  ∃ c', Set_ c k v ttl now = Ret c' ∧ maxSize c' = maxSize c ∧
    cache_rep c' (spec_set (maxSize c) k v (spec_expiry ttl now) es).
Proof.
  intros (Hm & xs & Hr & ->). unfold Set_, Lock. rewrite Hm. simpl.
  destruct (SetInternal_rep (with_mu c true) xs k v ttl now) as (c' & xs' & -> & Hr' & [Hf Hc] & Hx).
  { by apply rep_with_mu. }
  simpl in *. destruct (unlock_rep c' xs' Hf Hr') as [-> Hc'].
  exists (with_mu c' false). rewrite <-Hx. done.
Qed.

(** [Cache.Get] on a well-formed cache returns the value and [true] exactly
    when the key is present and not expired, and then makes the entry the most
    recently used; otherwise it returns [""] and [false] and leaves the entries
    (an expired one included) where they are. *)
Lemma Get_rep (c : Cache) (es : list entry) (k : string) (now : Z) :
  cache_rep c es →
  ∃ v ok c', Get c k now = Ret (v, ok, c') ∧ maxSize c' = maxSize c ∧
    (ok = false → v = "") ∧
    (if ok then Some v else None) = (spec_get k now es).1 ∧
    cache_rep c' (spec_get k now es).2.
Proof.
  intros (Hm & xs & Hr & ->). unfold Get, Lock. rewrite Hm. simpl.
  destruct (GetInternal_rep (with_mu c true) xs k now) as (v & ok & c' & xs' & HG & Hr' & [Hf Hc] & Hx).
  { by apply rep_with_mu. }
  rewrite HG. simpl in *. destruct (unlock_rep c' xs' Hf Hr') as [-> Hc'].
  exists v, ok, (with_mu c' false). rewrite <-Hx. split_and!; try done.
  intros ->. revert HG. unfold GetInternal. simpl.
  destruct (data c !! k) as [it|]; [|by intros [= <- _]].
  destruct (item_expired it now); [by intros [= <- _]|]. simpl.
  by destruct (Lru.MoveToFront _ _).
Qed.

(** [Cache.Delete] on a well-formed cache returns a well-formed cache
    without the key and with every other entry in its place. *)
Lemma Delete_rep (c : Cache) (es : list entry) (k : string) :
  cache_rep c es →
  ∃ c', Delete c k = Ret c' ∧ maxSize c' = maxSize c ∧ cache_rep c' (spec_del k es).
Proof.
  intros (Hm & xs & Hr & ->). unfold Delete, Lock. rewrite Hm. simpl.
  destruct (DeleteInternal_rep (with_mu c true) xs k) as (c' & xs' & -> & Hr' & Hx & [Hf Hc]).
  { by apply rep_with_mu. }
  simpl in *. destruct (unlock_rep c' xs' Hf Hr') as [-> Hc'].
  exists (with_mu c' false). by rewrite <-Hx.
Qed.

Lemma rep_range_elem c xs order e :
  rep c xs → range_order (data c) order → e ∈ xs.*2 → e.1 ∈ order.
Proof.
  intros [_ Hd Hn _] Ho He. rewrite Ho, Hd, map_to_list_to_map by (by rewrite item_of_keys).
  rewrite item_of_keys. by apply list_elem_of_fmap_2.
Qed.

(** [Cache.CleanupExpired], whatever order Go ranges over the map in,
    removes exactly the expired entries, keeps the recency order of the others,
    and returns how many it removed. *)
Lemma CleanupExpired_rep (c : Cache) (es : list entry) (order : list string) (now : Z) :
  cache_rep c es → range_order (data c) order →
  ∃ c', CleanupExpired c order now =
      Ret (Z.of_nat (length es) - Z.of_nat (length (spec_cleanup now es)), c') ∧
    maxSize c' = maxSize c ∧ cache_rep c' (spec_cleanup now es).
Proof.
  intros (Hm & xs & Hr & ->) Ho. unfold CleanupExpired, Lock. rewrite Hm. simpl.
  destruct (cleanup_loop_rep now order 0 (with_mu c true) xs) as (c' & xs' & -> & Hr' & [Hf Hc] & Hx).
  { by apply rep_with_mu. }
  assert (xs'.*2 = spec_cleanup now xs.*2) as Hx'.
  { rewrite Hx. apply filter_ext_elem. intros e He. unfold survives.
    split; [|tauto]. intros [Hn|]; [|done]. destruct Hn. by apply (rep_range_elem c xs). }
  rewrite <-Hx', !length_fmap. simpl. rewrite Z.add_0_l.
  destruct (0 <? _).
  - destruct (unlock_rep (with_metrics (with_metrics c' (UpdateItemsCount (data_len c')))
      (UpdateMemoryUsage (currentMemoryBytes c'))) xs') as [-> Hc']; [done|by apply (rep_ext c')|].
    simpl. eexists. split; [reflexivity|]. done.
  - destruct (unlock_rep c' xs' Hf Hr') as [-> Hc']. simpl. eexists. split; [reflexivity|]. done.
Qed.

(** [Cache.Snapshot] copies the whole cache: the map it returns has an
    entry for a key exactly when the cache holds one, with the same value and
    expiry, and the cache is unchanged. *)
Lemma Snapshot_rep (c : Cache) (es : list entry) :
  cache_rep c es →
  ∃ snap c', Snapshot c = Ret (snap, c') ∧ cache_rep c' es ∧
    ∀ k v exp, snap !! k = Some (mkEntry v exp) ↔ (k, (v, exp)) ∈ es.
Proof.
  intros (Hm & xs & Hr & ->). unfold Snapshot, Lock. rewrite Hm. simpl.
  eexists _, _. split; [reflexivity|]. split.
  { split; [done|]. exists xs. split; [by do 2 apply rep_with_mu|done]. }
  intros k v exp.
  rewrite lookup_fmap. pose proof (rep_nodup _ _ Hr) as Hn.
  destruct (rep_lookup_spec c xs k Hr) as [[-> Hf]|(it & -> & Hf)].
  - split; [done|]. intros He. rewrite (spec_find_unique k _ _ Hn He eq_refl) in Hf. done.
  - simpl. split.
    + intros [= <- <-]. clear -Hf. induction (xs.*2) as [|e es IH]; [done|].
      simpl in Hf. apply elem_of_cons. case_decide; [left; congruence|right; auto].
    + intros He. rewrite (spec_find_unique k _ _ Hn He eq_refl) in Hf. by simplify_eq.
Qed.
