(* ===== verification/CacheTrace.v ===== *)
(** * Sequences of cache calls

    The cache as a state machine: one step per method call that returned.
    Invariants of every reachable cache (capacity, memory counter, metrics),
    and the laws a client sees (read your write, eviction order).  The class
    [KVStore] at the end is the interface the persistence and replication
    components are verified against; the cache is its instance. *)

From S2P Require Import Prelude GoStd Lru Metrics Cache CacheSpec.
Import Cache.
Local Open Scope Z_scope.

Inductive cache_step : Cache → Cache → Prop :=
| step_set c c' k v ttl now : Set_ c k v ttl now = Ret c' → cache_step c c'
| step_get c c' k now v ok : Get c k now = Ret (v, ok, c') → cache_step c c'
| step_delete c c' k : Delete c k = Ret c' → cache_step c c'
| step_cleanup c c' order now n :
    range_order (data c) order → CleanupExpired c order now = Ret (n, c') → cache_step c c'
| step_snapshot c c' snap : Snapshot c = Ret (snap, c') → cache_step c c'.

(** ** Capacity and memory *)

Definition within_capacity (c : Cache) (es : list entry) : Prop :=
  Z.of_nat (length es) ≤ Z.max 1 (maxSize c).

Lemma spec_del_length k es : (length (spec_del k es) ≤ length es)%nat.
Proof. apply length_filter. Qed.

Lemma spec_del_found k es e :
  spec_find k es = Some e → (length (spec_del k es) < length es)%nat.
Proof.
  unfold spec_del. induction es as [|e' es IH]; simpl; [done|].
  rewrite filter_cons. case_decide as Hk.
  - intros _. rewrite decide_False by naive_solver.
    pose proof (length_filter (λ e, e.1 ≠ k) es). lia.
  - intros Hf%IH. rewrite decide_True by done. simpl. lia.
Qed.

Lemma length_removelast {A} (l : list A) : length (removelast l) = pred (length l).
Proof. induction l as [|x [|y l] IH]; [done|done|]. cbn in *. by rewrite IH. Qed.

Lemma spec_set_capacity cap k v exp es :
  Z.of_nat (length es) ≤ Z.max 1 cap →
  Z.of_nat (length (spec_set cap k v exp es)) ≤ Z.max 1 cap.
Proof.
  intros Hl. unfold spec_set. cbn [length]. destruct (spec_find k es) as [e|] eqn:E.
  - apply spec_del_found in E. lia.
  - destruct (Z.leb_spec cap (Z.of_nat (length es))); [|lia].
    rewrite length_removelast. lia.
Qed.

Lemma spec_get_length k now es :
  (length (spec_get k now es).2 ≤ length es)%nat.
Proof.
  unfold spec_get. destruct (spec_find k es) as [e|] eqn:E; [|done].
  case_decide; [|done]. apply spec_del_found in E. simpl. lia.
Qed.

(** ** Lists of entries as maps *)

Lemma spec_find_del k k' es :
  spec_find k' (spec_del k es) = if decide (k' = k) then None else spec_find k' es.
Proof.
  unfold spec_del. induction es as [|e es IH]; [by case_decide|].
  rewrite filter_cons. cbn [spec_find]. repeat case_decide; simplify_eq; cbn [spec_find];
    repeat case_decide; simplify_eq; naive_solver.
Qed.

Lemma spec_find_key k es e : spec_find k es = Some e → e.1 = k.
Proof. induction es; cbn; [done|]. case_decide; naive_solver. Qed.

Lemma spec_find_get k k' now es : spec_find k' (spec_get k now es).2 = spec_find k' es.
Proof.
  unfold spec_get. destruct (spec_find k es) as [e|] eqn:E; [|done]. case_decide; [|done].
  cbn [snd spec_find]. pose proof (spec_find_key _ _ _ E). rewrite spec_find_del.
  repeat case_decide; simplify_eq; naive_solver.
Qed.

(** A set that evicts nothing. *)
Lemma spec_find_set cap k k' v exp es :
  Z.of_nat (length es) < cap →
  spec_find k' (spec_set cap k v exp es) =
    if decide (k' = k) then Some (k, (v, exp)) else spec_find k' es.
Proof.
  intros Hc. unfold spec_set. cbn [spec_find fst].
  destruct (decide (k = k')) as [->|Hne]; [by rewrite decide_True|]. rewrite (decide_False (P := k' = k)) by congruence.
  destruct (spec_find k es) eqn:E.
  - rewrite spec_find_del. by rewrite decide_False by congruence.
  - destruct (Z.leb_spec cap (Z.of_nat (length es))); [lia|done].
Qed.

Lemma spec_set_length cap k v exp es : (length (spec_set cap k v exp es) ≤ S (length es))%nat.
Proof.
  unfold spec_set. cbn [length]. destruct (spec_find k es).
  - pose proof (spec_del_length k es). lia.
  - case_match; [|lia]. assert (∀ l : list entry, (length (removelast l) ≤ length l)%nat) as H'.
    { induction l as [|x [|y l] IH]; cbn in *; lia. }
    specialize (H' es). lia.
Qed.

Lemma spec_find_elem k es : is_Some (spec_find k es) ↔ k ∈ es.*1.
Proof. rewrite <-not_eq_None_Some, spec_find_None. destruct (decide (k ∈ es.*1)); tauto. Qed.

(** ** The reachable caches *)

Definition cache_ok (c : Cache) : Prop := ∃ es, cache_rep c es ∧ within_capacity c es.

Lemma cache_step_ok c c' :
  cache_step c c' → cache_ok c → cache_ok c' ∧ maxSize c' = maxSize c.
Proof.
  unfold cache_ok, within_capacity. intros Hs (es & Hr & Hcap).
  destruct Hs as [c c' k v ttl now Hs|c c' k now v ok Hs|c c' k Hs|c c' order now n Ho Hs|c c' snap Hs].
  - destruct (Set_rep c es k v ttl now Hr) as (c2 & E & Hm & Hr').
    rewrite E in Hs. injection Hs as ->. rewrite Hm. split; [|done].
    eexists. split; [done|]. by apply spec_set_capacity.
  - destruct (Get_rep c es k now Hr) as (v' & ok' & c2 & E & Hm & _ & _ & Hr').
    rewrite E in Hs. injection Hs as _ _ ->. rewrite Hm. split; [|done].
    eexists. split; [done|]. pose proof (spec_get_length k now es). lia.
  - destruct (Delete_rep c es k Hr) as (c2 & E & Hm & Hr').
    rewrite E in Hs. injection Hs as ->. rewrite Hm. split; [|done].
    eexists. split; [done|]. pose proof (spec_del_length k es). lia.
  - destruct (CleanupExpired_rep c es order now Hr Ho) as (c2 & E & Hm & Hr').
    rewrite E in Hs. injection Hs as _ ->. rewrite Hm. split; [|done].
    eexists. split; [done|]. unfold spec_cleanup. pose proof (length_filter (live now) es). lia.
  - destruct (Snapshot_rep c es Hr) as (snap' & c2 & E & Hr' & _).
    revert E. rewrite Hs. intros [= <- <-].
    assert (maxSize c' = maxSize c) as ->.
    { destruct Hr as (Hm & _). unfold Snapshot, Lock in Hs. rewrite Hm in Hs. by injection Hs as <- <-. }
    eauto.
Qed.

(** ** Metrics *)

(** The counters and gauges agree with what the cache did and holds. *)
Definition metrics_ok (c : Cache) : Prop :=
  (counter CacheHits_Inc (metrics c) + counter CacheMisses_Inc (metrics c) =
   counter (OperationsTotal_Inc "get") (metrics c))%nat ∧
  items_gauge (metrics c) = data_len c ∧
  memory_gauge (metrics c) = currentMemoryBytes c.

(** The part of [metrics_ok] that a call in progress keeps. *)
Definition lookups_ok (c : Cache) : Prop :=
  (counter CacheHits_Inc (metrics c) + counter CacheMisses_Inc (metrics c) =
   counter (OperationsTotal_Inc "get") (metrics c))%nat.

Lemma evict_lookups c c' : evict c = Ret c' → lookups_ok c → lookups_ok c'.
Proof.
  unfold evict, lookups_ok. intros H Hl. inv_ret. destruct r as [k l]. inv_ret. simpl.
  destruct (data c !! k); simpl; [|exact Hl]. unfold RecordEviction. count_calls. exact Hl.
Qed.

Lemma SetInternal_metrics c k v ttl now c' :
  SetInternal c k v ttl now = Ret c' → lookups_ok c → metrics_ok c'.
Proof.
  unfold SetInternal. intros H Hl. inv_ret. rename r into c1, r0 into c2.
  assert (lookups_ok c1) as Hl1.
  { revert E. destruct (_ && _).
    - intros E. apply (evict_lookups _ _ E). by destruct (data c !! k).
    - intros [= <-]. by destruct (data c !! k). }
  assert (metrics c2 = metrics c1) as Hm.
  { revert E0. destruct (data c !! k); intros E0; inv_ret; [done|].
    destruct r as [p l]. by inv_ret. }
  unfold metrics_ok, lookups_ok in *. simpl. rewrite Hm. split; [by count_calls|done].
Qed.

Lemma GetInternal_metrics c k now v ok c' :
  GetInternal c k now = Ret (v, ok, c') → metrics_ok c → metrics_ok c'.
Proof.
  unfold GetInternal, metrics_ok, data_len. intros H (H1 & H2 & H3). simpl in H.
  destruct (data c !! k) as [it|]; [destruct (item_expired it now)|]; inv_ret; simpl;
    (split; [count_calls; lia|done]).
Qed.

Lemma DeleteInternal_metrics c k c' :
  DeleteInternal c k = Ret c' → metrics_ok c → metrics_ok c'.
Proof.
  unfold DeleteInternal, metrics_ok. intros H (H1 & H2 & H3).
  destruct (data c !! k) as [it|]; inv_ret; (split; [simpl; by count_calls|done]).
Qed.

Lemma cleanup_loop_metrics now order n c n' c' :
  cleanup_loop now order (n, c) = Ret (n', c') → lookups_ok c →
  n ≤ n' ∧ lookups_ok c' ∧ (n' = n → c' = c).
Proof.
  revert n c. induction order as [|k order IH]; intros n c; simpl.
  { intros [= <- <-] ?. split; [lia|done]. }
  intros H Hl. inv_ret. destruct r as [n1 c1].
  assert (n ≤ n1 ∧ lookups_ok c1 ∧ (n1 = n → c1 = c)) as (Hn & Hl1 & Heq).
  { destruct (data c !! k) as [it|]; [|inv_ret; split; [lia|done]].
    unfold lookups_ok in *.
    destruct (item_expired it now); inv_ret; (split; [lia|split; [simpl; by count_calls|]]); [lia|done]. }
  destruct (IH _ _ H Hl1) as (Hn' & Hl' & Heq'). split; [lia|]. split; [done|].
  intros ->. assert (n1 = n) as -> by lia. by rewrite Heq', Heq.
Qed.

Lemma cache_step_metrics c c' : cache_step c c' → metrics_ok c → metrics_ok c'.
Proof.
  destruct 1 as [c c' k v ttl now Hs|c c' k now v ok Hs|c c' k Hs|c c' order now n Ho Hs|c c' snap Hs]; intros Hm.
  - unfold Set_, Lock, Unlock in Hs. destruct (mu c); [done|]. simpl in Hs. inv_ret.
    apply SetInternal_metrics in E; [|apply Hm]. destruct (mu r); [|done]. by inv_ret.
  - unfold Get, Lock, Unlock in Hs. destruct (mu c); [done|]. simpl in Hs. inv_ret.
    destruct r as [[v' ok'] r]. inv_ret.
    apply GetInternal_metrics in E; [|done]. destruct (mu r); [|done]. by inv_ret.
  - unfold Delete, Lock, Unlock in Hs. destruct (mu c); [done|]. simpl in Hs. inv_ret.
    apply DeleteInternal_metrics in E; [|done]. destruct (mu r); [|done]. by inv_ret.
  - unfold CleanupExpired, Lock, Unlock in Hs. destruct (mu c); [done|]. simpl in Hs. inv_ret.
    destruct r as [n' c1]. inv_ret.
    apply cleanup_loop_metrics in E as (Hn & Hl & Heq); [|apply Hm].
    destruct (Z.ltb_spec 0 n).
    + simpl in E0. destruct (mu c1); [|done]. inv_ret.
      unfold metrics_ok, lookups_ok in *. simpl. split; [by count_calls|done].
    + rewrite Heq in * by lia. simpl in E0. by inv_ret.
  - unfold Snapshot, Lock in Hs. destruct (mu c); [done|]. simpl in Hs. by inv_ret.
Qed.

(** ** Running a list of calls *)

Inductive call :=
| CSet (k v : string) (ttl now : Z)
| CGet (k : string) (now : Z)
| CDel (k : string).

(** The reply a client sees: a value or "absent" for a get, nothing otherwise. *)
Definition exec_call (c : Cache) (x : call) : outcome (option string * Cache) :=
  match x with
  | CSet k v ttl now => c ← Set_ c k v ttl now; mret (None, c)
  | CGet k now => '(v, ok, c) ← Get c k now; mret (if ok : bool then Some v else None, c)
  | CDel k => c ← Delete c k; mret (None, c)
  end.

Fixpoint run_calls (c : Cache) (xs : list call) : outcome (list (option string) * Cache) :=
  match xs with
  | [] => mret ([], c)
  | x :: xs =>
      '(r, c) ← exec_call c x;
      '(rs, c) ← run_calls c xs;
      mret (r :: rs, c)
  end.

Definition spec_call (cap : Z) (x : call) (es : list entry) : option string * list entry :=
  match x with
  | CSet k v ttl now => (None, spec_set cap k v (spec_expiry ttl now) es)
  | CGet k now => spec_get k now es
  | CDel k => (None, spec_del k es)
  end.

Fixpoint spec_run (cap : Z) (xs : list call) (es : list entry) : list (option string) * list entry :=
  match xs with
  | [] => ([], es)
  | x :: xs =>
      let '(r, es) := spec_call cap x es in
      let '(rs, es) := spec_run cap xs es in
      (r :: rs, es)
  end.

Lemma exec_call_rep c es x :
  cache_rep c es →
  ∃ c', exec_call c x = Ret ((spec_call (maxSize c) x es).1, c') ∧
    maxSize c' = maxSize c ∧ cache_rep c' (spec_call (maxSize c) x es).2.
Proof.
  intros Hr. destruct x as [k v ttl now|k now|k]; simpl.
  - destruct (Set_rep c es k v ttl now Hr) as (c' & -> & Hm & Hr'). simpl. eauto.
  - destruct (Get_rep c es k now Hr) as (v & ok & c' & -> & Hm & _ & <- & Hr'). simpl. eauto.
  - destruct (Delete_rep c es k Hr) as (c' & -> & Hm & Hr'). simpl. eauto.
Qed.

Lemma run_calls_rep c es xs :
  cache_rep c es →
  ∃ c', run_calls c xs = Ret ((spec_run (maxSize c) xs es).1, c') ∧
    maxSize c' = maxSize c ∧ cache_rep c' (spec_run (maxSize c) xs es).2.
Proof.
  revert c es. induction xs as [|x xs IH]; intros c es Hr; [simpl; eauto|].
  cbn [run_calls spec_run].
  destruct (exec_call_rep c es x Hr) as (c1 & -> & Hm & Hr1).
  destruct (spec_call (maxSize c) x es) as [r es1]. simpl in *.
  destruct (IH c1 es1 Hr1) as (c2 & -> & Hm2 & Hr2). rewrite Hm in *.
  destruct (spec_run (maxSize c) xs es1) as [rs es2]. simpl in *.
  exists c2. split; [done|]. by rewrite Hm2.
Qed.

(** ** How long an entry stays *)

(** The keys of the entries stay distinct. *)
Lemma spec_del_nodup k es : NoDup es.*1 → NoDup (spec_del k es).*1.
Proof. intros Hn. eapply sublist_NoDup; [exact Hn|]. apply (fmap_sublist fst), sublist_filter. Qed.

Lemma spec_del_keys k k' es : k' ∈ (spec_del k es).*1 → k' ≠ k ∧ k' ∈ es.*1.
Proof.
  intros (e & -> & [Hk He]%list_elem_of_filter)%list_elem_of_fmap. split; [done|by apply list_elem_of_fmap_2].
Qed.

Lemma spec_set_nodup cap k v exp es : NoDup es.*1 → NoDup (spec_set cap k v exp es).*1.
Proof.
  intros Hn. unfold spec_set. rewrite fmap_cons. apply NoDup_cons. destruct (spec_find k es) eqn:E.
  - split; [|by apply spec_del_nodup]. by intros [? _]%spec_del_keys.
  - apply spec_find_None in E. destruct (cap <=? _); [|done]. rewrite removelast_firstn_len.
    split; [|eapply sublist_NoDup; [exact Hn|apply (fmap_sublist fst), sublist_take]].
    intros (e & Hk & He)%list_elem_of_fmap. apply E. cbn in Hk. subst k. apply list_elem_of_fmap_2.
    by eapply elem_of_sublist; [|apply sublist_take].
Qed.

Lemma spec_get_nodup k now es : NoDup es.*1 → NoDup (spec_get k now es).2.*1.
Proof.
  intros Hn. unfold spec_get. destruct (spec_find k es) as [e|] eqn:E; [|done]. case_decide; [|done]. cbn [snd].
  rewrite fmap_cons. apply NoDup_cons. split; [|by apply spec_del_nodup].
  rewrite (spec_find_key _ _ _ E). by intros [? _]%spec_del_keys.
Qed.

(** The key a call uses: deleting a key does not make it more recent. *)
Definition used_key (x : call) : option string :=
  match x with CSet k _ _ _ | CGet k _ => Some k | CDel _ => None end.

(** The distinct keys other than [k] that some calls use. *)
Definition other_keys (k : string) (xs : list call) : gset string :=
  list_to_set (omap used_key xs) ∖ {[k]}.

(** [k] is there, and every more recent entry has a key of [K]. *)
Definition recent (k : string) (K : gset string) (es : list entry) : Prop :=
  ∃ l1 e l2, es = l1 ++ e :: l2 ∧ e.1 = k ∧ (∀ k', k' ∈ l1.*1 → k' ∈ K).

Lemma recent_cons k K e es : e.1 ∈ K → recent k K es → recent k K (e :: es).
Proof.
  intros He (l1 & e' & l2 & -> & ? & HK). exists (e :: l1), e', l2. split_and!; [done|done|].
  intros k'. rewrite fmap_cons, elem_of_cons. intros [->|?]; auto.
Qed.

Lemma recent_front k K e es : e.1 = k → recent k K (e :: es).
Proof. intros He. exists [], e, es. split_and!; [done|done|]. by intros k' ?%elem_of_nil. Qed.

Lemma recent_del k k' K es : k' ≠ k → recent k K es → recent k K (spec_del k' es).
Proof.
  intros Hk (l1 & e & l2 & -> & He & HK). unfold spec_del.
  rewrite filter_app, filter_cons, decide_True by congruence.
  eexists _, e, _. split_and!; [done|done|]. intros k2 [_ Hk2]%spec_del_keys. auto.
Qed.

(** Distinct keys of a set are no more than its size. *)
Lemma nodup_size (ks : list string) (K : gset string) :
  NoDup ks → (∀ k, k ∈ ks → k ∈ K) → (length ks ≤ size K)%nat.
Proof.
  intros Hn HK. rewrite <-(size_list_to_set (C := gset string) ks Hn). apply subseteq_size.
  intros k. rewrite elem_of_list_to_set. apply HK.
Qed.

(** Inserting a new key evicts another entry while the keys used are fewer than
    the capacity. *)
Lemma recent_evict cap k k' (K : gset string) es :
  NoDup es.*1 → Z.of_nat (size K) < cap → k' ∈ K → k' ≠ k → k' ∉ es.*1 → cap ≤ Z.of_nat (length es) →
  recent k K es → recent k K (removelast es).
Proof.
  intros Hn Hcap HK Hk Hes Hlen (l1 & e & l2 & -> & He & Hl1). exists l1, e, (removelast l2).
  rewrite removelast_app by done. split_and!; [|done|done].
  destruct l2 as [|x l2]; [|done]. exfalso.
  rewrite fmap_app in Hn, Hes. apply NoDup_app in Hn as (Hn & _ & _).
  assert (length (k' :: l1.*1) ≤ size K)%nat as Hle.
  { apply nodup_size; [apply NoDup_cons; split; [set_solver|done]|].
    intros k2 [->|?]%elem_of_cons; auto. }
  rewrite length_app in Hlen. cbn [length] in *. rewrite length_fmap in Hle. lia.
Qed.

Lemma spec_call_recent cap k K x es :
  NoDup es.*1 → Z.of_nat (size K) < cap → x ≠ CDel k → (∀ k', used_key x = Some k' → k' = k ∨ k' ∈ K) →
  recent k K es → recent k K (spec_call cap x es).2.
Proof.
  intros Hn Hc Hx HK Hr. destruct x as [k' v ttl now|k' now|k']; cbn [spec_call snd].
  - unfold spec_set. destruct (decide (k' = k)) as [->|Hk]; [by apply recent_front|].
    destruct (HK k' eq_refl) as [|Hin]; [done|]. apply recent_cons; [done|].
    destruct (spec_find k' es) eqn:E; [by apply recent_del|]. apply spec_find_None in E.
    destruct (Z.leb_spec cap (Z.of_nat (length es))); [|done]. by eapply recent_evict.
  - unfold spec_get. destruct (spec_find k' es) as [e|] eqn:E; [|done]. case_decide; [|done]. cbn [snd].
    pose proof (spec_find_key _ _ _ E) as He. destruct (decide (k' = k)) as [->|Hk]; [by apply recent_front|].
    destruct (HK k' eq_refl) as [|Hin]; [done|].
    apply recent_cons; [by rewrite He|by apply recent_del].
  - apply recent_del; [congruence|done].
Qed.

Lemma spec_call_nodup cap x es : NoDup es.*1 → NoDup (spec_call cap x es).2.*1.
Proof.
  intros Hn. destruct x; cbn [spec_call snd]; [by apply spec_set_nodup|by apply spec_get_nodup|by apply spec_del_nodup].
Qed.

Lemma spec_run_recent cap k K xs es :
  NoDup es.*1 → Z.of_nat (size K) < cap → CDel k ∉ xs → (∀ k', k' ∈ omap used_key xs → k' = k ∨ k' ∈ K) →
  recent k K es → recent k K (spec_run cap xs es).2.
Proof.
  intros Hn Hc. revert es Hn. induction xs as [|x xs IH]; intros es Hn Hx HK Hr; [done|].
  cbn [spec_run]. apply not_elem_of_cons in Hx as [Hx Hxs].
  pose proof (spec_call_nodup cap x es Hn) as Hn1.
  assert (recent k K (spec_call cap x es).2) as Hr1.
  { apply spec_call_recent; [done|done|congruence| |done].
    intros k' Hk'. apply HK. apply list_elem_of_omap. exists x. split; [by left|done]. }
  destruct (spec_call cap x es) as [r es1]. cbn [snd] in *.
  specialize (IH es1 Hn1 Hxs). destruct (spec_run cap xs es1) as [rs es2]. apply IH; [|done].
  intros k' (y & Hy & Hk')%list_elem_of_omap. apply HK, list_elem_of_omap. exists y. split; [by right|done].
Qed.

(** ** The interface offered to persistence and replication *)

Class KVStore (S : Type) := {
  kv_set : S → string → string → Z → Z → outcome S;
  kv_delete : S → string → outcome S;
  kv_holds : S → list entry → Prop;
  kv_cap : S → Z;
  kv_set_holds s es k v ttl now :
    kv_holds s es →
    ∃ s', kv_set s k v ttl now = Ret s' ∧ kv_cap s' = kv_cap s ∧
      kv_holds s' (spec_set (kv_cap s) k v (spec_expiry ttl now) es);
  kv_delete_holds s es k :
    kv_holds s es →
    ∃ s', kv_delete s k = Ret s' ∧ kv_cap s' = kv_cap s ∧ kv_holds s' (spec_del k es);
  kv_holds_nodup s es : kv_holds s es → NoDup es.*1
}.

#[export] Program Instance Cache_KVStore : KVStore Cache := {|
  kv_set := Set_;
  kv_delete := Delete;
  kv_holds := cache_rep;
  kv_cap := maxSize
|}.
Next Obligation. intros. by apply Set_rep. Qed.
Next Obligation. intros. by apply Delete_rep. Qed.
Next Obligation. intros c es (_ & xs & Hr & ->). apply (rep_nodup _ _ Hr). Qed.

(** ** A concrete cache for the witnesses *)

Definition demo_calls : list call :=
  [CSet "a" "1" 0 10; CSet "b" "2" 5 11; CGet "a" 12].
Definition demo_cache : Cache :=
  match run_calls (NewCache 2 NewCollector) demo_calls with
  | Ret (_, c) => c
  | _ => NewCache 2 NewCollector
  end.
Definition demo_entries : list entry := [("a", ("1", 0)); ("b", ("2", 16))].

Lemma demo_cache_rep : cache_rep demo_cache demo_entries.
Proof.
  destruct (run_calls_rep (NewCache 2 NewCollector) [] demo_calls) as (c & E & _ & Hr).
  { apply cache_rep_new. }
  unfold demo_cache. rewrite E. exact Hr.
Defined.

(** ** Properties *)

(** [Cache.Set] on a well-formed cache returns (no panic, no deadlock) a
    well-formed cache that holds exactly the entries the abstract LRU cache
    holds after a set: the key is updated or pushed in front with the expiry
    computed from the TTL, and the least recently used entry goes when a new
    key meets a full cache. *)
Theorem Set_refines (c : Cache) (es : list entry) (k v : string) (ttl now : Z) :
  cache_rep c es →
  ∃ c', Set_ c k v ttl now = Ret c' ∧ maxSize c' = maxSize c ∧
    cache_rep c' (spec_set (maxSize c) k v (spec_expiry ttl now) es).
Proof. apply Set_rep. Qed.

Lemma Set_refines_witness :
  ∃ c', Set_ demo_cache "c" "3" 0 20 = Ret c' ∧ maxSize c' = 2 ∧
    cache_rep c' [("c", ("3", 0)); ("a", ("1", 0))].
Proof.
  destruct (Set_refines demo_cache demo_entries "c" "3" 0 20 demo_cache_rep) as (c' & H1 & H2 & H3).
  exists c'. split; [exact H1|]. split; [exact H2|exact H3].
Defined.

(** [Cache.Get] on a well-formed cache returns the value and [true] exactly
    when the key is present and not expired, and then makes the entry the most
    recently used; otherwise it returns [""] and [false] and leaves the entries
    (an expired one included) where they are. *)
Theorem Get_refines (c : Cache) (es : list entry) (k : string) (now : Z) :
  cache_rep c es →
  ∃ v ok c', Get c k now = Ret (v, ok, c') ∧ maxSize c' = maxSize c ∧
    (ok = false → v = "") ∧
    (if ok then Some v else None) = (spec_get k now es).1 ∧
    cache_rep c' (spec_get k now es).2.
Proof. apply Get_rep. Qed.

Lemma Get_refines_witness :
  ∃ v ok c', Get demo_cache "b" 14 = Ret (v, ok, c') ∧
    (if ok : bool then Some v else None) = Some "2" ∧
    cache_rep c' [("b", ("2", 16)); ("a", ("1", 0))].
Proof.
  destruct (Get_refines demo_cache demo_entries "b" 14 demo_cache_rep)
    as (v & ok & c' & H1 & H2 & H3 & H4 & H5).
  exists v, ok, c'. split; [exact H1|]. split; [exact H4|exact H5].
Defined.

(** [Cache.CleanupExpired], whatever order Go ranges over the map in,
    removes exactly the expired entries, keeps the recency order of the others,
    and returns how many it removed. *)
Theorem CleanupExpired_refines (c : Cache) (es : list entry) (order : list string) (now : Z) :
  cache_rep c es → range_order (data c) order →
  ∃ c', CleanupExpired c order now =
      Ret (Z.of_nat (length es) - Z.of_nat (length (spec_cleanup now es)), c') ∧
    maxSize c' = maxSize c ∧ cache_rep c' (spec_cleanup now es).
Proof. apply CleanupExpired_rep. Qed.

Lemma CleanupExpired_refines_witness :
  ∃ c', CleanupExpired demo_cache ["b"; "a"] 17 = Ret (1, c') ∧ cache_rep c' [("a", ("1", 0))].
Proof.
  assert (range_order (data demo_cache) ["b"; "a"]) as Ho.
  { unfold range_order. assert ((map_to_list (data demo_cache)).*1 = ["a"; "b"]) as ->
      by (vm_compute; reflexivity). apply Permutation_swap. }
  destruct (CleanupExpired_refines demo_cache demo_entries ["b"; "a"] 17 demo_cache_rep Ho)
    as (c' & H1 & H2 & H3).
  exists c'. split; [exact H1|exact H3].
Defined.

(** [Cache.Snapshot] copies the whole cache: the map it returns has an
    entry for a key exactly when the cache holds one, with the same value and
    expiry, and the cache itself keeps its entries. *)
Theorem Snapshot_complete (c : Cache) (es : list entry) :
  cache_rep c es →
  ∃ snap c', Snapshot c = Ret (snap, c') ∧ cache_rep c' es ∧
    ∀ k v exp, snap !! k = Some (mkEntry v exp) ↔ (k, (v, exp)) ∈ es.
Proof. apply Snapshot_rep. Qed.

Lemma Snapshot_complete_witness :
  ∃ snap c', Snapshot demo_cache = Ret (snap, c') ∧ cache_rep c' demo_entries ∧
    ∀ k v exp, snap !! k = Some (mkEntry v exp) ↔ (k, (v, exp)) ∈ demo_entries.
Proof. exact (Snapshot_complete demo_cache demo_entries demo_cache_rep). Defined.

(** C4. Simulation: any sequence of set, get and delete calls on a new cache
    runs to the end and gives the client the very replies of the abstract LRU
    cache. *)
Theorem cache_simulates_spec (n : Z) (xs : list call) :
  ∃ c', run_calls (NewCache n NewCollector) xs = Ret ((spec_run n xs []).1, c') ∧
    cache_rep c' (spec_run n xs []).2.
Proof.
  destruct (run_calls_rep (NewCache n NewCollector) [] xs (cache_rep_new _ _)) as (c' & ? & _ & ?).
  eauto.
Qed.

(** C27. Every cache reached from [NewCache] by any interleaving of calls is
    well formed, never holds more than [max(1, maxSize)] entries, its int64
    memory counter is the sum of the item sizes (mod 2^64), and the metrics
    agree with it: the items and memory gauges show the current values and
    hits + misses = lookups. *)
Theorem reachable_cache_invariant (n : Z) (c : Cache) :
  rtc cache_step (NewCache n NewCollector) c →
  maxSize c = n ∧ metrics_ok c ∧
  ∃ es, cache_rep c es ∧ data_len c = Z.of_nat (length es) ∧
    Z.of_nat (length es) ≤ Z.max 1 n ∧
    currentMemoryBytes c = wrap64 (spec_memory es).
Proof.
  intros Hs.
  assert (cache_ok c ∧ metrics_ok c ∧ maxSize c = n) as ((es & Hr & Hcap) & Hm & <-).
  { assert (cache_ok (NewCache n NewCollector) ∧ metrics_ok (NewCache n NewCollector) ∧
      maxSize (NewCache n NewCollector) = n) as Hi.
    { split; [|done]. exists []. split; [apply cache_rep_new|]. unfold within_capacity. simpl. lia. }
    revert Hi. generalize (NewCache n NewCollector) as c0, Hs.
    clear Hs. induction 1 as [c0|c0 c1 c2 Hst _ IH]; [done|]. intros (H1 & H2 & H3).
    destruct (cache_step_ok _ _ Hst H1) as [? ?].
    apply IH. split; [done|]. split; [by eapply cache_step_metrics|congruence]. }
  split; [done|]. split; [done|]. exists es. split; [done|].
  destruct Hr as (_ & xs & Hr & ->). split; [by apply rep_data_len|].
  split; [done|apply (rep_mem _ _ Hr)].
Qed.

Lemma reachable_cache_invariant_witness :
  maxSize demo_cache = 2 ∧ metrics_ok demo_cache ∧
  ∃ es, cache_rep demo_cache es ∧ data_len demo_cache = Z.of_nat (length es) ∧
    Z.of_nat (length es) ≤ Z.max 1 2 ∧
    currentMemoryBytes demo_cache = wrap64 (spec_memory es).
Proof.
  apply (reachable_cache_invariant 2 demo_cache).
  eapply rtc_l; [eapply (step_set _ _ "a" "1" 0 10); vm_compute; reflexivity|].
  eapply rtc_l; [eapply (step_set _ _ "b" "2" 5 11); vm_compute; reflexivity|].
  eapply rtc_l; [eapply (step_get _ _ "a" 12); vm_compute; reflexivity|].
  match goal with |- rtc _ ?c _ => replace c with demo_cache by (vm_compute; reflexivity) end.
  apply rtc_refl.
Defined.

(** Read your write: after [Set(k, v, ttl)] at time [now], [Get(k)] at time
    [t] returns [v] exactly while the entry has no TTL or [t] has not passed
    [now + ttl]. *)
Theorem Get_after_Set (c : Cache) (es : list entry) (k v : string) (ttl now t : Z) :
  cache_rep c es → 0 < now →
  ∃ c1 c2, Set_ c k v ttl now = Ret c1 ∧
    Get c1 k t = Ret (if bool_decide (ttl ≤ 0 ∨ t ≤ now + ttl) then (v, true, c2) else ("", false, c2)).
Proof.
  intros Hr Hnow. destruct (Set_rep c es k v ttl now Hr) as (c1 & E1 & _ & Hr1).
  destruct (Get_rep c1 _ k t Hr1) as (v' & ok & c2 & E2 & _ & Hv & Hres & _).
  exists c1, c2. split; [done|]. rewrite E2. revert Hres. unfold spec_get, spec_set. cbn [spec_find fst].
  rewrite decide_True by done. unfold live, spec_expiry. simpl.
  assert (¬ ((if 0 <? ttl then now + ttl else 0) ≠ 0 ∧ (if 0 <? ttl then now + ttl else 0) < t)
    ↔ ttl ≤ 0 ∨ t ≤ now + ttl) as Hiff by (destruct (Z.ltb_spec 0 ttl); lia).
  case_decide as Hd; case_bool_decide as Hb; try tauto.
  - destruct ok; [|done]. by intros [= ->].
  - destruct ok; [done|]. by rewrite Hv.
Qed.

Lemma Get_after_Set_witness :
  ∃ c1 c2, Set_ demo_cache "z" "9" 7 20 = Ret c1 ∧ Get c1 "z" 27 = Ret ("9", true, c2).
Proof. apply (Get_after_Set demo_cache demo_entries "z" "9" 7 20 27 demo_cache_rep). lia. Defined.

(** C28. LRU: a key that has just been used (it is first in recency order) is
    still in the cache after any further calls that do not delete it, however
    many they are, as long as they use fewer distinct other keys than the capacity
    of the cache; whether they insert or read them. *)
Theorem recently_used_survives (c : Cache) (e : entry) (es : list entry) (xs : list call) :
  cache_rep c (e :: es) → Z.of_nat (size (other_keys e.1 xs)) < maxSize c → CDel e.1 ∉ xs →
  ∃ rs c', run_calls c xs = Ret (rs, c') ∧ is_Some (data c' !! e.1).
Proof.
  intros Hr Hl Hx. destruct (run_calls_rep c _ xs Hr) as (c' & E & _ & Hr').
  eexists _, c'. split; [exact E|].
  destruct (spec_run_recent (maxSize c) e.1 (other_keys e.1 xs) xs (e :: es)) as (l1 & e' & l2 & Hes & He' & _).
  - destruct Hr as (_ & ys & Hr & ->). apply (rep_nodup _ _ Hr).
  - done.
  - done.
  - intros k' Hk'. unfold other_keys. destruct (decide (k' = e.1)); [by left|right]. set_solver.
  - by apply recent_front.
  - destruct Hr' as (_ & ys & Hr' & Hys). rewrite Hes in Hys.
    destruct (rep_lookup_spec c' ys e.1 Hr') as [[_ Hf]|(it & -> & _)]; [|eauto].
    rewrite <-Hys, spec_find_None in Hf. destruct Hf. rewrite <-He'.
    apply list_elem_of_fmap_2, elem_of_app. right. apply elem_of_cons. by left.
Qed.

Lemma recently_used_survives_witness :
  ∃ rs c', run_calls demo_cache [CSet "q" "7" 0 30; CGet "q" 31; CGet "q" 32; CSet "q" "8" 0 33] = Ret (rs, c') ∧
    is_Some (data c' !! "a").
Proof.
  apply (recently_used_survives demo_cache ("a", ("1", 0)) [("b", ("2", 16))]
    [CSet "q" "7" 0 30; CGet "q" 31; CGet "q" 32; CSet "q" "8" 0 33] demo_cache_rep).
  - vm_compute. reflexivity.
  - rewrite !not_elem_of_cons. split_and!; try discriminate. apply not_elem_of_nil.
Defined.
