(* ===== verification/Resp.v ===== *)
(** * pkg/protocol: the RESP parser and encoder

    A [bufio.Reader] over a byte stream that ends is the string of bytes not
    read yet; every parser returns what it read (or a Go error) and the rest.
    [Parse] is recursive through arrays: it takes fuel, one unit per level, and
    [parse] gives it one more unit than there are bytes, which is always enough
    ([Parse_total]). *)

From S2P Require Import Prelude GoStd.
Local Open Scope Z_scope.

(** Go's [interface{}] values that occur: strings, the two integer types,
    slices of [interface{}] (nil or not: both have length zero and no use tells
    them apart), and the nil interface. *)
Inductive value :=
| VStr (s : string)
| VInt (n : Z)
| VInt64 (n : Z)
| VSlice (l : list value)
| VNil.

Inductive perr :=
| EOF
| UnexpectedEOF
| ErrMsg (msg : string).

Abbreviation pres A := (gres perr A * string)%type.

(** ** bufio.Reader *)

Definition ReadByte (r : string) : pres ascii :=
  match r with
  | EmptyString => (GErr EOF, EmptyString)
  | String c r => (GOk c, r)
  end.

(** [r.ReadString('\n')]: the line with its newline, or EOF when there is no
    newline (everything is consumed then). *)
Fixpoint ReadString (r : string) : pres string :=
  match r with
  | EmptyString => (GErr EOF, EmptyString)
  | String c r =>
      if decide (c = LF) then (GOk (String LF EmptyString), r)
      else match ReadString r with
           | (GOk line, rest) => (GOk (String c line), rest)
           | (GErr e, rest) => (GErr e, rest)
           end
  end.

(** [io.ReadFull(r, data)] with [len(data) = n]. *)
Definition ReadFull (n : Z) (r : string) : pres string :=
  if n =? 0 then (GOk EmptyString, r)
  else if slen r =? 0 then (GErr EOF, EmptyString)
  else if slen r <? n then (GErr UnexpectedEOF, EmptyString)
  else (GOk (str_take (Z.to_nat n) r), str_drop (Z.to_nat n) r).

(** ** parser.go *)

Definition readLine (r : string) : pres string :=
  match ReadString r with
  | (GErr e, r) => (GErr e, r)
  | (GOk line, r) =>
      if HasSuffix line CRLF then (GOk (TrimSuffix line CRLF), r)
      else (GErr (ErrMsg "invalid RESP: missing \r\n"), r)
  end.

Definition parseSimpleString (r : string) : pres string := readLine r.

Definition parseError (r : string) : pres string := readLine r.

Definition parseInteger (r : string) : pres Z :=
  match ReadString r with
  | (GErr e, r) => (GErr e, r)
  | (GOk line, r) =>
      if HasSuffix line CRLF then
        match Atoi (TrimSuffix line CRLF) with
        | Some num => (GOk num, r)
        | None => (GErr (ErrMsg "invalid RESP: not a valid integer"), r)
        end
      else (GErr (ErrMsg "invalid RESP: missing \r\n"), r)
  end.

(** [b, err := r.ReadByte(); err != nil || b != c]. *)
Definition expect_byte (c : ascii) (msg : string) (r : string) : pres unit :=
  match ReadByte r with
  | (GOk b, r) => if decide (b = c) then (GOk (), r) else (GErr (ErrMsg msg), r)
  | (GErr _, r) => (GErr (ErrMsg msg), r)
  end.

Definition parseBulkString (r : string) : outcome (pres string) :=
  match readLine r with
  | (GErr e, r) => mret (GErr e, r)
  | (GOk lengthStr, r) =>
      match Atoi lengthStr with
      | None => mret (GErr (ErrMsg "invalid bulk string length"), r)
      | Some length =>
          if length =? -1 then mret (GOk EmptyString, r)
          else
            _ ← make_slice 1 length;
            mret match ReadFull length r with
            | (GErr e, r) => (GErr e, r)
            | (GOk data, r) =>
                match expect_byte CR "expected \r after bulk string data" r with
                | (GErr e, r) => (GErr e, r)
                | (GOk _, r) =>
                    match expect_byte LF "expected \n after bulk string data" r with
                    | (GErr e, r) => (GErr e, r)
                    | (GOk _, r) => (GOk data, r)
                    end
                end
            end
      end
  end.

(** The element loop of [parseArray]: [n] elements to go, [res] so far. *)
Fixpoint parse_elements (P : string → outcome (pres value)) (fuel : nat) (n : Z)
    (res : list value) (r : string) : outcome (pres (list value)) :=
  if n <=? 0 then mret (GOk res, r)
  else match fuel with
       | O => OutOfFuel
       | S fuel =>
           '(e, r) ← P r;
           match e with
           | GErr err => mret (GErr err, r)
           | GOk element => parse_elements P fuel (n - 1) (res ++ [element]) r
           end
       end.

Definition parseArray (P : string → outcome (pres value)) (fuel : nat) (r : string) :
    outcome (pres (list value)) :=
  match readLine r with
  | (GErr e, r) => mret (GErr e, r)
  | (GOk lengthStr, r) =>
      match Atoi lengthStr with
      | None => mret (GErr (ErrMsg "invalid array length"), r)
      | Some length =>
          if length =? -1 then mret (GOk [], r)
          else
            _ ← make_slice 16 length;
            parse_elements P fuel length [] r
      end
  end.

Definition pres_map {A B} (f : A → B) (x : pres A) : pres B :=
  match x with
  | (GOk a, r) => (GOk (f a), r)
  | (GErr e, r) => (GErr e, r)
  end.

Fixpoint Parse (fuel : nat) (r : string) : outcome (pres value) :=
  match fuel with
  | O => OutOfFuel
  | S fuel =>
      match ReadByte r with
      | (GErr e, r) => mret (GErr e, r)
      | (GOk first, r) =>
          if decide (first = "+"%char) then mret (pres_map VStr (parseSimpleString r))
          else if decide (first = "-"%char) then mret (pres_map VStr (parseError r))
          else if decide (first = ":"%char) then mret (pres_map VInt (parseInteger r))
          else if decide (first = "$"%char) then pres_map VStr <$> parseBulkString r
          else if decide (first = "*"%char) then pres_map VSlice <$> parseArray (Parse fuel) fuel r
          else mret (GErr (ErrMsg "unknown RESP type"), r)
      end
  end.

(** [protocol.Parse] on a stream. *)
Definition parse (r : string) : outcome (pres value) := Parse (S (String.length r)) r.


(** ** encoder.go *)

Definition EncodeSimpleString (s : string) : string := "+" +:+ s +:+ CRLF.

Definition EncodeBulkString (s : string) (isNull : bool) : string :=
  if isNull then "$-1" +:+ CRLF
  else "$" +:+ Itoa (slen s) +:+ CRLF +:+ s +:+ CRLF.

Definition EncodeInteger (n : Z) : string := ":" +:+ Itoa n +:+ CRLF.

Definition EncodeError (s : string) : string := "-" +:+ s +:+ CRLF.

(** One turn of the loop of [EncodeArray]: the encoding of an element. *)
Definition encode_element (v : value) : outcome string :=
  match v with
  | VStr s => mret (EncodeBulkString s false)
  | VInt n => mret (EncodeInteger n)
  | VInt64 n => mret (EncodeInteger n)
  | _ => Panic
  end.

Fixpoint encode_elements (elements : list value) (result : string) : outcome string :=
  match elements with
  | [] => mret result
  | v :: elements => e ← encode_element v; encode_elements elements (result +:+ e)
  end.

Definition EncodeArray (elements : list value) : outcome string :=
  encode_elements elements ("*" +:+ Itoa (Z.of_nat (length elements)) +:+ CRLF).

Record RedirectResponse := { LeaderHost : string; LeaderPort : string }.

Definition EncodeRedirect (host : string) (port : Z) : string :=
  "-MOVED " +:+ host +:+ ":" +:+ Itoa port +:+ CRLF.

Definition IsRedirect (response : string) : bool :=
  HasPrefix response "MOVED" || HasPrefix response "-MOVED".

Definition ParseRedirect (response : string) : gres string RedirectResponse :=
  if negb (IsRedirect response) then
    GErr ("not a redirect response: " +:+ response)
  else
    let withoutPrefix := TrimPrefix response "-MOVED " in
    let withoutPrefix2 := TrimPrefix withoutPrefix "MOVED " in
    let withoutSuffix := TrimSuffix withoutPrefix2 CRLF in
    match Split withoutSuffix ":"%char with
    | [host; port] =>
        if decide (host = "") then GErr "invalid redirect: empty host"
        else if decide (port = "") then GErr "invalid redirect: empty port"
        else match Atoi port with
             | None => GErr ("invalid redirect: port must be a number got " +:+ port)
             | Some _ => GOk {| LeaderHost := host; LeaderPort := port |}
             end
    | _ => GErr ("invalid redirect format, expected 'host:port' but got: " +:+ withoutSuffix)
    end.

Definition Address (r : RedirectResponse) : string := LeaderHost r +:+ ":" +:+ LeaderPort r.

Definition EncodePubSubMessage (channel message : string) : outcome string :=
  EncodeArray [VStr "message"; VStr channel; VStr message].

Definition EncodeSubscribeConfirmation (channel : string) (subscriptionCount : Z) :
    outcome string :=
  EncodeArray [VStr "subscribe"; VStr channel; VInt subscriptionCount].

Definition EncodeUnsubscribeConfirmation (channel : string) (remainingCount : Z) :
    outcome string :=
  if decide (channel = "") then
    mret ("*3" +:+ CRLF +:+ EncodeBulkString "unsubscribe" false +:+ "$-1" +:+ CRLF
          +:+ ":" +:+ Itoa remainingCount +:+ CRLF)
  else EncodeArray [VStr "unsubscribe"; VStr channel; VInt remainingCount].

Definition EncodePublishResponse (subscriberCount : Z) : string :=
  EncodeInteger subscriberCount.

(** ** Reading lines *)

Lemma ReadString_line s r :
  string_elem LF s = false →
  ReadString (s +:+ String LF r) = (GOk (s +:+ String LF EmptyString), r).
Proof.
  induction s as [|c s IH]; simpl; [done|].
  intros [Hc Hs]%orb_false_iff. apply bool_decide_eq_false in Hc.
  rewrite decide_False by congruence. by rewrite IH.
Qed.

Lemma string_app_cons a c b : a +:+ String c b = (a +:+ String c EmptyString) +:+ b.
Proof. by rewrite <-string_app_assoc. Qed.

Lemma ReadString_crlf s r :
  string_elem LF s = false → ReadString (s +:+ CRLF +:+ r) = (GOk (s +:+ CRLF), r).
Proof.
  intros Hs. change (CRLF +:+ r) with (String CR (String LF r)).
  rewrite string_app_cons, ReadString_line, <-string_app_assoc; [done|].
  by rewrite string_elem_app, Hs.
Qed.

Lemma readLine_crlf s r : string_elem LF s = false → readLine (s +:+ CRLF +:+ r) = (GOk s, r).
Proof.
  intros. unfold readLine. by rewrite ReadString_crlf, HasSuffix_app, TrimSuffix_app.
Qed.

Lemma Itoa_no_LF n : string_elem LF (Itoa n) = false.
Proof. by apply Itoa_no_elem. Qed.

Lemma parseInteger_Itoa n r :
  int64_range n → parseInteger (Itoa n +:+ CRLF +:+ r) = (GOk n, r).
Proof.
  intros. unfold parseInteger.
  rewrite ReadString_crlf, HasSuffix_app, TrimSuffix_app by apply Itoa_no_LF.
  by rewrite Atoi_Itoa.
Qed.

Lemma ReadFull_app s r : ReadFull (slen s) (s +:+ r) = (GOk s, r).
Proof.
  unfold ReadFull, slen. rewrite slength_app, Nat2Z.id, str_take_app, str_drop_app.
  destruct s as [|c s]; [by destruct r|].
  set (n := String.length (String c s)).
  assert (0 < n)%nat by (simpl in *; lia). clearbody n.
  destruct (Z.eqb_spec (Z.of_nat n) 0); [lia|].
  destruct (Z.eqb_spec (Z.of_nat (n + String.length r)) 0); [lia|].
  by destruct (Z.ltb_spec (Z.of_nat (n + String.length r)) (Z.of_nat n)); [lia|].
Qed.

Lemma slen_nonneg s : 0 ≤ slen s.
Proof. unfold slen. lia. Qed.

Lemma parseBulkString_enc s r :
  slen s ≤ maxAlloc →
  parseBulkString (Itoa (slen s) +:+ CRLF +:+ s +:+ CRLF +:+ r) = Ret (GOk s, r).
Proof.
  intros Hs. pose proof (slen_nonneg s). unfold parseBulkString.
  rewrite readLine_crlf by apply Itoa_no_LF.
  rewrite Atoi_Itoa by (unfold int64_range, two63, maxAlloc in *; lia).
  destruct (Z.eqb_spec (slen s) (-1)); [lia|].
  rewrite make_slice_ok by lia. simpl. by rewrite ReadFull_app.
Qed.

(** ** Round trips *)

(** What [Parse] gives back for an element: [int64] values come back as [int]. *)
Definition reread (v : value) : value :=
  match v with VInt64 n => VInt n | _ => v end.

Definition encodable (v : value) : Prop :=
  match v with
  | VStr s => slen s ≤ maxAlloc
  | VInt n | VInt64 n => int64_range n
  | _ => False
  end.

#[export] Instance encodable_dec v : Decision (encodable v).
Proof. destruct v; simpl; apply _. Defined.

Lemma EncodeBulkString_app s r :
  EncodeBulkString s false +:+ r
  = String "$" (Itoa (slen s) +:+ CRLF +:+ s +:+ CRLF +:+ r).
Proof. unfold EncodeBulkString. by rewrite <-!string_app_assoc. Qed.

Lemma EncodeInteger_app n r :
  EncodeInteger n +:+ r = String ":" (Itoa n +:+ CRLF +:+ r).
Proof. unfold EncodeInteger. by rewrite <-!string_app_assoc. Qed.

(** The dispatch on the first byte. *)
Lemma Parse_dispatch fuel r :
  Parse (S fuel) (String "+" r) = Ret (pres_map VStr (parseSimpleString r)) ∧
  Parse (S fuel) (String "-" r) = Ret (pres_map VStr (parseError r)) ∧
  Parse (S fuel) (String ":" r) = Ret (pres_map VInt (parseInteger r)) ∧
  Parse (S fuel) (String "$" r) = (pres_map VStr <$> parseBulkString r) ∧
  Parse (S fuel) (String "*" r) = (pres_map VSlice <$> parseArray (Parse fuel) fuel r).
Proof. done. Qed.

Lemma Parse_bulk fuel s r :
  slen s ≤ maxAlloc → Parse (S fuel) (EncodeBulkString s false +:+ r) = Ret (GOk (VStr s), r).
Proof.
  intros. rewrite EncodeBulkString_app.
  rewrite (proj1 (proj2 (proj2 (proj2 (Parse_dispatch _ _))))).
  by rewrite parseBulkString_enc.
Qed.

Lemma Parse_integer fuel n r :
  int64_range n → Parse (S fuel) (EncodeInteger n +:+ r) = Ret (GOk (VInt n), r).
Proof.
  intros. rewrite EncodeInteger_app, (proj1 (proj2 (proj2 (Parse_dispatch _ _)))).
  by rewrite parseInteger_Itoa.
Qed.

Lemma Parse_element fuel v e r :
  encodable v → encode_element v = Ret e → Parse (S fuel) (e +:+ r) = Ret (GOk (reread v), r).
Proof.
  destruct v; intros Hv [= <-]; [by apply Parse_bulk|by apply Parse_integer..].
Qed.

(** The encoder's loop appends the concatenation of the elements' encodings,
    which the parser's loop reads back. *)
Lemma encode_elements_app l result :
  Forall encodable l →
  ∃ body, encode_elements l result = Ret (result +:+ body) ∧
    (length l ≤ String.length body)%nat ∧
    ∀ g k acc r, (length l ≤ k)%nat →
      parse_elements (Parse (S g)) k (Z.of_nat (length l)) acc (body +:+ r)
      = Ret (GOk (acc ++ (reread <$> l)), r).
Proof.
  intros Hl. revert result. induction Hl as [|v l Hv Hl IH]; intros result.
  { exists "". rewrite string_app_nil_r. split_and!; [done..|].
    intros g k acc r _. destruct k; simpl; by rewrite app_nil_r. }
  assert (∃ e, encode_element v = Ret e ∧ (0 < String.length e)%nat) as (e & He & Hlen).
  { destruct v; simpl in *; try done; eexists; (split; [reflexivity|]); simpl; lia. }
  destruct (IH (result +:+ e)) as (body & Hbody & Hlb & Hparse).
  exists (e +:+ body). cbn [encode_elements]. rewrite He.
  cbn [mbind outcome_bind]. rewrite Hbody.
  split_and!; [by rewrite string_app_assoc|rewrite slength_app; simpl; lia|].
  intros g k acc r Hk. simpl in Hk. destruct k as [|k]; [lia|]. cbn [parse_elements].
  rewrite <-string_app_assoc, (Parse_element g v e) by done.
  cbn [mbind outcome_bind mret outcome_ret].
  destruct (Z.leb_spec (Z.of_nat (Datatypes.length (v :: l))) 0) as [|_]; [simpl in *; lia|].
  replace (Z.of_nat (Datatypes.length (v :: l)) - 1) with (Z.of_nat (Datatypes.length l))
    by (simpl; lia).
  rewrite Hparse by lia. by rewrite <-(assoc_L (++)).
Qed.

Lemma Parse_EncodeArray l r :
  Forall encodable l → 16 * Z.of_nat (length l) ≤ maxAlloc →
  ∃ enc, EncodeArray l = Ret enc ∧
    ∀ fuel, (String.length enc < fuel)%nat →
      Parse fuel (enc +:+ r) = Ret (GOk (VSlice (reread <$> l)), r).
Proof.
  intros Hl Hlen. unfold EncodeArray.
  destruct (encode_elements_app l ("*" +:+ Itoa (Z.of_nat (length l)) +:+ CRLF) Hl)
    as (body & -> & Hb & Hparse).
  eexists. split; [reflexivity|]. intros fuel Hf. rewrite !slength_app in Hf.
  simpl in Hf. destruct fuel as [|[|g]]; [lia..|]. rewrite <-!string_app_assoc.
  change ("*" +:+ ?x) with (String "*" x).
  rewrite (proj2 (proj2 (proj2 (proj2 (Parse_dispatch _ _))))). unfold parseArray.
  rewrite readLine_crlf by apply Itoa_no_LF.
  rewrite Atoi_Itoa by (unfold int64_range, two63, maxAlloc in *; lia).
  destruct (Z.eqb_spec (Z.of_nat (length l)) (-1)); [lia|].
  rewrite make_slice_ok by lia. cbn [mbind outcome_bind].
  by rewrite Hparse by lia.
Qed.

(** C34. Every array the encoder produces (strings and integers, the only elements
    it accepts) is read back by [Parse] element for element, with nothing of
    the stream that follows it consumed. *)
Theorem EncodeArray_roundtrip l r :
  Forall encodable l → 16 * Z.of_nat (length l) ≤ maxAlloc →
  ∃ enc, EncodeArray l = Ret enc ∧
    parse (enc +:+ r) = Ret (GOk (VSlice (reread <$> l)), r).
Proof.
  intros Hl Hlen. destruct (Parse_EncodeArray l r Hl Hlen) as (enc & He & Hp).
  exists enc. split; [done|]. apply Hp. rewrite slength_app. lia.
Qed.

Lemma EncodeArray_roundtrip_witness :
  ∃ enc, EncodeArray [VStr "SET"; VStr "k"; VInt64 (-7)] = Ret enc ∧
    parse (enc +:+ "+OK") = Ret (GOk (VSlice [VStr "SET"; VStr "k"; VInt (-7)]), "+OK").
Proof.
  apply (EncodeArray_roundtrip [VStr "SET"; VStr "k"; VInt64 (-7)] "+OK").
  - repeat constructor; vm_compute; done.
  - by vm_compute.
Defined.

(** An array with any other element makes the encoder panic. *)
Lemma EncodeArray_panics l1 v l2 :
  Forall encodable l1 → encode_element v = Panic → EncodeArray (l1 ++ v :: l2) = Panic.
Proof.
  intros Hl Hv. unfold EncodeArray. generalize ("*" +:+ Itoa (Z.of_nat (length (l1 ++ v :: l2))) +:+ CRLF).
  induction Hl as [|w l1 Hw Hl IH]; intros res; simpl; [by rewrite Hv|].
  destruct w; simpl in *; try done; apply IH.
Qed.

(** ** Termination *)

(** A parser step is good when it returns or panics (no fuel exhausted), and a
    successful one consumes at least [k] bytes and never un-reads any. *)
Definition consumes {A} (k : nat) (r : string) (x : outcome (pres A)) : Prop :=
  match x with
  | Ret (GOk _, r') => (String.length r' + k ≤ String.length r)%nat
  | Ret (GErr _, r') => (String.length r' ≤ String.length r)%nat
  | Panic => True
  | _ => False
  end.

Lemma ReadString_consumes r : consumes 1 r (Ret (ReadString r)).
Proof.
  induction r as [|c r IH]; simpl; [done|]. case_decide; simpl; [lia|].
  destruct (ReadString r) as [[]]; simpl in *; lia.
Qed.

Lemma readLine_consumes r : consumes 1 r (Ret (readLine r)).
Proof.
  pose proof (ReadString_consumes r) as H. unfold readLine.
  destruct (ReadString r) as [[]]; simpl in *; [|done].
  split_matches; lia.
Qed.

Lemma parseInteger_consumes r : consumes 1 r (Ret (parseInteger r)).
Proof.
  pose proof (ReadString_consumes r) as H. unfold parseInteger.
  destruct (ReadString r) as [[]]; simpl in *; [|done].
  split_matches; lia.
Qed.

Lemma str_drop_length n s : (String.length (str_drop n s) ≤ String.length s)%nat.
Proof. revert s. induction n as [|n IH]; intros [|c s]; simpl; try lia. specialize (IH s). lia. Qed.

Lemma ReadFull_consumes n r : consumes 0 r (Ret (ReadFull n r)).
Proof.
  unfold ReadFull, consumes. split_matches; try lia.
  pose proof (str_drop_length (Z.to_nat n) r). lia.
Qed.

Lemma expect_byte_consumes c msg r : consumes 0 r (Ret (expect_byte c msg r)).
Proof. unfold expect_byte. destruct r; simpl; [lia|]. case_decide; simpl; lia. Qed.

Lemma parseBulkString_consumes r : consumes 1 r (parseBulkString r).
Proof.
  pose proof (readLine_consumes r) as H. unfold parseBulkString.
  destruct (readLine r) as [[] r1]; simpl in *; [|done].
  destruct (Atoi _) as [z|]; simpl; [|lia].
  destruct (z =? -1); simpl; [lia|].
  unfold make_slice. destruct ((z <? 0) || _); simpl; [done|].
  pose proof (ReadFull_consumes z r1) as H2. destruct (ReadFull z r1) as [[] r2]; simpl in *; [|lia].
  pose proof (expect_byte_consumes CR "expected \r after bulk string data" r2) as H3.
  destruct (expect_byte CR _ r2) as [[] r3]; simpl in *; [|lia].
  pose proof (expect_byte_consumes LF "expected \n after bulk string data" r3) as H4.
  destruct (expect_byte LF _ r3) as [[] r4]; simpl in *; lia.
Qed.

Lemma consumes_map {A B} (f : A → B) k r x : consumes k r x → consumes k r (pres_map f <$> x).
Proof. by destruct x as [[[]]| | |]. Qed.

Lemma parse_elements_consumes P fuel n acc r :
  (∀ r', (String.length r' ≤ String.length r)%nat → consumes 1 r' (P r')) →
  (String.length r < fuel)%nat → consumes 0 r (parse_elements P fuel n acc r).
Proof.
  revert n acc r. induction fuel as [|fuel IH]; intros n acc r HP Hf; [lia|].
  cbn [parse_elements]. destruct (n <=? 0); [simpl; lia|].
  pose proof (HP r (Nat.le_refl _)) as H. destruct (P r) as [[[] r1]| | |]; simpl in *; try done.
  assert (consumes 0 r1 (parse_elements P fuel (n - 1) (acc ++ [a]) r1)) as H2.
  { apply IH; [|lia]. intros r' Hr'. apply HP. lia. }
  destruct (parse_elements P fuel _ _ r1) as [[[]]| | |]; simpl in *; try done; lia.
Qed.

Lemma Parse_consumes fuel r : (String.length r < fuel)%nat → consumes 1 r (Parse fuel r).
Proof.
  revert r. induction fuel as [|fuel IH]; intros r Hf; [lia|].
  destruct r as [|c r]; [simpl; lia|]. cbn [Parse ReadByte]. simpl in Hf.
  assert (∀ A k (x : outcome (pres A)), consumes k r x → consumes 1 (String c r) x) as Hw.
  { intros A k x. destruct x as [[[]]| | |]; simpl; try done; lia. }
  repeat case_decide; [apply (Hw _ 1%nat)..|].
  - apply (consumes_map VStr 1 r (Ret _)), readLine_consumes.
  - apply (consumes_map VStr 1 r (Ret _)), readLine_consumes.
  - apply (consumes_map VInt 1 r (Ret _)), parseInteger_consumes.
  - apply consumes_map, parseBulkString_consumes.
  - apply consumes_map. unfold parseArray. pose proof (readLine_consumes r) as Hline.
    destruct (readLine r) as [[] r1]; simpl in *; [|done].
    destruct (Atoi _) as [z|]; simpl; [|lia].
  destruct (z =? -1); simpl; [lia|].
    unfold make_slice. destruct ((z <? 0) || _); simpl; [done|].
    assert (consumes 0 r1 (parse_elements (Parse fuel) fuel z [] r1)) as Helems.
    { apply parse_elements_consumes; [|lia]. intros r' Hr'. apply IH. lia. }
    destruct (parse_elements _ _ _ _ r1) as [[[]]| | |]; simpl in *; try done; lia.
  - simpl. lia.
Qed.

(** C35. [Parse] always finishes: on every byte stream it returns a value or an
    error, or panics in [make], after at most as many recursive calls as there
    are bytes; a value has consumed at least one byte, and the rest it leaves is
    no longer than the stream it was given. *)
Theorem parse_total r :
  (parse r = Panic ∨
   (∃ v rest, parse r = Ret (GOk v, rest) ∧ (String.length rest < String.length r)%nat) ∨
   (∃ e rest, parse r = Ret (GErr e, rest) ∧ (String.length rest ≤ String.length r)%nat)).
Proof.
  pose proof (Parse_consumes (S (String.length r)) r ltac:(lia)) as H.
  change (Parse (S (String.length r)) r) with (parse r) in H.
  destruct (parse r) as [[[v|e] rest]| | |]; simpl in H; try done.
  - right. left. exists v, rest. split; [done|lia].
  - right. right. by exists e, rest.
  - by left.
Qed.

(** A bulk-string or array header with a negative length other than -1 is not
    rejected: the parser calls [make] with it, which panics, whatever follows
    on the connection. *)
Theorem negative_length_panics n rest fuel :
  int64_range n → n < -1 →
  Parse (S fuel) ("$" +:+ Itoa n +:+ CRLF +:+ rest) = Panic ∧
  Parse (S fuel) ("*" +:+ Itoa n +:+ CRLF +:+ rest) = Panic.
Proof.
  intros Hr Hn. change ("$" +:+ ?x) with (String "$" x).
  change ("*" +:+ ?x) with (String "*" x).
  destruct (Parse_dispatch fuel (Itoa n +:+ CRLF +:+ rest)) as (_ & _ & _ & -> & ->).
  unfold parseBulkString, parseArray.
  rewrite !readLine_crlf, !Atoi_Itoa by (done || apply Itoa_no_LF).
  destruct (Z.eqb_spec n (-1)); [lia|]. unfold make_slice.
  by destruct (Z.ltb_spec n 0); [|lia].
Qed.

Lemma negative_length_panics_witness :
  Parse 1 ("$" +:+ Itoa (-5) +:+ CRLF +:+ "") = Panic ∧
  Parse 1 ("*" +:+ Itoa (-5) +:+ CRLF +:+ "") = Panic.
Proof. apply (negative_length_panics (-5) "" 0); by vm_compute. Defined.

(** The replies that are one line. *)
Lemma Parse_line_replies fuel s r :
  string_elem LF s = false →
  Parse (S fuel) (EncodeSimpleString s +:+ r) = Ret (GOk (VStr s), r) ∧
  Parse (S fuel) (EncodeError s +:+ r) = Ret (GOk (VStr s), r).
Proof.
  intros Hs. unfold EncodeSimpleString, EncodeError. rewrite <-!string_app_assoc.
  change ("+" +:+ ?x) with (String "+" x). change ("-" +:+ ?x) with (String "-" x).
  destruct (Parse_dispatch fuel (s +:+ CRLF +:+ r)) as (-> & -> & _).
  unfold parseSimpleString, parseError. by rewrite readLine_crlf.
Qed.

(** The null bulk string is read as the empty string: a missing key and an empty
    value cannot be told apart by the clients of [Parse]. *)
Lemma Parse_null_bulk fuel s r :
  Parse (S fuel) (EncodeBulkString s true +:+ r) = Ret (GOk (VStr ""), r).
Proof. done. Qed.

(** Every scalar reply of the server is read back by [Parse] as the value that
    was encoded, whatever follows it; errors come back as plain strings and
    the null bulk string as the empty string. *)
Theorem reply_roundtrip s n r :
  string_elem LF s = false → slen s ≤ maxAlloc → int64_range n →
  parse (EncodeSimpleString s +:+ r) = Ret (GOk (VStr s), r) ∧
  parse (EncodeError s +:+ r) = Ret (GOk (VStr s), r) ∧
  parse (EncodeBulkString s false +:+ r) = Ret (GOk (VStr s), r) ∧
  parse (EncodeBulkString s true +:+ r) = Ret (GOk (VStr ""), r) ∧
  parse (EncodeInteger n +:+ r) = Ret (GOk (VInt n), r).
Proof.
  intros Hs Hl Hn. unfold parse. split_and!.
  - by apply Parse_line_replies.
  - by apply Parse_line_replies.
  - by apply Parse_bulk.
  - apply (Parse_null_bulk _ s).
  - by apply Parse_integer.
Qed.

Lemma reply_roundtrip_witness :
  parse (EncodeSimpleString "OK" +:+ "x") = Ret (GOk (VStr "OK"), "x") ∧
  parse (EncodeError "OK" +:+ "x") = Ret (GOk (VStr "OK"), "x") ∧
  parse (EncodeBulkString "OK" false +:+ "x") = Ret (GOk (VStr "OK"), "x") ∧
  parse (EncodeBulkString "OK" true +:+ "x") = Ret (GOk (VStr ""), "x") ∧
  parse (EncodeInteger 3 +:+ "x") = Ret (GOk (VInt 3), "x").
Proof. apply (reply_roundtrip "OK" 3 "x"); by vm_compute. Defined.

(** ** Redirects *)

Lemma HasPrefix_moved s : IsRedirect ("MOVED " +:+ s) = true ∧ IsRedirect ("-MOVED " +:+ s) = true.
Proof. unfold IsRedirect. by destruct s. Qed.

Lemma str_take_drop n s : str_take n s +:+ str_drop n s = s.
Proof. revert s. induction n; intros [|c s]; simpl; [done..|]. by rewrite IHn. Qed.

Lemma TrimSuffix_no_LF s : string_elem LF s = false → TrimSuffix s CRLF = s.
Proof.
  intros Hs. unfold TrimSuffix. destruct (HasSuffix s CRLF) eqn:E; [|done].
  unfold HasSuffix in E. apply andb_true_iff in E as [_ E%bool_decide_eq_true].
  rewrite <-(str_take_drop (String.length s - String.length CRLF) s), E in Hs.
  rewrite string_elem_app in Hs. apply orb_false_iff in Hs as [_ Hs]. done.
Qed.

Lemma Split_host_port host port :
  string_elem ":" host = false → Split (host +:+ ":" +:+ Itoa port) ":" = [host; Itoa port].
Proof.
  intros Hh. change (":" +:+ Itoa port) with (String ":" (Itoa port)).
  rewrite Split_app_sep by done. rewrite Split_no_sep; [done|]. by apply Itoa_no_elem.
Qed.

(** The text after the prefix, with or without the line end. *)
Lemma ParseRedirect_host_port host port response body :
  host ≠ "" → string_elem ":" host = false → int64_range port →
  IsRedirect response = true →
  TrimPrefix (TrimPrefix response "-MOVED ") "MOVED " = body →
  TrimSuffix body CRLF = host +:+ ":" +:+ Itoa port →
  ParseRedirect response = GOk {| LeaderHost := host; LeaderPort := Itoa port |}.
Proof.
  intros Hne Hh Hp Hr Hb Hs. unfold ParseRedirect. rewrite Hr, Hb, Hs. simpl negb.
  rewrite Split_host_port by done. cbn -[decide Atoi].
  rewrite decide_False by done. rewrite decide_False by apply Itoa_nonempty.
  by rewrite Atoi_Itoa.
Qed.

(** A redirect written by [EncodeRedirect] reaches the client as the string
    "MOVED host:port", from which [ParseRedirect] recovers exactly the leader's
    host and port, so [Address] is the address to connect to. *)
Theorem redirect_roundtrip host port r :
  host ≠ "" → string_elem ":" host = false → string_elem LF host = false →
  int64_range port →
  ∃ response, parse (EncodeRedirect host port +:+ r) = Ret (GOk (VStr response), r) ∧
    IsRedirect response = true ∧
    ParseRedirect response = GOk {| LeaderHost := host; LeaderPort := Itoa port |} ∧
    Address {| LeaderHost := host; LeaderPort := Itoa port |} = host +:+ ":" +:+ Itoa port.
Proof.
  intros Hne Hc Hl Hp. set (body := host +:+ ":" +:+ Itoa port).
  assert (string_elem LF body = false) as Hb.
  { unfold body. by rewrite !string_elem_app, Hl, Itoa_no_LF. }
  exists ("MOVED " +:+ body). split_and!; [|apply HasPrefix_moved| |done].
  - assert (EncodeRedirect host port = EncodeError ("MOVED " +:+ body)) as ->.
    { unfold EncodeRedirect, EncodeError, body. by rewrite <-!string_app_assoc. }
    by apply Parse_line_replies.
  - apply (ParseRedirect_host_port _ _ _ body); try done.
    + apply TrimPrefix_app.
    + by apply TrimSuffix_no_LF.
Qed.

Lemma redirect_roundtrip_witness :
  ∃ response, parse (EncodeRedirect "10.0.0.7" 6379 +:+ "") = Ret (GOk (VStr response), "") ∧
    IsRedirect response = true ∧
    ParseRedirect response = GOk {| LeaderHost := "10.0.0.7"; LeaderPort := Itoa 6379 |} ∧
    Address {| LeaderHost := "10.0.0.7"; LeaderPort := Itoa 6379 |} = "10.0.0.7" +:+ ":" +:+ Itoa 6379.
Proof. apply (redirect_roundtrip "10.0.0.7" 6379 ""); by vm_compute. Defined.
