(* ===== verification/RespStream.v ===== *)
(** * The RESP parser on streams: more input and more fuel

    Two facts the users of a stream rely on.  More fuel changes nothing once the
    parser has enough ([Parse_mono], [Parse_parse]).  And when a stream is cut
    short, the parser on the part that is there either does what it does on the
    whole stream, or reports an error having consumed everything
    ([Parse_extends]). *)

From S2P Require Import Prelude GoStd Resp.
Local Open Scope Z_scope.

(** ** Fuel *)

Lemma parse_elements_mono P Q f f' n acc r :
  (∀ r, P r ≠ OutOfFuel → Q r = P r) → (f ≤ f')%nat →
  parse_elements P f n acc r ≠ OutOfFuel →
  parse_elements Q f' n acc r = parse_elements P f n acc r.
Proof.
  intros HPQ. revert f' n acc r. induction f as [|f IH]; intros f' n acc r Hf Hne.
  - simpl in *. destruct f'; simpl; by destruct (n <=? 0).
  - destruct f' as [|f']; [lia|]. cbn [parse_elements] in *. destruct (n <=? 0); [done|].
    assert (P r ≠ OutOfFuel) as HP by (intros E; by rewrite E in Hne).
    rewrite (HPQ r HP). destruct (P r) as [[[v|e] r1]| | |]; simpl in *; try done.
    apply IH; [lia|done].
Qed.

Lemma Parse_mono f f' r : (f ≤ f')%nat → Parse f r ≠ OutOfFuel → Parse f' r = Parse f r.
Proof.
  revert f' r. induction f as [|f IH]; intros f' r Hf Hne; [done|].
  destruct f' as [|f']; [lia|]. cbn [Parse] in *. destruct (ReadByte r) as [[c|e] r1]; [|done].
  repeat case_decide; try done. f_equal.
  assert (∀ r, Parse f r ≠ OutOfFuel → Parse f' r = Parse f r) as HPQ by (intros; apply IH; [lia|done]).
  unfold parseArray in *. destruct (readLine r1) as [[line|e] r2]; [|done].
  destruct (Atoi line) as [n|]; [|done]. destruct (n =? -1); [done|].
  destruct (make_slice 16 n); simpl in *; try done.
  apply parse_elements_mono; [done|lia|]. intros E. by rewrite E in Hne.
Qed.

(** Enough fuel is enough. *)
Lemma Parse_parse f r : (String.length r < f)%nat → Parse f r = parse r.
Proof.
  intros Hf. unfold parse. apply Parse_mono; [lia|].
  pose proof (Parse_consumes (S (String.length r)) r ltac:(lia)) as H. intros E. by rewrite E in H.
Qed.

(** ** Cut streams *)

(** What a parser does on [r] tells what it does on [r] followed by [x], unless it
    failed at the end of [r]. *)
Definition extends {A} (x : string) (short long : outcome (pres A)) : Prop :=
  match short with
  | Ret (GOk v, rest) => long = Ret (GOk v, rest +:+ x)
  | Ret (GErr e, rest) => rest ≠ "" → long = Ret (GErr e, rest +:+ x)
  | Panic => long = Panic
  | _ => True
  end.

(** Close a goal about a failure that consumed everything. *)
Ltac ext_done := first [done | simpl; intros Hne; by destruct Hne].

Lemma extends_map {A B} (f : A → B) x s l :
  extends x s l → extends x (pres_map f <$> s) (pres_map f <$> l).
Proof.
  destruct s as [[[v|e] rest]| | |]; simpl; try done; [by intros ->| |by intros ->].
  intros H Hne. by rewrite (H Hne).
Qed.

Lemma ReadByte_extends x r : extends x (Ret (ReadByte r)) (Ret (ReadByte (r +:+ x))).
Proof. destruct r; ext_done. Qed.

Lemma ReadString_extends x r : extends x (Ret (ReadString r)) (Ret (ReadString (r +:+ x))).
Proof.
  induction r as [|c r IH]; [ext_done|]. simpl. case_decide; [done|].
  destruct (ReadString r) as [[line|e] rest]; simpl in *.
  - injection IH as ->. done.
  - intros Hne. specialize (IH Hne). injection IH as ->. done.
Qed.

(** An EOF consumes everything, so its remainder is empty. *)
Lemma readLine_extends x r : extends x (Ret (readLine r)) (Ret (readLine (r +:+ x))).
Proof.
  pose proof (ReadString_extends x r) as H. unfold readLine.
  destruct (ReadString r) as [[line|e] rest]; simpl in *.
  - injection H as ->. by destruct (HasSuffix line CRLF).
  - intros Hne. specialize (H Hne). injection H as ->. done.
Qed.

Lemma parseInteger_extends x r : extends x (Ret (parseInteger r)) (Ret (parseInteger (r +:+ x))).
Proof.
  pose proof (ReadString_extends x r) as H. unfold parseInteger.
  destruct (ReadString r) as [[line|e] rest]; simpl in *.
  - injection H as ->. destruct (HasSuffix line CRLF); [|done]. by destruct (Atoi _).
  - intros Hne. specialize (H Hne). injection H as ->. done.
Qed.

Lemma str_take_app_le n a b : (n ≤ String.length a)%nat → str_take n (a +:+ b) = str_take n a.
Proof.
  revert a. induction n as [|n IH]; intros [|c a] Hn; simpl in *; try done; [lia|].
  rewrite IH; [done|lia].
Qed.

Lemma str_drop_app_le n a b : (n ≤ String.length a)%nat → str_drop n (a +:+ b) = str_drop n a +:+ b.
Proof.
  revert a. induction n as [|n IH]; intros [|c a] Hn; simpl in *; try done; [lia|].
  rewrite IH; [done|lia].
Qed.

Lemma ReadFull_extends x n r :
  0 ≤ n → extends x (Ret (ReadFull n r)) (Ret (ReadFull n (r +:+ x))).
Proof.
  intros Hn. unfold ReadFull, slen. rewrite slength_app.
  destruct (Z.eqb_spec n 0); [done|].
  destruct (Z.eqb_spec (Z.of_nat (String.length r)) 0); [ext_done|].
  destruct (Z.ltb_spec (Z.of_nat (String.length r)) n); [ext_done|].
  destruct (Z.eqb_spec (Z.of_nat (String.length r + String.length x)) 0); [lia|].
  destruct (Z.ltb_spec (Z.of_nat (String.length r + String.length x)) n); [lia|].
  simpl. by rewrite str_take_app_le, str_drop_app_le by lia.
Qed.

Lemma expect_byte_extends x c msg r :
  extends x (Ret (expect_byte c msg r)) (Ret (expect_byte c msg (r +:+ x))).
Proof. unfold expect_byte. destruct r; simpl; [ext_done|]. by case_decide. Qed.

(** Chaining: the continuation runs on what the first parser left. *)
Lemma extends_bind {A B} x (s l : pres A) (k k' : A → string → outcome (pres B)) :
  extends x (Ret s) (Ret l) →
  (∀ v rest, s = (GOk v, rest) → extends x (k v rest) (k' v (rest +:+ x))) →
  extends x (match s with (GOk v, r) => k v r | (GErr e, r) => Ret (GErr e, r) end)
            (match l with (GOk v, r) => k' v r | (GErr e, r) => Ret (GErr e, r) end).
Proof.
  destruct s as [[v|e] rest]; simpl.
  - intros [= ->] Hk. by apply Hk.
  - intros H _ Hne. specialize (H Hne). injection H as ->. done.
Qed.

Lemma bulk_tail_extends x data r :
  extends x
    (Ret match expect_byte CR "expected \r after bulk string data" r with
         | (GErr e, r) => (GErr e, r)
         | (GOk _, r) => match expect_byte LF "expected \n after bulk string data" r with
                         | (GErr e, r) => (GErr e, r)
                         | (GOk _, r) => (GOk data, r)
                         end
         end)
    (Ret match expect_byte CR "expected \r after bulk string data" (r +:+ x) with
         | (GErr e, r) => (GErr e, r)
         | (GOk _, r) => match expect_byte LF "expected \n after bulk string data" r with
                         | (GErr e, r) => (GErr e, r)
                         | (GOk _, r) => (GOk data, r)
                         end
         end : outcome (pres string)).
Proof.
  pose proof (expect_byte_extends x CR "expected \r after bulk string data" r) as H1.
  destruct (expect_byte CR _ r) as [[u|e] r1]; simpl in H1.
  - injection H1 as ->. pose proof (expect_byte_extends x LF "expected \n after bulk string data" r1) as H2.
    destruct (expect_byte LF _ r1) as [[u2|e] r2]; simpl in H2.
    + by injection H2 as ->.
    + simpl. intros Hne. specialize (H2 Hne). by injection H2 as ->.
  - simpl. intros Hne. specialize (H1 Hne). by injection H1 as ->.
Qed.

Lemma parseBulkString_extends x r : extends x (parseBulkString r) (parseBulkString (r +:+ x)).
Proof.
  pose proof (readLine_extends x r) as H. unfold parseBulkString.
  destruct (readLine r) as [[line|e] r1]; simpl in H.
  2: { simpl. intros Hne. specialize (H Hne). by injection H as ->. }
  injection H as ->. destruct (Atoi line) as [n|]; [|done]. destruct (n =? -1); [done|].
  unfold make_slice. destruct (Z.ltb_spec n 0); [done|]. simpl.
  destruct (maxAlloc <? 1 * n); [done|]. cbn [mbind outcome_bind mret outcome_ret].
  pose proof (ReadFull_extends x n r1 ltac:(done)) as H1.
  destruct (ReadFull n r1) as [[data|e] r2]; simpl in H1.
  - injection H1 as ->. apply bulk_tail_extends.
  - simpl. intros Hne. specialize (H1 Hne). by injection H1 as ->.
Qed.

Lemma parse_elements_extends P x f n acc r :
  (∀ r, extends x (P r) (P (r +:+ x))) →
  extends x (parse_elements P f n acc r) (parse_elements P f n acc (r +:+ x)).
Proof.
  intros HP. revert n acc r. induction f as [|f IH]; intros n acc r.
  { simpl. by destruct (n <=? 0). }
  cbn [parse_elements]. destruct (n <=? 0); [done|].
  pose proof (HP r) as H. destruct (P r) as [[[v|e] r1]| | |]; simpl in H.
  - rewrite H. apply IH.
  - simpl. intros Hne. by rewrite (H Hne).
  - by rewrite H.
  - done.
  - done.
Qed.

Lemma Parse_extends f x r : extends x (Parse f r) (Parse f (r +:+ x)).
Proof.
  revert r. induction f as [|f IH]; intros r; [done|]. destruct r as [|c r]; [ext_done|].
  cbn [Parse ReadByte String.append]. repeat case_decide.
  - apply (extends_map VStr x (Ret _) (Ret _)), readLine_extends.
  - apply (extends_map VStr x (Ret _) (Ret _)), readLine_extends.
  - apply (extends_map VInt x (Ret _) (Ret _)), parseInteger_extends.
  - apply extends_map, parseBulkString_extends.
  - apply extends_map. unfold parseArray. pose proof (readLine_extends x r) as H'.
    destruct (readLine r) as [[line|e] r1]; simpl in H'.
    2: { simpl. intros Hne. specialize (H' Hne). by injection H' as ->. }
    injection H' as ->. destruct (Atoi line) as [n|]; [|done]. destruct (n =? -1); [done|].
    destruct (make_slice 16 n); simpl; try done. by apply parse_elements_extends.
  - done.
Qed.

Lemma parse_cut r x v :
  parse (r +:+ x) = Ret (GOk v, "") → x ≠ "" → ∃ e, parse r = Ret (GErr e, "").
Proof.
  intros Hp Hx. pose proof (Parse_extends (S (String.length (r +:+ x))) x r) as H.
  change (Parse (S (String.length (r +:+ x))) (r +:+ x)) with (parse (r +:+ x)) in H. rewrite Hp in H.
  rewrite Parse_parse in H by (rewrite slength_app; lia).
  pose proof (Parse_consumes (S (String.length r)) r ltac:(lia)) as Hc.
  change (Parse (S (String.length r)) r) with (parse r) in Hc.
  destruct (parse r) as [[[v'|e] rest]| | |]; simpl in H, Hc; try done.
  - injection H as _ E. symmetry in E. apply string_app_nil_inv in E as [_ E]. done.
  - destruct (decide (rest = "")) as [->|Hne]; [by exists e|]. by specialize (H Hne).
Qed.

(** C36. Reading a stream that was cut short: if the whole stream holds exactly one
    value, then on any proper prefix of it the parser reports an error and has
    consumed the prefix entirely; it neither panics nor makes up a value. *)
Theorem parse_truncated r x v :
  parse (r +:+ x) = Ret (GOk v, "") → x ≠ "" → ∃ e, parse r = Ret (GErr e, "").
Proof. apply parse_cut. Qed.

Lemma parse_truncated_witness :
  ∃ e, parse ("*2" +:+ CRLF +:+ "$3" +:+ CRLF +:+ "DE") = Ret (GErr e, "").
Proof.
  apply (parse_truncated ("*2" +:+ CRLF +:+ "$3" +:+ CRLF +:+ "DE")
    ("L" +:+ CRLF +:+ EncodeBulkString "k" false) (VSlice [VStr "DEL"; VStr "k"])).
  - by vm_compute.
  - by vm_compute.
Defined.
