(* ===== verification/Sha256.v ===== *)
(** * crypto/sha256 and encoding/binary, as the hash ring uses them

    FIPS 180-4 SHA-256 on a list of bytes, 32-bit words as [Z] reduced modulo
    2^32 after every addition, and the big-endian reading of four bytes. *)

From S2P Require Import Prelude GoStd.
Local Open Scope Z_scope.

Definition add32 (a b : Z) : Z := wrap32u (a + b).
Definition rotr (n x : Z) : Z :=
  Z.lor (Z.shiftr x n) (wrap32u (Z.shiftl x (32 - n))).
Definition not32 (x : Z) : Z := Z.lxor x 4294967295.

Definition Ch x y z := Z.lxor (Z.land x y) (Z.land (not32 x) z).
Definition Maj x y z := Z.lxor (Z.lxor (Z.land x y) (Z.land x z)) (Z.land y z).
Definition bsig0 x := Z.lxor (Z.lxor (rotr 2 x) (rotr 13 x)) (rotr 22 x).
Definition bsig1 x := Z.lxor (Z.lxor (rotr 6 x) (rotr 11 x)) (rotr 25 x).
Definition ssig0 x := Z.lxor (Z.lxor (rotr 7 x) (rotr 18 x)) (Z.shiftr x 3).
Definition ssig1 x := Z.lxor (Z.lxor (rotr 17 x) (rotr 19 x)) (Z.shiftr x 10).

(** The round constants and the initial state are the first 32 bits of the
    fractional parts of the cube roots of the first 64 primes and of the square
    roots of the first 8. *)
Definition is_prime (n : Z) : bool :=
  forallb (λ d, negb (n mod d =? 0)) (seqZ 2 (n - 2)).
Definition primes (below : Z) : list Z := List.filter is_prime (seqZ 2 (below - 2)).

(** The largest [r] with [r ^ 3 <= n], bit by bit below [2 ^ bits]. *)
Fixpoint cube_root (bits : nat) (n r : Z) : Z :=
  match bits with
  | O => r
  | S bits =>
      let r' := r + 2 ^ Z.of_nat bits in
      cube_root bits n (if r' * r' * r' <=? n then r' else r)
  end.

Definition K256 : list Z :=
  Eval vm_compute in (λ p, wrap32u (cube_root 36 (p * 2 ^ 96) 0)) <$> primes 312.

Definition H256 : list Z :=
  Eval vm_compute in (λ p, wrap32u (Z.sqrt (p * 2 ^ 64))) <$> primes 20.

(** [binary.BigEndian.Uint32] of the first four bytes, and its inverse. *)
Definition BigEndian_Uint32 (b : list Z) : Z :=
  match b with
  | b0 :: b1 :: b2 :: b3 :: _ => wrap32u (b0 * 16777216 + b1 * 65536 + b2 * 256 + b3)
  | _ => 0
  end.

Definition word_bytes (w : Z) : list Z :=
  [Z.land (Z.shiftr w 24) 255; Z.land (Z.shiftr w 16) 255; Z.land (Z.shiftr w 8) 255; Z.land w 255].

(** The padded message: a 1 bit, zeros up to 56 modulo 64 bytes, the bit length
    in 64 bits. *)
Definition sha_pad (m : list Z) : list Z :=
  let n := Z.of_nat (length m) in
  m ++ [128] ++ repeat 0 (Z.to_nat ((55 - n) mod 64))
    ++ word_bytes (Z.shiftr (8 * n) 32) ++ word_bytes (wrap32u (8 * n)).

Fixpoint words_of (m : list Z) : list Z :=
  match m with
  | b0 :: b1 :: b2 :: b3 :: m => BigEndian_Uint32 [b0; b1; b2; b3] :: words_of m
  | _ => []
  end.

(** The message schedule, newest word first: [w] holds the last sixteen. *)
Fixpoint schedule (k : nat) (w : list Z) : list Z :=
  match k with
  | O => w
  | S k =>
      let s := add32 (add32 (ssig1 (nth 1 w 0)) (nth 6 w 0))
                     (add32 (ssig0 (nth 14 w 0)) (nth 15 w 0)) in
      schedule k (s :: w)
  end.

Definition sha_round (st : list Z) (kw : Z * Z) : list Z :=
  match st with
  | [a; b; c; d; e; f; g; h] =>
      let t1 := add32 (add32 h (bsig1 e)) (add32 (Ch e f g) (add32 kw.1 kw.2)) in
      let t2 := add32 (bsig0 a) (Maj a b c) in
      [add32 t1 t2; a; b; c; add32 d t1; e; f; g]
  | _ => st
  end.

Definition sha_block (st block : list Z) : list Z :=
  let w := reverse (schedule 48 (reverse block)) in
  zip_with add32 st (foldl sha_round st (zip K256 w)).

Fixpoint sha_blocks (fuel : nat) (st words : list Z) : list Z :=
  match fuel, words with
  | O, _ | _, [] => st
  | S fuel, _ => sha_blocks fuel (sha_block st (take 16 words)) (drop 16 words)
  end.

Fixpoint string_bytes (s : string) : list Z :=
  match s with EmptyString => [] | String c s => byte_val c :: string_bytes s end.

(** [h := sha256.New(); h.Write([]byte(s)); h.Sum(nil)] *)
Definition sha256_sum (s : string) : list Z :=
  let words := words_of (sha_pad (string_bytes s)) in
  concat (word_bytes <$> sha_blocks (length words) H256 words).

(** Test vectors of the standard: the empty message, one block, two blocks. *)
Definition hex_digit (n : Z) : ascii := byte_of (if n <? 10 then 48 + n else 87 + n).
Definition hex (b : list Z) : string :=
  foldr (λ x s, String (hex_digit (x / 16)) (String (hex_digit (x mod 16)) s)) "" b.

Example sha256_empty :
  hex (sha256_sum "") = "e3b0c44298fc1c149afbf4c8996fb92427ae41e4649b934ca495991b7852b855".
Proof. by vm_compute. Qed.

Example sha256_abc :
  hex (sha256_sum "abc") = "ba7816bf8f01cfea414140de5dae2223b00361a396177a9cb410ff61f20015ad".
Proof. by vm_compute. Qed.

Example sha256_two_blocks :
  hex (sha256_sum "abcdbcdecdefdefgefghfghighijhijkijkljklmklmnlmnomnopnopq") =
  "248d6a61d20638b8e5c026930c3e6039a33ce45964ff2167f6ecedd419db06c1".
Proof. by vm_compute. Qed.

Lemma BigEndian_Uint32_range b : uint32_range (BigEndian_Uint32 b).
Proof.
  unfold BigEndian_Uint32, uint32_range, wrap32u.
  destruct b as [|b0 [|b1 [|b2 [|b3 b]]]]; try (unfold two32; lia).
  apply Z.mod_pos_bound. unfold two32. lia.
Qed.
