(* ===== verification/HashRing.v ===== *)
(** * internal/cluster/hash.go: the consistent hash ring

    Every method of [HashRing] runs under the ring's own RWMutex from start to
    end and calls no other locking method while it holds it, so each is one
    atomic step on the ring; the record below is the ring without the mutex. *)

From S2P Require Import Prelude GoStd Sha256.
Local Open Scope Z_scope.

Module HashRing.

Record HashRing := mkRing {
  hashValues : list Z;
  hashToShard : gmap Z string;
  nodeAddresses : gmap string string;
  virtualNodes : Z;
  shardToNodes : gmap string (list string)
}.

Definition NewHashRing (virtualNodes : Z) : HashRing := mkRing [] ∅ ∅ virtualNodes ∅.

Definition hash (key : string) : Z := BigEndian_Uint32 (take 4 (sha256_sum key)).
#[global] Arguments hash : simpl never.

(** [fmt.Sprintf("%s-%d", shardID, i)] *)
Definition virtualKey (shardID : string) (i : Z) : string := shardID +:+ "-" +:+ Itoa i.

Definition with_ring (hr : HashRing) (hv : list Z) (m : gmap Z string) : HashRing :=
  mkRing hv m (nodeAddresses hr) (virtualNodes hr) (shardToNodes hr).

(** ** Membership *)

Definition add_vnode (shardID : string) (hr : HashRing) (i : Z) : HashRing :=
  let hashValue := hash (virtualKey shardID i) in
  with_ring hr (hashValues hr ++ [hashValue]) (<[hashValue := shardID]> (hashToShard hr)).

Definition AddShard (hr : HashRing) (shardID : string) : HashRing :=
  let hr := foldl (add_vnode shardID) hr (seqZ 0 (virtualNodes hr)) in
  with_ring hr (merge_sort Z.le (hashValues hr)) (hashToShard hr).

(** The inner loop of [RemoveShard]: drop the first occurrence, then [break]. *)
Fixpoint remove_first (hashValue : Z) (hv : list Z) : list Z :=
  match hv with
  | [] => []
  | val :: hv => if val =? hashValue then hv else val :: remove_first hashValue hv
  end.

Definition remove_vnode (shardID : string) (hr : HashRing) (i : Z) : HashRing :=
  let hashValue := hash (virtualKey shardID i) in
  with_ring hr (remove_first hashValue (hashValues hr)) (delete hashValue (hashToShard hr)).

Definition RemoveShard (hr : HashRing) (shardID : string) : HashRing :=
  foldl (remove_vnode shardID) hr (seqZ 0 (virtualNodes hr)).

#[global] Arguments AddShard : simpl never.
#[global] Arguments RemoveShard : simpl never.

(** ** Lookup *)

(** The index search shared by [GetNode], [GetShard] and the migration planner:
    the first position at or after [keyHash], or the length. *)
Definition search_index (hv : list Z) (keyHash : Z) : nat :=
  sort_Search (length hv) (λ i, keyHash <=? hv !!! i).

Definition GetShard (hr : HashRing) (key : string) : gres string string :=
  if decide (hashValues hr = []) then GErr "hash ring is empty"
  else
    let keyHash := hash key in
    let idx := search_index (hashValues hr) keyHash in
    let idx := if decide (length (hashValues hr) ≤ idx)%nat then 0%nat else idx in
    let hashValue := hashValues hr !!! idx in
    GOk (default "" (hashToShard hr !! hashValue)).

Definition GetNode (hr : HashRing) (key : string) : gres string string :=
  if decide (hashValues hr = []) then GErr "hash ring is empty"
  else
    let keyHash := hash key in
    let idx := search_index (hashValues hr) keyHash in
    let idx := if decide (length (hashValues hr) ≤ idx)%nat then 0%nat else idx in
    let hashValue := hashValues hr !!! idx in
    GOk (default "" (hashToShard hr !! hashValue)).

Definition Hash (key : string) : Z := hash key.

(** The set a Go map used as a set holds after the loop over [hashToShard]. *)
Definition uniqueNodes (hr : HashRing) : gset string :=
  list_to_set ((map_to_list (hashToShard hr)).*2).

(** The slice has the set's elements in the order the range loop visits them:
    [order] is that order. *)
Definition nodes_order (hr : HashRing) (order : list string) : Prop :=
  order ≡ₚ elements (uniqueNodes hr).

Definition GetNodes (hr : HashRing) (order : list string) : list string :=
  foldl (λ nodes nodeID, nodes ++ [nodeID]) [] order.

Definition GetNodeCount (hr : HashRing) (order : list string) : Z :=
  Z.of_nat (length (GetNodes hr order)).

Definition GetAllNodes (hr : HashRing) (order : list string) : list string :=
  GetNodes hr order.

Definition GetAllShards (hr : HashRing) (order : list string) : list string :=
  foldl (λ shards shardID, shards ++ [shardID]) [] order.

(** ** Addresses and shard members *)

Definition GetNodeAddress (hr : HashRing) (nodeID : string) : string :=
  default "" (nodeAddresses hr !! nodeID).

Definition SetNodeAddress (hr : HashRing) (nodeID address : string) : HashRing :=
  mkRing (hashValues hr) (hashToShard hr) (<[nodeID := address]> (nodeAddresses hr))
    (virtualNodes hr) (shardToNodes hr).

Definition SetShardNodes (hr : HashRing) (shardID : string) (nodeIDs : list string) : HashRing :=
  mkRing (hashValues hr) (hashToShard hr) (nodeAddresses hr)
    (virtualNodes hr) (<[shardID := nodeIDs]> (shardToNodes hr)).

Definition GetShardNodes (hr : HashRing) (shardID : string) : gres string (list string) :=
  match shardToNodes hr !! shardID with
  | None => GErr ("shard " +:+ shardID +:+ " not found")
  | Some nodes => GOk nodes
  end.

Definition GetShardLeader (hr : HashRing) (shardID : string) : gres string string :=
  match GetShardNodes hr shardID with
  | GErr e => GErr e
  | GOk [] => GErr ("shard " +:+ shardID +:+ " has no nodes")
  | GOk (leader :: _) => GOk leader
  end.

Definition GetShardFollowers (hr : HashRing) (shardID : string) : gres string (list string) :=
  match GetShardNodes hr shardID with
  | GErr e => GErr e
  | GOk [] => GOk []
  | GOk (_ :: followers) => GOk followers
  end.

(** ** The positions of a shard *)

Definition positions (vn : Z) (shardID : string) : list Z :=
  (λ i, hash (virtualKey shardID i)) <$> seqZ 0 vn.

Lemma hash_range key : uint32_range (hash key).
Proof. apply BigEndian_Uint32_range. Qed.

#[global] Opaque hash.

Lemma positions_range vn s : Forall uint32_range (positions vn s).
Proof. apply Forall_fmap, Forall_true. intros i. apply hash_range. Qed.

(** The effect of the loop of [AddShard] on the two fields it changes. *)
Lemma add_vnodes_spec s hr idxs :
  foldl (add_vnode s) hr idxs =
  with_ring hr (hashValues hr ++ ((λ i, hash (virtualKey s i)) <$> idxs))
    (foldl (λ m h, <[h := s]> m) (hashToShard hr) ((λ i, hash (virtualKey s i)) <$> idxs)).
Proof.
  revert hr. induction idxs as [|i idxs IH]; intros hr; simpl.
  - destruct hr. by rewrite app_nil_r.
  - rewrite IH. unfold add_vnode, with_ring. simpl. by rewrite <-(assoc_L (++)).
Qed.

Definition insert_all (s : string) (m : gmap Z string) (hs : list Z) : gmap Z string :=
  foldl (λ m h, <[h := s]> m) m hs.

Lemma AddShard_eq hr s :
  AddShard hr s =
  with_ring hr (merge_sort Z.le (hashValues hr ++ positions (virtualNodes hr) s))
    (insert_all s (hashToShard hr) (positions (virtualNodes hr) s)).
Proof. unfold AddShard. by rewrite add_vnodes_spec. Qed.

Lemma RemoveShard_eq hr s :
  RemoveShard hr s =
  with_ring hr (foldl (λ hv h, remove_first h hv) (hashValues hr) (positions (virtualNodes hr) s))
    (foldl (λ m h, delete h m) (hashToShard hr) (positions (virtualNodes hr) s)).
Proof.
  unfold RemoveShard, positions. generalize (seqZ 0 (virtualNodes hr)) as idxs.
  intros idxs. revert hr. induction idxs as [|i idxs IH]; intros hr; simpl; [by destruct hr|].
  by rewrite IH.
Qed.

Lemma lookup_insert_all s m hs h :
  insert_all s m hs !! h = if decide (h ∈ hs) then Some s else m !! h.
Proof.
  unfold insert_all. revert m. induction hs as [|x hs IH]; intros m; simpl; [done|].
  rewrite IH. destruct (decide (h ∈ hs)) as [Hin|Hin].
  - rewrite decide_True; [done|]. apply elem_of_cons. by right.
  - destruct (decide (h = x)) as [->|Hne].
    + rewrite lookup_insert_eq, decide_True; [done|]. apply elem_of_cons. by left.
    + rewrite lookup_insert_ne, decide_False by (rewrite ?elem_of_cons; naive_solver). done.
Qed.

Lemma lookup_delete_all (m : gmap Z string) hs h :
  foldl (λ m h, delete h m) m hs !! h = if decide (h ∈ hs) then None else m !! h.
Proof.
  revert m. induction hs as [|x hs IH]; intros m; simpl; [done|].
  rewrite IH. destruct (decide (h ∈ hs)) as [Hin|Hin].
  - rewrite decide_True; [done|]. apply elem_of_cons. by right.
  - destruct (decide (h = x)) as [->|Hne].
    + rewrite lookup_delete_eq, decide_True; [done|]. apply elem_of_cons. by left.
    + rewrite lookup_delete_ne, decide_False by (rewrite ?elem_of_cons; naive_solver). done.
Qed.

(** *** Removing one occurrence *)

Lemma remove_first_notin h hv : h ∉ hv → remove_first h hv = hv.
Proof.
  induction hv as [|x hv IH]; simpl; [done|]. rewrite elem_of_cons. intros Hx.
  destruct (Z.eqb_spec x h); [naive_solver|]. rewrite IH; naive_solver.
Qed.

Lemma remove_first_perm h hv : h ∈ hv → hv ≡ₚ h :: remove_first h hv.
Proof.
  induction hv as [|x hv IH]; simpl; [by intros ?%elem_of_nil|].
  destruct (Z.eqb_spec x h) as [->|Hne]; [done|].
  intros [->|Hin]%elem_of_cons; [done|]. rewrite (IH Hin) at 1. apply Permutation_swap.
Qed.

Lemma remove_first_sublist h hv : sublist (remove_first h hv) hv.
Proof.
  induction hv as [|x hv IH]; simpl; [constructor|].
  destruct (x =? h); [by apply sublist_cons|by apply sublist_skip].
Qed.

Lemma remove_all_sublist hs hv : sublist (foldl (λ hv h, remove_first h hv) hv hs) hv.
Proof.
  revert hv. induction hs as [|h hs IH]; intros hv; simpl; [done|].
  etrans; [apply IH|apply remove_first_sublist].
Qed.

Lemma elem_of_remove_all hs hv x :
  NoDup hv → x ∈ foldl (λ hv h, remove_first h hv) hv hs ↔ x ∈ hv ∧ x ∉ hs.
Proof.
  revert hv. induction hs as [|h hs IH]; intros hv Hnd; simpl.
  { split; [intros Hx; split; [done|apply not_elem_of_nil]|by intros []]. }
  rewrite IH by (eapply sublist_NoDup; [done|apply remove_first_sublist]).
  rewrite not_elem_of_cons. destruct (decide (h ∈ hv)) as [Hin|Hin].
  - pose proof (remove_first_perm h hv Hin) as Hp. rewrite Hp in Hnd.
    apply NoDup_cons in Hnd as [Hh _]. split.
    + intros [Hx Hs]. rewrite Hp, elem_of_cons. naive_solver.
    + intros (Hx & Hne & Hs). rewrite Hp, elem_of_cons in Hx. naive_solver.
  - rewrite remove_first_notin by done. naive_solver.
Qed.

Lemma sublist_StronglySorted (hv hv' : list Z) :
  sublist hv' hv → StronglySorted Z.le hv → StronglySorted Z.le hv'.
Proof.
  induction 1 as [|x l1 l2 Hs IH|x l1 l2 Hs IH]; [done| |]; intros [Hs2 Hf]%StronglySorted_inv.
  - constructor; [by apply IH|]. rewrite Forall_forall in *. intros y Hy.
    apply Hf. by eapply elem_of_sublist.
  - by apply IH.
Qed.

(** ** Lookup against the clockwise-successor specification *)

(** The distance from [k] clockwise to [h] on the circle of 2^32 positions, and
    the position of [hs] that is nearest in that direction. *)
Definition cw (k h : Z) : Z := (h - k) mod two32.

Definition successor (hs : list Z) (k h : Z) : Prop :=
  h ∈ hs ∧ ∀ h', h' ∈ hs → cw k h ≤ cw k h'.

Lemma successor_check hs k h :
  bool_decide (h ∈ hs ∧ Forall (λ h', cw k h ≤ cw k h') hs) = true → successor hs k h.
Proof. intros [? Hall]%bool_decide_eq_true_1. split; [done|]. by rewrite Forall_forall in Hall. Qed.

Lemma cw_ge k h : uint32_range k → uint32_range h → k ≤ h → cw k h = h - k.
Proof. unfold uint32_range, cw. intros. apply Z.mod_small. lia. Qed.

Lemma cw_lt k h : uint32_range k → uint32_range h → h < k → cw k h = h - k + two32.
Proof.
  unfold uint32_range, cw. intros.
  rewrite <-(Z.mod_add (h - k) 1 two32) by (unfold two32; lia).
  rewrite Z.mul_1_l. apply Z.mod_small. lia.
Qed.

Ltac cw_cases k h :=
  destruct (Z.le_gt_cases k h);
  [rewrite ?(cw_ge k h) in * by (done || lia) | rewrite ?(cw_lt k h) in * by (done || lia)].

Lemma cw_inj k h h' :
  uint32_range k → uint32_range h → uint32_range h' → cw k h = cw k h' → h = h'.
Proof.
  intros Hk Hh Hh' E. cw_cases k h; cw_cases k h'; unfold uint32_range in *; lia.
Qed.

Lemma successor_unique hs k h h' :
  Forall uint32_range hs → uint32_range k →
  successor hs k h → successor hs k h' → h = h'.
Proof.
  intros Hr Hk [Hin Hmin] [Hin' Hmin']. rewrite Forall_forall in Hr.
  apply (cw_inj k); auto. apply Z.le_antisymm; auto.
Qed.

Lemma successor_exists hs k : hs ≠ [] → ∃ h, successor hs k h.
Proof.
  induction hs as [|x hs IH]; [done|]. intros _. destruct hs as [|y hs].
  { exists x. split; [by apply list_elem_of_singleton|]. by intros h' ->%list_elem_of_singleton. }
  destruct IH as (h & Hin & Hmin); [done|]. destruct (Z.le_ge_cases (cw k x) (cw k h)).
  - exists x. split; [apply elem_of_cons; by left|].
    intros h' [->|Hh']%elem_of_cons; [done|]. specialize (Hmin h' Hh'). lia.
  - exists h. split; [apply elem_of_cons; by right|].
    intros h' [->|Hh']%elem_of_cons; [done|]. auto.
Qed.

Lemma successor_sub hs hs' k h :
  successor hs k h → (∀ x, x ∈ hs' → x ∈ hs) → h ∈ hs' → successor hs' k h.
Proof. intros [_ Hmin] Hsub Hin. split; auto. Qed.

Lemma sorted_lookup hv i j x y :
  StronglySorted Z.le hv → (i ≤ j)%nat → hv !! i = Some x → hv !! j = Some y → x ≤ y.
Proof.
  intros Hs. revert i j. induction Hs as [|z hv Hs IH Hf]; intros i j Hij Hx Hy; [done|].
  destruct i as [|i], j as [|j]; simplify_eq/=; [lia| |lia|apply (IH i j); (lia || done)].
  rewrite Forall_forall in Hf. by apply Hf, (list_elem_of_lookup_2 _ j).
Qed.

(** The index the lookup uses holds the successor of the key's hash. *)
Lemma search_index_successor hv k :
  StronglySorted Z.le hv → Forall uint32_range hv → uint32_range k → hv ≠ [] →
  let idx := search_index hv k in
  successor hv k (hv !!! (if decide (length hv ≤ idx)%nat then 0%nat else idx)).
Proof.
  intros Hs Hr Hk Hne idx. rewrite Forall_forall in Hr.
  assert (∀ i, (i < length hv)%nat → ∃ x, hv !! i = Some x) as Hsome.
  { intros i Hi. by apply lookup_lt_is_Some. }
  destruct (sort_Search_spec (λ i, k <=? hv !!! i) (length hv)) as (Hle & Hlo & Hhi).
  { intros i j Hij Hj Hi. destruct (Hsome i) as [x Hx]; [lia|]. destruct (Hsome j) as [y Hy]; [lia|].
    rewrite (list_lookup_total_correct _ _ _ Hx) in Hi. rewrite (list_lookup_total_correct _ _ _ Hy).
    pose proof (sorted_lookup hv i j x y Hs Hij Hx Hy). lia. }
  change (sort_Search _ _) with idx in *.
  set (i0 := if decide (length hv ≤ idx)%nat then 0%nat else idx).
  assert (i0 < length hv)%nat as Hi0.
  { subst i0. case_decide; [destruct hv; simpl in *; [done|lia]|lia]. }
  destruct (Hsome i0 Hi0) as [h Hh]. rewrite (list_lookup_total_correct _ _ _ Hh).
  split; [by eapply list_elem_of_lookup_2|].
  intros h' [j Hj]%list_elem_of_lookup_1.
  assert (uint32_range h) by (apply Hr; by eapply list_elem_of_lookup_2).
  assert (uint32_range h') by (apply Hr; by eapply list_elem_of_lookup_2).
  pose proof (lookup_lt_Some _ _ _ Hj) as Hjl.
  assert (∀ n x, hv !! n = Some x → (n < idx)%nat → x < k) as Hbelow.
  { intros n x Hx Hn. specialize (Hlo n Hn). rewrite (list_lookup_total_correct _ _ _ Hx) in Hlo. lia. }
  assert (∀ n x, hv !! n = Some x → (idx ≤ n)%nat → k ≤ x) as Habove.
  { intros n x Hx Hn. specialize (Hhi n). rewrite (list_lookup_total_correct _ _ _ Hx) in Hhi.
    apply lookup_lt_Some in Hx. lia. }
  subst i0. destruct (decide (length hv ≤ idx)%nat) as [Hw|Hw].
  - specialize (Hbelow 0%nat h Hh) as Hb0. specialize (Hbelow j h' Hj) as Hbj.
    rewrite !cw_lt by (done || lia).
    pose proof (sorted_lookup hv 0 j h h' Hs ltac:(lia) Hh Hj). lia.
  - specialize (Habove idx h Hh). rewrite cw_ge by (done || lia).
    destruct (decide (idx ≤ j)%nat).
    + specialize (Hhi j). pose proof (sorted_lookup hv idx j h h' Hs ltac:(lia) Hh Hj).
      rewrite cw_ge by (done || lia). lia.
    + specialize (Hbelow j h' Hj). rewrite cw_lt by (done || lia). unfold uint32_range in *. lia.
Qed.

(** The well-formedness of a ring: sorted positions in range, each of them with
    an owner and no owner elsewhere. *)
Record ring_ok (hr : HashRing) : Prop := {
  ok_sorted : StronglySorted Z.le (hashValues hr);
  ok_range : Forall uint32_range (hashValues hr);
  ok_owner : ∀ h, h ∈ hashValues hr ↔ is_Some (hashToShard hr !! h)
}.

(** [GetShard] in terms of the specification. *)
Lemma GetShard_spec hr key :
  ring_ok hr →
  match GetShard hr key with
  | GOk s => ∃ h, successor (hashValues hr) (hash key) h ∧ hashToShard hr !! h = Some s
  | GErr _ => hashValues hr = []
  end.
Proof.
  intros [Hs Hr Ho]. unfold GetShard. destruct (decide _) as [|Hne]; [done|].
  pose proof (search_index_successor _ _ Hs Hr (hash_range key) Hne) as Hsucc.
  simpl in Hsucc. eexists. split; [exact Hsucc|].
  destruct Hsucc as [Hin _]. apply Ho in Hin as [s Hin]. by rewrite Hin.
Qed.

Lemma GetShard_intro hr key h s :
  ring_ok hr → successor (hashValues hr) (hash key) h → hashToShard hr !! h = Some s →
  GetShard hr key = GOk s.
Proof.
  intros Hok Hsucc Hs. pose proof (GetShard_spec hr key Hok) as H.
  destruct (GetShard hr key) as [s'|e].
  - destruct H as (h' & Hsucc' & Hs').
    assert (h = h') as -> by (eapply successor_unique; [apply Hok|apply hash_range|done..]).
    congruence.
  - destruct Hsucc as [Hin _]. rewrite H in Hin. by apply elem_of_nil in Hin.
Qed.

(** ** The operations keep the ring well formed *)

#[local] Instance Zle_total : Total Z.le.
Proof. intros x y. lia. Qed.

Lemma elem_of_AddShard hr s h :
  h ∈ hashValues (AddShard hr s) ↔ h ∈ hashValues hr ∨ h ∈ positions (virtualNodes hr) s.
Proof. rewrite AddShard_eq. simpl. by rewrite merge_sort_Permutation, elem_of_app. Qed.

Lemma lookup_AddShard hr s h :
  hashToShard (AddShard hr s) !! h =
  if decide (h ∈ positions (virtualNodes hr) s) then Some s else hashToShard hr !! h.
Proof. rewrite AddShard_eq. apply lookup_insert_all. Qed.

Lemma lookup_RemoveShard hr s h :
  hashToShard (RemoveShard hr s) !! h =
  if decide (h ∈ positions (virtualNodes hr) s) then None else hashToShard hr !! h.
Proof. rewrite RemoveShard_eq. apply lookup_delete_all. Qed.

Lemma ring_ok_new vn : ring_ok (NewHashRing vn).
Proof.
  split; simpl; [constructor|constructor|]. intros h. rewrite lookup_empty.
  split; [by intros ?%elem_of_nil|by intros [? ?]].
Qed.

Lemma ring_ok_add hr s : ring_ok hr → ring_ok (AddShard hr s).
Proof.
  intros [Hs Hr Ho]. split.
  - rewrite AddShard_eq. simpl. apply (StronglySorted_merge_sort Z.le).
  - rewrite AddShard_eq. simpl. rewrite merge_sort_Permutation.
    apply Forall_app. split; [done|apply positions_range].
  - intros h. rewrite elem_of_AddShard, lookup_AddShard, Ho.
    case_decide; naive_solver.
Qed.

Lemma ring_ok_remove hr s :
  ring_ok hr → NoDup (hashValues hr) → ring_ok (RemoveShard hr s).
Proof.
  intros [Hs Hr Ho] Hnd. rewrite RemoveShard_eq.
  pose proof (remove_all_sublist (positions (virtualNodes hr) s) (hashValues hr)) as Hsub.
  split; simpl.
  - by eapply sublist_StronglySorted.
  - rewrite Forall_forall in *. intros h Hh. apply Hr. by eapply elem_of_sublist.
  - intros h. rewrite elem_of_remove_all, lookup_delete_all, Ho by done.
    case_decide; [|naive_solver]. split; [naive_solver|by intros [? ?]].
Qed.

(** The positions a shard would take are pairwise distinct and free. *)
Definition fresh_shard (hr : HashRing) (s : string) : Prop :=
  NoDup (hashValues hr ++ positions (virtualNodes hr) s).

#[export] Instance fresh_shard_dec hr s : Decision (fresh_shard hr s).
Proof. unfold fresh_shard. apply _. Defined.

Lemma fresh_notin hr s h :
  fresh_shard hr s → h ∈ hashValues hr → h ∉ positions (virtualNodes hr) s.
Proof. intros (_ & Hd & _)%NoDup_app. auto. Qed.

(** The invariant of rings built without hash collisions: on top of [ring_ok],
    no position occurs twice, and a shard owns its positions and nothing else. *)
Record ring_inv (hr : HashRing) : Prop := {
  inv_ok : ring_ok hr;
  inv_nodup : NoDup (hashValues hr);
  inv_pos : ∀ h s, hashToShard hr !! h = Some s → h ∈ positions (virtualNodes hr) s
}.

Lemma ring_inv_new vn : ring_inv (NewHashRing vn).
Proof. split; [apply ring_ok_new|constructor|by intros ??]. Qed.

Lemma virtualNodes_add hr s : virtualNodes (AddShard hr s) = virtualNodes hr.
Proof. by rewrite AddShard_eq. Qed.

Lemma virtualNodes_remove hr s : virtualNodes (RemoveShard hr s) = virtualNodes hr.
Proof. by rewrite RemoveShard_eq. Qed.

Lemma ring_inv_add hr s : ring_inv hr → fresh_shard hr s → ring_inv (AddShard hr s).
Proof.
  intros [Hok Hnd Hpos] Hf. split; [by apply ring_ok_add| |].
  - rewrite AddShard_eq. simpl. by rewrite merge_sort_Permutation.
  - intros h t. rewrite lookup_AddShard, virtualNodes_add. case_decide; [by intros [= <-]|apply Hpos].
Qed.

Lemma ring_inv_remove hr s : ring_inv hr → ring_inv (RemoveShard hr s).
Proof.
  intros [Hok Hnd Hpos]. split; [by apply ring_ok_remove| |].
  - rewrite RemoveShard_eq. simpl. eapply sublist_NoDup; [done|apply remove_all_sublist].
  - intros h t. rewrite lookup_RemoveShard, virtualNodes_remove. case_decide; [done|apply Hpos].
Qed.

(** Histories of a ring: shards join without collisions and leave. *)
Inductive ring_reachable (vn : Z) : HashRing → Prop :=
| reach_new : ring_reachable vn (NewHashRing vn)
| reach_add hr s : ring_reachable vn hr → fresh_shard hr s → ring_reachable vn (AddShard hr s)
| reach_remove hr s : ring_reachable vn hr → ring_reachable vn (RemoveShard hr s)
| reach_address hr n a : ring_reachable vn hr → ring_reachable vn (SetNodeAddress hr n a)
| reach_nodes hr s ns : ring_reachable vn hr → ring_reachable vn (SetShardNodes hr s ns).

Lemma reachable_inv vn hr : ring_reachable vn hr → ring_inv hr.
Proof.
  induction 1 as [|hr s _ IH Hf|hr s _ IH|hr n a _ [[]]|hr s ns _ [[]]].
  - apply ring_inv_new.
  - by apply ring_inv_add.
  - by apply ring_inv_remove.
  - by split; [split| |].
  - by split; [split| |].
Qed.

(** A ring of two shards with three virtual nodes each, for the examples. *)
Definition demo_ring : HashRing :=
  mkRing [474149929; 1707635493; 2462620361; 3521218142; 3702471817; 3931201150]
    (list_to_map [(474149929, "shard-1"); (1707635493, "shard-2"); (2462620361, "shard-1");
                  (3521218142, "shard-2"); (3702471817, "shard-2"); (3931201150, "shard-1")])
    ∅ 3 ∅.

Lemma demo_positions_1 : positions 3 "shard-1" = [474149929; 3931201150; 2462620361].
Proof. by vm_compute. Qed.
Lemma demo_positions_2 : positions 3 "shard-2" = [1707635493; 3702471817; 3521218142].
Proof. by vm_compute. Qed.
Lemma demo_positions_3 : positions 3 "shard-3" = [2256050715; 1320858679; 887348231].
Proof. by vm_compute. Qed.
Lemma demo_positions_4 : positions 3 "shard-4" = [2210347822; 3991347463; 3389146234].
Proof. by vm_compute. Qed.

Ltac demo_simpl :=
  rewrite ?AddShard_eq, ?RemoveShard_eq; cbn [virtualNodes with_ring demo_ring NewHashRing];
  rewrite ?demo_positions_1, ?demo_positions_2, ?demo_positions_3, ?demo_positions_4.

Lemma demo_ring_built :
  AddShard (AddShard (NewHashRing 3) "shard-1") "shard-2" = demo_ring.
Proof. demo_simpl. by vm_compute. Qed.

Lemma demo_fresh s : s = "shard-3" ∨ s = "shard-4" → fresh_shard demo_ring s.
Proof.
  intros [-> | ->]; unfold fresh_shard; demo_simpl;
    match goal with |- NoDup ?l => apply (bool_decide_eq_true_1 (NoDup l)) end; by vm_compute.
Qed.

Lemma demo_ring_reachable : ring_reachable 3 demo_ring.
Proof.
  rewrite <-demo_ring_built. apply reach_add; [apply reach_add; [constructor|]|];
    unfold fresh_shard; demo_simpl;
    match goal with |- NoDup ?l => apply (bool_decide_eq_true_1 (NoDup l)) end; by vm_compute.
Qed.

Lemma demo_ring_inv : ring_inv demo_ring.
Proof. apply (reachable_inv _ _ demo_ring_reachable). Qed.

(** ** Claims *)

(** C16. On a well-formed ring [GetShard] (binary search with wrap-around) returns
    the shard that owns the first position clockwise from the key's hash, that
    is the position at the least distance modulo 2^32; it fails exactly on the
    empty ring, and [GetNode] is the same function. *)
Theorem GetShard_successor hr key :
  ring_ok hr →
  GetNode hr key = GetShard hr key ∧
  (GetShard hr key = GErr "hash ring is empty" ↔ hashValues hr = []) ∧
  (∀ s, GetShard hr key = GOk s ↔
     ∃ h, successor (hashValues hr) (hash key) h ∧ hashToShard hr !! h = Some s).
Proof.
  intros Hok. split_and!; [done| |].
  - unfold GetShard. case_decide; naive_solver.
  - intros s. split.
    + intros E. pose proof (GetShard_spec hr key Hok) as H. by rewrite E in H.
    + intros (h & ? & ?). by eapply GetShard_intro.
Qed.

Lemma GetShard_successor_witness :
  GetNode demo_ring "user:1" = GetShard demo_ring "user:1" ∧
  (GetShard demo_ring "user:1" = GErr "hash ring is empty" ↔ hashValues demo_ring = []) ∧
  (∀ s, GetShard demo_ring "user:1" = GOk s ↔
     ∃ h, successor (hashValues demo_ring) (hash "user:1") h ∧ hashToShard demo_ring !! h = Some s).
Proof. apply GetShard_successor, (inv_ok _ demo_ring_inv). Defined.

(** C17. Minimal disruption when a shard joins: a key whose first position at or
    after its hash, among those of the ring and of the new shard, is one of the
    new shard goes to the new shard, and every other key keeps the owner it had,
    even if positions collide. *)
Theorem AddShard_minimal hr s key :
  ring_ok hr →
  (∀ h, successor (hashValues hr ++ positions (virtualNodes hr) s) (hash key) h →
     (h ∈ positions (virtualNodes hr) s → GetShard (AddShard hr s) key = GOk s) ∧
     (h ∉ positions (virtualNodes hr) s → GetShard (AddShard hr s) key = GetShard hr key)) ∧
  (hashValues hr ++ positions (virtualNodes hr) s = [] →
     GetShard (AddShard hr s) key = GErr "hash ring is empty").
Proof.
  intros Hok. pose proof (ring_ok_add hr s Hok) as Hok'.
  assert (∀ x, x ∈ hashValues (AddShard hr s) ↔ x ∈ hashValues hr ++ positions (virtualNodes hr) s) as Hin.
  { intros x. by rewrite elem_of_AddShard, elem_of_app. }
  split.
  - intros h Hs.
    assert (successor (hashValues (AddShard hr s)) (hash key) h) as Hs'.
    { eapply successor_sub; [exact Hs|intros x; apply Hin|apply Hin, Hs]. }
    split; intros Hh.
    + apply (GetShard_intro _ key h); [done|done|]. by rewrite lookup_AddShard, decide_True.
    + assert (h ∈ hashValues hr) as Hold by (destruct Hs as [[?|?]%elem_of_app _]; done).
      destruct (proj1 (ok_owner _ Hok h) Hold) as [t Ht].
      rewrite (GetShard_intro _ key h t Hok' Hs') by (by rewrite lookup_AddShard, decide_False).
      symmetry. apply (GetShard_intro _ key h); [done| |done].
      eapply successor_sub; [exact Hs|intros x ?; apply elem_of_app; by left|done].
  - intros Hnil. unfold GetShard. rewrite decide_True; [done|].
    destruct (hashValues (AddShard hr s)) as [|x l] eqn:El; [done|].
    specialize (Hin x). rewrite Hnil in Hin. destruct (not_elem_of_nil x). apply Hin. by left.
Qed.

(** A key that moves to the new shard and one that stays. *)
Lemma AddShard_minimal_witness :
  GetShard (AddShard demo_ring "shard-3") "user:3" = GOk "shard-3" ∧
  GetShard (AddShard demo_ring "shard-3") "user:1" = GetShard demo_ring "user:1".
Proof.
  split.
  - apply (proj1 (AddShard_minimal demo_ring "shard-3" "user:3" (inv_ok _ demo_ring_inv)) 1320858679);
      change (virtualNodes demo_ring) with 3; rewrite demo_positions_3.
    + by apply successor_check; vm_compute.
    + by apply (bool_decide_eq_true_1 (_ ∈ _)); vm_compute.
  - apply (proj1 (AddShard_minimal demo_ring "shard-3" "user:1" (inv_ok _ demo_ring_inv)) 3521218142);
      change (virtualNodes demo_ring) with 3; rewrite demo_positions_3.
    + by apply successor_check; vm_compute.
    + by apply (bool_decide_eq_true_1 (_ ∉ _)); vm_compute.
Defined.

(** A shard of the ring: all its positions are its own. *)
Definition member (hr : HashRing) (s : string) : Prop :=
  Forall (λ h, hashToShard hr !! h = Some s) (positions (virtualNodes hr) s).

#[export] Instance member_dec hr s : Decision (member hr s).
Proof. unfold member. apply _. Defined.

Lemma member_add hr s : member (AddShard hr s) s.
Proof.
  unfold member. rewrite virtualNodes_add. apply Forall_forall. intros h Hh.
  by rewrite lookup_AddShard, decide_True.
Qed.

Lemma member_add_other hr s t :
  member hr s → ring_ok hr → fresh_shard hr t → member (AddShard hr t) s.
Proof.
  unfold member. rewrite virtualNodes_add. rewrite !Forall_forall. intros Hm Hok Hf h Hh.
  rewrite lookup_AddShard, decide_False; [by apply Hm|].
  apply fresh_notin; [done|]. apply (ok_owner _ Hok). eauto.
Qed.

(** Minimal disruption when a shard leaves: every key of another shard keeps
    its owner, no key is routed to the removed shard any more, and a key that
    moves goes to the owner of the next remaining position. *)
Theorem RemoveShard_minimal hr s :
  ring_inv hr → member hr s →
  (∀ key t, GetShard hr key = GOk t → t ≠ s → GetShard (RemoveShard hr s) key = GOk t) ∧
  (∀ key, GetShard (RemoveShard hr s) key ≠ GOk s) ∧
  ring_inv (RemoveShard hr s).
Proof.
  intros Hinv Hm. pose proof Hinv as [Hok Hnd Hpos].
  pose proof (ring_ok_remove hr s Hok Hnd) as Hok'. unfold member in Hm. rewrite Forall_forall in Hm.
  assert (∀ h, h ∈ hashValues (RemoveShard hr s) ↔
    h ∈ hashValues hr ∧ h ∉ positions (virtualNodes hr) s) as Hin.
  { intros h. rewrite RemoveShard_eq. by apply elem_of_remove_all. }
  split_and!; [| |by apply ring_inv_remove].
  - intros key t E Hne. pose proof (GetShard_spec hr key Hok) as H. rewrite E in H.
    destruct H as (h & Hsucc & Ht).
    assert (h ∉ positions (virtualNodes hr) s) as Hh.
    { intros Hh%Hm. congruence. }
    apply (GetShard_intro _ key h); [done| |by rewrite lookup_RemoveShard, decide_False].
    eapply successor_sub; [done| |].
    + intros x. rewrite Hin. tauto.
    + rewrite Hin. split; [|done]. apply (ok_owner _ Hok). eauto.
  - intros key E. pose proof (GetShard_spec _ key Hok') as H. rewrite E in H.
    destruct H as (h & _ & Ht). rewrite lookup_RemoveShard in Ht.
    case_decide as Hh; [done|]. by apply Hh, Hpos.
Qed.

Lemma RemoveShard_minimal_witness :
  (∀ key t, GetShard demo_ring key = GOk t → t ≠ "shard-2" →
     GetShard (RemoveShard demo_ring "shard-2") key = GOk t) ∧
  (∀ key, GetShard (RemoveShard demo_ring "shard-2") key ≠ GOk "shard-2") ∧
  ring_inv (RemoveShard demo_ring "shard-2").
Proof.
  apply RemoveShard_minimal; [apply demo_ring_inv|].
  unfold member. demo_simpl. repeat constructor.
Defined.

Lemma remove_all_perm hs hv hv' :
  hv ≡ₚ hs ++ hv' → foldl (λ hv h, remove_first h hv) hv hs ≡ₚ hv'.
Proof.
  revert hv. induction hs as [|h hs IH]; intros hv Hp; simpl; [done|]. apply IH.
  assert (h ∈ hv) as Hin by (rewrite Hp; apply elem_of_cons; by left).
  pose proof (remove_first_perm h hv Hin) as Hp2. rewrite Hp2 in Hp.
  by eapply Permutation_cons_inv.
Qed.

Lemma ring_eq hr hr' :
  ring_ok hr → ring_ok hr' → hashValues hr ≡ₚ hashValues hr' →
  (∀ h, hashToShard hr !! h = hashToShard hr' !! h) →
  nodeAddresses hr = nodeAddresses hr' → virtualNodes hr = virtualNodes hr' →
  shardToNodes hr = shardToNodes hr' → hr = hr'.
Proof.
  intros Hok Hok' Hp Hm. destruct hr, hr'; simpl in *. intros -> -> ->.
  f_equal; [|by apply map_eq].
  apply (StronglySorted_unique Z.le); [apply Hok|apply Hok'|done].
Qed.

(** A shard that joins without collisions and leaves again restores the ring
    exactly, positions and owners. *)
Theorem AddShard_RemoveShard hr s :
  ring_inv hr → fresh_shard hr s → RemoveShard (AddShard hr s) s = hr.
Proof.
  intros Hinv Hf. pose proof (ring_inv_add _ _ Hinv Hf) as Hinv1.
  pose proof (ring_inv_remove _ s Hinv1) as Hinv2.
  apply ring_eq; [apply Hinv2|apply Hinv| | |by rewrite RemoveShard_eq, AddShard_eq..].
  - rewrite RemoveShard_eq, virtualNodes_add. apply remove_all_perm.
    rewrite AddShard_eq. simpl. rewrite merge_sort_Permutation. apply Permutation_app_comm.
  - intros h. rewrite lookup_RemoveShard, virtualNodes_add, lookup_AddShard.
    case_decide as Hh; [|done]. destruct (hashToShard hr !! h) as [t|] eqn:E; [|done].
    exfalso. eapply fresh_notin; [done| |done]. apply (ok_owner _ (inv_ok _ Hinv)). eauto.
Qed.

Lemma AddShard_RemoveShard_witness :
  RemoveShard (AddShard demo_ring "shard-3") "shard-3" = demo_ring.
Proof.
  apply AddShard_RemoveShard; [apply demo_ring_inv|].
  apply demo_fresh. by left.
Defined.

(** Rings do not depend on the order in which shards are added, so all the
    servers and clients that know the same shards route alike. *)
Theorem AddShard_comm hr a b :
  ring_ok hr → fresh_shard (AddShard hr a) b →
  AddShard (AddShard hr a) b = AddShard (AddShard hr b) a.
Proof.
  intros Hok Hf. apply ring_eq; [by apply ring_ok_add, ring_ok_add|by apply ring_ok_add, ring_ok_add| | |by rewrite !AddShard_eq..].
  - rewrite !AddShard_eq. simpl. rewrite !merge_sort_Permutation. solve_Permutation.
  - intros h. rewrite !lookup_AddShard, !virtualNodes_add.
    destruct (decide (h ∈ positions (virtualNodes hr) b)) as [Hb|Hb]; [|done].
    rewrite decide_False; [done|]. intros Ha. eapply (fresh_notin (AddShard hr a) b h); [done| |].
    + apply elem_of_AddShard. by right.
    + by rewrite virtualNodes_add.
Qed.

Lemma AddShard_comm_witness :
  AddShard (AddShard demo_ring "shard-3") "shard-4"
  = AddShard (AddShard demo_ring "shard-4") "shard-3".
Proof.
  apply AddShard_comm; [apply (inv_ok _ demo_ring_inv)|].
  unfold fresh_shard. demo_simpl.
  match goal with |- NoDup ?l => apply (bool_decide_eq_true_1 (NoDup l)) end. by vm_compute.
Defined.

(** ** Adding a shard twice *)

Lemma successor_self hs k : k ∈ hs → successor hs k k.
Proof.
  intros Hk. split; [done|]. intros h' _. unfold cw. rewrite Z.sub_diag. simpl.
  apply Z.mod_pos_bound. done.
Qed.

(** Adding a shard twice is not undone by removing it: one copy of every
    position stays in the ring without an owner, and a key that falls on it is
    routed, without an error, to the shard named by the empty string. *)
Theorem AddShard_twice_orphans hr s :
  ring_inv hr → fresh_shard hr s → 0 < virtualNodes hr →
  let hr' := RemoveShard (AddShard (AddShard hr s) s) s in
  hash (virtualKey s 0) ∈ hashValues hr' ∧
  hashToShard hr' !! hash (virtualKey s 0) = None ∧
  GetShard hr' (virtualKey s 0) = GOk "".
Proof.
  intros Hinv Hf Hvn hr'. set (h := hash (virtualKey s 0)).
  assert (h ∈ positions (virtualNodes hr) s) as Hpos.
  { apply list_elem_of_fmap. exists 0. split; [done|]. apply elem_of_seqZ. lia. }
  set (hr2 := AddShard (AddShard hr s) s).
  assert (ring_ok hr2) as [Hs Hr _] by (apply ring_ok_add, ring_ok_add, Hinv).
  assert (hashValues hr' ≡ₚ positions (virtualNodes hr) s ++ hashValues hr) as Hp.
  { unfold hr'. rewrite RemoveShard_eq, !virtualNodes_add. apply remove_all_perm.
    rewrite (AddShard_eq (AddShard hr s)), (AddShard_eq hr).
    cbn [hashValues with_ring virtualNodes]. rewrite !merge_sort_Permutation.
    rewrite <-(assoc_L (++)), Permutation_app_comm. by rewrite <-(assoc_L (++)). }
  assert (h ∈ hashValues hr') as Hin by (rewrite Hp; apply elem_of_app; by left).
  assert (hashToShard hr' !! h = None) as Hnone.
  { unfold hr'. by rewrite lookup_RemoveShard, !virtualNodes_add, decide_True. }
  assert (sublist (hashValues hr') (hashValues hr2)) as Hsub.
  { unfold hr'. rewrite RemoveShard_eq. apply remove_all_sublist. }
  assert (Forall uint32_range (hashValues hr')) as Hr'.
  { rewrite Forall_forall in *. intros x Hx. apply Hr. by eapply elem_of_sublist. }
  split_and!; [done..|]. unfold GetShard. fold h. rewrite decide_False.
  2: { intros E. rewrite E in Hin. by apply elem_of_nil in Hin. }
  pose proof (search_index_successor (hashValues hr') h
    (sublist_StronglySorted _ _ Hsub Hs) Hr' (hash_range _)) as Hsucc.
  simpl in Hsucc. erewrite (successor_unique _ h (_ !!! _) h Hr' (hash_range _)).
  - by rewrite Hnone.
  - apply Hsucc. intros E. rewrite E in Hin. by apply elem_of_nil in Hin.
  - by apply successor_self.
Qed.

Lemma AddShard_twice_orphans_witness :
  let hr' := RemoveShard (AddShard (AddShard demo_ring "shard-3") "shard-3") "shard-3" in
  hash (virtualKey "shard-3" 0) ∈ hashValues hr' ∧
  hashToShard hr' !! hash (virtualKey "shard-3" 0) = None ∧
  GetShard hr' (virtualKey "shard-3" 0) = GOk "".
Proof.
  apply AddShard_twice_orphans; [apply demo_ring_inv| |by vm_compute].
  apply demo_fresh. by left.
Defined.
End HashRing.
