(* ===== verification/Migration.v ===== *)
(** * internal/cluster/migration.go: which keys move when the ring changes *)

From S2P Require Import Prelude GoStd Sha256 HashRing.
Import HashRing.
Local Open Scope Z_scope.

Module Migration.

Record MigrationTask := {
  FromNode : string;
  ToNode : string;
  KeyPattern : string;
  StartHash : Z;
  EndHash : Z
}.

(** A slice index out of range panics. *)
Definition index (hv : list Z) (i : Z) : outcome Z :=
  if i <? 0 then Panic else or_panic (hv !! Z.to_nat i).

Definition owner (hr : HashRing) (h : Z) : string := default "" (hashToShard hr !! h).

(** One turn of the loop of [CalculateMigrations]. *)
Definition migration_step (hr : HashRing) (newNodeID : string) (tasks : list MigrationTask)
    (i : Z) : outcome (list MigrationTask) :=
  let hv := hashValues hr in
  let vhash := hash (virtualKey newNodeID i) in
  let idx := Z.of_nat (search_index hv vhash) in
  let len := Z.of_nat (length hv) in
  let idx := if idx =? len then 0 else idx in
  prevHash ← (if idx =? 0 then index hv (len - 1) else index hv (idx - 1));
  let prevNode := owner hr prevHash in
  if decide (prevNode = newNodeID) then mret tasks
  else mret (tasks ++ [{| FromNode := prevNode; ToNode := newNodeID; KeyPattern := "*";
                          StartHash := prevHash; EndHash := vhash |}]).

(** A [MigrationTask] occupies 56 bytes: three strings and two uint32. *)
Definition CalculateMigrations (hr : HashRing) (newNodeID : string) :
    outcome (list MigrationTask) :=
  _ ← make_slice 56 (virtualNodes hr);
  for_each (migration_step hr newNodeID) [] (seqZ 0 (virtualNodes hr)).

(** One turn of the loop of [CalculateMigrationsForRemoval]. *)
Definition removal_step (hr : HashRing) (removeNodeID : string) (tasks : list MigrationTask)
    (i : Z) : outcome (list MigrationTask) :=
  let hv := hashValues hr in
  let vhash := hash (virtualKey removeNodeID i) in
  let idx := Z.of_nat (search_index hv vhash) in
  let len := Z.of_nat (length hv) in
  let nextIdx := (idx + 1) mod len in
  nextHash ← index hv nextIdx;
  let nextNode := owner hr nextHash in
  if decide (nextNode = removeNodeID) then mret tasks
  else
    prevHash ← (if idx =? 0 then index hv (len - 1) else index hv (idx - 1));
    mret (tasks ++ [{| FromNode := removeNodeID; ToNode := nextNode; KeyPattern := "*";
                       StartHash := prevHash; EndHash := vhash |}]).

Definition CalculateMigrationsForRemoval (hr : HashRing) (removeNodeID : string) :
    outcome (list MigrationTask) :=
  if decide (hashValues hr = []) then mret []
  else for_each (removal_step hr removeNodeID) [] (seqZ 0 (virtualNodes hr)).

Definition hashInRange (hash start stop : Z) : bool :=
  if start <? stop then (start <=? hash) && (hash <? stop)
  else (start <=? hash) || (hash <? stop).

Definition KeyInRange (key : string) (start stop : Z) : bool :=
  hashInRange (hash key) start stop.

(** ** Arcs of the ring *)

(** The distance from [h] clockwise up to just before [v]. *)
Definition back (v h : Z) : Z := (v - 1 - h) mod two32.

Lemma back_lt v h : uint32_range v → uint32_range h → h < v → back v h = v - 1 - h.
Proof. unfold uint32_range, back. intros. apply Z.mod_small. lia. Qed.

Lemma back_ge v h : uint32_range v → uint32_range h → v ≤ h → back v h = v - 1 - h + two32.
Proof.
  unfold uint32_range, back. intros.
  rewrite <-(Z.mod_add (v - 1 - h) 1 two32) by (unfold two32; lia).
  rewrite Z.mul_1_l. apply Z.mod_small. lia.
Qed.

Ltac back_cases v h :=
  destruct (Z.lt_ge_cases h v);
  [rewrite ?(back_lt v h) in * by (done || lia) | rewrite ?(back_ge v h) in * by (done || lia)].

(** [hashInRange] is membership in the half-open arc from [p] clockwise to [v]
    (the whole circle when they coincide). *)
Lemma hashInRange_back k p v :
  uint32_range k → uint32_range p → uint32_range v →
  hashInRange k p v = true ↔ back v k ≤ back v p.
Proof.
  intros Hk Hp Hv. unfold hashInRange. back_cases v k; back_cases v p;
    unfold uint32_range in *; destruct (Z.ltb_spec p v); try lia.
Qed.

(** The position that precedes [v] on the ring. *)
Definition predecessor (hs : list Z) (v p : Z) : Prop :=
  p ∈ hs ∧ ∀ h, h ∈ hs → back v p ≤ back v h.

Definition prev_index (hv : list Z) (v : Z) : nat :=
  let idx := search_index hv v in
  if decide (idx = 0 ∨ idx = length hv)%nat then (length hv - 1)%nat else (idx - 1)%nat.

(** What [sort.Search] tells about a sorted ring. *)
Lemma search_index_spec hv v :
  StronglySorted Z.le hv →
  (search_index hv v ≤ length hv)%nat ∧
  (∀ n x, hv !! n = Some x → (n < search_index hv v)%nat → x < v) ∧
  (∀ n x, hv !! n = Some x → (search_index hv v ≤ n)%nat → v ≤ x).
Proof.
  intros Hs. destruct (sort_Search_spec (λ i, v <=? hv !!! i) (length hv)) as (Hle & Hlo & Hhi).
  { intros i j Hij Hj Hi. destruct (lookup_lt_is_Some_2 hv i) as [x Hx]; [lia|].
    destruct (lookup_lt_is_Some_2 hv j) as [y Hy]; [lia|].
    rewrite (list_lookup_total_correct _ _ _ Hx) in Hi. rewrite (list_lookup_total_correct _ _ _ Hy).
    pose proof (sorted_lookup hv i j x y Hs Hij Hx Hy). lia. }
  change (sort_Search _ _) with (search_index hv v) in *. split_and!; [done| |].
  - intros n x Hx Hn. specialize (Hlo n Hn). rewrite (list_lookup_total_correct _ _ _ Hx) in Hlo. lia.
  - intros n x Hx Hn. specialize (Hhi n). rewrite (list_lookup_total_correct _ _ _ Hx) in Hhi.
    apply lookup_lt_Some in Hx. lia.
Qed.

Lemma prev_index_predecessor hv v :
  StronglySorted Z.le hv → Forall uint32_range hv → uint32_range v → hv ≠ [] →
  ∃ p, hv !! prev_index hv v = Some p ∧ predecessor hv v p.
Proof.
  intros Hs Hr Hv Hne. destruct (search_index_spec hv v Hs) as (Hle & Hlo & Hhi).
  rewrite Forall_forall in Hr. unfold prev_index.
  assert (0 < length hv)%nat by (destruct hv; simpl; [done|lia]).
  set (i0 := if decide _ then _ else _).
  destruct (lookup_lt_is_Some_2 hv i0) as [p Hp]; [unfold i0; case_decide; lia|].
  exists p. split; [done|]. split; [by eapply list_elem_of_lookup_2|].
  intros h [j Hj]%list_elem_of_lookup_1.
  assert (uint32_range p) by (apply Hr; by eapply list_elem_of_lookup_2).
  assert (uint32_range h) by (apply Hr; by eapply list_elem_of_lookup_2).
  pose proof (lookup_lt_Some _ _ _ Hj) as Hjl.
  pose proof (Hlo i0 p Hp) as Hp1. pose proof (Hhi i0 p Hp) as Hp2.
  pose proof (Hlo j h Hj) as Hj1. pose proof (Hhi j h Hj) as Hj2.
  assert ((j ≤ i0)%nat → h ≤ p) as Hjp by (intros; by apply (sorted_lookup hv j i0)).
  unfold uint32_range in *. back_cases v p; back_cases v h; unfold i0 in *; case_decide; try lia.
Qed.

Lemma index_lookup hv i x : hv !! i = Some x → index hv (Z.of_nat i) = Ret x.
Proof. intros Hx. unfold index. rewrite Nat2Z.id, Hx. by destruct (Z.ltb_spec (Z.of_nat i) 0); [lia|]. Qed.

(** The two branches that pick [prevHash] in the code. *)
Lemma prev_hash_index hv v :
  hv ≠ [] →
  let idx := Z.of_nat (search_index hv v) in
  let len := Z.of_nat (length hv) in
  let idx0 := if idx =? len then 0 else idx in
  (if idx0 =? 0 then index hv (len - 1) else index hv (idx0 - 1))
  = index hv (Z.of_nat (prev_index hv v)).
Proof.
  intros Hne idx len idx0. unfold prev_index, idx0, idx, len.
  assert (0 < length hv)%nat by (destruct hv; simpl; [done|lia]).
  destruct (decide _) as [Hd|Hd].
  - replace (Z.of_nat (length hv - 1)) with (Z.of_nat (length hv) - 1) by lia.
    destruct Hd as [-> | ->]; [|by rewrite Z.eqb_refl].
    by destruct (Z.of_nat 0 =? Z.of_nat (length hv)).
  - destruct (Z.eqb_spec (Z.of_nat (search_index hv v)) (Z.of_nat (length hv))); [lia|].
    destruct (Z.eqb_spec (Z.of_nat (search_index hv v)) 0); [lia|]. f_equal. lia.
Qed.

(** ** Joining *)

Definition join_task (hr : HashRing) (n : string) (i p : Z) : MigrationTask :=
  {| FromNode := owner hr p; ToNode := n; KeyPattern := "*"; StartHash := p;
     EndHash := hash (virtualKey n i) |}.

Lemma migration_step_spec hr n tasks i :
  ring_ok hr → hashValues hr ≠ [] → (∀ h, hashToShard hr !! h ≠ Some n) →
  ∃ p, predecessor (hashValues hr) (hash (virtualKey n i)) p ∧
    migration_step hr n tasks i = Ret (tasks ++ [join_task hr n i p]).
Proof.
  intros [Hs Hr Ho] Hne Hn.
  destruct (prev_index_predecessor _ (hash (virtualKey n i)) Hs Hr (hash_range _) Hne)
    as (p & Hp & Hpred).
  exists p. split; [done|]. unfold migration_step.
  rewrite prev_hash_index, (index_lookup _ _ _ Hp) by done.
  cbn [mbind outcome_bind]. rewrite decide_False; [done|].
  unfold owner. destruct Hpred as [Hin _]. apply Ho in Hin as [t Ht]. rewrite Ht. simpl.
  intros ->. by apply (Hn p).
Qed.

Lemma migrations_spec hr n ids tasks0 :
  ring_ok hr → hashValues hr ≠ [] → (∀ h, hashToShard hr !! h ≠ Some n) →
  ∃ tasks, for_each (migration_step hr n) tasks0 ids = Ret (tasks0 ++ tasks) ∧
    Forall2 (λ i task, ∃ p, predecessor (hashValues hr) (hash (virtualKey n i)) p ∧
      task = join_task hr n i p) ids tasks.
Proof.
  intros Hok Hne Hn. revert tasks0. induction ids as [|i ids IH]; intros tasks0.
  { exists []. rewrite app_nil_r. by split; [|constructor]. }
  destruct (migration_step_spec hr n tasks0 i Hok Hne Hn) as (p & Hp & Hstep).
  destruct (IH (tasks0 ++ [join_task hr n i p])) as (tasks & Htasks & HF).
  exists (join_task hr n i p :: tasks). split; [|constructor; eauto].
  cbn [for_each]. rewrite Hstep. cbn [mbind outcome_bind]. rewrite Htasks.
  by rewrite <-(assoc_L (++)).
Qed.

(** On an arc that ends at a new position [v] and starts at the old position
    before it, the keys strictly inside go to the new shard, and only there do
    keys go to [v]. *)
Lemma arc_sound hs ps v p k h :
  Forall uint32_range hs → Forall uint32_range ps → uint32_range k →
  v ∈ ps → predecessor hs v p → k ∉ hs → back v k ≤ back v p →
  successor (hs ++ ps) k h → h ∈ ps.
Proof.
  intros Hhs Hps Hk Hv [Hp Hpmin] Hkhs Hb [Hin Hmin].
  apply elem_of_app in Hin as [Hin|]; [|done].
  destruct (decide (h ∈ ps)) as [|Hh]; [done|]. exfalso.
  rewrite Forall_forall in Hhs, Hps.
  assert (uint32_range v) by auto. assert (uint32_range p) by auto. assert (uint32_range h) by auto.
  assert (h ≠ v) by congruence. assert (k ≠ p) by congruence. assert (k ≠ h) by congruence.
  specialize (Hpmin h Hin). specialize (Hmin v ltac:(apply elem_of_app; by right)).
  unfold uint32_range in *.
  cw_cases k h; cw_cases k v; back_cases v k; back_cases v p; back_cases v h; lia.
Qed.

Lemma arc_complete hs ps v p k :
  Forall uint32_range hs → Forall uint32_range ps → uint32_range k →
  v ∈ ps → p ∈ hs → k ≠ v →
  successor (hs ++ ps) k v → back v k ≤ back v p.
Proof.
  intros Hhs Hps Hk Hv Hp Hkv [_ Hmin]. rewrite Forall_forall in Hhs, Hps.
  assert (uint32_range v) by auto. assert (uint32_range p) by auto.
  specialize (Hmin p ltac:(apply elem_of_app; by left)). unfold uint32_range in *.
  cw_cases k v; cw_cases k p; back_cases v k; back_cases v p; lia.
Qed.

Lemma successor_perm hs hs' k h : hs ≡ₚ hs' → successor hs k h → successor hs' k h.
Proof. intros Hp [Hin Hmin]. split; [by rewrite <-Hp|]. intros h'. rewrite <-Hp. apply Hmin. Qed.

Lemma joined_owner hr n key :
  ring_ok hr → (∀ h, hashToShard hr !! h ≠ Some n) →
  GetShard (AddShard hr n) key = GOk n ↔
  ∃ h, successor (hashValues hr ++ positions (virtualNodes hr) n) (hash key) h ∧
       h ∈ positions (virtualNodes hr) n.
Proof.
  intros Hok Hn. pose proof (ring_ok_add hr n Hok) as Hok'.
  assert (hashValues (AddShard hr n) ≡ₚ hashValues hr ++ positions (virtualNodes hr) n) as Hp.
  { rewrite AddShard_eq. apply merge_sort_Permutation. }
  split.
  - intros E. pose proof (GetShard_spec _ key Hok') as H. rewrite E in H.
    destruct H as (h & Hsucc & Hl). exists h. split; [by eapply successor_perm|].
    rewrite lookup_AddShard in Hl. case_decide; [done|]. by destruct (Hn h).
  - intros (h & Hsucc & Hin). apply (GetShard_intro _ key h); [done| |].
    + by eapply successor_perm.
    + by rewrite lookup_AddShard, decide_True.
Qed.

(** Planning a join is exact up to the end points of the ranges: the planner
    returns a plan, and for every key that does not hash exactly onto a ring
    position, the key lies in the range of some task if and only if the ring
    with the new node routes it there.  Every task targets the new node. *)
Theorem CalculateMigrations_exact hr n :
  ring_ok hr → hashValues hr ≠ [] → (∀ h, hashToShard hr !! h ≠ Some n) →
  0 ≤ virtualNodes hr → 56 * virtualNodes hr ≤ maxAlloc →
  ∃ tasks, CalculateMigrations hr n = Ret tasks ∧
    Forall (λ task, ToNode task = n) tasks ∧
    ∀ key, hash key ∉ hashValues hr → hash key ∉ positions (virtualNodes hr) n →
      (∃ task, task ∈ tasks ∧ KeyInRange key (StartHash task) (EndHash task) = true) ↔
      GetShard (AddShard hr n) key = GOk n.
Proof.
  intros Hok Hne Hn Hvn Hvn2.
  destruct (migrations_spec hr n (seqZ 0 (virtualNodes hr)) [] Hok Hne Hn) as (tasks & Hret & HF).
  exists tasks. unfold CalculateMigrations. rewrite make_slice_ok by done.
  split; [exact Hret|]. rewrite Forall2_lookup in HF. split.
  { apply Forall_lookup. intros j task Hj. specialize (HF j). rewrite Hj in HF.
    inversion HF as [? ? (p & _ & ->)|]; subst. done. }
  intros key Hk1 Hk2. rewrite joined_owner by done. pose proof (ok_range _ Hok) as Hr.
  pose proof (positions_range (virtualNodes hr) n) as Hpr. split.
  - intros (task & [j Hj]%list_elem_of_lookup_1 & Hin). specialize (HF j). rewrite Hj in HF.
    inversion HF as [i ? (p & Hp & ->) Hi|]; subst. symmetry in Hi.
    assert (hash (virtualKey n i) ∈ positions (virtualNodes hr) n) as Hv.
    { apply list_elem_of_fmap. exists i. split; [done|]. by eapply list_elem_of_lookup_2. }
    apply hashInRange_back in Hin; [|apply hash_range| |apply hash_range].
    2: { rewrite Forall_forall in Hr. apply Hr, Hp. }
    destruct (successor_exists (hashValues hr ++ positions (virtualNodes hr) n) (hash key)) as [h Hh].
    { by intros [? _]%app_nil. }
    exists h. split; [done|].
    eapply (arc_sound (hashValues hr) (positions (virtualNodes hr) n) _ p (hash key));
      [done|done|apply hash_range|done..].
  - intros (h & Hsucc & [i [-> Hi]]%list_elem_of_fmap).
    apply list_elem_of_lookup_1 in Hi as [j Hj]. specialize (HF j). rewrite Hj in HF.
    inversion HF as [? task (p & Hp & ->) Heq Ht|]; subst. symmetry in Ht.
    eexists. split; [by eapply list_elem_of_lookup_2|]. simpl.
    assert (hash (virtualKey n i) ∈ positions (virtualNodes hr) n) as Hv.
    { apply list_elem_of_fmap. exists i. split; [done|]. by eapply list_elem_of_lookup_2. }
    apply hashInRange_back; [apply hash_range| |apply hash_range|].
    { rewrite Forall_forall in Hr. apply Hr, Hp. }
    eapply (arc_complete (hashValues hr) (positions (virtualNodes hr) n));
      [done|done|apply hash_range|done|apply Hp|congruence|done].
Qed.

Lemma demo_no_owner n :
  Forall (λ s, s ≠ n) ((map_to_list (hashToShard demo_ring)).*2) →
  ∀ h, hashToShard demo_ring !! h ≠ Some n.
Proof.
  intros HF h Hh. rewrite Forall_forall in HF. apply (HF n); [|done].
  apply list_elem_of_fmap. exists (h, n). split; [done|]. by apply elem_of_map_to_list.
Qed.

Lemma CalculateMigrations_exact_witness :
  ∃ tasks, CalculateMigrations demo_ring "shard-3" = Ret tasks ∧
    Forall (λ task, ToNode task = "shard-3") tasks ∧
    ∀ key, hash key ∉ hashValues demo_ring → hash key ∉ positions (virtualNodes demo_ring) "shard-3" →
      (∃ task, task ∈ tasks ∧ KeyInRange key (StartHash task) (EndHash task) = true) ↔
      GetShard (AddShard demo_ring "shard-3") key = GOk "shard-3".
Proof.
  apply CalculateMigrations_exact.
  - apply (inv_ok _ demo_ring_inv).
  - done.
  - apply demo_no_owner. apply (bool_decide_eq_true_1 (Forall (λ s, s ≠ "shard-3") _)).
    by vm_compute.
  - by vm_compute.
  - by vm_compute.
Defined.


Lemma demo_hashes :
  hash "k1" = 1790570987 ∧ hash "k4" = 2483625430.
Proof. by vm_compute. Qed.

(** The plan names the wrong source: it takes [FromNode] from the position
    before the new one, but a key in the range belongs to the position after it.
    On a ring of two shards, key "k1" is owned by shard-1 and moves to shard-3,
    while every task whose range contains it asks shard-2 for it. *)
Theorem migration_source_not_owner :
  GetShard demo_ring "k1" = GOk "shard-1" ∧
  GetShard (AddShard demo_ring "shard-3") "k1" = GOk "shard-3" ∧
  ∃ tasks, CalculateMigrations demo_ring "shard-3" = Ret tasks ∧
    ((λ task, FromNode task) <$>
       filter (λ task, KeyInRange "k1" (StartHash task) (EndHash task) = true) tasks) = ["shard-2"].
Proof.
  split_and!.
  - unfold GetShard. rewrite (proj1 demo_hashes). by vm_compute.
  - unfold GetShard. demo_simpl. rewrite (proj1 demo_hashes). by vm_compute.
  - eexists. split; [by vm_compute|]. by vm_compute.
Qed.

(** Planning a removal skips virtual nodes that are followed by another one of
    the same node: key "k4" is owned by shard-2 and goes to shard-1 when shard-2
    leaves, but no task of the plan covers it. *)
Theorem removal_plan_incomplete :
  GetShard demo_ring "k4" = GOk "shard-2" ∧
  GetShard (RemoveShard demo_ring "shard-2") "k4" = GOk "shard-1" ∧
  ∃ tasks, CalculateMigrationsForRemoval demo_ring "shard-2" = Ret tasks ∧
    filter (λ task, KeyInRange "k4" (StartHash task) (EndHash task) = true) tasks = [].
Proof.
  split_and!.
  - unfold GetShard. rewrite (proj2 demo_hashes). by vm_compute.
  - unfold GetShard. demo_simpl. rewrite (proj2 demo_hashes). by vm_compute.
  - eexists. split; [by vm_compute|]. by vm_compute.
Qed.

(** Planning a join on an empty ring indexes an empty slice. *)
Lemma CalculateMigrations_empty hr n :
  hashValues hr = [] → 0 < virtualNodes hr → 56 * virtualNodes hr ≤ maxAlloc →
  CalculateMigrations hr n = Panic.
Proof.
  intros He Hvn Hm. unfold CalculateMigrations. rewrite make_slice_ok by lia.
  rewrite (seqZ_cons 0) by lia. cbn [mbind outcome_bind for_each].
  unfold migration_step. by rewrite He.
Qed.

(** ** Leaving *)

(** The position after [v] on the ring. *)
Definition next_position (hs : list Z) (v q : Z) : Prop :=
  q ∈ hs ∧ ∀ h, h ∈ hs → back q v ≤ back h v.

Definition leave_task (hr : HashRing) (n : string) (i p q : Z) : MigrationTask :=
  {| FromNode := n; ToNode := owner hr q; KeyPattern := "*"; StartHash := p;
     EndHash := hash (virtualKey n i) |}.

Lemma sorted_lookup_lt hv i j x y :
  StronglySorted Z.le hv → NoDup hv → (i < j)%nat → hv !! i = Some x → hv !! j = Some y → x < y.
Proof.
  intros Hs Hnd Hij Hx Hy. pose proof (sorted_lookup hv i j x y Hs ltac:(lia) Hx Hy).
  assert (x ≠ y); [|lia]. intros ->. rewrite NoDup_alt in Hnd.
  specialize (Hnd i j y Hx Hy). lia.
Qed.

(** [sort.Search] finds a position of the ring at its own index. *)
Lemma search_index_elem hv v :
  StronglySorted Z.le hv → v ∈ hv → hv !! search_index hv v = Some v.
Proof.
  intros Hs [j Hj]%list_elem_of_lookup_1. destruct (search_index_spec hv v Hs) as (Hle & Hlo & Hhi).
  pose proof (lookup_lt_Some _ _ _ Hj) as Hjl.
  assert (search_index hv v ≤ j)%nat as Hij.
  { destruct (decide (search_index hv v ≤ j)%nat); [done|]. specialize (Hlo j v Hj). lia. }
  destruct (lookup_lt_is_Some_2 hv (search_index hv v)) as [x Hx]; [lia|].
  rewrite Hx. f_equal. specialize (Hhi _ x Hx).
  pose proof (sorted_lookup hv _ j x v Hs Hij Hx Hj). lia.
Qed.

Lemma next_index_spec hv v :
  StronglySorted Z.le hv → NoDup hv → Forall uint32_range hv → v ∈ hv →
  ∃ q, index hv ((Z.of_nat (search_index hv v) + 1) mod Z.of_nat (length hv)) = Ret q ∧
    next_position hv v q.
Proof.
  intros Hs Hnd Hr Hv. pose proof (search_index_elem hv v Hs Hv) as Hi.
  set (i := search_index hv v) in *. pose proof (lookup_lt_Some _ _ _ Hi) as Hil.
  rewrite Forall_forall in Hr. assert (uint32_range v) by auto.
  set (j := if decide (S i = length hv) then 0%nat else S i).
  assert ((Z.of_nat i + 1) mod Z.of_nat (length hv) = Z.of_nat j) as ->.
  { unfold j. case_decide as E.
    - rewrite <-E. replace (Z.of_nat i + 1) with (Z.of_nat (S i)) by lia. apply Z.mod_same. lia.
    - rewrite Z.mod_small; lia. }
  destruct (lookup_lt_is_Some_2 hv j) as [q Hq]; [unfold j; case_decide; lia|].
  exists q. split; [by apply index_lookup|]. split; [by eapply list_elem_of_lookup_2|].
  intros h [m Hm]%list_elem_of_lookup_1.
  assert (uint32_range q) by (apply Hr; by eapply list_elem_of_lookup_2).
  assert (uint32_range h) by (apply Hr; by eapply list_elem_of_lookup_2).
  pose proof (lookup_lt_Some _ _ _ Hm) as Hml.
  pose proof (λ E, sorted_lookup_lt hv i j v q Hs Hnd E Hi Hq) as Hvq.
  pose proof (λ E, sorted_lookup_lt hv m i h v Hs Hnd E Hm Hi) as Hhv.
  pose proof (λ E, sorted_lookup hv i m v h Hs E Hi Hm) as Hvh.
  pose proof (λ E, sorted_lookup hv j m q h Hs E Hq Hm) as Hqh.
  pose proof (λ E, sorted_lookup hv j i q v Hs E Hq Hi) as Hqv.
  assert (m = i → h = v) as Hmi by (intros ->; congruence).
  unfold uint32_range in *.
  back_cases q v; back_cases h v; unfold j in *; case_decide; try lia;
    destruct (lt_eq_lt_dec m i) as [[]|]; try lia.
Qed.

Lemma leave_arc hv v p q k :
  Forall uint32_range hv → uint32_range k → v ∈ hv → k ∉ hv →
  predecessor hv v p → back v k ≤ back v p →
  successor hv k v ∧
  (next_position hv v q → ∀ h, h ∈ hv → h ≠ v → q ≠ v → cw k q ≤ cw k h).
Proof.
  intros Hr Hk Hv Hkv [Hp Hpmin] Hb. rewrite Forall_forall in Hr.
  assert (uint32_range v) by auto. assert (uint32_range p) by auto.
  assert (∀ h, h ∈ hv → cw k v ≤ cw k h) as Hmin.
  { intros h Hh. assert (uint32_range h) by auto. assert (k ≠ h) by congruence.
    specialize (Hpmin h Hh). unfold uint32_range in *.
    cw_cases k h; cw_cases k v; back_cases v k; back_cases v p; back_cases v h; lia. }
  split; [by split|]. intros [Hq Hqmin] h Hh Hne Hqne.
  assert (uint32_range h) by auto. assert (uint32_range q) by auto.
  assert (k ≠ h) by congruence. assert (k ≠ q) by congruence.
  specialize (Hqmin h Hh). pose proof (Hmin h Hh). pose proof (Hmin q Hq).
  unfold uint32_range in *.
  cw_cases k v; cw_cases k q; cw_cases k h; back_cases q v; back_cases h v; lia.
Qed.

Lemma removal_step_spec hr s tasks i :
  ring_inv hr → hash (virtualKey s i) ∈ hashValues hr →
  ∃ p q, predecessor (hashValues hr) (hash (virtualKey s i)) p ∧
    next_position (hashValues hr) (hash (virtualKey s i)) q ∧
    removal_step hr s tasks i =
      Ret (if decide (owner hr q = s) then tasks else tasks ++ [leave_task hr s i p q]).
Proof.
  intros [[Hs Hr Ho] Hnd _] Hv. set (v := hash (virtualKey s i)) in *.
  assert (hashValues hr ≠ []) as Hne.
  { intros E. rewrite E in Hv. by apply elem_of_nil in Hv. }
  destruct (prev_index_predecessor _ v Hs Hr (hash_range _) Hne) as (p & Hp & Hpred).
  destruct (next_index_spec _ v Hs Hnd Hr Hv) as (q & Hq & Hnext).
  exists p, q. split_and!; [done..|]. unfold removal_step. fold v. rewrite Hq.
  cbn [mbind outcome_bind]. case_decide; [done|].
  pose proof (prev_hash_index (hashValues hr) v Hne) as Hprev. cbv zeta in Hprev.
  rewrite (index_lookup _ _ _ Hp) in Hprev.
  pose proof (lookup_lt_Some _ _ _ (search_index_elem _ v Hs Hv)).
  destruct (Z.eqb_spec (Z.of_nat (search_index (hashValues hr) v)) (Z.of_nat (length (hashValues hr))));
    [lia|]. by rewrite Hprev.
Qed.

(** What every task of a removal plan has to satisfy. *)
Definition leave_task_ok (hr : HashRing) (s : string) (task : MigrationTask) : Prop :=
  FromNode task = s ∧ ToNode task ≠ s ∧
  ∀ key, hash key ∉ hashValues hr → KeyInRange key (StartHash task) (EndHash task) = true →
    GetShard hr key = GOk s ∧ GetShard (RemoveShard hr s) key = GOk (ToNode task).

Lemma leave_task_sound hr s i p q :
  ring_inv hr → member hr s → hash (virtualKey s i) ∈ positions (virtualNodes hr) s →
  predecessor (hashValues hr) (hash (virtualKey s i)) p →
  next_position (hashValues hr) (hash (virtualKey s i)) q →
  owner hr q ≠ s → leave_task_ok hr s (leave_task hr s i p q).
Proof.
  intros Hinv Hm Hv Hp Hq Hne. pose proof Hinv as [Hok Hnd Hpos].
  set (v := hash (virtualKey s i)) in *. unfold member in Hm. rewrite Forall_forall in Hm.
  pose proof (ok_range _ Hok) as Hr. pose proof (ok_owner _ Hok) as Ho.
  assert (v ∈ hashValues hr) as Hvin by (apply Ho; eauto).
  split_and!; [done|done|]. simpl. fold v. intros key Hkey Hin.
  apply hashInRange_back in Hin; [|apply hash_range| |apply hash_range].
  2: { rewrite Forall_forall in Hr. apply Hr, Hp. }
  destruct (leave_arc (hashValues hr) v p q (hash key) Hr (hash_range _) Hvin Hkey Hp Hin)
    as [Hsucc Hafter].
  split; [eapply GetShard_intro; eauto|].
  pose proof (proj1 Hq) as Hqin. apply Ho in Hqin as [t Ht].
  unfold owner in *. rewrite Ht in *. simpl in *.
  assert (q ∉ positions (virtualNodes hr) s) as Hqs by (intros Hqs%Hm; congruence).
  eapply (GetShard_intro _ key q).
  - by apply ring_ok_remove.
  - rewrite RemoveShard_eq. simpl. split; [by apply elem_of_remove_all; [|split; [apply Hq|]]|].
    intros h [Hh Hhs]%elem_of_remove_all; [|done].
    apply Hafter; [done|done|congruence|congruence].
  - by rewrite lookup_RemoveShard, decide_False.
Qed.

Lemma removal_tasks_sound hr s ids tasks0 :
  ring_inv hr → member hr s →
  Forall (λ i, hash (virtualKey s i) ∈ positions (virtualNodes hr) s) ids →
  Forall (leave_task_ok hr s) tasks0 →
  ∃ tasks, for_each (removal_step hr s) tasks0 ids = Ret tasks ∧ Forall (leave_task_ok hr s) tasks.
Proof.
  intros Hinv Hm Hids. revert tasks0. induction Hids as [|i ids Hi _ IH]; intros tasks0 H0.
  { by exists tasks0. }
  assert (hash (virtualKey s i) ∈ hashValues hr) as Hin.
  { apply (ok_owner _ (inv_ok _ Hinv)). unfold member in Hm. rewrite Forall_forall in Hm. eauto. }
  destruct (removal_step_spec hr s tasks0 i Hinv Hin) as (p & q & Hp & Hq & Hstep).
  cbn [for_each]. rewrite Hstep. cbn [mbind outcome_bind]. apply IH.
  case_decide; [done|]. apply Forall_app. split; [done|]. constructor; [|done].
  by apply leave_task_sound.
Qed.

(** A removal plan never sends a key astray: the planner returns, and every
    key in the range of a task (and not exactly on a ring position) is owned by
    the leaving node before and by the task's target after the removal. *)
Theorem removal_plan_sound hr s :
  ring_inv hr → member hr s →
  ∃ tasks, CalculateMigrationsForRemoval hr s = Ret tasks ∧ Forall (leave_task_ok hr s) tasks.
Proof.
  intros Hinv Hm. unfold CalculateMigrationsForRemoval. case_decide as Hne; [by exists []|].
  apply removal_tasks_sound; [done|done| |done]. apply Forall_forall. intros i Hi.
  apply list_elem_of_fmap. eauto.
Qed.

Lemma removal_plan_sound_witness :
  ∃ tasks, CalculateMigrationsForRemoval demo_ring "shard-2" = Ret tasks ∧
    Forall (leave_task_ok demo_ring "shard-2") tasks.
Proof.
  apply removal_plan_sound; [apply demo_ring_inv|].
  unfold member. demo_simpl. repeat constructor.
Defined.

(** The end of a range is excluded although a position owns the keys that hash
    onto it, so a key exactly on a new node's only position moves to that node
    without being in the range of its task. *)
Theorem join_endpoint_missed hr n p :
  ring_ok hr → hashValues hr ≠ [] → (∀ h, hashToShard hr !! h ≠ Some n) →
  virtualNodes hr = 1 → hash (virtualKey n 0) ∉ hashValues hr →
  predecessor (hashValues hr) (hash (virtualKey n 0)) p →
  GetShard (AddShard hr n) (virtualKey n 0) = GOk n ∧
  CalculateMigrations hr n = Ret [join_task hr n 0 p] ∧
  KeyInRange (virtualKey n 0) p (hash (virtualKey n 0)) = false.
Proof.
  intros Hok Hne Hn Hvn Hv Hp. set (v := hash (virtualKey n 0)) in *.
  assert (positions (virtualNodes hr) n = [v]) as Hpos by (by rewrite Hvn).
  split_and!.
  - apply joined_owner; [done..|]. exists v. rewrite Hpos. split; [|by apply list_elem_of_singleton].
    apply successor_self, elem_of_app. right. by apply list_elem_of_singleton.
  - unfold CalculateMigrations. rewrite Hvn, make_slice_ok by (vm_compute; done).
    change (seqZ 0 1) with [0]. cbn [mbind outcome_bind for_each].
    destruct (migration_step_spec hr n [] 0 Hok Hne Hn) as (p' & Hp' & ->).
    assert (p' = p) as ->; [|done]. pose proof (ok_range _ Hok) as Hr. rewrite Forall_forall in Hr.
    destruct Hp as [Hin Hmin], Hp' as [Hin' Hmin'].
    fold v in Hmin'. pose proof (Hmin p' Hin'). pose proof (Hmin' p Hin).
    assert (uint32_range p) by auto. assert (uint32_range p') by auto.
    assert (uint32_range v) by apply hash_range. unfold uint32_range in *.
    back_cases v p; back_cases v p'; lia.
  - unfold KeyInRange. fold v. destruct (hashInRange v p v) eqn:E; [|done].
    pose proof (ok_range _ Hok) as Hr. rewrite Forall_forall in Hr.
    assert (uint32_range p) by apply Hr, Hp. assert (uint32_range v) by apply hash_range.
    apply hashInRange_back in E; [|done..]. assert (p ≠ v) by (intros ->; by apply Hv, Hp).
    unfold uint32_range in *. back_cases v p; back_cases v v; lia.
Qed.

(** One shard with one virtual node, and the position a second one would take. *)
Definition small_ring : HashRing := mkRing [474149929] {[474149929 := "shard-1"]} ∅ 1 ∅.

Lemma small_ring_built : AddShard (NewHashRing 1) "shard-1" = small_ring.
Proof. by vm_compute. Qed.

Lemma small_hash : hash (virtualKey "shard-3" 0) = 2256050715.
Proof. by vm_compute. Qed.

Lemma join_endpoint_missed_witness :
  GetShard (AddShard small_ring "shard-3") (virtualKey "shard-3" 0) = GOk "shard-3" ∧
  CalculateMigrations small_ring "shard-3" = Ret [join_task small_ring "shard-3" 0 474149929] ∧
  KeyInRange (virtualKey "shard-3" 0) 474149929 (hash (virtualKey "shard-3" 0)) = false.
Proof.
  apply join_endpoint_missed.
  - rewrite <-small_ring_built. apply ring_ok_add, ring_ok_new.
  - done.
  - intros h. cbn [small_ring hashToShard]. rewrite lookup_singleton_Some. by intros [_ [=]].
  - done.
  - rewrite small_hash. by intros [=]%list_elem_of_singleton.
  - split; [by apply list_elem_of_singleton|]. by intros h ->%list_elem_of_singleton.
Defined.
End Migration.
