(* ===== verification/PubSub.v ===== *)
(** * internal/pubsub/pubsub.go: channels and subscribers

    A connection is a number (connections are compared by identity).  A
    [*Subscriber] is a key of the store [subs], because the two maps that reach
    it share it.  A Go channel is its queue with its closed flag; sending on a
    closed channel, or closing it again, panics.  The goroutine that drains a
    queue is the transition [send_step]; [sent] is what it has written to the
    connection.  The mutex covers each exported method entirely (only
    [cleanupConnection] runs under its caller's lock), so a method is one step,
    except that publications take the read lock and can overlap: [Delivery] runs
    them one send at a time. *)

From S2P Require Import Prelude GoStd Resp.
Local Open Scope Z_scope.

Module PubSub.

Record Message := { Channel : string; Content : string }.

Definition conn := Z.
Definition subid := positive.

Record Subscriber := mkSub {
  sub_conn : conn;
  messages : list Message;
  messages_closed : bool;
  done_closed : bool;
  running : bool;
  sent : list Message
}.

Record PubSub := mkPS {
  connectionToSubscriber : gmap conn subid;
  subscribers : gmap string (gmap conn subid);
  subscriptions : gmap conn (gmap string bool);
  subs : gmap subid Subscriber;
  next_sub : subid
}.

Definition NewPubSub : PubSub := mkPS ∅ ∅ ∅ ∅ 1%positive.

Definition with_c2s ps m := mkPS m (subscribers ps) (subscriptions ps) (subs ps) (next_sub ps).
Definition with_subscribers ps m :=
  mkPS (connectionToSubscriber ps) m (subscriptions ps) (subs ps) (next_sub ps).
Definition with_subscriptions ps m :=
  mkPS (connectionToSubscriber ps) (subscribers ps) m (subs ps) (next_sub ps).
Definition with_subs ps m :=
  mkPS (connectionToSubscriber ps) (subscribers ps) (subscriptions ps) m (next_sub ps).

(** [make(chan Message, 100)] *)
Definition buffer_size : nat := 100.

(** [&Subscriber{...}], with its goroutine started. *)
Definition new_subscriber (ps : PubSub) (c : conn) : subid * PubSub :=
  let id := next_sub ps in
  (id, mkPS (connectionToSubscriber ps) (subscribers ps) (subscriptions ps)
         (<[id := mkSub c [] false false true []]> (subs ps)) (id + 1)%positive).

(** [m[key]] on a map that may be absent (nil reads as empty). *)
Definition subscribed_flag (ps : PubSub) (c : conn) (channel : string) : bool :=
  default false (channels ← subscriptions ps !! c; channels !! channel).

(** ** Subscribe *)

Definition subscribe_tail (ps : PubSub) (c : conn) (channel : string) (subscriber : subid) :
    outcome PubSub :=
  (* ps.subscriptions[conn][channel] = true: assignment in a nil map panics *)
  channels ← or_panic (subscriptions ps !! c);
  let ps := with_subscriptions ps (<[c := <[channel := true]> channels]> (subscriptions ps)) in
  let set := default ∅ (subscribers ps !! channel) in
  mret (with_subscribers ps (<[channel := <[c := subscriber]> set]> (subscribers ps))).

Definition Subscribe (ps : PubSub) (c : conn) (channel : string) : outcome PubSub :=
  match connectionToSubscriber ps !! c with
  | None =>
      let '(subscriber, ps) := new_subscriber ps c in
      let ps := with_c2s ps (<[c := subscriber]> (connectionToSubscriber ps)) in
      let ps := with_subscriptions ps (<[c := ∅]> (subscriptions ps)) in
      subscribe_tail ps c channel subscriber
  | Some subscriber =>
      if subscribed_flag ps c channel then mret ps
      else subscribe_tail ps c channel subscriber
  end.

(** ** Publish *)

(** The non-blocking send [select { case s.messages <- msg: ... default: ... }]. *)
Definition try_send (ps : PubSub) (id : subid) (msg : Message) : outcome (bool * PubSub) :=
  s ← or_panic (subs ps !! id);
  if messages_closed s then Panic
  else if decide (length (messages s) < buffer_size)%nat then
    mret (true, with_subs ps (<[id := mkSub (sub_conn s) (messages s ++ [msg])
      (messages_closed s) (done_closed s) (running s) (sent s)]> (subs ps)))
  else mret (false, ps).

Definition publish_step (msg : Message) (st : Z * PubSub) (id : subid) : outcome (Z * PubSub) :=
  let '(count, ps) := st in
  '(queued, ps) ← try_send ps id msg;
  mret (if queued : bool then count + 1 else count, ps).

(** [order] lists the channel's subscribers as the range loop visits them.  This is
    the call without another publication in between its sends. *)
Definition Publish (ps : PubSub) (order : list subid) (channel message : string) :
    outcome (Z * PubSub) :=
  match subscribers ps !! channel with
  | None => mret (0, ps)
  | Some set =>
      if decide (set = ∅) then mret (0, ps)
      else for_each (publish_step {| Channel := channel; Content := message |}) (0, ps) order
  end.

Definition publish_order (ps : PubSub) (channel : string) (order : list subid) : Prop :=
  order ≡ₚ (map_to_list (default ∅ (subscribers ps !! channel))).*2.

(** ** Unsubscribe and RemoveConnection *)

(** [close(subscriber.messages); close(subscriber.done)] *)
Definition close_subscriber (ps : PubSub) (id : subid) : outcome PubSub :=
  s ← or_panic (subs ps !! id);
  if messages_closed s || done_closed s then Panic
  else mret (with_subs ps (<[id := mkSub (sub_conn s) (messages s) true true (running s) (sent s)]>
               (subs ps))).

Definition forget_connection (ps : PubSub) (c : conn) : PubSub :=
  let ps := with_subscriptions ps (delete c (subscriptions ps)) in
  with_c2s ps (delete c (connectionToSubscriber ps)).

Definition cleanupConnection (ps : PubSub) (c : conn) : outcome PubSub :=
  match connectionToSubscriber ps !! c with
  | None => mret ps
  | Some subscriber =>
      ps ← close_subscriber ps subscriber;
      mret (forget_connection ps c)
  end.

(** Remove the connection from the channel's set, and the set when it is empty. *)
Definition leave_channel (c : conn) (ps : PubSub) (channel : string) : PubSub :=
  match subscribers ps !! channel with
  | None => ps
  | Some set =>
      let set := delete c set in
      if decide (set = ∅) then with_subscribers ps (delete channel (subscribers ps))
      else with_subscribers ps (<[channel := set]> (subscribers ps))
  end.

Definition Unsubscribe (ps : PubSub) (c : conn) (channel : string) :
    outcome (gres string () * PubSub) :=
  match subscriptions ps !! c with
  | None => mret (GErr "connection not subscribed to any channels", ps)
  | Some channelSet =>
      if negb (default false (channelSet !! channel)) then
        mret (GErr ("connection not subscribed to channel: " +:+ channel), ps)
      else
        let channelSet := delete channel channelSet in
        let ps := with_subscriptions ps (<[c := channelSet]> (subscriptions ps)) in
        let ps := leave_channel c ps channel in
        ps ← (if decide (channelSet = ∅) then cleanupConnection ps c else mret ps);
        mret (GOk (), ps)
  end.

(** [order] lists the connection's channels as the range loop visits them. *)
Definition RemoveConnection (ps : PubSub) (order : list string) (c : conn) : outcome PubSub :=
  match connectionToSubscriber ps !! c with
  | None => mret ps
  | Some subscriber =>
      match subscriptions ps !! c with
      | None => mret (with_c2s ps (delete c (connectionToSubscriber ps)))
      | Some channelSet =>
          let ps := foldl (leave_channel c) ps order in
          ps ← close_subscriber ps subscriber;
          mret (forget_connection ps c)
      end
  end.

Definition remove_order (ps : PubSub) (c : conn) (order : list string) : Prop :=
  order ≡ₚ (map_to_list (default ∅ (subscriptions ps !! c))).*1.

(** ** Queries *)

Definition GetSubscriberCount (ps : PubSub) (channel : string) : Z :=
  match subscribers ps !! channel with
  | Some set => Z.of_nat (size set)
  | None => 0
  end.

(** [order]: the channels in the order of the range loop. *)
Definition GetChannels (ps : PubSub) (order : list string) : list string :=
  foldl (λ channels channel, channels ++ [channel]) [] order.

Definition GetSubscribedChannels (ps : PubSub) (order : list string) (c : conn) : list string :=
  match subscriptions ps !! c with
  | None => []
  | Some _ => foldl (λ channels channel, channels ++ [channel]) [] order
  end.

(** ** The sender goroutine *)

(** One turn of [sendMessages]: a receive (a closed channel still hands out what
    it holds), or the [done] signal; the runtime picks any branch that is ready,
    and the write to the connection may fail. *)
Inductive send_step : Subscriber → Subscriber → Prop :=
| send_write c m q mc dc s :
    send_step (mkSub c (m :: q) mc dc true s) (mkSub c q mc dc true (s ++ [m]))
| send_fail c m q mc dc s :
    send_step (mkSub c (m :: q) mc dc true s) (mkSub c q mc dc false s)
| send_closed c dc s :
    send_step (mkSub c [] true dc true s) (mkSub c [] true dc false s)
| send_done c q mc s :
    send_step (mkSub c q mc true true s) (mkSub c q mc true false s).

(** The bytes the goroutine has written to its connection. *)
Definition wire (s : Subscriber) : outcome string :=
  for_each (λ out m, e ← EncodePubSubMessage (Channel m) (Content m); mret (out +:+ e)) "" (sent s).

(** ** The invariant *)

(** The subscriber a channel's set holds for a connection. *)
Definition view (ps : PubSub) (channel : string) (c : conn) : option subid :=
  set ← subscribers ps !! channel; set !! c.

(** The three maps agree: a connection is in a channel's set exactly when the
    channel is in the connection's set, with the connection's one subscriber,
    which is open; no empty sets are kept (but for connection [exc], between two
    statements of a method); no queue is over its capacity. *)
Record inv_but (exc : option conn) (ps : PubSub) : Prop := {
  i_dom : ∀ c, is_Some (connectionToSubscriber ps !! c) ↔ is_Some (subscriptions ps !! c);
  i_sub : ∀ c id, connectionToSubscriber ps !! c = Some id →
    ∃ s, subs ps !! id = Some s ∧ sub_conn s = c ∧
      messages_closed s = false ∧ done_closed s = false;
  i_link : ∀ ch c id, view ps ch c = Some id ↔
    subscribed_flag ps c ch = true ∧ connectionToSubscriber ps !! c = Some id;
  i_channels : ∀ ch set, subscribers ps !! ch = Some set → set ≠ ∅;
  i_conns : ∀ c set, subscriptions ps !! c = Some set → Some c ≠ exc → set ≠ ∅;
  i_true : ∀ c set ch b, subscriptions ps !! c = Some set → set !! ch = Some b → b = true;
  i_fresh : ∀ id s, subs ps !! id = Some s → (id < next_sub ps)%positive;
  i_buffer : ∀ id s, subs ps !! id = Some s → (length (messages s) ≤ buffer_size)%nat
}.

Definition ps_inv : PubSub → Prop := inv_but None.

Lemma ps_inv_new : ps_inv NewPubSub.
Proof.
  split; try done.
  - intros c. simpl. rewrite !lookup_empty. done.
  - intros ch c id. unfold view, subscribed_flag. simpl. rewrite !lookup_empty. naive_solver.
Qed.

Lemma inv_weaken exc ps : ps_inv ps → inv_but exc ps.
Proof. intros []. split; try done. intros c set Hc _. eauto. Qed.

Lemma inv_strengthen c ps :
  inv_but (Some c) ps → (∀ set, subscriptions ps !! c = Some set → set ≠ ∅) → ps_inv ps.
Proof.
  intros [] Hc. split; try done. intros c' set Hc' _.
  destruct (decide (c' = c)) as [->|Hne]; [by apply Hc|]. eapply i_conns0; [done|congruence].
Qed.

Lemma flag_insert ps c channels c' ch :
  subscribed_flag (with_subscriptions ps (<[c := channels]> (subscriptions ps))) c' ch =
  if decide (c' = c) then default false (channels !! ch) else subscribed_flag ps c' ch.
Proof.
  unfold subscribed_flag. simpl. case_decide; subst.
  - by rewrite lookup_insert_eq.
  - by rewrite lookup_insert_ne.
Qed.

(** *** Subscribe *)

Lemma subscribe_tail_spec ps c ch id channels :
  inv_but (Some c) ps → connectionToSubscriber ps !! c = Some id →
  subscriptions ps !! c = Some channels →
  ∃ ps', subscribe_tail ps c ch id = Ret ps' ∧ ps_inv ps' ∧
    subs ps' = subs ps ∧ connectionToSubscriber ps' = connectionToSubscriber ps ∧
    (∀ c' ch', subscribed_flag ps' c' ch' =
       (if decide (c' = c ∧ ch' = ch) then true else subscribed_flag ps c' ch')).
Proof.
  intros Hinv Hid Hch. unfold subscribe_tail. rewrite Hch. cbn [or_panic mbind outcome_bind].
  eexists. split; [reflexivity|]. set (ps' := with_subscribers _ _).
  assert (∀ c' ch', subscribed_flag ps' c' ch' =
    (if decide (c' = c ∧ ch' = ch) then true else subscribed_flag ps c' ch')) as Hflag.
  { intros c' ch'. change (subscribed_flag ps' c' ch') with (subscribed_flag
      (with_subscriptions ps (<[c := <[ch := true]> channels]> (subscriptions ps))) c' ch').
    rewrite flag_insert. destruct (decide (c' = c)) as [->|Hne].
    - destruct (decide (ch' = ch)) as [->|Hne'].
      + by rewrite lookup_insert_eq, decide_True.
      + rewrite lookup_insert_ne, decide_False by naive_solver.
        unfold subscribed_flag. by rewrite Hch.
    - by rewrite decide_False by naive_solver. }
  split_and!; [|done..]. destruct Hinv. split; simpl; try done.
  - intros c'. rewrite i_dom0. destruct (decide (c' = c)) as [->|].
    + rewrite lookup_insert_eq, Hch. done.
    + by rewrite lookup_insert_ne.
  - intros ch' c' id'. rewrite Hflag. transitivity (view ps ch' c' = Some id' ∧ ¬ (c' = c ∧ ch' = ch)
      ∨ (c' = c ∧ ch' = ch ∧ id' = id)).
    + unfold view. simpl. destruct (decide (ch' = ch)) as [->|Hne].
      * rewrite lookup_insert_eq. simpl. destruct (decide (c' = c)) as [->|Hne].
        -- rewrite lookup_insert_eq. naive_solver.
        -- rewrite lookup_insert_ne by done. destruct (subscribers ps !! ch); naive_solver.
      * rewrite lookup_insert_ne by done. naive_solver.
    + rewrite i_link0. case_decide; naive_solver.
  - intros ch' set. destruct (decide (ch' = ch)) as [->|Hne].
    + rewrite lookup_insert_eq. intros [= <-]. apply insert_non_empty.
    + rewrite lookup_insert_ne by done. eauto.
  - intros c' set. destruct (decide (c' = c)) as [->|Hne].
    + rewrite lookup_insert_eq. intros [= <-] _. apply insert_non_empty.
    + rewrite lookup_insert_ne by done. intros. eapply i_conns0; [done|congruence].
  - intros c' set ch' b. destruct (decide (c' = c)) as [->|Hne].
    + rewrite lookup_insert_eq. intros [= <-]. destruct (decide (ch' = ch)) as [->|Hne'].
      * rewrite lookup_insert_eq. by intros [= <-].
      * rewrite lookup_insert_ne by done. eauto.
    + rewrite lookup_insert_ne by done. eauto.
Qed.

(** A fresh connection enters the two maps with an empty set. *)
Lemma subscribe_new_spec ps c :
  ps_inv ps → connectionToSubscriber ps !! c = None →
  let '(id, ps1) := new_subscriber ps c in
  let ps2 := with_c2s ps1 (<[c := id]> (connectionToSubscriber ps1)) in
  let ps3 := with_subscriptions ps2 (<[c := ∅]> (subscriptions ps2)) in
  inv_but (Some c) ps3 ∧ connectionToSubscriber ps3 !! c = Some id ∧
  subscriptions ps3 !! c = Some ∅ ∧ subs ps !! id = None ∧
  (∀ c' ch', subscribed_flag ps3 c' ch' = subscribed_flag ps c' ch').
Proof.
  intros Hinv Hc. simpl. destruct Hinv.
  assert (subscriptions ps !! c = None) as Hsc.
  { apply eq_None_not_Some. rewrite <-i_dom0, Hc. by intros [? ?]. }
  assert (subs ps !! next_sub ps = None) as Hn.
  { destruct (subs ps !! next_sub ps) as [s|] eqn:E; [|done]. apply i_fresh0 in E. lia. }
  set (ps3 := with_subscriptions _ _).
  assert (∀ c' ch', subscribed_flag ps3 c' ch' = subscribed_flag ps c' ch') as Hflag.
  { intros c' ch'. unfold ps3, subscribed_flag. simpl. destruct (decide (c' = c)) as [->|].
    - rewrite lookup_insert_eq, Hsc. simpl. by rewrite lookup_empty.
    - by rewrite lookup_insert_ne. }
  split_and!; [|by rewrite lookup_insert_eq|by rewrite lookup_insert_eq|done|done].
  split; simpl.
  - intros c'. destruct (decide (c' = c)) as [->|]; [by rewrite !lookup_insert_eq|].
    by rewrite !lookup_insert_ne.
  - intros c' id. destruct (decide (c' = c)) as [->|].
    + rewrite lookup_insert_eq. intros [= <-]. rewrite lookup_insert_eq. eauto 10.
    + rewrite lookup_insert_ne by done. intros (s & Hs & ?)%i_sub0. exists s.
      rewrite lookup_insert_ne; [done|]. congruence.
  - intros ch c' id. rewrite Hflag. change (view ps3 ch c') with (view ps ch c'). rewrite i_link0.
    destruct (decide (c' = c)) as [->|]; [|by rewrite lookup_insert_ne].
    assert (subscribed_flag ps c ch = false) as ->; [|naive_solver].
    unfold subscribed_flag. by rewrite Hsc.
  - done.
  - intros c' set. destruct (decide (c' = c)) as [->|]; [done|].
    rewrite lookup_insert_ne by done. eauto.
  - intros c' set ch b. destruct (decide (c' = c)) as [->|].
    + rewrite lookup_insert_eq. intros [= <-]. by rewrite lookup_empty.
    + rewrite lookup_insert_ne by done. eauto.
  - intros id s. destruct (decide (id = next_sub ps)) as [->|]; [lia|].
    rewrite lookup_insert_ne by done. intros ?%i_fresh0. lia.
  - intros id s. destruct (decide (id = next_sub ps)) as [->|].
    + rewrite lookup_insert_eq. intros [= <-]. simpl. unfold buffer_size. lia.
    + rewrite lookup_insert_ne by done. eauto.
Qed.

(** What a subscriber was given, written or still queued. *)
Definition flow (s : Subscriber) : list Message := sent s ++ messages s.

(** The bookkeeping calls leave what the subscribers have written and queued, and
    their senders, alone; a new subscriber starts with nothing. *)
Definition subs_quiet (ps ps' : PubSub) : Prop :=
  ∀ id, match subs ps' !! id with
        | Some s' =>
            match subs ps !! id with
            | Some s => sub_conn s' = sub_conn s ∧ messages s' = messages s ∧ sent s' = sent s ∧ running s' = running s
            | None => flow s' = []
            end
        | None => subs ps !! id = None
        end.

Lemma subs_quiet_eq ps ps' : subs ps' = subs ps → subs_quiet ps ps'.
Proof. intros E id. rewrite E. by destruct (subs ps !! id). Qed.

Lemma subs_quiet_insert ps ps' id s' :
  match subs ps !! id with
  | Some s => sub_conn s' = sub_conn s ∧ messages s' = messages s ∧ sent s' = sent s ∧ running s' = running s
  | None => flow s' = []
  end →
  subs ps' = <[id := s']> (subs ps) → subs_quiet ps ps'.
Proof.
  intros Hs E id0. rewrite E. destruct (decide (id0 = id)) as [->|Hne].
  - by rewrite lookup_insert_eq.
  - rewrite lookup_insert_ne by done. by destruct (subs ps !! id0).
Qed.

Lemma Subscribe_spec ps c ch :
  ps_inv ps →
  ∃ ps', Subscribe ps c ch = Ret ps' ∧ ps_inv ps' ∧ subs_quiet ps ps' ∧
    ∀ c' ch', subscribed_flag ps' c' ch' =
      (if decide (c' = c ∧ ch' = ch) then true else subscribed_flag ps c' ch').
Proof.
  intros Hinv. unfold Subscribe. destruct (connectionToSubscriber ps !! c) as [id|] eqn:Hid.
  - destruct (subscribed_flag ps c ch) eqn:Hf.
    + exists ps. split_and!; [done|done|by apply subs_quiet_eq|]. intros c' ch'. case_decide; naive_solver.
    + destruct (proj1 (i_dom _ _ Hinv c)) as [channels Hch]; [eauto|].
      destruct (subscribe_tail_spec ps c ch id channels) as (ps' & ? & ? & Hs & _ & ?);
        [by apply inv_weaken|done..|].
      exists ps'. split_and!; [done..|by apply subs_quiet_eq|done].
  - pose proof (subscribe_new_spec ps c Hinv Hid) as H. simpl in H.
    destruct H as (Hinv3 & Hc & Hsc & Hn & Hflag). simpl.
    destruct (subscribe_tail_spec _ c ch _ _ Hinv3 Hc Hsc) as (ps' & ? & ? & Hs & _ & Hf).
    exists ps'. split_and!; [done..| |].
    + eapply subs_quiet_insert; [|exact Hs]. by rewrite Hn.
    + intros c' ch'. by rewrite Hf, Hflag.
Qed.

(** *** Leaving channels *)

Lemma leave_channel_view c ps ch ch' c' :
  view (leave_channel c ps ch) ch' c' =
  (if decide (ch' = ch ∧ c' = c) then None else view ps ch' c').
Proof.
  unfold leave_channel. destruct (subscribers ps !! ch) as [set|] eqn:Hset.
  2: { case_decide as E; [|done]. destruct E as [-> _]. unfold view. by rewrite Hset. }
  destruct (decide (ch' = ch)) as [->|Hne].
  - transitivity (delete c set !! c').
    + unfold view. case_decide as E; simpl.
      * by rewrite lookup_delete_eq, E.
      * by rewrite lookup_insert_eq.
    + unfold view. rewrite Hset. simpl. destruct (decide (c' = c)) as [->|].
      * by rewrite lookup_delete_eq, decide_True.
      * rewrite lookup_delete_ne by done. by rewrite decide_False by (intros []; congruence).
  - rewrite (decide_False (P := ch' = ch ∧ c' = c)) by (intros []; congruence).
    unfold view. case_decide; simpl.
    + by rewrite lookup_delete_ne.
    + by rewrite lookup_insert_ne.
Qed.

Definition channels_nonempty (ps : PubSub) : Prop :=
  ∀ ch set, subscribers ps !! ch = Some set → set ≠ ∅.

Lemma leave_channel_nonempty c ps ch :
  channels_nonempty ps → channels_nonempty (leave_channel c ps ch).
Proof.
  intros Hne. unfold leave_channel. destruct (subscribers ps !! ch) as [set|]; [|done].
  case_decide; intros ch' set'; simpl.
  - intros [_ ?]%lookup_delete_Some. eauto.
  - intros [[<- <-]|[_ ?]]%lookup_insert_Some; eauto.
Qed.

(** Leaving channels changes no other field. *)
Definition same_rest (ps ps' : PubSub) : Prop :=
  connectionToSubscriber ps' = connectionToSubscriber ps ∧
  subscriptions ps' = subscriptions ps ∧ subs ps' = subs ps ∧ next_sub ps' = next_sub ps.

Lemma leave_channel_rest c ps ch : same_rest ps (leave_channel c ps ch).
Proof. unfold leave_channel. repeat case_match; by split_and!. Qed.

Lemma leave_channels_spec c ps order :
  channels_nonempty ps →
  let ps' := foldl (leave_channel c) ps order in
  same_rest ps ps' ∧ channels_nonempty ps' ∧
  ∀ ch' c', view ps' ch' c' = (if decide (ch' ∈ order ∧ c' = c) then None else view ps ch' c').
Proof.
  revert ps. induction order as [|ch order IH]; intros ps Hne; cbn [foldl].
  { split_and!; [by split_and!|done|]. intros ch' c'. rewrite decide_False; [done|].
    intros [?%elem_of_nil _]. done. }
  destruct (IH (leave_channel c ps ch)) as (Hrest & Hne' & Hview); [by apply leave_channel_nonempty|].
  destruct (leave_channel_rest c ps ch) as (H1 & H2 & H3 & H4). destruct Hrest as (H1' & H2' & H3' & H4').
  split_and!; [split_and!; congruence|done|].
  intros ch' c'. rewrite Hview, leave_channel_view.
  assert (ch' ∈ ch :: order ↔ ch' = ch ∨ ch' ∈ order) by apply elem_of_cons.
  repeat case_decide; (done || tauto).
Qed.

(** *** Dropping a connection *)

(** A connection that is in no channel's set any more is closed and forgotten. *)
Lemma drop_connection_spec ps0 ps c id :
  ps_inv ps0 → connectionToSubscriber ps0 !! c = Some id →
  connectionToSubscriber ps = connectionToSubscriber ps0 → subs ps = subs ps0 →
  next_sub ps = next_sub ps0 → channels_nonempty ps →
  (∀ c', c' ≠ c → subscriptions ps !! c' = subscriptions ps0 !! c') →
  (∀ ch c', view ps ch c' = (if decide (c' = c) then None else view ps0 ch c')) →
  ∃ s, subs ps0 !! id = Some s ∧
    close_subscriber ps id = Ret (with_subs ps
      (<[id := mkSub (sub_conn s) (messages s) true true (running s) (sent s)]> (subs ps))) ∧
  let ps' := forget_connection (with_subs ps
      (<[id := mkSub (sub_conn s) (messages s) true true (running s) (sent s)]> (subs ps))) c in
  ps_inv ps' ∧
  (∀ c' ch, subscribed_flag ps' c' ch =
     (if decide (c' = c) then false else subscribed_flag ps0 c' ch)).
Proof.
  intros Hinv Hid Hc2s Hsubs Hnext Hne Hsub Hview. destruct Hinv.
  destruct (i_sub0 c id Hid) as (s & Hs & Hsc & Hmc & Hdc). exists s. split; [done|].
  unfold close_subscriber. rewrite Hsubs, Hs. cbn [or_panic mbind outcome_bind].
  rewrite Hmc, Hdc. simpl. split; [done|].
  set (ps' := forget_connection _ c).
  assert (∀ c', subscriptions ps' !! c' = if decide (c' = c) then None else subscriptions ps0 !! c') as HS.
  { intros c'. simpl. case_decide as E; [subst; by rewrite lookup_delete_eq|].
    rewrite lookup_delete_ne by congruence. by apply Hsub. }
  assert (∀ c', connectionToSubscriber ps' !! c' =
    if decide (c' = c) then None else connectionToSubscriber ps0 !! c') as HC.
  { intros c'. simpl. rewrite Hc2s. case_decide as E; [subst; by rewrite lookup_delete_eq|].
    by rewrite lookup_delete_ne by congruence. }
  assert (∀ c' ch, subscribed_flag ps' c' ch =
    (if decide (c' = c) then false else subscribed_flag ps0 c' ch)) as Hflag.
  { intros c' ch. unfold subscribed_flag. rewrite HS. by case_decide. }
  split; [|done]. split.
  - intros c'. rewrite HS, HC. case_decide; [|apply i_dom0]. by split; intros [? ?].
  - intros c' id'. rewrite HC. case_decide as E; [done|]. intros Hid'.
    destruct (i_sub0 c' id' Hid') as (s' & Hs' & ? & ? & ?). exists s'. simpl.
    rewrite lookup_insert_ne; [done|]. intros ->. congruence.
  - intros ch c' id'. rewrite Hflag, HC. change (view ps' ch c') with (view ps ch c').
    rewrite Hview. case_decide; [naive_solver|]. apply i_link0.
  - apply Hne.
  - intros c' set. rewrite HS. case_decide; [done|]. eauto.
  - intros c' set ch b. rewrite HS. case_decide; [done|]. eauto.
  - intros id' s'. simpl. rewrite Hnext. intros [[<- _]|[_ ?]]%lookup_insert_Some; eauto.
  - intros id' s'. simpl. intros [[<- <-]|[_ ?]]%lookup_insert_Some; [simpl|]; eauto.
Qed.

Lemma flag_lookup ps c ch channels :
  subscriptions ps !! c = Some channels → subscribed_flag ps c ch = default false (channels !! ch).
Proof. intros Hc. unfold subscribed_flag. by rewrite Hc. Qed.

(** The step of [Unsubscribe] up to the cleanup of the connection. *)
Lemma unsubscribe_leave_spec ps c ch channels :
  ps_inv ps → subscriptions ps !! c = Some channels → channels !! ch = Some true →
  let ps1 := with_subscriptions ps (<[c := delete ch channels]> (subscriptions ps)) in
  let ps2 := leave_channel c ps1 ch in
  inv_but (Some c) ps2 ∧ subs ps2 = subs ps ∧
  subscriptions ps2 !! c = Some (delete ch channels) ∧
  (∀ c' ch', subscribed_flag ps2 c' ch' =
     (if decide (c' = c ∧ ch' = ch) then false else subscribed_flag ps c' ch')).
Proof.
  intros Hinv Hc Hch ps1 ps2. destruct (leave_channel_rest c ps1 ch) as (H1 & H2 & H3 & H4).
  fold ps2 in H1, H2, H3, H4.
  assert (∀ c' ch', subscribed_flag ps2 c' ch' =
     (if decide (c' = c ∧ ch' = ch) then false else subscribed_flag ps c' ch')) as Hflag.
  { intros c' ch'. transitivity (subscribed_flag ps1 c' ch').
    { unfold subscribed_flag. by rewrite H2. }
    unfold ps1. rewrite flag_insert. destruct (decide (c' = c)) as [->|Hne].
    - destruct (decide (ch' = ch)) as [->|Hne'].
      + by rewrite lookup_delete_eq, decide_True.
      + rewrite lookup_delete_ne by done. rewrite decide_False by tauto.
        by rewrite (flag_lookup _ _ _ _ Hc).
    - by rewrite decide_False by tauto. }
  assert (subscriptions ps2 = <[c := delete ch channels]> (subscriptions ps)) as HS by done.
  split_and!; [|by rewrite H3|by rewrite HS, lookup_insert_eq|done].
  destruct Hinv. split; rewrite ?HS, ?H1, ?H3, ?H4; simpl; try done.
  - intros c'. rewrite i_dom0. destruct (decide (c' = c)) as [->|].
    + rewrite lookup_insert_eq, Hc. done.
    + by rewrite lookup_insert_ne.
  - intros ch' c' id. rewrite Hflag. unfold ps2. rewrite leave_channel_view.
    change (view ps1 ch' c') with (view ps ch' c').
    destruct (decide (ch' = ch ∧ c' = c)) as [E|E], (decide (c' = c ∧ ch' = ch)) as [E'|E'];
      [naive_solver|tauto|tauto|apply i_link0].
  - exact (leave_channel_nonempty c ps1 ch i_channels0).
  - intros c' set. intros [[<- _]|[_ ?]]%lookup_insert_Some; [done|]. eauto.
  - intros c' set ch' b. intros [[<- <-]|[_ ?]]%lookup_insert_Some; [|eauto].
    intros [_ ?]%lookup_delete_Some. eauto.
Qed.

Lemma Unsubscribe_spec ps c ch :
  ps_inv ps →
  ∃ r ps', Unsubscribe ps c ch = Ret (r, ps') ∧ ps_inv ps' ∧ subs_quiet ps ps' ∧
    (r = GOk () ↔ subscribed_flag ps c ch = true) ∧
    ∀ c' ch', subscribed_flag ps' c' ch' =
      (if decide (c' = c ∧ ch' = ch) then false else subscribed_flag ps c' ch').
Proof.
  intros Hinv. unfold Unsubscribe.
  assert (subscribed_flag ps c ch = false → ∀ c' ch', subscribed_flag ps c' ch' =
    (if decide (c' = c ∧ ch' = ch) then false else subscribed_flag ps c' ch')) as Hsame.
  { intros Hf c' ch'. case_decide; naive_solver. }
  assert (subs_quiet ps ps) as Hrefl by by apply subs_quiet_eq.
  destruct (subscriptions ps !! c) as [channels|] eqn:Hc.
  2: { assert (subscribed_flag ps c ch = false) as Hf by (unfold subscribed_flag; by rewrite Hc).
       eexists _, ps. split; [reflexivity|]. rewrite Hf. split_and!; [done..|by apply Hsame]. }
  pose proof (flag_lookup ps c ch channels Hc) as Hf. rewrite <-Hf.
  destruct (subscribed_flag ps c ch) eqn:Hflag; simpl.
  2: { eexists _, ps. split; [reflexivity|]. split_and!; [done..|by apply Hsame]. }
  assert (channels !! ch = Some true) as Hch.
  { destruct (channels !! ch) as [[]|]; simpl in Hf; congruence. }
  destruct (unsubscribe_leave_spec ps c ch channels Hinv Hc Hch) as (Hinv2 & Hs2 & HS2 & Hf2).
  set (ps2 := leave_channel c _ ch) in *. case_decide as Hempty.
  - assert (is_Some (connectionToSubscriber ps !! c)) as [id Hid] by (apply (i_dom _ _ Hinv); eauto).
    destruct (leave_channel_rest c
      (with_subscriptions ps (<[c := delete ch channels]> (subscriptions ps))) ch) as (H1 & H2 & H3 & H4).
    fold ps2 in H1, H2, H3, H4. simpl in H1.
    destruct (drop_connection_spec ps ps2 c id Hinv Hid) as (s & Hs & Hclose & Hinv' & Hf');
      try done.
    + apply leave_channel_nonempty. exact (i_channels _ _ Hinv).
    + intros c' Hne. rewrite H2. simpl. by rewrite lookup_insert_ne.
    + intros ch' c'. unfold ps2. rewrite leave_channel_view.
      change (view (with_subscriptions _ _) ch' c') with (view ps ch' c').
      destruct (decide (c' = c)) as [->|Hne]; [|by rewrite decide_False by tauto].
      case_decide as E; [done|]. destruct (view ps ch' c) as [id'|] eqn:Ev; [|done].
      apply (i_link _ _ Hinv) in Ev as [Ev _]. rewrite (flag_lookup _ _ _ _ Hc) in Ev.
      assert (delete ch channels !! ch' = None) as Hn by (rewrite Hempty; apply lookup_empty).
      rewrite lookup_delete_ne in Hn by naive_solver. by rewrite Hn in Ev.
    + unfold cleanupConnection. rewrite H1, Hid, Hclose. cbn [mbind outcome_bind].
      eexists _, _. split; [reflexivity|]. split_and!; [done| |done|].
      * eapply (subs_quiet_insert _ _ id); [|simpl; rewrite Hs2; reflexivity]. by rewrite Hs.
      * intros c' ch'. rewrite Hf'. rewrite <-(Hf2 c' ch'). case_decide; [|].
        -- subst. rewrite (flag_lookup _ _ _ _ HS2), Hempty. done.
        -- rewrite Hf2. by rewrite decide_False by tauto.
  - eexists _, _. split; [reflexivity|]. split_and!; [|by apply subs_quiet_eq|done|done].
    apply (inv_strengthen c); [done|]. intros set. rewrite HS2. congruence.
Qed.

Lemma RemoveConnection_spec ps c order :
  ps_inv ps → remove_order ps c order →
  ∃ ps', RemoveConnection ps order c = Ret ps' ∧ ps_inv ps' ∧ subs_quiet ps ps' ∧
    connectionToSubscriber ps' !! c = None ∧
    ∀ c' ch', subscribed_flag ps' c' ch' =
      (if decide (c' = c) then false else subscribed_flag ps c' ch').
Proof.
  intros Hinv Hord. unfold RemoveConnection, remove_order in *.
  destruct (connectionToSubscriber ps !! c) as [id|] eqn:Hid.
  2: { assert (subscriptions ps !! c = None) as Hc.
       { apply eq_None_not_Some. rewrite <-(i_dom _ _ Hinv), Hid. by intros [? ?]. }
       exists ps. split_and!; [done|done|by apply subs_quiet_eq|done|]. intros c' ch'.
       case_decide; [|done]. subst. unfold subscribed_flag. by rewrite Hc. }
  destruct (proj1 (i_dom _ _ Hinv c)) as [channels Hc]; [eauto|]. rewrite Hc in Hord |- *. simpl in Hord.
  destruct (leave_channels_spec c ps order (i_channels _ _ Hinv)) as ((H1 & H2 & H3 & H4) & Hne & Hview).
  set (ps2 := foldl _ ps order) in *.
  destruct (drop_connection_spec ps ps2 c id Hinv Hid) as (s & Hs & Hclose & Hinv' & Hf'); try done.
  - intros c' _. by rewrite H2.
  - intros ch c'. rewrite Hview. destruct (decide (c' = c)) as [->|]; [|by rewrite decide_False by tauto].
    case_decide as E; [done|]. destruct (view ps ch c) as [id'|] eqn:Ev; [|done].
    apply (i_link _ _ Hinv) in Ev as [Ev _]. rewrite (flag_lookup _ _ _ _ Hc) in Ev.
    destruct E. split; [|done]. rewrite Hord. apply list_elem_of_fmap.
    destruct (channels !! ch) as [b|] eqn:Eb; [|done]. exists (ch, b). split; [done|].
    by apply elem_of_map_to_list.
  - rewrite Hclose. cbn [mbind outcome_bind]. eexists. split; [reflexivity|]. split_and!; [done| | |done].
    + eapply (subs_quiet_insert _ _ id); [|simpl; rewrite H3; reflexivity]. by rewrite Hs.
    + simpl. by rewrite lookup_delete_eq.
Qed.

(** *** Publish *)

Definition has_room (s : Subscriber) : bool := bool_decide (length (messages s) < buffer_size)%nat.

Definition enqueue (msg : Message) (s : Subscriber) : Subscriber :=
  if has_room s then
    mkSub (sub_conn s) (messages s ++ [msg]) (messages_closed s) (done_closed s) (running s) (sent s)
  else s.

Definition room_at (ps : PubSub) (id : subid) : Prop :=
  match subs ps !! id with Some s => has_room s = true | None => False end.

#[export] Instance room_at_dec ps id : Decision (room_at ps id).
Proof. unfold room_at. destruct (subs ps !! id); apply _. Defined.

Lemma try_send_spec ps id msg s :
  subs ps !! id = Some s → messages_closed s = false →
  try_send ps id msg = Ret (has_room s, with_subs ps (<[id := enqueue msg s]> (subs ps))).
Proof.
  intros Hs Hc. unfold try_send. rewrite Hs. cbn [or_panic mbind outcome_bind]. rewrite Hc.
  unfold enqueue, has_room. case_decide.
  - rewrite bool_decide_eq_true_2, Hc by done. reflexivity.
  - rewrite bool_decide_eq_false_2 by done. rewrite insert_id by done. destruct ps. reflexivity.
Qed.

Lemma publish_step_spec msg count ps id s :
  subs ps !! id = Some s → messages_closed s = false →
  publish_step msg (count, ps) id =
  Ret (if has_room s then count + 1 else count, with_subs ps (<[id := enqueue msg s]> (subs ps))).
Proof. intros Hs Hc. unfold publish_step. by rewrite (try_send_spec ps id msg s). Qed.

Lemma publish_loop_spec msg order ps count :
  NoDup order →
  (∀ id, id ∈ order → ∃ s, subs ps !! id = Some s ∧ messages_closed s = false) →
  ∃ m, for_each (publish_step msg) (count, ps) order
    = Ret (count + Z.of_nat (length (filter (room_at ps) order)), with_subs ps m) ∧
    ∀ id, m !! id = (if decide (id ∈ order) then enqueue msg <$> subs ps !! id else subs ps !! id).
Proof.
  intros Hnd. revert ps count. induction Hnd as [|id order Hid Hnd IH]; intros ps count Hopen.
  { exists (subs ps). split; [|done]. cbn [for_each]. simpl. rewrite Z.add_0_r. by destruct ps. }
  destruct (Hopen id) as (s & Hs & Hc); [apply elem_of_cons; by left|].
  cbn [for_each]. rewrite (publish_step_spec msg count ps id s) by done.
  cbn [mbind outcome_bind].
  set (ps1 := with_subs ps _). set (count1 := if has_room s then _ else _).
  destruct (IH ps1 count1) as (m & Hret & Hm).
  { intros id' Hid'. destruct (Hopen id') as (s' & Hs' & Hc'); [apply elem_of_cons; by right|].
    exists s'. unfold ps1. simpl. rewrite lookup_insert_ne; [done|]. congruence. }
  exists m. split.
  - rewrite Hret. do 2 f_equal.
    assert (filter (room_at ps1) order = filter (room_at ps) order) as ->.
    { apply filter_ext_elem. intros x Hx. unfold room_at, ps1. simpl.
      rewrite lookup_insert_ne; [done|]. congruence. }
    rewrite filter_cons. unfold room_at at 2. unfold count1. case_decide as E; rewrite Hs in E.
    + rewrite E. simpl. lia.
    + destruct (has_room s); [done|]. lia.
  - intros id'. rewrite Hm. unfold ps1. simpl. destruct (decide (id' = id)) as [->|Hne].
    + rewrite decide_False by done. rewrite lookup_insert_eq, decide_True, Hs; [done|].
      apply elem_of_cons. by left.
    + rewrite lookup_insert_ne by congruence.
      destruct (decide (id' ∈ order)) as [Hin|Hin].
      * rewrite decide_True; [done|]. apply elem_of_cons. by right.
      * rewrite decide_False; [done|]. rewrite elem_of_cons. tauto.
Qed.

Lemma publish_order_open ps ch order :
  ps_inv ps → publish_order ps ch order →
  NoDup order ∧
  (∀ id, id ∈ order ↔ ∃ c, view ps ch c = Some id) ∧
  (∀ id, id ∈ order → ∃ s, subs ps !! id = Some s ∧ messages_closed s = false ∧
     view ps ch (sub_conn s) = Some id).
Proof.
  intros Hinv Hord. unfold publish_order in Hord. set (set := default ∅ _) in Hord.
  assert (∀ c id, set !! c = Some id ↔ view ps ch c = Some id) as Hset.
  { intros c id. unfold set, view. destruct (subscribers ps !! ch); simpl; [done|].
    by rewrite lookup_empty. }
  assert (∀ id, id ∈ order ↔ ∃ c, view ps ch c = Some id) as Hin.
  { intros id. rewrite Hord, list_elem_of_fmap. split.
    - intros [[c id'] [-> Hc%elem_of_map_to_list]]. exists c. by apply Hset.
    - intros [c Hc%Hset]. exists (c, id). split; [done|]. by apply elem_of_map_to_list. }
  assert (∀ c id, view ps ch c = Some id → ∃ s, subs ps !! id = Some s ∧
    messages_closed s = false ∧ sub_conn s = c) as Hopen.
  { intros c id Hv. apply (i_link _ _ Hinv) in Hv as [_ Hc].
    destruct (i_sub _ _ Hinv c id Hc) as (s & ? & ? & ? & _). by exists s. }
  split_and!; [|done|].
  - rewrite Hord. apply NoDup_fmap_2_strong; [|apply NoDup_map_to_list].
    intros [c1 id1] [c2 id2] H1%elem_of_map_to_list%Hset H2%elem_of_map_to_list%Hset. simpl. intros ->.
    apply Hopen in H1 as (s1 & Hs1 & _ & <-). apply Hopen in H2 as (s2 & Hs2 & _ & <-).
    congruence.
  - intros id [c Hc]%Hin. destruct (Hopen c id Hc) as (s & ? & ? & <-). eauto.
Qed.

Lemma inv_with_subs ps m :
  ps_inv ps →
  (∀ id s', m !! id = Some s' → ∃ s, subs ps !! id = Some s ∧ sub_conn s' = sub_conn s ∧
     messages_closed s' = messages_closed s ∧ done_closed s' = done_closed s ∧
     (length (messages s') ≤ buffer_size)%nat) →
  (∀ id, is_Some (subs ps !! id) → is_Some (m !! id)) →
  ps_inv (with_subs ps m).
Proof.
  intros [] Hm Hdom. split; simpl; try done.
  - intros c id Hc. destruct (i_sub0 c id Hc) as (s & Hs & Hrest).
    destruct (Hdom id) as [s' Hs']; [eauto|]. exists s'. split; [done|].
    destruct (Hm id s' Hs') as (s0 & Hs0 & -> & -> & -> & _). congruence.
  - intros id s' Hs'. destruct (Hm id s' Hs') as (s & Hs & _). eauto.
  - intros id s' Hs'. destruct (Hm id s' Hs') as (s & Hs & _ & _ & _ & Hl). done.
Qed.

Lemma enqueue_bound msg s :
  (length (messages s) ≤ buffer_size)%nat → (length (messages (enqueue msg s)) ≤ buffer_size)%nat.
Proof.
  intros Hl. unfold enqueue, has_room. case_bool_decide; simpl; [|done].
  rewrite length_app. simpl. lia.
Qed.

Lemma Publish_spec ps ch msg order :
  ps_inv ps → publish_order ps ch order →
  ∃ ps', Publish ps order ch msg = Ret (Z.of_nat (length (filter (room_at ps) order)), ps') ∧
    ps_inv ps' ∧
    (∀ c ch', subscribed_flag ps' c ch' = subscribed_flag ps c ch') ∧
    (∀ id s, subs ps !! id = Some s →
       subs ps' !! id = Some (if decide (view ps ch (sub_conn s) = Some id)
                              then enqueue {| Channel := ch; Content := msg |} s else s)).
Proof.
  intros Hinv Hord. destruct (publish_order_open ps ch order Hinv Hord) as (Hnd & Hin & Hopen).
  unfold Publish. destruct (subscribers ps !! ch) as [set|] eqn:Hset.
  2: { assert (order = []) as ->.
       { unfold publish_order in Hord. rewrite Hset in Hord. simpl in Hord. rewrite map_to_list_empty in Hord.
         by apply Permutation_nil_r in Hord. }
       exists ps. split_and!; [done..|]. intros id s Hs. case_decide as E; [|done].
       unfold view in E. by rewrite Hset in E. }
  rewrite decide_False by (by eapply i_channels).
  destruct (publish_loop_spec {| Channel := ch; Content := msg |} order ps 0 Hnd) as (m & -> & Hm).
  { intros id Hid. destruct (Hopen id Hid) as (s & ? & ? & _). eauto. }
  eexists. split; [done|]. split_and!; [|done|].
  - apply inv_with_subs; [done| |].
    + intros id s'. rewrite Hm. destruct (subs ps !! id) as [s|] eqn:Hs; [|by case_decide].
      pose proof (i_buffer _ _ Hinv id s Hs) as Hl. case_decide; simpl; intros [= <-]; exists s.
      * split; [done|]. pose proof (enqueue_bound {| Channel := ch; Content := msg |} s Hl).
        split_and!; [..|done]; unfold enqueue; by destruct (has_room s).
      * done.
    + intros id [s Hs]. rewrite Hm, Hs. case_decide; simpl; eauto.
  - intros id s Hs. simpl. rewrite Hm, Hs.
    destruct (decide (id ∈ order)) as [Hi|Hi]; simpl.
    + destruct (Hopen id Hi) as (s' & Hs' & _ & Hv). rewrite decide_True; [done|]. congruence.
    + rewrite decide_False; [done|]. intros Hv. apply Hi, Hin. eauto.
Qed.

(** ** Executions *)

(** Everything that can happen to the manager: calls by the connection handlers,
    in any interleaving, and turns of the sender goroutines. *)
Inductive ps_step : PubSub → PubSub → Prop :=
| step_subscribe ps ps' c ch :
    Subscribe ps c ch = Ret ps' → ps_step ps ps'
| step_unsubscribe ps ps' c ch r :
    Unsubscribe ps c ch = Ret (r, ps') → ps_step ps ps'
| step_remove ps ps' c order :
    remove_order ps c order → RemoveConnection ps order c = Ret ps' → ps_step ps ps'
| step_publish ps ps' ch msg order n :
    publish_order ps ch order → Publish ps order ch msg = Ret (n, ps') → ps_step ps ps'
| step_send ps id s s' :
    subs ps !! id = Some s → send_step s s' →
    ps_step ps (with_subs ps (<[id := s']> (subs ps))).

(** A turn of a sender keeps the invariant. *)
Lemma send_inv ps id s s' :
  ps_inv ps → subs ps !! id = Some s → send_step s s' → ps_inv (with_subs ps (<[id := s']> (subs ps))).
Proof.
  intros Hinv Hs Hsend. apply inv_with_subs; [done| |].
  - intros id' s0 [[<- <-]|[_ H0]]%lookup_insert_Some.
    + pose proof (i_buffer _ _ Hinv id s Hs) as Hl. exists s. split; [done|].
      destruct Hsend; simpl in *; split_and!; (done || lia).
    + exists s0. split_and!; [done..|]. by apply (i_buffer _ _ Hinv id').
  - intros id' H'. destruct (decide (id' = id)) as [->|]; [rewrite lookup_insert_eq; eauto|].
    by rewrite lookup_insert_ne.
Qed.

Lemma ps_step_inv ps ps' : ps_inv ps → ps_step ps ps' → ps_inv ps'.
Proof.
  intros Hinv Hstep. destruct Hstep as [ps ps' c ch E|ps ps' c ch r E|ps ps' c order Ho E
    |ps ps' ch msg order n Ho E|ps id s s' Hs Hsend].
  - destruct (Subscribe_spec ps c ch Hinv) as (? & E' & ? & _). rewrite E in E'. by simplify_eq.
  - destruct (Unsubscribe_spec ps c ch Hinv) as (? & ? & E' & ? & _). rewrite E in E'. by simplify_eq.
  - destruct (RemoveConnection_spec ps c order Hinv Ho) as (? & E' & ? & _). rewrite E in E'. by simplify_eq.
  - destruct (Publish_spec ps ch msg order Hinv Ho) as (? & E' & ? & _). rewrite E in E'. by simplify_eq.
  - by eapply send_inv.
Qed.

Definition ps_reachable (ps : PubSub) : Prop := rtc ps_step NewPubSub ps.

Lemma reachable_ps_inv ps : ps_reachable ps → ps_inv ps.
Proof.
  intros Hr. assert (∀ a b, rtc ps_step a b → ps_inv a → ps_inv b) as H.
  { induction 1 as [|a b d Hab _ IH]; [done|]. intros Ha. apply IH. by eapply ps_step_inv. }
  eapply H; [done|]. apply ps_inv_new.
Qed.

(** C22. In every state the manager can reach, under any interleaving of calls and
    sender goroutines, the three maps describe one relation between connections
    and channels, and no call panics: no send on, or second close of, a closed
    channel, and no write to a nil map. *)
Theorem pubsub_never_panics ps :
  ps_reachable ps →
  ps_inv ps ∧
  (∀ c ch, ∃ ps', Subscribe ps c ch = Ret ps') ∧
  (∀ c ch, ∃ r ps', Unsubscribe ps c ch = Ret (r, ps')) ∧
  (∀ c order, remove_order ps c order → ∃ ps', RemoveConnection ps order c = Ret ps') ∧
  (∀ ch msg order, publish_order ps ch order → ∃ n ps', Publish ps order ch msg = Ret (n, ps')).
Proof.
  intros Hinv%reachable_ps_inv. split_and!; [done| | | |].
  - intros c ch. destruct (Subscribe_spec ps c ch Hinv) as (? & ? & _). eauto.
  - intros c ch. destruct (Unsubscribe_spec ps c ch Hinv) as (? & ? & ? & _). eauto.
  - intros c order Ho. destruct (RemoveConnection_spec ps c order Hinv Ho) as (? & ? & _). eauto.
  - intros ch msg order Ho. destruct (Publish_spec ps ch msg order Hinv Ho) as (? & ? & _). eauto.
Qed.

(** C23. The subscription calls implement a relation between connections and
    channels: [Subscribe] adds one pair, [Unsubscribe] removes one pair (and
    reports an error exactly when it is absent), [RemoveConnection] removes all
    the pairs of a connection; nothing else changes. *)
Theorem pubsub_relation ps c ch order :
  ps_inv ps → remove_order ps c order →
  (∃ ps', Subscribe ps c ch = Ret ps' ∧ ps_inv ps' ∧
     ∀ c' ch', subscribed_flag ps' c' ch' =
       (if decide (c' = c ∧ ch' = ch) then true else subscribed_flag ps c' ch')) ∧
  (∃ r ps', Unsubscribe ps c ch = Ret (r, ps') ∧ ps_inv ps' ∧
     (r = GOk () ↔ subscribed_flag ps c ch = true) ∧
     ∀ c' ch', subscribed_flag ps' c' ch' =
       (if decide (c' = c ∧ ch' = ch) then false else subscribed_flag ps c' ch')) ∧
  (∃ ps', RemoveConnection ps order c = Ret ps' ∧ ps_inv ps' ∧
     ∀ c' ch', subscribed_flag ps' c' ch' =
       (if decide (c' = c) then false else subscribed_flag ps c' ch')).
Proof.
  intros Hinv Ho. split_and!.
  - destruct (Subscribe_spec ps c ch Hinv) as (? & ? & ? & _ & ?). eauto.
  - destruct (Unsubscribe_spec ps c ch Hinv) as (r & ? & ? & ? & _ & ? & ?). eauto 10.
  - destruct (RemoveConnection_spec ps c order Hinv Ho) as (? & ? & ? & _ & _ & ?). eauto.
Qed.

(** [Publish] queues the message, at the end, to every connection subscribed to
    the channel whose buffer of 100 has room, and to nobody else; its result is
    the number of those. *)
Theorem Publish_delivers ps ch msg order :
  ps_inv ps → publish_order ps ch order →
  ∃ ps', Publish ps order ch msg = Ret (Z.of_nat (length (filter (room_at ps) order)), ps') ∧
    ps_inv ps' ∧
    (∀ c id s, connectionToSubscriber ps !! c = Some id → subs ps !! id = Some s →
       subs ps' !! id = Some (if subscribed_flag ps c ch && has_room s then
         mkSub c (messages s ++ [{| Channel := ch; Content := msg |}]) false false
           (running s) (sent s) else s)).
Proof.
  intros Hinv Ho. destruct (Publish_spec ps ch msg order Hinv Ho) as (ps' & ? & ? & _ & Hsubs).
  exists ps'. split_and!; [done..|]. intros c id s Hc Hs. rewrite (Hsubs id s Hs).
  destruct (i_sub _ _ Hinv c id Hc) as (s' & Hs' & Hsc & Hmc & Hdc).
  assert (s' = s) as -> by congruence. f_equal.
  destruct (subscribed_flag ps c ch) eqn:Hf; simpl.
  - rewrite decide_True by (rewrite Hsc; by apply (i_link _ _ Hinv)).
    unfold enqueue. destruct (has_room s); [|done]. by rewrite Hsc, Hmc, Hdc.
  - rewrite decide_False; [done|]. rewrite Hsc. intros [? _]%(i_link _ _ Hinv). congruence.
Qed.

(** ** A concrete run: two connections on one channel, one of them on two. *)

Definition run_or (ps : PubSub) (r : outcome PubSub) : PubSub :=
  match r with Ret ps' => ps' | _ => ps end.

Definition demo_ps : PubSub :=
  let ps1 := run_or NewPubSub (Subscribe NewPubSub 1 "news") in
  let ps2 := run_or ps1 (Subscribe ps1 2 "news") in
  run_or ps2 (Subscribe ps2 2 "sports").

Lemma subscribe_reachable ps c ch :
  ps_reachable ps → ps_reachable (run_or ps (Subscribe ps c ch)).
Proof.
  intros Hr. destruct (Subscribe ps c ch) as [ps'| | |] eqn:E; simpl; [|done..].
  eapply rtc_r; [done|]. by eapply step_subscribe.
Qed.

Lemma demo_ps_reachable : ps_reachable demo_ps.
Proof. do 3 apply subscribe_reachable. apply rtc_refl. Qed.

(** The range order that follows the map's own enumeration. *)
Definition demo_order (ch : string) : list subid :=
  (map_to_list (default ∅ (subscribers demo_ps !! ch))).*2.

Example demo_publish :
  fst <$> (match Publish demo_ps (demo_order "news") "news" "hi" with
           | Ret r => Some r | _ => None end) = Some 2.
Proof. by vm_compute. Qed.

Lemma pubsub_never_panics_witness :
  ps_inv demo_ps ∧
  (∀ c ch, ∃ ps', Subscribe demo_ps c ch = Ret ps') ∧
  (∀ c ch, ∃ r ps', Unsubscribe demo_ps c ch = Ret (r, ps')) ∧
  (∀ c order, remove_order demo_ps c order → ∃ ps', RemoveConnection demo_ps order c = Ret ps') ∧
  (∀ ch msg order, publish_order demo_ps ch order →
     ∃ n ps', Publish demo_ps order ch msg = Ret (n, ps')).
Proof. apply (pubsub_never_panics demo_ps demo_ps_reachable). Defined.

Lemma pubsub_relation_witness :
  (∃ ps', Subscribe demo_ps 2 "news" = Ret ps' ∧ ps_inv ps' ∧
     ∀ c' ch', subscribed_flag ps' c' ch' =
       (if decide (c' = 2 ∧ ch' = "news") then true else subscribed_flag demo_ps c' ch')) ∧
  (∃ r ps', Unsubscribe demo_ps 2 "news" = Ret (r, ps') ∧ ps_inv ps' ∧
     (r = GOk () ↔ subscribed_flag demo_ps 2 "news" = true) ∧
     ∀ c' ch', subscribed_flag ps' c' ch' =
       (if decide (c' = 2 ∧ ch' = "news") then false else subscribed_flag demo_ps c' ch')) ∧
  (∃ ps', RemoveConnection demo_ps ((map_to_list (default ∅ (subscriptions demo_ps !! 2))).*1) 2
     = Ret ps' ∧ ps_inv ps' ∧
     ∀ c' ch', subscribed_flag ps' c' ch' =
       (if decide (c' = 2) then false else subscribed_flag demo_ps c' ch')).
Proof.
  apply (pubsub_relation demo_ps 2 "news").
  - apply (reachable_ps_inv _ demo_ps_reachable).
  - unfold remove_order. reflexivity.
Defined.

Lemma Publish_delivers_witness :
  ∃ ps', Publish demo_ps (demo_order "news") "news" "hi" =
      Ret (Z.of_nat (length (filter (room_at demo_ps) (demo_order "news"))), ps') ∧
    ps_inv ps' ∧
    (∀ c id s, connectionToSubscriber demo_ps !! c = Some id → subs demo_ps !! id = Some s →
       subs ps' !! id = Some (if subscribed_flag demo_ps c "news" && has_room s then
         mkSub c (messages s ++ [{| Channel := "news"; Content := "hi" |}]) false false
           (running s) (sent s) else s)).
Proof.
  apply (Publish_delivers demo_ps "news" "hi" (demo_order "news")).
  - apply (reachable_ps_inv _ demo_ps_reachable).
  - unfold publish_order. reflexivity.
Defined.

End PubSub.
