(* ===== verification/Delivery.v ===== *)
(** * internal/pubsub: publications that overlap

    [Publish] holds only the read lock, so the sends of several publications can
    interleave, with each other and with the senders of the subscribers; the other
    calls take the write lock and run when no publication is in progress.
    [m_step] makes every send of a publication a step of its own.  The machine
    carries its history: the publications begun so far, numbered, and which of
    them was queued for which subscriber. *)

From S2P Require Import Prelude GoStd Resp PubSub.
Import PubSub.

Module Delivery.

(** A publication in progress: the subscribers it has not visited yet. *)
Record publication := mkPub { pub_no : nat; pub_msg : Message; pub_rest : list subid }.

(** A publication that was begun: its subscribers as the range loop visits them,
    and the publications that were in progress at that time. *)
Record past := mkPast { past_msg : Message; past_order : list subid; past_overlap : list nat }.

Record machine := mkM {
  reg : PubSub.PubSub;
  active : list publication;
  published : list past;
  queued : list (nat * subid)
}.

Definition start : machine := mkM NewPubSub [] [] [].

Inductive m_step : machine → machine → Prop :=
| m_subscribe ps ps' pub q c ch :
    Subscribe ps c ch = Ret ps' → m_step (mkM ps [] pub q) (mkM ps' [] pub q)
| m_unsubscribe ps ps' pub q c ch r :
    Unsubscribe ps c ch = Ret (r, ps') → m_step (mkM ps [] pub q) (mkM ps' [] pub q)
| m_remove ps ps' pub q c order :
    remove_order ps c order → RemoveConnection ps order c = Ret ps' →
    m_step (mkM ps [] pub q) (mkM ps' [] pub q)
| m_begin ps act pub q ch msg order :
    publish_order ps ch order →
    m_step (mkM ps act pub q)
      (mkM ps (act ++ [mkPub (length pub) {| Channel := ch; Content := msg |} order])
         (pub ++ [mkPast {| Channel := ch; Content := msg |} order (pub_no <$> act)]) q)
| m_send ps ps' act1 act2 pub q n msg id rest ok :
    try_send ps id msg = Ret (ok, ps') →
    m_step (mkM ps (act1 ++ mkPub n msg (id :: rest) :: act2) pub q)
      (mkM ps' (act1 ++ mkPub n msg rest :: act2) pub (if ok : bool then q ++ [(n, id)] else q))
| m_end ps act1 act2 pub q n msg :
    m_step (mkM ps (act1 ++ mkPub n msg [] :: act2) pub q) (mkM ps (act1 ++ act2) pub q)
| m_deliver ps act pub q id s s' :
    subs ps !! id = Some s → send_step s s' →
    m_step (mkM ps act pub q) (mkM (with_subs ps (<[id := s']> (subs ps))) act pub q).

(** The publications queued for a subscriber, in order, and their messages. *)
Definition delivered (q : list (nat * subid)) (id : subid) : list nat :=
  omap (λ x, if decide (x.2 = id) then Some x.1 else None) q.
Definition messages_of (pub : list past) (ns : list nat) : list Message :=
  omap (λ n, past_msg <$> pub !! n) ns.

Lemma elem_of_delivered q id n : n ∈ delivered q id ↔ (n, id) ∈ q.
Proof.
  unfold delivered. rewrite list_elem_of_omap. split.
  - intros ([n' id'] & Hin & Hd). case_decide; simplify_eq/=. done.
  - intros Hin. exists (n, id). by rewrite decide_True.
Qed.

Lemma delivered_snoc q n id id' :
  delivered (q ++ [(n, id)]) id' = delivered q id' ++ (if decide (id = id') then [n] else []).
Proof. unfold delivered. rewrite omap_app. simpl. by case_decide. Qed.

Lemma delivered_split q id l1 n l2 :
  delivered q id = l1 ++ n :: l2 → ∃ q1 q2, q = q1 ++ (n, id) :: q2 ∧ delivered q2 id = l2.
Proof.
  revert l1. induction q as [|[n' id'] q IH]; intros l1 H; [by destruct l1|].
  unfold delivered in H. cbn [omap list_omap fst snd] in H. case_decide as E.
  - subst id'. destruct l1 as [|x l1]; simpl in H; injection H as <- H.
    + by exists [], q.
    + destruct (IH l1 H) as (q1 & q2 & -> & ?). by exists ((n', id) :: q1), q2.
  - destruct (IH l1 H) as (q1 & q2 & -> & ?). by exists ((n', id') :: q1), q2.
Qed.

Lemma messages_of_app pub ns ns' : messages_of pub (ns ++ ns') = messages_of pub ns ++ messages_of pub ns'.
Proof. apply omap_app. Qed.

Lemma messages_of_snoc pub p ns :
  (∀ n, n ∈ ns → is_Some (pub !! n)) → messages_of (pub ++ [p]) ns = messages_of pub ns.
Proof.
  induction ns as [|n ns IH]; intros Hns; [done|]. unfold messages_of in *. cbn [omap list_omap].
  destruct (Hns n) as [x Hx]; [by left|]. rewrite (lookup_app_l_Some _ _ _ _ Hx), Hx. cbn.
  f_equal. apply IH. intros n' ?. apply Hns. by right.
Qed.

(** ** The invariant *)

Definition pending (m : machine) (p : publication) : Prop :=
  ∃ done ov, published m !! pub_no p = Some (mkPast (pub_msg p) (done ++ pub_rest p) ov) ∧
    NoDup (done ++ pub_rest p) ∧
    ∀ id, id ∈ pub_rest p → (pub_no p, id) ∉ queued m ∧
      ∃ s, subs (reg m) !! id = Some s ∧ messages_closed s = false.

Definition carried (m : machine) (id : subid) (s : Subscriber) : Prop :=
  let msgs := messages_of (published m) (delivered (queued m) id) in
  sent s `prefix_of` msgs ∧ (running s = true → flow s = msgs).

Record m_inv (m : machine) : Prop := {
  mi_reg : ps_inv (reg m);
  mi_active : ∀ p, p ∈ active m → pending m p;
  mi_nos : NoDup (pub_no <$> active m);
  mi_queued : NoDup (queued m);
  mi_target : ∀ n id, (n, id) ∈ queued m →
    is_Some (subs (reg m) !! id) ∧ ∃ p, published m !! n = Some p ∧ id ∈ past_order p;
  mi_overlap : ∀ p n' p', p ∈ active m → published m !! n' = Some p' → (pub_no p < n')%nat →
    pub_no p ∈ past_overlap p';
  mi_order : ∀ l1 n' id l2 n, queued m = l1 ++ (n', id) :: l2 → (n, id) ∈ l2 → (n < n')%nat →
    ∃ p', published m !! n' = Some p' ∧ n ∈ past_overlap p';
  mi_carried : ∀ id s, subs (reg m) !! id = Some s → carried m id s
}.

Lemma m_inv_start : m_inv start.
Proof.
  split; simpl; [apply ps_inv_new|by intros p ?%elem_of_nil|apply NoDup_nil_2|apply NoDup_nil_2
    |by intros n id ?%elem_of_nil|by intros p n' p' ?%elem_of_nil|by intros []|].
  intros id s. by rewrite lookup_empty.
Qed.

(** The calls under the write lock. *)
Lemma m_inv_quiet ps ps' pub q :
  m_inv (mkM ps [] pub q) → ps_inv ps' → subs_quiet ps ps' → m_inv (mkM ps' [] pub q).
Proof.
  intros [] Hinv Hq. split; simpl in *; try done.
  - by intros p ?%elem_of_nil.
  - intros n id Hin. destruct (mi_target0 n id Hin) as [[s Hs] ?]. split; [|done].
    specialize (Hq id). rewrite Hs in Hq. by destruct (subs ps' !! id).
  - intros id s' Hs'. specialize (Hq id). rewrite Hs' in Hq. unfold carried, flow. simpl.
    destruct (subs ps !! id) as [s|] eqn:Hs.
    + destruct Hq as (_ & -> & -> & ->). by apply (mi_carried0 id s).
    + unfold flow in Hq. apply app_eq_nil in Hq as [-> ->].
      assert (delivered q id = []) as ->.
      { destruct (delivered q id) as [|n l] eqn:E; [done|].
        assert (n ∈ delivered q id) as Hn%elem_of_delivered by (rewrite E; by left).
        destruct (mi_target0 n id Hn) as [[??] _]. congruence. }
      done.
Qed.

Lemma m_inv_begin ps act pub q ch msg order :
  m_inv (mkM ps act pub q) → publish_order ps ch order →
  m_inv (mkM ps (act ++ [mkPub (length pub) {| Channel := ch; Content := msg |} order])
         (pub ++ [mkPast {| Channel := ch; Content := msg |} order (pub_no <$> act)]) q).
Proof.
  intros [] Ho. simpl in *. destruct (publish_order_open ps ch order mi_reg0 Ho) as (Hnd & _ & Hopen).
  assert (∀ p, p ∈ act → (pub_no p < length pub)%nat) as Hlt.
  { intros p (d & ov & Hp & _)%mi_active0. by eapply lookup_lt_Some. }
  assert (∀ n id, (n, id) ∈ q → is_Some (pub !! n)) as Hpub.
  { intros n id Hin. destruct (mi_target0 n id Hin) as (_ & p & -> & _). done. }
  split; simpl; try done.
  - intros p [Hp|Hp%list_elem_of_singleton]%elem_of_app; [|subst p].
    + destruct (mi_active0 p Hp) as (d & ov & Hl & ? & ?). exists d, ov.
      split_and!; [by apply lookup_app_l_Some|done|done].
    + exists [], (pub_no <$> act). cbn [pub_no pub_msg pub_rest app reg published queued].
      split_and!; [by apply list_lookup_middle|done|]. intros id Hid. split.
      * intros [? Hl]%Hpub. apply lookup_lt_Some in Hl. lia.
      * destruct (Hopen id Hid) as (s & ? & ? & _). eauto.
  - rewrite fmap_app. apply NoDup_app. split_and!; [done| |apply NoDup_singleton].
    intros n (p & -> & Hp)%list_elem_of_fmap Hn%list_elem_of_singleton. apply Hlt in Hp. simpl in Hn. lia.
  - intros n id Hin. destruct (mi_target0 n id Hin) as (? & p & Hp & ?). split; [done|].
    exists p. split; [by apply lookup_app_l_Some|done].
  - intros p n' p' [Hp|Hp%list_elem_of_singleton]%elem_of_app Hl Hn; [|subst p; cbn [pub_no] in *].
    + apply lookup_app_Some in Hl as [Hl|[_ Hl]]; [by eapply mi_overlap0|].
      apply list_lookup_singleton_Some in Hl as [_ <-]. by apply list_elem_of_fmap_2.
    + apply lookup_lt_Some in Hl. rewrite length_app in Hl. simpl in Hl. lia.
  - intros l1 n' id l2 n Hq Hin Hn. destruct (mi_order0 l1 n' id l2 n Hq Hin Hn) as (p' & Hp' & ?).
    exists p'. split; [by apply lookup_app_l_Some|done].
  - intros id s Hs. unfold carried. cbn [published queued]. rewrite messages_of_snoc; [by apply mi_carried0|].
    intros n Hn%elem_of_delivered. by eapply Hpub.
Qed.

(** A subscriber that is offered a message. *)
Lemma carried_enqueue (pub : list past) q n id msg ov order s :
  pub !! n = Some (mkPast msg order ov) →
  sent s `prefix_of` messages_of pub (delivered q id) →
  (running s = true → flow s = messages_of pub (delivered q id)) →
  let msgs := messages_of pub (delivered (if has_room s then q ++ [(n, id)] else q) id) in
  sent (enqueue msg s) `prefix_of` msgs ∧ (running (enqueue msg s) = true → flow (enqueue msg s) = msgs).
Proof.
  intros Hp Hpre Hflow. unfold enqueue. destruct (has_room s); [|done].
  rewrite delivered_snoc, decide_True, messages_of_app by done.
  assert (messages_of pub [n] = [msg]) as -> by (unfold messages_of; cbn [omap list_omap]; by rewrite Hp).
  unfold flow in *. cbn [sent messages running]. split; [by apply prefix_app_r|].
  intros Hr. by rewrite (assoc_L (++)), Hflow.
Qed.

(** Queueing a publication after the ones queued so far: one of them that was begun
    later overlaps with it, since it is still in progress. *)
Lemma order_snoc (pub : list past) (q : list (nat * subid)) (p : publication) :
  (∀ n id, (n, id) ∈ q → ∃ x, pub !! n = Some x ∧ id ∈ past_order x) →
  (∀ n' p', pub !! n' = Some p' → (pub_no p < n')%nat → pub_no p ∈ past_overlap p') →
  (∀ l1 n' id l2 n, q = l1 ++ (n', id) :: l2 → (n, id) ∈ l2 → (n < n')%nat →
     ∃ p', pub !! n' = Some p' ∧ n ∈ past_overlap p') →
  ∀ id0 l1 n' id l2 n, q ++ [(pub_no p, id0)] = l1 ++ (n', id) :: l2 → (n, id) ∈ l2 → (n < n')%nat →
     ∃ p', pub !! n' = Some p' ∧ n ∈ past_overlap p'.
Proof.
  intros Htarget Hov Hord id0 l1 n' id l2 n Hq Hin Hn.
  destruct l2 as [|x l2 _] using rev_ind; [by apply elem_of_nil in Hin|].
  rewrite app_comm_cons, (assoc_L (++)) in Hq. apply app_inj_tail in Hq as [Hq Hx].
  apply elem_of_app in Hin as [Hin|Hin%list_elem_of_singleton]; [by eapply Hord|].
  rewrite <-Hin in Hx. injection Hx as <- <-.
  destruct (Htarget n' id0) as (p' & Hp' & _); [rewrite Hq; apply elem_of_app; right; by left|].
  exists p'. split; [done|]. by eapply Hov.
Qed.

Lemma m_inv_send ps ps' act1 act2 pub q n msg id rest ok :
  m_inv (mkM ps (act1 ++ mkPub n msg (id :: rest) :: act2) pub q) → try_send ps id msg = Ret (ok, ps') →
  m_inv (mkM ps' (act1 ++ mkPub n msg rest :: act2) pub (if ok then q ++ [(n, id)] else q)).
Proof.
  intros Hm Hsend. pose proof Hm as []. simpl in *.
  destruct (mi_active0 (mkPub n msg (id :: rest))) as (d & ov & Hpub & Hnd & Hrest).
  { apply elem_of_app. right. by left. }
  cbn [pub_no pub_msg pub_rest reg published queued] in *.
  destruct (Hrest id) as (Hnq & s & Hs & Hopen); [by left|].
  rewrite (try_send_spec ps id msg s Hs Hopen) in Hsend. injection Hsend as <- <-.
  set (q' := if has_room s then q ++ [(n, id)] else q).
  assert (∀ x, x ∈ q' → x ∈ q ∨ x = (n, id)) as Hq'.
  { intros x. unfold q'. destruct (has_room s); [|auto].
    intros [?|?%list_elem_of_singleton]%elem_of_app; auto. }
  assert (∀ id' s', subs ps !! id' = Some s' → subs (with_subs ps (<[id := enqueue msg s]> (subs ps))) !! id'
    = Some (if decide (id' = id) then enqueue msg s' else s')) as Hsubs.
  { intros id' s' Hs'. simpl. destruct (decide (id' = id)) as [->|].
    - rewrite lookup_insert_eq. congruence.
    - by rewrite lookup_insert_ne. }
  split; simpl.
  - apply inv_with_subs; [done| |].
    + intros id' s0 [[<- <-]|[_ H0]]%lookup_insert_Some.
      * exists s. split; [done|]. pose proof (enqueue_bound msg s (i_buffer _ _ mi_reg0 id s Hs)).
        unfold enqueue in *. by destruct (has_room s).
      * exists s0. split_and!; [done..|]. by apply (i_buffer _ _ mi_reg0 id').
    + intros id' [s' Hs']. pose proof (Hsubs id' s' Hs') as E. simpl in E. rewrite E. eauto.
  - (* the publications in progress *)
    assert (∀ p, pending (mkM ps (act1 ++ mkPub n msg (id :: rest) :: act2) pub q) p →
      (∀ id', id' ∈ pub_rest p → (pub_no p, id') ≠ (n, id)) →
      pending (mkM (with_subs ps (<[id := enqueue msg s]> (subs ps))) (act1 ++ mkPub n msg rest :: act2) pub q') p) as Hkeep.
    { intros p (d' & ov' & Hp & Hnd' & Hr) Hne. exists d', ov'. split_and!; [done|done|]. intros id' Hid'.
      destruct (Hr id' Hid') as (Hnq' & s' & Hs' & Ho'). split.
      - intros [?|?]%Hq'; [done|]. by apply (Hne id').
      - eexists. split; [by apply Hsubs|]. case_decide; [|done]. unfold enqueue. by destruct (has_room s'). }
    rewrite fmap_app, fmap_cons in mi_nos0. apply NoDup_app in mi_nos0 as (_ & Hd1 & [Hd2 _]%NoDup_cons).
    intros p [Hp|[->|Hp]%elem_of_cons]%elem_of_app.
    + apply Hkeep; [apply mi_active0, elem_of_app; by left|]. intros id' _ [= E _].
      apply (Hd1 (pub_no p)); [by apply list_elem_of_fmap_2|]. rewrite E. by left.
    + exists (d ++ [id]), ov. cbn [pub_no pub_msg pub_rest]. rewrite <-(assoc_L (++)). cbn [app].
      split_and!; [done|done|]. apply NoDup_app in Hnd as (_ & _ & [Hid _]%NoDup_cons).
      intros id' Hid'. destruct (Hrest id') as (Hnq' & s' & Hs' & Ho'); [by right|]. split.
      * intros [?|[= ->]]%Hq'; done.
      * eexists. split; [by apply Hsubs|]. case_decide; [|done]. unfold enqueue. by destruct (has_room s').
    + apply Hkeep; [apply mi_active0, elem_of_app; right; by right|]. intros id' _ [= E _].
      apply Hd2. apply list_elem_of_fmap. eauto.
  - rewrite fmap_app, fmap_cons in *. exact mi_nos0.
  - unfold q'. destruct (has_room s); [|done]. apply NoDup_app. split_and!; [done| |apply NoDup_singleton].
    intros x Hx Hx'%list_elem_of_singleton. by subst x.
  - intros n' id' [Hin|[= -> ->]]%Hq'.
    + destruct (mi_target0 n' id' Hin) as [[s' Hs'] ?]. split; [|done].
      pose proof (Hsubs id' s' Hs') as E. simpl in E. rewrite E. eauto.
    + split; [rewrite lookup_insert_eq; eauto|]. eexists. split; [exact Hpub|]. apply elem_of_app. right. by left.
  - intros p n' p' [Hp|[->|Hp]%elem_of_cons]%elem_of_app.
    + apply mi_overlap0, elem_of_app. by left.
    + apply (mi_overlap0 (mkPub n msg (id :: rest))), elem_of_app. right. by left.
    + apply mi_overlap0, elem_of_app. right. by right.
  - unfold q'. destruct (has_room s); [|done].
    apply (order_snoc pub q (mkPub n msg (id :: rest))); [|intros; eapply mi_overlap0; [|done|done]|done].
    + intros. by apply mi_target0.
    + apply elem_of_app. right. by left.
  - intros id' s0 [[<- <-]|[Hne H0]]%lookup_insert_Some; unfold carried; cbn [published queued].
    + destruct (mi_carried0 id s Hs). by eapply carried_enqueue.
    + assert (delivered q' id' = delivered q id') as ->; [|by apply mi_carried0].
      unfold q'. destruct (has_room s); [|done]. rewrite delivered_snoc, decide_False by done. by rewrite app_nil_r.
Qed.

Lemma carried_deliver m id s s' : send_step s s' → carried m id s → carried m id s'.
Proof.
  intros Hstep [Hpre Hflow]. unfold carried, flow in *. destruct Hstep; cbn [sent messages running] in *.
  - rewrite <-Hflow by done. rewrite <-(assoc_L (++)). split; [|done]. apply prefix_app. by exists q.
  - done.
  - done.
  - done.
Qed.

Lemma m_inv_step m m' : m_inv m → m_step m m' → m_inv m'.
Proof.
  intros Hm Hstep. pose proof (mi_reg _ Hm) as Hr. destruct Hstep as [ps ps' pub q c ch E|ps ps' pub q c ch r E
    |ps ps' pub q c order Ho E|ps act pub q ch msg order Ho|ps ps' act1 act2 pub q n msg id rest ok E
    |ps act1 act2 pub q n msg|ps act pub q id s s' Hs Hsend]; cbn [reg] in Hr.
  - destruct (Subscribe_spec ps c ch Hr) as (? & E' & ? & ? & _). rewrite E in E'. simplify_eq. by eapply m_inv_quiet.
  - destruct (Unsubscribe_spec ps c ch Hr) as (? & ? & E' & ? & ? & _). rewrite E in E'. simplify_eq. by eapply m_inv_quiet.
  - destruct (RemoveConnection_spec ps c order Hr Ho) as (? & E' & ? & ? & _). rewrite E in E'. simplify_eq.
    by eapply m_inv_quiet.
  - by apply m_inv_begin.
  - by eapply m_inv_send.
  - destruct Hm. split; simpl in *; try done.
    + intros p Hp. apply (mi_active0 p). set_solver.
    + rewrite fmap_app, fmap_cons in *. apply NoDup_app in mi_nos0 as (? & Hd & [_ ?]%NoDup_cons).
      apply NoDup_app. split_and!; [done| |done]. intros x Hx Hx'. apply (Hd x Hx). by right.
    + intros p n' p' Hp. apply mi_overlap0. set_solver.
  - pose proof Hm as []. simpl in *. split; simpl; try done.
    + by eapply send_inv.
    + intros p Hp. destruct (mi_active0 p Hp) as (d & ov & ? & ? & Hrest). exists d, ov. split_and!; [done..|].
      intros id' Hid'. destruct (Hrest id' Hid') as (? & s0 & Hs0 & Ho). split; [done|]. cbn [reg subs with_subs].
      destruct (decide (id' = id)) as [->|]; [|rewrite lookup_insert_ne by done; eauto].
      rewrite lookup_insert_eq. eexists. split; [done|].
      assert (s0 = s) as -> by (cbn in Hs0; congruence). by destruct Hsend.
    + intros n id' Hin. destruct (mi_target0 n id' Hin) as [[s0 Hs0] ?]. split; [|done].
      destruct (decide (id' = id)) as [->|]; [rewrite lookup_insert_eq; eauto|by rewrite lookup_insert_ne, Hs0].
    + intros id' s0 [[<- <-]|[_ H0]]%lookup_insert_Some; [|by apply (mi_carried0 id')].
      apply (carried_deliver _ id s s' Hsend). by apply (mi_carried0 id).
Qed.

Lemma m_inv_reachable m : rtc m_step start m → m_inv m.
Proof.
  intros Hr. assert (∀ a b, rtc m_step a b → m_inv a → m_inv b) as H.
  { induction 1 as [|a b d Hab _ IH]; [done|]. intros Ha. apply IH. by eapply m_inv_step. }
  by eapply H; [|apply m_inv_start].
Qed.
(** Every publication was begun at a time when its order listed the subscribers of
    its channel. *)
Lemma published_begun m n p :
  rtc m_step start m → published m !! n = Some p →
  ∃ m0, rtc m_step start m0 ∧ rtc m_step m0 m ∧ publish_order (reg m0) (Channel (past_msg p)) (past_order p).
Proof.
  intros Hr. revert n p. revert m Hr. apply (rtc_ind_r (λ m, ∀ n p, published m !! n = Some p →
    ∃ m0, rtc m_step start m0 ∧ rtc m_step m0 m ∧ publish_order (reg m0) (Channel (past_msg p)) (past_order p))).
  { done. }
  intros m m' Hr Hstep IH n p Hp.
  assert (published m !! n = Some p ∨ publish_order (reg m) (Channel (past_msg p)) (past_order p)) as [Hold|Hnew].
  { destruct Hstep; cbn [published reg] in *; auto.
    apply lookup_app_Some in Hp as [?|[_ Hp]]; [by left|right].
    by apply list_lookup_singleton_Some in Hp as [_ <-]. }
  - destruct (IH n p Hold) as (m0 & ? & ? & ?). exists m0. split_and!; [done|by eapply rtc_r|done].
  - exists m. split_and!; [done|by apply rtc_once|done].
Qed.

(** A subscriber belongs to one connection for ever. *)
Lemma sub_conn_kept m m' id s :
  rtc m_step start m → rtc m_step m m' → subs (reg m) !! id = Some s →
  ∃ s', subs (reg m') !! id = Some s' ∧ sub_conn s' = sub_conn s.
Proof.
  intros Hm%m_inv_reachable Hr. revert s. induction Hr as [m|m m1 m2 Hstep _ IH]; intros s Hs; [eauto|].
  assert (∃ s1, subs (reg m1) !! id = Some s1 ∧ sub_conn s1 = sub_conn s) as (s1 & Hs1 & <-);
    [|by apply IH; [eapply m_inv_step|]].
  clear IH. pose proof (mi_reg _ Hm) as Hinv.
  assert (∀ ps ps', subs_quiet ps ps' → subs ps !! id = Some s →
    ∃ s1, subs ps' !! id = Some s1 ∧ sub_conn s1 = sub_conn s) as Hq.
  { intros ps ps' H Hps. specialize (H id). rewrite Hps in H. destruct (subs ps' !! id) as [s1|]; [|done].
    exists s1. split; [done|apply H]. }
  destruct Hstep as [ps ps' pub q c ch E|ps ps' pub q c ch r E|ps ps' pub q c order Ho E|
    |ps ps' act1 act2 pub q n msg id' rest ok E| |ps act pub q id' s0 s' Hs0 Hsend]; cbn [reg] in *; [..|eauto|].
  - destruct (Subscribe_spec ps c ch Hinv) as (? & E' & _ & ? & _). rewrite E in E'. simplify_eq. eauto.
  - destruct (Unsubscribe_spec ps c ch Hinv) as (? & ? & E' & _ & ? & _). rewrite E in E'. simplify_eq. eauto.
  - destruct (RemoveConnection_spec ps c order Hinv Ho) as (? & E' & _ & ? & _). rewrite E in E'. simplify_eq. eauto.
  - eauto.
  - destruct (mi_active _ Hm (mkPub n msg (id' :: rest))) as (d & ov & _ & _ & Hrest).
    { apply elem_of_app. right. by left. }
    destruct (Hrest id') as (_ & s0 & Hs0 & Hopen); [by left|]. cbn [reg] in Hs0.
    rewrite (try_send_spec ps id' msg s0 Hs0 Hopen) in E. injection E as <- <-. cbn [subs with_subs].
    destruct (decide (id = id')) as [->|]; [|rewrite lookup_insert_ne by done; eauto].
    rewrite lookup_insert_eq. eexists. split; [done|]. assert (s0 = s) as -> by congruence.
    unfold enqueue. by destruct (has_room s).
  - cbn [subs with_subs]. destruct (decide (id = id')) as [->|]; [|rewrite lookup_insert_ne by done; eauto].
    rewrite lookup_insert_eq. eexists. split; [done|]. assert (s0 = s) as -> by congruence. by destruct Hsend.
Qed.

(** In every state a send of a publication in progress is possible: none panics. *)
Theorem in_flight_never_panics m act1 act2 n msg id rest :
  rtc m_step start m → active m = act1 ++ mkPub n msg (id :: rest) :: act2 →
  ∃ ok ps', try_send (reg m) id msg = Ret (ok, ps').
Proof.
  intros Hm%m_inv_reachable Ha.
  destruct (mi_active _ Hm (mkPub n msg (id :: rest))) as (d & ov & _ & _ & Hrest).
  { rewrite Ha. apply elem_of_app. right. by left. }
  destruct (Hrest id) as (_ & s & Hs & Hopen); [by left|]. eexists _, _. by apply try_send_spec.
Qed.

(** [Publish] is a publication whose sends nothing interrupts. *)
Lemma sends_run ps act pub q n msg order count count' ps' :
  for_each (publish_step msg) (count, ps) order = Ret (count', ps') →
  ∃ q', rtc m_step (mkM ps (act ++ [mkPub n msg order]) pub q) (mkM ps' (act ++ [mkPub n msg []]) pub q').
Proof.
  revert ps q count. induction order as [|id order IH]; intros ps q count H; cbn [for_each] in H.
  { injection H as <- <-. eexists. apply rtc_refl. }
  cbn [publish_step] in H.
  destruct (try_send ps id msg) as [[ok ps1]| | |] eqn:E; [|discriminate H..].
  cbn [mbind outcome_bind mret outcome_ret] in H.
  destruct (IH _ (if ok then q ++ [(n, id)] else q) _ H) as (q' & Hrun). exists q'.
  eapply rtc_l; [|exact Hrun]. by apply m_send.
Qed.

Lemma publish_run ps act pub q ch msg order n ps' :
  publish_order ps ch order → Publish ps order ch msg = Ret (n, ps') →
  ∃ pub' q', rtc m_step (mkM ps act pub q) (mkM ps' act pub' q').
Proof.
  intros Ho H. set (m := {| Channel := ch; Content := msg |}).
  assert (for_each (publish_step m) (0%Z, ps) order = Ret (n, ps')) as Hloop.
  { revert H. unfold Publish. unfold publish_order in Ho. destruct (subscribers ps !! ch) as [set|]; simpl in Ho.
    - case_decide as E; [|done]. subst set. rewrite map_to_list_empty in Ho. by apply Permutation_nil_r in Ho as ->.
    - rewrite map_to_list_empty in Ho. by apply Permutation_nil_r in Ho as ->. }
  destruct (sends_run ps act (pub ++ [mkPast m order (pub_no <$> act)]) q (length pub) m order 0 n ps' Hloop)
    as (q' & Hrun).
  eexists _, q'. eapply rtc_l; [by apply m_begin|]. eapply rtc_r; [exact Hrun|].
  pose proof (m_end ps' act [] (pub ++ [mkPast m order (pub_no <$> act)]) q' (length pub) m) as Hend.
  rewrite app_nil_r in Hend. exact Hend.
Qed.

(** ** Claims *)

(** C24. What a subscriber gets, under any interleaving of publications, of the other
    calls and of the senders: there is a sequence of publications, none twice,
    each begun while the connection was subscribed to its channel, such that the
    bytes written are those of the first ones in order and, as long as the sender
    runs, the rest is queued; and a publication comes after one that was begun
    later only if the two overlapped. *)
Theorem delivery_fifo m id s :
  rtc m_step start m → subs (reg m) !! id = Some s →
  let ns := delivered (queued m) id in
  NoDup ns ∧
  (∀ n, n ∈ ns → ∃ p m0, published m !! n = Some p ∧ rtc m_step start m0 ∧ rtc m_step m0 m ∧
     view (reg m0) (Channel (past_msg p)) (sub_conn s) = Some id) ∧
  sent s `prefix_of` messages_of (published m) ns ∧
  (running s = true → sent s ++ messages s = messages_of (published m) ns) ∧
  (∀ l1 n' l2 n, ns = l1 ++ n' :: l2 → n ∈ l2 → (n < n')%nat →
     ∃ p', published m !! n' = Some p' ∧ n ∈ past_overlap p').
Proof.
  intros Hr Hs ns. pose proof (m_inv_reachable m Hr) as Hm. split_and!.
  - pose proof (mi_queued _ Hm) as Hnd. unfold ns, delivered. clear -Hnd.
    induction (queued m) as [|[n id'] q IH]; [constructor|]. apply NoDup_cons in Hnd as [Hin Hnd].
    cbn [omap list_omap snd fst]. case_decide; subst; [|by apply IH]. apply NoDup_cons. split; [|by apply IH].
    change (n ∉ delivered q id). by rewrite elem_of_delivered.
  - intros n Hn%elem_of_delivered. destruct (mi_target _ Hm n id Hn) as (_ & p & Hp & Hid).
    destruct (published_begun m n p Hr Hp) as (m0 & Hr0 & Hr1 & Ho). exists p, m0. split_and!; [done..|].
    pose proof (mi_reg _ (m_inv_reachable m0 Hr0)) as Hinv0.
    destruct (publish_order_open _ _ _ Hinv0 Ho) as (_ & _ & Hopen).
    destruct (Hopen id Hid) as (s0 & Hs0 & _ & Hv).
    destruct (sub_conn_kept m0 m id s0 Hr0 Hr1 Hs0) as (s' & Hs' & Hc). assert (s' = s) as -> by congruence.
    by rewrite Hc.
  - apply (mi_carried _ Hm id s Hs).
  - apply (mi_carried _ Hm id s Hs).
  - intros l1 n' l2 n Hns Hin Hn. destruct (delivered_split _ _ _ _ _ Hns) as (q1 & q2 & Hq & Hq2).
    eapply (mi_order _ Hm); [exact Hq| |done]. apply elem_of_delivered. by rewrite Hq2.
Qed.
(** Two publications that overlap: the second one reaches subscriber 2 first. *)
Definition news (text : string) : Message := {| Channel := "news"; Content := text |}.
Definition offer (ps : PubSub.PubSub) (id : subid) (msg : Message) : PubSub.PubSub :=
  match try_send ps id msg with Ret (_, ps') => ps' | _ => ps end.
Definition demo_reg : PubSub.PubSub :=
  offer (offer (offer (offer demo_ps 1%positive (news "a")) 2%positive (news "b")) 1%positive (news "b")) 2%positive (news "a").
Definition demo_machine : machine :=
  mkM demo_reg [mkPub 0 (news "a") []; mkPub 1 (news "b") []]
    [mkPast (news "a") [1; 2]%positive []; mkPast (news "b") [2; 1]%positive [0%nat]]
    [(0%nat, 1%positive); (1%nat, 2%positive); (1%nat, 1%positive); (0%nat, 2%positive)].

Lemma subscribe_run ps c ch pub q : rtc m_step (mkM ps [] pub q) (mkM (run_or ps (Subscribe ps c ch)) [] pub q).
Proof.
  destruct (Subscribe ps c ch) as [ps'| | |] eqn:E; simpl; [|apply rtc_refl..].
  apply rtc_once. by eapply m_subscribe.
Qed.

Lemma demo_news_order order : order = [1; 2]%positive ∨ order = [2; 1]%positive → publish_order demo_ps "news" order.
Proof.
  intros Ho. unfold publish_order. transitivity [2; 1]%positive.
  - destruct Ho as [-> | ->]; [apply Permutation_swap|done].
  - apply reflexive_eq. by vm_compute.
Qed.

Lemma demo_machine_reachable : rtc m_step start demo_machine.
Proof.
  assert (rtc m_step start (mkM demo_ps [] [] [])) as H.
  { etrans; [apply subscribe_run|]. etrans; [apply subscribe_run|]. apply subscribe_run. }
  etrans; [exact H|]. clear H.
  eapply rtc_l; [apply (m_begin _ _ _ _ "news" "a" [1; 2]%positive), demo_news_order; by left|].
  eapply rtc_l; [apply (m_begin _ _ _ _ "news" "b" [2; 1]%positive), demo_news_order; by right|].
  eapply rtc_l; [apply (m_send _ (offer demo_ps 1%positive (news "a")) [] _ _ _ _ _ _ _ true); by vm_compute|].
  eapply rtc_l; [apply (m_send _ (offer (offer demo_ps 1%positive (news "a")) 2%positive (news "b")) [_] _ _ _ _ _ _ _ true);
    by vm_compute|].
  eapply rtc_l; [apply (m_send _ (offer (offer (offer demo_ps 1%positive (news "a")) 2%positive (news "b")) 1%positive (news "b")) [_] _ _ _ _ _ _ _ true);
    by vm_compute|].
  eapply rtc_l; [apply (m_send _ demo_reg [] _ _ _ _ _ _ _ true); by vm_compute|].
  apply rtc_refl.
Qed.

Definition demo_subscriber : Subscriber := mkSub 2%Z [news "b"; news "a"] false false true [].

Lemma delivery_fifo_witness :
  let ns := [1; 0]%nat in
  NoDup ns ∧
  (∀ n, n ∈ ns → ∃ p m0, published demo_machine !! n = Some p ∧ rtc m_step start m0 ∧ rtc m_step m0 demo_machine ∧
     view (reg m0) (Channel (past_msg p)) 2%Z = Some 2%positive) ∧
  sent demo_subscriber `prefix_of` messages_of (published demo_machine) ns ∧
  (running demo_subscriber = true →
     sent demo_subscriber ++ messages demo_subscriber = messages_of (published demo_machine) ns) ∧
  (∀ l1 n' l2 n, ns = l1 ++ n' :: l2 → n ∈ l2 → (n < n')%nat →
     ∃ p', published demo_machine !! n' = Some p' ∧ n ∈ past_overlap p').
Proof.
  apply (delivery_fifo demo_machine 2%positive demo_subscriber).
  - apply demo_machine_reachable.
  - by vm_compute.
Defined.
End Delivery.
