(* ===== verification/Health.v ===== *)
(** * internal/cluster/health.go: the failure detector

    A [*NodeHealth] is a key of the store [nodes]: [checkAllNodes] works on the
    pointers it collected while the map may change under it.  The callbacks run
    in goroutines of their own; [callbacks] is the sequence of those started.
    What the network answers to a ping is an input of [checkNode]. *)

From S2P Require Import Prelude GoStd Resp.
Local Open Scope Z_scope.

Module Health.

Inductive NodeStatus := NodeStatusAlive | NodeStatusSuspected | NodeStatusDead.

#[export] Instance NodeStatus_eq_dec : EqDecision NodeStatus.
Proof. solve_decision. Defined.

Definition NodeStatus_String (ns : NodeStatus) : string :=
  match ns with
  | NodeStatusAlive => "alive"
  | NodeStatusSuspected => "suspected"
  | NodeStatusDead => "dead"
  end.

Record NodeHealth := mkNode {
  NodeID : string;
  Address : string;
  Status : NodeStatus;
  LastSuccessfulPing : Z;
  LastFailedPing : Z;
  ConsecutiveFailures : Z;
  ConsecutiveSuccesses : Z
}.

Definition nodeptr := positive.

Inductive callback := onNodeFailed (nodeID : string) | onNodeRecovered (nodeID : string).

Record HealthChecker := mkHC {
  nodeHealth : gmap string nodeptr;
  nodes : gmap nodeptr NodeHealth;
  next_node : nodeptr;
  checkInterval : Z;
  failureThreshold : Z;
  timeout : Z;
  hasCallbacks : bool;
  callbacks : list callback
}.

Definition NewHealthChecker (checkInterval failureThreshold timeout : Z) : HealthChecker :=
  mkHC ∅ ∅ 1%positive checkInterval failureThreshold timeout false [].

Definition SetCallbacks (hc : HealthChecker) : HealthChecker :=
  mkHC (nodeHealth hc) (nodes hc) (next_node hc) (checkInterval hc) (failureThreshold hc)
    (timeout hc) true (callbacks hc).

Definition RegisterNode (hc : HealthChecker) (nodeID address : string) (now : Z) : HealthChecker :=
  match nodeHealth hc !! nodeID with
  | Some _ => hc
  | None =>
      let p := next_node hc in
      mkHC (<[nodeID := p]> (nodeHealth hc))
        (<[p := mkNode nodeID address NodeStatusAlive now 0 0 1]> (nodes hc)) (p + 1)%positive
        (checkInterval hc) (failureThreshold hc) (timeout hc) (hasCallbacks hc) (callbacks hc)
  end.

Definition UnregisterNode (hc : HealthChecker) (nodeID : string) : HealthChecker :=
  mkHC (delete nodeID (nodeHealth hc)) (nodes hc) (next_node hc) (checkInterval hc)
    (failureThreshold hc) (timeout hc) (hasCallbacks hc) (callbacks hc).

(** What a node answers: nothing (no connection, or the write fails), or the
    bytes that arrive before the deadline. *)
Definition answer := option string.

(** [pingNode]: the request it writes, and the verdict on the answer. *)
Definition ping_request : outcome string := EncodeArray [VStr "PING"].

Definition pingNode (a : answer) : outcome (gres string ()) :=
  match a with
  | None => mret (GErr "connection failed")
  | Some bytes =>
      _ ← ping_request;
      '(response, _) ← parse bytes;
      match response with
      | GErr _ => mret (GErr "read failed")
      | GOk (VStr str) =>
          if decide (str = "PONG") then mret (GOk ())
          else mret (GErr ("unexpected response: " +:+ str))
      | GOk _ => mret (GErr "invalid response type")
      end
  end.

(** The update of one node, and the callback it starts. *)
Definition node_failed (threshold now : Z) (n : NodeHealth) : NodeHealth * list callback :=
  let failures := wrap64 (ConsecutiveFailures n + 1) in
  let previousStatus := Status n in
  let status := if threshold <=? failures then NodeStatusDead
                else if 0 <? failures then NodeStatusSuspected else Status n in
  (mkNode (NodeID n) (Address n) status (LastSuccessfulPing n) now failures 0,
   if decide (previousStatus ≠ NodeStatusDead ∧ status = NodeStatusDead)
   then [onNodeFailed (NodeID n)] else []).

Definition node_succeeded (now : Z) (n : NodeHealth) : NodeHealth * list callback :=
  let previousStatus := Status n in
  (mkNode (NodeID n) (Address n) NodeStatusAlive now (LastFailedPing n) 0
     (wrap64 (ConsecutiveSuccesses n + 1)),
   if decide (previousStatus = NodeStatusDead) then [onNodeRecovered (NodeID n)] else []).

Definition checkNode (hc : HealthChecker) (p : nodeptr) (a : answer) (now : Z) :
    outcome HealthChecker :=
  n ← or_panic (nodes hc !! p);
  err ← pingNode a;
  let '(n', cbs) := match err with
                    | GErr _ => node_failed (failureThreshold hc) now n
                    | GOk _ => node_succeeded now n
                    end in
  mret (mkHC (nodeHealth hc) (<[p := n']> (nodes hc)) (next_node hc) (checkInterval hc)
          (failureThreshold hc) (timeout hc) (hasCallbacks hc)
          (if hasCallbacks hc then callbacks hc ++ cbs else callbacks hc)).

(** [order] lists the registered nodes as the range loop visits them, with what
    each of them answers and the clock at that time. *)
Definition checkAllNodes (hc : HealthChecker) (order : list (nodeptr * answer * Z)) :
    outcome HealthChecker :=
  for_each (λ hc '(p, a, now), checkNode hc p a now) hc order.

Definition IsNodeHealthy (hc : HealthChecker) (nodeID : string) : outcome bool :=
  match nodeHealth hc !! nodeID with
  | None => mret false
  | Some p => n ← or_panic (nodes hc !! p); mret (bool_decide (Status n = NodeStatusAlive))
  end.

Definition GetHealthyNodes (hc : HealthChecker) (order : list (string * nodeptr)) :
    outcome (list string) :=
  for_each (λ healthy '(nodeID, p),
    n ← or_panic (nodes hc !! p);
    mret (if decide (Status n = NodeStatusAlive) then healthy ++ [nodeID] else healthy)) [] order.

Definition GetNodeStatus (hc : HealthChecker) (nodeID : string) : outcome NodeStatus :=
  match nodeHealth hc !! nodeID with
  | None => mret NodeStatusDead
  | Some p => n ← or_panic (nodes hc !! p); mret (Status n)
  end.

(** [GetAllNodeStatus]: a map of fresh copies, so a value per node. *)
Definition GetAllNodeStatus (hc : HealthChecker) (order : list (string * nodeptr)) :
    outcome (gmap string NodeHealth) :=
  for_each (λ statusCopy '(nodeID, p),
    health ← or_panic (nodes hc !! p);
    mret (<[nodeID := health]> statusCopy)) ∅ order.

(** ** The verdict of a ping *)

(** A ping succeeds exactly when the answer starts with a string reply PONG,
    as a simple string, a bulk string or (the parser does not keep them apart)
    an error; whatever follows is ignored. *)
Lemma pingNode_ok a :
  pingNode a = Ret (GOk ()) ↔
  ∃ bytes rest, a = Some bytes ∧ parse bytes = Ret (GOk (VStr "PONG"), rest).
Proof.
  split.
  - destruct a as [bytes|]; simpl; [|done].
    destruct (parse bytes) as [[[v|e] rest]| | |] eqn:E; simpl; try done.
    destruct v as [str| | | |]; simpl; try done. case_decide; [|done]. intros _. subst. eauto.
  - intros (bytes & rest & -> & E). simpl. by rewrite E.
Qed.

Lemma ping_roundtrip rest : pingNode (Some (EncodeSimpleString "PONG" +:+ rest)) = Ret (GOk ()).
Proof.
  apply pingNode_ok. eexists _, rest. split; [done|]. by apply Parse_line_replies.
Qed.

(** ** The state machine of one node *)

(** The number of failed pings since the last successful one. *)
Fixpoint trailing_failures (pings : list bool) : Z :=
  match pings with
  | [] => 0
  | ok :: pings =>
      if forallb negb (ok :: pings) then Z.of_nat (length (ok :: pings))
      else trailing_failures pings
  end.

Definition run_ping (threshold : Z) (st : NodeHealth * list callback) (ping : bool * Z) :
    NodeHealth * list callback :=
  let '(n', cbs) := if ping.1 then node_succeeded ping.2 st.1
                    else node_failed threshold ping.2 st.1 in
  (n', st.2 ++ cbs).

Definition run_pings (threshold : Z) (n : NodeHealth) (pings : list (bool * Z)) :
    NodeHealth * list callback :=
  foldl (run_ping threshold) (n, []) pings.

(** The status the documentation promises for a number of missed pings. *)
Definition status_of (threshold failures : Z) : NodeStatus :=
  if failures =? 0 then NodeStatusAlive
  else if failures <? threshold then NodeStatusSuspected else NodeStatusDead.

Lemma trailing_snoc_true pings : trailing_failures (pings ++ [true]) = 0.
Proof.
  induction pings as [|p pings IH]; [done|]. cbn [app trailing_failures].
  assert (forallb negb (p :: pings ++ [true]) = false) as ->; [|done].
  simpl. rewrite forallb_app. simpl. by rewrite !andb_false_r.
Qed.

Lemma trailing_snoc_false pings :
  trailing_failures (pings ++ [false]) = trailing_failures pings + 1.
Proof.
  induction pings as [|p pings IH]; [done|]. cbn [app trailing_failures].
  assert (forallb negb (p :: pings ++ [false]) = forallb negb (p :: pings)) as ->.
  { simpl. rewrite forallb_app. simpl. by rewrite !andb_true_r. }
  destruct (forallb negb (p :: pings)); [|done]. simpl. rewrite length_app. simpl. lia.
Qed.

Lemma trailing_bounds pings : 0 ≤ trailing_failures pings ≤ Z.of_nat (length pings).
Proof. induction pings as [|p pings IH]; [done|]. cbn [trailing_failures]. case_match; simpl in *; lia. Qed.

(** The callbacks alternate, a failure first, and the last one tells whether the
    node is dead now. *)
Fixpoint alternating (id : string) (dead : bool) (cbs : list callback) : bool :=
  match cbs with
  | [] => true
  | onNodeFailed i :: cbs => bool_decide (i = id) && negb dead && alternating id true cbs
  | onNodeRecovered i :: cbs => bool_decide (i = id) && dead && alternating id false cbs
  end.

Definition ends_dead (cbs : list callback) : bool :=
  match last cbs with Some (onNodeFailed _) => true | _ => false end.

Lemma alternating_snoc id dead cbs cb :
  alternating id dead cbs = true →
  (let now := match last cbs with
              | None => dead | Some (onNodeFailed _) => true | Some (onNodeRecovered _) => false end in
   match cb with
   | onNodeFailed i => i = id ∧ now = false
   | onNodeRecovered i => i = id ∧ now = true
   end) →
  alternating id dead (cbs ++ [cb]) = true.
Proof.
  revert dead. induction cbs as [|x cbs IH]; intros dead Ha Hcb.
  { destruct cb; simpl in *; destruct Hcb as [-> ->]; by rewrite bool_decide_eq_true_2. }
  assert (last (x :: cbs) = match last cbs with None => Some x | o => o end) as Hl.
  { rewrite last_cons. by destruct (last cbs). }
  rewrite Hl in Hcb. clear Hl.
  destruct x; simpl in Ha; apply andb_true_iff in Ha as [Hx Ha]; simpl; rewrite Hx; simpl;
    (apply IH; [done|]); destruct (last cbs) as [[]|], cb; done.
Qed.

(** What a history of pings makes of a freshly registered node. *)
Record node_tracks (threshold : Z) (n0 n : NodeHealth) (cbs : list callback) (pings : list bool) :
    Prop := {
  tr_id : NodeID n = NodeID n0 ∧ Address n = Address n0;
  tr_failures : ConsecutiveFailures n = trailing_failures pings;
  tr_status : Status n = status_of threshold (trailing_failures pings);
  tr_alternate : alternating (NodeID n0) false cbs = true;
  tr_last : ends_dead cbs = bool_decide (Status n = NodeStatusDead)
}.

Lemma ends_dead_snoc cbs cb :
  ends_dead (cbs ++ [cb]) = match cb with onNodeFailed _ => true | _ => false end.
Proof. unfold ends_dead. by rewrite last_snoc. Qed.

Lemma ends_dead_now cbs :
  match last cbs with
  | None => false | Some (onNodeFailed _) => true | Some (onNodeRecovered _) => false end
  = ends_dead cbs.
Proof. unfold ends_dead. by destruct (last cbs) as [[]|]. Qed.

Lemma node_tracks_failed threshold n0 n cbs pings now :
  1 ≤ threshold → Z.of_nat (length pings) + 1 < two63 →
  node_tracks threshold n0 n cbs pings →
  let '(n', new) := node_failed threshold now n in
  node_tracks threshold n0 n' (cbs ++ new) (pings ++ [false]).
Proof.
  intros Ht Hlen [[Hid Ha] Hf Hs Halt Hlast]. pose proof (trailing_bounds pings) as Hb.
  assert (wrap64 (ConsecutiveFailures n + 1) = trailing_failures (pings ++ [false])) as Hw.
  { rewrite trailing_snoc_false, Hf. apply wrap64_small. unfold int64_range, two63 in *. lia. }
  unfold node_failed. rewrite Hw, trailing_snoc_false.
  set (f := trailing_failures pings) in *.
  assert ((if threshold <=? f + 1 then NodeStatusDead
           else if 0 <? f + 1 then NodeStatusSuspected else Status n)
          = status_of threshold (f + 1)) as ->.
  { unfold status_of. destruct (Z.leb_spec threshold (f + 1)), (Z.ltb_spec 0 (f + 1)),
      (Z.eqb_spec (f + 1) 0), (Z.ltb_spec (f + 1) threshold); (lia || done). }
  destruct (decide (Status n ≠ NodeStatusDead ∧ status_of threshold (f + 1) = NodeStatusDead))
    as [[Hd1 Hd2]|Hd].
  - split; simpl; rewrite ?trailing_snoc_false; try done.
    + apply alternating_snoc; [done|]. rewrite ends_dead_now. split; [done|].
      rewrite Hlast. by apply bool_decide_eq_false_2.
    + rewrite ends_dead_snoc. symmetry. by apply bool_decide_eq_true_2.
  - rewrite app_nil_r. split; simpl; rewrite ?trailing_snoc_false; try done.
    rewrite Hlast. apply bool_decide_ext. split.
    + intros E. rewrite Hs in E. revert E. unfold status_of, f in *.
      destruct (Z.eqb_spec (trailing_failures pings) 0), (Z.eqb_spec (trailing_failures pings + 1) 0),
        (Z.ltb_spec (trailing_failures pings) threshold),
        (Z.ltb_spec (trailing_failures pings + 1) threshold); (lia || done).
    + intros E. destruct (decide (Status n = NodeStatusDead)); [done|]. by destruct Hd.
Qed.

Lemma node_tracks_succeeded threshold n0 n cbs pings now :
  node_tracks threshold n0 n cbs pings →
  let '(n', new) := node_succeeded now n in
  node_tracks threshold n0 n' (cbs ++ new) (pings ++ [true]).
Proof.
  intros [[Hid Ha] Hf Hs Halt Hlast]. unfold node_succeeded. case_decide as Hd.
  - split; simpl; rewrite ?trailing_snoc_true; try done.
    + apply alternating_snoc; [done|]. rewrite ends_dead_now. split; [done|].
      rewrite Hlast. by apply bool_decide_eq_true_2.
    + by rewrite ends_dead_snoc.
  - rewrite app_nil_r. split; simpl; rewrite ?trailing_snoc_true; try done.
Qed.

Lemma run_pings_tracks threshold id addr t0 pings :
  1 ≤ threshold → Z.of_nat (length pings) < two63 →
  let n0 := mkNode id addr NodeStatusAlive t0 0 0 1 in
  node_tracks threshold n0 (run_pings threshold n0 pings).1
    (run_pings threshold n0 pings).2 pings.*1.
Proof.
  intros Ht Hlen n0. revert Hlen. induction pings as [|[ok now] pings IH] using rev_ind; intros Hlen; [by split|].
  rewrite length_app in Hlen. simpl in Hlen.
  specialize (IH ltac:(lia)). unfold run_pings in *. rewrite foldl_app, fmap_app. cbn [foldl].
  destruct (foldl (run_ping threshold) (n0, []) pings) as [n cbs]. unfold run_ping. simpl in *.
  destruct ok.
  - by apply (node_tracks_succeeded threshold n0 n cbs pings.*1 now).
  - apply (node_tracks_failed threshold n0 n cbs pings.*1 now); [done| |done].
    rewrite length_fmap. lia.
Qed.

Example health_demo :
  (run_pings 3 (mkNode "n2" "a" NodeStatusAlive 5 0 0 1)
     [(false, 10); (false, 15); (false, 20); (false, 25); (true, 30)]).2
  = [onNodeFailed "n2"; onNodeRecovered "n2"].
Proof. by vm_compute. Qed.

(** [checkNode] applies that machine to its node, with the verdict of the ping,
    and to no other node. *)
Lemma checkNode_spec hc p n a now :
  nodes hc !! p = Some n →
  match pingNode a with
  | Ret r =>
      ∃ hc', checkNode hc p a now = Ret hc' ∧
      (∀ q, q ≠ p → nodes hc' !! q = nodes hc !! q) ∧
      nodeHealth hc' = nodeHealth hc ∧
      ∃ n' cbs, run_ping (failureThreshold hc) (n, []) (match r with GOk _ => true | GErr _ => false end, now)
        = (n', cbs) ∧ nodes hc' !! p = Some n' ∧
        callbacks hc' = if hasCallbacks hc then callbacks hc ++ cbs else callbacks hc
  | _ => checkNode hc p a now = pingNode a ≫= λ _, Ret hc
  end.
Proof.
  intros Hn. unfold checkNode. rewrite Hn. cbn [or_panic mbind outcome_bind].
  destruct (pingNode a) as [[u|e]| | |]; cbn [mbind outcome_bind]; try done.
  - unfold run_ping. simpl. eexists. split; [reflexivity|]. simpl. split_and!; [|done|].
    { intros q Hq. by rewrite lookup_insert_ne. }
    eexists _, _. split; [reflexivity|]. split; [by rewrite lookup_insert_eq|done].
  - unfold run_ping. cbn [fst snd]. destruct (node_failed (failureThreshold hc) now n) as [n' cbs] eqn:E.
    eexists. split; [reflexivity|]. simpl. split_and!; [|done|].
    { intros q Hq. by rewrite lookup_insert_ne. }
    eexists _, _. split; [reflexivity|]. split; [by rewrite lookup_insert_eq|done].
Qed.

(** The verdict on an answer, when the parser survives it. *)
Definition ping_ok (a : answer) : option bool :=
  match pingNode a with
  | Ret (GOk _) => Some true
  | Ret (GErr _) => Some false
  | _ => None
  end.

Definition check_history (hc : HealthChecker) (p : nodeptr) (checks : list (answer * Z)) :
    outcome HealthChecker :=
  for_each (λ hc '(a, now), checkNode hc p a now) hc checks.

Definition verdicts (checks : list (answer * Z)) : list (bool * Z) :=
  (λ c, (default false (ping_ok c.1), c.2)) <$> checks.

Lemma run_ping_prefix threshold n cbs0 ping :
  run_ping threshold (n, cbs0) ping =
  ((run_ping threshold (n, []) ping).1, cbs0 ++ (run_ping threshold (n, []) ping).2).
Proof. unfold run_ping. simpl. by destruct ping.1. Qed.

(** A sequence of checks of one node is a run of its state machine. *)
Lemma check_history_run hc p n checks :
  nodes hc !! p = Some n → hasCallbacks hc = true →
  Forall (λ c, is_Some (ping_ok c.1)) checks →
  ∃ hc', check_history hc p checks = Ret hc' ∧ nodeHealth hc' = nodeHealth hc ∧
    let '(n', cbs) := foldl (run_ping (failureThreshold hc)) (n, callbacks hc) (verdicts checks) in
    nodes hc' !! p = Some n' ∧ callbacks hc' = cbs.
Proof.
  intros Hn Hcb Hall. revert hc n Hn Hcb.
  induction Hall as [|[a now] checks [ok Hok] _ IH]; intros hc n Hn Hcb; [by exists hc|].
  simpl in Hok. pose proof (checkNode_spec hc p n a now Hn) as Hspec.
  unfold ping_ok in Hok. destruct (pingNode a) as [r| | |] eqn:Ep; try done.
  destruct Hspec as (hc1 & Hc1 & _ & Hh & n1 & cbs1 & Hrun & Hn1 & Hcbs1). rewrite Hcb in Hcbs1.
  assert (failureThreshold hc1 = failureThreshold hc ∧ hasCallbacks hc1 = true) as [Ht Hcb1].
  { revert Hc1. unfold checkNode. rewrite Hn, Ep. simpl.
    destruct r; [|destruct (node_failed (failureThreshold hc) now n)]; by intros [= <-]. }
  destruct (IH hc1 n1 Hn1 Hcb1) as (hc' & Hret & Hh' & Hfold). exists hc'.
  unfold check_history in *. cbn [for_each]. rewrite Hc1. cbn [mbind outcome_bind].
  split; [done|]. split; [congruence|]. cbn [verdicts fmap list_fmap foldl fst snd].
  unfold ping_ok at 1. rewrite Ep, run_ping_prefix. rewrite Ht, Hcbs1 in Hfold.
  assert ((run_ping (failureThreshold hc) (n, []) (default false
    match r with GOk _ => Some true | GErr _ => Some false end, now)) = (n1, cbs1)) as ->.
  { by destruct r. }
  exact Hfold.
Qed.

(** C38. The failure detector is the documented state machine: after any history of
    pings a registered node is alive, suspected or dead according to the number
    of pings missed since the last answer, whatever happened before; the
    callbacks it starts alternate between failed and recovered, beginning with
    failed, and the last one agrees with the status, so no failure is reported
    twice and no recovery is missed. *)
Theorem health_state_machine hc id addr t0 checks :
  nodeHealth hc !! id = None → hasCallbacks hc = true → callbacks hc = [] →
  1 ≤ failureThreshold hc → Z.of_nat (length checks) < two63 →
  Forall (λ c, is_Some (ping_ok c.1)) checks →
  let missed := trailing_failures (verdicts checks).*1 in
  ∃ hc', check_history (RegisterNode hc id addr t0) (next_node hc) checks = Ret hc' ∧
    GetNodeStatus hc' id = Ret (status_of (failureThreshold hc) missed) ∧
    IsNodeHealthy hc' id = Ret (bool_decide (missed = 0)) ∧
    alternating id false (callbacks hc') = true ∧
    ends_dead (callbacks hc') =
      bool_decide (status_of (failureThreshold hc) missed = NodeStatusDead).
Proof.
  intros Hnew Hcb Hnil Ht Hlen Hall missed. unfold RegisterNode. rewrite Hnew.
  set (hc1 := mkHC _ _ _ _ _ _ _ _). set (n0 := mkNode id addr NodeStatusAlive t0 0 0 1).
  assert (nodes hc1 !! next_node hc = Some n0) as Hn0 by apply lookup_insert_eq.
  destruct (check_history_run hc1 (next_node hc) n0 checks Hn0 Hcb Hall) as (hc' & Hret & Hh & Hfold).
  pose proof (run_pings_tracks (failureThreshold hc) id addr t0 (verdicts checks) Ht) as Htr.
  cbn zeta in Htr. fold n0 in Htr. unfold run_pings in Htr.
  simpl callbacks in Hfold. simpl failureThreshold in Hfold. rewrite Hnil in Hfold.
  destruct (foldl (run_ping (failureThreshold hc)) (n0, []) (verdicts checks)) as [n cbs].
  destruct Hfold as [Hn Hcbs].
  destruct Htr as [_ _ Hs Halt Hlast]; [unfold verdicts; by rewrite length_fmap|]. simpl in *.
  assert (nodeHealth hc' !! id = Some (next_node hc)) as Hid.
  { rewrite Hh. simpl. apply lookup_insert_eq. }
  exists hc'. unfold GetNodeStatus, IsNodeHealthy. rewrite Hid, Hn. cbn [or_panic mbind outcome_bind].
  fold missed in Hs. rewrite Hcbs, <-Hs. split_and!; [done|done| |done|done].
  unfold mret, outcome_ret. f_equal. apply bool_decide_ext. rewrite Hs. unfold status_of.
  destruct (Z.eqb_spec missed 0); [done|]. by destruct (missed <? _).
Qed.

Lemma health_state_machine_witness :
  let hc := SetCallbacks (NewHealthChecker 5000000000 3 2000000000) in
  let checks := [(None, 10); (Some (EncodeError "LOADING"), 15); (None, 20);
                 (Some (EncodeSimpleString "PONG"), 25); (None, 30)] in
  let missed := trailing_failures (verdicts checks).*1 in
  ∃ hc', check_history (RegisterNode hc "n2" "10.0.0.2:7000" 5) (next_node hc) checks = Ret hc' ∧
    GetNodeStatus hc' "n2" = Ret (status_of (failureThreshold hc) missed) ∧
    IsNodeHealthy hc' "n2" = Ret (bool_decide (missed = 0)) ∧
    alternating "n2" false (callbacks hc') = true ∧
    ends_dead (callbacks hc') =
      bool_decide (status_of (failureThreshold hc) missed = NodeStatusDead).
Proof.
  intros hc checks missed. apply (health_state_machine hc "n2" "10.0.0.2:7000" 5 checks).
  - reflexivity.
  - reflexivity.
  - reflexivity.
  - by vm_compute.
  - by vm_compute.
  - repeat (constructor; [vm_compute; eexists; reflexivity|]). constructor.
Defined.
End Health.
