(* ===== verification/ReplProtocol.v ===== *)
(** * internal/replication/protocol.go: messages between leader and followers

    The three messages, their encoders and decoders.  A pointer argument that may
    be nil is an [option].  Where the code formats an error with the Go value it
    met, the model keeps the fixed part of the text. *)

From S2P Require Import Prelude GoStd Resp.
Local Open Scope Z_scope.

Module ReplProtocol.

Definition OpSet : string := "SET".
Definition OpDelete : string := "DELETE".
Definition CmdSync : string := "SYNC".
Definition CmdReplicate : string := "REPLICATE".
Definition CmdHeartbeat : string := "HEARTBEAT".
Definition CmdSyncEnd : string := "SYNCEND".

Record SyncRequest := mkSync { FollowerID : string; LastSeqNum : Z }.

Record ReplicateCommand := mkRepl {
  SeqNum : Z; Operation : string; Key : string; Value : string; TTL : Z
}.

Record HeartbeatCommand := mkBeat { hb_SeqNum : Z; hb_NodeID : string }.

(** ** Encoders *)

Definition EncodeSyncRequest (req : option SyncRequest) : outcome (gres string string) :=
  match req with
  | None => mret (GErr "request cannot be nil")
  | Some req =>
      GOk <$> EncodeArray [VStr CmdSync; VStr (FollowerID req); VInt64 (LastSeqNum req)]
  end.

Definition EncodeReplicateCommand (comm : option ReplicateCommand) : outcome (gres string string) :=
  match comm with
  | None => mret (GErr "command cannot be nil")
  | Some comm =>
      if decide (Operation comm = OpSet) then
        GOk <$> EncodeArray [VStr CmdReplicate; VInt64 (SeqNum comm); VStr (Operation comm);
                             VStr (Key comm); VStr (Value comm); VInt64 (TTL comm)]
      else if decide (Operation comm = OpDelete) then
        GOk <$> EncodeArray [VStr CmdReplicate; VInt64 (SeqNum comm); VStr (Operation comm);
                             VStr (Key comm)]
      else mret (GErr ("invalid operation: " +:+ Operation comm))
  end.

Definition EncodeHeartbeatCommand (req : option HeartbeatCommand) : outcome (gres string string) :=
  match req with
  | None => mret (GErr "command cannot be nil")
  | Some req =>
      GOk <$> EncodeArray [VStr CmdHeartbeat; VInt64 (hb_SeqNum req); VStr (hb_NodeID req)]
  end.

Definition EncodeSyncEnd (seqNum : Z) : outcome string :=
  EncodeArray [VStr CmdSyncEnd; VInt64 seqNum].

(** ** Decoders *)

(** A sequence number in either form. *)
Definition seq_of (v : value) : gres perr Z :=
  match v with
  | VInt n => GOk n
  | VStr s => match ParseInt s with
              | Some n => GOk n
              | None => GErr (ErrMsg "invalid sequence number")
              end
  | _ => GErr (ErrMsg "sequence number must be int or string")
  end.

Definition str_of (v : value) : option string :=
  match v with VStr s => Some s | _ => None end.

(** Read one value and interpret it when it is an array. *)
Definition decode_array {A} (k : list value → outcome (gres perr A)) (reader : string) :
    outcome (pres A) :=
  '(value, reader) ← parse reader;
  match value with
  | GErr e => mret (GErr e, reader)
  | GOk (VSlice arr) => r ← k arr; mret (r, reader)
  | GOk _ => mret (GErr (ErrMsg "expected array"), reader)
  end.

Definition length_error (n : nat) : perr :=
  ErrMsg ("expected length of array to be 3, got " +:+ Itoa (Z.of_nat n)).

Definition sync_fields (arr : list value) : outcome (gres perr SyncRequest) :=
  match arr with
  | [v0; v1; v2] =>
      mret (if decide (str_of v0 = Some CmdSync) then
        match str_of v1 with
        | None => GErr (ErrMsg "invalid follower ID")
        | Some followerID =>
            match seq_of v2 with
            | GErr e => GErr e
            | GOk lastSeqNum => GOk (mkSync followerID lastSeqNum)
            end
        end
      else GErr (ErrMsg "expected SYNC command"))
  | _ => mret (GErr (length_error (length arr)))
  end.

Definition DecodeSyncRequest (reader : string) : outcome (pres SyncRequest) :=
  decode_array sync_fields reader.

(** The last part of [DecodeReplicateCommand], after the four common fields. *)
Definition replicate_tail (arr : list value) (seqNum : Z) (operation key : string) :
    gres perr ReplicateCommand :=
  if decide (operation = OpSet) then
    match arr with
    | [_; _; _; _; v4; v5] =>
        match str_of v4 with
        | None => GErr (ErrMsg "expected value to be a string")
        | Some value =>
            match v5 with
            | VInt ttl | VInt64 ttl => GOk (mkRepl seqNum operation key value ttl)
            | _ => GErr (ErrMsg "expected ttl to be an integer")
            end
        end
    | _ => GErr (ErrMsg ("SET operation requires 6 elements, got "
                         +:+ Itoa (Z.of_nat (length arr))))
    end
  else
    match arr with
    | [_; _; _; _] => GOk (mkRepl seqNum operation key "" 0)
    | _ => GErr (ErrMsg ("DELETE operation requires 4 elements, got "
                         +:+ Itoa (Z.of_nat (length arr))))
    end.

(** The fields are read one by one: an array that is too short panics at the
    first index out of range. *)
Definition replicate_fields (arr : list value) : outcome (gres perr ReplicateCommand) :=
  v0 ← or_panic (arr !! 0%nat);
  if decide (str_of v0 = Some CmdReplicate) then
    v1 ← or_panic (arr !! 1%nat);
    match seq_of v1 with
    | GErr e => mret (GErr e)
    | GOk seqNum =>
        v2 ← or_panic (arr !! 2%nat);
        match str_of v2 with
        | Some operation =>
            if decide (operation = OpSet ∨ operation = OpDelete) then
              v3 ← or_panic (arr !! 3%nat);
              match str_of v3 with
              | None => mret (GErr (ErrMsg "expected key to be a string"))
              | Some key => mret (replicate_tail arr seqNum operation key)
              end
            else mret (GErr (ErrMsg "expected operation to be SET or DELETE"))
        | None => mret (GErr (ErrMsg "expected operation to be SET or DELETE"))
        end
    end
  else mret (GErr (ErrMsg "expected REPLICATE command")).

Definition DecodeReplicateCommand (reader : string) : outcome (pres ReplicateCommand) :=
  decode_array replicate_fields reader.

Definition heartbeat_fields (arr : list value) : outcome (gres perr HeartbeatCommand) :=
  match arr with
  | [v0; v1; v2] =>
      mret (if decide (str_of v0 = Some CmdHeartbeat) then
        match seq_of v1 with
        | GErr e => GErr e
        | GOk seqNum =>
            match str_of v2 with
            | None => GErr (ErrMsg "expected nodeID to be a string")
            | Some nodeID => GOk (mkBeat seqNum nodeID)
            end
        end
      else GErr (ErrMsg "expected HEARTBEAT command"))
  | _ => mret (GErr (length_error (length arr)))
  end.

Definition DecodeHeartbeatCommand (reader : string) : outcome (pres HeartbeatCommand) :=
  decode_array heartbeat_fields reader.

Definition ParseInt64 (v : value) : option Z :=
  match v with
  | VInt n | VInt64 n => Some n
  | VStr s => ParseInt s
  | _ => None
  end.

Definition DecodeSyncEnd (arr : list value) : option Z :=
  match arr with
  | [v0; v1] => if decide (str_of v0 = Some CmdSyncEnd) then ParseInt64 v1 else None
  | _ => None
  end.

(** ** Codecs

    What a sender and a receiver of one kind of message rely on. *)

Class Codec (T : Type) := {
  codec_wf : T → Prop;
  codec_encode : T → outcome (gres string string);
  codec_decode : string → outcome (pres T);
  codec_roundtrip : ∀ m rest, codec_wf m →
    ∃ enc, codec_encode m = Ret (GOk enc) ∧ codec_decode (enc +:+ rest) = Ret (GOk m, rest)
}.

Lemma decode_array_roundtrip {A} (k : list value → outcome (gres perr A)) l rest m :
  Forall encodable l → 16 * Z.of_nat (length l) ≤ maxAlloc → k (reread <$> l) = Ret (GOk m) →
  ∃ enc, EncodeArray l = Ret enc ∧ decode_array k (enc +:+ rest) = Ret (GOk m, rest).
Proof.
  intros Hl Hn Hk. destruct (Parse_EncodeArray l rest Hl Hn) as (enc & He & Hp).
  exists enc. split; [done|]. unfold decode_array.
  unfold parse. rewrite Hp by (rewrite slength_app; lia).
  cbn [mbind outcome_bind]. by rewrite Hk.
Qed.

Ltac codec_solve :=
  match goal with
  | |- ∃ enc, (GOk <$> EncodeArray ?l) = Ret (GOk enc) ∧ decode_array ?k _ = Ret (GOk ?m, ?r) =>
      let Hdec := fresh in
      let enc := fresh "enc" in
      destruct (decode_array_roundtrip k l r m) as (enc & -> & Hdec);
        [split_Forall; (done || by vm_compute)
        |by vm_compute|reflexivity|by exists enc]
  end.

Definition sync_wf (m : SyncRequest) : Prop :=
  slen (FollowerID m) ≤ maxAlloc ∧ int64_range (LastSeqNum m).

Definition repl_wf (m : ReplicateCommand) : Prop :=
  slen (Key m) ≤ maxAlloc ∧ slen (Value m) ≤ maxAlloc ∧ int64_range (SeqNum m) ∧
  int64_range (TTL m) ∧
  (Operation m = OpSet ∨ Operation m = OpDelete ∧ Value m = "" ∧ TTL m = 0).

Definition beat_wf (m : HeartbeatCommand) : Prop :=
  slen (hb_NodeID m) ≤ maxAlloc ∧ int64_range (hb_SeqNum m).

#[export] Program Instance sync_codec : Codec SyncRequest := {|
  codec_wf := sync_wf;
  codec_encode m := EncodeSyncRequest (Some m);
  codec_decode := DecodeSyncRequest
|}.
Next Obligation.
  intros [f n] rest [Hf Hn]. unfold EncodeSyncRequest, DecodeSyncRequest. codec_solve.
Qed.

#[export] Program Instance beat_codec : Codec HeartbeatCommand := {|
  codec_wf := beat_wf;
  codec_encode m := EncodeHeartbeatCommand (Some m);
  codec_decode := DecodeHeartbeatCommand
|}.
Next Obligation.
  intros [n id] rest [Hf Hn]. unfold EncodeHeartbeatCommand, DecodeHeartbeatCommand. codec_solve.
Qed.

#[export] Program Instance repl_codec : Codec ReplicateCommand := {|
  codec_wf := repl_wf;
  codec_encode m := EncodeReplicateCommand (Some m);
  codec_decode := DecodeReplicateCommand
|}.
Next Obligation.
  intros [n op k v t] rest (Hk & Hv & Hn & Ht & Hop).
  cbn [SeqNum Operation Key Value TTL] in Hk, Hv, Hn, Ht, Hop.
  unfold EncodeReplicateCommand, DecodeReplicateCommand. cbn [SeqNum Operation Key Value TTL].
  destruct Hop as [-> | (-> & -> & ->)].
  - rewrite decide_True by done. codec_solve.
  - rewrite decide_False, decide_True by done. codec_solve.
Qed.

(** A stream of messages, as a connection carries it. *)
Fixpoint encode_all {T} `{Codec T} (ms : list T) : outcome (gres string string) :=
  match ms with
  | [] => mret (GOk "")
  | m :: ms =>
      e ← codec_encode m;
      match e with
      | GErr err => mret (GErr err)
      | GOk e => es ← encode_all ms;
                 mret match es with GErr err => GErr err | GOk es => GOk (e +:+ es) end
      end
  end.

Fixpoint decode_n {T} `{Codec T} (n : nat) (reader : string) : outcome (pres (list T)) :=
  match n with
  | O => mret (GOk [], reader)
  | S n =>
      '(m, reader) ← codec_decode reader;
      match m with
      | GErr e => mret (GErr e, reader)
      | GOk m => '(ms, reader) ← decode_n n reader;
                 mret (match ms with GErr e => GErr e | GOk ms => GOk (m :: ms) end, reader)
      end
  end.

(** Any codec extends to streams: messages keep their boundaries and order. *)
Lemma stream_roundtrip {T} `{Codec T} (ms : list T) rest :
  Forall codec_wf ms →
  ∃ enc, encode_all ms = Ret (GOk enc) ∧
    decode_n (length ms) (enc +:+ rest) = Ret (GOk ms, rest).
Proof.
  induction 1 as [|m ms Hm _ (es & Hes & Hdec)]; [by exists ""|].
  destruct (codec_roundtrip m (es +:+ rest) Hm) as (e & He & Hd).
  exists (e +:+ es). cbn [encode_all]. rewrite He. cbn [mbind outcome_bind].
  rewrite Hes. split; [done|]. cbn [decode_n length]. simpl.
  rewrite <-string_app_assoc, Hd. cbn [mbind outcome_bind]. by rewrite Hdec.
Qed.

(** Replication messages survive the wire: any sequence of well-formed
    replicate commands (SET with its value and TTL, DELETE without) written to a
    connection is decoded by the follower to the same commands in the same
    order, and the decoder stops exactly where the next message starts. *)
Theorem replication_stream_roundtrip (cmds : list ReplicateCommand) rest :
  Forall repl_wf cmds →
  ∃ enc, encode_all cmds = Ret (GOk enc) ∧
    decode_n (length cmds) (enc +:+ rest) = Ret (GOk cmds, rest).
Proof. intros Hwf. exact (@stream_roundtrip _ repl_codec cmds rest Hwf). Qed.

Definition demo_cmds : list ReplicateCommand :=
  [mkRepl 1 OpSet "k" "v" 60; mkRepl 2 OpDelete "k" "" 0].

Lemma replication_stream_roundtrip_witness :
  ∃ enc, encode_all demo_cmds = Ret (GOk enc) ∧
    decode_n (length demo_cmds) (enc +:+ "+tail") = Ret (GOk demo_cmds, "+tail").
Proof.
  apply (replication_stream_roundtrip demo_cmds "+tail").
  split_Forall;
    (split_and!; [by vm_compute..|]; vm_compute; auto).
Defined.

(** The handshake messages survive the wire as well: a sync request, a
    heartbeat and the end-of-sync mark are decoded to what was encoded. *)
Theorem handshake_roundtrip req beat n rest :
  sync_wf req → beat_wf beat → int64_range n →
  (∃ enc, EncodeSyncRequest (Some req) = Ret (GOk enc) ∧
     DecodeSyncRequest (enc +:+ rest) = Ret (GOk req, rest)) ∧
  (∃ enc, EncodeHeartbeatCommand (Some beat) = Ret (GOk enc) ∧
     DecodeHeartbeatCommand (enc +:+ rest) = Ret (GOk beat, rest)) ∧
  (∃ enc arr, EncodeSyncEnd n = Ret enc ∧ parse (enc +:+ rest) = Ret (GOk (VSlice arr), rest) ∧
     DecodeSyncEnd arr = Some n).
Proof.
  intros Hreq Hbeat Hn. split_and!.
  - exact (@codec_roundtrip _ sync_codec req rest Hreq).
  - exact (@codec_roundtrip _ beat_codec beat rest Hbeat).
  - destruct (Parse_EncodeArray [VStr CmdSyncEnd; VInt64 n] rest) as (enc & He & Hp).
    + split_Forall; (done || by vm_compute).
    + by vm_compute.
    + exists enc, [VStr CmdSyncEnd; VInt n]. split; [exact He|]. split; [|reflexivity].
      unfold parse. apply Hp. rewrite slength_app. lia.
Qed.

Lemma handshake_roundtrip_witness :
  let req := mkSync "follower-1" 41 in let beat := mkBeat 7 "node-2" in
  (∃ enc, EncodeSyncRequest (Some req) = Ret (GOk enc) ∧
     DecodeSyncRequest (enc +:+ "") = Ret (GOk req, "")) ∧
  (∃ enc, EncodeHeartbeatCommand (Some beat) = Ret (GOk enc) ∧
     DecodeHeartbeatCommand (enc +:+ "") = Ret (GOk beat, "")) ∧
  (∃ enc arr, EncodeSyncEnd 9 = Ret enc ∧ parse (enc +:+ "") = Ret (GOk (VSlice arr), "") ∧
     DecodeSyncEnd arr = Some 9).
Proof.
  apply (handshake_roundtrip (mkSync "follower-1" 41) (mkBeat 7 "node-2") 9 ""); by vm_compute.
Defined.

(** An array of fewer elements than the fields the decoder reads makes it panic:
    the lengths are checked only after the indexing. *)
Lemma DecodeReplicateCommand_short rest :
  DecodeReplicateCommand ("*0" +:+ CRLF +:+ rest) = Panic.
Proof. done. Qed.
End ReplProtocol.
