(* ===== verification/Config.v ===== *)
(** * internal/config/config.go

    The YAML decoder and the flag parser are libraries: [LoadFromFile] takes the
    decoded structure, and a parsed command line is the list of the flags that
    were set, each with its value in the textual form [flag.Value.String] gives. *)

From S2P Require Import Prelude GoStd.
Local Open Scope Z_scope.

Module Config.

Record NodeInfo := mkNodeInfo {
  ID : string; Host : string; Port : Z; ReplPort : Z; Priority : Z; ShardOf : string; NodeRole : string
}.

Record ShardInfo := mkShardInfo { ShardID : string; LeaderID : string; Followers : list string }.

Inductive SyncPolicy := SyncAlways | SyncEverySecond | SyncNo.

Record Config := mkConfig {
  cfg_Port : Z;
  cfg_MetricsPort : Z;
  cfg_MaxCacheSize : Z;
  cfg_Role : string;
  cfg_LeaderAddr : string;
  cfg_Priority : Z;
  cfg_ReplPort : Z;
  cfg_PeerReplAddrs : string;
  cfg_AOFFileName : string;
  cfg_SnapshotFileName : string;
  cfg_SyncPolicy : string;
  cfg_SnapshotInterval : Z;
  cfg_GrowthFactor : Z;
  cfg_NodeID : string;
  cfg_Nodes : list NodeInfo;
  cfg_Shards : list ShardInfo;
  cfg_LogLevel : string
}.

Record yamlConfig := mkYaml {
  y_Port : Z; y_MetricsPort : Z; y_MaxCacheSize : Z; y_Role : string; y_LeaderAddr : string;
  y_ReplPort : Z; y_AOFFileName : string; y_SnapshotFileName : string; y_SyncPolicy : string;
  y_SnapshotIntervalSeconds : Z; y_GrowthFactor : Z; y_NodeID : string;
  y_Nodes : list NodeInfo; y_Shards : list ShardInfo; y_LogLevel : string
}.

Definition Minute : Z := 60 * Second.

Definition DefaultConfig : Config := {|
  cfg_Port := 7000; cfg_MetricsPort := 9090; cfg_MaxCacheSize := 1000; cfg_Role := "leader";
  cfg_LeaderAddr := "localhost:7001"; cfg_Priority := 0; cfg_ReplPort := 0;
  cfg_PeerReplAddrs := ""; cfg_AOFFileName := "cache.aof"; cfg_SnapshotFileName := "cache.rdb";
  cfg_SyncPolicy := "everysecond"; cfg_SnapshotInterval := 5 * Minute; cfg_GrowthFactor := 2;
  cfg_NodeID := ""; cfg_Nodes := []; cfg_Shards := []; cfg_LogLevel := "info"
|}.

(** [unmarshal] is [os.ReadFile] followed by [yaml.Unmarshal]. *)
Definition LoadFromFile (unmarshal : string → gres string yamlConfig) (fileName : string) :
    gres string Config :=
  match unmarshal fileName with
  | GErr e => GErr e
  | GOk yc => GOk {|
      cfg_Port := y_Port yc; cfg_MetricsPort := y_MetricsPort yc;
      cfg_MaxCacheSize := y_MaxCacheSize yc; cfg_Role := y_Role yc;
      cfg_LeaderAddr := y_LeaderAddr yc; cfg_Priority := 0; cfg_ReplPort := y_ReplPort yc;
      cfg_PeerReplAddrs := ""; cfg_AOFFileName := y_AOFFileName yc;
      cfg_SnapshotFileName := y_SnapshotFileName yc; cfg_SyncPolicy := y_SyncPolicy yc;
      cfg_SnapshotInterval := seconds (y_SnapshotIntervalSeconds yc);
      cfg_GrowthFactor := y_GrowthFactor yc; cfg_NodeID := y_NodeID yc;
      cfg_Nodes := y_Nodes yc; cfg_Shards := y_Shards yc; cfg_LogLevel := y_LogLevel yc |}
  end.

Definition GetSyncPolicy (c : Config) : SyncPolicy :=
  if decide (cfg_SyncPolicy c = "always") then SyncAlways
  else if decide (cfg_SyncPolicy c = "everysecond") then SyncEverySecond
  else if decide (cfg_SyncPolicy c = "no") then SyncNo
  else SyncEverySecond.

(** The names [ParseFlags] registers. *)
Definition registered_flags : list string :=
  ["config"; "port"; "metrics_port"; "max-size"; "role"; "leader-addr"; "priority"; "repl-port";
   "peer-repl-addrs"; "node-id"; "aof-file"; "snapshot-file"; "sync-policy"; "growth-factor";
   "snapshot-interval"].

(** [fmt.Sscanf(s, "%d", &x)] on the text of an integer flag: the variable keeps
    its value when there is no number to read. *)
Definition scan_int (s : string) (x : Z) : Z := default x (scan_d s).

Definition apply_flag (cfg : Config) (f : string * string) : Config :=
  let '(name, v) := f in
  let '(mkConfig port mport size role laddr prio rport peers aof snap pol interval growth id nodes
    shards log) := cfg in
  if decide (name = "port") then
    mkConfig (scan_int v port) mport size role laddr prio rport peers aof snap pol interval growth id nodes shards log
  else if decide (name = "metrics-port") then
    mkConfig port (scan_int v mport) size role laddr prio rport peers aof snap pol interval growth id nodes shards log
  else if decide (name = "max-size") then
    mkConfig port mport (scan_int v size) role laddr prio rport peers aof snap pol interval growth id nodes shards log
  else if decide (name = "role") then
    mkConfig port mport size v laddr prio rport peers aof snap pol interval growth id nodes shards log
  else if decide (name = "leader-addr") then
    mkConfig port mport size role v prio rport peers aof snap pol interval growth id nodes shards log
  else if decide (name = "priority") then
    mkConfig port mport size role laddr (scan_int v prio) rport peers aof snap pol interval growth id nodes shards log
  else if decide (name = "repl-port") then
    mkConfig port mport size role laddr prio (scan_int v rport) peers aof snap pol interval growth id nodes shards log
  else if decide (name = "peer-repl-addrs") then
    mkConfig port mport size role laddr prio rport v aof snap pol interval growth id nodes shards log
  else if decide (name = "node-id") then
    mkConfig port mport size role laddr prio rport peers aof snap pol interval growth v nodes shards log
  else if decide (name = "aof-file") then
    mkConfig port mport size role laddr prio rport peers v snap pol interval growth id nodes shards log
  else if decide (name = "snapshot-file") then
    mkConfig port mport size role laddr prio rport peers aof v pol interval growth id nodes shards log
  else if decide (name = "sync-policy") then
    mkConfig port mport size role laddr prio rport peers aof snap v interval growth id nodes shards log
  else if decide (name = "growth-factor") then
    mkConfig port mport size role laddr prio rport peers aof snap pol interval (scan_int v growth) id nodes shards log
  else if decide (name = "snapshot-interval") then
    mkConfig port mport size role laddr prio rport peers aof snap pol (seconds (scan_int v 0)) growth id nodes shards log
  else cfg.

Definition ApplyFlags (cfg : Config) (visited : list (string * string)) : Config :=
  foldl apply_flag cfg visited.

Definition IsClusterMode (c : Config) : bool :=
  bool_decide (cfg_Nodes c ≠ []) && bool_decide (cfg_NodeID c ≠ "").

Definition find_node (id : string) (nodes : list NodeInfo) : option NodeInfo :=
  head (filter (λ n, ID n = id) nodes).

Definition GetMyNode (c : Config) : gres string NodeInfo :=
  match find_node (cfg_NodeID c) (cfg_Nodes c) with
  | Some n => GOk n
  | None => GErr ("node " +:+ cfg_NodeID c +:+ " not found in cluster config")
  end.

Definition GetOtherNodes (c : Config) : list NodeInfo :=
  filter (λ n, ID n ≠ cfg_NodeID c) (cfg_Nodes c).

Definition GetHighestPriorityNode (c : Config) : option NodeInfo :=
  match cfg_Nodes c with
  | [] => None
  | n :: _ => Some (foldl (λ highest n, if Priority highest <? Priority n then n else highest) n
                      (cfg_Nodes c))
  end.

Definition AmIHighestPriority (c : Config) : bool :=
  match GetMyNode c with
  | GErr _ => false
  | GOk myNode =>
      match GetHighestPriorityNode c with
      | Some highest => bool_decide (ID highest = ID myNode)
      | None => false
      end
  end.

(** The loop of [GetShardForNode]. *)
Fixpoint shard_for_node (nodeID : string) (shards : list ShardInfo) : option ShardInfo :=
  match shards with
  | [] => None
  | shard :: shards =>
      if decide (LeaderID shard = nodeID) then Some shard
      else if decide (nodeID ∈ Followers shard) then Some shard
      else shard_for_node nodeID shards
  end.

Definition GetShardForNode (c : Config) (nodeID : string) : gres string ShardInfo :=
  match shard_for_node nodeID (cfg_Shards c) with
  | Some shard => GOk shard
  | None => GErr ("node " +:+ nodeID +:+ " not found in any shard")
  end.

Definition GetShardByID (c : Config) (shardID : string) : gres string ShardInfo :=
  match head (filter (λ s, ShardID s = shardID) (cfg_Shards c)) with
  | Some shard => GOk shard
  | None => GErr ("shard " +:+ shardID +:+ " not found")
  end.

Definition IsShardLeader (c : Config) : bool :=
  existsb (λ shard, bool_decide (LeaderID shard = cfg_NodeID c)) (cfg_Shards c).

Definition GetMyShardRole (c : Config) : string :=
  match GetShardForNode c (cfg_NodeID c) with
  | GErr _ => ""
  | GOk shard => if decide (LeaderID shard = cfg_NodeID c) then "leader" else "follower"
  end.

(** ** Properties *)

Definition shard_members (s : ShardInfo) : list string := LeaderID s :: Followers s.

Lemma shard_for_node_spec nodeID shards :
  match shard_for_node nodeID shards with
  | Some s => s ∈ shards ∧ nodeID ∈ shard_members s
  | None => ∀ s, s ∈ shards → nodeID ∉ shard_members s
  end.
Proof.
  unfold shard_members. induction shards as [|s shards IH]; simpl; [by intros s ?%elem_of_nil|].
  case_decide as Hl; [split; [apply elem_of_cons; by left|apply elem_of_cons; by left]|].
  case_decide as Hf; [split; [apply elem_of_cons; by left|apply elem_of_cons; by right]|].
  destruct (shard_for_node nodeID shards).
  - split; [apply elem_of_cons; right; apply IH|apply IH].
  - intros s' [->|Hs']%elem_of_cons; [|by apply IH]. rewrite elem_of_cons. naive_solver.
Qed.

(** Every node is a member of at most one shard. *)
Definition shards_disjoint (shards : list ShardInfo) : Prop :=
  NoDup (mjoin (shard_members <$> shards)).

Lemma shard_for_member shards s n :
  shards_disjoint shards → s ∈ shards → n ∈ shard_members s →
  shard_for_node n shards = Some s.
Proof.
  unfold shards_disjoint. induction shards as [|s' shards IH]; intros Hnd Hs Hn.
  { by apply elem_of_nil in Hs. }
  rewrite fmap_cons in Hnd. apply NoDup_app in Hnd as (_ & Hdisj & Hnd).
  apply elem_of_cons in Hs as [->|Hs]; simpl.
  - unfold shard_members in Hn. apply elem_of_cons in Hn as [->|Hn]; [by rewrite decide_True|].
    case_decide; [done|]. by rewrite decide_True.
  - assert (n ∉ shard_members s') as Hn'.
    { intros Hin. apply (Hdisj n Hin). apply list_elem_of_join. exists (shard_members s).
      split; [done|]. apply list_elem_of_fmap. eauto. }
    unfold shard_members in Hn'. rewrite elem_of_cons in Hn'.
    rewrite decide_False by (intros <-; naive_solver).
    rewrite decide_False by naive_solver. auto.
Qed.

(** The loop of [GetHighestPriorityNode]: it returns the candidate it started
    from or a node of the list, of priority at least that of both. *)
Lemma highest_loop l h :
  let r := foldl (λ highest n, if Priority highest <? Priority n then n else highest) h l in
  (r = h ∨ r ∈ l) ∧ Priority h ≤ Priority r ∧ ∀ m, m ∈ l → Priority m ≤ Priority r.
Proof.
  revert h. induction l as [|x l IH]; intros h; simpl.
  { split_and!; [by left|done|by intros m ?%elem_of_nil]. }
  destruct (Z.ltb_spec (Priority h) (Priority x)) as [Hx|Hx].
  - destruct (IH x) as (Hr & Hp & Hm). split_and!.
    + right. apply elem_of_cons. destruct Hr as [->|]; [by left|by right].
    + lia.
    + intros m [->|Hml]%elem_of_cons; [done|by apply Hm].
  - destruct (IH h) as (Hr & Hp & Hm). split_and!.
    + destruct Hr as [->|]; [by left|right; apply elem_of_cons; by right].
    + lia.
    + intros m [->|Hml]%elem_of_cons; [lia|by apply Hm].
Qed.

(** [GetHighestPriorityNode] returns a configured node whose priority no other
    node exceeds, and none exactly when no node is configured. *)
Theorem highest_priority_correct c :
  match GetHighestPriorityNode c with
  | None => cfg_Nodes c = []
  | Some n => n ∈ cfg_Nodes c ∧ ∀ m, m ∈ cfg_Nodes c → Priority m ≤ Priority n
  end.
Proof.
  unfold GetHighestPriorityNode. destruct (cfg_Nodes c) as [|n0 ns]; [done|].
  destruct (highest_loop (n0 :: ns) n0) as (Hr & _ & Hm). split; [|done].
  destruct Hr as [->|]; [apply elem_of_cons; by left|done].
Qed.

(** The metrics port cannot be set on the command line: the flag is registered
    as "metrics_port" and applied as "metrics-port", so whatever registered
    flags are given, the port from the file stays. *)
Theorem metrics_port_flag_ignored cfg visited :
  Forall (λ f, f.1 ∈ registered_flags) visited →
  cfg_MetricsPort (ApplyFlags cfg visited) = cfg_MetricsPort cfg.
Proof.
  intros Hv. unfold ApplyFlags. revert cfg.
  induction Hv as [|[name v] visited Hname _ IH]; intros cfg; simpl; [done|].
  rewrite IH. clear IH. destruct cfg. simpl in Hname. unfold apply_flag.
  assert (name ≠ "metrics-port") as Hne by (intros ->; vm_compute in Hname; 
    repeat (apply elem_of_cons in Hname as [[=]|Hname]); by apply elem_of_nil in Hname).
  repeat case_decide; done.
Qed.

Lemma metrics_port_flag_ignored_witness :
  cfg_MetricsPort (ApplyFlags DefaultConfig [("metrics_port", "9999"); ("port", "8000")])
  = cfg_MetricsPort DefaultConfig.
Proof.
  apply metrics_port_flag_ignored.
  split_Forall;
    apply (bool_decide_eq_true_1 (_ ∈ registered_flags)); by vm_compute.
Defined.

(** The other flags take effect; an integer flag whose text is its number. *)
Lemma ApplyFlags_port cfg n :
  int64_range n → cfg_Port (ApplyFlags cfg [("port", Itoa n)]) = n.
Proof. intros. destruct cfg. cbn. unfold scan_int. by rewrite scan_d_Itoa. Qed.
End Config.
