(* ===== verification/Flags.v ===== *)
(** * The command line of the server: [flag.Parse], [ParseFlags] and the settings
    that result from defaults, file and flags (config.go, cmd/server/main.go)

    Go's [flag] package is modelled as far as [ParseFlags] uses it: integer and
    string flags on the default set, which ends the process on an error.  A parsed
    command line is the list of its assignments, each with the text that
    [flag.Value.String] gives. *)

From S2P Require Import Prelude GoStd Config.
Import Config.
Local Open Scope Z_scope.

Module Flags.

(** ** strconv.ParseInt with base 0 *)

Definition lower (c : ascii) : Z :=
  let n := byte_val c in if (65 <=? n) && (n <=? 90) then n + 32 else n.

Definition digit_of (base : Z) (c : ascii) : option Z :=
  let n := lower c in
  let d := if (48 <=? n) && (n <=? 57) then n - 48
           else if (97 <=? n) && (n <=? 122) then n - 87 else base in
  if d <? base then Some d else None.

(** The digits in [base], underscores skipped. *)
Fixpoint base_digits (base acc : Z) (s : string) : option Z :=
  match s with
  | EmptyString => Some acc
  | String "_"%char s => base_digits base acc s
  | String c s => d ← digit_of base c; base_digits base (base * acc + d) s
  end.

(** [underscoreOK] on what follows the prefix: an underscore only between digits,
    or between the prefix and a digit.  [prev]: what precedes. *)
Inductive mark := Start | Digit | Under | Other.
Fixpoint underscores (hex : bool) (prev : mark) (s : string) : bool :=
  match s with
  | EmptyString => match prev with Under => false | _ => true end
  | String "_"%char s => match prev with Digit => underscores hex Under s | _ => false end
  | String c s =>
      if is_digit c || hex && (97 <=? lower c) && (lower c <=? 102) then underscores hex Digit s
      else match prev with Under => false | _ => underscores hex Other s end
  end.

Definition unsigned_base0 (s : string) : option Z :=
  match s with
  | EmptyString => None
  | String "0"%char (String p (String _ _ as r)) =>
      if lower p =? 98 then if underscores false Digit r then base_digits 2 0 r else None
      else if lower p =? 111 then if underscores false Digit r then base_digits 8 0 r else None
      else if lower p =? 120 then if underscores true Digit r then base_digits 16 0 r else None
      else if underscores false Start s then base_digits 8 0 (String p r) else None
  | String "0"%char r => if underscores false Start s then base_digits 8 0 r else None
  | _ => if underscores false Start s then base_digits 10 0 s else None
  end.

Definition ParseInt0 (s : string) : option Z :=
  z ← match s with
      | String "+"%char r => unsigned_base0 r
      | String "-"%char r => Z.opp <$> unsigned_base0 r
      | _ => unsigned_base0 s
      end;
  if decide (int64_range z) then Some z else None.

(** ** flag.Parse *)

Inductive kind := IntFlag | StringFlag.

Definition formal : list (string * kind) :=
  [("config", StringFlag); ("port", IntFlag); ("metrics_port", IntFlag); ("max-size", IntFlag);
   ("role", StringFlag); ("leader-addr", StringFlag); ("priority", IntFlag); ("repl-port", IntFlag);
   ("peer-repl-addrs", StringFlag); ("node-id", StringFlag); ("aof-file", StringFlag);
   ("snapshot-file", StringFlag); ("sync-policy", StringFlag); ("growth-factor", IntFlag);
   ("snapshot-interval", IntFlag)].

Definition lookup_flag (name : string) : option kind :=
  snd <$> head (filter (λ f, f.1 = name) formal).

(** [flag.Value.Set], and the text [String] gives afterwards. *)
Definition set_value (k : kind) (text : string) : option string :=
  match k with IntFlag => Itoa <$> ParseInt0 text | StringFlag => Some text end.

(** The name and, after an equals sign that is not its first byte, the value. *)
Fixpoint cut_equals (s : string) : string * option string :=
  match s with
  | EmptyString => (EmptyString, None)
  | String c s =>
      if decide (c = "="%char) then (EmptyString, Some s)
      else let '(name, v) := cut_equals s in (String c name, v)
  end.
Definition split_equals (s : string) : string * option string :=
  match s with
  | EmptyString => (EmptyString, None)
  | String c s => let '(name, v) := cut_equals s in (String c name, v)
  end.

(** The text after one or two dashes; [None] for an argument that is no flag. *)
Inductive argument := NotAFlag | EndOfFlags | BadSyntax | FlagArg (body : string).
Definition classify (s : string) : argument :=
  match s with
  | String "-"%char (String "-"%char EmptyString) => EndOfFlags
  | String "-"%char (String c r as body) =>
      let body := if decide (c = "-"%char) then r else body in
      match body with
      | EmptyString | String "-"%char _ | String "="%char _ => BadSyntax
      | _ => FlagArg body
      end
  | _ => NotAFlag
  end.

(** Exit codes: an error ends the process with 2, a request for help with 0. *)
Fixpoint parse_args (args : list string) : gres Z (list (string * string)) :=
  match args with
  | [] => GOk []
  | s :: args =>
      match classify s with
      | NotAFlag | EndOfFlags => GOk []
      | BadSyntax => GErr 2
      | FlagArg body =>
          let '(name, v) := split_equals body in
          match lookup_flag name with
          | None => GErr (if decide (name = "help" ∨ name = "h") then 0 else 2)
          | Some k =>
              let assign text rest :=
                match set_value k text with
                | None => GErr 2
                | Some text => match rest with GErr e => GErr e | GOk l => GOk ((name, text) :: l) end
                end in
              match v, args with
              | Some text, _ => assign text (parse_args args)
              | None, text :: args => assign text (parse_args args)
              | None, [] => GErr 2
              end
          end
      end
  end.

(** The flags that were set, with their last texts. *)
Definition actual (l : list (string * string)) : gmap string string :=
  foldl (λ m f, <[f.1 := f.2]> m) ∅ l.

(** [flag.Visit]: in the order of the names. *)
Definition visit_order : list string :=
  ["aof-file"; "config"; "growth-factor"; "leader-addr"; "max-size"; "metrics_port"; "node-id";
   "peer-repl-addrs"; "port"; "priority"; "repl-port"; "role"; "snapshot-file"; "snapshot-interval";
   "sync-policy"].
Definition visited (m : gmap string string) : list (string * string) :=
  omap (λ name, pair name <$> m !! name) visit_order.

(** ** ParseFlags and the configuration of main *)

(** The variables the flags were registered on are fields of the configuration,
    but for the path of the file and the seconds of the snapshot interval. *)
Definition store_flag (cfg : Config) (f : string * string) : Config :=
  if decide (f.1 = "metrics_port") then apply_flag cfg ("metrics-port", f.2)
  else if decide (f.1 = "metrics-port") then cfg
  else apply_flag cfg f.

Definition with_interval (c : Config) (d : Z) : Config :=
  mkConfig (cfg_Port c) (cfg_MetricsPort c) (cfg_MaxCacheSize c) (cfg_Role c) (cfg_LeaderAddr c)
    (cfg_Priority c) (cfg_ReplPort c) (cfg_PeerReplAddrs c) (cfg_AOFFileName c) (cfg_SnapshotFileName c)
    (cfg_SyncPolicy c) d (cfg_GrowthFactor c) (cfg_NodeID c) (cfg_Nodes c) (cfg_Shards c) (cfg_LogLevel c).

Definition ParseFlags (args : list string) (cfg : Config) :
    gres Z (string * Config * gmap string string) :=
  match parse_args args with
  | GErr code => GErr code
  | GOk l =>
      let m := actual l in
      let cfg' := foldl store_flag cfg l in
      let snapshotSeconds := scan_int (default "" (m !! "snapshot-interval"))
                               (whole_seconds (cfg_SnapshotInterval cfg)) in
      GOk (default "config.yaml" (m !! "config"), with_interval cfg' (seconds snapshotSeconds), m)
  end.

(** The first half of main: the file replaces the defaults, with the flags already
    in them, when it can be read; then the flags are applied again. *)
Definition load_config (unmarshal : string → gres string yamlConfig) (args : list string) : gres Z Config :=
  match ParseFlags args DefaultConfig with
  | GErr code => GErr code
  | GOk (configFile, cfg, m) =>
      let cfg := match LoadFromFile unmarshal configFile with GErr _ => cfg | GOk fileCfg => fileCfg end in
      GOk (ApplyFlags cfg (visited m))
  end.

(** ** Where a setting comes from *)

Inductive setting := Num (n : Z) | Text (s : string).

(** The field that a flag sets. *)
Definition field (name : string) (c : Config) : option setting :=
  if decide (name = "port") then Some (Num (cfg_Port c))
  else if decide (name = "max-size") then Some (Num (cfg_MaxCacheSize c))
  else if decide (name = "role") then Some (Text (cfg_Role c))
  else if decide (name = "leader-addr") then Some (Text (cfg_LeaderAddr c))
  else if decide (name = "priority") then Some (Num (cfg_Priority c))
  else if decide (name = "repl-port") then Some (Num (cfg_ReplPort c))
  else if decide (name = "peer-repl-addrs") then Some (Text (cfg_PeerReplAddrs c))
  else if decide (name = "node-id") then Some (Text (cfg_NodeID c))
  else if decide (name = "aof-file") then Some (Text (cfg_AOFFileName c))
  else if decide (name = "snapshot-file") then Some (Text (cfg_SnapshotFileName c))
  else if decide (name = "sync-policy") then Some (Text (cfg_SyncPolicy c))
  else if decide (name = "growth-factor") then Some (Num (cfg_GrowthFactor c))
  else if decide (name = "snapshot-interval") then Some (Num (cfg_SnapshotInterval c))
  else None.

(** The value that a text gives to it. *)
Definition given (name text : string) : setting :=
  if decide (name = "snapshot-interval") then Num (seconds (scan_int text 0))
  else match lookup_flag name with
       | Some IntFlag => Num (scan_int text 0)
       | _ => Text text
       end.

(** An assignment that [parse_args] can give. *)
Definition assignment (f : string * string) : Prop :=
  ∃ k raw, lookup_flag f.1 = Some k ∧ set_value k raw = Some f.2.

Lemma parse_args_assignments args l : parse_args args = GOk l → Forall assignment l.
Proof.
  revert l. induction args as [args IH] using (induction_ltof1 _ length). unfold ltof in IH.
  intros l Hl. destruct args as [|s args]; [injection Hl as <-; constructor|]. cbn [parse_args] in Hl.
  destruct (classify s); try (injection Hl as <-; constructor); [discriminate|].
  destruct (split_equals body) as [name v]. destruct (lookup_flag name) as [k|] eqn:Hk; [|discriminate].
  assert (∀ text rest, (length rest < length (s :: args))%nat →
    match set_value k text with
    | None => GErr 2
    | Some text => match parse_args rest with GErr e => GErr e | GOk l => GOk ((name, text) :: l) end
    end = GOk l → Forall assignment l) as Hgo.
  { intros text rest Hlen E. destruct (set_value k text) as [t|] eqn:Ht; [|discriminate].
    destruct (parse_args rest) as [l'|] eqn:Hr; [|discriminate]. injection E as <-.
    apply Forall_cons_2; [by exists k, text|]. by apply (IH rest). }
  destruct v as [text|]; [by apply (Hgo text args); [cbn; lia|]|].
  destruct args as [|text args]; [discriminate|]. by apply (Hgo text args); [cbn; lia|].
Qed.

(** An integer flag has the text of an int64, which is read back. *)
Lemma assignment_int f x y :
  assignment f → lookup_flag f.1 = Some IntFlag → scan_int f.2 x = scan_int f.2 y.
Proof.
  intros (k' & raw & H1 & H2) Hi. assert (k' = IntFlag) as -> by congruence. cbn in H2.
  destruct (ParseInt0 raw) as [z|] eqn:E; [|discriminate]. injection H2 as <-.
  assert (int64_range z) as Hz.
  { unfold ParseInt0 in E. destruct (match raw with EmptyString => _ | _ => _ end); [|discriminate].
    cbn in E. case_decide; [|discriminate]. by injection E as <-. }
  unfold scan_int. by rewrite scan_d_Itoa.
Qed.

Definition settings : list string :=
  ["port"; "max-size"; "role"; "leader-addr"; "priority"; "repl-port"; "peer-repl-addrs"; "node-id";
   "aof-file"; "snapshot-file"; "sync-policy"; "growth-factor"; "snapshot-interval"].

Lemma apply_flag_field f name c :
  assignment f → name ∈ settings →
  field name (apply_flag c f) = if decide (f.1 = name) then Some (given name f.2) else field name c.
Proof.
  intros Hf Hn. destruct f as [fname text]. cbn [fst snd] in *.
  assert (∀ x, lookup_flag fname = Some IntFlag → scan_int text x = scan_int text 0) as Hi
    by (intros x; apply (assignment_int (fname, text) x 0 Hf)).
  case_decide as E; [subst fname|].
  - repeat (apply elem_of_cons in Hn as [->|Hn]; [destruct c; lazy -[scan_int seconds]; try rewrite (Hi _ eq_refl); reflexivity|]). by apply elem_of_nil in Hn.
  - unfold apply_flag. destruct c. repeat (case_decide; [subst fname|]); [..|reflexivity].
    all: unfold field; repeat (case_decide; [first [reflexivity|congruence]|]); reflexivity.
Qed.

Lemma actual_snoc l f : actual (l ++ [f]) = <[f.1 := f.2]> (actual l).
Proof. unfold actual. by rewrite foldl_app. Qed.

(** The last assignment of a name counts. *)
Lemma apply_flags_field l name c :
  Forall assignment l → name ∈ settings →
  field name (foldl apply_flag c l) =
    match actual l !! name with Some text => Some (given name text) | None => field name c end.
Proof.
  intros Hl Hn. induction l as [|f l IH] using rev_ind; [done|].
  apply Forall_app in Hl as [Hl [Hf _]%Forall_cons]. rewrite foldl_app, actual_snoc. cbn [foldl].
  rewrite apply_flag_field, IH by done. case_decide as E.
  - by rewrite E, lookup_insert_eq.
  - by rewrite lookup_insert_ne.
Qed.

Lemma store_flag_field f name c :
  assignment f → name ∈ settings →
  field name (store_flag c f) = if decide (f.1 = name) then Some (given name f.2) else field name c.
Proof.
  intros Hf Hn. unfold store_flag. case_decide as E1; [|case_decide as E2].
  - rewrite decide_False. { destruct c. reflexivity. }
    rewrite E1. intros <-. by apply (bool_decide_eq_true_2 _) in Hn.
  - destruct Hf as (k & raw & H & _). by rewrite E2 in H.
  - by apply apply_flag_field.
Qed.

(** What no flag sets. *)
Definition same_rest (c c' : Config) : Prop :=
  cfg_Nodes c' = cfg_Nodes c ∧ cfg_Shards c' = cfg_Shards c ∧ cfg_LogLevel c' = cfg_LogLevel c.

Lemma apply_flag_rest f c : same_rest c (apply_flag c f).
Proof. destruct f, c. unfold apply_flag, same_rest. by repeat case_decide. Qed.

Lemma apply_flags_rest l c : same_rest c (ApplyFlags c l).
Proof.
  unfold ApplyFlags. revert c. induction l as [|f l IH]; intros c; [done|]. cbn [foldl].
  unfold same_rest. destruct (IH (apply_flag c f)) as (-> & -> & ->). apply apply_flag_rest.
Qed.

Lemma store_flags_rest l c : same_rest c (foldl store_flag c l).
Proof.
  revert c. induction l as [|f l IH]; intros c; [done|]. cbn [foldl].
  unfold same_rest. destruct (IH (store_flag c f)) as (-> & -> & ->). unfold store_flag.
  repeat case_decide; [apply apply_flag_rest|done|apply apply_flag_rest].
Qed.

Lemma apply_flag_metrics f c : f.1 ≠ "metrics-port" → cfg_MetricsPort (apply_flag c f) = cfg_MetricsPort c.
Proof. destruct f, c. cbn [fst]. intros Hf. unfold apply_flag. by repeat case_decide. Qed.

Lemma store_flags_metrics l c :
  Forall assignment l →
  cfg_MetricsPort (foldl store_flag c l) =
    from_option (λ text, scan_int text 0) (cfg_MetricsPort c) (actual l !! "metrics_port").
Proof.
  intros Hl. induction l as [|f l IH] using rev_ind; [done|].
  apply Forall_app in Hl as [Hl [Hf _]%Forall_cons]. rewrite foldl_app, actual_snoc. cbn [foldl].
  set (c' := foldl store_flag c l) in *. unfold store_flag. case_decide as E1; [|case_decide as E2].
  - rewrite E1, lookup_insert_eq. cbn [from_option].
    rewrite <-(assignment_int f (cfg_MetricsPort c') 0 Hf) by (by rewrite E1). by destruct c'.
  - destruct Hf as (k & raw & H & _). by rewrite E2 in H.
  - by rewrite apply_flag_metrics, lookup_insert_ne, IH.
Qed.

Lemma store_flags_field l name c :
  Forall assignment l → name ∈ settings → actual l !! name = None →
  field name (foldl store_flag c l) = field name c.
Proof.
  intros Hl Hn. induction l as [|f l IH] using rev_ind; [done|]. rewrite actual_snoc.
  intros [Hm Hne]%lookup_insert_None. apply Forall_app in Hl as [Hl [Hf _]%Forall_cons].
  rewrite foldl_app. cbn [foldl]. by rewrite store_flag_field, decide_False, IH.
Qed.

Lemma with_interval_field name c d :
  name ≠ "snapshot-interval" → field name (with_interval c d) = field name c.
Proof. intros Hn. unfold field. cbn. repeat case_decide; done. Qed.

(** Visiting the flags gives them back. *)
Lemma actual_visited (m : gmap string string) names name :
  actual (omap (λ n, pair n <$> m !! n) names) !! name = if decide (name ∈ names) then m !! name else None.
Proof.
  induction names as [|n names IH] using rev_ind; [by rewrite decide_False by apply not_elem_of_nil|].
  rewrite omap_app. cbn [omap list_omap]. destruct (m !! n) as [text|] eqn:E; cbn [fmap option_fmap option_map].
  - rewrite actual_snoc. cbn [fst snd]. destruct (decide (n = name)) as [->|Hne].
    + rewrite lookup_insert_eq, decide_True; [done|]. apply elem_of_app. right. by apply list_elem_of_singleton.
    + rewrite lookup_insert_ne, IH by done. apply decide_ext. rewrite elem_of_app, list_elem_of_singleton. naive_solver.
  - rewrite app_nil_r, IH. destruct (decide (n = name)) as [->|Hne]; [by rewrite E; repeat case_decide|].
    apply decide_ext. rewrite elem_of_app, list_elem_of_singleton. naive_solver.
Qed.

Lemma actual_assignment l name text :
  Forall assignment l → actual l !! name = Some text → assignment (name, text).
Proof.
  intros Hl. induction l as [|f l IH] using rev_ind; [done|]. rewrite actual_snoc.
  apply Forall_app in Hl as [Hl [Hf _]%Forall_cons]. intros [[<- <-]|[_ Hm]]%lookup_insert_Some; [|by apply IH].
  by destruct f.
Qed.

Lemma visited_assignments l : Forall assignment l → Forall assignment (visited (actual l)).
Proof.
  intros Hl. apply Forall_forall. intros f (n & _ & Hf)%list_elem_of_omap.
  destruct (actual l !! n) as [text|] eqn:E; [|discriminate]. injection Hf as <-. by eapply actual_assignment.
Qed.

(** The visited flags, applied to any configuration. *)
Lemma ApplyFlags_visited l c name :
  Forall assignment l → name ∈ settings →
  field name (ApplyFlags c (visited (actual l))) =
    match actual l !! name with Some text => Some (given name text) | None => field name c end.
Proof.
  intros Hl Hn. unfold ApplyFlags. rewrite apply_flags_field by (done || by apply visited_assignments).
  unfold visited at 1. rewrite actual_visited, decide_True; [done|].
  assert (Forall (λ n, n ∈ visit_order) settings) as H
    by (apply (bool_decide_eq_true_1 _); by vm_compute).
  by eapply Forall_forall in H.
Qed.

Lemma visited_metrics l c :
  cfg_MetricsPort (ApplyFlags c (visited l)) = cfg_MetricsPort c.
Proof.
  apply metrics_port_flag_ignored. apply Forall_forall. intros f (n & Hn & Hf)%list_elem_of_omap.
  destruct (l !! n); [|discriminate]. injection Hf as <-. cbn [fst].
  assert (Forall (λ n, n ∈ registered_flags) visit_order) as H
    by (apply (bool_decide_eq_true_1 _); by vm_compute).
  by eapply Forall_forall in H.
Qed.

(** C33. Where the settings of a server come from: on every command line that the
    parser accepts, a flag that was given (other than the metrics port) wins, its last
    occurrence; otherwise the configuration file, when it can be read, with zero
    for a field it leaves out; and the default when it cannot.  The nodes, the
    shards and the log level come from the file alone; the metrics port from the
    flag only when there is no file. *)
Theorem effective_config unmarshal args l :
  parse_args args = GOk l →
  let file := LoadFromFile unmarshal (default "config.yaml" (actual l !! "config")) in
  let base := match file with GErr _ => DefaultConfig | GOk c => c end in
  ∃ cfg, load_config unmarshal args = GOk cfg ∧
    (∀ name, name ∈ settings → field name cfg =
       match actual l !! name with Some text => Some (given name text) | None => field name base end) ∧
    cfg_Nodes cfg = cfg_Nodes base ∧ cfg_Shards cfg = cfg_Shards base ∧ cfg_LogLevel cfg = cfg_LogLevel base ∧
    cfg_MetricsPort cfg =
      match file with
      | GOk c => cfg_MetricsPort c
      | GErr _ => from_option (λ text, scan_int text 0) 9090 (actual l !! "metrics_port")
      end.
Proof.
  intros Hp file base. pose proof (parse_args_assignments args l Hp) as Hl.
  unfold load_config, ParseFlags. rewrite Hp. cbv zeta. fold file. eexists. split; [reflexivity|].
  set (stored := with_interval _ _).
  assert (same_rest base (ApplyFlags (match file with GErr _ => stored | GOk c => c end) (visited (actual l))))
    as (H1 & H2 & H3).
  { unfold same_rest. destruct (apply_flags_rest (visited (actual l)) (match file with GErr _ => stored | GOk c => c end))
      as (-> & -> & ->). unfold base. destruct file; [done|]. apply (store_flags_rest l DefaultConfig). }
  split_and!; [|done..|].
  - intros name Hn. rewrite ApplyFlags_visited by done. destruct (actual l !! name) eqn:Hm; [done|].
    unfold base. destruct file; [done|]. unfold stored. destruct (decide (name = "snapshot-interval")) as [->|Hne].
    + rewrite Hm. by vm_compute.
    + by rewrite with_interval_field, store_flags_field.
  - rewrite visited_metrics. destruct file; [done|]. apply (store_flags_metrics l DefaultConfig Hl).
Qed.

(** ** Writing a command line *)

Lemma digit_of_digit c : is_digit c = true → digit_of 10 c = digit_val c ∧ c ≠ "_"%char.
Proof.
  unfold is_digit, digit_of, digit_val, lower. intros [H1 H2]%andb_true_iff. split.
  - rewrite H1, H2. cbv zeta. destruct (65 <=? byte_val c) eqn:E; [lia|]. cbn [andb]. rewrite H1, H2. cbn [andb].
    destruct (byte_val c - 48 <? 10) eqn:E'; [done|lia].
  - by intros ->.
Qed.

Lemma base_digits_decimal s acc : all_digits s = true → base_digits 10 acc s = digits_val acc s.
Proof.
  revert acc. induction s as [|c s IH]; intros acc; [done|]. cbn [all_digits]. intros [Hc Hs]%andb_true_iff.
  destruct (digit_of_digit c Hc) as [Hd Hu].
  transitivity (d ← digit_of 10 c; base_digits 10 (10 * acc + d) s).
  { destruct c as [[] [] [] [] [] [] [] []]; try reflexivity. done. }
  cbn [digits_val]. rewrite Hd. destruct (digit_val c); [|done]. cbn. by rewrite IH.
Qed.

Lemma underscores_decimal s prev : all_digits s = true → prev ≠ Under → underscores false prev s = true.
Proof.
  revert prev. induction s as [|c s IH]; intros prev; [by destruct prev|]. cbn [all_digits].
  intros [Hc Hs]%andb_true_iff Hp. transitivity (underscores false Digit s); [|by apply IH].
  cbn [underscores]. rewrite Hc. destruct (digit_of_digit c Hc) as [_ Hu].
  destruct c as [[] [] [] [] [] [] [] []]; try reflexivity. done.
Qed.

(** No leading zero. *)
Lemma digits_go_head fuel n acc :
  0 < n → n < 10 ^ Z.of_nat fuel → ∃ d r, digits_go fuel n acc = String (digit_char d) r ∧ 0 < d < 10.
Proof.
  revert n acc. induction fuel as [|f IH]; intros n acc Hn Hlt; [cbn in Hlt; lia|]. cbn [digits_go].
  destruct (Z.ltb_spec n 10).
  - exists n, acc. rewrite Z.mod_small by lia. split; [done|lia].
  - apply IH; [apply Z.div_str_pos; lia|]. apply Z.div_lt_upper_bound; [lia|].
    rewrite Nat2Z.inj_succ, Z.pow_succ_r in Hlt by lia. lia.
Qed.

Lemma unsigned_base0_digits n : 0 ≤ n → unsigned_base0 (digits n) = Some n.
Proof.
  intros Hn. destruct (decide (n = 0)) as [->|Hz]; [by vm_compute|].
  pose proof (digits_all n Hn) as Ha. pose proof (digits_correct n Hn) as Hc.
  destruct (digits_go_head (S (Z.to_nat (Z.log2 n))) n "" ltac:(lia) (digits_fuel_enough n Hn)) as (d & r & E & Hd).
  change (digits_go _ n "") with (digits n) in E. rewrite E in *.
  assert (digit_char d ≠ "0"%char) as H0.
  { intros H. apply (f_equal byte_val) in H. unfold digit_char in H. rewrite byte_val_of in H by lia.
    change (byte_val "0") with 48 in H. lia. }
  transitivity (if underscores false Start (String (digit_char d) r) then base_digits 10 0 (String (digit_char d) r) else None).
  { destruct (digit_char d) as [[] [] [] [] [] [] [] []]; try reflexivity. done. }
  by rewrite underscores_decimal, base_digits_decimal.
Qed.

Lemma ParseInt0_Itoa n : int64_range n → ParseInt0 (Itoa n) = Some n.
Proof.
  intros Hn. unfold Itoa. destruct (Z.ltb_spec n 0).
  - unfold ParseInt0. rewrite unsigned_base0_digits by lia. cbn. rewrite Z.opp_involutive. by rewrite decide_True.
  - unfold ParseInt0. pose proof (digits_all n ltac:(lia)) as Ha. pose proof (unsigned_base0_digits n ltac:(lia)) as Hu.
    pose proof (digits_nonempty n). destruct (digits n) as [|c s]; [done|]. cbn [all_digits] in Ha.
    apply andb_true_iff in Ha as [Hc _].
    assert (c ≠ "-"%char ∧ c ≠ "+"%char) as [H1 H2] by (split; intros ->; done).
    transitivity (z ← unsigned_base0 (String c s); if decide (int64_range z) then Some z else None).
    { destruct c as [[] [] [] [] [] [] [] []]; reflexivity || done. }
    rewrite Hu. cbn. by rewrite decide_True.
Qed.

(** An assignment as one argument. *)
Definition argument_of (f : string * string) : string := "-" +:+ f.1 +:+ "=" +:+ f.2.

(** The value has the form the flag prints: any text, or the digits of an int64. *)
Definition printed (f : string * string) : Prop :=
  lookup_flag f.1 = Some StringFlag ∨ lookup_flag f.1 = Some IntFlag ∧ ∃ n, int64_range n ∧ f.2 = Itoa n.

Lemma classify_argument f k : lookup_flag f.1 = Some k → ∃ body,
  classify (argument_of f) = FlagArg body ∧ split_equals body = (f.1, Some f.2).
Proof.
  destruct f as [name v]. cbn [fst snd]. intros Hk.
  assert (name ∈ formal.*1) as Hn.
  { unfold lookup_flag in Hk. destruct (filter (λ f, f.1 = name) formal) as [|[n k'] l] eqn:E; [discriminate|].
    assert ((n, k') ∈ filter (λ f, f.1 = name) formal) as [H1 H2]%list_elem_of_filter
      by (rewrite E; apply elem_of_cons; by left).
    apply list_elem_of_fmap. by exists (n, k'). }
  cbn in Hn. exists (name +:+ "=" +:+ v).
  repeat (apply elem_of_cons in Hn as [->|Hn]; [by split|]). by apply elem_of_nil in Hn.
Qed.

(** Assignments written as arguments are read back. *)
Theorem parse_args_roundtrip l : Forall printed l → parse_args (argument_of <$> l) = GOk l.
Proof.
  induction 1 as [|f l Hf _ IH]; [done|]. rewrite fmap_cons. cbn [parse_args]. rewrite IH. destruct f as [name v].
  destruct Hf as [Hk|[Hk (n & Hn & Hv)]]; destruct (classify_argument (name, v) _ Hk) as (body & -> & ->); rewrite Hk.
  - done.
  - cbn [snd] in Hv. cbn [set_value snd]. by rewrite Hv, ParseInt0_Itoa.
Qed.

(** A file that sets a port and a role, and a command line with the other forms. *)
Definition demo_yaml : yamlConfig :=
  mkYaml 7100 9100 50 "follower" "10.0.0.1:8000" 0 "a.aof" "a.rdb" "always" 60 3 "" [] [] "debug".
Definition demo_args : list string := ["-port=7200"; "--role"; "leader"; "-metrics_port"; "1"; "-port"; "0x1c84"].

Lemma effective_config_witness :
  ∃ cfg, load_config (λ _, GOk demo_yaml) demo_args = GOk cfg ∧ cfg_MetricsPort cfg = 9100 ∧
    field "port" cfg = Some (Num 7300) ∧ field "role" cfg = Some (Text "leader") ∧
    field "max-size" cfg = Some (Num 50).
Proof.
  destruct (effective_config (λ _, GOk demo_yaml) demo_args
    [("port", "7200"); ("role", "leader"); ("metrics_port", "1"); ("port", "7300")] ltac:(by vm_compute))
    as (cfg & H & Hf & _ & _ & _ & Hm).
  exists cfg. split_and!; [exact H|exact Hm| | |]; rewrite Hf; try by vm_compute.
  all: apply (bool_decide_eq_true_1 _); by vm_compute.
Defined.

(** Without a configuration file a server never runs in cluster mode: the nodes
    cannot be given on the command line, and the node's ID alone does nothing. *)
Theorem cluster_mode_needs_file unmarshal args cfg :
  (∀ f, ∃ e, unmarshal f = GErr e) → load_config unmarshal args = GOk cfg → IsClusterMode cfg = false.
Proof.
  intros Hu Hl. unfold load_config, ParseFlags in Hl. destruct (parse_args args) as [l|]; [|discriminate].
  cbv zeta in Hl. unfold LoadFromFile in Hl. destruct (Hu (default "config.yaml" (actual l !! "config"))) as [e He].
  rewrite He in Hl. injection Hl as <-. unfold IsClusterMode.
  match goal with |- context [ApplyFlags ?c ?v] => destruct (apply_flags_rest v c) as (-> & _) end.
  change (cfg_Nodes (with_interval ?c _)) with (cfg_Nodes c).
  by destruct (store_flags_rest l DefaultConfig) as (-> & _).
Qed.
End Flags.
