(* ===== verification/NodeState.v ===== *)
(** * internal/server/state.go: the mutable state of a node and key routing

    Pointers to the leader, the migrator, the health checker and the cache are numbers
    ([None] is nil).  Each method holds the state's mutex from start to end; the
    one that takes it twice is treated in the last section. *)

From S2P Require Import Prelude GoStd Resp Sha256 HashRing Config.
Import HashRing Config.
Local Open Scope Z_scope.

Module NodeState.

Record NodeState := mkState {
  role : string;
  leader : option positive;
  leaderAddr : string;
  hashRing : option HashRing;
  config : option Config;
  migrator : option positive;
  healthChecker : option positive;
  ns_cache : option positive
}.

Definition NewNodeState (role : string) (leader : option positive) (leaderAddr : string) : NodeState :=
  mkState role leader leaderAddr None None None None None.

Definition ns_IsClusterMode (ns : NodeState) : bool :=
  match hashRing ns, config ns with
  | Some _, Some cfg => IsClusterMode cfg
  | _, _ => false
  end.

(** The address loop over the configured nodes. *)
Definition node_address (cfg : Config) (id : string) : string :=
  match find_node id (cfg_Nodes cfg) with
  | Some node => Host node +:+ ":" +:+ Itoa (Port node)
  | None => ""
  end.

Definition handle_locally : bool * string * string := (false, "", "").

Definition ShouldForwardRequest (ns : NodeState) (key : string) (isWrite : bool) :
    bool * string * string :=
  if negb (ns_IsClusterMode ns) then handle_locally
  else
    match hashRing ns, config ns with
    | Some ring, Some cfg =>
        match GetShard ring key with
        | GErr _ => handle_locally
        | GOk responsibleShardID =>
            match GetShardForNode cfg (cfg_NodeID cfg) with
            | GErr _ => handle_locally
            | GOk myShard =>
                if decide (responsibleShardID = ShardID myShard) then
                  if negb isWrite then handle_locally
                  else
                    match GetShardLeader ring responsibleShardID with
                    | GErr _ => handle_locally
                    | GOk leaderNodeID =>
                        if decide (leaderNodeID = cfg_NodeID cfg) then handle_locally
                        else (true, leaderNodeID, node_address cfg leaderNodeID)
                    end
                else
                  match GetShardLeader ring responsibleShardID with
                  | GErr _ => handle_locally
                  | GOk leaderNodeID => (true, leaderNodeID, node_address cfg leaderNodeID)
                  end
            end
        end
    | _, _ => handle_locally
    end.

(** A node that is not in cluster mode forwards nothing. *)
Lemma alone_local ns key isWrite :
  ns_IsClusterMode ns = false → (ShouldForwardRequest ns key isWrite).1.1 = false.
Proof. intros Hn. unfold ShouldForwardRequest. by rewrite Hn. Qed.

(** Nor does a node that the configuration assigns to no shard: a joining node. *)
Lemma unassigned_local ns cfg e key isWrite :
  config ns = Some cfg → GetShardForNode cfg (cfg_NodeID cfg) = GErr e →
  (ShouldForwardRequest ns key isWrite).1.1 = false.
Proof.
  intros Hc Hg. unfold ShouldForwardRequest. rewrite Hc, Hg.
  destruct (negb _); [done|]. destruct (hashRing ns) as [ring|]; [|done]. by destruct (GetShard ring key).
Qed.

Definition SetHashRing ns hr :=
  mkState (role ns) (leader ns) (leaderAddr ns) (Some hr) (config ns) (migrator ns) (healthChecker ns) (ns_cache ns).
Definition SetConfig ns cfg :=
  mkState (role ns) (leader ns) (leaderAddr ns) (hashRing ns) (Some cfg) (migrator ns) (healthChecker ns) (ns_cache ns).
Definition GetRole ns := role ns.
Definition SetRole ns r :=
  mkState r (leader ns) (leaderAddr ns) (hashRing ns) (config ns) (migrator ns) (healthChecker ns) (ns_cache ns).
Definition GetLeader ns := leader ns.
Definition SetLeader ns l :=
  mkState (role ns) l (leaderAddr ns) (hashRing ns) (config ns) (migrator ns) (healthChecker ns) (ns_cache ns).
Definition GetLeaderAddr ns := leaderAddr ns.
Definition SetLeaderAddr ns a :=
  mkState (role ns) (leader ns) a (hashRing ns) (config ns) (migrator ns) (healthChecker ns) (ns_cache ns).
Definition SetMigrator ns m :=
  mkState (role ns) (leader ns) (leaderAddr ns) (hashRing ns) (config ns) m (healthChecker ns) (ns_cache ns).
Definition SetHealthChecker ns h :=
  mkState (role ns) (leader ns) (leaderAddr ns) (hashRing ns) (config ns) (migrator ns) h (ns_cache ns).
Definition SetCache ns c :=
  mkState (role ns) (leader ns) (leaderAddr ns) (hashRing ns) (config ns) (migrator ns) (healthChecker ns) c.
Definition GetHashRing ns := hashRing ns.
Definition GetConfig ns := config ns.
Definition GetMigrator ns := migrator ns.
Definition GetHealthChecker ns := healthChecker ns.

(** ** The ring a node builds when it starts (server.go) *)

Definition add_config_shard (hr : HashRing) (shard : ShardInfo) : HashRing :=
  SetShardNodes (AddShard hr (ShardID shard)) (ShardID shard) (LeaderID shard :: Followers shard).

Definition build_ring (vn : Z) (cfg : Config) : HashRing :=
  foldl add_config_shard (NewHashRing vn) (cfg_Shards cfg).

(** The health-check callbacks [startAsLeader] installs. *)
Definition node_failed_callback (hr : HashRing) (failedNodeID : string) : HashRing :=
  SetNodeAddress (RemoveShard hr failedNodeID) failedNodeID "".

Definition node_recovered_callback (cfg : Config) (hr : HashRing) (recoveredNodeID : string) :
    HashRing :=
  foldl (λ hr node,
    if decide (ID node = recoveredNodeID) then
      SetNodeAddress (AddShard hr recoveredNodeID) recoveredNodeID
        (Host node +:+ ":" +:+ Itoa (Port node))
    else hr) hr (cfg_Nodes cfg).

(** ** Routing *)

Definition with_node_id (cfg : Config) (id : string) : Config :=
  mkConfig (cfg_Port cfg) (cfg_MetricsPort cfg) (cfg_MaxCacheSize cfg) (cfg_Role cfg)
    (cfg_LeaderAddr cfg) (cfg_Priority cfg) (cfg_ReplPort cfg) (cfg_PeerReplAddrs cfg)
    (cfg_AOFFileName cfg) (cfg_SnapshotFileName cfg) (cfg_SyncPolicy cfg)
    (cfg_SnapshotInterval cfg) (cfg_GrowthFactor cfg) id (cfg_Nodes cfg) (cfg_Shards cfg)
    (cfg_LogLevel cfg).

(** The state of node [id] in a cluster where all nodes share ring and config. *)
Definition node_of (ring : HashRing) (cfg : Config) (id : string) : NodeState :=
  SetConfig (SetHashRing (NewNodeState "leader" None "") ring) (with_node_id cfg id).

(** Ring and configuration describe the same replication groups. *)
Definition groups_agree (ring : HashRing) (cfg : Config) : Prop :=
  shards_disjoint (cfg_Shards cfg) ∧
  Forall (λ s, shardToNodes ring !! ShardID s = Some (shard_members s)) (cfg_Shards cfg) ∧
  NoDup (ShardID <$> cfg_Shards cfg) ∧
  ∀ h s, hashToShard ring !! h = Some s → s ∈ (ShardID <$> cfg_Shards cfg).

Lemma GetShardLeader_config ring cfg s :
  groups_agree ring cfg → s ∈ cfg_Shards cfg → GetShardLeader ring (ShardID s) = GOk (LeaderID s).
Proof.
  intros (_ & HF & _) Hs. rewrite Forall_forall in HF.
  unfold GetShardLeader, GetShardNodes. by rewrite (HF s Hs).
Qed.

(** The decision of a node that belongs to a shard, on a well-formed ring. *)
Lemma ShouldForwardRequest_spec ring cfg id key isWrite own mine :
  ring_ok ring → groups_agree ring cfg → cfg_Nodes cfg ≠ [] → id ≠ "" →
  own ∈ cfg_Shards cfg → GetShard ring key = GOk (ShardID own) →
  mine ∈ cfg_Shards cfg → id ∈ shard_members mine →
  ShouldForwardRequest (node_of ring cfg id) key isWrite =
  if decide (ShardID own = ShardID mine ∧ (isWrite = false ∨ LeaderID own = id))
  then handle_locally
  else (true, LeaderID own, node_address cfg (LeaderID own)).
Proof.
  intros Hok Hag Hnodes Hid Hown Hkey Hmine Hin.
  pose proof (GetShardLeader_config ring cfg own Hag Hown) as Hl.
  unfold ShouldForwardRequest. simpl. unfold ns_IsClusterMode. simpl. unfold IsClusterMode. simpl.
  rewrite !bool_decide_eq_true_2 by done. simpl. rewrite Hkey. unfold GetShardForNode. simpl.
  rewrite (shard_for_member _ mine id (proj1 Hag) Hmine Hin), Hl.
  destruct (decide (ShardID own = ShardID mine)) as [E|E].
  - destruct isWrite; simpl.
    + destruct (decide (LeaderID own = id)); [by rewrite decide_True by tauto|].
      rewrite decide_False; [done|]. intros [_ [?|?]]; congruence.
    + by rewrite decide_True by tauto.
  - by rewrite decide_False by tauto.
Qed.

Lemma leader_member s : LeaderID s ∈ shard_members s.
Proof. apply elem_of_cons. by left. Qed.

Lemma shard_id_inj cfg s1 s2 :
  NoDup (ShardID <$> cfg_Shards cfg) → s1 ∈ cfg_Shards cfg → s2 ∈ cfg_Shards cfg →
  ShardID s1 = ShardID s2 → s1 = s2.
Proof.
  intros Hnd [i Hi]%list_elem_of_lookup_1 [j Hj]%list_elem_of_lookup_1 E.
  assert (i = j) as ->; [|congruence].
  eapply NoDup_lookup; [exact Hnd| |]; rewrite list_lookup_fmap; [by rewrite Hi|by rewrite Hj, E].
Qed.

(** *** The ring built from a configuration *)

Definition config_wf (cfg : Config) : Prop :=
  shards_disjoint (cfg_Shards cfg) ∧ NoDup (ShardID <$> cfg_Shards cfg) ∧
  cfg_Nodes cfg ≠ [] ∧ Forall (λ s, LeaderID s ≠ "") (cfg_Shards cfg).

#[export] Instance config_wf_dec cfg : Decision (config_wf cfg).
Proof. unfold config_wf, shards_disjoint. apply _. Defined.

Lemma add_config_shards_spec shards hr :
  ring_ok hr → NoDup (ShardID <$> shards) →
  let hr' := foldl add_config_shard hr shards in
  ring_ok hr' ∧ virtualNodes hr' = virtualNodes hr ∧
  (∀ s, s ∈ shards → shardToNodes hr' !! ShardID s = Some (shard_members s)) ∧
  (∀ sid, sid ∉ (ShardID <$> shards) → shardToNodes hr' !! sid = shardToNodes hr !! sid) ∧
  (∀ h sid, hashToShard hr' !! h = Some sid →
     sid ∈ (ShardID <$> shards) ∨ hashToShard hr !! h = Some sid).
Proof.
  revert hr. induction shards as [|s shards IH]; intros hr Hok Hnd; simpl.
  { split_and!; [done|done|by intros s ?%elem_of_nil|done|]. intros h sid ?. by right. }
  rewrite fmap_cons in Hnd. apply NoDup_cons in Hnd as [Hs Hnd].
  set (hr1 := add_config_shard hr s).
  assert (ring_ok hr1) as Hok1.
  { destruct (ring_ok_add hr (ShardID s) Hok). by split. }
  destruct (IH hr1 Hok1 Hnd) as (H1 & H2 & H3 & H4 & H5).
  assert (shardToNodes hr1 = <[ShardID s := shard_members s]> (shardToNodes hr)) as Hs1.
  { unfold hr1, add_config_shard. cbn [shardToNodes SetShardNodes]. by rewrite AddShard_eq. }
  split_and!; [done| | | |].
  - rewrite H2. apply virtualNodes_add.
  - intros s' [->|Hs']%elem_of_cons; [|by apply H3].
    rewrite H4 by done. by rewrite Hs1, lookup_insert_eq.
  - intros sid. rewrite not_elem_of_cons. intros [Hne Hsid].
    rewrite H4 by done. by rewrite Hs1, lookup_insert_ne.
  - intros h sid Hh. rewrite elem_of_cons. apply H5 in Hh as [Hh|Hh]; [by left; right|].
    unfold hr1, add_config_shard in Hh. cbn [hashToShard SetShardNodes] in Hh.
    rewrite lookup_AddShard in Hh. case_decide; [|by right]. left. left. congruence.
Qed.

Lemma build_ring_agrees vn cfg :
  config_wf cfg → ring_ok (build_ring vn cfg) ∧ groups_agree (build_ring vn cfg) cfg.
Proof.
  intros (Hd & Hnd & _ & _).
  destruct (add_config_shards_spec (cfg_Shards cfg) (NewHashRing vn) (ring_ok_new vn) Hnd)
    as (H1 & _ & H3 & _ & H5).
  split; [done|]. split_and!; [done|by apply Forall_forall|done|].
  intros h sid Hh. by apply H5 in Hh as [Hh|Hh].
Qed.

(** The shard that owns a key is one of the configuration. *)
Lemma owner_configured vn cfg key sid :
  config_wf cfg → GetShard (build_ring vn cfg) key = GOk sid →
  ∃ own, own ∈ cfg_Shards cfg ∧ sid = ShardID own.
Proof.
  intros Hwf Hkey. destruct (build_ring_agrees vn cfg Hwf) as [Hok (_ & _ & _ & Hcov)].
  pose proof (GetShard_spec _ key Hok) as Hspec. rewrite Hkey in Hspec.
  destruct Hspec as (h & _ & Hh%Hcov). apply list_elem_of_fmap in Hh as (own & -> & Hown). eauto.
Qed.

(** C18. Redirects converge in one hop: in a cluster whose nodes built their ring
    from one configuration, if a node tells a client to go elsewhere for a key,
    the node it names is the leader of the shard that owns the key, the address
    is the one configured for it, and that node handles the request locally. *)
Theorem redirect_one_hop vn cfg id mine key isWrite target addr :
  config_wf cfg → id ≠ "" → mine ∈ cfg_Shards cfg → id ∈ shard_members mine →
  ShouldForwardRequest (node_of (build_ring vn cfg) cfg id) key isWrite = (true, target, addr) →
  addr = node_address cfg target ∧
  (∃ own, own ∈ cfg_Shards cfg ∧ LeaderID own = target ∧
     GetShard (build_ring vn cfg) key = GOk (ShardID own)) ∧
  ShouldForwardRequest (node_of (build_ring vn cfg) cfg target) key isWrite = handle_locally.
Proof.
  intros Hwf Hid Hmine Hin Hfwd. destruct (build_ring_agrees vn cfg Hwf) as [Hok Hag].
  destruct (GetShard (build_ring vn cfg) key) as [sid|e] eqn:Hkey.
  2: { revert Hfwd. unfold ShouldForwardRequest. case_match; [done|]. simpl. by rewrite Hkey. }
  destruct (owner_configured vn cfg key sid Hwf Hkey) as (own & Hown & ->).
  destruct Hwf as (_ & _ & Hnodes & Hlead). rewrite Forall_forall in Hlead.
  rewrite (ShouldForwardRequest_spec _ cfg id key isWrite own mine) in Hfwd by done.
  case_decide as Hcase; [discriminate Hfwd|]. injection Hfwd as <- <-.
  split; [done|]. split; [by exists own|].
  rewrite (ShouldForwardRequest_spec _ cfg (LeaderID own) key isWrite own own)
    by (done || by apply Hlead || by apply leader_member).
  by rewrite decide_True by tauto.
Qed.

(** C19. Exactly one node of the cluster accepts writes for a key, the leader of
    the shard that owns it, and exactly the members of that shard serve reads. *)
Theorem routing_exclusive vn cfg id mine key sid :
  config_wf cfg → id ≠ "" → mine ∈ cfg_Shards cfg → id ∈ shard_members mine →
  GetShard (build_ring vn cfg) key = GOk sid →
  let ns := node_of (build_ring vn cfg) cfg id in
  (ShouldForwardRequest ns key true = handle_locally ↔
     GetShardLeader (build_ring vn cfg) sid = GOk id) ∧
  (ShouldForwardRequest ns key false = handle_locally ↔
     GetShardNodes (build_ring vn cfg) sid = GOk (shard_members mine)).
Proof.
  intros Hwf Hid Hmine Hin Hkey. destruct (build_ring_agrees vn cfg Hwf) as [Hok Hag].
  destruct (owner_configured vn cfg key sid Hwf Hkey) as (own & Hown & ->).
  pose proof Hwf as (_ & Hnd & Hnodes & _).
  cbv zeta. rewrite !(ShouldForwardRequest_spec _ cfg id key _ own mine) by done.
  rewrite (GetShardLeader_config _ cfg own Hag Hown).
  assert (GetShardNodes (build_ring vn cfg) (ShardID own) = GOk (shard_members own)) as ->.
  { unfold GetShardNodes. destruct Hag as (_ & HF & _). rewrite Forall_forall in HF. by rewrite HF. }
  assert (∀ b, (if decide (ShardID own = ShardID mine ∧ (b = false ∨ LeaderID own = id))
    then handle_locally else (true, LeaderID own, node_address cfg (LeaderID own))) = handle_locally
    ↔ ShardID own = ShardID mine ∧ (b = false ∨ LeaderID own = id)) as Hiff.
  { intros b. case_decide; [tauto|]. split; [discriminate|tauto]. }
  assert (∀ s, s ∈ cfg_Shards cfg → id ∈ shard_members s → s = mine) as Huniq.
  { intros s Hs Hids. pose proof (shard_for_member _ s id (proj1 Hag) Hs Hids).
    pose proof (shard_for_member _ mine id (proj1 Hag) Hmine Hin). congruence. }
  rewrite !Hiff. split; split.
  - intros [_ [? | ->]]; done.
  - intros [= E]. split; [|by right]. f_equal. apply Huniq; [done|]. rewrite <-E. apply leader_member.
  - intros [E _]. f_equal. f_equal. by apply (shard_id_inj cfg).
  - intros E. split; [|by left]. f_equal. apply Huniq; [done|].
    assert (shard_members own = shard_members mine) as -> by congruence. done.
Qed.

(** *** A cluster of two shards with a follower in the first *)

Definition demo_cfg : Config :=
  mkConfig 7000 9090 1000 "leader" "" 0 0 "" "cache.aof" "cache.rdb" "everysecond" 0 2 "n1"
    [mkNodeInfo "n1" "10.0.0.1" 7001 8001 10 "shard-1" "leader";
     mkNodeInfo "n2" "10.0.0.2" 7002 8002 5 "shard-1" "follower";
     mkNodeInfo "n3" "10.0.0.3" 7003 8003 10 "shard-2" "leader"]
    [mkShardInfo "shard-1" "n1" ["n2"]; mkShardInfo "shard-2" "n3" []] "info".

Lemma demo_cfg_wf : config_wf demo_cfg.
Proof. apply (bool_decide_eq_true_1 (config_wf demo_cfg)). by vm_compute. Qed.

Lemma demo_ring_positions :
  hashValues (build_ring 3 demo_cfg) = hashValues demo_ring ∧
  hashToShard (build_ring 3 demo_cfg) = hashToShard demo_ring.
Proof.
  rewrite <-demo_ring_built. unfold build_ring. cbn [foldl cfg_Shards demo_cfg].
  unfold add_config_shard. cbn [ShardID LeaderID Followers]. rewrite !AddShard_eq. done.
Qed.

Lemma demo_key : hash "k4" = 2483625430.
Proof. by vm_compute. Qed.

Lemma demo_key_shard : GetShard (build_ring 3 demo_cfg) "k4" = GOk "shard-2".
Proof.
  unfold GetShard. destruct demo_ring_positions as [-> ->]. rewrite demo_key. by vm_compute.
Qed.

Lemma demo_shards :
  mkShardInfo "shard-1" "n1" ["n2"] ∈ cfg_Shards demo_cfg ∧
  mkShardInfo "shard-2" "n3" [] ∈ cfg_Shards demo_cfg ∧
  "n2" ∈ shard_members (mkShardInfo "shard-1" "n1" ["n2"]).
Proof. split_and!; repeat constructor. Qed.

Lemma demo_forward isWrite :
  ShouldForwardRequest (node_of (build_ring 3 demo_cfg) demo_cfg "n2") "k4" isWrite =
    (true, "n3", "10.0.0.3" +:+ ":" +:+ Itoa 7003).
Proof.
  destruct (build_ring_agrees 3 demo_cfg demo_cfg_wf) as [Hok Hag].
  rewrite (ShouldForwardRequest_spec _ demo_cfg "n2" "k4" isWrite (mkShardInfo "shard-2" "n3" [])
    (mkShardInfo "shard-1" "n1" ["n2"]));
    [by vm_compute|done|done|done|done|apply demo_shards|apply demo_key_shard|apply demo_shards..].
Qed.

Lemma redirect_one_hop_witness :
  "10.0.0.3:7003" = node_address demo_cfg "n3" ∧
  (∃ own, own ∈ cfg_Shards demo_cfg ∧ LeaderID own = "n3" ∧
     GetShard (build_ring 3 demo_cfg) "k4" = GOk (ShardID own)) ∧
  ShouldForwardRequest (node_of (build_ring 3 demo_cfg) demo_cfg "n3") "k4" true = handle_locally.
Proof.
  apply (redirect_one_hop 3 demo_cfg "n2" (mkShardInfo "shard-1" "n1" ["n2"]) "k4" true "n3").
  - apply demo_cfg_wf.
  - done.
  - apply demo_shards.
  - apply demo_shards.
  - apply demo_forward.
Defined.

Lemma routing_exclusive_witness :
  let ns := node_of (build_ring 3 demo_cfg) demo_cfg "n2" in
  (ShouldForwardRequest ns "k4" true = handle_locally ↔
     GetShardLeader (build_ring 3 demo_cfg) "shard-2" = GOk "n2") ∧
  (ShouldForwardRequest ns "k4" false = handle_locally ↔
     GetShardNodes (build_ring 3 demo_cfg) "shard-2"
     = GOk (shard_members (mkShardInfo "shard-1" "n1" ["n2"]))).
Proof.
  apply (routing_exclusive 3 demo_cfg "n2" (mkShardInfo "shard-1" "n1" ["n2"]) "k4" "shard-2").
  - apply demo_cfg_wf.
  - done.
  - apply demo_shards.
  - apply demo_shards.
  - apply demo_key_shard.
Defined.

(** *** After a node comes back *)

Lemma recovered_adds nodes hr n :
  n ∈ (ID <$> nodes) → ring_ok hr → 0 < virtualNodes hr →
  let hr' := foldl (λ hr node,
    if decide (ID node = n) then
      SetNodeAddress (AddShard hr n) n (Host node +:+ ":" +:+ Itoa (Port node))
    else hr) hr nodes in
  ring_ok hr' ∧ shardToNodes hr' = shardToNodes hr ∧
  hashToShard hr' !! hash (virtualKey n 0) = Some n.
Proof.
  intros Hin Hok Hvn.
  assert (hash (virtualKey n 0) ∈ positions (virtualNodes hr) n) as Hpos.
  { apply list_elem_of_fmap. exists 0. split; [done|]. apply elem_of_seqZ. lia. }
  cut (∀ nodes hr, ring_ok hr → hash (virtualKey n 0) ∈ positions (virtualNodes hr) n →
    n ∈ (ID <$> nodes) ∨ hashToShard hr !! hash (virtualKey n 0) = Some n →
    let hr' := foldl (λ hr node,
      if decide (ID node = n) then
        SetNodeAddress (AddShard hr n) n (Host node +:+ ":" +:+ Itoa (Port node))
      else hr) hr nodes in
    ring_ok hr' ∧ shardToNodes hr' = shardToNodes hr ∧
    hashToShard hr' !! hash (virtualKey n 0) = Some n); [by intros H; apply H; auto|].
  clear hr nodes Hin Hok Hvn Hpos. induction nodes as [|node nodes IH]; intros hr Hok Hpos Hn; simpl.
  { destruct Hn as [Hn|Hn]; [by apply elem_of_nil in Hn|done]. }
  case_decide as E.
  - destruct (IH (SetNodeAddress (AddShard hr n) n (Host node +:+ ":" +:+ Itoa (Port node))))
      as (H1 & H2 & H3).
    + destruct (ring_ok_add hr n Hok). by split.
    + cbn [virtualNodes SetNodeAddress]. by rewrite virtualNodes_add.
    + right. cbn [hashToShard SetNodeAddress]. by rewrite lookup_AddShard, decide_True.
    + split_and!; [done| |done]. etrans; [exact H2|]. cbn [shardToNodes SetNodeAddress]. by rewrite AddShard_eq.
  - apply IH; [done|done|]. rewrite fmap_cons, elem_of_cons in Hn. naive_solver.
Qed.

(** The recovery callback adds a node to the ring under its node ID, where the
    ring of a cluster holds shard IDs: afterwards there are keys, the one named
    after the node's first virtual node for instance, that the ring assigns to
    the node's ID; that is no shard, so every node of the cluster answers for
    them, and writes to such a key are accepted everywhere. *)
Theorem recovered_node_unroutable vn cfg n :
  config_wf cfg → 0 < vn → n ∈ (ID <$> cfg_Nodes cfg) → n ∉ (ShardID <$> cfg_Shards cfg) →
  let ring := node_recovered_callback cfg (build_ring vn cfg) n in
  GetShard ring (virtualKey n 0) = GOk n ∧
  ∀ id isWrite, ShouldForwardRequest (node_of ring cfg id) (virtualKey n 0) isWrite = handle_locally.
Proof.
  intros Hwf Hvn Hn Hns ring. pose proof Hwf as (_ & Hnd & _).
  destruct (add_config_shards_spec (cfg_Shards cfg) (NewHashRing vn) (ring_ok_new vn) Hnd)
    as (Hok & Hvn' & _ & Hother & Hcov).
  destruct (recovered_adds (cfg_Nodes cfg) (build_ring vn cfg) n Hn Hok) as (Hok' & Hnodes & Hh).
  { unfold build_ring. by rewrite Hvn'. }
  fold (node_recovered_callback cfg (build_ring vn cfg) n) in Hok', Hnodes, Hh. fold ring in Hok', Hnodes, Hh.
  assert (GetShard ring (virtualKey n 0) = GOk n) as Hkey.
  { eapply GetShard_intro; [done| |done]. apply successor_self, (ok_owner _ Hok'). eauto. }
  split; [done|]. intros id isWrite. unfold ShouldForwardRequest. case_match; [done|].
  cbn [hashRing config node_of SetConfig SetHashRing]. rewrite Hkey.
  destruct (GetShardForNode _ _) as [mine|]  eqn:Em; [|done].
  assert (GetShardLeader ring n = GErr ("shard " +:+ n +:+ " not found")) as Hl.
  { unfold GetShardLeader, GetShardNodes. rewrite Hnodes. unfold build_ring. by rewrite Hother. }
  rewrite Hl. case_decide; [|done]. by destruct isWrite.
Qed.

Lemma recovered_node_unroutable_witness :
  let ring := node_recovered_callback demo_cfg (build_ring 3 demo_cfg) "n2" in
  GetShard ring (virtualKey "n2" 0) = GOk "n2" ∧
  ∀ id isWrite,
    ShouldForwardRequest (node_of ring demo_cfg id) (virtualKey "n2" 0) isWrite = handle_locally.
Proof.
  apply (recovered_node_unroutable 3 demo_cfg "n2").
  - apply demo_cfg_wf.
  - done.
  - repeat constructor.
  - apply (bool_decide_eq_true_1 ("n2" ∉ (ShardID <$> cfg_Shards demo_cfg))). by vm_compute.
Defined.

(** ** The redirect a client sees *)

(** [fmt.Sprintf("-MOVED %s %s\r\n", targetNodeID, targetAddr)] in
    [handleConnection]. *)
Definition moved_reply (targetNodeID targetAddr : string) : string :=
  "-MOVED " +:+ targetNodeID +:+ " " +:+ targetAddr +:+ CRLF.

Lemma moved_reply_parsed id host port rest :
  string_elem ":" id = false → string_elem LF id = false →
  string_elem ":" host = false → string_elem LF host = false → int64_range port →
  ∃ response, parse (moved_reply id (host +:+ ":" +:+ Itoa port) +:+ rest)
      = Ret (GOk (VStr response), rest) ∧ IsRedirect response = true ∧
    ParseRedirect response
      = GOk {| LeaderHost := id +:+ " " +:+ host; LeaderPort := Itoa port |}.
Proof.
  intros Hi1 Hi2 Hh1 Hh2 Hp. set (body := (id +:+ " " +:+ host) +:+ ":" +:+ Itoa port).
  assert (string_elem LF body = false) as Hb.
  { unfold body. by rewrite !string_elem_app, Hi2, Hh2, Itoa_no_LF. }
  exists ("MOVED " +:+ body). split_and!.
  - assert (moved_reply id (host +:+ ":" +:+ Itoa port) = EncodeError ("MOVED " +:+ body)) as ->.
    { unfold moved_reply, EncodeError, body. by rewrite <-!string_app_assoc. }
    by apply Parse_line_replies.
  - apply HasPrefix_moved.
  - apply (ParseRedirect_host_port _ _ _ body); try done.
    + destruct id; discriminate.
    + by rewrite !string_elem_app, Hi1, Hh1.
    + apply TrimPrefix_app.
    + by apply TrimSuffix_no_LF.
Qed.

(** The server's MOVED reply carries the node's ID before the address, and
    [ParseRedirect] takes all of it for the host: the client gets the right
    port, and a host made of the node ID, a blank and the real host. *)
Theorem moved_reply_misparsed id host port rest :
  string_elem ":" id = false → string_elem LF id = false →
  string_elem ":" host = false → string_elem LF host = false → int64_range port →
  ∃ response, parse (moved_reply id (host +:+ ":" +:+ Itoa port) +:+ rest)
      = Ret (GOk (VStr response), rest) ∧
    ParseRedirect response
      = GOk {| LeaderHost := id +:+ " " +:+ host; LeaderPort := Itoa port |}.
Proof.
  intros. destruct (moved_reply_parsed id host port rest) as (response & ? & _ & ?); [done..|].
  by exists response.
Qed.

Lemma moved_reply_misparsed_witness :
  ∃ response, parse (moved_reply "n3" ("10.0.0.3" +:+ ":" +:+ Itoa 7003) +:+ "")
      = Ret (GOk (VStr response), "") ∧
    ParseRedirect response
      = GOk {| LeaderHost := "n3" +:+ " " +:+ "10.0.0.3"; LeaderPort := Itoa 7003 |}.
Proof. apply (moved_reply_misparsed "n3" "10.0.0.3" 7003 ""); by vm_compute. Defined.

(** ** The state's RWMutex

    Go's [sync.RWMutex]: a writer first announces itself, which keeps new readers
    out, and then waits for the readers inside to leave.  A method is the
    sequence of lock operations it performs. *)

Inductive lock_op := RLock | RUnlock | LockAnnounce | LockAcquire | Unlock.

Record RWMutex := mkMu { readers : nat; announced : bool }.

Definition lock_step (mu : RWMutex) (op : lock_op) : option RWMutex :=
  match op with
  | RLock => if announced mu then None else Some (mkMu (S (readers mu)) false)
  | RUnlock => match readers mu with O => None | S n => Some (mkMu n (announced mu)) end
  | LockAnnounce => if announced mu then None else Some (mkMu (readers mu) true)
  | LockAcquire => if decide (readers mu = 0%nat) then Some mu else None
  | Unlock => Some (mkMu (readers mu) false)
  end.

(** Goroutines, each with what is left of its method, around one mutex. *)
Inductive threads_step : RWMutex * list (list lock_op) → RWMutex * list (list lock_op) → Prop :=
| threads_step_intro mu mu' ts i op rest :
    ts !! i = Some (op :: rest) → lock_step mu op = Some mu' →
    threads_step (mu, ts) (mu', <[i := rest]> ts).

Lemma threads_step_eq mu mu' ts ts' i op rest :
  ts !! i = Some (op :: rest) → lock_step mu op = Some mu' → ts' = <[i := rest]> ts →
  threads_step (mu, ts) (mu', ts').
Proof. intros Hi Hop ->. by econstructor. Qed.

(** Some goroutine has work left and none can move. *)
Definition deadlocked (st : RWMutex * list (list lock_op)) : Prop :=
  (∃ i op rest, st.2 !! i = Some (op :: rest)) ∧ ∀ st', ¬ threads_step st st'.

(** [ShouldForwardRequest] calls [IsClusterMode] with the read lock held; the
    setters, [SetRole] for instance, take the write lock. *)
Definition IsClusterMode_locks : list lock_op := [RLock; RUnlock].
Definition ShouldForwardRequest_locks : list lock_op := RLock :: IsClusterMode_locks ++ [RUnlock].
Definition SetRole_locks : list lock_op := [LockAnnounce; LockAcquire; Unlock].

(** A request being routed while the node changes its role can block both for
    ever: [ShouldForwardRequest] takes the read lock a second time, and if the
    setter asks for the write lock in between, the reader waits for the writer
    and the writer for the reader. *)
Theorem ShouldForwardRequest_can_deadlock :
  ∃ st, rtc threads_step (mkMu 0 false, [ShouldForwardRequest_locks; SetRole_locks]) st ∧
    deadlocked st.
Proof.
  exists (mkMu 1 true, [IsClusterMode_locks ++ [RUnlock]; [LockAcquire; Unlock]]). split.
  - eapply rtc_l.
    { by apply (threads_step_eq _ (mkMu 1 false) _
        [IsClusterMode_locks ++ [RUnlock]; SetRole_locks] 0 RLock (IsClusterMode_locks ++ [RUnlock])). }
    eapply rtc_l; [|apply rtc_refl].
    by apply (threads_step_eq _ (mkMu 1 true) _ _ 1 LockAnnounce [LockAcquire; Unlock]).
  - split; [by exists 0%nat, RLock, [RUnlock; RUnlock]|].
    intros st' Hstep. inversion Hstep as [mu mu' ts i op rest Hi Hop]; subst.
    destruct i as [|[|i]]; simplify_eq/=.
Qed.

(** *** Methods that take the lock once cannot deadlock *)

(** What is left of a method that takes the lock once, for reading or writing. *)
Definition flat_rest : list (list lock_op) :=
  [[]; IsClusterMode_locks; [RUnlock]; SetRole_locks; [LockAcquire; Unlock]; [Unlock]].

Definition holds_read (t : list lock_op) : nat :=
  match t with [RUnlock] => 1 | _ => 0 end.

Definition holds_write (t : list lock_op) : nat :=
  match t with [LockAcquire; Unlock] | [Unlock] => 1 | _ => 0 end.

(** The mutex counts the readers inside, and at most one writer has announced
    itself. *)
Definition flat_inv (st : RWMutex * list (list lock_op)) : Prop :=
  Forall (λ t, t ∈ flat_rest) st.2 ∧
  readers st.1 = sum_list_with holds_read st.2 ∧
  sum_list_with holds_write st.2 = (if announced st.1 then 1 else 0)%nat.

Lemma sum_list_with_insert {A} (f : A → nat) l i x y :
  l !! i = Some x → (sum_list_with f (<[i := y]> l) + f x = sum_list_with f l + f y)%nat.
Proof.
  revert i. induction l as [|z l IH]; intros [|i] Hi; simplify_eq/=; [lia|].
  specialize (IH i Hi). lia.
Qed.

Lemma sum_list_with_elem {A} (f : A → nat) l x :
  x ∈ l → (f x ≤ sum_list_with f l)%nat.
Proof. induction 1; simpl; lia. Qed.

Lemma sum_list_with_pos {A} (f : A → nat) l :
  (0 < sum_list_with f l)%nat → ∃ i x, l !! i = Some x ∧ (0 < f x)%nat.
Proof.
  induction l as [|z l IH]; simpl; [lia|]. intros H. destruct (decide (0 < f z)%nat).
  - by exists 0%nat, z.
  - destruct IH as (i & x & ? & ?); [lia|]. by exists (S i), x.
Qed.

(** The cases of an unfinished flat method. *)
Ltac flat_cases H :=
  repeat (apply elem_of_cons in H as [H|H]); [..|by apply elem_of_nil in H].

Lemma flat_step_inv st st' : flat_inv st → threads_step st st' → flat_inv st'.
Proof.
  intros (HF & Hr & Hw) Hstep. destruct Hstep as [mu mu' ts i op rest Hi Hop]. simpl in *.
  pose proof (sum_list_with_insert holds_read ts i _ rest Hi) as Er.
  pose proof (sum_list_with_insert holds_write ts i _ rest Hi) as Ew.
  assert (op :: rest ∈ flat_rest) as Hin by (by eapply Forall_lookup_1 in HF; [|exact Hi]).
  assert (∀ t, t ∈ flat_rest → Forall (λ t, t ∈ flat_rest) (<[i := t]> ts)) as HF'.
  { intros t Ht. by apply Forall_insert. }
  assert (op :: rest ∈ ts) as Hel by (by eapply list_elem_of_lookup_2).
  pose proof (sum_list_with_elem holds_read ts _ Hel) as Lr.
  destruct mu as [r a]. unfold flat_rest, IsClusterMode_locks, SetRole_locks in Hin. flat_cases Hin; simplify_eq/=; split_and!;
    try (apply HF'; repeat constructor); destruct a; simplify_eq/=; try case_decide; simplify_eq/=;
    try lia.
  all: destruct (sum_list_with holds_read ts); simplify_eq/=; lia.
Qed.

Lemma flat_inv_init ts :
  Forall (λ t, t = IsClusterMode_locks ∨ t = SetRole_locks) ts → flat_inv (mkMu 0 false, ts).
Proof.
  induction 1 as [|t ts Ht _ (HF & Hr & Hw)]; [by split_and!|].
  destruct Ht as [-> | ->]; (split_and!; simpl in *; [constructor; [repeat constructor|done]|done..]).
Qed.

(** The methods of the node state that take its lock once, as readers or as
    writers, never deadlock one another, however many run at the same time: in
    every reachable state in which one of them has work left, some goroutine can
    move. *)
Theorem flat_locks_progress ts st :
  Forall (λ t, t = IsClusterMode_locks ∨ t = SetRole_locks) ts →
  rtc threads_step (mkMu 0 false, ts) st → ¬ deadlocked st.
Proof.
  intros Hts Hsteps.
  pose proof (flat_inv_init ts Hts) as Hinv0.
  assert (flat_inv st) as (HF & Hr & Hw).
  { revert Hinv0. generalize (mkMu 0 false, ts) Hsteps. clear Hsteps Hts ts.
    induction 1; intros; [done|]. eauto using flat_step_inv. }
  destruct st as [mu ts']. simpl in *. intros [(i & op & rest & Hi) Hstuck]. simpl in Hi.
  assert (∀ j op rest mu', ts' !! j = Some (op :: rest) → lock_step mu op = Some mu' → False) as Hno.
  { intros. eapply Hstuck. by econstructor. }
  destruct (decide (0 < sum_list_with holds_read ts')%nat) as [Hp|Hp].
  { apply sum_list_with_pos in Hp as (j & t & Hj & Ht).
    destruct t as [|[] [|? ?]]; simpl in Ht; try lia.
    destruct mu as [[|r] a]; simpl in *; [|by eapply Hno].
    assert ([RUnlock] ∈ ts') as Hel by (by eapply list_elem_of_lookup_2).
    pose proof (sum_list_with_elem holds_read ts' _ Hel). simpl in *. lia. }
  destruct (announced mu) eqn:Ha.
  - assert (0 < sum_list_with holds_write ts')%nat as (j & t & Hj & Ht)%sum_list_with_pos by lia.
    destruct t as [|[] [|[] [|? ?]]]; simpl in Ht; try lia.
    + eapply Hno; [exact Hj|]. simpl. by rewrite decide_True by lia.
    + by eapply Hno.
  - assert (op :: rest ∈ flat_rest) as Hin by (by eapply Forall_lookup_1 in HF; [|exact Hi]).
    unfold flat_rest, IsClusterMode_locks, SetRole_locks in Hin. flat_cases Hin; simplify_eq/=.
    + eapply Hno; [exact Hi|]. simpl. by rewrite Ha.
    + assert ([RUnlock] ∈ ts') as Hel by (by eapply list_elem_of_lookup_2).
      pose proof (sum_list_with_elem holds_read ts' _ Hel). simpl in *. lia.
    + eapply Hno; [exact Hi|]. simpl. by rewrite Ha.
    + eapply Hno; [exact Hi|]. simpl. by rewrite decide_True by lia.
    + by eapply Hno.
Qed.

Lemma flat_locks_progress_witness :
  ¬ deadlocked (mkMu 1 false, [[RUnlock]; SetRole_locks]).
Proof.
  apply (flat_locks_progress [IsClusterMode_locks; SetRole_locks]).
  - split_Forall; auto.
  - eapply rtc_l; [|apply rtc_refl].
    by apply (threads_step_eq _ (mkMu 1 false) _ _ 0 RLock [RUnlock]).
Defined.
End NodeState.
