(* ===== verification/Persistence.v ===== *)
(** * internal/persistence: the append-only file, snapshots and recovery

    The disk holds the AOF's content and the snapshot file if there is one;
    [synced] counts the AOF bytes that fsync has made durable.  Operating-system
    failures are arguments of the operations that can meet them.  The background
    rewrite and the snapshot run in two steps, as in the code: the cache is
    copied and written to a temporary file without the AOF's mutex, and the
    files are swapped under it; commands appended in between are steps of their
    own.  Recovery is stated against the store interface [KVStore]. *)

From S2P Require Import Prelude GoStd Lru Metrics Cache CacheSpec CacheTrace Resp RespStream Config.
From Stdlib Require Import SpecFloat.
Import Config.
Local Open Scope Z_scope.

Module Persistence.

Record AOF := mkAOF {
  file : string;
  file_open : bool;
  synced : nat;
  snapshot_file : option string;
  policy : SyncPolicy;
  growthFactor : Z;
  lastRewriteSize : Z;
  rewriting : bool
}.

Record Operation := mkOp { Type_ : string; Key : string; Value : string; TTL : Z }.

(** Opening for append creates the file or keeps its content. *)
Definition NewAOF (existing : string) (snapshot : option string) (policy : SyncPolicy)
    (growthFactor : Z) : AOF :=
  mkAOF existing true (String.length existing) snapshot policy growthFactor 0 false.

Definition with_file (a : AOF) (f : string) : AOF :=
  mkAOF f (file_open a) (synced a) (snapshot_file a) (policy a) (growthFactor a) (lastRewriteSize a) (rewriting a).
Definition with_synced (a : AOF) (n : nat) : AOF :=
  mkAOF (file a) (file_open a) n (snapshot_file a) (policy a) (growthFactor a) (lastRewriteSize a) (rewriting a).
Definition with_baseline (a : AOF) (n : Z) : AOF :=
  mkAOF (file a) (file_open a) (synced a) (snapshot_file a) (policy a) (growthFactor a) n (rewriting a).
Definition with_rewriting (a : AOF) (b : bool) : AOF :=
  mkAOF (file a) (file_open a) (synced a) (snapshot_file a) (policy a) (growthFactor a) (lastRewriteSize a) b.
Definition with_open (a : AOF) (b : bool) : AOF :=
  mkAOF (file a) b (synced a) (snapshot_file a) (policy a) (growthFactor a) (lastRewriteSize a) (rewriting a).
Definition with_snapshot (a : AOF) (s : string) : AOF :=
  mkAOF (file a) (file_open a) (synced a) (Some s) (policy a) (growthFactor a) (lastRewriteSize a) (rewriting a).

(** ** Append *)

(** [float64(currentSize)/float64(lastRewriteSize) > float64(growthFactor)] *)
Definition growth_exceeded (current last factor : Z) : bool :=
  SFltb (f64_of_int factor) (SFdiv 53 1024 (f64_of_int current) (f64_of_int last)).

(** [true] in the second component when a rewrite goroutine is started. *)
Definition checkRewriteTrigger (a : AOF) : AOF * bool :=
  if rewriting a then (a, false)
  else
    let currentSize := slen (file a) in
    if lastRewriteSize a =? 0 then (with_baseline a currentSize, false)
    else if growth_exceeded currentSize (lastRewriteSize a) (growthFactor a)
         then (with_rewriting a true, true)
         else (a, false).

(** What the disk does with one append: everything is written, or an error after
    some bytes; then fsync, when it is called, works or not. *)
Record append_io := mkIO { write_fails : option nat; sync_fails : bool }.
Definition io_ok : append_io := mkIO None false.

Definition Append (a : AOF) (data : string) (io : append_io) : gres string bool * AOF :=
  if negb (file_open a) then (GErr "file already closed", a)
  else
    match write_fails io with
    | Some n => (GErr "write failed", with_file a (file a +:+ str_take n data))
    | None =>
        let a := with_file a (file a +:+ data) in
        match policy a, sync_fails io with
        | SyncAlways, true => (GErr "fsync failed", a)
        | SyncAlways, false =>
            let '(a, started) := checkRewriteTrigger (with_synced a (String.length (file a))) in
            (GOk started, a)
        | _, _ => let '(a, started) := checkRewriteTrigger a in (GOk started, a)
        end
    end.

(** One tick of [periodicSync]. *)
Definition periodic_sync (a : AOF) : AOF := with_synced a (String.length (file a)).

Definition Close (a : AOF) : AOF := with_open (with_synced a (String.length (file a))) false.

(** A crash keeps a prefix of the file that contains everything synced. *)
Definition crash (a : AOF) (kept : nat) : string := str_take kept (file a).
Definition crash_possible (a : AOF) (kept : nat) : Prop :=
  (synced a ≤ kept ≤ String.length (file a))%nat.

(** ** Writing the cache out *)

(** One turn of the loop shared by [rewriteAOF] and [CreateSnapshot]; [now] is
    the clock [time.Until] reads. *)
Definition dump_entry (key : string) (e : Cache.SnapshotEntry) (now : Z) : outcome (option string) :=
  let expires := Cache.ExpiresAt e in
  let ttl := if time_IsZero expires then 0 else expires - now in
  if negb (time_IsZero expires) && (ttl <? 0) then mret None
  else
    let ttlSeconds := Itoa (whole_seconds ttl) in
    Some <$> EncodeArray [VStr "SET"; VStr key; VStr (Cache.Value e); VStr ttlSeconds].

Definition dump_loop (snapshot : gmap string Cache.SnapshotEntry) (out : string) (kn : string * Z) :
    outcome string :=
  match snapshot !! kn.1 with
  | None => mret out
  | Some e => c ← dump_entry kn.1 e kn.2; mret (out +:+ default "" c)
  end.

(** [order]: the snapshot's keys as the range loop visits them, with the clock. *)
Definition dump (snapshot : gmap string Cache.SnapshotEntry) (order : list (string * Z)) :
    outcome string :=
  for_each (dump_loop snapshot) "" order.

(** The stages of [rewriteAOF] at which the disk can fail. *)
Inductive rewrite_stage :=
| fail_temp         (* opening, writing, syncing or closing the temporary file *)
| fail_close_old | fail_rename | fail_reopen.

(** The second half of [rewriteAOF]: the swap, under the AOF's mutex. *)
Definition rewrite_swap (a : AOF) (temp : string) (fail : option rewrite_stage) :
    gres string () * AOF :=
  match fail with
  | Some fail_temp => (GErr "failed to write to temp AOF file", a)
  | Some fail_close_old => (GErr "closing file failed", with_open a false)
  | Some fail_rename => (GErr "renaming file failed", with_open a false)
  | Some fail_reopen =>
      (GErr "failed to reopen new aof",
       with_synced (with_file (with_open a false) temp) (String.length temp))
  | None =>
      (GOk (), with_baseline (with_synced (with_file (with_open a true) temp) (String.length temp))
                 (slen temp))
  end.

(** [rewriteAOF] when nothing is appended while it runs, and the goroutine that
    runs it: the flag is cleared whatever the result. *)
Definition rewriteAOF (c : Cache.Cache) (a : AOF) (order : list (string * Z))
    (fail : option rewrite_stage) : outcome (gres string () * AOF * Cache.Cache) :=
  '(snapshot, c) ← Cache.Snapshot c;
  temp ← dump snapshot order;
  let '(r, a) := rewrite_swap a temp fail in
  mret (r, a, c).

Definition rewrite_goroutine (c : Cache.Cache) (a : AOF) (order : list (string * Z))
    (fail : option rewrite_stage) : outcome (AOF * Cache.Cache) :=
  '(_, a, c) ← rewriteAOF c a order fail;
  mret (with_rewriting a false, c).

Inductive snapshot_stage := snap_temp | snap_rename | snap_truncate | snap_reopen.

(** The second half of [CreateSnapshot]. *)
Definition snapshot_swap (a : AOF) (temp : string) (fail : option snapshot_stage) :
    gres string () * AOF :=
  match fail with
  | Some snap_temp => (GErr "failed to write to temp AOF file", a)
  | Some snap_rename => (GErr "renaming file failed", a)
  | Some snap_truncate =>
      (GErr "trncating AOF failed", with_open (with_snapshot a temp) false)
  | Some snap_reopen =>
      (GErr "failed to reopen new aof",
       with_synced (with_file (with_open (with_snapshot a temp) false) "") 0)
  | None =>
      (GOk (), with_synced (with_file (with_open (with_snapshot a temp) true) "") 0)
  end.

Definition CreateSnapshot (c : Cache.Cache) (a : AOF) (order : list (string * Z))
    (fail : option snapshot_stage) : outcome (gres string () * AOF * Cache.Cache) :=
  '(snapshot, c) ← Cache.Snapshot c;
  temp ← dump snapshot order;
  let '(r, a) := snapshot_swap a temp fail in
  mret (r, a, c).

(** ** Reading back *)

(** [parts[i], ok = v.(string)] until the first element that is not a string:
    that one and the rest stay empty. *)
Fixpoint string_parts (l : list value) : list string :=
  match l with
  | [] => []
  | VStr s :: l => s :: string_parts l
  | _ :: l => repeat "" (S (length l))
  end.

Definition part (parts : list string) (i : nat) : string := default "" (parts !! i).

(** The operation a parsed entry stands for. *)
Definition operation_of (parts : list string) : Operation :=
  let type := part parts 0 in
  if decide (type = "SET" ∧ (3 ≤ length parts)%nat) then
    mkOp type (part parts 1) (part parts 2)
      (if decide (4 ≤ length parts)%nat then default 0 (ParseInt (part parts 3)) else 0)
  else if decide (type = "DEL" ∧ (2 ≤ length parts)%nat) then mkOp type (part parts 1) "" 0
  else mkOp type "" "" 0.

(** The reading loop shared by [ReadOperations] and [LoadSnapshot]: every entry
    that parses to a non-empty array is handed to [f]. *)
Fixpoint read_entries {A} (f : A → list string → outcome A) (fuel : nat) (acc : A) (reader : string) :
    outcome A :=
  match fuel with
  | O => OutOfFuel
  | S fuel =>
      '(result, reader) ← parse reader;
      match result with
      | GErr EOF => mret acc
      | GErr _ => read_entries f fuel acc reader
      | GOk (VSlice (x :: l)) =>
          acc ← f acc (string_parts (x :: l)); read_entries f fuel acc reader
      | GOk _ => read_entries f fuel acc reader
      end
  end.

Definition read_fuel (content : string) : nat := S (S (String.length content)).

Definition ReadOperations (content : string) : outcome (list Operation) :=
  read_entries (λ ops parts, mret (ops ++ [operation_of parts])) (read_fuel content) [] content.

Section recovery.
Context {S : Type} `{KVStore S}.

(** [clock i] is the time of the i-th command that is applied. *)
Definition load_entry (clock : nat → Z) (st : nat * S) (parts : list string) : outcome (nat * S) :=
  let '(i, s) := st in
  if decide (part parts 0 = "SET" ∧ (3 ≤ length parts)%nat) then
    let ttl := if decide (4 ≤ length parts)%nat then
                 match ParseInt (part parts 3) with Some n => seconds n | None => 0 end
               else 0 in
    s ← kv_set s (part parts 1) (part parts 2) ttl (clock i);
    mret (i + 1, s)%nat
  else mret (i, s).

Definition LoadSnapshot (clock : nat → Z) (content : string) (st : nat * S) : outcome (nat * S) :=
  read_entries (load_entry clock) (read_fuel content) st content.

Definition apply_op (clock : nat → Z) (st : nat * S) (op : Operation) : outcome (nat * S) :=
  let '(i, s) := st in
  if decide (Type_ op = "SET") then
    s ← kv_set s (Key op) (Value op) (seconds (TTL op)) (clock i); mret (i + 1, s)%nat
  else if decide (Type_ op = "DEL") then
    s ← kv_delete s (Key op); mret (i + 1, s)%nat
  else mret (i, s).

(** [RecoverAOF] on the files found at start-up. *)
Definition RecoverAOF (clock : nat → Z) (snapshot aof : option string) (s : S) : outcome S :=
  st ← (match snapshot with
        | Some content => LoadSnapshot clock content (0%nat, s)
        | None => mret (0%nat, s)
        end);
  '(_, s) ← (match aof with
             | Some content =>
                 ops ← ReadOperations content;
                 for_each (apply_op clock) st ops
             | None => mret st
             end);
  mret s.
End recovery.

(** ** The log and its reader *)

(** The command the handlers append for an operation. *)
Definition log_entry (op : Operation) : list value :=
  if decide (Type_ op = "SET") then
    [VStr "SET"; VStr (Key op); VStr (Value op); VStr (Itoa (TTL op))]
  else [VStr "DEL"; VStr (Key op)].

Fixpoint encode_log (ops : list Operation) : outcome string :=
  match ops with
  | [] => mret ""
  | op :: ops => e ← EncodeArray (log_entry op); es ← encode_log ops; mret (e +:+ es)
  end.

Definition op_wf (op : Operation) : Prop :=
  slen (Key op) ≤ maxAlloc ∧ slen (Value op) ≤ maxAlloc ∧ int64_range (TTL op) ∧
  (Type_ op = "SET" ∨ Type_ op = "DEL" ∧ Value op = "" ∧ TTL op = 0).

#[export] Instance op_wf_dec op : Decision (op_wf op).
Proof. unfold op_wf. apply _. Defined.

Lemma Itoa_length n : int64_range n → slen (Itoa n) ≤ maxAlloc.
Proof.
  intros Hn. unfold Itoa, digits.
  assert (∀ fuel m acc, (String.length (digits_go fuel m acc) ≤ fuel + String.length acc)%nat) as Hgo.
  { induction fuel as [|fuel IH]; intros m acc; cbn [digits_go]; [lia|].
    destruct (m <? 10); [simpl; lia|]. specialize (IH (m / 10) (String (digit_char (m mod 10)) acc)).
    simpl in IH. lia. }
  assert (∀ m, 0 ≤ m ≤ two63 → (Z.to_nat (Z.log2 m) ≤ 63)%nat) as Hlog.
  { intros m Hm. pose proof (Z.log2_le_mono m two63 ltac:(lia)) as Hl.
    change (Z.log2 two63) with 63 in Hl. lia. }
  unfold int64_range in Hn. unfold slen, maxAlloc. destruct (Z.ltb_spec n 0); cbn [String.length].
  - specialize (Hgo (S (Z.to_nat (Z.log2 (- n)))) (- n) ""). specialize (Hlog (- n) ltac:(lia)).
    simpl String.length in Hgo at 2. lia.
  - specialize (Hgo (S (Z.to_nat (Z.log2 n))) n ""). specialize (Hlog n ltac:(lia)).
    simpl String.length in Hgo at 2. lia.
Qed.

Lemma log_entry_encodable op :
  op_wf op → Forall encodable (log_entry op) ∧ 16 * Z.of_nat (length (log_entry op)) ≤ maxAlloc.
Proof.
  intros (Hk & Hv & Ht & _). unfold log_entry. case_decide; (split; [|by vm_compute]);
    split_Forall;
    cbn [encodable]; first [assumption | by apply Itoa_length | vm_compute; discriminate].
Qed.

Lemma log_entry_strings op : reread <$> log_entry op = log_entry op.
Proof. unfold log_entry. by case_decide. Qed.

(** An entry is read back as its operation. *)
Lemma operation_of_entry op : op_wf op → operation_of (string_parts (log_entry op)) = op.
Proof.
  intros (_ & _ & Ht & Hop). destruct op as [t k v ttl]. cbn [Type_ Key Value TTL] in Ht, Hop.
  destruct Hop as [-> | (-> & -> & ->)]; [|done].
  transitivity (mkOp "SET" k v (default 0 (ParseInt (Itoa ttl)))); [done|].
  unfold ParseInt. by rewrite Atoi_Itoa.
Qed.

Lemma encode_entry op rest :
  op_wf op →
  ∃ e, EncodeArray (log_entry op) = Ret e ∧ e ≠ "" ∧
    parse (e +:+ rest) = Ret (GOk (VSlice (log_entry op)), rest).
Proof.
  intros Hop. destruct (log_entry_encodable op Hop) as [Hl Hn].
  destruct (Parse_EncodeArray (log_entry op) rest Hl Hn) as (e & He & Hp).
  exists e. split; [done|]. rewrite log_entry_strings in Hp. split.
  - intros ->. revert He. unfold EncodeArray.
    destruct (encode_elements_app (log_entry op)
      ("*" +:+ Itoa (Z.of_nat (length (log_entry op))) +:+ CRLF) Hl) as (body & -> & _).
    intros [=].
  - unfold parse. apply Hp. rewrite slength_app. lia.
Qed.

Lemma log_entry_cons op : ∃ x l, log_entry op = x :: l.
Proof. unfold log_entry. case_decide; eauto. Qed.

(** The reader takes a complete entry off the front of the file. *)
Lemma read_entries_step {A} (f : A → list string → outcome A) fuel acc op e rest :
  op_wf op → EncodeArray (log_entry op) = Ret e →
  read_entries f (S fuel) acc (e +:+ rest) =
  (acc ← f acc (string_parts (log_entry op)); read_entries f fuel acc rest).
Proof.
  intros Hop He. destruct (encode_entry op rest Hop) as (e' & He' & _ & Hp).
  assert (e' = e) as -> by congruence. cbn [read_entries]. rewrite Hp. cbn [mbind outcome_bind].
  destruct (log_entry_cons op) as (x & l & E). by rewrite E.
Qed.

(** What is left of an entry that was cut off ends the reading. *)
Lemma read_entries_torn {A} (f : A → list string → outcome A) fuel acc op e p q :
  op_wf op → EncodeArray (log_entry op) = Ret e → e = p +:+ q → q ≠ "" →
  read_entries f (S (S fuel)) acc p = Ret acc.
Proof.
  intros Hop He -> Hq. destruct (encode_entry op "" Hop) as (e' & He' & _ & Hp).
  assert (e' = p +:+ q) as -> by congruence. rewrite string_app_nil_r in Hp.
  assert (∃ err, parse p = Ret (GErr err, "")) as [err Herr].
  { by apply (parse_cut p q _ Hp). }
  cbn [read_entries]. rewrite Herr. cbn [mbind outcome_bind]. by destruct err.
Qed.

(** *** A log cut anywhere *)

(** [part_of_log ops kept m]: the first [m] operations are complete in the first
    [kept] bytes of the log, and the next one is not. *)
Inductive part_of_log : list Operation → nat → nat → Prop :=
| part_all kept : part_of_log [] kept 0
| part_torn op ops e kept :
    EncodeArray (log_entry op) = Ret e → (kept < String.length e)%nat →
    part_of_log (op :: ops) kept 0
| part_next op ops e kept m :
    EncodeArray (log_entry op) = Ret e → (String.length e ≤ kept)%nat →
    part_of_log ops (kept - String.length e) m →
    part_of_log (op :: ops) kept (S m).

Lemma str_take_all n s : (String.length s ≤ n)%nat → str_take n s = s.
Proof. revert n. induction s as [|c s IH]; intros [|n] Hn; simpl in *; [done..|lia|]. rewrite IH; [done|lia]. Qed.

Lemma str_take_app_ge n a b :
  (String.length a ≤ n)%nat → str_take n (a +:+ b) = a +:+ str_take (n - String.length a) b.
Proof.
  revert n. induction a as [|c a IH]; intros n Hn; simpl in *; [by rewrite Nat.sub_0_r|].
  destruct n as [|n]; [lia|]. simpl. rewrite IH; [done|lia].
Qed.

Lemma str_take_length n s : String.length (str_take n s) = Nat.min n (String.length s).
Proof. revert s. induction n as [|n IH]; intros [|c s]; simpl; [done..|]. by rewrite IH. Qed.

Lemma encode_log_ret ops : Forall op_wf ops → ∃ log, encode_log ops = Ret log.
Proof.
  induction 1 as [|op ops Hop _ [es Hes]]; [by exists ""|].
  destruct (encode_entry op "" Hop) as (e & He & _). exists (e +:+ es). simpl. by rewrite He; simpl; rewrite Hes.
Qed.

Section reader.
Context {A : Type} (f : A → list string → outcome A).

(** Reading a cut log applies [f] to the complete entries, in order. *)
Lemma read_log ops log kept acc fuel :
  Forall op_wf ops → encode_log ops = Ret log → (String.length (str_take kept log) + 1 < fuel)%nat →
  ∃ m, part_of_log ops kept m ∧
    read_entries f fuel acc (str_take kept log) =
      for_each (λ acc op, f acc (string_parts (log_entry op))) acc (take m ops).
Proof.
  intros Hwf. revert log kept acc fuel. induction Hwf as [|op ops Hop Hops IH]; intros log kept acc fuel Hlog Hf.
  { injection Hlog as <-. exists 0%nat. split; [constructor|].
    assert (str_take kept "" = "") as -> by (by destruct kept). destruct fuel; [lia|]. done. }
  simpl in Hlog. destruct (encode_entry op "" Hop) as (e & He & Hne & _). rewrite He in Hlog.
  destruct (encode_log_ret ops Hops) as [es Hes]. simpl in Hlog. rewrite Hes in Hlog.
  injection Hlog as <-. destruct (decide (String.length e ≤ kept)%nat) as [Hle|Hgt].
  - rewrite str_take_app_ge in Hf |- * by done. rewrite slength_app in Hf.
    assert (0 < String.length e)%nat by (destruct e; simpl; [done|lia]).
    destruct fuel as [|fuel]; [lia|]. rewrite (read_entries_step f fuel acc op e) by done.
    destruct (f acc (string_parts (log_entry op))) as [acc'| | |] eqn:Ef.
    + destruct (IH es (kept - String.length e)%nat acc' fuel Hes ltac:(lia)) as (m & Hpart & Hread).
      exists (S m). split; [by econstructor|]. simpl. by rewrite Ef.
    + destruct (IH es (kept - String.length e)%nat acc fuel Hes ltac:(lia)) as (m & Hpart & _).
      exists (S m). split; [by econstructor|]. simpl. by rewrite Ef.
    + destruct (IH es (kept - String.length e)%nat acc fuel Hes ltac:(lia)) as (m & Hpart & _).
      exists (S m). split; [by econstructor|]. simpl. by rewrite Ef.
    + destruct (IH es (kept - String.length e)%nat acc fuel Hes ltac:(lia)) as (m & Hpart & _).
      exists (S m). split; [by econstructor|]. simpl. by rewrite Ef.
  - exists 0%nat. split; [eapply part_torn; [done|lia]|].
    rewrite str_take_app_le by lia. destruct fuel as [|[|fuel]]; [lia..|].
    apply (read_entries_torn f fuel acc op e (str_take kept e) (str_drop kept e)); [done..| |].
    + symmetry. apply str_take_drop.
    + intros E. apply (f_equal String.length) in E. simpl in E.
      pose proof (str_take_drop kept e) as Htd. apply (f_equal String.length) in Htd.
      rewrite slength_app, str_take_length in Htd. lia.
Qed.
End reader.

Lemma collect_ops ops acc :
  Forall op_wf ops →
  for_each (λ acc op, mret (acc ++ [operation_of (string_parts (log_entry op))])) acc ops
  = Ret (acc ++ ops).
Proof.
  intros Hwf. revert acc. induction Hwf as [|op ops Hop _ IH]; intros acc; simpl; [by rewrite app_nil_r|].
  rewrite IH, operation_of_entry by done. by rewrite <-(assoc_L (++)).
Qed.

Lemma ReadOperations_cut ops log kept :
  Forall op_wf ops → encode_log ops = Ret log →
  ∃ m, part_of_log ops kept m ∧ ReadOperations (str_take kept log) = Ret (take m ops).
Proof.
  intros Hwf Hlog. unfold ReadOperations, read_fuel.
  destruct (read_log (λ ops parts, mret (ops ++ [operation_of parts])) ops log kept []
    (S (S (String.length (str_take kept log)))) Hwf Hlog ltac:(lia)) as (m & Hpart & ->).
  exists m. split; [done|]. rewrite collect_ops by (by apply Forall_take). done.
Qed.

(** All of the log holds all of the operations. *)
Lemma part_of_log_full ops log kept m :
  encode_log ops = Ret log → (String.length log ≤ kept)%nat → part_of_log ops kept m →
  m = length ops.
Proof.
  intros Hlog Hk Hpart. revert log Hlog Hk.
  induction Hpart as [kept|op ops e kept He Hlt|op ops e kept m He Hle _ IH]; intros log Hlog Hk; [done| |];
    simpl in Hlog; rewrite He in Hlog; simpl in Hlog;
    destruct (encode_log ops) as [es| | |]; try done; injection Hlog as <-; rewrite slength_app in Hk.
  - lia.
  - simpl. f_equal. apply (IH es); [done|lia].
Qed.

(** ** Recovery *)

Section recovered.
Context {S : Type} `{!KVStore S}.

(** The entries a store holds after the operations, applied at the clock. *)
Fixpoint spec_replay (cap : Z) (clock : nat → Z) (i : nat) (ops : list Operation) (es : list entry) :
    list entry :=
  match ops with
  | [] => es
  | op :: ops =>
      spec_replay cap clock (i + 1) ops
        (if decide (Type_ op = "SET") then
           spec_set cap (Key op) (Value op) (spec_expiry (seconds (TTL op)) (clock i)) es
         else spec_del (Key op) es)
  end.

Lemma apply_op_eq clock i s op :
  apply_op clock (i, s) op =
  if decide (Type_ op = "SET") then
    s ← kv_set s (Key op) (Value op) (seconds (TTL op)) (clock i); mret (i + 1, s)%nat
  else if decide (Type_ op = "DEL") then
    s ← kv_delete s (Key op); mret (i + 1, s)%nat
  else mret (i, s).
Proof. done. Qed.

Lemma apply_ops_holds clock i ops s es :
  Forall op_wf ops → kv_holds s es →
  ∃ s', for_each (apply_op clock) (i, s) ops = Ret ((i + length ops)%nat, s') ∧
    kv_cap s' = kv_cap s ∧ kv_holds s' (spec_replay (kv_cap s) clock i ops es).
Proof.
  intros Hwf. revert i s es. induction Hwf as [|op ops (_ & _ & _ & Hop) _ IH]; intros i s es Hs.
  { exists s. simpl. by rewrite Nat.add_0_r. }
  cbn [for_each spec_replay]. rewrite apply_op_eq. cbn [length].
  destruct (decide (Type_ op = "SET")) as [E|E].
  - destruct (kv_set_holds s es (Key op) (Value op) (seconds (TTL op)) (clock i) Hs)
      as (s1 & -> & Hc & Hs1). cbn [mbind outcome_bind].
    destruct (IH (i + 1)%nat s1 _ Hs1) as (s' & Hret & Hc' & Hs'). exists s'.
    rewrite Hc in *. split_and!; [|done|done].
    replace (i + Datatypes.S (length ops))%nat with (i + 1 + length ops)%nat by lia. done.
  - destruct Hop as [?|(Ed & _ & _)]; [done|]. rewrite decide_True by done.
    destruct (kv_delete_holds s es (Key op) Hs) as (s1 & -> & Hc & Hs1). cbn [mbind outcome_bind].
    destruct (IH (i + 1)%nat s1 _ Hs1) as (s' & Hret & Hc' & Hs'). exists s'.
    rewrite Hc in *. split_and!; [|done|done].
    replace (i + Datatypes.S (length ops))%nat with (i + 1 + length ops)%nat by lia. done.
Qed.

Lemma RecoverAOF_cut clock ops log kept s es :
  Forall op_wf ops → encode_log ops = Ret log → kv_holds s es →
  ∃ m s', part_of_log ops kept m ∧
    RecoverAOF clock None (Some (str_take kept log)) s = Ret s' ∧ kv_cap s' = kv_cap s ∧
    kv_holds s' (spec_replay (kv_cap s) clock 0 (take m ops) es).
Proof.
  intros Hwf Hlog Hs. destruct (ReadOperations_cut ops log kept Hwf Hlog) as (m & Hpart & Hread).
  destruct (apply_ops_holds clock 0 (take m ops) s es (Forall_take _ _ _ Hwf) Hs) as (s' & Hret & Hc & Hs').
  exists m, s'. unfold RecoverAOF. cbn [mbind outcome_bind mret outcome_ret]. rewrite Hread.
  cbn [mbind outcome_bind]. rewrite Hret. done.
Qed.
End recovered.

(** ** Snapshots *)

(** The whole seconds written for an entry, and the operation written. *)
Definition remaining (now exp : Z) : Z := whole_seconds (if time_IsZero exp then 0 else exp - now).

Definition dump_op (now : Z) (e : entry) : Operation :=
  mkOp "SET" e.1 e.2.1 (remaining now e.2.2).

Definition dumpable (now : Z) (e : entry) : Prop := op_wf (dump_op now e).

Lemma dump_entry_spec now k v exp :
  dump_entry k (Cache.mkEntry v exp) now =
  (if decide (live now (k, (v, exp))) then
     Some <$> EncodeArray (log_entry (dump_op now (k, (v, exp))))
   else mret None).
Proof.
  unfold dump_entry, live, remaining. cbn [fst snd Cache.ExpiresAt Cache.Value].
  unfold time_IsZero. destruct (Z.eqb_spec exp 0) as [->|Hne]; simpl negb.
  - cbn [andb]. rewrite decide_True by (intros [? _]; done). done.
  - cbn [andb]. unfold dump_op, remaining, time_IsZero, log_entry. simpl.
    destruct (Z.eqb_spec exp 0); [done|]. destruct (Z.ltb_spec (exp - now) 0).
    + rewrite decide_False; [done|]. intros H'. apply H'. lia.
    + rewrite decide_True; [done|]. lia.
Qed.

Lemma dump_loop_step snap out k now v exp :
  snap !! k = Some (Cache.mkEntry v exp) →
  dump_loop snap out (k, now) =
  (c ← (if decide (live now (k, (v, exp))) then
          Some <$> EncodeArray (log_entry (dump_op now (k, (v, exp))))
        else mret None); mret (out +:+ default "" c)).
Proof. intros Hk. unfold dump_loop. cbn [fst snd]. by rewrite Hk, dump_entry_spec. Qed.

(** The dump is the log of the live entries, in the order of the range loop. *)
Lemma dump_loop_log snap now keys es out :
  Forall2 (λ k e, k = e.1 ∧ snap !! k = Some (Cache.mkEntry e.2.1 e.2.2)) keys es →
  Forall (dumpable now) es →
  ∃ log, encode_log (dump_op now <$> filter (live now) es) = Ret log ∧
    for_each (dump_loop snap) out ((λ k, (k, now)) <$> keys) = Ret (out +:+ log).
Proof.
  intros HF. revert out. induction HF as [|k [k' [v exp]] keys es [-> Hk] _ IH]; intros out Hd.
  { exists "". by rewrite string_app_nil_r. }
  apply Forall_cons in Hd as [Hd Hds]. simpl in Hk.
  rewrite fmap_cons. cbn [for_each fst]. rewrite (dump_loop_step snap out k' now v exp Hk).
  rewrite filter_cons. destruct (decide (live now (k', (v, exp)))) as [Hl|Hl].
  - destruct (encode_entry _ "" Hd) as (e & He & _). rewrite He. cbn [fmap outcome_fmap mbind outcome_bind].
    destruct (IH (out +:+ e) Hds) as (log & Hlog & Hrest). exists (e +:+ log).
    rewrite fmap_cons. cbn [encode_log]. rewrite He. cbn [mbind outcome_bind]. rewrite Hlog.
    split; [done|]. simpl default. rewrite string_app_assoc. exact Hrest.
  - cbn [mbind outcome_bind mret outcome_ret]. destruct (IH out Hds) as (log & Hlog & Hrest).
    exists log. split; [done|]. simpl default. rewrite string_app_nil_r. exact Hrest.
Qed.

Section load.
Context {S : Type} `{!KVStore S}.

(** Loading an entry of a snapshot is applying its operation. *)
Lemma load_entry_apply clock st op :
  op_wf op → Type_ op = "SET" →
  load_entry clock st (string_parts (log_entry op)) = apply_op clock st op.
Proof.
  intros (_ & _ & Ht & _) Hop. destruct op as [t k v ttl]. cbn [Type_ TTL] in *. subst t.
  destruct st as [i s].
  transitivity (s ← kv_set s k v (match ParseInt (Itoa ttl) with Some n => seconds n | None => 0 end)
    (clock i); mret (i + 1, s)%nat); [done|].
  unfold ParseInt. by rewrite Atoi_Itoa.
Qed.

Lemma load_entries_apply clock st ops :
  Forall op_wf ops → Forall (λ op, Type_ op = "SET") ops →
  for_each (λ acc op, load_entry clock acc (string_parts (log_entry op))) st ops
  = for_each (apply_op clock) st ops.
Proof.
  intros Hwf. revert st. induction Hwf as [|op ops Hop _ IH]; intros st Hset; [done|].
  apply Forall_cons in Hset as [Hs Hset]. cbn [for_each]. rewrite load_entry_apply by done.
  destruct (apply_op clock st op); cbn [mbind outcome_bind]; [by apply IH|done..].
Qed.

Lemma LoadSnapshot_log clock ops log i s es :
  Forall op_wf ops → Forall (λ op, Type_ op = "SET") ops → encode_log ops = Ret log →
  kv_holds s es →
  ∃ s', LoadSnapshot clock log (i, s) = Ret ((i + length ops)%nat, s') ∧ kv_cap s' = kv_cap s ∧
    kv_holds s' (spec_replay (kv_cap s) clock i ops es).
Proof.
  intros Hwf Hset Hlog Hs. unfold LoadSnapshot, read_fuel.
  destruct (read_log (load_entry clock) ops log (String.length log) (i, s)
    (Datatypes.S (Datatypes.S (String.length log))) Hwf Hlog) as (m & Hpart & Hread).
  { rewrite str_take_all by lia. lia. }
  rewrite str_take_all in Hread by lia. rewrite Hread.
  rewrite (part_of_log_full ops log (String.length log) m Hlog ltac:(lia) Hpart), take_ge by lia.
  rewrite load_entries_apply by done. by apply apply_ops_holds.
Qed.
End load.

(** Setting distinct new keys in a store with room pushes them in front. *)
Lemma spec_replay_distinct cap t i ops es :
  NoDup ((Key <$> ops) ++ es.*1) → Forall (λ op, Type_ op = "SET") ops →
  Z.of_nat (length ops + length es) ≤ cap →
  spec_replay cap (λ _, t) i ops es =
  reverse ((λ op, (Key op, (Value op, spec_expiry (seconds (TTL op)) t))) <$> ops) ++ es.
Proof.
  intros Hnd Hset. revert i es Hnd. induction Hset as [|op ops Hop _ IH]; intros i es Hnd Hcap; [done|].
  rewrite fmap_cons. cbn [spec_replay]. rewrite decide_True by done. rewrite reverse_cons, <-(assoc_L (++)).
  rewrite fmap_cons in Hnd. cbn [app] in Hnd. apply NoDup_cons in Hnd as [Hk Hnd].
  rewrite elem_of_app in Hk. unfold spec_set.
  rewrite (proj2 (spec_find_None (Key op) es)) by tauto. simpl length in Hcap.
  destruct (Z.leb_spec cap (Z.of_nat (length es))); [lia|]. rewrite IH; [done| |simpl; lia].
  rewrite fmap_cons. simpl. apply NoDup_app in Hnd as (H1 & H2 & H3).
  apply NoDup_app. split_and!; [done| |apply NoDup_cons; split; [tauto|done]].
  intros x Hx [->|Hx']%elem_of_cons; [tauto|]. by apply (H2 x).
Qed.

(** What a snapshot brings back of an entry, loaded at time [t]. *)
Definition reload (now t : Z) (e : entry) : entry :=
  (e.1, (e.2.1, spec_expiry (seconds (remaining now e.2.2)) t)).

(** Replaying a dump into an empty store with room gives the live entries. *)
Lemma replay_dump cap now t i es :
  NoDup es.*1 → Z.of_nat (length es) ≤ cap →
  spec_replay cap (λ _, t) i (dump_op now <$> filter (live now) es) [] ≡ₚ
  reload now t <$> filter (live now) es.
Proof.
  intros Hnd Hcap.
  assert (Key <$> (dump_op now <$> filter (live now) es) = (filter (live now) es).*1) as Hkeys.
  { rewrite <-list_fmap_compose. by apply list_fmap_ext. }
  rewrite spec_replay_distinct; [|rewrite app_nil_r, Hkeys| |].
  - rewrite app_nil_r, reverse_Permutation, <-list_fmap_compose.
    apply reflexive_eq. by apply list_fmap_ext.
  - eapply sublist_NoDup; [done|apply (fmap_sublist fst), sublist_filter].
  - apply Forall_fmap, Forall_forall. by intros e _.
  - rewrite length_fmap. simpl. rewrite Nat.add_0_r. pose proof (length_filter (live now) es). lia.
Qed.

(** The keys of a snapshot in some order, with the entries they stand for. *)
Lemma snapshot_listing c es keys :
  cache_rep c es → keys ≡ₚ es.*1 →
  ∃ snap c' es2, Cache.Snapshot c = Ret (snap, c') ∧ cache_rep c' es ∧ es ≡ₚ es2 ∧ NoDup es2.*1 ∧
    Forall2 (λ k e, k = e.1 ∧ snap !! k = Some (Cache.mkEntry e.2.1 e.2.2)) keys es2.
Proof.
  intros Hc Hkeys. destruct (Snapshot_rep c es Hc) as (snap & c' & Hsnap & Hc' & Hlook).
  assert (NoDup es.*1) as Hnd by (by eapply (kv_holds_nodup (S := Cache.Cache))).
  apply (Permutation_map_inv fst) in Hkeys as (es2 & -> & Hp).
  exists snap, c', es2. split_and!; [done..|by rewrite <-Hp|].
  apply Forall2_fmap_l, Forall_Forall2_diag, Forall_forall. intros [k [v exp]] He. split; [done|].
  apply Hlook. by rewrite Hp.
Qed.

(** Both [rewriteAOF] and [CreateSnapshot] write the live entries as SET commands,
    in the order in which the range loop meets them. *)
Lemma copy_dump c es now keys :
  cache_rep c es → Forall (dumpable now) es → keys ≡ₚ es.*1 →
  ∃ snap c' es2 log, Cache.Snapshot c = Ret (snap, c') ∧ cache_rep c' es ∧ es ≡ₚ es2 ∧ NoDup es2.*1 ∧
    dump snap ((λ k, (k, now)) <$> keys) = Ret log ∧
    Forall op_wf (dump_op now <$> filter (live now) es2) ∧
    encode_log (dump_op now <$> filter (live now) es2) = Ret log.
Proof.
  intros Hc Hd Hkeys.
  destruct (snapshot_listing c es keys Hc Hkeys) as (snap & c' & es2 & Hsnap & Hc' & Hp & Hnd & HF).
  rewrite Hp in Hd. destruct (dump_loop_log snap now keys es2 "" HF Hd) as (log & Hlog & Hdump).
  exists snap, c', es2, log. split_and!; try done.
  apply Forall_fmap, Forall_forall. intros e [_ He]%list_elem_of_filter.
  rewrite Forall_forall in Hd. by apply Hd.
Qed.

(** The goroutine, when nothing is appended while it runs. *)
Lemma rewrite_goroutine_dump c es a now keys :
  cache_rep c es → Forall (dumpable now) es → keys ≡ₚ es.*1 →
  ∃ a' c' es2, rewrite_goroutine c a ((λ k, (k, now)) <$> keys) None = Ret (a', c') ∧
    cache_rep c' es ∧ es ≡ₚ es2 ∧ NoDup es2.*1 ∧ rewriting a' = false ∧
    Forall op_wf (dump_op now <$> filter (live now) es2) ∧
    encode_log (dump_op now <$> filter (live now) es2) = Ret (file a').
Proof.
  intros Hc Hd Hkeys.
  destruct (copy_dump c es now keys Hc Hd Hkeys) as (snap & c' & es2 & log & Hsnap & Hc' & Hp & Hnd & Hdump & Hwf & Hlog).
  eexists _, c', es2. split; [unfold rewrite_goroutine, rewriteAOF; rewrite Hsnap; cbn [mbind outcome_bind];
    rewrite Hdump; reflexivity|]. done.
Qed.

(** C20. A snapshot preserves the cache: taking one leaves the cache as it was and
    empties the log, and recovering from the two files into an empty store with
    room holds exactly the entries that had not expired, each with its value
    and, if it had one, a lifetime of its remaining whole seconds. *)
Theorem snapshot_roundtrip {S : Type} `{!KVStore S} (c : Cache.Cache) (es : list entry) (a : AOF)
    (now t : Z) (keys : list string) (s : S) :
  cache_rep c es → Forall (dumpable now) es → keys ≡ₚ es.*1 →
  kv_holds s [] → Z.of_nat (length es) ≤ kv_cap s →
  ∃ a' c' content s' es',
    CreateSnapshot c a ((λ k, (k, now)) <$> keys) None = Ret (GOk (), a', c') ∧
    cache_rep c' es ∧ snapshot_file a' = Some content ∧ file a' = "" ∧
    RecoverAOF (λ _, t) (snapshot_file a') (Some (file a')) s = Ret s' ∧
    kv_holds s' es' ∧ es' ≡ₚ reload now t <$> filter (live now) es.
Proof.
  intros Hc Hd Hkeys Hs Hcap.
  destruct (copy_dump c es now keys Hc Hd Hkeys) as (snap & c' & es2 & log & Hsnap & Hc' & Hp & Hnd & Hdump & Hwf & Hlog).
  unfold CreateSnapshot. rewrite Hsnap. cbn [mbind outcome_bind]. rewrite Hdump.
  cbn [mbind outcome_bind snapshot_swap]. set (ops := dump_op now <$> filter (live now) es2) in *.
  assert (Forall (λ op, Type_ op = "SET") ops) as Hset.
  { apply Forall_fmap, Forall_forall. by intros e _. }
  destruct (LoadSnapshot_log (λ _, t) ops log 0 s [] Hwf Hset Hlog Hs) as (s' & Hload & Hcap' & Hs').
  eexists _, _, _, s', _. split; [reflexivity|].
  cbn [snapshot_file file with_snapshot with_open with_file with_synced].
  split_and!; [done|reflexivity|done| |exact Hs'|].
  - unfold RecoverAOF. rewrite Hload. done.
  - rewrite Hp. apply replay_dump; [done|]. by rewrite <-(Permutation_length Hp).
Qed.

Lemma demo_dumpable : Forall (dumpable 12) demo_entries.
Proof.
  split_Forall;
    match goal with |- dumpable ?t ?e => apply (bool_decide_eq_true_1 (op_wf (dump_op t e))) end;
    by vm_compute.
Qed.

Lemma snapshot_roundtrip_witness :
  ∃ a' c' content (s' : Cache.Cache) es',
    CreateSnapshot demo_cache (NewAOF "old" None SyncAlways 2) ((λ k, (k, 12)) <$> ["b"; "a"]) None
      = Ret (GOk (), a', c') ∧
    cache_rep c' demo_entries ∧ snapshot_file a' = Some content ∧ file a' = "" ∧
    RecoverAOF (λ _, 100) (snapshot_file a') (Some (file a')) (Cache.NewCache 5 NewCollector) = Ret s' ∧
    kv_holds s' es' ∧ es' ≡ₚ reload 12 100 <$> filter (live 12) demo_entries.
Proof.
  apply (snapshot_roundtrip demo_cache demo_entries (NewAOF "old" None SyncAlways 2) 12 100 ["b"; "a"]
    (Cache.NewCache 5 NewCollector)).
  - apply demo_cache_rep.
  - apply demo_dumpable.
  - apply Permutation_swap.
  - apply (cache_rep_new 5 NewCollector).
  - by vm_compute.
Defined.

(** C13. Recovery after a crash: whatever prefix of the append-only file survives,
    recovery returns (it neither fails nor panics) and rebuilds the store from
    exactly the commands that are complete in the file, in order; a command cut
    in the middle is ignored, and with the whole file nothing is lost. *)
Theorem aof_crash_recovery {S : Type} `{!KVStore S} clock ops log kept (s : S) :
  Forall op_wf ops → encode_log ops = Ret log → kv_holds s [] →
  ∃ m s', part_of_log ops kept m ∧
    RecoverAOF clock None (Some (str_take kept log)) s = Ret s' ∧
    kv_holds s' (spec_replay (kv_cap s) clock 0 (take m ops) []) ∧
    ((String.length log ≤ kept)%nat → m = length ops).
Proof.
  intros Hwf Hlog Hs. destruct (RecoverAOF_cut clock ops log kept s [] Hwf Hlog Hs)
    as (m & s' & Hpart & Hret & _ & Hs').
  exists m, s'. split_and!; [done..|]. intros Hk. by eapply part_of_log_full.
Qed.

Definition demo_ops : list Operation :=
  [mkOp "SET" "a" "1" 0; mkOp "SET" "b" "2" 60; mkOp "DEL" "a" "" 0].

Lemma demo_ops_wf : Forall op_wf demo_ops.
Proof.
  split_Forall;
    match goal with |- op_wf ?o => apply (bool_decide_eq_true_1 (op_wf o)) end; by vm_compute.
Qed.

Definition demo_log : string :=
  match encode_log demo_ops with Ret log => log | _ => "" end.

(** Cut in the middle of the third command. *)
Lemma aof_crash_recovery_witness :
  ∃ m (s' : Cache.Cache), part_of_log demo_ops 70 m ∧
    RecoverAOF (λ _, 100) None (Some (str_take 70 demo_log)) (Cache.NewCache 5 NewCollector) = Ret s' ∧
    kv_holds s' (spec_replay (kv_cap (Cache.NewCache 5 NewCollector)) (λ _, 100) 0
      (take m demo_ops) []) ∧
    ((String.length demo_log ≤ 70)%nat → m = length demo_ops).
Proof.
  apply (aof_crash_recovery (λ _, 100) demo_ops demo_log 70 (Cache.NewCache 5 NewCollector)).
  - apply demo_ops_wf.
  - by vm_compute.
  - apply (cache_rep_new 5 NewCollector).
Defined.

Example demo_cut :
  ReadOperations (str_take 70 demo_log) = Ret [mkOp "SET" "a" "1" 0; mkOp "SET" "b" "2" 60].
Proof. by vm_compute. Qed.

(** Replaying the log rebuilds the cache: for any history of commands without
    TTL, the cache recovered from the log of the history holds exactly what the
    cache that executed the history holds, in the same recency order and after
    the same evictions, whenever recovery happens. *)
Theorem replay_equals_history (ops : list Operation) (log : string) (n : Z) (clock clock' : nat → Z)
    (m1 m2 : Collector) :
  Forall op_wf ops → Forall (λ op, TTL op = 0) ops → encode_log ops = Ret log →
  ∃ c c' es,
    for_each (apply_op clock) (0%nat, Cache.NewCache n m1) ops = Ret (length ops, c) ∧ cache_rep c es ∧
    RecoverAOF clock' None (Some log) (Cache.NewCache n m2) = Ret c' ∧ cache_rep c' es.
Proof.
  intros Hwf Httl Hlog.
  assert (∀ cap i es, spec_replay cap clock i ops es = spec_replay cap clock' i ops es) as Heq.
  { intros cap. clear Hwf Hlog. induction Httl as [|op ops Hop _ IH]; intros i es; [done|].
    cbn [spec_replay]. rewrite Hop. change (seconds 0) with 0. apply IH. }
  destruct (@apply_ops_holds _ Cache_KVStore clock 0 ops (Cache.NewCache n m1) [] Hwf
    (cache_rep_new n m1))
    as (c & Hret & _ & Hc).
  destruct (@RecoverAOF_cut _ Cache_KVStore clock' ops log (String.length log) (Cache.NewCache n m2) []
    Hwf Hlog (cache_rep_new n m2)) as (m & c' & Hpart & Hrec & _ & Hc').
  rewrite str_take_all in Hrec by lia.
  rewrite (part_of_log_full ops log (String.length log) m Hlog ltac:(lia) Hpart), take_ge in Hc'
    by lia.
  exists c, c', (spec_replay n clock 0 ops []). split_and!; [done|done|done|].
  rewrite Heq. exact Hc'.
Qed.

Definition demo_ops0 : list Operation :=
  [mkOp "SET" "a" "1" 0; mkOp "SET" "b" "2" 0; mkOp "SET" "c" "3" 0; mkOp "DEL" "b" "" 0].

Lemma replay_equals_history_witness :
  ∃ c c' es,
    for_each (apply_op (λ i, Z.of_nat i)) (0%nat, Cache.NewCache 2 NewCollector) demo_ops0
      = Ret (length demo_ops0, c) ∧ cache_rep c es ∧
    RecoverAOF (λ _, 500) None
      (Some match encode_log demo_ops0 with Ret log => log | _ => "" end) (Cache.NewCache 2 NewCollector)
      = Ret c' ∧ cache_rep c' es.
Proof.
  apply replay_equals_history.
  - split_Forall;
      match goal with |- op_wf ?o => apply (bool_decide_eq_true_1 (op_wf o)) end; by vm_compute.
  - split_Forall; reflexivity.
  - by vm_compute.
Defined.

(** With the policy "always" an acknowledged append survives any crash: when
    [Append] returns without an error, every state of the file a crash can leave
    is the old content followed by the command. *)
Theorem sync_always_durable a data io started a' kept :
  policy a = SyncAlways → Append a data io = (GOk started, a') → crash_possible a' kept →
  crash a' kept = file a +:+ data.
Proof.
  intros Hp. unfold Append. destruct (file_open a); [|done]. simpl.
  destruct (write_fails io); [done|]. rewrite Hp. destruct (sync_fails io); [done|].
  set (a1 := with_synced _ _). destruct (checkRewriteTrigger a1) as [a2 st] eqn:E. intros [= <- <-].
  assert (file a2 = file a +:+ data ∧ synced a2 = String.length (file a2)) as [Hf Hs].
  { revert E. unfold checkRewriteTrigger, a1. repeat case_match; intros [= <- <-]; done. }
  unfold crash_possible, crash. rewrite Hs. intros Hk. rewrite str_take_all by lia. done.
Qed.

Lemma sync_always_durable_witness :
  let a := NewAOF demo_log None SyncAlways 2 in
  crash (Append a "*0" io_ok).2 (String.length demo_log + 2) = file a +:+ "*0".
Proof.
  intros a. apply (sync_always_durable a "*0" io_ok false (Append a "*0" io_ok).2).
  - reflexivity.
  - by vm_compute.
  - by vm_compute; repeat constructor.
Defined.

(** Commands appended while a snapshot is being written are lost: the snapshot
    holds the cache as it was copied, and the swap then empties the log, so
    after a crash the recovered cache does not have a key whose SET was
    executed, appended and fsynced before the swap. *)
Theorem snapshot_loses_concurrent_append :
  let c0 := Cache.NewCache 5 NewCollector in
  let a0 := NewAOF "" None SyncAlways 2 in
  ∃ snap c1 c2 temp cmd a1 a2 c3,
    Cache.Snapshot c0 = Ret (snap, c1) ∧ dump snap [] = Ret temp ∧
    Cache.Set_ c1 "k" "v" 0 7 = Ret c2 ∧
    EncodeArray [VStr "SET"; VStr "k"; VStr "v"; VStr "0"] = Ret cmd ∧
    Append a0 cmd io_ok = (GOk false, a1) ∧ synced a1 = String.length cmd ∧
    snapshot_swap a1 temp None = (GOk (), a2) ∧
    RecoverAOF (λ _, 9) (snapshot_file a2) (Some (file a2)) (Cache.NewCache 5 NewCollector) = Ret c3 ∧
    fst <$> (match Cache.Get c2 "k" 8 with Ret r => Some r | _ => None end) = Some ("v", true) ∧
    fst <$> (match Cache.Get c3 "k" 9 with Ret r => Some r | _ => None end) = Some ("", false).
Proof.
  intros c0 a0. do 8 eexists. split_and!; [by vm_compute..|by vm_compute|by vm_compute].
Qed.

(** An entry with less than a second to live is written to snapshots and
    rewritten logs with a TTL of 0, which is read back as no TTL: it never
    expires after recovery. *)
Theorem subsecond_ttl_immortal now t k v :
  0 < now →
  dump_op now (k, (v, now + 500000000)) = mkOp "SET" k v 0 ∧
  reload now t (k, (v, now + 500000000)) = (k, (v, 0)).
Proof.
  intros Hn. unfold dump_op, reload, remaining, time_IsZero. cbn [fst snd].
  destruct (Z.eqb_spec (now + 500000000) 0); [lia|].
  replace (now + 500000000 - now) with 500000000 by lia.
  assert (whole_seconds 500000000 = 0) as -> by (by vm_compute). done.
Qed.

Lemma subsecond_ttl_immortal_witness :
  dump_op 42 ("k", ("v", 42 + 500000000)) = mkOp "SET" "k" "v" 0 ∧
  reload 42 99 ("k", ("v", 42 + 500000000)) = ("k", ("v", 0)).
Proof. apply (subsecond_ttl_immortal 42 99 "k" "v"). by vm_compute. Defined.
End Persistence.
