(* ===== verification/Leader.v ===== *)
(** * internal/replication/leader.go: the replication leader

    A [*FollowerConn] is a key of the store [conns]; [wire] is everything written
    to its connection; a write to a connection that was closed fails, which the
    code only logs.  The sequence number is an int64 that wraps. *)

From S2P Require Import Prelude GoStd Lru Metrics Cache CacheSpec Resp ReplProtocol Config.
Import ReplProtocol.
Local Open Scope Z_scope.

Module Leader.

Definition fptr := positive.

Record FollowerConn := mkF {
  f_id : string;
  wire : string;
  lastHeartbeat : Z;
  conn_closed : bool
}.

Record Leader := mkLeader {
  followers : list fptr;
  conns : gmap fptr FollowerConn;
  next_conn : fptr;
  seqNum : Z
}.

Definition new_leader : Leader := mkLeader [] ∅ 1%positive 0.

(** [can_listen]: whether a port can be listened on.  The listener and the port
    are only used to accept connections. *)
Definition NewLeader (can_listen : Z → bool) (replPort : Z) : gres string Leader :=
  let replPort := if replPort =? 0 then Config.cfg_Port Config.DefaultConfig + 1 else replPort in
  if can_listen replPort then GOk new_leader else GErr "listen failed".

Definition with_seq (l : Leader) (n : Z) := mkLeader (followers l) (conns l) (next_conn l) n.
Definition with_conns (l : Leader) m := mkLeader (followers l) m (next_conn l) (seqNum l).
Definition with_followers (l : Leader) fs := mkLeader fs (conns l) (next_conn l) (seqNum l).

(** [follower.conn.Write(encoded)]; an error is only logged. *)
Definition write_to (data : string) (l : Leader) (p : fptr) : Leader :=
  match conns l !! p with
  | Some f => if conn_closed f then l
              else with_conns l (<[p := mkF (f_id f) (wire f +:+ data) (lastHeartbeat f) false]> (conns l))
  | None => l
  end.

Definition next_seq (l : Leader) : Leader := with_seq l (wrap64 (seqNum l + 1)).

Definition Replicate (l : Leader) (operation key value : string) (ttl : Z) :
    outcome (gres string () * Leader) :=
  let l := next_seq l in
  let cmd := mkRepl (seqNum l) operation key value ttl in
  encoded ← EncodeReplicateCommand (Some cmd);
  match encoded with
  | GErr e => mret (GErr e, l)
  | GOk encoded => mret (GOk (), foldl (write_to encoded) l (followers l))
  end.

(** One tick of [sendHeartbeats]. *)
Definition heartbeat_tick (l : Leader) : outcome Leader :=
  encoded ← EncodeHeartbeatCommand (Some (mkBeat (seqNum l) "leader"));
  mret match encoded with
       | GErr _ => l
       | GOk encoded => foldl (write_to encoded) l (followers l)
       end.

Definition heartbeat_timeout : Z := 15 * Second.

(** One tick of [monitorFollowerHealth]: silent connections are closed. *)
Definition monitor_one (now : Z) (l : Leader) (p : fptr) : Leader :=
  match conns l !! p with
  | Some f =>
      if negb (time_IsZero (lastHeartbeat f)) && (heartbeat_timeout <? now - lastHeartbeat f)
      then with_conns l (<[p := mkF (f_id f) (wire f) (lastHeartbeat f) true]> (conns l))
      else l
  | None => l
  end.
Definition monitor_tick (l : Leader) (now : Z) : Leader := foldl (monitor_one now) l (followers l).

(** A heartbeat read from a follower. *)
Definition record_heartbeat (l : Leader) (p : fptr) (now : Z) : Leader :=
  match conns l !! p with
  | Some f => with_conns l (<[p := mkF (f_id f) (wire f) now (conn_closed f)]> (conns l))
  | None => l
  end.

Definition addFollower (l : Leader) (id : string) (sent : string) (now : Z) : fptr * Leader :=
  let p := next_conn l in
  (p, mkLeader (followers l ++ [p]) (<[p := mkF id sent now false]> (conns l)) (p + 1)%positive (seqNum l)).

(** The loop of [removeFollower]: the first follower with that id is replaced by
    the last one and the list is cut. *)
Fixpoint follower_index (l : Leader) (id : string) (fs : list fptr) (i : nat) : option nat :=
  match fs with
  | [] => None
  | p :: fs => if decide (f_id <$> conns l !! p = Some id) then Some i
               else follower_index l id fs (S i)
  end.

Definition removeFollower (l : Leader) (id : string) : Leader :=
  match follower_index l id (followers l) 0 with
  | None => l
  | Some i =>
      match last (followers l) with
      | None => l
      | Some p => with_followers l (take (length (followers l) - 1) (<[i := p]> (followers l)))
      end
  end.

(** The connection of a follower is closed by the goroutine that served it. *)
Definition close_conn (l : Leader) (p : fptr) : Leader :=
  match conns l !! p with
  | Some f => with_conns l (<[p := mkF (f_id f) (wire f) (lastHeartbeat f) true]> (conns l))
  | None => l
  end.

(** One turn of the read loop of [handleFollower], on what [protocol.Parse]
    returned: the flag says whether the loop goes on.  The first element of the
    array is read without a length check. *)
Definition follower_turn (l : Leader) (p : fptr) (id : string) (result : gres perr value) (now : Z) :
    outcome (bool * Leader) :=
  match result with
  | GErr _ => mret (false, close_conn (removeFollower l id) p)
  | GOk (VSlice resultSlice) =>
      command ← or_panic (resultSlice !! 0%nat);
      mret (true, if decide (str_of command = Some CmdHeartbeat) then record_heartbeat l p now else l)
  | GOk _ => mret (true, l)
  end.

(** ** The initial synchronisation *)

(** One turn of the loop of [handleFollower]: the sequence number grows even for
    an entry that is skipped because it has expired.  [broken]: the connection no
    longer takes what is written to it. *)
Definition sync_entry (broken : bool) (st : string * Leader) (key : string) (e : Cache.SnapshotEntry)
    (now : Z) : outcome (gres string () * (string * Leader)) :=
  let '(out, l) := st in
  let l := next_seq l in
  let expires := Cache.ExpiresAt e in
  let ttl := if time_IsZero expires then 0 else expires - now in
  if negb (time_IsZero expires) && (ttl <? 0) then mret (GOk (), (out, l))
  else
    encoded ← EncodeReplicateCommand
      (Some (mkRepl (seqNum l) OpSet key (Cache.Value e) (whole_seconds ttl)));
    mret match encoded with
         | GErr e => (GErr e, (out, l))
         | GOk encoded =>
             if broken then (GErr "Error sending snapshot", (out, l)) else (GOk (), (out +:+ encoded, l))
         end.

(** [breaks]: how many turns the connection lasts, if it breaks at all. *)
Fixpoint sync_loop (snapshot : gmap string Cache.SnapshotEntry) (order : list (string * Z))
    (breaks : option nat) (st : string * Leader) : outcome (gres string () * (string * Leader)) :=
  match order with
  | [] => mret (GOk (), st)
  | (key, now) :: order =>
      match snapshot !! key with
      | None => sync_loop snapshot order breaks st
      | Some e =>
          '(r, st) ← sync_entry (bool_decide (breaks = Some 0%nat)) st key e now;
          match r with
          | GErr err => mret (GErr err, st)
          | GOk _ => sync_loop snapshot order (Nat.pred <$> breaks) st
          end
      end
  end.

(** What [handleFollower] sends before it tracks the follower: the snapshot and
    the end mark.  A connection that breaks during the loop or later fails the
    write or the flush of the end mark at the latest. *)
Definition sync_bytes (c : Cache.Cache) (l : Leader) (order : list (string * Z)) (breaks : option nat) :
    outcome (gres string () * (string * Leader) * Cache.Cache) :=
  '(snapshot, c) ← Cache.Snapshot c;
  '(r, (out, l)) ← sync_loop snapshot order breaks ("", l);
  match r with
  | GErr e => mret (GErr e, (out, l), c)
  | GOk _ =>
      syncEnd ← EncodeSyncEnd (seqNum l);
      mret match breaks with
           | Some _ => (GErr "Error sending SYNCEND", (out, l), c)
           | None => (GOk (), (out +:+ syncEnd, l), c)
           end
  end.

(** [handleFollower] on a sync request, when no command is replicated meanwhile:
    after an error the connection is closed and the follower is not tracked. *)
Definition handle_sync (c : Cache.Cache) (l : Leader) (req : SyncRequest) (order : list (string * Z))
    (breaks : option nat) (now : Z) : outcome (gres string fptr * Leader * Cache.Cache) :=
  '(r, (out, l), c) ← sync_bytes c l order breaks;
  match r with
  | GErr e => mret (GErr e, l, c)
  | GOk _ => let '(p, l) := addFollower l (FollowerID req) out now in mret (GOk p, l, c)
  end.

(** A follower whose connection breaks during the synchronisation is not tracked;
    only the sequence number has moved. *)
Lemma sync_loop_followers snapshot order breaks out l r out' l' :
  sync_loop snapshot order breaks (out, l) = Ret (r, (out', l')) →
  followers l' = followers l ∧ conns l' = conns l.
Proof.
  revert breaks out l. induction order as [|[key now] order IH]; intros breaks out l H; cbn [sync_loop] in H.
  { injection H as _ _ <-. done. }
  destruct (snapshot !! key) as [e|]; [|by eapply IH]. unfold sync_entry in H.
  destruct (negb _ && _).
  { cbn [mbind outcome_bind mret outcome_ret] in H. by apply IH in H. }
  destruct (EncodeReplicateCommand _) as [[enc|err]| | |]; [..|done|done|done];
    cbn [mbind outcome_bind mret outcome_ret] in H.
  - destruct (bool_decide _); cbn [mbind outcome_bind mret outcome_ret] in H; [|by apply IH in H].
    injection H as _ _ <-. done.
  - injection H as _ _ <-. done.
Qed.

Theorem broken_sync_untracked c l req order n now r l' c' :
  handle_sync c l req order (Some n) now = Ret (r, l', c') →
  (∃ e, r = GErr e) ∧ followers l' = followers l ∧ conns l' = conns l.
Proof.
  unfold handle_sync, sync_bytes. destruct (Cache.Snapshot c) as [[snap c1]| | |]; [|done..].
  cbn [mbind outcome_bind]. destruct (sync_loop snap order (Some n) ("", l)) as [[r1 [out l1]]| | |] eqn:E; [|done..].
  apply sync_loop_followers in E as [<- <-]. cbn [mbind outcome_bind].
  destruct r1 as [?|e]; cbn [mret outcome_ret mbind outcome_bind].
  - destruct (EncodeSyncEnd (seqNum l1)); [|done..]. intros [= <- <- <-]. eauto.
  - intros [= <- <- <-]. eauto.
Qed.

(** ** What a follower receives *)

Definition leader_wf (l : Leader) : Prop :=
  NoDup (followers l) ∧ (∀ p, p ∈ followers l → is_Some (conns l !! p)) ∧
  (∀ p, is_Some (conns l !! p) → (p < next_conn l)%positive).

Lemma write_to_followers l p data : followers (write_to data l p) = followers l ∧
  seqNum (write_to data l p) = seqNum l ∧ next_conn (write_to data l p) = next_conn l.
Proof. unfold write_to. by repeat case_match. Qed.

Lemma write_to_conns l p data q :
  conns (write_to data l p) !! q =
  if decide (q = p) then
    (λ f, if conn_closed f then f else mkF (f_id f) (wire f +:+ data) (lastHeartbeat f) false)
      <$> conns l !! q
  else conns l !! q.
Proof.
  unfold write_to. destruct (conns l !! p) as [f|] eqn:Hp.
  - destruct (conn_closed f) eqn:Hc.
    + case_decide as E; [|done]. subst. rewrite Hp. simpl. by rewrite Hc.
    + simpl. case_decide as E.
      * subst. rewrite lookup_insert_eq, Hp. simpl. by rewrite Hc.
      * by rewrite lookup_insert_ne.
  - case_decide as E; [|done]. subst. by rewrite Hp.
Qed.

Lemma write_all_spec data fs l :
  NoDup fs →
  let l' := foldl (write_to data) l fs in
  followers l' = followers l ∧ seqNum l' = seqNum l ∧ next_conn l' = next_conn l ∧
  ∀ q, conns l' !! q =
    if decide (q ∈ fs) then
      (λ f, if conn_closed f then f else mkF (f_id f) (wire f +:+ data) (lastHeartbeat f) false)
        <$> conns l !! q
    else conns l !! q.
Proof.
  intros Hnd. revert l. induction Hnd as [|p fs Hp Hnd IH]; intros l; cbn [foldl].
  { split_and!; [done..|]. intros q. rewrite decide_False; [done|]. by intros ?%elem_of_nil. }
  destruct (IH (write_to data l p)) as (H1 & H2 & H3 & H4).
  destruct (write_to_followers l p data) as (E1 & E2 & E3).
  split_and!; [congruence..|]. intros q. rewrite H4, write_to_conns.
  assert (q ∈ p :: fs ↔ q = p ∨ q ∈ fs) as Hiff by apply elem_of_cons.
  repeat case_decide; subst; (done || tauto).
Qed.

(** *** The replicated stream *)

Record request := mkReq { rq_op : string; rq_key : string; rq_value : string; rq_ttl : Z }.

Definition request_wf (r : request) : Prop :=
  slen (rq_key r) ≤ maxAlloc ∧ slen (rq_value r) ≤ maxAlloc ∧ int64_range (rq_ttl r) ∧
  (rq_op r = OpSet ∨ rq_op r = OpDelete ∧ rq_value r = "" ∧ rq_ttl r = 0).

(** The commands of successive [Replicate] calls that start after [n]. *)
Fixpoint numbered (n : Z) (rs : list request) : list ReplicateCommand :=
  match rs with
  | [] => []
  | r :: rs =>
      let n := wrap64 (n + 1) in
      mkRepl n (rq_op r) (rq_key r) (rq_value r) (rq_ttl r) :: numbered n rs
  end.

Definition replicate_request (l : Leader) (r : request) : outcome Leader :=
  '(_, l) ← Replicate l (rq_op r) (rq_key r) (rq_value r) (rq_ttl r); mret l.

Lemma numbered_wf n rs : Forall request_wf rs → Forall repl_wf (numbered n rs).
Proof.
  intros Hrs. revert n. induction Hrs as [|r rs (Hk & Hv & Ht & Hop) _ IH]; intros n; cbn [numbered].
  - apply Forall_nil_2.
  - apply Forall_cons_2; [|apply IH]. unfold repl_wf. cbn [SeqNum Operation Key Value TTL].
    split_and!; [done..|apply wrap64_range|done|done].
Qed.

Lemma leader_wf_write data l : leader_wf l → leader_wf (foldl (write_to data) l (followers l)).
Proof.
  intros (Hnd & Hf & Hn). destruct (write_all_spec data (followers l) l Hnd) as (E1 & E2 & E3 & E4).
  split_and!.
  - by rewrite E1.
  - intros p. rewrite E1, E4. intros Hp. rewrite decide_True by done.
    rewrite fmap_is_Some. by apply Hf.
  - intros p. rewrite E3, E4. case_decide; rewrite ?fmap_is_Some; apply Hn.
Qed.

Lemma leader_wf_seq l n : leader_wf l → leader_wf (with_seq l n).
Proof. done. Qed.

Lemma Replicate_spec l r :
  leader_wf l → request_wf r →
  let n := wrap64 (seqNum l + 1) in
  ∃ enc l',
    codec_encode (mkRepl n (rq_op r) (rq_key r) (rq_value r) (rq_ttl r)) = Ret (GOk enc) ∧
    Replicate l (rq_op r) (rq_key r) (rq_value r) (rq_ttl r) = Ret (GOk (), l') ∧
    leader_wf l' ∧ followers l' = followers l ∧ seqNum l' = n ∧
    ∀ q f, q ∈ followers l → conns l !! q = Some f → conn_closed f = false →
      conns l' !! q = Some (mkF (f_id f) (wire f +:+ enc) (lastHeartbeat f) false).
Proof.
  intros Hwf Hr n.
  assert (repl_wf (mkRepl n (rq_op r) (rq_key r) (rq_value r) (rq_ttl r))) as Hm.
  { pose proof (numbered_wf (seqNum l) [r] (Forall_cons_2 _ _ _ Hr (Forall_nil_2 _))) as H.
    by apply Forall_cons in H as [H _]. }
  destruct (@codec_roundtrip _ repl_codec _ "" Hm) as (enc & He & _).
  assert (leader_wf (next_seq l)) as Hwf' by by apply leader_wf_seq.
  destruct (write_all_spec enc (followers (next_seq l)) (next_seq l)) as (E1 & E2 & E3 & E4); [apply Hwf|].
  exists enc, (foldl (write_to enc) (next_seq l) (followers (next_seq l))).
  split; [exact He|]. split_and!; [|by apply leader_wf_write|exact E1|exact E2|].
  - unfold Replicate. change (seqNum (next_seq l)) with n.
    change (EncodeReplicateCommand (Some ?m)) with (codec_encode m). by rewrite He.
  - intros q f Hq Hc Ho. rewrite E4, decide_True by exact Hq.
    change (conns (next_seq l)) with (conns l). rewrite Hc. simpl. by rewrite Ho.
Qed.

Lemma replicate_all_spec rs l p f :
  leader_wf l → p ∈ followers l → conns l !! p = Some f → conn_closed f = false →
  Forall request_wf rs →
  ∃ enc l', for_each replicate_request l rs = Ret l' ∧
    encode_all (numbered (seqNum l) rs) = Ret (GOk enc) ∧
    leader_wf l' ∧ followers l' = followers l ∧
    conns l' !! p = Some (mkF (f_id f) (wire f +:+ enc) (lastHeartbeat f) false).
Proof.
  intros Hwf Hp Hf Ho Hrs. revert l f Hwf Hp Hf Ho.
  induction Hrs as [|r rs Hr _ IH]; intros l f Hwf Hp Hf Ho; cbn [for_each numbered encode_all].
  { exists "", l. split_and!; [done..|]. rewrite Hf. destruct f; simpl in *. subst. by rewrite string_app_nil_r. }
  destruct (Replicate_spec l r Hwf Hr) as (e & l1 & He & Hrep & Hwf1 & Hfo & Hseq & Hw).
  pose proof (Hw p f Hp Hf Ho) as Hf1.
  rewrite <-Hfo in Hp.
  destruct (IH l1 _ Hwf1 Hp Hf1 eq_refl) as (es & l' & Hrun & Hes & Hwf' & Hfo' & Hp').
  exists (e +:+ es), l'. 
  assert (replicate_request l r = Ret l1) as -> by (unfold replicate_request; by rewrite Hrep).
  cbn [mbind outcome_bind].
  split_and!; [exact Hrun| |done|congruence|].
  - rewrite He. cbn [mbind outcome_bind]. rewrite Hseq in Hes. by rewrite Hes.
  - rewrite Hp'. cbn [f_id wire lastHeartbeat]. by rewrite string_app_assoc.
Qed.

Lemma follower_stream (l : Leader) (p : fptr) (f : FollowerConn) (rs : list request)
    (rest : string) :
  leader_wf l → p ∈ followers l → conns l !! p = Some f → conn_closed f = false →
  Forall request_wf rs →
  ∃ l' enc, for_each replicate_request l rs = Ret l' ∧ p ∈ followers l' ∧
    wire <$> conns l' !! p = Some (wire f +:+ enc) ∧
    decode_n (length rs) (enc +:+ rest) = Ret (GOk (numbered (seqNum l) rs), rest).
Proof.
  intros Hwf Hp Hf Ho Hrs.
  destruct (replicate_all_spec rs l p f Hwf Hp Hf Ho Hrs) as (enc & l' & Hrun & He & _ & Hfo & Hp').
  destruct (stream_roundtrip (numbered (seqNum l) rs) rest) as (enc' & He' & Hdec); [by apply numbered_wf|].
  assert (enc' = enc) as -> by congruence.
  exists l', enc. rewrite Hp'. split_and!; [done|by rewrite Hfo|done|].
  assert (length (numbered (seqNum l) rs) = length rs) as Hlen.
  { generalize (seqNum l). clear. induction rs as [|r rs IH]; intros n; cbn [numbered length]; [done|]. by rewrite IH. }
  by rewrite Hlen in Hdec.
Qed.

(** What the leader replicates is what a follower reads: whatever sequence of
    writes is replicated while a follower is tracked and its connection is open,
    the bytes that its connection carries decode to exactly these commands, in
    order, with consecutive sequence numbers, and nothing else; replication
    never fails and keeps the follower tracked. *)
Theorem follower_receives_all (l : Leader) (p : fptr) (f : FollowerConn) (rs : list request)
    (rest : string) :
  leader_wf l → p ∈ followers l → conns l !! p = Some f → conn_closed f = false →
  Forall request_wf rs →
  ∃ l' enc, for_each replicate_request l rs = Ret l' ∧ p ∈ followers l' ∧
    wire <$> conns l' !! p = Some (wire f +:+ enc) ∧
    decode_n (length rs) (enc +:+ rest) = Ret (GOk (numbered (seqNum l) rs), rest).
Proof. apply follower_stream. Qed.

Definition demo_leader : Leader := (addFollower new_leader "f1" "+sync" 100).2.
Definition demo_requests : list request := [mkReq OpSet "k" "v" 60; mkReq OpDelete "k" "" 0].

Lemma demo_leader_wf : leader_wf demo_leader.
Proof.
  split_and!.
  - apply NoDup_singleton.
  - intros p ->%list_elem_of_singleton. by eexists.
  - intros p [f Hf]. unfold demo_leader, addFollower in Hf. cbn [snd conns] in Hf.
    apply lookup_insert_Some in Hf as [[<- _]|[_ Hf]]; [done|].
    by cbn in Hf; rewrite lookup_empty in Hf.
Qed.

Lemma follower_receives_all_witness :
  ∃ l' enc, for_each replicate_request demo_leader demo_requests = Ret l' ∧ 1%positive ∈ followers l' ∧
    wire <$> conns l' !! 1%positive = Some ("+sync" +:+ enc) ∧
    decode_n (length demo_requests) (enc +:+ "") = Ret (GOk (numbered 0 demo_requests), "").
Proof.
  apply (follower_receives_all demo_leader 1%positive (mkF "f1" "+sync" 100 false) demo_requests "").
  - apply demo_leader_wf.
  - by apply list_elem_of_singleton.
  - reflexivity.
  - reflexivity.
  - split_Forall;
      (split_and!; [by vm_compute..|]; vm_compute; auto).
Defined.

(** Follower [a], follower [b], and [b] again on a new connection before the
    leader noticed that the old one is gone. *)
Definition reconnected : Leader :=
  (addFollower (addFollower (addFollower new_leader "a" "" 1).2 "b" "" 2).2 "b" "" 3).2.

(** Followers are removed by id, not by connection: when follower [a]
    disconnects the last element takes its place, and the goroutine of [b]'s old
    connection then removes [b]'s new connection.  The live connection gets no
    further command and the dead one stays tracked. *)
Theorem reconnect_drops_live_follower :
  ∃ l1 l2,
    follower_turn reconnected 1%positive "a" (GErr EOF) 4 = Ret (false, l1) ∧
    follower_turn l1 2%positive "b" (GErr EOF) 5 = Ret (false, l2) ∧
    followers l2 = [2%positive] ∧ conn_closed <$> conns l2 !! 2%positive = Some true ∧
    conn_closed <$> conns l2 !! 3%positive = Some false.
Proof. eexists _, _. split_and!; reflexivity. Qed.
End Leader.
