(* ===== verification/Follower.v ===== *)
(** * internal/replication/follower.go: a follower of the replication leader

    The connection to the leader is its identity and the bytes still to be read
    from it ([f_reader]) and written to it ([f_wire]).  Dialling, writing and
    listening are arguments.  The goroutines of a follower (the main loop, the
    heartbeat sender, the monitor, an election) are functions on the shared
    state, one per turn of their loops. *)

From S2P Require Import Prelude GoStd Lru Metrics Cache CacheSpec CacheTrace Resp.
From S2P Require Import ReplProtocol Config NodeState Persistence Leader.
Import ReplProtocol(str_of, OpSet, OpDelete, CmdHeartbeat, ParseInt64, DecodeSyncEnd).
Local Open Scope Z_scope.

Module Follower.

Definition connid := positive.

Record Follower := mkFollower {
  f_cache : Cache.Cache;
  leaderAddr : string;
  id : string;
  f_conn : option connid;
  f_reader : string;
  f_wire : string;
  lastSeqNum : Z;
  lastHeartbeat : Z;
  isLeaderAlive : bool;
  clusterNodes : list Config.NodeInfo;
  myPriority : Z;
  myReplPort : Z;
  peerReplAddrs : list string;
  promoted : bool;
  stopped : bool
}.

(** ** Field updates *)

Definition with_cache f c := mkFollower c (leaderAddr f) (id f) (f_conn f) (f_reader f) (f_wire f)
  (lastSeqNum f) (lastHeartbeat f) (isLeaderAlive f) (clusterNodes f) (myPriority f) (myReplPort f)
  (peerReplAddrs f) (promoted f) (stopped f).
Definition with_leader_addr f a := mkFollower (f_cache f) a (id f) (f_conn f) (f_reader f) (f_wire f)
  (lastSeqNum f) (lastHeartbeat f) (isLeaderAlive f) (clusterNodes f) (myPriority f) (myReplPort f)
  (peerReplAddrs f) (promoted f) (stopped f).
Definition with_conn f c r := mkFollower (f_cache f) (leaderAddr f) (id f) c r (f_wire f)
  (lastSeqNum f) (lastHeartbeat f) (isLeaderAlive f) (clusterNodes f) (myPriority f) (myReplPort f)
  (peerReplAddrs f) (promoted f) (stopped f).
Definition with_reader f r := with_conn f (f_conn f) r.
Definition with_wire f s := mkFollower (f_cache f) (leaderAddr f) (id f) (f_conn f) (f_reader f) s
  (lastSeqNum f) (lastHeartbeat f) (isLeaderAlive f) (clusterNodes f) (myPriority f) (myReplPort f)
  (peerReplAddrs f) (promoted f) (stopped f).
Definition with_seq f n := mkFollower (f_cache f) (leaderAddr f) (id f) (f_conn f) (f_reader f) (f_wire f)
  n (lastHeartbeat f) (isLeaderAlive f) (clusterNodes f) (myPriority f) (myReplPort f)
  (peerReplAddrs f) (promoted f) (stopped f).
Definition with_beat f t alive := mkFollower (f_cache f) (leaderAddr f) (id f) (f_conn f) (f_reader f)
  (f_wire f) (lastSeqNum f) t alive (clusterNodes f) (myPriority f) (myReplPort f)
  (peerReplAddrs f) (promoted f) (stopped f).
Definition heard f now := with_beat f now (isLeaderAlive f).
Definition with_promoted f := mkFollower (f_cache f) (leaderAddr f) (id f) (f_conn f) (f_reader f) (f_wire f)
  (lastSeqNum f) (lastHeartbeat f) (isLeaderAlive f) (clusterNodes f) (myPriority f) (myReplPort f)
  (peerReplAddrs f) true (stopped f).
Definition with_stopped f := mkFollower (f_cache f) (leaderAddr f) (id f) (f_conn f) (f_reader f) (f_wire f)
  (lastSeqNum f) (lastHeartbeat f) (isLeaderAlive f) (clusterNodes f) (myPriority f) (myReplPort f)
  (peerReplAddrs f) (promoted f) true.

(** [if seqNum > f.lastSeqNum { f.lastSeqNum = seqNum }] *)
Definition advance (f : Follower) (seqNum : Z) : Follower :=
  if lastSeqNum f <? seqNum then with_seq f seqNum else f.

(** The cache is a pointer that may be nil. *)
Definition NewFollower (cache : option Cache.Cache) (leaderAddr id : string)
    (clusterNodes : list Config.NodeInfo) (myPriority myReplPort : Z) (peerReplAddrs : list string) :
    gres string Follower :=
  match cache with
  | None => GErr "cache instance cannot be nil"
  | Some c =>
      if bool_decide (leaderAddr = "") then GErr "leader address cannot be empty"
      else if bool_decide (id = "") then GErr "follower id cannot be empty"
      else GOk (mkFollower c leaderAddr id None "" "" 0 0 false clusterNodes myPriority myReplPort
                  peerReplAddrs false false)
  end.

(** [dial]: what [net.Dial] on the leader's address gives, the connection and the
    bytes that will arrive on it. *)
Definition connectToLeader (f : Follower) (dial : gres string (connid * string)) :
    gres string () * Follower :=
  match dial with
  | GErr e => (GErr e, f)
  | GOk (c, incoming) => (GOk (), with_conn f (Some c) incoming)
  end.

Definition closeConn (f : Follower) : Follower :=
  match f_conn f with Some _ => with_conn f None "" | None => f end.

Definition Stop (f : Follower) : Follower := closeConn (with_stopped f).

(** ** Applying the stream *)

(** The REPLICATE branch, the same text in both loops. *)
Definition apply_replicate (f : Follower) (now : Z) (resultSlice : list value) :
    outcome (gres string () * Follower) :=
  match resultSlice with
  | _ :: v1 :: v2 :: v3 :: rest =>
      match ParseInt64 v1 with
      | None => mret (GErr "invalid sequence number", f)
      | Some seqNum =>
          match str_of v2 with
          | None => mret (GErr "operation must be a string", f)
          | Some operation =>
              match str_of v3 with
              | None => mret (GErr "key must be a string", f)
              | Some key =>
                  if bool_decide (operation = OpSet) then
                    match rest with
                    | [v4; v5] =>
                        match str_of v4 with
                        | None => mret (GErr "value must be a string", f)
                        | Some value =>
                            match ParseInt64 v5 with
                            | None => mret (GErr "ttl must be an integer", f)
                            | Some ttl =>
                                c ← Cache.Set_ (f_cache f) key value (seconds ttl) now;
                                mret (GOk (), advance (with_cache f c) seqNum)
                            end
                        end
                    | _ => mret (GErr "SET requires 6 elements", f)
                    end
                  else if bool_decide (operation = OpDelete) then
                    match rest with
                    | [] =>
                        c ← Cache.Delete (f_cache f) key;
                        mret (GOk (), advance (with_cache f c) seqNum)
                    | _ => mret (GErr "DELETE requires 4 elements", f)
                    end
                  else mret (GErr ("unknown operation: " +:+ operation), f)
              end
          end
      end
  | _ => mret (GErr "invalid REPLICATE command", f)
  end.

Definition parse_error (e : perr) : string :=
  match e with EOF => "EOF" | UnexpectedEOF => "unexpected EOF" | ErrMsg m => m end.

Definition is_command (v : value) (name : string) : bool := bool_decide (str_of v = Some name).

(** The loop of [sendSyncRequest]; every turn reads at least one byte. *)
Fixpoint sync_loop (clock : nat → Z) (fuel i : nat) (f : Follower) : outcome (gres string () * Follower) :=
  match fuel with
  | O => OutOfFuel
  | S fuel =>
      '(result, rest) ← parse (f_reader f);
      let f := with_reader f rest in
      match result with
      | GErr e => mret (GErr (parse_error e), f)
      | GOk (VSlice resultSlice) =>
          command ← or_panic (resultSlice !! 0%nat);
          let f := heard f (clock i) in
          if is_command command "REPLICATE" then
            '(r, f) ← apply_replicate f (clock i) resultSlice;
            match r with
            | GErr e => mret (GErr e, f)
            | GOk _ => sync_loop clock fuel (S i) f
            end
          else if is_command command "SYNCEND" then
            match DecodeSyncEnd resultSlice with
            | None => mret (GErr "failed to decode SYNCEND", f)
            | Some seqNum => mret (GOk (), advance f seqNum)
            end
          else sync_loop clock fuel (S i) f
      | GOk _ => mret (GErr "Error: result is not a slice", f)
      end
  end.

(** The error of the write is shadowed and never looked at. *)
Definition sendSyncRequest (clock : nat → Z) (f : Follower) : outcome (gres string () * Follower) :=
  match f_conn f with
  | None => mret (GErr "no connection", f)
  | Some _ =>
      encoded ← ReplProtocol.EncodeSyncRequest (Some (ReplProtocol.mkSync (id f) (lastSeqNum f)));
      match encoded with
      | GErr e => mret (GErr e, f)
      | GOk encoded =>
          let f := with_wire f (f_wire f +:+ encoded) in
          sync_loop clock (S (String.length (f_reader f))) 0 f
      end
  end.

(** The loop of [processReplicationStream]: it only ends with an error. *)
Fixpoint stream_loop (clock : nat → Z) (fuel i : nat) (f : Follower) : outcome (string * Follower) :=
  match fuel with
  | O => OutOfFuel
  | S fuel =>
      '(result, rest) ← parse (f_reader f);
      let f := with_reader f rest in
      match result with
      | GErr e => mret (parse_error e, f)
      | GOk v =>
          let f := heard f (clock i) in
          match v with
          | VSlice resultSlice =>
              command ← or_panic (resultSlice !! 0%nat);
              if is_command command "REPLICATE" then
                '(r, f) ← apply_replicate f (clock i) resultSlice;
                match r with
                | GErr e => mret (e, f)
                | GOk _ => stream_loop clock fuel (S i) f
                end
              else stream_loop clock fuel (S i) f
          | _ => mret ("Error: result is not a slice", f)
          end
      end
  end.

Definition processReplicationStream (clock : nat → Z) (f : Follower) : outcome (string * Follower) :=
  match f_conn f with
  | None => mret ("no connection to leader", f)
  | Some _ => stream_loop clock (S (String.length (f_reader f))) 0 f
  end.

(** ** Heartbeats *)

(** One tick of [sendHeartbeats] for connection [c]: [false] ends the goroutine.
    [write_ok] says whether the write succeeds. *)
Definition heartbeat_tick (f : Follower) (c : connid) (write_ok : bool) : outcome (bool * Follower) :=
  if bool_decide (f_conn f ≠ Some c) then mret (false, f)
  else
    encoded ← ReplProtocol.EncodeHeartbeatCommand (Some (ReplProtocol.mkBeat (lastSeqNum f) (id f)));
    mret match encoded with
         | GErr _ => (true, f)
         | GOk encoded => if write_ok then (true, with_wire f (f_wire f +:+ encoded)) else (false, f)
         end.

Definition leader_timeout : Z := 15 * Second.

Inductive verdict := keep_watching | stop_watching | start_election.

(** One tick of [monitorLeaderHealth]. *)
Definition monitor_tick (f : Follower) (now : Z) : verdict * Follower :=
  if promoted f then (stop_watching, f)
  else if time_IsZero (lastHeartbeat f) then (keep_watching, f)
  else if leader_timeout <? now - lastHeartbeat f then
    (start_election, closeConn (with_beat f (lastHeartbeat f) false))
  else (keep_watching, with_beat f (lastHeartbeat f) true).

(** ** Elections *)

(** The network and the port an election sees: which addresses accept a
    connection, whether a SYNC request can be written there, the free port the
    system gives, and whether the replication port can be listened on. *)
Record election_env := mkElection {
  reachable : string → bool;
  sync_accepted : string → bool;
  free_port : option Z;
  can_listen : Z → bool
}.

(** [net.JoinHostPort] *)
Definition JoinHostPort (host port : string) : string :=
  if string_elem ":" host then "[" +:+ host +:+ "]:" +:+ port else host +:+ ":" +:+ port.

Definition repl_addr (node : Config.NodeInfo) : string :=
  JoinHostPort (Config.Host node) (Itoa (Config.ReplPort node)).

Fixpoint find_new_leader (env : election_env) (self : string) (nodes : list Config.NodeInfo) : string :=
  match nodes with
  | [] => ""
  | node :: nodes =>
      if bool_decide (Config.ID node = self) then find_new_leader env self nodes
      else
        let addr := repl_addr node in
        if reachable env addr && sync_accepted env addr then addr
        else find_new_leader env self nodes
  end.
Definition findNewLeader (env : election_env) (f : Follower) : string :=
  find_new_leader env (id f) (clusterNodes f).

Fixpoint find_peer (env : election_env) (addrs : list string) : string :=
  match addrs with
  | [] => ""
  | addr :: addrs =>
      if bool_decide (addr = "") then find_peer env addrs
      else if reachable env addr then addr
      else find_peer env addrs
  end.
Definition findPeerLeader (env : election_env) (f : Follower) : string :=
  find_peer env (peerReplAddrs f).

Definition max_priority (own : Z) (nodes : list Config.NodeInfo) : Z :=
  foldl (λ m n, if m <? Config.Priority n then Config.Priority n else m) own nodes.

Definition Millisecond : Z := 1000000.

(** The time an election sleeps before it looks for another leader. *)
Definition election_wait (f : Follower) : Z :=
  wrap64 (wrap64 (max_priority (myPriority f) (clusterNodes f) - myPriority f + 1) * 500 * Millisecond).

Inductive election_result :=
| found_leader (addr : string)
| election_skipped
| no_free_port
| leader_failed
| promoted_to_leader (replPort : Z) (leader : Leader.Leader).

(** The end of [startElection]: the promotion. *)
Definition promote (env : election_env) (f : Follower) : election_result * Follower :=
  let f := closeConn f in
  let start (replPort : Z) :=
    match Leader.NewLeader (can_listen env) replPort with
    | GOk leader => (promoted_to_leader replPort leader, with_promoted f)
    | GErr _ => (leader_failed, with_promoted f)
    end in
  if myReplPort f =? 0 then
    match free_port env with
    | None => (no_free_port, f)
    | Some port => start port
    end
  else start (myReplPort f).

Definition startElection (env : election_env) (f : Follower) : election_result * Follower :=
  if 0 <? myPriority f then
    let addr := if bool_decide (clusterNodes f = []) then "" else findNewLeader env f in
    if bool_decide (addr ≠ "") then (found_leader addr, with_leader_addr f addr)
    else
      let addr := findPeerLeader env f in
      if bool_decide (addr ≠ "") then (found_leader addr, with_leader_addr f addr)
      else promote env f
  else if bool_decide (clusterNodes f ≠ []) then (election_skipped, f)
  else promote env f.

(** What the promotion does to the node state, through [NodeStateUpdater]; the
    new leader is the pointer [l]. *)
Definition update_node (r : election_result) (l : positive) (ns : NodeState.NodeState) :
    NodeState.NodeState :=
  match r with
  | promoted_to_leader _ _ => NodeState.SetLeader (NodeState.SetRole ns "leader") (Some l)
  | _ => ns
  end.

(** ** The main loop *)

Record retry := mkRetry { backoff : Z; failedAttempts : Z }.
Definition initial_backoff : Z := 200 * Millisecond.
Definition maxBackoff : Z := 5 * Second.
Definition maxAttemptsBeforeElection : Z := 7.
Definition fresh_retry : retry := mkRetry initial_backoff 0.

(** The branch of [Start] after a failed connection: whether an election is
    started, how long the loop sleeps, and the next backoff. *)
Definition connect_failed (nodes : list Config.NodeInfo) (r : retry) : bool * Z * retry :=
  let failed := failedAttempts r + 1 in
  let elect := (maxAttemptsBeforeElection <=? failed) && bool_decide (nodes ≠ []) in
  let next := 2 * backoff r in
  (elect, backoff r,
   mkRetry (if maxBackoff <? next then maxBackoff else next) (if elect then 0 else failed)).

Inductive start_result :=
| loop_ends
| retry_later (election : bool) (sleep : Z)
| reconnect.

(** One turn of [Start]: what the dial gives and the clocks are arguments. *)
Definition start_turn (dial : gres string (connid * string)) (now : Z) (clock clock' : nat → Z)
    (r : retry) (f : Follower) : outcome (start_result * retry * Follower) :=
  if stopped f || promoted f then mret (loop_ends, r, f)
  else
    match connectToLeader f dial with
    | (GErr _, f) =>
        let '(elect, sleep, r) := connect_failed (clusterNodes f) r in
        mret (retry_later elect sleep, r, f)
    | (GOk _, f) =>
        '(sync, f) ← sendSyncRequest clock f;
        match sync with
        | GErr _ => mret (reconnect, fresh_retry, closeConn f)
        | GOk _ =>
            let f := with_beat f (if time_IsZero (lastHeartbeat f) then now else lastHeartbeat f) true in
            '(_, f) ← processReplicationStream clock' f;
            mret (reconnect, fresh_retry, closeConn f)
        end
    end.
End Follower.
