(* ===== verification/FollowerSpec.v ===== *)
(** * What a follower does with the leader's messages

    The stream of a leader (replicate commands and heartbeats) applied by
    [processReplicationStream], and the initial synchronisation received by
    [sendSyncRequest]. *)

From S2P Require Import Prelude GoStd Lru Metrics Cache CacheSpec CacheTrace Resp.
From S2P Require Import ReplProtocol Config NodeState Persistence Leader Follower.
Import ReplProtocol(str_of, OpSet, OpDelete, CmdHeartbeat, ParseInt64, DecodeSyncEnd, repl_wf, beat_wf,
  ReplicateCommand, mkRepl, SeqNum, Operation, HeartbeatCommand).
Import Follower.
Local Open Scope Z_scope.

Module FollowerSpec.

(** ** Messages and their meaning *)

Inductive message :=
| MCommand (m : ReplicateCommand)
| MBeat (b : HeartbeatCommand).

Definition message_wf (x : message) : Prop :=
  match x with MCommand m => repl_wf m | MBeat b => beat_wf b end.

Definition message_elements (x : message) : list value :=
  match x with
  | MCommand m =>
      if decide (Operation m = OpSet) then
        [VStr ReplProtocol.CmdReplicate; VInt64 (SeqNum m); VStr OpSet; VStr (ReplProtocol.Key m);
         VStr (ReplProtocol.Value m); VInt64 (ReplProtocol.TTL m)]
      else [VStr ReplProtocol.CmdReplicate; VInt64 (SeqNum m); VStr OpDelete; VStr (ReplProtocol.Key m)]
  | MBeat b => [VStr CmdHeartbeat; VInt64 (ReplProtocol.hb_SeqNum b); VStr (ReplProtocol.hb_NodeID b)]
  end.

Definition encode_message (x : message) : outcome (gres string string) :=
  match x with
  | MCommand m => ReplProtocol.EncodeReplicateCommand (Some m)
  | MBeat b => ReplProtocol.EncodeHeartbeatCommand (Some b)
  end.

Fixpoint encode_messages (xs : list message) : outcome string :=
  match xs with
  | [] => mret ""
  | x :: xs => e ← EncodeArray (message_elements x); es ← encode_messages xs; mret (e +:+ es)
  end.

Definition spec_message (cap now : Z) (x : message) (es : list entry) : list entry :=
  match x with
  | MCommand m =>
      if decide (Operation m = OpSet) then
        spec_set cap (ReplProtocol.Key m) (ReplProtocol.Value m)
          (spec_expiry (seconds (ReplProtocol.TTL m)) now) es
      else spec_del (ReplProtocol.Key m) es
  | MBeat _ => es
  end.

Fixpoint spec_stream (cap : Z) (clock : nat → Z) (i : nat) (xs : list message) (es : list entry) : list entry :=
  match xs with
  | [] => es
  | x :: xs => spec_stream cap clock (S i) xs (spec_message cap (clock i) x es)
  end.

(** The highest sequence number seen. *)
Definition top_seq (n : Z) (xs : list message) : Z :=
  foldl (λ n x, match x with MCommand m => Z.max n (SeqNum m) | MBeat _ => n end) n xs.

Lemma encode_message_elements x :
  message_wf x → encode_message x = GOk <$> EncodeArray (message_elements x).
Proof.
  destruct x as [m|b]; [|done]. intros (_ & _ & _ & _ & Hop). cbn [encode_message message_elements].
  unfold ReplProtocol.EncodeReplicateCommand. destruct Hop as [E|(E & _)].
  - rewrite !decide_True by done. by rewrite E.
  - rewrite (decide_False (P := Operation m = OpSet)) by by rewrite E.
    rewrite decide_True by done. by rewrite E.
Qed.

Lemma message_encodable x :
  message_wf x → Forall encodable (message_elements x) ∧
    16 * Z.of_nat (length (message_elements x)) ≤ maxAlloc.
Proof.
  destruct x as [m|b]; cbn [message_wf message_elements].
  - intros (Hk & Hv & Hn & Ht & _). case_decide; (split; [|by vm_compute]);
      split_Forall; cbn [encodable];
      first [assumption | vm_compute; discriminate].
  - intros (Hid & Hn). split; [|by vm_compute].
    split_Forall; cbn [encodable];
      first [assumption | vm_compute; discriminate].
Qed.

Lemma parse_message x e rest :
  message_wf x → EncodeArray (message_elements x) = Ret e →
  parse (e +:+ rest) = Ret (GOk (VSlice (reread <$> message_elements x)), rest) ∧ (0 < String.length e)%nat.
Proof.
  intros Hx He. destruct (message_encodable x Hx) as [Hl Hn].
  destruct (Parse_EncodeArray _ rest Hl Hn) as (e' & He' & Hp).
  assert (e' = e) as -> by congruence. split.
  - unfold parse. apply Hp. rewrite slength_app. lia.
  - destruct e; cbn; [|lia]. revert He. unfold EncodeArray.
    destruct (encode_elements_app (message_elements x)
      ("*" +:+ Itoa (Z.of_nat (length (message_elements x))) +:+ CRLF) Hl) as (body & -> & _). intros [=].
Qed.

(** ** One command *)

Lemma apply_replicate_spec f now m es :
  repl_wf m → cache_rep (f_cache f) es →
  ∃ c, apply_replicate f now (reread <$> message_elements (MCommand m)) =
      Ret (GOk (), advance (with_cache f c) (SeqNum m)) ∧
    Cache.maxSize c = Cache.maxSize (f_cache f) ∧
    cache_rep c (spec_message (Cache.maxSize (f_cache f)) now (MCommand m) es).
Proof.
  intros _ Hc. cbn [message_elements spec_message]. case_decide as E.
  - destruct (Set_rep _ es (ReplProtocol.Key m) (ReplProtocol.Value m) (seconds (ReplProtocol.TTL m)) now Hc)
      as (c & HS & Hm & Hc'). exists c. split_and!; [|done..].
    cut ((c ← Cache.Set_ (f_cache f) (ReplProtocol.Key m) (ReplProtocol.Value m)
            (seconds (ReplProtocol.TTL m)) now;
          mret (GOk () : gres string (), advance (with_cache f c) (SeqNum m)))
         = Ret (GOk (), advance (with_cache f c) (SeqNum m))); [done|]. by rewrite HS.
  - destruct (Delete_rep _ es (ReplProtocol.Key m) Hc) as (c & HD & Hm & Hc').
    exists c. split_and!; [|done..].
    cut ((c ← Cache.Delete (f_cache f) (ReplProtocol.Key m);
          mret (GOk () : gres string (), advance (with_cache f c) (SeqNum m)))
         = Ret (GOk (), advance (with_cache f c) (SeqNum m))); [done|]. by rewrite HD.
Qed.

(** What applying messages does to a follower. *)
Record follows (f f' : Follower) (es' : list entry) (n : Z) : Prop := {
  fo_cache : cache_rep (f_cache f') es';
  fo_cap : Cache.maxSize (f_cache f') = Cache.maxSize (f_cache f);
  fo_seq : lastSeqNum f' = n;
  fo_conn : f_conn f' = f_conn f;
  fo_id : id f' = id f
}.

Lemma advance_seq f n : lastSeqNum (advance f n) = Z.max (lastSeqNum f) n ∧
  f_cache (advance f n) = f_cache f ∧ f_conn (advance f n) = f_conn f ∧
  f_reader (advance f n) = f_reader f ∧ id (advance f n) = id f.
Proof. unfold advance. destruct (Z.ltb_spec (lastSeqNum f) n); split_and!; try done; cbn; lia. Qed.

(** The two loops treat a message in the same way: the state after it. *)
Lemma message_applied f now rest x es :
  message_wf x → cache_rep (f_cache f) es →
  ∃ f', (match x with
         | MCommand _ => '(r, f') ← apply_replicate (heard (with_reader f rest) now) now
                           (reread <$> message_elements x); mret (r, f')
         | MBeat _ => mret (GOk (), heard (with_reader f rest) now)
         end) = Ret (GOk (), f') ∧ f_reader f' = rest ∧
    follows f f' (spec_message (Cache.maxSize (f_cache f)) now x es) (top_seq (lastSeqNum f) [x]).
Proof.
  intros Hx Hc. destruct x as [m|b].
  - destruct (apply_replicate_spec (heard (with_reader f rest) now) now m es Hx Hc) as (c & -> & Hm & Hc').
    eexists. split; [reflexivity|].
    destruct (advance_seq (with_cache (heard (with_reader f rest) now) c) (SeqNum m)) as (E1 & E2 & E3 & E4 & E5).
    split; [exact E4|]. split; [by rewrite E2|by rewrite E2|by rewrite E1|by rewrite E3|by rewrite E5].
  - eexists. split; [reflexivity|]. done.
Qed.

Lemma follows_trans f1 f2 f3 es2 es3 n2 n3 :
  follows f1 f2 es2 n2 → follows f2 f3 es3 n3 → follows f1 f3 es3 n3.
Proof. intros [] []. split; congruence. Qed.

(** ** The replication stream *)

Lemma stream_loop_step clock fuel i f x e rest :
  message_wf x → EncodeArray (message_elements x) = Ret e → f_reader f = e +:+ rest →
  stream_loop clock (S fuel) i f =
  ('(r, f) ← (match x with
              | MCommand _ => '(r, f') ← apply_replicate (heard (with_reader f rest) (clock i)) (clock i)
                                (reread <$> message_elements x); mret (r, f')
              | MBeat _ => mret (GOk (), heard (with_reader f rest) (clock i))
              end);
   match r with GErr e => mret (e, f) | GOk _ => stream_loop clock fuel (S i) f end).
Proof.
  intros Hx He Hr. destruct (parse_message x e rest Hx He) as [Hp _].
  cbn [stream_loop]. rewrite Hr, Hp. cbn [mbind outcome_bind].
  destruct x as [m|b]; [|done]. cbn [message_elements]. case_decide.
  - rewrite !fmap_cons. cbn [lookup list_lookup or_panic mbind outcome_bind reread].
    change (is_command (VStr ReplProtocol.CmdReplicate) "REPLICATE") with true. cbv iota.
    by destruct (apply_replicate _ _ _) as [[]| | |].
  - rewrite !fmap_cons. cbn [lookup list_lookup or_panic mbind outcome_bind reread].
    change (is_command (VStr ReplProtocol.CmdReplicate) "REPLICATE") with true. cbv iota.
    by destruct (apply_replicate _ _ _) as [[]| | |].
Qed.

Lemma stream_loop_spec clock xs bytes fuel i f es :
  Forall message_wf xs → encode_messages xs = Ret bytes → f_reader f = bytes →
  (String.length bytes < fuel)%nat → cache_rep (f_cache f) es →
  ∃ f', stream_loop clock fuel i f = Ret ("EOF", f') ∧
    follows f f' (spec_stream (Cache.maxSize (f_cache f)) clock i xs es) (top_seq (lastSeqNum f) xs).
Proof.
  intros Hxs. revert bytes fuel i f es. induction Hxs as [|x xs Hx _ IH]; intros bytes fuel i f es He Hr Hf Hc.
  - injection He as <-. destruct fuel; [lia|]. cbn [stream_loop]. rewrite Hr.
    eexists. split; [reflexivity|]. done.
  - cbn [encode_messages] in He. inv_ret. rename r into e, r0 into rest. destruct fuel as [|fuel]; [lia|].
    rewrite slength_app in Hf. destruct (parse_message x e rest Hx E) as [_ Hlen].
    rewrite (stream_loop_step clock fuel i f x e rest Hx E) by congruence.
    destruct (message_applied f (clock i) rest x es Hx Hc) as (f1 & -> & Hr1 & Hf1). cbn [mbind outcome_bind].
    destruct (IH rest fuel (S i) f1 _ E0 Hr1 ltac:(lia) (fo_cache _ _ _ _ Hf1)) as (f' & -> & Hf').
    exists f'. split; [done|]. rewrite (fo_cap _ _ _ _ Hf1), (fo_seq _ _ _ _ Hf1) in Hf'.
    by eapply follows_trans.
Qed.

(** ** The initial synchronisation *)

Lemma sync_loop_step clock fuel i f x e rest :
  message_wf x → EncodeArray (message_elements x) = Ret e → f_reader f = e +:+ rest →
  sync_loop clock (S fuel) i f =
  ('(r, f) ← (match x with
              | MCommand _ => '(r, f') ← apply_replicate (heard (with_reader f rest) (clock i)) (clock i)
                                (reread <$> message_elements x); mret (r, f')
              | MBeat _ => mret (GOk (), heard (with_reader f rest) (clock i))
              end);
   match r with GErr e => mret (GErr e, f) | GOk _ => sync_loop clock fuel (S i) f end).
Proof.
  intros Hx He Hr. destruct (parse_message x e rest Hx He) as [Hp _].
  cbn [sync_loop]. rewrite Hr, Hp. cbn [mbind outcome_bind].
  destruct x as [m|b]; [|done].
  assert (∃ l, reread <$> message_elements (MCommand m) = VStr ReplProtocol.CmdReplicate :: l) as (l & ->).
  { cbn [message_elements]. case_decide; rewrite fmap_cons; by eexists. }
  cbn [lookup list_lookup or_panic mbind outcome_bind].
  change (is_command (VStr ReplProtocol.CmdReplicate) "REPLICATE") with true. cbv iota.
  by destruct (apply_replicate _ _ _) as [[]| | |].
Qed.

Lemma sync_end_step clock fuel i f n e rest :
  int64_range n → ReplProtocol.EncodeSyncEnd n = Ret e → f_reader f = e +:+ rest →
  sync_loop clock (S fuel) i f = Ret (GOk (), advance (heard (with_reader f rest) (clock i)) n).
Proof.
  intros Hn He Hr.
  destruct (Parse_EncodeArray [VStr ReplProtocol.CmdSyncEnd; VInt64 n] rest) as (e' & He' & Hp).
  { split_Forall; (done || by vm_compute). }
  { by vm_compute. }
  assert (e' = e) as -> by (unfold ReplProtocol.EncodeSyncEnd in He; congruence).
  cbn [sync_loop]. rewrite Hr. unfold parse. rewrite Hp by (rewrite slength_app; lia). done.
Qed.

Lemma sync_loop_spec clock xs bytes n syncEnd rest fuel i f es :
  Forall message_wf xs → encode_messages xs = Ret bytes → int64_range n →
  ReplProtocol.EncodeSyncEnd n = Ret syncEnd → f_reader f = bytes +:+ syncEnd +:+ rest →
  (String.length bytes < fuel)%nat → cache_rep (f_cache f) es →
  ∃ f', sync_loop clock fuel i f = Ret (GOk (), f') ∧ f_reader f' = rest ∧
    follows f f' (spec_stream (Cache.maxSize (f_cache f)) clock i xs es)
      (Z.max (top_seq (lastSeqNum f) xs) n).
Proof.
  intros Hxs Hb Hn Hend. revert bytes fuel i f es Hb.
  induction Hxs as [|x xs Hx _ IH]; intros bytes fuel i f es Hb Hr Hf Hc.
  - injection Hb as <-. destruct fuel; [lia|]. rewrite (sync_end_step clock fuel i f n syncEnd rest) by done.
    eexists. split; [reflexivity|].
    destruct (advance_seq (heard (with_reader f rest) (clock i)) n) as (E1 & E2 & E3 & E4 & E5).
    split; [exact E4|]. split; [by rewrite E2|by rewrite E2|by rewrite E1|by rewrite E3|by rewrite E5].
  - cbn [encode_messages] in Hb. inv_ret. rename r into e, r0 into tail. destruct fuel as [|fuel]; [lia|].
    rewrite slength_app in Hf. destruct (parse_message x e (tail +:+ syncEnd +:+ rest) Hx E) as [_ Hlen].
    rewrite (sync_loop_step clock fuel i f x e (tail +:+ syncEnd +:+ rest) Hx E)
      by (by rewrite Hr, !string_app_assoc).
    destruct (message_applied f (clock i) (tail +:+ syncEnd +:+ rest) x es Hx Hc) as (f1 & -> & Hr1 & Hf1).
    cbn [mbind outcome_bind].
    destruct (IH tail fuel (S i) f1 _ E0 Hr1 ltac:(lia) (fo_cache _ _ _ _ Hf1)) as (f' & -> & Hrf & Hf').
    exists f'. split; [done|]. split; [done|].
    rewrite (fo_cap _ _ _ _ Hf1), (fo_seq _ _ _ _ Hf1) in Hf'. by eapply follows_trans.
Qed.

(** *** What the leader sends *)

(** The commands for the live entries; expired ones use up a number too. *)
Fixpoint sync_commands (now n : Z) (es : list entry) : list message :=
  match es with
  | [] => []
  | e :: es =>
      let n := wrap64 (n + 1) in
      if decide (live now e) then
        MCommand (mkRepl n OpSet e.1 e.2.1 (Persistence.remaining now e.2.2)) :: sync_commands now n es
      else sync_commands now n es
  end.

Fixpoint after_sync (l : Leader.Leader) (es : list entry) : Leader.Leader :=
  match es with [] => l | _ :: es => after_sync (Leader.next_seq l) es end.

Lemma sync_commands_wf now n es :
  Forall (Persistence.dumpable now) es → Forall message_wf (sync_commands now n es).
Proof.
  intros Hes. revert n. induction Hes as [|e es (Hk & Hv & Ht & _) _ IH]; intros n; cbn [sync_commands];
    [apply Forall_nil_2|]. case_decide; [|apply IH]. apply Forall_cons_2; [|apply IH].
  split_and!; [exact Hk|exact Hv|apply wrap64_range|exact Ht|by left].
Qed.

Lemma sync_entry_spec out l now k v exp :
  Leader.sync_entry false (out, l) k (Cache.mkEntry v exp) now =
  (if decide (live now (k, (v, exp))) then
     encoded ← ReplProtocol.EncodeReplicateCommand
       (Some (mkRepl (Leader.seqNum (Leader.next_seq l)) OpSet k v (Persistence.remaining now exp)));
     mret match encoded with
          | GErr e => (GErr e, (out, Leader.next_seq l))
          | GOk encoded => (GOk (), (out +:+ encoded, Leader.next_seq l))
          end
   else mret (GOk (), (out, Leader.next_seq l))).
Proof.
  unfold Leader.sync_entry, live, Persistence.remaining. cbn [fst snd Cache.ExpiresAt Cache.Value].
  unfold time_IsZero. destruct (Z.eqb_spec exp 0) as [->|Hne]; cbn [negb andb].
  - rewrite decide_True by (intros [? _]; done). done.
  - destruct (Z.ltb_spec (exp - now) 0).
    + rewrite decide_False; [done|]. intros H'. apply H'. lia.
    + rewrite decide_True; [done|]. lia.
Qed.

Lemma leader_sync_loop snap now keys es out l :
  Forall2 (λ k e, k = e.1 ∧ snap !! k = Some (Cache.mkEntry e.2.1 e.2.2)) keys es →
  Forall (Persistence.dumpable now) es →
  ∃ bytes, encode_messages (sync_commands now (Leader.seqNum l) es) = Ret bytes ∧
    Leader.sync_loop snap ((λ k, (k, now)) <$> keys) None (out, l) = Ret (GOk (), (out +:+ bytes, after_sync l es)).
Proof.
  intros HF. revert out l. induction HF as [|k [k' [v exp]] keys es [-> Hk] _ IH]; intros out l Hd.
  { exists "". by rewrite string_app_nil_r. }
  apply Forall_cons in Hd as [Hd Hds]. cbn [fst snd] in Hk.
  rewrite fmap_cons. cbn [Leader.sync_loop fst]. rewrite Hk. change (bool_decide (None = Some 0%nat)) with false. rewrite sync_entry_spec.
  cbn [sync_commands after_sync fst snd]. change (wrap64 (Leader.seqNum l + 1)) with (Leader.seqNum (Leader.next_seq l)).
  case_decide as Hl.
  - set (x := MCommand _).
    assert (message_wf x) as Hx.
    { pose proof (sync_commands_wf now (Leader.seqNum l) [(k', (v, exp))] (Forall_cons_2 _ _ _ Hd (Forall_nil_2 _))) as H.
      cbn [sync_commands] in H. rewrite decide_True in H by done. by apply Forall_cons in H as [H _]. }
    destruct (message_encodable x Hx) as [Hl1 Hl2].
    destruct (Parse_EncodeArray _ "" Hl1 Hl2) as (e & He & _).
    change (ReplProtocol.EncodeReplicateCommand (Some ?m)) with (encode_message (MCommand m)). fold x.
    rewrite encode_message_elements, He by done. cbn [fmap outcome_fmap mbind outcome_bind].
    destruct (IH (out +:+ e) (Leader.next_seq l) Hds) as (bytes & Hb & Hrest). exists (e +:+ bytes).
    cbn [encode_messages]. rewrite He. cbn [mbind outcome_bind]. rewrite Hb. split; [done|].
    cbn [mret outcome_ret]. by rewrite string_app_assoc.
  - cbn [mbind outcome_bind mret outcome_ret].
    destruct (IH out (Leader.next_seq l) Hds) as (bytes & Hb & Hrest). by exists bytes.
Qed.

Lemma sync_commands_replay cap now t n es es0 i j :
  spec_stream cap (λ _, t) i (sync_commands now n es) es0 =
  Persistence.spec_replay cap (λ _, t) j (Persistence.dump_op now <$> filter (live now) es) es0.
Proof.
  revert n es0 i j. induction es as [|e es IH]; intros n es0 i j; [done|].
  cbn [sync_commands]. rewrite filter_cons. case_decide; [|apply IH].
  rewrite fmap_cons. cbn [spec_stream Persistence.spec_replay]. apply IH.
Qed.

Lemma after_sync_spec l es :
  int64_range (Leader.seqNum l) →
  int64_range (Leader.seqNum (after_sync l es)) ∧
  Leader.followers (after_sync l es) = Leader.followers l.
Proof.
  revert l. induction es as [|e es IH]; intros l Hl; [done|]. cbn [after_sync].
  by apply (IH (Leader.next_seq l)), wrap64_range.
Qed.

Lemma next_seq_small l :
  int64_range (Leader.seqNum l) → Leader.seqNum l + 1 < two63 →
  Leader.seqNum (Leader.next_seq l) = Leader.seqNum l + 1 ∧ int64_range (Leader.seqNum l + 1).
Proof.
  intros Hl Hno. assert (int64_range (Leader.seqNum l + 1)) by (unfold int64_range in *; lia).
  split; [by apply wrap64_small|done].
Qed.

Lemma after_sync_ge l es :
  int64_range (Leader.seqNum l) → Leader.seqNum l + Z.of_nat (length es) < two63 →
  Leader.seqNum l ≤ Leader.seqNum (after_sync l es).
Proof.
  revert l. induction es as [|e es IH]; intros l Hl Hno; [done|]. cbn [after_sync length] in *.
  destruct (next_seq_small l Hl ltac:(lia)) as [Hn Hr]. specialize (IH (Leader.next_seq l)).
  rewrite Hn in IH. specialize (IH Hr). lia.
Qed.

(** The end mark carries the highest number of the synchronisation. *)
Lemma sync_sequence now l es n :
  int64_range (Leader.seqNum l) → Leader.seqNum l + Z.of_nat (length es) < two63 →
  Z.max (top_seq n (sync_commands now (Leader.seqNum l) es)) (Leader.seqNum (after_sync l es)) =
  Z.max n (Leader.seqNum (after_sync l es)).
Proof.
  revert l n. induction es as [|e es IH]; intros l n Hl Hno; [done|]. cbn [sync_commands after_sync length] in *.
  destruct (next_seq_small l Hl ltac:(lia)) as [Hn Hr].
  change (wrap64 (Leader.seqNum l + 1)) with (Leader.seqNum (Leader.next_seq l)).
  rewrite <-Hn in Hr. assert (Leader.seqNum (Leader.next_seq l) + Z.of_nat (length es) < two63) as Hno' by lia.
  case_decide; [|by apply IH].
  change (top_seq n (MCommand ?x :: ?xs)) with (top_seq (Z.max n (SeqNum x)) xs). cbn [SeqNum].
  rewrite IH by done. pose proof (after_sync_ge _ es Hr Hno'). lia.
Qed.

Lemma EncodeSyncEnd_ok n : ∃ e, ReplProtocol.EncodeSyncEnd n = Ret e.
Proof. unfold ReplProtocol.EncodeSyncEnd, EncodeArray. by eexists. Qed.

(** The bytes of the initial synchronisation, and what they do to a follower. *)
Lemma synchronised (c : Cache.Cache) (es : list entry) (l : Leader.Leader) (keys : list string)
    (now t : Z) (f : Follower) (k : connid) :
  cache_rep c es → Forall (Persistence.dumpable now) es → keys ≡ₚ es.*1 →
  int64_range (Leader.seqNum l) → cache_rep (f_cache f) [] →
  Z.of_nat (length es) ≤ Cache.maxSize (f_cache f) →
  ∃ c' out l1, Leader.sync_bytes c l ((λ k, (k, now)) <$> keys) None = Ret (GOk (), (out, l1), c') ∧ cache_rep c' es ∧
    ∃ f' es', sendSyncRequest (λ _, t) (with_conn f (Some k) out) = Ret (GOk (), f') ∧
      f_reader f' = "" ∧ cache_rep (f_cache f') es' ∧
      es' ≡ₚ Persistence.reload now t <$> filter (live now) es ∧
      (Leader.seqNum l + Z.of_nat (length es) < two63 →
        lastSeqNum f' = Z.max (lastSeqNum f) (Leader.seqNum l1)).
Proof.
  intros Hc Hd Hkeys Hseq Hfc Hcap.
  destruct (Persistence.snapshot_listing c es keys Hc Hkeys)
    as (snap & c' & es2 & Hsnap & Hc' & Hp & Hnd & HF).
  rewrite Hp in Hd. destruct (leader_sync_loop snap now keys es2 "" l HF Hd) as (bytes & Hb & Hloop).
  destruct (after_sync_spec l es2 Hseq) as [Hr _]. set (l1 := after_sync l es2) in *.
  destruct (EncodeSyncEnd_ok (Leader.seqNum l1)) as (e & He).
  exists c', (bytes +:+ e), l1. split.
  { unfold Leader.sync_bytes. rewrite Hsnap. cbn [mbind outcome_bind].
    rewrite Hloop. cbn [mbind outcome_bind]. rewrite He. reflexivity. }
  split; [done|].
  set (f1 := with_wire (with_conn f (Some k) (bytes +:+ e))
    (f_wire f +:+ match ReplProtocol.EncodeSyncRequest (Some (ReplProtocol.mkSync (id f) (lastSeqNum f)))
                  with Ret (GOk s) => s | _ => "" end)).
  destruct (sync_loop_spec (λ _, t) _ bytes (Leader.seqNum l1) e "" (S (String.length (bytes +:+ e))) 0 f1 []
    (sync_commands_wf now (Leader.seqNum l) es2 Hd) Hb Hr He) as (f' & Hrun & Hrest & Hf').
  - by rewrite string_app_nil_r.
  - rewrite slength_app. lia.
  - exact Hfc.
  - exists f'. eexists. split; [exact Hrun|]. split; [done|]. split; [apply Hf'|]. split.
    + rewrite (sync_commands_replay _ _ _ _ _ _ _ 0), Hp. apply Persistence.replay_dump; [done|].
      rewrite <-(Permutation_length Hp). exact Hcap.
    + intros Hno. rewrite (fo_seq _ _ _ _ Hf'). rewrite (Permutation_length Hp) in Hno.
      apply (sync_sequence now l es2 (lastSeqNum f) Hseq Hno).
Qed.

(** C21. A new follower starts with the leader's data: the bytes the leader sends in
    answer to a SYNC request, read by the follower with an empty cache and room,
    make [sendSyncRequest] succeed and leave in the follower's cache exactly the
    leader's entries that had not expired, each with its value and, if it had
    one, a lifetime of its remaining whole seconds; the follower has caught up
    with the leader's sequence number (as long as that does not overflow), the
    leader's cache is as it was, the follower is tracked and it has read exactly
    the leader's bytes. *)
Theorem initial_sync_transfers (c : Cache.Cache) (es : list entry) (l : Leader.Leader)
    (req : ReplProtocol.SyncRequest) (keys : list string) (now t : Z) (f : Follower) (k : connid) :
  cache_rep c es → Forall (Persistence.dumpable now) es → keys ≡ₚ es.*1 →
  int64_range (Leader.seqNum l) → cache_rep (f_cache f) [] →
  Z.of_nat (length es) ≤ Cache.maxSize (f_cache f) →
  ∃ c' p l' fc,
    Leader.handle_sync c l req ((λ k, (k, now)) <$> keys) None now = Ret (GOk p, l', c') ∧
    cache_rep c' es ∧ p ∈ Leader.followers l' ∧ Leader.conns l' !! p = Some fc ∧
    ∃ f' es', sendSyncRequest (λ _, t) (with_conn f (Some k) (Leader.wire fc)) = Ret (GOk (), f') ∧
      f_reader f' = "" ∧ cache_rep (f_cache f') es' ∧
      es' ≡ₚ Persistence.reload now t <$> filter (live now) es ∧
      (Leader.seqNum l + Z.of_nat (length es) < two63 →
        lastSeqNum f' = Z.max (lastSeqNum f) (Leader.seqNum l')).
Proof.
  intros Hc Hd Hkeys Hseq Hfc Hcap.
  destruct (synchronised c es l keys now t f k Hc Hd Hkeys Hseq Hfc Hcap) as (c' & out & l1 & Hs & Hc' & Hf).
  exists c', (Leader.next_conn l1). eexists _, _. split; [unfold Leader.handle_sync; rewrite Hs; reflexivity|].
  cbn [Leader.addFollower Leader.followers Leader.conns].
  split_and!; [done|apply elem_of_app; right; by apply list_elem_of_singleton|apply lookup_insert_eq|exact Hf].
Qed.

(** Writes during a synchronisation are lost to the new follower: whatever the
    leader replicates between its snapshot and the moment it tracks the follower,
    the follower is sent, and ends with, the entries of the snapshot alone, and no
    later command repeats the ones in between. *)
Theorem sync_gap (c : Cache.Cache) (es : list entry) (l : Leader.Leader) (keys : list string)
    (now t : Z) (f : Follower) (k : connid) :
  cache_rep c es → Forall (Persistence.dumpable now) es → keys ≡ₚ es.*1 →
  int64_range (Leader.seqNum l) → cache_rep (f_cache f) [] →
  Z.of_nat (length es) ≤ Cache.maxSize (f_cache f) →
  ∃ c' out l1, Leader.sync_bytes c l ((λ k, (k, now)) <$> keys) None = Ret (GOk (), (out, l1), c') ∧
    ∀ rs l2 name, for_each Leader.replicate_request l1 rs = Ret l2 →
      let '(p, l3) := Leader.addFollower l2 name out now in
      Leader.seqNum l3 = Leader.seqNum l2 ∧
      ∃ fc f' es', Leader.conns l3 !! p = Some fc ∧
        sendSyncRequest (λ _, t) (with_conn f (Some k) (Leader.wire fc)) = Ret (GOk (), f') ∧
        f_reader f' = "" ∧ cache_rep (f_cache f') es' ∧
        es' ≡ₚ Persistence.reload now t <$> filter (live now) es.
Proof.
  intros Hc Hd Hkeys Hseq Hfc Hcap.
  destruct (synchronised c es l keys now t f k Hc Hd Hkeys Hseq Hfc Hcap) as (c' & out & l1 & Hs & _ & f' & es' & Hrun & Hrd & Hfc' & Hes & _).
  exists c', out, l1. split; [exact Hs|]. intros rs l2 name _. cbn [Leader.addFollower]. split; [done|].
  eexists _, f', es'. split; [apply lookup_insert_eq|]. done.
Qed.

Definition demo_replica : Follower :=
  mkFollower (Cache.NewCache 5 NewCollector) "leader:7001" "f1" None "" "" 0 0 false [] 0 0 [] false false.

Lemma initial_sync_transfers_witness :
  ∃ c' p l' fc,
    Leader.handle_sync demo_cache Leader.new_leader (ReplProtocol.mkSync "f1" 0)
      ((λ k, (k, 12)) <$> ["b"; "a"]) None 12 = Ret (GOk p, l', c') ∧
    cache_rep c' demo_entries ∧ p ∈ Leader.followers l' ∧ Leader.conns l' !! p = Some fc ∧
    ∃ f' es', sendSyncRequest (λ _, 100) (with_conn demo_replica (Some 1%positive) (Leader.wire fc))
        = Ret (GOk (), f') ∧
      f_reader f' = "" ∧ cache_rep (f_cache f') es' ∧
      es' ≡ₚ Persistence.reload 12 100 <$> filter (live 12) demo_entries ∧
      (0 + 2 < two63 → lastSeqNum f' = Z.max 0 (Leader.seqNum l')).
Proof.
  apply (initial_sync_transfers demo_cache demo_entries Leader.new_leader (ReplProtocol.mkSync "f1" 0)
    ["b"; "a"] 12 100 demo_replica 1%positive).
  - apply demo_cache_rep.
  - apply Persistence.demo_dumpable.
  - apply Permutation_swap.
  - done.
  - apply cache_rep_new.
  - by vm_compute.
Defined.
End FollowerSpec.
