(* ===== verification/Election.v ===== *)
(** * Retries and elections of a follower (follower.go)

    The retry schedule of [Start], who waits how long before an election, when a
    follower promotes itself, and what a failed promotion leaves behind. *)

From S2P Require Import Prelude GoStd Lru Metrics Cache Resp ReplProtocol Config NodeState Leader Follower.
Import Follower.
Local Open Scope Z_scope.

Module Election.

(** ** Retries *)

(** The state after [n] failed connections in a row, with the elections started. *)
Fixpoint after_failures (nodes : list Config.NodeInfo) (n : nat) : retry * list bool :=
  match n with
  | O => (fresh_retry, [])
  | S n =>
      let '(r, elections) := after_failures nodes n in
      let '(elect, _, r) := connect_failed nodes r in
      (r, elections ++ [elect])
  end.

Lemma mod7_succ n :
  (Z.of_nat n mod 7 = 6 ∧ Z.of_nat (S n) mod 7 = 0) ∨
  (0 ≤ Z.of_nat n mod 7 < 6 ∧ Z.of_nat (S n) mod 7 = Z.of_nat n mod 7 + 1).
Proof.
  pose proof (Z.mod_pos_bound (Z.of_nat n) 7 ltac:(lia)).
  assert (Z.of_nat (S n) mod 7 = (Z.of_nat n mod 7 + 1) mod 7) as ->.
  { rewrite Nat2Z.inj_succ, <-Z.add_1_r. symmetry. apply Z.add_mod_idemp_l. lia. }
  destruct (decide (Z.of_nat n mod 7 = 6)) as [E|E]; [left; by rewrite E|right].
  rewrite (Z.mod_small (Z.of_nat n mod 7 + 1)) by lia. lia.
Qed.

Lemma after_failures_state nodes n :
  let r := (after_failures nodes n).1 in
  backoff r = Z.min (initial_backoff * 2 ^ Z.of_nat n) maxBackoff ∧
  (nodes ≠ [] → failedAttempts r = Z.of_nat n mod 7) ∧
  (nodes = [] → failedAttempts r = Z.of_nat n).
Proof.
  induction n as [|n IH]; [done|]. cbn [after_failures].
  destruct (after_failures nodes n) as [r els]. cbn [fst] in IH. destruct IH as (Hb & Hc & Hs).
  unfold connect_failed. cbn [fst backoff failedAttempts].
  split; [|split].
  - rewrite Hb, Nat2Z.inj_succ, Z.pow_succ_r by lia.
    pose proof (Z.pow_pos_nonneg 2 (Z.of_nat n)). unfold initial_backoff, maxBackoff, Millisecond, Second in *.
    destruct (Z.ltb_spec (5 * 1000000000) (2 * Z.min (200 * 1000000 * 2 ^ Z.of_nat n) (5 * 1000000000))); lia.
  - intros Hn. rewrite Hc by done. rewrite (bool_decide_eq_true_2 (nodes ≠ [])), andb_true_r by done.
    unfold maxAttemptsBeforeElection. pose proof (mod7_succ n).
    destruct (Z.leb_spec 7 (Z.of_nat n mod 7 + 1)); lia.
  - intros Hn. rewrite Hs by done. rewrite (bool_decide_eq_false_2 (nodes ≠ [])) by tauto.
    rewrite andb_false_r. cbv iota. lia.
Qed.

(** The retry loop backs off and calls elections as intended: after [n] failed
    connections the pause is 200 ms doubled [n] times but never over 5 s, and in
    a cluster the [k]-th failure in a row starts an election exactly when [k] is a
    multiple of seven; outside a cluster no election is started from here. *)
Theorem retry_schedule nodes n :
  backoff (after_failures nodes n).1 = Z.min (initial_backoff * 2 ^ Z.of_nat n) maxBackoff ∧
  length (after_failures nodes n).2 = n ∧
  ∀ k, (k < n)%nat →
    (after_failures nodes n).2 !! k =
    Some (bool_decide (nodes ≠ []) && (Z.of_nat (S k) mod 7 =? 0)).
Proof.
  split; [apply after_failures_state|]. induction n as [|n [IHlen IH]]; [split; [done|lia]|].
  cbn [after_failures]. pose proof (after_failures_state nodes n) as (_ & Hc & Hs).
  destruct (after_failures nodes n) as [r els]. cbn [fst snd] in *.
  destruct (connect_failed nodes r) as [[elect sl] r'] eqn:E. cbn [snd].
  unfold connect_failed in E. injection E as Hel _ _.
  rewrite length_app, IHlen. cbn [length]. split; [lia|]. intros k Hk.
  destruct (decide (k = n)) as [->|Hne].
  2: { rewrite lookup_app_l by lia. apply IH. lia. }
  rewrite lookup_app_r by lia. rewrite IHlen, Nat.sub_diag. cbn [lookup list_lookup]. f_equal. rewrite <-Hel.
  unfold maxAttemptsBeforeElection. destruct (decide (nodes = [])) as [Hn|Hn].
  - rewrite (bool_decide_eq_false_2 (nodes ≠ [])) by tauto. by rewrite andb_false_r.
  - rewrite (bool_decide_eq_true_2 (nodes ≠ [])), andb_true_r, Hc by done. cbn [andb].
    pose proof (mod7_succ n).
    destruct (Z.leb_spec 7 (Z.of_nat n mod 7 + 1)), (Z.eqb_spec (Z.of_nat (S n) mod 7) 0); lia || done.
Qed.

(** ** Who waits, who wins *)

Lemma max_priority_spec own nodes :
  own ≤ max_priority own nodes ∧ (∀ n, n ∈ nodes → Config.Priority n ≤ max_priority own nodes) ∧
  (max_priority own nodes = own ∨ ∃ n, n ∈ nodes ∧ max_priority own nodes = Config.Priority n).
Proof.
  unfold max_priority. revert own. induction nodes as [|n nodes IH]; intros own.
  { split_and!; [done|by intros ? ?%elem_of_nil|by left]. }
  cbn [foldl]. set (own' := if own <? Config.Priority n then Config.Priority n else own).
  assert (own ≤ own' ∧ Config.Priority n ≤ own' ∧ (own' = own ∨ own' = Config.Priority n)) as (H1 & H2 & H3).
  { unfold own'. destruct (Z.ltb_spec own (Config.Priority n)); lia. }
  destruct (IH own') as (I1 & I2 & I3). split_and!; [lia| |].
  - intros m [->|Hm]%elem_of_cons; [lia|by apply I2].
  - destruct I3 as [I3|(m & Hm & I3)].
    + destruct H3 as [H3|H3]; [left; congruence|]. right. exists n. split; [apply elem_of_cons; by left|congruence].
    + right. exists m. split; [apply elem_of_cons; by right|done].
Qed.

Lemma max_priority_member own nodes n :
  n ∈ nodes → Config.Priority n = own → max_priority own nodes = max_priority 0 nodes ∨ own < 0.
Proof.
  intros Hn Ho. destruct (max_priority_spec own nodes) as (A1 & A2 & A3), (max_priority_spec 0 nodes) as (B1 & B2 & B3).
  destruct (Z.le_gt_cases 0 own); [left|by right]. pose proof (B2 n Hn).
  destruct A3 as [A3|(m & Hm & A3)], B3 as [B3|(m' & Hm' & B3)]; try lia.
  - specialize (A2 m' Hm'). lia.
  - specialize (B2 m Hm). lia.
  - pose proof (A2 m' Hm'). pose proof (B2 m Hm). lia.
Qed.

(** Elections are ordered by priority: of two members of the same cluster
    configuration the one with the higher priority waits strictly less before it
    tries to become leader, 500 ms less per step, and the highest one waits
    500 ms. *)
Theorem election_priority_order (f g : Follower) nf ng :
  clusterNodes f = clusterNodes g → nf ∈ clusterNodes f → ng ∈ clusterNodes f →
  Config.Priority nf = myPriority f → Config.Priority ng = myPriority g →
  0 < myPriority f → 0 < myPriority g → max_priority 0 (clusterNodes f) < 2 ^ 31 →
  election_wait g - election_wait f = (myPriority f - myPriority g) * (500 * Millisecond) ∧
  500 * Millisecond ≤ election_wait f.
Proof.
  intros Hn Hf Hg Pf Pg H1 H2 Hmax. unfold election_wait. rewrite <-Hn.
  destruct (max_priority_member (myPriority f) (clusterNodes f) nf Hf Pf) as [->|?]; [|lia].
  destruct (max_priority_member (myPriority g) (clusterNodes f) ng Hg Pg) as [->|?]; [|lia].
  destruct (max_priority_spec 0 (clusterNodes f)) as (_ & HP & _).
  pose proof (HP nf Hf). pose proof (HP ng Hg). set (m := max_priority 0 (clusterNodes f)) in *.
  unfold Millisecond. rewrite !(wrap64_small (m - _ + 1)) by (unfold int64_range, two63; lia).
  rewrite !wrap64_small by (unfold int64_range, two63; lia). lia.
Qed.

Definition demo_nodes : list Config.NodeInfo :=
  [Config.mkNodeInfo "n1" "h1" 7000 8000 3 "" ""; Config.mkNodeInfo "n2" "h2" 7000 8000 1 "" ""].
Definition candidate (name : string) (priority : Z) : Follower :=
  mkFollower (Cache.NewCache 3 NewCollector) "h0:8000" name None "" "" 0 0 false demo_nodes priority 8000
    [] false false.

Lemma election_priority_order_witness :
  election_wait (candidate "n2" 1) - election_wait (candidate "n1" 3) = (3 - 1) * (500 * Millisecond) ∧
  500 * Millisecond ≤ election_wait (candidate "n1" 3).
Proof.
  apply (election_priority_order (candidate "n1" 3) (candidate "n2" 1)
    (Config.mkNodeInfo "n1" "h1" 7000 8000 3 "" "") (Config.mkNodeInfo "n2" "h2" 7000 8000 1 "" "")).
  - done.
  - apply elem_of_cons. by left.
  - apply elem_of_cons. right. apply elem_of_cons. by left.
  - done.
  - done.
  - done.
  - done.
  - by vm_compute.
Defined.

(** ** Promotion *)

Lemma find_new_leader_none env self nodes :
  (∀ n, n ∈ nodes → repl_addr n ≠ "") → find_new_leader env self nodes = "" →
  ∀ n, n ∈ nodes → Config.ID n ≠ self →
    ¬ (reachable env (repl_addr n) = true ∧ sync_accepted env (repl_addr n) = true).
Proof.
  induction nodes as [|m nodes IH]; intros Ha Hf n Hn Hne; [by apply elem_of_nil in Hn|].
  assert (∀ n, n ∈ nodes → repl_addr n ≠ "") as Ha' by (intros; apply Ha, elem_of_cons; by right).
  cbn [find_new_leader] in Hf. apply elem_of_cons in Hn as [->|Hn].
  - rewrite bool_decide_eq_false_2 in Hf by done. intros [R S]. rewrite R, S in Hf. cbn [andb] in Hf.
    revert Hf. apply Ha, elem_of_cons. by left.
  - case_bool_decide; [by apply IH|]. destruct (_ && _); [|by apply IH].
    destruct (Ha m); [apply elem_of_cons; by left|done].
Qed.

Lemma find_peer_none env addrs :
  find_peer env addrs = "" → ∀ a, a ∈ addrs → a ≠ "" → reachable env a = false.
Proof.
  induction addrs as [|b addrs IH]; intros Hf a Ha Hne; [by apply elem_of_nil in Ha|].
  cbn [find_peer] in Hf. case_bool_decide as Hb.
  - apply elem_of_cons in Ha as [->|Ha]; [done|by apply IH].
  - destruct (reachable env b) eqn:E; [done|].
    apply elem_of_cons in Ha as [->|Ha]; [done|by apply IH].
Qed.

Lemma repl_addr_nonempty n : repl_addr n ≠ "".
Proof. unfold repl_addr, JoinHostPort. destruct (string_elem ":" (Config.Host n)); [done|]. by destruct (Config.Host n). Qed.

(** C39. A follower promotes itself only when it sees no other leader: if an election
    turns a follower into a leader, then it is not a cluster member without
    priority, and, unless it runs without priority in simple mode, no other node
    of its configuration accepted a SYNC request and no configured peer accepted
    a connection. *)
Theorem election_safe env f :
  promoted f = false → promoted (startElection env f).2 = true →
  (myPriority f ≤ 0 → clusterNodes f = []) ∧
  (0 < myPriority f →
   (∀ n, n ∈ clusterNodes f → Config.ID n ≠ id f →
      ¬ (reachable env (repl_addr n) = true ∧ sync_accepted env (repl_addr n) = true)) ∧
   (∀ a, a ∈ peerReplAddrs f → a ≠ "" → reachable env a = false)).
Proof.
  intros Hp. unfold startElection. destruct (Z.ltb_spec 0 (myPriority f)) as [Hprio|Hprio].
  - cbv zeta. set (addr := if bool_decide (clusterNodes f = []) then "" else findNewLeader env f).
    intros H. split; [lia|]. intros _.
    destruct (decide (addr = "")) as [Ha|Ha].
    2: { rewrite bool_decide_eq_true_2 in H by done. cbn [snd with_leader_addr promoted] in H. congruence. }
    destruct (decide (findPeerLeader env f = "")) as [Hb|Hb].
    2: { rewrite bool_decide_eq_false_2, bool_decide_eq_true_2 in H by tauto.
         cbn [snd with_leader_addr promoted] in H. congruence. }
    split; [|by apply find_peer_none].
    intros n Hn. unfold addr in Ha.
    case_bool_decide as Hnil; [rewrite Hnil in Hn; by apply elem_of_nil in Hn|].
    revert n Hn. apply find_new_leader_none; [|done]. intros. apply repl_addr_nonempty.
  - case_bool_decide as Hc; [intros H; cbn [snd] in H; congruence|]. intros _. split; [done|lia].
Qed.

Definition quiet : election_env := mkElection (λ _, false) (λ _, false) (Some 9000) (λ _, true).

Lemma election_safe_witness :
  (myPriority (candidate "n1" 3) ≤ 0 → clusterNodes (candidate "n1" 3) = []) ∧
  (0 < myPriority (candidate "n1" 3) →
   (∀ n, n ∈ demo_nodes → Config.ID n ≠ "n1" →
      ¬ (reachable quiet (repl_addr n) = true ∧ sync_accepted quiet (repl_addr n) = true)) ∧
   (∀ a, a ∈ [] → a ≠ "" → reachable quiet a = false)).
Proof. by apply (election_safe quiet (candidate "n1" 3)). Defined.

(** A promotion that fails strands the node: when the replication port cannot
    be listened on, the follower is marked as promoted although it is no leader,
    so its main loop ends and its monitor stops, while the node keeps the role
    and the leader it had: it neither follows nor leads. *)
Theorem failed_promotion_strands env f dial now clock clock' r ns l :
  (startElection env f).1 = leader_failed →
  let f' := (startElection env f).2 in
  start_turn dial now clock clock' r f' = Ret (loop_ends, r, f') ∧
  (monitor_tick f' now).1 = stop_watching ∧
  f_conn f' = None ∧ update_node (startElection env f).1 l ns = ns.
Proof.
  intros H. assert (promoted (startElection env f).2 = true ∧ f_conn (startElection env f).2 = None) as [Hp Hc].
  { assert ((promote env f).1 = leader_failed →
      promoted (promote env f).2 = true ∧ f_conn (promote env f).2 = None) as Hpro.
    { unfold promote, closeConn. cbv zeta. destruct (f_conn f) eqn:Ef; cbn [with_conn myReplPort];
        destruct (myReplPort f =? 0); try (destruct (free_port env));
        repeat (case_match; cbn [fst snd]); done. }
    revert H. unfold startElection. repeat case_match; cbn [fst snd]; try done; exact Hpro. }
  cbv zeta. split_and!; [| |done|by rewrite H].
  - unfold start_turn. by rewrite Hp, orb_true_r.
  - unfold monitor_tick. by rewrite Hp.
Qed.

Definition busy : election_env := mkElection (λ _, false) (λ _, false) (Some 9000) (λ _, false).

Lemma failed_promotion_strands_witness :
  let f' := (startElection busy (candidate "n1" 3)).2 in
  start_turn (GErr "refused") 5 (λ _, 5) (λ _, 5) fresh_retry f' = Ret (loop_ends, fresh_retry, f') ∧
  (monitor_tick f' 5).1 = stop_watching ∧ f_conn f' = None ∧
  update_node (startElection busy (candidate "n1" 3)).1 1%positive
    (NodeState.NewNodeState "follower" None "h0:8000") = NodeState.NewNodeState "follower" None "h0:8000".
Proof.
  by apply (failed_promotion_strands busy (candidate "n1" 3) (GErr "refused") 5 (λ _, 5) (λ _, 5) fresh_retry
    (NodeState.NewNodeState "follower" None "h0:8000") 1%positive).
Defined.
End Election.
