(* ===== verification/Handler.v ===== *)
(** * internal/server/handler.go: the commands of a client connection

    [Server] is what the connections of a node share: the cache, the append-only
    log, the replication leaders (pointers from the node state), the pub/sub
    registry and the node state.  [World] adds what belongs to one connection:
    its [ConnectionState] and the bytes written to it.  A handler is a function
    on [World]; a failed type assertion or an index out of range is [Panic], a
    lock taken twice is [Deadlock].  What the code reads from outside is an
    [Env]: the clock and the disk at each call, and iteration orders of maps.
    Logging is left out; writes to the client do not fail. *)

From S2P Require Import Prelude GoStd Lru Metrics Cache Resp HashRing PubSub ReplProtocol.
From S2P Require Import Config NodeState Persistence Leader.
Import ReplProtocol(str_of, OpSet, OpDelete).
Local Open Scope Z_scope.

Module Handler.

Record ConnectionState := mkConnState {
  subscriberMode : bool;
  inTransaction : bool;
  commandQueue : list (list value);
  transactionError : option string
}.

Record Server := mkServer {
  cache : Cache.Cache;
  aof : Persistence.AOF;
  leaders : gmap positive Leader.Leader;
  ps : PubSub.PubSub;
  nodeState : NodeState.NodeState
}.

Record World := mkWorld {
  srv : Server;
  conn : PubSub.conn;
  state : ConnectionState;
  out : string
}.

Record Env := mkEnv {
  clock : nat → Z;                       (* the i-th reading of the clock *)
  disk : nat → Persistence.append_io;    (* the i-th append *)
  channel_order : list string;           (* the connection's channels *)
  publish_order : list PubSub.subid      (* the subscribers of a channel *)
}.

(** ** Field updates *)

Definition with_cache (w : World) (c : Cache.Cache) : World :=
  mkWorld (mkServer c (aof (srv w)) (leaders (srv w)) (ps (srv w)) (nodeState (srv w)))
    (conn w) (state w) (out w).
Definition with_aof (w : World) (a : Persistence.AOF) : World :=
  mkWorld (mkServer (cache (srv w)) a (leaders (srv w)) (ps (srv w)) (nodeState (srv w)))
    (conn w) (state w) (out w).
Definition with_leaders (w : World) ls : World :=
  mkWorld (mkServer (cache (srv w)) (aof (srv w)) ls (ps (srv w)) (nodeState (srv w)))
    (conn w) (state w) (out w).
Definition with_ps (w : World) p : World :=
  mkWorld (mkServer (cache (srv w)) (aof (srv w)) (leaders (srv w)) p (nodeState (srv w)))
    (conn w) (state w) (out w).
Definition with_state (w : World) (s : ConnectionState) : World := mkWorld (srv w) (conn w) s (out w).

(** [conn.Write] *)
Definition reply (w : World) (s : string) : World := mkWorld (srv w) (conn w) (state w) (out w +:+ s).

Definition set_subscriber (s : ConnectionState) (b : bool) : ConnectionState :=
  mkConnState b (inTransaction s) (commandQueue s) (transactionError s).

(** [resultSlice[i].(string)] *)
Definition arg (resultSlice : list value) (i : nat) : outcome string :=
  v ← or_panic (resultSlice !! i); or_panic (str_of v).

(** [command == "..."] on an interface value. *)
Definition is_command (command : value) (name : string) : bool :=
  bool_decide (str_of command = Some name).

(** The result of every request is timed. *)
Definition observe (w : World) : World :=
  with_cache w (Cache.with_metrics (cache (srv w)) RecordOperationDuration).

Definition requiresLeader (operation : string) : bool :=
  if bool_decide (operation = "SET" ∨ operation = "DEL") then true
  else if bool_decide (operation = "GET") then false
  else true.

Definition canQueueCommand (command : string) : bool :=
  if bool_decide (command ∈ ["MULTI"; "EXEC"; "DISCARD"]) then false
  else if bool_decide (command ∈ ["SUBSCRIBE"; "UNSUBSCRIBE"; "PUBLISH"; "PSUBSCRIBE"; "PUNSUBSCRIBE"])
  then false
  else if bool_decide (command = "CLUSTER") then false
  else true.

(** ** Transactions: queueing *)

Definition validation_error (command : string) (n : nat) : option string :=
  if bool_decide (command = "SET") then
    if bool_decide (n < 3 ∨ 5 < n)%nat then Some "wrong number of arguments for 'set' command" else None
  else if bool_decide (command = "GET") then
    if bool_decide (n ≠ 2%nat) then Some "wrong number of arguments for 'get' command" else None
  else if bool_decide (command = "DEL") then
    if bool_decide (n ≠ 2%nat) then Some "wrong number of arguments for 'del' command" else None
  else if bool_decide (command = "DBSIZE") then
    if bool_decide (n ≠ 1%nat) then Some "wrong number of arguments for 'dbsize' command" else None
  else if bool_decide (command = "PING") then
    if bool_decide (2 < n)%nat then Some "wrong number of arguments for 'ping' command" else None
  else None.

Definition queueCommandForTransaction (w : World) (resultSlice : list value) : outcome World :=
  let st := state w in
  match transactionError st with
  | Some _ => mret (reply w (EncodeSimpleString "QUEUED"))
  | None =>
      command ← arg resultSlice 0;
      mret match validation_error command (length resultSlice) with
      | Some validationErr =>
          reply (with_state w (mkConnState (subscriberMode st) (inTransaction st) (commandQueue st)
                                 (Some validationErr)))
            (EncodeError validationErr)
      | None =>
          reply (with_state w (mkConnState (subscriberMode st) (inTransaction st)
                                 (commandQueue st ++ [resultSlice]) (transactionError st)))
            (EncodeSimpleString "QUEUED")
      end
  end.

Definition handleMulti (w : World) : World :=
  if inTransaction (state w) then reply w (EncodeError "ERR MULTI calls can not be nested")
  else reply (with_state w (mkConnState (subscriberMode (state w)) true [] None))
         (EncodeSimpleString "OK").

(** The deferred function of [handleExec]. *)
Definition reset_transaction (w : World) : World :=
  with_state w (mkConnState (subscriberMode (state w)) false [] None).

Definition handleDiscard (w : World) : World :=
  if negb (inTransaction (state w)) then reply w (EncodeError "ERR DISCARD without MULTI")
  else reply (reset_transaction w) (EncodeSimpleString "OK").

(** ** Replication and the log *)

(** [if leader != nil { leader.Replicate(...) }]; an error is logged. *)
Definition replicate (w : World) (leader : option positive) (op key value : string) (ttl : Z) :
    outcome World :=
  match leader with
  | None => mret w
  | Some p =>
      l ← or_panic (leaders (srv w) !! p);
      '(_, l) ← Leader.Replicate l op key value ttl;
      mret (with_leaders w (<[p := l]> (leaders (srv w))))
  end.

(** [aof.Append(protocol.EncodeArray(...))]; an error is logged.  When the append
    starts the background rewrite, [Append] leaves the flag [rewriting] of the log
    set; the goroutine itself ([Persistence.rewrite_goroutine]) is no part of the
    handler.  It does not change the cache, so replies and entries do not depend on
    it; what the log holds does, and theorems about the log ask for the flag. *)
Definition append_aof (w : World) (elements : list value) (io : Persistence.append_io) : outcome World :=
  aofCommand ← EncodeArray elements;
  let '(_, a) := Persistence.Append (aof (srv w)) aofCommand io in
  mret (with_aof w a).

(** The TTL argument of SET: [EX seconds] or a fourth argument, with the error
    texts of the caller. *)
Definition set_ttl (err5 err4 : string) (resultSlice : list value) : outcome (gres string Z) :=
  if bool_decide (length resultSlice = 5%nat) then
    qualifier ← arg resultSlice 3;
    if bool_decide (ToUpper qualifier ≠ "EX") then mret (GErr "ERR syntax error")
    else
      s ← arg resultSlice 4;
      mret match Atoi s with Some n => GOk (seconds n) | None => GErr err5 end
  else if bool_decide (length resultSlice = 4%nat) then
    s ← arg resultSlice 3;
    mret match Atoi s with Some n => GOk (seconds n) | None => GErr err4 end
  else mret (GOk 0).

Definition set_arity (n : nat) : bool := bool_decide (n < 3 ∨ 5 < n)%nat.

(** ** The commands *)

Definition readonly_error : string := "ERR READONLY You can't write against a read only replica".

Definition handleSet (env : Env) (w : World) (resultSlice : list value) (leader : option positive) :
    outcome World :=
  if bool_decide (NodeState.GetRole (nodeState (srv w)) = "follower") then
    mret (reply w (EncodeError readonly_error))
  else if set_arity (length resultSlice) then
    mret (reply w (EncodeError "Length of command doesn't match"))
  else
    key ← arg resultSlice 1;
    value ← arg resultSlice 2;
    r ← set_ttl "ERR value is not an integer" "Couldn't convert seconds to a string" resultSlice;
    match r with
    | GErr msg => mret (reply w (EncodeError msg))
    | GOk ttl =>
        c ← Cache.Set_ (cache (srv w)) key value ttl (clock env 0%nat);
        let w := with_cache w c in
        let ttlSeconds := whole_seconds ttl in
        w ← replicate w leader OpSet key value ttlSeconds;
        w ← append_aof w [VStr "SET"; VStr key; VStr value; VStr (Itoa ttlSeconds)] (disk env 0%nat);
        mret (reply w (EncodeSimpleString "OK"))
    end.

(** The reply to a lookup. *)
Definition get_reply (r : string) (exists_ : bool) : string :=
  if exists_ then EncodeBulkString r false else EncodeBulkString "" true.

Definition handleGet (env : Env) (w : World) (resultSlice : list value) : outcome World :=
  if bool_decide (length resultSlice ≠ 2%nat) then
    mret (reply w (EncodeError "Length of command doesn't match"))
  else
    key ← arg resultSlice 1;
    '(result, exists_, c) ← Cache.Get (cache (srv w)) key (clock env 0%nat);
    mret (reply (with_cache w c) (get_reply result exists_)).

Definition handleDelete (env : Env) (w : World) (resultSlice : list value) (leader : option positive) :
    outcome World :=
  if bool_decide (NodeState.GetRole (nodeState (srv w)) = "follower") then
    mret (reply w (EncodeError readonly_error))
  else if bool_decide (length resultSlice ≠ 2%nat) then
    mret (reply w (EncodeError "Length of command doesn't match"))
  else
    key ← arg resultSlice 1;
    c ← Cache.Delete (cache (srv w)) key;
    let w := with_cache w c in
    w ← replicate w leader OpDelete key "" 0;
    w ← append_aof w [VStr "DEL"; VStr key] (disk env 0%nat);
    mret (reply w (":1" +:+ CRLF)).

(** Only the number of keys is used, so the order of [GetAllKeys] is fixed. *)
Definition db_size (c : Cache.Cache) : outcome Z :=
  keys ← Cache.GetAllKeys c (map_to_list (Cache.data c)).*1;
  mret (Z.of_nat (length keys)).

Definition handleDBSize (w : World) : outcome World :=
  count ← db_size (cache (srv w));
  mret (reply w (":" +:+ Itoa count +:+ CRLF)).

Definition handlePing (w : World) : World := reply w (EncodeSimpleString "PONG").

(** ** EXEC *)

Definition err_range : string := "ERR value is not an integer or out of range".

Definition executeSetCommand (now : Z) (resultSlice : list value) (c : Cache.Cache) :
    outcome (string * Cache.Cache) :=
  if set_arity (length resultSlice) then
    mret (EncodeError "ERR wrong number of arguments for 'set' command", c)
  else
    key ← arg resultSlice 1;
    value ← arg resultSlice 2;
    r ← set_ttl err_range err_range resultSlice;
    match r with
    | GErr msg => mret (EncodeError msg, c)
    | GOk ttl =>
        c ← Cache.SetInternal c key value ttl now;
        mret (EncodeSimpleString "OK", c)
    end.

Definition executeGetCommand (now : Z) (resultSlice : list value) (c : Cache.Cache) :
    outcome (string * Cache.Cache) :=
  if bool_decide (length resultSlice ≠ 2%nat) then
    mret (EncodeError "ERR wrong number of arguments for 'get' command", c)
  else
    key ← arg resultSlice 1;
    '(result, exists_, c) ← Cache.GetInternal c key now;
    mret (get_reply result exists_, c).

Definition executeDeleteCommand (resultSlice : list value) (c : Cache.Cache) :
    outcome (string * Cache.Cache) :=
  if bool_decide (length resultSlice ≠ 2%nat) then
    mret (EncodeError "ERR wrong number of arguments for 'del' command", c)
  else
    key ← arg resultSlice 1;
    c ← Cache.DeleteInternal c key;
    mret (":1" +:+ CRLF, c).

Definition executeDBSizeCommand (c : Cache.Cache) : outcome string :=
  count ← db_size c; mret (":" +:+ Itoa count +:+ CRLF).

Definition executePingCommand : string := EncodeSimpleString "PONG".

(** One turn of the first loop of [handleExec]. *)
Definition execute_command (now : Z) (cmdSlice : list value) (c : Cache.Cache) :
    outcome (string * Cache.Cache) :=
  command ← arg cmdSlice 0;
  if bool_decide (command = "SET") then executeSetCommand now cmdSlice c
  else if bool_decide (command = "GET") then executeGetCommand now cmdSlice c
  else if bool_decide (command = "DEL") then executeDeleteCommand cmdSlice c
  else if bool_decide (command = "DBSIZE") then response ← executeDBSizeCommand c; mret (response, c)
  else if bool_decide (command = "PING") then mret (executePingCommand, c)
  else mret (EncodeError ("ERR unknown command '" +:+ command +:+ "'"), c).

Fixpoint execute_loop (clock : nat → Z) (i : nat) (queue : list (list value)) (results : list string)
    (c : Cache.Cache) : outcome (list string * Cache.Cache) :=
  match queue with
  | [] => mret (results, c)
  | cmdSlice :: queue =>
      '(response, c) ← execute_command (clock i) cmdSlice c;
      execute_loop clock (S i) queue (results ++ [response]) c
  end.

(** The TTL the second loop extracts: an argument that is no integer counts as
    none. *)
Definition logged_ttl (cmdSlice : list value) : outcome Z :=
  if bool_decide (length cmdSlice = 5%nat) then
    s ← arg cmdSlice 4; mret (default 0 (Atoi s))
  else if bool_decide (length cmdSlice = 4%nat) then
    s ← arg cmdSlice 3; mret (default 0 (Atoi s))
  else mret 0.

(** One turn of the second loop. *)
Definition persist_command (io : Persistence.append_io) (leader : option positive) (w : World)
    (cmdSlice : list value) : outcome World :=
  command ← arg cmdSlice 0;
  if bool_decide (command = "SET") then
    key ← arg cmdSlice 1;
    value ← arg cmdSlice 2;
    ttlSeconds ← logged_ttl cmdSlice;
    w ← replicate w leader OpSet key value ttlSeconds;
    append_aof w [VStr "SET"; VStr key; VStr value; VStr (Itoa ttlSeconds)] io
  else if bool_decide (command = "DEL") then
    key ← arg cmdSlice 1;
    w ← replicate w leader OpDelete key "" 0;
    append_aof w [VStr "DEL"; VStr key] io
  else mret w.

Fixpoint persist_loop (disk : nat → Persistence.append_io) (leader : option positive) (i : nat)
    (queue : list (list value)) (w : World) : outcome World :=
  match queue with
  | [] => mret w
  | cmdSlice :: queue =>
      w ← persist_command (disk i) leader w cmdSlice;
      persist_loop disk leader (S i) queue w
  end.

Definition handleExec (env : Env) (w : World) (leader : option positive) : outcome World :=
  if negb (inTransaction (state w)) then mret (reply w (EncodeError "ERR EXEC without MULTI"))
  else
    match transactionError (state w) with
    | Some _ =>
        mret (reset_transaction (reply w
          (EncodeError "EXECABORT Transaction discarded because of previous errors.")))
    | None =>
        let queue := commandQueue (state w) in
        c ← Cache.Lock (cache (srv w));
        '(results, c) ← execute_loop (clock env) 0 queue [] c;
        w ← persist_loop (disk env) leader 0 queue (with_cache w c);
        let arrayResponse := foldl (λ s r, s +:+ r)
          ("*" +:+ Itoa (Z.of_nat (length results)) +:+ CRLF) results in
        let w := reply w arrayResponse in
        c ← Cache.Unlock (cache (srv w));
        mret (reset_transaction (with_cache w c))
    end.

(** ** Pub/sub commands *)

(** [len(ps.GetSubscribedChannels(conn))]: the order does not matter. *)
Definition subscription_count (p : PubSub.PubSub) (c : PubSub.conn) : Z :=
  Z.of_nat (length (PubSub.GetSubscribedChannels p
    (map_to_list (default ∅ (PubSub.subscriptions p !! c))).*1 c)).

(** The loop of [handleSubscribe]; the flag says whether it ran to the end. *)
Fixpoint subscribe_loop (w : World) (channels : list value) : outcome (bool * World) :=
  match channels with
  | [] => mret (true, w)
  | v :: channels =>
      match str_of v with
      | None => mret (false, reply w (EncodeError "ERR invalid channel"))
      | Some channel =>
          p ← PubSub.Subscribe (ps (srv w)) (conn w) channel;
          let w := with_ps w p in
          confirmation ← EncodeSubscribeConfirmation channel (subscription_count p (conn w));
          subscribe_loop (reply w confirmation) channels
      end
  end.

Definition handleSubscribe (w : World) (resultSlice : list value) : outcome World :=
  if bool_decide (length resultSlice < 2)%nat then
    mret (reply w (EncodeError "ERR wrong number of arguments for 'subscribe' command"))
  else
    '(finished, w) ← subscribe_loop w (tail resultSlice);
    mret (if finished : bool then with_state w (set_subscriber (state w) true) else w).

(** One channel left: an error of [Unsubscribe] is only logged. *)
Definition unsubscribe_one (w : World) (channel : string) : outcome World :=
  '(_, p) ← PubSub.Unsubscribe (ps (srv w)) (conn w) channel;
  let w := with_ps w p in
  confirmation ← EncodeUnsubscribeConfirmation channel (subscription_count p (conn w));
  mret (reply w confirmation).

Fixpoint unsubscribe_loop (w : World) (channels : list value) : outcome (bool * World) :=
  match channels with
  | [] => mret (true, w)
  | v :: channels =>
      match str_of v with
      | None => mret (false, reply w (EncodeError "ERR invalid channel name"))
      | Some channel => w ← unsubscribe_one w channel; unsubscribe_loop w channels
      end
  end.

Definition handleUnsubscribe (env : Env) (w : World) (resultSlice : list value) : outcome World :=
  if bool_decide (length resultSlice = 1%nat) then
    let channels := PubSub.GetSubscribedChannels (ps (srv w)) (channel_order env) (conn w) in
    w ← for_each unsubscribe_one w channels;
    mret (with_state w (set_subscriber (state w) false))
  else
    '(finished, w) ← unsubscribe_loop w (tail resultSlice);
    mret (if finished && (subscription_count (ps (srv w)) (conn w) =? 0)
          then with_state w (set_subscriber (state w) false) else w).

Definition handlePublish (env : Env) (w : World) (resultSlice : list value) : outcome World :=
  match resultSlice with
  | [_; v1; v2] =>
      match str_of v1 with
      | None => mret (reply w (EncodeError "ERR invalid channel name"))
      | Some channel =>
          match str_of v2 with
          | None => mret (reply w (EncodeError "ERR invalid message"))
          | Some message =>
              '(count, p) ← PubSub.Publish (ps (srv w)) (publish_order env) channel message;
              mret (reply (with_ps w p) (EncodePublishResponse count))
          end
      end
  | _ => mret (reply w (EncodeError "ERR wrong number of arguments for 'publish' command"))
  end.

(** ** One request *)

Definition allowedCommands : list string :=
  ["SUBSCRIBE"; "UNSUBSCRIBE"; "PSUBSCRIBE"; "PUNSUBSCRIBE"; "PING"; "QUIT"].

Definition subscriber_allowed (command : value) : bool :=
  match str_of command with
  | Some cmdStr => bool_decide (cmdStr ∈ allowedCommands)
  | None => false
  end.

Section connection.
(** The CLUSTER commands are a parameter here; ClusterCommands defines them. *)
Context (handleClusterCommand : World → list value → outcome World).

(** The last switch of the loop, for a request this node handles itself. *)
Definition handle_locally (env : Env) (w : World) (command : value) (resultSlice : list value) :
    outcome World :=
  let leader := NodeState.GetLeader (nodeState (srv w)) in
  if is_command command "SET" then handleSet env w resultSlice leader
  else if is_command command "GET" then handleGet env w resultSlice
  else if is_command command "DEL" then handleDelete env w resultSlice leader
  else if is_command command "DBSIZE" then handleDBSize w
  else if is_command command "PING" then mret (handlePing w)
  else if is_command command "CLUSTER" then handleClusterCommand w resultSlice
  else if is_command command "MULTI" then mret (handleMulti w)
  else if is_command command "EXEC" then handleExec env w leader
  else if is_command command "DISCARD" then mret (handleDiscard w)
  else
    name ← or_panic (str_of command);
    mret (reply w (EncodeError ("ERR Unknown command '" +:+ name +:+ "'"))).

(** Routing: a key of another node is answered with a redirect. *)
Definition route (env : Env) (w : World) (command : value) (resultSlice : list value) :
    outcome World :=
  key ← (if bool_decide (2 ≤ length resultSlice)%nat then arg resultSlice 1 else mret "");
  let isWrite := is_command command "SET" || is_command command "DEL" in
  if NodeState.ns_IsClusterMode (nodeState (srv w)) && bool_decide (key ≠ "") then
    let '(shouldForward, targetNodeID, targetAddr) :=
      NodeState.ShouldForwardRequest (nodeState (srv w)) key isWrite in
    if shouldForward : bool then
      mret (reply w ("-MOVED " +:+ targetNodeID +:+ " " +:+ targetAddr +:+ CRLF))
    else handle_locally env w command resultSlice
  else handle_locally env w command resultSlice.

(** The pub/sub and cluster commands come before routing. *)
Definition dispatch (env : Env) (w : World) (command : value) (resultSlice : list value) :
    outcome World :=
  if is_command command "SUBSCRIBE" then handleSubscribe w resultSlice
  else if is_command command "UNSUBSCRIBE" then handleUnsubscribe env w resultSlice
  else if is_command command "PUBLISH" then handlePublish env w resultSlice
  else if is_command command "CLUSTER" then handleClusterCommand w resultSlice
  else route env w command resultSlice.

(** Inside a transaction most commands are queued. *)
Definition transaction_gate (env : Env) (w : World) (command : value) (resultSlice : list value) :
    outcome World :=
  match str_of command with
  | Some cmdStr =>
      if inTransaction (state w) then
        if bool_decide (cmdStr = "EXEC" ∨ cmdStr = "DISCARD") then dispatch env w command resultSlice
        else if canQueueCommand cmdStr then queueCommandForTransaction w resultSlice
        else mret (reply w (EncodeError ("ERR command '" +:+ cmdStr +:+ " cannot be used in a transaction")))
      else dispatch env w command resultSlice
  | None => dispatch env w command resultSlice
  end.

(** A request that parsed to an array: the body of the loop from line 101 on. *)
Definition handle_request (env : Env) (w : World) (resultSlice : list value) : outcome World :=
  command ← or_panic (resultSlice !! 0%nat);
  w ← (if subscriberMode (state w) && negb (subscriber_allowed command) then mret (reply w (EncodeError
              "ERR only (P)SUBSCRIBE / (P)UNSUBSCRIBE / PING / QUIT allowed in this context"))
       else transaction_gate env w command resultSlice);
  mret (observe w).

(** The loop: it ends at the end of the input, at an error of the parser, or at
    a value that is not an array.  Each turn consumes at least one byte, so one
    unit of fuel per byte is enough. *)
Fixpoint serve_loop (env : nat → Env) (fuel i : nat) (w : World) (reader : string) : outcome World :=
  match fuel with
  | O => OutOfFuel
  | S fuel =>
      '(result, reader) ← parse reader;
      match result with
      | GErr _ => mret w
      | GOk (VSlice resultSlice) =>
          w ← handle_request (env i) w resultSlice;
          serve_loop env fuel (S i) w reader
      | GOk _ => mret w
      end
  end.

Definition new_state : ConnectionState := mkConnState false false [] None.

(** [handleConnection] on all the bytes the client sends until it hangs up; the
    deferred calls run in reverse order. *)
Definition handleConnection (env : nat → Env) (remove_order : list string) (s : Server)
    (c : PubSub.conn) (input : string) : outcome World :=
  let w := mkWorld s c new_state "" in
  let w := with_cache w (Cache.with_metrics (cache (srv w)) IncrementActiveConnections) in
  w ← serve_loop env (S (String.length input)) 0 w input;
  let w := with_cache w (Cache.with_metrics (cache (srv w)) DecrementActiveConnections) in
  p ← PubSub.RemoveConnection (ps (srv w)) remove_order c;
  mret (with_ps w p).
End connection.

End Handler.
