(* ===== verification/HandlerSpec.v ===== *)
(** * What a client connection does

    Requests as a client sends them, what the abstract cache answers, and what
    reaches the log and the followers.  [session_refines_spec] puts parser,
    dispatcher, cache, log and leader together on a byte stream;
    [transaction_refines_spec] does the same for MULTI ... EXEC. *)

From S2P Require Import Prelude GoStd Lru Metrics Cache CacheSpec CacheTrace Resp HashRing.
From S2P Require Import PubSub ReplProtocol Config NodeState Persistence Leader Handler.
Import ReplProtocol(str_of, OpSet, OpDelete, decode_n).
#[local] Existing Instance ReplProtocol.repl_codec.
Import Handler.
Import Persistence(io_ok, append_io, file, file_open, rewriting, Operation, mkOp, Type_, encode_log, log_entry,
  op_wf, encode_entry).
Import Leader(mkReq, replicate_request, leader_wf, request_wf).
Local Open Scope Z_scope.

Module HandlerSpec.

(** ** Requests and their meaning *)

(** The three forms of SET: without a TTL, with [EX seconds], with seconds alone. *)
Inductive ttl_arg := NoTTL | Ex (seconds : Z) | Plain (seconds : Z).

Definition ttl_of (t : ttl_arg) : Z := match t with NoTTL => 0 | Ex n | Plain n => n end.
Definition ttl_args (t : ttl_arg) : list value :=
  match t with NoTTL => [] | Ex n => [VStr "EX"; VStr (Itoa n)] | Plain n => [VStr (Itoa n)] end.

Inductive request :=
| RSet (k v : string) (t : ttl_arg)
| RGet (k : string)
| RDel (k : string)
| RPing.

Definition request_slice (r : request) : list value :=
  match r with
  | RSet k v t => VStr "SET" :: VStr k :: VStr v :: ttl_args t
  | RGet k => [VStr "GET"; VStr k]
  | RDel k => [VStr "DEL"; VStr k]
  | RPing => [VStr "PING"]
  end.

Definition req_wf (r : request) : Prop :=
  match r with
  | RSet k v t => slen k ≤ maxAlloc ∧ slen v ≤ maxAlloc ∧ int64_range (ttl_of t * Second)
  | RGet k | RDel k => slen k ≤ maxAlloc
  | RPing => True
  end.

#[export] Instance req_wf_dec r : Decision (req_wf r).
Proof. destruct r; simpl; apply _. Defined.

(** The reply and the entries afterwards, most recently used first.  DEL is
    answered 1 whether or not the key was there, as [handleDelete] does (the API
    documentation promises 0 for a missing key). *)
Definition spec_request (cap now : Z) (r : request) (es : list entry) : string * list entry :=
  match r with
  | RSet k v t =>
      (EncodeSimpleString "OK", spec_set cap k v (spec_expiry (seconds (ttl_of t)) now) es)
  | RGet k =>
      let '(v, es) := spec_get k now es in
      (match v with Some v => EncodeBulkString v false | None => EncodeBulkString "" true end, es)
  | RDel k => (":1" +:+ CRLF, spec_del k es)
  | RPing => (EncodeSimpleString "PONG", es)
  end.

Fixpoint spec_session (cap : Z) (clock : nat → Z) (i : nat) (rs : list request) (es : list entry) :
    list string * list entry :=
  match rs with
  | [] => ([], es)
  | r :: rs =>
      let '(a, es) := spec_request cap (clock i) r es in
      let '(answers, es) := spec_session cap clock (S i) rs es in
      (a :: answers, es)
  end.

(** What a request leaves in the log. *)
Definition logged (r : request) : list Operation :=
  match r with
  | RSet k v t => [mkOp "SET" k v (ttl_of t)]
  | RDel k => [mkOp "DEL" k "" 0]
  | _ => []
  end.

Definition replicated (op : Operation) : Leader.request :=
  mkReq (if decide (Type_ op = "SET") then OpSet else OpDelete) (Persistence.Key op)
    (Persistence.Value op) (Persistence.TTL op).

Lemma seconds_range n : int64_range (n * Second) → int64_range n.
Proof. unfold int64_range, two63, Second. lia. Qed.

Lemma logged_wf r : req_wf r → Forall op_wf (logged r).
Proof.
  destruct r as [k v ttl|k|k|]; cbn [logged req_wf]; intros Hr;
    split_Forall.
  - destruct Hr as (Hk & Hv & Ht). split_and!; [done|done|by apply seconds_range|by left].
  - split_and!; [done|by vm_compute..|]. right. done.
Qed.

Lemma replicated_wf op : op_wf op → request_wf (replicated op).
Proof.
  intros (Hk & Hv & Ht & Hop). split_and!; [done..|]. unfold replicated. cbn.
  destruct Hop as [->|(E & -> & ->)]; [by left|]. rewrite E. by right.
Qed.

Lemma encode_log_app ops1 ops2 log1 log2 :
  encode_log ops1 = Ret log1 → encode_log ops2 = Ret log2 →
  encode_log (ops1 ++ ops2) = Ret (log1 +:+ log2).
Proof.
  revert log1. induction ops1 as [|op ops1 IH]; intros log1 H1 H2.
  { cbn in H1. by injection H1 as <-. }
  cbn [encode_log app] in *. inv_ret. rewrite E. cbn [mbind outcome_bind].
  rewrite (IH _ E0 H2). cbn. by rewrite string_app_assoc.
Qed.

(** ** Log and followers *)

(** From [w] to [w'] exactly the operations [ops] were appended to the log and
    sent by the leader.  Cache, output and connection state are not looked at. *)
Record persisted (leader : option positive) (w w' : World) (ops : list Operation) : Prop := {
  p_ps : ps (srv w') = ps (srv w);
  p_node : nodeState (srv w') = nodeState (srv w);
  p_conn : conn w' = conn w;
  p_open : file_open (aof (srv w')) = file_open (aof (srv w));
  p_log : ∃ log, encode_log ops = Ret log ∧ file (aof (srv w')) = file (aof (srv w)) +:+ log;
  p_leader : ∀ lp l, leader = Some lp → leaders (srv w) !! lp = Some l → leader_wf l →
    ∃ l', leaders (srv w') !! lp = Some l' ∧ leader_wf l' ∧
      for_each replicate_request l (replicated <$> ops) = Ret l'
}.

(** What a client may conclude about the file.  An append can start [rewriteAOF]
    in a goroutine of its own, which replaces the file by a dump of the cache at
    some later time; [rewriting] records that one was started.  As long as none
    was, the file has grown by exactly the commands. *)
Definition log_grew (a a' : Persistence.AOF) (ops : list Operation) : Prop :=
  ∃ log, encode_log ops = Ret log ∧ (rewriting a' = false → file a' = file a +:+ log).

Lemma persisted_grew leader w w' ops :
  persisted leader w w' ops → log_grew (aof (srv w)) (aof (srv w')) ops.
Proof. intros []. destruct p_log0 as (log & ? & ?). by exists log. Qed.

(** The rest of the world is the same. *)
Definition same_rest (w w' : World) : Prop :=
  cache (srv w') = cache (srv w) ∧ state w' = state w ∧ out w' = out w.

(** The leader a node replicates through exists and is well formed. *)
Definition linked (leader : option positive) (s : Server) : Prop :=
  file_open (aof s) = true ∧
  ∀ lp, leader = Some lp → ∃ l, leaders s !! lp = Some l ∧ leader_wf l.

Lemma persisted_refl leader w : persisted leader w w [].
Proof.
  split; try done.
  - exists "". by rewrite string_app_nil_r.
  - intros lp l _ Hl Hwf. by exists l.
Qed.

(** [persisted] looks only at the log, the leaders, the pub/sub registry, the
    node state and the connection. *)
Lemma persisted_ext leader w w1 w2 ops :
  aof (srv w2) = aof (srv w1) → leaders (srv w2) = leaders (srv w1) → ps (srv w2) = ps (srv w1) →
  nodeState (srv w2) = nodeState (srv w1) → conn w2 = conn w1 →
  persisted leader w w1 ops → persisted leader w w2 ops.
Proof. intros E1 E2 E3 E4 E5 []. split; rewrite ?E1, ?E2, ?E3, ?E4, ?E5; done. Qed.

Lemma persisted_trans leader w1 w2 w3 ops1 ops2 :
  persisted leader w1 w2 ops1 → persisted leader w2 w3 ops2 → persisted leader w1 w3 (ops1 ++ ops2).
Proof.
  intros [] []. split; try congruence.
  - destruct p_log0 as (log1 & E1 & F1), p_log1 as (log2 & E2 & F2).
    exists (log1 +:+ log2). split; [by apply encode_log_app|]. by rewrite F2, F1, string_app_assoc.
  - intros lp l Hlp Hl Hwf. destruct (p_leader0 lp l Hlp Hl Hwf) as (l2 & Hl2 & Hwf2 & R1).
    destruct (p_leader1 lp l2 Hlp Hl2 Hwf2) as (l3 & Hl3 & Hwf3 & R2).
    exists l3. split_and!; [done..|]. rewrite fmap_app, for_each_app, R1. exact R2.
Qed.

Lemma persisted_linked leader w w' ops :
  persisted leader w w' ops → linked leader (srv w) → linked leader (srv w').
Proof.
  intros [] [Ho Hl]. split; [congruence|]. intros lp Hlp. destruct (Hl lp Hlp) as (l & H1 & H2).
  destruct (p_leader0 lp l Hlp H1 H2) as (l' & ? & ? & _). by exists l'.
Qed.

Lemma Append_ok a data :
  file_open a = true →
  ∃ started a', Persistence.Append a data io_ok = (GOk started, a') ∧
    file a' = file a +:+ data ∧ file_open a' = true.
Proof.
  intros Ho. unfold Persistence.Append. rewrite Ho. cbn [negb Persistence.write_fails Persistence.sync_fails io_ok].
  unfold Persistence.checkRewriteTrigger.
  destruct (Persistence.policy _); cbn; repeat case_match; simplify_eq/=; eauto.
Qed.

Lemma persist_op leader w op name :
  op_wf op → linked leader (srv w) → name = (if decide (Type_ op = "SET") then OpSet else OpDelete) →
  ∃ w', (w ← replicate w leader name (Persistence.Key op) (Persistence.Value op) (Persistence.TTL op);
         append_aof w (log_entry op) io_ok) = Ret w' ∧ persisted leader w w' [op] ∧ same_rest w w'.
Proof.
  intros Hop [Ho Hl] ->.
  destruct (encode_entry op "" Hop) as (e & He & _).
  assert (∃ ls, replicate w leader (if decide (Type_ op = "SET") then OpSet else OpDelete)
    (Persistence.Key op) (Persistence.Value op) (Persistence.TTL op) = Ret (with_leaders w ls) ∧
    ∀ lp l, leader = Some lp → leaders (srv w) !! lp = Some l → leader_wf l →
      ∃ l', ls !! lp = Some l' ∧ leader_wf l' ∧ replicate_request l (replicated op) = Ret l') as (ls & -> & Hls).
  { destruct leader as [lp|].
    - destruct (Hl lp eq_refl) as (l & Hlp & Hwf).
      destruct (Leader.Replicate_spec l (replicated op) Hwf (replicated_wf op Hop))
        as (enc & l' & _ & Hrep & Hwf' & _).
      cbn [replicated Leader.rq_op Leader.rq_key Leader.rq_value Leader.rq_ttl] in Hrep.
      exists (<[lp := l']> (leaders (srv w))). unfold replicate. rewrite Hlp. cbn [or_panic mbind outcome_bind].
      rewrite Hrep. split; [done|]. intros lp' l0 [= <-] Hl0 _.
      exists l'. rewrite lookup_insert_eq. split_and!; [done..|]. unfold replicate_request.
      assert (l0 = l) as -> by congruence.
      cbn [replicated Leader.rq_op Leader.rq_key Leader.rq_value Leader.rq_ttl]. by rewrite Hrep.
    - exists (leaders (srv w)). split; [by destruct w as [[]]|done]. }
  cbn [mbind outcome_bind]. unfold append_aof. rewrite He. cbn [mbind outcome_bind].
  destruct (Append_ok (aof (srv (with_leaders w ls))) e Ho) as (started & a' & -> & Hf & Ho').
  eexists. split; [reflexivity|]. split; [|done]. split; try done.
  - cbn [with_aof srv aof]. congruence.
  - exists e. split; [|exact Hf]. cbn [encode_log]. rewrite He. cbn [mbind outcome_bind mret outcome_ret].
    by rewrite string_app_nil_r.
  - intros lp l Hlp Hll Hwf. destruct (Hls lp l Hlp Hll Hwf) as (l' & ? & ? & Hrep).
    exists l'. split_and!; [done..|]. rewrite fmap_cons. cbn [for_each]. rewrite Hrep. done.
Qed.

(** ** One request outside a transaction *)

(** A node that answers requests itself: not a follower, and no key is routed to
    another node, as in simple mode and on a node that is joining a cluster. *)
Record serving (w : World) (es : list entry) : Prop := {
  s_cache : cache_rep (cache (srv w)) es;
  s_linked : linked (NodeState.GetLeader (nodeState (srv w))) (srv w);
  s_role : NodeState.GetRole (nodeState (srv w)) ≠ "follower";
  s_local : ∀ key isWrite, (NodeState.ShouldForwardRequest (nodeState (srv w)) key isWrite).1.1 = false
}.

(** From [w] to [w'] the entries became [es'], [ops] were made persistent and
    [answer] was sent. *)
Record answered (w w' : World) (answer : string) (es' : list entry) (ops : list Operation) : Prop := {
  a_serving : serving w' es';
  a_cap : Cache.maxSize (cache (srv w')) = Cache.maxSize (cache (srv w));
  a_persisted : persisted (NodeState.GetLeader (nodeState (srv w))) w w' ops;
  a_out : out w' = out w +:+ answer
}.

Lemma answered_intro w w' answer es es' ops :
  serving w es → cache_rep (cache (srv w')) es' →
  Cache.maxSize (cache (srv w')) = Cache.maxSize (cache (srv w)) →
  persisted (NodeState.GetLeader (nodeState (srv w))) w w' ops → out w' = out w +:+ answer →
  answered w w' answer es' ops.
Proof.
  intros [] Hc Hm Hp Ho. pose proof (p_node _ _ _ _ Hp) as Hn. split; [|done..].
  split; [done| |by rewrite Hn|by rewrite Hn]. rewrite Hn. by eapply persisted_linked.
Qed.

Lemma answered_trans w1 w2 w3 a1 a2 es2 es3 ops1 ops2 :
  answered w1 w2 a1 es2 ops1 → answered w2 w3 a2 es3 ops2 →
  answered w1 w3 (a1 +:+ a2) es3 (ops1 ++ ops2).
Proof.
  intros [] []. split; [done|congruence| |].
  - eapply persisted_trans; [done|]. by rewrite (p_node _ _ _ _ a_persisted0) in a_persisted1.
  - by rewrite a_out1, a_out0, string_app_assoc.
Qed.

Lemma cache_rep_metrics c f es : cache_rep c es → cache_rep (Cache.with_metrics c f) es.
Proof. intros (Hm & xs & Hr & ->). split; [done|]. exists xs. split; [|done]. by apply (rep_ext c). Qed.

Lemma answered_observe w w' answer es' ops :
  answered w w' answer es' ops → answered w (observe w') answer es' ops.
Proof.
  intros [[] ? [] ?]. split; [split|..]; try done.
  by apply cache_rep_metrics.
Qed.

Lemma set_ttl_slice e5 e4 k v t :
  int64_range (ttl_of t * Second) →
  set_ttl e5 e4 (request_slice (RSet k v t)) = Ret (GOk (seconds (ttl_of t))).
Proof.
  intros Ht%seconds_range. destruct t as [|n|n]; [done|..]; cbn [ttl_of] in *;
    [cut (Ret (match Atoi (Itoa n) with Some n => GOk (seconds n) | None => GErr e5 end)
       = Ret (GOk (seconds n) : gres string Z))
    |cut (Ret (match Atoi (Itoa n) with Some n => GOk (seconds n) | None => GErr e4 end)
       = Ret (GOk (seconds n) : gres string Z))]; try done; by rewrite Atoi_Itoa.
Qed.

Lemma set_slice_args k v (ttl : ttl_arg) :
  set_arity (length (request_slice (RSet k v ttl))) = false ∧
  arg (request_slice (RSet k v ttl)) 1 = Ret k ∧ arg (request_slice (RSet k v ttl)) 2 = Ret v.
Proof. by destruct ttl. Qed.

Lemma handleSet_spec env w es k v ttl :
  serving w es → req_wf (RSet k v ttl) → disk env 0%nat = io_ok →
  let '(answer, es') := spec_request (Cache.maxSize (cache (srv w))) (clock env 0%nat) (RSet k v ttl) es in
  ∃ w', handleSet env w (request_slice (RSet k v ttl)) (NodeState.GetLeader (nodeState (srv w))) = Ret w' ∧
    answered w w' answer es' (logged (RSet k v ttl)) ∧ state w' = state w.
Proof.
  intros Hs Hr Hd. pose proof Hs as [Hc Hl Hrole _]. cbn [spec_request].
  unfold handleSet. rewrite bool_decide_eq_false_2 by done.
  destruct (set_slice_args k v ttl) as (-> & -> & ->). cbn [mbind outcome_bind].
  destruct Hr as (Hk & Hv & Ht). rewrite set_ttl_slice by done. cbn [mbind outcome_bind].
  destruct (Set_rep _ es k v (seconds (ttl_of ttl)) (clock env 0%nat) Hc) as (c & -> & Hm & Hc').
  cbn [mbind outcome_bind]. rewrite whole_seconds_seconds by done. rewrite Hd.
  pose proof (logged_wf (RSet k v ttl) (conj Hk (conj Hv Ht))) as [Hop _]%Forall_cons.
  destruct (persist_op (NodeState.GetLeader (nodeState (srv w))) (with_cache w c) _ OpSet Hop Hl eq_refl)
    as (w1 & Hw1 & Hp & E1 & E2 & E3).
  cbn [Persistence.Key Persistence.Value Persistence.TTL] in Hw1.
  change (log_entry (mkOp "SET" k v (ttl_of ttl))) with
    [VStr "SET"; VStr k; VStr v; VStr (Itoa (ttl_of ttl))] in Hw1.
  rewrite <-outcome_bind_assoc, Hw1. cbn [mbind outcome_bind].
  eexists. split; [reflexivity|]. split; [|exact E2].
  apply (answered_intro w _ _ es); [done| | | |].
  - cbn [reply srv]. by rewrite E1.
  - cbn [reply srv]. by rewrite E1.
  - by destruct Hp.
  - cbn [reply out]. by rewrite E3.
Qed.

Lemma handleGet_spec env w es k :
  serving w es →
  let '(answer, es') := spec_request (Cache.maxSize (cache (srv w))) (clock env 0%nat) (RGet k) es in
  ∃ w', handleGet env w (request_slice (RGet k)) = Ret w' ∧
    answered w w' answer es' (logged (RGet k)) ∧ state w' = state w.
Proof.
  intros Hs. cbn [spec_request]. destruct (spec_get k (clock env 0%nat) es) as [v es'] eqn:E.
  destruct (Get_rep _ es k (clock env 0%nat) (s_cache _ _ Hs)) as (r & ok & c & HG & Hm & _ & Hv & Hc).
  rewrite E in Hv, Hc. cbn [fst snd] in Hv, Hc.
  eexists. split.
  { unfold handleGet. rewrite bool_decide_eq_false_2 by (cbn; lia).
    change (arg (request_slice (RGet k)) 1) with (Ret k). cbn [mbind outcome_bind]. rewrite HG. reflexivity. }
  split; [|done]. apply (answered_intro w _ _ es); [done..| |].
  - by apply (persisted_ext _ w w), persisted_refl.
  - cbn [reply out with_cache]. subst v. by destruct ok.
Qed.

Lemma handleDelete_spec env w es k :
  serving w es → req_wf (RDel k) → disk env 0%nat = io_ok →
  let '(answer, es') := spec_request (Cache.maxSize (cache (srv w))) (clock env 0%nat) (RDel k) es in
  ∃ w', handleDelete env w (request_slice (RDel k)) (NodeState.GetLeader (nodeState (srv w))) = Ret w' ∧
    answered w w' answer es' (logged (RDel k)) ∧ state w' = state w.
Proof.
  intros Hs Hr Hd. pose proof Hs as [Hc Hl Hrole _]. cbn [spec_request].
  unfold handleDelete. rewrite bool_decide_eq_false_2 by done.
  rewrite bool_decide_eq_false_2 by (cbn; lia).
  change (arg (request_slice (RDel k)) 1) with (Ret k). cbn [mbind outcome_bind].
  destruct (Delete_rep _ es k Hc) as (c & -> & Hm & Hc').
  cbn [mbind outcome_bind]. rewrite Hd.
  pose proof (logged_wf (RDel k) Hr) as [Hop _]%Forall_cons.
  destruct (persist_op (NodeState.GetLeader (nodeState (srv w))) (with_cache w c) _ OpDelete Hop Hl eq_refl)
    as (w1 & Hw1 & Hp & E1 & E2 & E3).
  cbn [Persistence.Key Persistence.Value Persistence.TTL] in Hw1.
  change (log_entry (mkOp "DEL" k "" 0)) with [VStr "DEL"; VStr k] in Hw1.
  rewrite <-outcome_bind_assoc, Hw1. cbn [mbind outcome_bind].
  eexists. split; [reflexivity|]. split; [|exact E2].
  apply (answered_intro w _ _ es); [done| | | |].
  - cbn [reply srv]. by rewrite E1.
  - cbn [reply srv]. by rewrite E1.
  - by destruct Hp.
  - cbn [reply out]. by rewrite E3.
Qed.

Definition request_name (r : request) : string :=
  match r with RSet _ _ _ => "SET" | RGet _ => "GET" | RDel _ => "DEL" | RPing => "PING" end.

Lemma request_slice_head r : ∃ args, request_slice r = VStr (request_name r) :: args.
Proof. destruct r; eauto. Qed.

Section connection.
Context (handleClusterCommand : World → list value → outcome World).

Lemma handle_locally_spec env w es r :
  serving w es → req_wf r → disk env 0%nat = io_ok →
  let '(answer, es') := spec_request (Cache.maxSize (cache (srv w))) (clock env 0%nat) r es in
  ∃ w', handle_locally handleClusterCommand env w (VStr (request_name r)) (request_slice r) = Ret w' ∧
    answered w w' answer es' (logged r) ∧ state w' = state w.
Proof.
  intros Hs Hr Hd. destruct r as [k v ttl|k|k|].
  - exact (handleSet_spec env w es k v ttl Hs Hr Hd).
  - exact (handleGet_spec env w es k Hs).
  - exact (handleDelete_spec env w es k Hs Hr Hd).
  - exists (handlePing w). split; [reflexivity|]. split; [|done].
    apply (answered_intro w _ _ es); [done|apply Hs|done| |done].
    by apply (persisted_ext _ w w), persisted_refl.
Qed.

Lemma route_spec env w r args :
  (∀ key isWrite, (NodeState.ShouldForwardRequest (nodeState (srv w)) key isWrite).1.1 = false) →
  request_slice r = VStr (request_name r) :: args →
  route handleClusterCommand env w (VStr (request_name r)) (request_slice r) =
  handle_locally handleClusterCommand env w (VStr (request_name r)) (request_slice r).
Proof.
  intros Hn Hsl. unfold route.
  assert (∃ key, (if bool_decide (2 ≤ length (request_slice r))%nat then arg (request_slice r) 1 else mret "")
    = Ret key) as (key & ->).
  { destruct r as [k v ttl|k|k|]; eexists; reflexivity. }
  cbn [mbind outcome_bind]. destruct (_ && _); [|done].
  specialize (Hn key (is_command (VStr (request_name r)) "SET" || is_command (VStr (request_name r)) "DEL")).
  by destruct (NodeState.ShouldForwardRequest _ _ _) as [[[] ?] ?].
Qed.

(** A request of an ordinary client. *)
Lemma handle_request_spec env w es r :
  serving w es → req_wf r → disk env 0%nat = io_ok →
  subscriberMode (state w) = false → inTransaction (state w) = false →
  let '(answer, es') := spec_request (Cache.maxSize (cache (srv w))) (clock env 0%nat) r es in
  ∃ w', handle_request handleClusterCommand env w (request_slice r) = Ret w' ∧
    answered w w' answer es' (logged r) ∧ state w' = state w.
Proof.
  intros Hs Hr Hd Hsub Htx. pose proof (handle_locally_spec env w es r Hs Hr Hd) as Hloc.
  destruct (spec_request _ _ r es) as [answer es']. destruct Hloc as (w' & Hw & Ha & Hst).
  exists (observe w'). split; [|by split; [apply answered_observe|]].
  destruct (request_slice_head r) as (args & Hsl). unfold handle_request.
  rewrite Hsl at 1. cbn [lookup list_lookup or_panic mbind outcome_bind]. rewrite Hsub. cbn [andb].
  unfold transaction_gate. cbn [str_of]. rewrite Htx.
  assert (dispatch handleClusterCommand env w (VStr (request_name r)) (request_slice r) =
    route handleClusterCommand env w (VStr (request_name r)) (request_slice r)) as ->
    by by destruct r.
  rewrite (route_spec env w r args (s_local _ _ Hs) Hsl), Hw. done.
Qed.

(** ** A session *)

Fixpoint encode_requests (rs : list request) : outcome string :=
  match rs with
  | [] => mret ""
  | r :: rs => e ← EncodeArray (request_slice r); es ← encode_requests rs; mret (e +:+ es)
  end.

Definition concat_strings (l : list string) : string := foldr String.append "" l.

Lemma request_encodable r :
  req_wf r → Forall encodable (request_slice r) ∧ 16 * Z.of_nat (length (request_slice r)) ≤ maxAlloc ∧
    reread <$> request_slice r = request_slice r.
Proof.
  intros Hr. destruct r as [k v ttl|k|k|]; cbn [request_slice req_wf] in *;
    [destruct Hr as (Hk & Hv & Ht%seconds_range); destruct ttl; cbn [ttl_args ttl_of] in *|..];
    (split_and!; [|by vm_compute|done]); split_Forall;
    cbn [encodable]; first [assumption | by apply Persistence.Itoa_length | vm_compute; discriminate].
Qed.

Lemma parse_request r e rest :
  req_wf r → EncodeArray (request_slice r) = Ret e →
  parse (e +:+ rest) = Ret (GOk (VSlice (request_slice r)), rest) ∧ (0 < String.length e)%nat.
Proof.
  intros Hr He. destruct (request_encodable r Hr) as (Hl & Hn & Hre).
  destruct (Parse_EncodeArray (request_slice r) rest Hl Hn) as (e' & He' & Hp).
  assert (e' = e) as -> by congruence. rewrite Hre in Hp. split.
  - unfold parse. apply Hp. rewrite slength_app. lia.
  - destruct e; cbn; [|lia]. specialize (Hp 1%nat ltac:(cbn; lia)).
    revert He. unfold EncodeArray.
    destruct (encode_elements_app (request_slice r)
      ("*" +:+ Itoa (Z.of_nat (length (request_slice r))) +:+ CRLF) Hl) as (body & -> & _). intros [=].
Qed.

Lemma serve_loop_step env fuel i w reader slice rest :
  parse reader = Ret (GOk (VSlice slice), rest) →
  serve_loop handleClusterCommand env (S fuel) i w reader =
  (w ← handle_request handleClusterCommand (env i) w slice;
   serve_loop handleClusterCommand env fuel (S i) w rest).
Proof. intros Hp. cbn [serve_loop]. by rewrite Hp. Qed.

Lemma serve_loop_spec env rs input fuel i w es :
  encode_requests rs = Ret input → Forall req_wf rs → (∀ i, disk (env i) 0%nat = io_ok) →
  (String.length input < fuel)%nat → serving w es →
  subscriberMode (state w) = false → inTransaction (state w) = false →
  let '(answers, es') :=
    spec_session (Cache.maxSize (cache (srv w))) (λ i, clock (env i) 0%nat) i rs es in
  ∃ w', serve_loop handleClusterCommand env fuel i w input = Ret w' ∧
    answered w w' (concat_strings answers) es' (mjoin (logged <$> rs)) ∧ state w' = state w.
Proof.
  intros Henc Hwf Hd. revert input fuel i w es Henc.
  induction Hwf as [|r rs Hr _ IH]; intros input fuel i w es Henc Hf Hs Hsub Htx.
  - injection Henc as <-. destruct fuel; [lia|]. exists w. split; [done|]. split; [|done].
    apply (answered_intro w w _ es); [done|apply Hs|done|apply persisted_refl|].
    by rewrite string_app_nil_r.
  - cbn [encode_requests] in Henc. inv_ret. rename r0 into e, r1 into rest.
    destruct (parse_request r e rest Hr E) as [Hp Hlen]. rewrite slength_app in Hf.
    destruct fuel as [|fuel]; [lia|]. rewrite (serve_loop_step _ _ _ _ _ _ _ Hp). cbn [spec_session].
    pose proof (handle_request_spec (env i) w es r Hs Hr (Hd i) Hsub Htx) as Hreq.
    destruct (spec_request _ _ r es) as [a es1]. destruct Hreq as (w1 & -> & Ha & Hst).
    cbn [mbind outcome_bind].
    specialize (IH rest fuel (S i) w1 es1 E0 ltac:(lia) (a_serving _ _ _ _ _ Ha)).
    rewrite Hst, (a_cap _ _ _ _ _ Ha) in IH. specialize (IH Hsub Htx).
    destruct (spec_session _ _ (S i) rs es1) as [answers es2]. destruct IH as (w2 & Hw2 & Ha2 & Hst2).
    exists w2. split; [exact Hw2|]. split; [|done].
    rewrite fmap_cons. by eapply answered_trans.
Qed.

Lemma handleConnection_spec env order s c rs input es :
  let w := mkWorld s c new_state "" in
  encode_requests rs = Ret input → Forall req_wf rs → (∀ i, disk (env i) 0%nat = io_ok) →
  serving w es → PubSub.connectionToSubscriber (ps s) !! c = None →
  let '(answers, es') := spec_session (Cache.maxSize (cache s)) (λ i, clock (env i) 0%nat) 0 rs es in
  ∃ w', handleConnection handleClusterCommand env order s c input = Ret w' ∧
    answered w w' (concat_strings answers) es' (mjoin (logged <$> rs)).
Proof.
  intros w Henc Hwf Hd Hs Hc.
  set (w0 := with_cache w (Cache.with_metrics (cache s) IncrementActiveConnections)).
  assert (serving w0 es) as Hs0 by (destruct Hs; split; [by apply cache_rep_metrics|done..]).
  pose proof (serve_loop_spec env rs input (S (String.length input)) 0 w0 es Henc Hwf Hd ltac:(lia) Hs0
    eq_refl eq_refl) as Hrun. cbn [w0 w with_cache srv cache Cache.with_metrics Cache.maxSize] in Hrun.
  destruct (spec_session _ _ 0 rs es) as [answers es']. destruct Hrun as (w1 & Hw1 & Ha & _).
  set (w2 := with_cache w1 (Cache.with_metrics (cache (srv w1)) DecrementActiveConnections)).
  exists (with_ps w2 (ps (srv w1))). split.
  - unfold handleConnection. cbv zeta. fold w.
    change (with_cache w (Cache.with_metrics (cache (srv w)) IncrementActiveConnections)) with w0.
    rewrite Hw1. cbn [mbind outcome_bind]. fold w2.
    unfold PubSub.RemoveConnection. change (ps (srv w2)) with (ps (srv w1)).
    rewrite (p_ps _ _ _ _ (a_persisted _ _ _ _ _ Ha)). change (ps (srv w0)) with (ps s).
    by rewrite Hc.
  - destruct Ha as [Hsv Hcap Hper Hout]. apply (answered_intro w _ _ es); [done| |exact Hcap| |exact Hout].
    + apply cache_rep_metrics, Hsv.
    + apply (persisted_ext _ w w1); try done. by destruct Hper.
Qed.
End connection.

(** ** Claims about sessions *)

Definition demo_server : Server :=
  mkServer (Cache.NewCache 3 NewCollector) (Persistence.NewAOF "" None Config.SyncAlways 8)
    {[1%positive := Leader.demo_leader]} PubSub.NewPubSub
    (NodeState.NewNodeState "leader" (Some 1%positive) "").
Definition demo_env (i : nat) : Env := mkEnv (λ _, 100 + Z.of_nat i) (λ _, io_ok) [] [].
Definition demo_requests : list request :=
  [RSet "a" "1" NoTTL; RSet "b" "2" (Ex 60); RGet "a"; RDel "b"; RGet "b"; RPing].
Definition demo_input : string :=
  match encode_requests demo_requests with Ret s => s | _ => "" end.
Definition no_cluster (w : World) (_ : list value) : outcome World := mret w.

Lemma demo_serving c : serving (mkWorld demo_server c new_state "") [].
Proof.
  split; [apply cache_rep_new| |done|by intros; apply NodeState.alone_local]. split; [done|].
  intros lp [= <-]. exists Leader.demo_leader. split; [done|apply Leader.demo_leader_wf].
Qed.

Lemma demo_requests_wf : Forall req_wf demo_requests.
Proof. apply (bool_decide_eq_true_1 (Forall req_wf demo_requests)). by vm_compute. Qed.

(** C1. A client session refines the abstract cache, from bytes to bytes: on the
    encoding of any sequence of GET, SET, DEL and PING requests, a node that
    serves them itself returns (it neither panics nor blocks), writes exactly the
    replies that the abstract cache gives, one per request and in order (1 for
    every DEL, of a missing key too), ends with the abstract cache's entries, and
    has appended to the log exactly the writes of the session, unless one of them
    started the background rewrite of the log. *)
Theorem session_refines_spec cluster env order s c rs input es :
  encode_requests rs = Ret input → Forall req_wf rs → (∀ i, disk (env i) 0%nat = io_ok) →
  serving (mkWorld s c new_state "") es → PubSub.connectionToSubscriber (ps s) !! c = None →
  let '(answers, es') := spec_session (Cache.maxSize (cache s)) (λ i, clock (env i) 0%nat) 0 rs es in
  ∃ w', handleConnection cluster env order s c input = Ret w' ∧
    out w' = concat_strings answers ∧ length answers = length rs ∧
    cache_rep (cache (srv w')) es' ∧ log_grew (aof s) (aof (srv w')) (mjoin (logged <$> rs)).
Proof.
  intros Henc Hwf Hd Hs Hc.
  pose proof (handleConnection_spec cluster env order s c rs input es Henc Hwf Hd Hs Hc) as H.
  assert (∀ cap ck i es, length (spec_session cap ck i rs es).1 = length rs) as Hlen.
  { clear. intros cap ck. induction rs as [|r rs IH]; intros i es; cbn [spec_session]; [done|].
    destruct (spec_request _ _ r es) as [a es1]. specialize (IH (S i) es1).
    destruct (spec_session _ _ _ rs es1). cbn [fst length] in *. by rewrite IH. }
  specialize (Hlen (Cache.maxSize (cache s)) (λ i, clock (env i) 0%nat) 0%nat es).
  destruct (spec_session _ _ 0 rs es) as [answers es']. destruct H as (w' & Hrun & Ha).
  exists w'. split_and!; [done|apply Ha|done|apply (a_serving _ _ _ _ _ Ha)|].
  by eapply (persisted_grew _ (mkWorld s c new_state "")), a_persisted.
Qed.

Lemma session_refines_spec_witness :
  let '(answers, es') := spec_session 3 (λ i, 100 + Z.of_nat i) 0 demo_requests [] in
  ∃ w', handleConnection no_cluster demo_env [] demo_server 7 demo_input = Ret w' ∧
    out w' = concat_strings answers ∧ length answers = length demo_requests ∧
    cache_rep (cache (srv w')) es' ∧
    log_grew (aof demo_server) (aof (srv w')) (mjoin (logged <$> demo_requests)).
Proof.
  apply (session_refines_spec no_cluster demo_env [] demo_server 7 demo_requests demo_input []).
  - by vm_compute.
  - apply demo_requests_wf.
  - done.
  - apply demo_serving.
  - done.
Defined.

(** The session above starts no rewrite, so its log is the three writes. *)
Example demo_session_log :
  match handleConnection no_cluster demo_env [] demo_server 7 demo_input with
  | Ret w => rewriting (aof (srv w)) = false ∧
      encode_log [mkOp "SET" "a" "1" 0; mkOp "SET" "b" "2" 60; mkOp "DEL" "b" "" 0] = Ret (file (aof (srv w)))
  | _ => False
  end.
Proof. by vm_compute. Qed.

(** The replies of the session above, byte by byte. *)
Example demo_session_output :
  concat_strings (spec_session 3 (λ i, 100 + Z.of_nat i) 0 demo_requests []).1 =
  concat_strings ["+OK" +:+ CRLF; "+OK" +:+ CRLF; "$1" +:+ CRLF +:+ "1" +:+ CRLF; ":1" +:+ CRLF;
    "$-1" +:+ CRLF; "+PONG" +:+ CRLF].
Proof. by vm_compute. Qed.

(** Every write of a session reaches every follower that is connected: the
    bytes added to the follower's connection decode to exactly the writes of the
    session, in order and consecutively numbered; reads send nothing. *)
Theorem session_reaches_followers cluster env order s c rs input es lp l p f rest :
  encode_requests rs = Ret input → Forall req_wf rs → (∀ i, disk (env i) 0%nat = io_ok) →
  serving (mkWorld s c new_state "") es → PubSub.connectionToSubscriber (ps s) !! c = None →
  NodeState.GetLeader (nodeState s) = Some lp → leaders s !! lp = Some l →
  p ∈ Leader.followers l → Leader.conns l !! p = Some f → Leader.conn_closed f = false →
  let cmds := Leader.numbered (Leader.seqNum l) (replicated <$> mjoin (logged <$> rs)) in
  ∃ w' l' enc, handleConnection cluster env order s c input = Ret w' ∧
    leaders (srv w') !! lp = Some l' ∧
    Leader.wire <$> Leader.conns l' !! p = Some (Leader.wire f +:+ enc) ∧
    decode_n (length (mjoin (logged <$> rs))) (enc +:+ rest) = Ret (GOk cmds, rest).
Proof.
  intros Henc Hwf Hd Hs Hc Hlp Hl Hp Hf Ho cmds.
  pose proof (handleConnection_spec cluster env order s c rs input es Henc Hwf Hd Hs Hc) as H.
  destruct (spec_session _ _ 0 rs es) as [answers es']. destruct H as (w' & Hrun & Ha).
  destruct (proj2 (s_linked _ _ Hs) lp Hlp) as (l0 & Hl0 & Hlwf).
  assert (l0 = l) as -> by (cbn in Hl0; congruence).
  destruct (p_leader _ _ _ _ (a_persisted _ _ _ _ _ Ha) lp l Hlp Hl Hlwf) as (l' & Hl' & _ & Hrep).
  assert (Forall request_wf (replicated <$> mjoin (logged <$> rs))) as Hrq.
  { apply Forall_fmap. apply Forall_join. apply Forall_fmap. eapply Forall_impl; [exact Hwf|].
    intros r Hr. eapply Forall_impl; [by apply logged_wf|]. apply replicated_wf. }
  destruct (Leader.follower_stream l p f _ rest Hlwf Hp Hf Ho Hrq) as (l2 & enc & Hrep2 & _ & Hw & Hdec).
  assert (l2 = l') as -> by congruence. rewrite length_fmap in Hdec.
  exists w', l', enc. done.
Qed.

Lemma session_reaches_followers_witness :
  let cmds := Leader.numbered 0 (replicated <$> mjoin (logged <$> demo_requests)) in
  ∃ w' l' enc, handleConnection no_cluster demo_env [] demo_server 7 demo_input = Ret w' ∧
    leaders (srv w') !! 1%positive = Some l' ∧
    Leader.wire <$> Leader.conns l' !! 1%positive = Some ("+sync" +:+ enc) ∧
    decode_n (length (mjoin (logged <$> demo_requests))) (enc +:+ "") = Ret (GOk cmds, "").
Proof.
  apply (session_reaches_followers no_cluster demo_env [] demo_server 7 demo_requests demo_input []
    1%positive Leader.demo_leader 1%positive (Leader.mkF "f1" "+sync" 100 false) "").
  - by vm_compute.
  - apply demo_requests_wf.
  - done.
  - apply demo_serving.
  - done.
  - done.
  - done.
  - by apply list_elem_of_singleton.
  - done.
  - done.
Defined.

(** *** Recovery after a session *)

Definition is_write (r : request) : Prop :=
  match r with RSet _ _ _ | RDel _ => True | _ => False end.
#[export] Instance is_write_dec r : Decision (is_write r).
Proof. destruct r; simpl; apply _. Defined.

(** Keys and values, most recently used first. *)
Definition contents (es : list entry) : list (string * string) := (λ e, (e.1, e.2.1)) <$> es.

Lemma contents_find k es : is_Some (spec_find k es) ↔ k ∈ (contents es).*1.
Proof.
  rewrite <-not_eq_None_Some, spec_find_None. unfold contents. rewrite <-list_fmap_compose.
  change (fst ∘ _) with (fst : entry → string). destruct (decide (k ∈ es.*1)); tauto.
Qed.

Lemma contents_del k es : contents (spec_del k es) = filter (λ x, x.1 ≠ k) (contents es).
Proof.
  unfold contents, spec_del. induction es as [|e es IH]; [done|].
  rewrite fmap_cons, !filter_cons. cbn [fst]. repeat case_decide; rewrite ?fmap_cons; congruence.
Qed.

Lemma contents_set cap k v exp exp' es es' :
  contents es = contents es' → contents (spec_set cap k v exp es) = contents (spec_set cap k v exp' es').
Proof.
  intros Hc. unfold spec_set. unfold contents at 1 2. rewrite !fmap_cons. cbn [fst snd]. f_equal.
  assert (is_Some (spec_find k es) ↔ is_Some (spec_find k es')) as Hf by by rewrite !contents_find, Hc.
  assert (length es = length es') as Hlen.
  { transitivity (length (contents es)); [symmetry; apply length_fmap|]. rewrite Hc. apply length_fmap. }
  destruct (spec_find k es) as [e|], (spec_find k es') as [e'|].
  - change (contents (spec_del k es) = contents (spec_del k es')). by rewrite !contents_del, Hc.
  - by destruct (proj1 Hf).
  - by destruct (proj2 Hf).
  - rewrite Hlen. destruct (cap <=? _); [|exact Hc].
    rewrite !removelast_fmap. fold (contents es) (contents es'). by rewrite Hc.
Qed.

Lemma replay_contents cap clock clock' ops i j es es' :
  contents es = contents es' →
  contents (Persistence.spec_replay cap clock i ops es) =
  contents (Persistence.spec_replay cap clock' j ops es').
Proof.
  revert i j es es'. induction ops as [|op ops IH]; intros i j es es' Hc; [done|].
  cbn [Persistence.spec_replay]. apply IH. case_decide; [by apply contents_set|].
  by rewrite !contents_del, Hc.
Qed.

Lemma writes_replay cap clock rs i es :
  Forall is_write rs →
  (spec_session cap clock i rs es).2 = Persistence.spec_replay cap clock i (mjoin (logged <$> rs)) es.
Proof.
  intros Hw. revert i es. induction Hw as [|r rs Hr _ IH]; intros i es; [done|].
  rewrite fmap_cons. destruct r as [k v ttl| |k|]; try done; cbn [spec_session spec_request].
  - change (mjoin (logged (RSet k v ttl) :: ?l)) with (mkOp "SET" k v (ttl_of ttl) :: mjoin l).
    cbn [Persistence.spec_replay]. rewrite Nat.add_1_r.
    rewrite <-IH. by destruct (spec_session cap clock (S i) rs _).
  - change (mjoin (logged (RDel k) :: ?l)) with (mkOp "DEL" k "" 0 :: mjoin l).
    cbn [Persistence.spec_replay]. rewrite Nat.add_1_r.
    rewrite <-IH. by destruct (spec_session cap clock (S i) rs _).
Qed.

(** Replaying a dump gives the live entries, in the order of the dump. *)
Lemma replay_dump_contents cap clock now es es2 i :
  es ≡ₚ es2 → NoDup es2.*1 → Z.of_nat (length es) ≤ cap →
  contents (Persistence.spec_replay cap clock i (Persistence.dump_op now <$> filter (live now) es2) [])
  ≡ₚ contents (filter (live now) es).
Proof.
  intros Hp Hnd Hcap. rewrite (replay_contents cap clock (λ _, 0) _ i i [] [] eq_refl).
  unfold contents. rewrite Persistence.replay_dump by (by rewrite <-?(Permutation_length Hp)).
  rewrite <-list_fmap_compose, Hp. apply reflexive_eq. by apply list_fmap_ext.
Qed.

Lemma spec_session_bound cap clock rs i es :
  Z.of_nat (length es) ≤ Z.max 1 cap → Z.of_nat (length (spec_session cap clock i rs es).2) ≤ Z.max 1 cap.
Proof.
  revert i es. induction rs as [|r rs IH]; intros i es Hes; [done|]. cbn [spec_session].
  assert (Z.of_nat (length (spec_request cap (clock i) r es).2) ≤ Z.max 1 cap) as H1.
  { destruct r as [k v t|k|k|]; cbn [spec_request snd]; [by apply spec_set_capacity| | |done].
    - pose proof (spec_get_length k (clock i) es). destruct (spec_get k (clock i) es). cbn [snd] in *. lia.
    - pose proof (spec_del_length k es). lia. }
  destruct (spec_request cap (clock i) r es) as [a es1]. specialize (IH (S i) es1 H1).
  by destruct (spec_session cap clock (S i) rs es1).
Qed.

Lemma recover_log clock ops log n m :
  Forall op_wf ops → encode_log ops = Ret log →
  ∃ c, Persistence.RecoverAOF clock None (Some log) (Cache.NewCache n m) = Ret c ∧
    cache_rep c (Persistence.spec_replay n clock 0 ops []).
Proof.
  intros Hwf Hlog.
  destruct (@Persistence.RecoverAOF_cut _ Cache_KVStore clock ops log (String.length log)
    (Cache.NewCache n m) [] Hwf Hlog (cache_rep_new n m)) as (k & c & Hpart & Hrec & _ & Hc).
  rewrite Persistence.str_take_all in Hrec by lia.
  rewrite (Persistence.part_of_log_full ops log (String.length log) k Hlog ltac:(lia) Hpart), take_ge in Hc
    by lia.
  exists c. done.
Qed.

(** Acknowledged writes survive a restart: after any session of SET and DEL
    requests on a node that started empty, and while no rewrite of the log has
    been started, recovery from the log the session left builds a cache with the same keys and values in the same recency order
    (hence after the same evictions) as the cache that served the session. *)
Theorem acknowledged_writes_recoverable cluster env order s c rs input n m m' clock' :
  encode_requests rs = Ret input → Forall req_wf rs → Forall is_write rs →
  (∀ i, disk (env i) 0%nat = io_ok) →
  cache s = Cache.NewCache n m → file (aof s) = "" →
  serving (mkWorld s c new_state "") [] → PubSub.connectionToSubscriber (ps s) !! c = None →
  ∃ w' c' es es', handleConnection cluster env order s c input = Ret w' ∧
    cache_rep (cache (srv w')) es ∧ (rewriting (aof (srv w')) = false →
    Persistence.RecoverAOF clock' None (Some (file (aof (srv w')))) (Cache.NewCache n m') = Ret c' ∧
    cache_rep c' es' ∧ contents es' = contents es).
Proof.
  intros Henc Hwf Hw Hd Hcache Hfile Hs Hc.
  pose proof (handleConnection_spec cluster env order s c rs input [] Henc Hwf Hd Hs Hc) as H.
  pose proof (writes_replay n (λ i, clock (env i) 0%nat) rs 0 [] Hw) as Hrep.
  rewrite Hcache in H. cbn [Cache.NewCache Cache.maxSize] in H.
  destruct (spec_session _ _ 0 rs []) as [answers es]. destruct H as (w' & Hrun & Ha).
  destruct (p_log _ _ _ _ (a_persisted _ _ _ _ _ Ha)) as (log & Hlog & Hf).
  assert (Forall op_wf (mjoin (logged <$> rs))) as Hops.
  { apply Forall_join, Forall_fmap. eapply Forall_impl; [exact Hwf|]. intros r. apply logged_wf. }
  destruct (recover_log clock' _ log n m' Hops Hlog) as (c' & Hrec & Hc').
  exists w', c', es, (Persistence.spec_replay n clock' 0 (mjoin (logged <$> rs)) []).
  rewrite Hf. cbn [srv aof]. rewrite Hfile. split_and!; [done| |intros _; split_and!; [done|done|]].
  - apply (a_serving _ _ _ _ _ Ha).
  - cbn [snd] in Hrep. rewrite Hrep. by apply replay_contents.
Qed.

Definition demo_writes : list request :=
  [RSet "a" "1" NoTTL; RSet "b" "2" (Ex 60); RSet "c" "3" (Plain 30); RSet "d" "4" NoTTL; RDel "b"].
Definition demo_writes_input : string :=
  match encode_requests demo_writes with Ret s => s | _ => "" end.

Lemma acknowledged_writes_recoverable_witness :
  ∃ w' c' es es', handleConnection no_cluster demo_env [] demo_server 7 demo_writes_input = Ret w' ∧
    cache_rep (cache (srv w')) es ∧ (rewriting (aof (srv w')) = false →
    Persistence.RecoverAOF (λ _, 5000) None (Some (file (aof (srv w')))) (Cache.NewCache 3 NewCollector)
      = Ret c' ∧
    cache_rep c' es' ∧ contents es' = contents es).
Proof.
  apply (acknowledged_writes_recoverable no_cluster demo_env [] demo_server 7 demo_writes demo_writes_input
    3 NewCollector NewCollector (λ _, 5000)).
  - by vm_compute.
  - apply (bool_decide_eq_true_1 (Forall req_wf demo_writes)). by vm_compute.
  - apply (bool_decide_eq_true_1 (Forall is_write demo_writes)). by vm_compute.
  - done.
  - done.
  - done.
  - apply demo_serving.
  - done.
Defined.
End HandlerSpec.
