(* ===== verification/Replication.v ===== *)
(** * Leader and follower together

    The bytes that a client's session makes the leader send, applied by the
    follower: both caches end with the same contents. *)

From S2P Require Import Prelude GoStd Lru Metrics Cache CacheSpec CacheTrace Resp HashRing PubSub.
From S2P Require Import ReplProtocol Config NodeState Persistence Leader Follower FollowerSpec.
From S2P Require Import Handler HandlerSpec.
Import ReplProtocol(repl_wf, encode_all, ReplicateCommand, OpSet, OpDelete).
Import Follower(f_cache, f_conn, f_reader, processReplicationStream, mkFollower).
Import FollowerSpec(MCommand, message_wf, encode_messages, encode_message_elements, spec_stream,
  message_elements, stream_loop_spec, fo_cache, fo_cap).
Import Handler HandlerSpec.
Import Persistence(io_ok, Operation, mkOp, Type_, op_wf, spec_replay).
#[local] Existing Instance ReplProtocol.repl_codec.
Local Open Scope Z_scope.

Module Replication.

Lemma commands_stream (cmds : list ReplicateCommand) enc :
  Forall repl_wf cmds → encode_all cmds = Ret (GOk enc) →
  Forall message_wf (MCommand <$> cmds) ∧ encode_messages (MCommand <$> cmds) = Ret enc.
Proof.
  intros Hwf. revert enc. induction Hwf as [|m cmds Hm Hwf IH]; intros enc He.
  { injection He as <-. split; [apply Forall_nil_2|done]. }
  cbn [encode_all] in He. inv_ret. rename r into x. destruct x as [e|]; [|done]. inv_ret.
  destruct r as [es|]; [|done]. injection He as <-. destruct (IH es E0) as [H1 H2].
  pose proof (encode_message_elements (MCommand m) Hm) as Hx.
  assert (EncodeArray (message_elements (MCommand m)) = Ret e) as Henc.
  { change (FollowerSpec.encode_message (MCommand m)) with (ReplProtocol.codec_encode m) in Hx.
    rewrite E in Hx. destruct (EncodeArray _); by simplify_eq/=. }
  rewrite fmap_cons. split; [by apply Forall_cons_2|].
  cbn [encode_messages]. rewrite Henc. cbn [mbind outcome_bind]. by rewrite H2.
Qed.

Lemma stream_contents cap clock clock' n i j ops es es' :
  Forall op_wf ops → contents es = contents es' →
  contents (spec_stream cap clock i (MCommand <$> Leader.numbered n (replicated <$> ops)) es) =
  contents (spec_replay cap clock' j ops es').
Proof.
  intros Hwf. revert n i j es es'. induction Hwf as [|op ops (_ & _ & _ & Hop) _ IH]; intros n i j es es' Hc; [done|].
  rewrite fmap_cons. cbn [Leader.numbered]. rewrite fmap_cons. cbn [spec_stream spec_replay].
  apply IH. cbn [FollowerSpec.spec_message ReplProtocol.Operation replicated Leader.rq_op Leader.rq_key
    Leader.rq_value Leader.rq_ttl ReplProtocol.Key ReplProtocol.Value ReplProtocol.TTL].
  destruct (decide (Type_ op = "SET")) as [E|E].
  - rewrite decide_True by done. by apply contents_set.
  - rewrite decide_False by done. by rewrite !contents_del, Hc.
Qed.

(** C7. Replication converges: take a leader and a connected follower whose caches
    have the same capacity and the same contents.  After any session of SET and
    DEL requests at the leader, the bytes the session added to the follower's
    connection, read by the follower, leave its cache with exactly the keys and
    values of the leader's cache, in the same recency order. *)
Theorem follower_converges cluster env order s c rs input es lp l p fc clock (f : Follower.Follower) es_f k :
  encode_requests rs = Ret input → Forall req_wf rs → Forall is_write rs →
  (∀ i, disk (env i) 0%nat = io_ok) →
  serving (mkWorld s c new_state "") es → PubSub.connectionToSubscriber (ps s) !! c = None →
  NodeState.GetLeader (nodeState s) = Some lp → leaders s !! lp = Some l →
  p ∈ Leader.followers l → Leader.conns l !! p = Some fc → Leader.conn_closed fc = false →
  cache_rep (f_cache f) es_f → contents es_f = contents es →
  Cache.maxSize (f_cache f) = Cache.maxSize (cache s) →
  ∃ w' l' enc es' f' es_f', handleConnection cluster env order s c input = Ret w' ∧
    cache_rep (cache (srv w')) es' ∧ leaders (srv w') !! lp = Some l' ∧
    Leader.wire <$> Leader.conns l' !! p = Some (Leader.wire fc +:+ enc) ∧
    processReplicationStream clock (Follower.with_conn f (Some k) enc) = Ret ("EOF", f') ∧
    cache_rep (f_cache f') es_f' ∧ contents es_f' = contents es'.
Proof.
  intros Henc Hwf Hw Hd Hs Hc Hlp Hl Hp Hfc Ho Hf Hcont Hcap.
  pose proof (handleConnection_spec cluster env order s c rs input es Henc Hwf Hd Hs Hc) as H.
  pose proof (writes_replay (Cache.maxSize (cache s)) (λ i, Handler.clock (env i) 0%nat) rs 0 es Hw) as Hrep.
  destruct (spec_session _ _ 0 rs es) as [answers es']. destruct H as (w' & Hrun & Ha). cbn [snd] in Hrep.
  destruct (proj2 (s_linked _ _ Hs) lp Hlp) as (l0 & Hl0 & Hlwf).
  assert (l0 = l) as -> by (cbn in Hl0; congruence).
  destruct (p_leader _ _ _ _ (a_persisted _ _ _ _ _ Ha) lp l Hlp Hl Hlwf) as (l' & Hl' & _ & Hrun').
  set (ops := mjoin (logged <$> rs)) in *.
  assert (Forall op_wf ops) as Hops.
  { apply Forall_join, Forall_fmap. eapply Forall_impl; [exact Hwf|]. intros r. apply logged_wf. }
  assert (Forall Leader.request_wf (replicated <$> ops)) as Hrq.
  { apply Forall_fmap. eapply Forall_impl; [exact Hops|]. apply replicated_wf. }
  destruct (Leader.replicate_all_spec _ l p fc Hlwf Hp Hfc Ho Hrq) as (enc & l2 & Hr2 & He & _ & _ & Hwire).
  assert (l2 = l') as -> by congruence.
  destruct (commands_stream _ enc (Leader.numbered_wf (Leader.seqNum l) _ Hrq) He) as [Hms Hmb].
  destruct (stream_loop_spec clock _ enc (S (String.length enc)) 0 (Follower.with_conn f (Some k) enc) es_f
    Hms Hmb eq_refl ltac:(lia) Hf) as (f' & Hst & Hf').
  exists w', l', enc, es', f'. eexists.
  split_and!; [done|apply (a_serving _ _ _ _ _ Ha)|done|by rewrite Hwire|exact Hst|apply Hf'|].
  rewrite Hrep. cbn [Follower.with_conn f_cache]. rewrite Hcap. by apply stream_contents.
Qed.

Lemma follower_converges_witness :
  ∃ w' l' enc es' f' es_f',
    handleConnection no_cluster demo_env [] demo_server 7 demo_writes_input = Ret w' ∧
    cache_rep (cache (srv w')) es' ∧ leaders (srv w') !! 1%positive = Some l' ∧
    Leader.wire <$> Leader.conns l' !! 1%positive = Some ("+sync" +:+ enc) ∧
    processReplicationStream (λ _, 9000) (Follower.with_conn
      (mkFollower (Cache.NewCache 3 NewCollector) "leader:7001" "f1" None "" "" 0 0 false [] 0 0 [] false false)
      (Some 1%positive) enc) = Ret ("EOF", f') ∧
    cache_rep (f_cache f') es_f' ∧ contents es_f' = contents es'.
Proof.
  apply (follower_converges no_cluster demo_env [] demo_server 7 demo_writes demo_writes_input [] 1%positive
    Leader.demo_leader 1%positive (Leader.mkF "f1" "+sync" 100 false) (λ _, 9000)
    (mkFollower (Cache.NewCache 3 NewCollector) "leader:7001" "f1" None "" "" 0 0 false [] 0 0 [] false false)
    [] 1%positive).
  - by vm_compute.
  - apply (bool_decide_eq_true_1 (Forall req_wf demo_writes)). by vm_compute.
  - apply (bool_decide_eq_true_1 (Forall is_write demo_writes)). by vm_compute.
  - done.
  - apply demo_serving.
  - done.
  - done.
  - done.
  - by apply list_elem_of_singleton.
  - done.
  - done.
  - apply cache_rep_new.
  - done.
  - done.
Defined.
End Replication.
