(* ===== verification/Transactions.v ===== *)
(** * MULTI, EXEC and DISCARD (handler.go)

    EXEC runs the queue under the cache's lock and then logs and replicates it:
    it has the effect of the queued requests one after another.  Queued commands
    touch nothing, and the transaction state of a connection is reset by every
    EXEC and DISCARD.  The last part states what EXEC gets wrong. *)

From S2P Require Import Prelude GoStd Lru Metrics Cache CacheSpec CacheTrace Resp HashRing.
From S2P Require Import PubSub ReplProtocol Config NodeState Persistence Leader Handler HandlerSpec.
Import ReplProtocol(str_of, OpSet, OpDelete).
Import Handler HandlerSpec.
Import Persistence(io_ok, file, file_open, Operation, mkOp, Type_, encode_log, log_entry, op_wf).
Local Open Scope Z_scope.

Module Transactions.

(** ** The queue, run under the lock *)

Lemma execute_command_rep now c xs r :
  rep c xs → req_wf r →
  let '(answer, es') := spec_request (Cache.maxSize c) now r xs.*2 in
  ∃ c' xs', execute_command now (request_slice r) c = Ret (answer, c') ∧ rep c' xs' ∧ frame c c' ∧
    xs'.*2 = es'.
Proof.
  intros Hr Hwf. destruct r as [k v ttl|k|k|]; cbn [spec_request].
  - assert (execute_command now (request_slice (RSet k v ttl)) c =
      executeSetCommand now (request_slice (RSet k v ttl)) c) as -> by done.
    unfold executeSetCommand. destruct (set_slice_args k v ttl) as (-> & -> & ->).
    cbn [mbind outcome_bind]. rewrite set_ttl_slice by apply Hwf. cbn [mbind outcome_bind].
    destruct (SetInternal_rep c xs k v (seconds (ttl_of ttl)) now Hr) as (c' & xs' & -> & Hr' & Hf & Hx).
    cbn [mbind outcome_bind]. by exists c', xs'.
  - destruct (GetInternal_rep c xs k now Hr) as (v & ok & c' & xs' & HG & Hr' & Hf & Hx).
    rewrite <-Hx. exists c', xs'. split_and!; [|done..].
    change (execute_command now (request_slice (RGet k)) c) with
      ('(result, exists_, c) ← Cache.GetInternal c k now; mret (get_reply result exists_, c)).
    rewrite HG. by destruct ok.
  - destruct (DeleteInternal_rep c xs k Hr) as (c' & xs' & HD & Hr' & Hx & Hf).
    exists c', xs'. split_and!; [|done..].
    change (execute_command now (request_slice (RDel k)) c) with
      (c ← Cache.DeleteInternal c k; mret (":1" +:+ CRLF, c)). by rewrite HD.
  - by exists c, xs.
Qed.

Lemma execute_loop_rep clock rs i results c xs :
  rep c xs → Forall req_wf rs →
  let '(answers, es') := spec_session (Cache.maxSize c) clock i rs xs.*2 in
  ∃ c' xs', execute_loop clock i (request_slice <$> rs) results c = Ret (results ++ answers, c') ∧
    rep c' xs' ∧ frame c c' ∧ xs'.*2 = es'.
Proof.
  intros Hr Hwf. revert i results c xs Hr. induction Hwf as [|r rs Hw _ IH]; intros i results c xs Hr.
  { cbn [spec_session]. exists c, xs. rewrite app_nil_r. done. }
  rewrite fmap_cons. cbn [execute_loop spec_session].
  pose proof (execute_command_rep (clock i) c xs r Hr Hw) as H.
  destruct (spec_request _ _ r xs.*2) as [a es1]. destruct H as (c1 & xs1 & -> & Hr1 & [Hf1 Hm1] & <-).
  cbn [mbind outcome_bind]. specialize (IH (S i) (results ++ [a]) c1 xs1 Hr1). rewrite Hm1 in IH.
  destruct (spec_session _ _ (S i) rs xs1.*2) as [answers es2].
  destruct IH as (c2 & xs2 & -> & Hr2 & [Hf2 Hm2] & Hx2).
  exists c2, xs2. rewrite <-app_assoc. split_and!; [done|done| |done]. split; congruence.
Qed.

(** ** The second loop *)

Lemma logged_ttl_slice k v ttl :
  int64_range (ttl_of ttl * Second) → logged_ttl (request_slice (RSet k v ttl)) = Ret (ttl_of ttl).
Proof.
  intros Ht%seconds_range. destruct ttl as [|n|n]; [done|..];
    change (Ret (default 0 (Atoi (Itoa n))) = Ret n); by rewrite Atoi_Itoa.
Qed.

Lemma persist_command_spec leader w r :
  linked leader (srv w) → req_wf r →
  ∃ w', persist_command io_ok leader w (request_slice r) = Ret w' ∧
    persisted leader w w' (logged r) ∧ same_rest w w'.
Proof.
  intros Hl Hwf. destruct r as [k v ttl|k|k|].
  - pose proof (logged_wf (RSet k v ttl) Hwf) as [Hop _]%Forall_cons.
    destruct (persist_op leader w _ OpSet Hop Hl eq_refl) as (w' & Hw' & Hp).
    exists w'. split; [|exact Hp]. unfold persist_command.
    assert (arg (request_slice (RSet k v ttl)) 0 = Ret "SET") as -> by done.
    destruct (set_slice_args k v ttl) as (_ & -> & ->). cbn [mbind outcome_bind].
    rewrite bool_decide_eq_true_2 by done. rewrite logged_ttl_slice by apply Hwf. exact Hw'.
  - exists w. split_and!; [done|apply persisted_refl|done..].
  - pose proof (logged_wf (RDel k) Hwf) as [Hop _]%Forall_cons.
    destruct (persist_op leader w _ OpDelete Hop Hl eq_refl) as (w' & Hw' & Hp).
    exists w'. split; [exact Hw'|exact Hp].
  - exists w. split_and!; [done|apply persisted_refl|done..].
Qed.

Lemma persist_loop_spec disk leader rs i w :
  (∀ i, disk i = io_ok) → linked leader (srv w) → Forall req_wf rs →
  ∃ w', persist_loop disk leader i (request_slice <$> rs) w = Ret w' ∧
    persisted leader w w' (mjoin (logged <$> rs)) ∧ same_rest w w'.
Proof.
  intros Hd Hl Hwf. revert i w Hl. induction Hwf as [|r rs Hw _ IH]; intros i w Hl.
  { exists w. split_and!; [done|apply persisted_refl|done..]. }
  rewrite !fmap_cons. cbn [persist_loop]. rewrite Hd.
  destruct (persist_command_spec leader w r Hl Hw) as (w1 & -> & Hp1 & Es1 & Es2 & Es3).
  cbn [mbind outcome_bind].
  destruct (IH (S i) w1 (persisted_linked _ _ _ _ Hp1 Hl)) as (w2 & -> & Hp2 & Et1 & Et2 & Et3).
  exists w2. split_and!; [done|by eapply persisted_trans|unfold same_rest; split_and!; congruence..].
Qed.

(** ** EXEC *)

Definition exec_reply (answers : list string) : string :=
  "*" +:+ Itoa (Z.of_nat (length answers)) +:+ CRLF +:+ concat_strings answers.

Lemma foldl_concat l s : foldl (λ s r, s +:+ r) s l = s +:+ concat_strings l.
Proof.
  revert s. induction l as [|x l IH]; intros s; cbn [foldl concat_strings foldr]; [by rewrite string_app_nil_r|].
  rewrite IH. by rewrite string_app_assoc.
Qed.

(** No condition on the node's role: EXEC does not look at it. *)
Lemma handleExec_spec env w es rs leader :
  cache_rep (cache (srv w)) es → linked leader (srv w) → Forall req_wf rs →
  (∀ i, disk env i = io_ok) →
  inTransaction (state w) = true → transactionError (state w) = None →
  commandQueue (state w) = request_slice <$> rs →
  let '(answers, es') := spec_session (Cache.maxSize (cache (srv w))) (clock env) 0 rs es in
  ∃ w', handleExec env w leader = Ret w' ∧ cache_rep (cache (srv w')) es' ∧
    Cache.maxSize (cache (srv w')) = Cache.maxSize (cache (srv w)) ∧
    persisted leader w w' (mjoin (logged <$> rs)) ∧
    out w' = out w +:+ exec_reply answers ∧
    state w' = mkConnState (subscriberMode (state w)) false [] None.
Proof.
  intros (Hmu & xs & Hr & ->) Hl Hwf Hd Htx Herr Hq.
  set (c0 := Cache.with_mu (cache (srv w)) true).
  pose proof (execute_loop_rep (clock env) rs 0 [] c0 xs (rep_with_mu _ _ _ Hr) Hwf) as Hex.
  cbn [c0 Cache.with_mu Cache.maxSize] in Hex.
  destruct (spec_session _ _ 0 rs xs.*2) as [answers es'].
  destruct Hex as (c1 & xs1 & Hex & Hr1 & [Hf1 Hm1] & <-).
  destruct (persist_loop_spec (disk env) leader rs 0 (with_cache w c1) Hd Hl Hwf)
    as (w1 & Hw1 & Hp & E1 & E2 & E3).
  destruct (unlock_rep c1 xs1 Hf1 Hr1) as [Hun Hc1].
  unfold handleExec. rewrite Htx, Herr, Hq. cbn [negb]. unfold Cache.Lock. rewrite Hmu.
  cbn [mbind outcome_bind mret outcome_ret]. fold c0. rewrite Hex. cbn [mbind outcome_bind app].
  rewrite Hw1. cbn [mbind outcome_bind]. cbn [reply srv]. rewrite E1. cbn [with_cache srv cache].
  rewrite Hun. eexists. split; [reflexivity|]. split_and!; [exact Hc1|exact Hm1| | |].
  - apply (persisted_ext _ w w1); try done. by destruct Hp.
  - cbn [reset_transaction with_state with_cache reply out]. rewrite E3. cbn [with_cache out].
    rewrite foldl_concat. unfold exec_reply. by rewrite !string_app_assoc.
  - cbn [reset_transaction with_state with_cache reply state]. by rewrite E2.
Qed.

(** ** Requests of a connection *)

Section connection.
Context (cluster : World → list value → outcome World).

Definition run_requests (env : Env) (w : World) (slices : list (list value)) : outcome World :=
  for_each (handle_request cluster env) w slices.

(** The gates in front of a command outside subscriber mode. *)
Lemma handle_request_gate env w name args :
  subscriberMode (state w) = false →
  handle_request cluster env w (VStr name :: args) =
  (w ← (if inTransaction (state w) then
          if bool_decide (name = "EXEC" ∨ name = "DISCARD") then
            dispatch cluster env w (VStr name) (VStr name :: args)
          else if canQueueCommand name then queueCommandForTransaction w (VStr name :: args)
          else mret (reply w (EncodeError ("ERR command '" +:+ name +:+ " cannot be used in a transaction")))
        else dispatch cluster env w (VStr name) (VStr name :: args));
   mret (observe w)).
Proof.
  intros Hs. unfold handle_request. cbn [lookup list_lookup or_panic mbind outcome_bind].
  rewrite Hs. done.
Qed.

Lemma request_multi env w :
  subscriberMode (state w) = false → inTransaction (state w) = false →
  handle_request cluster env w [VStr "MULTI"] = Ret (observe (handleMulti w)).
Proof.
  intros Hs Ht. rewrite handle_request_gate by done. rewrite Ht.
  change (dispatch cluster env w (VStr "MULTI") [VStr "MULTI"])
    with (route cluster env w (VStr "MULTI") [VStr "MULTI"]).
  unfold route. cbn [length]. rewrite bool_decide_eq_false_2 by lia.
  cbn [mbind outcome_bind mret outcome_ret]. by rewrite andb_false_r.
Qed.

Lemma request_exec env w :
  subscriberMode (state w) = false →
  handle_request cluster env w [VStr "EXEC"] =
  (w ← handleExec env w (NodeState.GetLeader (nodeState (srv w))); mret (observe w)).
Proof.
  intros Hs. rewrite handle_request_gate by done.
  change (dispatch cluster env w (VStr "EXEC") [VStr "EXEC"])
    with (route cluster env w (VStr "EXEC") [VStr "EXEC"]).
  rewrite bool_decide_eq_true_2 by auto. unfold route. cbn [length].
  rewrite bool_decide_eq_false_2 by lia. cbn [mbind outcome_bind mret outcome_ret]. rewrite andb_false_r.
  by destruct (inTransaction (state w)).
Qed.

(** A queued command: nothing but the queue, the output and the timer changes. *)
Definition queued (w : World) (slice : list value) : World :=
  observe (reply (with_state w (mkConnState (subscriberMode (state w)) (inTransaction (state w))
    (commandQueue (state w) ++ [slice]) (transactionError (state w)))) (EncodeSimpleString "QUEUED")).

Lemma request_queued_command env w name args :
  subscriberMode (state w) = false → inTransaction (state w) = true →
  transactionError (state w) = None → name ≠ "EXEC" → name ≠ "DISCARD" → canQueueCommand name = true →
  validation_error name (S (length args)) = None →
  handle_request cluster env w (VStr name :: args) = Ret (queued w (VStr name :: args)).
Proof.
  intros Hs Ht He H1 H2 Hq Hv. rewrite handle_request_gate by done.
  rewrite Ht, bool_decide_eq_false_2, Hq by tauto.
  unfold queueCommandForTransaction. rewrite He.
  change (arg (VStr name :: args) 0) with (Ret name). cbn [mbind outcome_bind mret outcome_ret length].
  rewrite Hv. unfold queued. by rewrite He.
Qed.

Lemma request_queued env w r :
  subscriberMode (state w) = false → inTransaction (state w) = true →
  transactionError (state w) = None →
  handle_request cluster env w (request_slice r) = Ret (queued w (request_slice r)).
Proof.
  intros Hs Ht He. destruct (request_slice_head r) as (args & Hsl). rewrite Hsl.
  apply request_queued_command; [done..|by destruct r|by destruct r|by destruct r|].
  change (S (length args)) with (length (VStr (request_name r) :: args)). rewrite <-Hsl.
  destruct r as [k v []| | |]; done.
Qed.

Lemma queue_all env (rs : list request) w :
  subscriberMode (state w) = false → inTransaction (state w) = true → transactionError (state w) = None →
  ∃ w', run_requests env w (request_slice <$> rs) = Ret w' ∧
    state w' = mkConnState false true (commandQueue (state w) ++ (request_slice <$> rs)) None ∧
    out w' = out w +:+ concat_strings (repeat (EncodeSimpleString "QUEUED") (length rs)) ∧
    (∀ es, cache_rep (cache (srv w)) es → cache_rep (cache (srv w')) es) ∧
    Cache.maxSize (cache (srv w')) = Cache.maxSize (cache (srv w)) ∧
    (∀ leader, persisted leader w w' []).
Proof.
  revert w. induction rs as [|r rs IH]; intros w Hs Ht He.
  { exists w. cbn [fmap list_fmap run_requests for_each]. rewrite app_nil_r, string_app_nil_r.
    split_and!; [done| |done..|intros; apply persisted_refl]. destruct (state w); simpl in *. by subst. }
  rewrite fmap_cons. unfold run_requests. cbn [for_each]. rewrite request_queued by done.
  cbn [mbind outcome_bind].
  destruct (IH (queued w (request_slice r))) as (w' & Hw & Hst & Hout & Hc & Hm & Hp); [done..|].
  exists w'. split_and!; [done| | | |done|].
  - rewrite Hst. cbn [queued observe with_cache reply with_state state commandQueue]. by rewrite <-app_assoc.
  - rewrite Hout. cbn [queued observe with_cache reply with_state out length repeat concat_strings foldr].
    by rewrite string_app_assoc.
  - intros es Hes. by apply Hc, cache_rep_metrics.
  - intros leader. destruct (Hp leader). by split.
Qed.

Lemma transaction_run env w es rs :
  cache_rep (cache (srv w)) es → linked (NodeState.GetLeader (nodeState (srv w))) (srv w) →
  Forall req_wf rs →
  (∀ i, disk env i = io_ok) → subscriberMode (state w) = false → inTransaction (state w) = false →
  let '(answers, es') := spec_session (Cache.maxSize (cache (srv w))) (clock env) 0 rs es in
  ∃ w', run_requests env w ([VStr "MULTI"] :: (request_slice <$> rs) ++ [[VStr "EXEC"]]) = Ret w' ∧
    cache_rep (cache (srv w')) es' ∧
    persisted (NodeState.GetLeader (nodeState (srv w))) w w' (mjoin (logged <$> rs)) ∧
    out w' = out w +:+ EncodeSimpleString "OK"
      +:+ concat_strings (repeat (EncodeSimpleString "QUEUED") (length rs)) +:+ exec_reply answers ∧
    state w' = new_state.
Proof.
  intros Hc Hl Hwf Hd Hs Ht. set (w1 := observe (handleMulti w)).
  assert (handleMulti w = reply (with_state w (mkConnState false true [] None)) (EncodeSimpleString "OK")) as Hmulti.
  { unfold handleMulti. by rewrite Ht, Hs. }
  assert (state w1 = mkConnState false true [] None) as Hst1 by (unfold w1; by rewrite Hmulti).
  assert (persisted (NodeState.GetLeader (nodeState (srv w))) w w1 []) as Hp1.
  { unfold w1. rewrite Hmulti. apply (persisted_ext _ w w); [done..|apply persisted_refl]. }
  assert (cache_rep (cache (srv w1)) es) as Hc1 by (unfold w1; rewrite Hmulti; by apply cache_rep_metrics).
  assert (Cache.maxSize (cache (srv w1)) = Cache.maxSize (cache (srv w))) as Hm1 by (unfold w1; by rewrite Hmulti).
  destruct (queue_all env rs w1) as (w2 & Hw2 & Hst2 & Hout2 & Hc2 & Hm2 & Hp2); [by rewrite Hst1..|].
  specialize (Hc2 es Hc1). specialize (Hp2 (NodeState.GetLeader (nodeState (srv w)))).
  pose proof (persisted_trans _ _ _ _ _ _ Hp1 Hp2) as Hp12. pose proof (p_node _ _ _ _ Hp12) as Hn2.
  assert (linked (NodeState.GetLeader (nodeState (srv w))) (srv w2)) as Hl2 by by eapply persisted_linked.
  rewrite Hst1 in Hst2. cbn [commandQueue app] in Hst2.
  pose proof (handleExec_spec env w2 es rs _ Hc2 Hl2 Hwf Hd ltac:(by rewrite Hst2) ltac:(by rewrite Hst2)
    ltac:(by rewrite Hst2)) as Hex. rewrite Hm2, Hm1 in Hex.
  destruct (spec_session _ _ 0 rs es) as [answers es'].
  destruct Hex as (w3 & Hw3 & Hc3 & _ & Hp3 & Hout3 & Hst3).
  exists (observe w3). split_and!.
  - unfold run_requests. cbn [for_each]. rewrite request_multi by done. cbn [mbind outcome_bind]. fold w1.
    rewrite for_each_app. unfold run_requests in Hw2. rewrite Hw2. cbn [mbind outcome_bind for_each].
    rewrite request_exec by (by rewrite ?Hst2, ?Hn2). by rewrite Hn2, Hw3.
  - by apply cache_rep_metrics.
  - apply (persisted_ext _ w w3); [done..|]. exact (persisted_trans _ _ _ _ _ _ Hp12 Hp3).
  - change (out (observe w3)) with (out w3). rewrite Hout3, Hout2. unfold w1. rewrite Hmulti.
    cbn [observe with_cache reply with_state out]. by rewrite !string_app_assoc.
  - change (state (observe w3)) with (state w3). by rewrite Hst3, Hst2.
Qed.
End connection.

(** C3. A transaction has the effect of its commands in order: MULTI, any GET, SET,
    DEL and PING requests, EXEC leaves the cache as the requests would one after
    another, appends their writes to the log (unless an append started the
    background rewrite) and sends them to the followers; the client sees OK, one
    QUEUED per request, and one array with the replies the abstract cache gives
    (1 for every DEL, of a missing key too); the connection is back in its initial
    state and the cache is unlocked. *)
Theorem transaction_refines_spec cluster env w es rs :
  serving w es → Forall req_wf rs → (∀ i, disk env i = io_ok) →
  subscriberMode (state w) = false → inTransaction (state w) = false →
  let '(answers, es') := spec_session (Cache.maxSize (cache (srv w))) (clock env) 0 rs es in
  let ops := mjoin (logged <$> rs) in
  ∃ w', run_requests cluster env w ([VStr "MULTI"] :: (request_slice <$> rs) ++ [[VStr "EXEC"]]) = Ret w' ∧
    cache_rep (cache (srv w')) es' ∧ log_grew (aof (srv w)) (aof (srv w')) ops ∧
    (∀ lp l, NodeState.GetLeader (nodeState (srv w)) = Some lp → leaders (srv w) !! lp = Some l →
      ∃ l', leaders (srv w') !! lp = Some l' ∧
        for_each Leader.replicate_request l (replicated <$> ops) = Ret l') ∧
    out w' = out w +:+ EncodeSimpleString "OK"
      +:+ concat_strings (repeat (EncodeSimpleString "QUEUED") (length rs)) +:+ exec_reply answers ∧
    state w' = new_state.
Proof.
  intros [Hc0 Hl _ _] Hwf Hd Hs Ht.
  pose proof (transaction_run cluster env w es rs Hc0 Hl Hwf Hd Hs Ht) as H.
  destruct (spec_session _ _ 0 rs es) as [answers es']. destruct H as (w' & Hrun & Hc & Hp & Hout & Hst).
  exists w'. split_and!; [done|done|by eapply persisted_grew| |done|done].
  intros lp l Hlp Hll. destruct (proj2 Hl lp Hlp) as (l0 & Hl0 & Hlw).
  assert (l0 = l) as -> by congruence.
  destruct (p_leader _ _ _ _ Hp lp l Hlp Hll Hlw) as (l' & ? & _ & ?). by exists l'.
Qed.

Definition demo_world : World := mkWorld demo_server 7 new_state "".

Lemma transaction_refines_spec_witness :
  let '(answers, es') := spec_session 3 (λ _, 100) 0 demo_requests [] in
  let ops := mjoin (logged <$> demo_requests) in
  ∃ w', run_requests no_cluster (demo_env 0) demo_world
      ([VStr "MULTI"] :: (request_slice <$> demo_requests) ++ [[VStr "EXEC"]]) = Ret w' ∧
    cache_rep (cache (srv w')) es' ∧ log_grew (aof demo_server) (aof (srv w')) ops ∧
    (∀ lp l, Some 1%positive = Some lp → leaders demo_server !! lp = Some l →
      ∃ l', leaders (srv w') !! lp = Some l' ∧
        for_each Leader.replicate_request l (replicated <$> ops) = Ret l') ∧
    out w' = "" +:+ EncodeSimpleString "OK"
      +:+ concat_strings (repeat (EncodeSimpleString "QUEUED") 6) +:+ exec_reply answers ∧
    state w' = new_state.
Proof.
  apply (transaction_refines_spec no_cluster (demo_env 0) demo_world [] demo_requests).
  - apply demo_serving.
  - apply demo_requests_wf.
  - done.
  - done.
  - done.
Defined.

(** C25. Queued commands have no effect before EXEC: inside a transaction any
    command other than EXEC and DISCARD returns, leaves the server as it was
    (but for the request timer), stays in the transaction and at most adds itself
    to the queue; DISCARD, and EXEC after an invalid command, drop the queue and
    leave the server as it was too. *)
Theorem transaction_isolated cluster env w name args :
  subscriberMode (state w) = false → inTransaction (state w) = true →
  (name ≠ "EXEC" → name ≠ "DISCARD" →
   ∃ w', handle_request cluster env w (VStr name :: args) = Ret w' ∧ srv w' = srv (observe w) ∧
     inTransaction (state w') = true ∧
     (commandQueue (state w') = commandQueue (state w) ∨
      commandQueue (state w') = commandQueue (state w) ++ [VStr name :: args])) ∧
  (name = "DISCARD" ∨ name = "EXEC" ∧ transactionError (state w) ≠ None →
   ∃ w', handle_request cluster env w [VStr name] = Ret w' ∧ srv w' = srv (observe w) ∧
     state w' = new_state).
Proof.
  intros Hs Ht. split.
  - intros H1 H2. rewrite handle_request_gate by done. rewrite Ht.
    rewrite bool_decide_eq_false_2 by tauto.
    destruct (canQueueCommand name).
    2: { eexists. split; [reflexivity|]. split_and!; [done|done|by left]. }
    unfold queueCommandForTransaction. destruct (transactionError (state w)).
    { eexists. split; [reflexivity|]. split_and!; [done|done|by left]. }
    change (arg (VStr name :: args) 0) with (Ret name). cbn [mbind outcome_bind mret outcome_ret].
    destruct (validation_error name _); (eexists; split; [reflexivity|]; split_and!; [done|done|]);
      [by left|by right].
  - intros [->|[-> He]].
    + rewrite handle_request_gate by done. rewrite Ht, bool_decide_eq_true_2 by auto.
      change (dispatch cluster env w (VStr "DISCARD") [VStr "DISCARD"])
        with (route cluster env w (VStr "DISCARD") [VStr "DISCARD"]).
      unfold route. cbn [length]. rewrite bool_decide_eq_false_2 by lia.
      cbn [mbind outcome_bind mret outcome_ret]. rewrite andb_false_r.
      change (handle_locally cluster env w (VStr "DISCARD") [VStr "DISCARD"]) with (Ret (handleDiscard w)).
      unfold handleDiscard. rewrite Ht. eexists. split; [reflexivity|]. split; [done|].
      change (mkConnState (subscriberMode (state w)) false [] None = new_state). by rewrite Hs.
    + rewrite request_exec by done. unfold handleExec. rewrite Ht.
      destruct (transactionError (state w)); [|done].
      eexists. split; [reflexivity|]. split; [done|]. change (mkConnState (subscriberMode (state w)) false [] None = new_state). by rewrite Hs.
Qed.

Definition in_transaction : World :=
  mkWorld demo_server 7 (mkConnState false true [[VStr "PING"]] None) "".

Lemma transaction_isolated_witness :
  (∃ w', handle_request no_cluster (demo_env 0) in_transaction [VStr "SET"; VStr "k"; VStr "v"] = Ret w' ∧
     srv w' = srv (observe in_transaction) ∧ inTransaction (state w') = true ∧
     (commandQueue (state w') = commandQueue (state in_transaction) ∨
      commandQueue (state w') = commandQueue (state in_transaction) ++ [[VStr "SET"; VStr "k"; VStr "v"]])) ∧
  (∃ w', handle_request no_cluster (demo_env 0) in_transaction [VStr "DISCARD"] = Ret w' ∧
     srv w' = srv (observe in_transaction) ∧ state w' = new_state).
Proof.
  split.
  - by apply (transaction_isolated no_cluster (demo_env 0) in_transaction "SET" [VStr "k"; VStr "v"]).
  - apply (transaction_isolated no_cluster (demo_env 0) in_transaction "DISCARD" []); auto.
Defined.

(** ** Where EXEC differs from the plain commands *)

(** DBSIZE inside a transaction blocks the connection forever: EXEC holds the
    cache's write lock, and DBSIZE asks for the read lock.  The lock is never
    released, so no other connection can use the cache again. *)
Theorem exec_dbsize_deadlock cluster env w :
  Cache.mu (cache (srv w)) = false →
  subscriberMode (state w) = false → inTransaction (state w) = false →
  run_requests cluster env w [[VStr "MULTI"]; [VStr "DBSIZE"]; [VStr "EXEC"]] = Deadlock.
Proof.
  intros Hm Hs Ht. unfold run_requests. cbn [for_each]. rewrite request_multi by done.
  cbn [mbind outcome_bind]. unfold handleMulti. rewrite Ht, Hs.
  rewrite request_queued_command by done. cbn [mbind outcome_bind].
  rewrite request_exec by done. unfold handleExec.
  cbn [queued observe with_cache reply with_state state srv cache commandQueue inTransaction
       transactionError negb app].
  unfold Cache.Lock. cbn [Cache.with_metrics Cache.mu]. rewrite Hm. done.
Qed.

Lemma exec_dbsize_deadlock_witness :
  run_requests no_cluster (demo_env 0) demo_world [[VStr "MULTI"]; [VStr "DBSIZE"]; [VStr "EXEC"]] = Deadlock.
Proof. by apply (exec_dbsize_deadlock no_cluster (demo_env 0) demo_world). Defined.

(** A read-only replica accepts writes inside a transaction: SET alone is
    answered with READONLY and changes nothing, but MULTI, SET, EXEC stores the
    value in the replica's cache and log. *)
Theorem exec_ignores_readonly cluster env w es k v :
  cache_rep (cache (srv w)) es → linked (NodeState.GetLeader (nodeState (srv w))) (srv w) →
  NodeState.GetRole (nodeState (srv w)) = "follower" →
  NodeState.ns_IsClusterMode (nodeState (srv w)) = false → req_wf (RSet k v NoTTL) →
  (∀ i, disk env i = io_ok) → subscriberMode (state w) = false → inTransaction (state w) = false →
  handle_request cluster env w (request_slice (RSet k v NoTTL)) =
    Ret (observe (reply w (EncodeError readonly_error))) ∧
  ∃ w' log, run_requests cluster env w [[VStr "MULTI"]; request_slice (RSet k v NoTTL); [VStr "EXEC"]] = Ret w' ∧
    cache_rep (cache (srv w')) (spec_set (Cache.maxSize (cache (srv w))) k v 0 es) ∧
    encode_log [mkOp "SET" k v 0] = Ret log ∧ file (aof (srv w')) = file (aof (srv w)) +:+ log.
Proof.
  intros Hc Hl Hrole Hn Hwf Hd Hs Ht. split.
  - change (request_slice (RSet k v NoTTL)) with [VStr "SET"; VStr k; VStr v].
    rewrite handle_request_gate by done. rewrite Ht.
    change (dispatch cluster env w (VStr "SET") [VStr "SET"; VStr k; VStr v])
      with (route cluster env w (VStr "SET") [VStr "SET"; VStr k; VStr v]).
    unfold route. cbn [length]. rewrite bool_decide_eq_true_2 by lia.
    change (arg [VStr "SET"; VStr k; VStr v] 1) with (Ret k). cbn [mbind outcome_bind]. rewrite Hn. cbn [andb].
    change (handle_locally cluster env w (VStr "SET") [VStr "SET"; VStr k; VStr v])
      with (handleSet env w [VStr "SET"; VStr k; VStr v] (NodeState.GetLeader (nodeState (srv w)))).
    unfold handleSet. by rewrite Hrole, bool_decide_eq_true_2.
  - pose proof (transaction_run cluster env w es [RSet k v NoTTL] Hc Hl
      (Forall_cons_2 _ _ _ Hwf (Forall_nil_2 _)) Hd Hs Ht) as (w' & Hrun & Hc' & Hp & _).
    destruct (p_log _ _ _ _ Hp) as (log & Hlog & Hf). exists w', log. done.
Qed.

Definition demo_follower : Server :=
  mkServer (Cache.NewCache 3 NewCollector) (Persistence.NewAOF "" None Config.SyncAlways 2) ∅
    PubSub.NewPubSub (NodeState.NewNodeState "follower" None "").

Lemma exec_ignores_readonly_witness :
  let w := mkWorld demo_follower 7 new_state "" in
  handle_request no_cluster (demo_env 0) w (request_slice (RSet "k" "v" NoTTL)) =
    Ret (observe (reply w (EncodeError readonly_error))) ∧
  ∃ w' log, run_requests no_cluster (demo_env 0) w
      [[VStr "MULTI"]; request_slice (RSet "k" "v" NoTTL); [VStr "EXEC"]] = Ret w' ∧
    cache_rep (cache (srv w')) (spec_set 3 "k" "v" 0 []) ∧
    encode_log [mkOp "SET" "k" "v" 0] = Ret log ∧ file (aof (srv w')) = "" +:+ log.
Proof.
  apply (exec_ignores_readonly no_cluster (demo_env 0) (mkWorld demo_follower 7 new_state "") [] "k" "v").
  - apply cache_rep_new.
  - by split.
  - done.
  - done.
  - by apply (bool_decide_eq_true_1 (req_wf (RSet "k" "v" NoTTL))); vm_compute.
  - done.
  - done.
  - done.
Defined.

(** EXEC logs and replicates commands that it rejected: a SET whose TTL is no
    integer is answered with an error and leaves the cache as it was, yet the
    log and the followers receive it as a SET without TTL, so that the key
    exists on every replica and after a restart. *)
Theorem exec_logs_rejected_set env w leader es k v ttl :
  cache_rep (cache (srv w)) es → linked leader (srv w) → op_wf (mkOp "SET" k v 0) → Atoi ttl = None →
  (∀ i, disk env i = io_ok) →
  state w = mkConnState false true [[VStr "SET"; VStr k; VStr v; VStr ttl]] None →
  ∃ w' log, handleExec env w leader = Ret w' ∧
    out w' = out w +:+ exec_reply [EncodeError err_range] ∧
    cache_rep (cache (srv w')) es ∧
    encode_log [mkOp "SET" k v 0] = Ret log ∧ file (aof (srv w')) = file (aof (srv w)) +:+ log ∧
    ∀ lp l, leader = Some lp → leaders (srv w) !! lp = Some l →
      ∃ l', leaders (srv w') !! lp = Some l' ∧
        for_each Leader.replicate_request l [Leader.mkReq OpSet k v 0] = Ret l'.
Proof.
  intros (Hmu & xs & Hr & ->) Hl Hop Hbad Hd Hst.
  set (c0 := Cache.with_mu (cache (srv w)) true).
  destruct (persist_op leader (with_cache w c0) _ OpSet Hop Hl eq_refl) as (w1 & Hw1 & Hp & E1 & E2 & E3).
  unfold handleExec. rewrite Hst. cbn [inTransaction transactionError commandQueue negb].
  unfold Cache.Lock. rewrite Hmu. cbn [mbind outcome_bind mret outcome_ret]. fold c0.
  assert (execute_loop (clock env) 0 [[VStr "SET"; VStr k; VStr v; VStr ttl]] [] c0 =
    Ret ([EncodeError err_range], c0)) as ->.
  { cbn [execute_loop].
    change (execute_command (clock env 0%nat) [VStr "SET"; VStr k; VStr v; VStr ttl] c0) with
      (match (match Atoi ttl with Some n => GOk (seconds n) | None => GErr err_range end) with
       | GErr msg => Ret (EncodeError msg, c0)
       | GOk ttl => c ← Cache.SetInternal c0 k v ttl (clock env 0%nat); mret (EncodeSimpleString "OK", c)
       end). by rewrite Hbad. }
  cbn [mbind outcome_bind persist_loop]. rewrite Hd.
  change (persist_command io_ok leader (with_cache w c0) [VStr "SET"; VStr k; VStr v; VStr ttl]) with
    (w ← Handler.replicate (with_cache w c0) leader OpSet k v (default 0 (Atoi ttl));
     append_aof w [VStr "SET"; VStr k; VStr v; VStr (Itoa (default 0 (Atoi ttl)))] io_ok).
  rewrite Hbad. cbn [default].
  cbn [Persistence.Key Persistence.Value Persistence.TTL] in Hw1.
  change (log_entry (mkOp "SET" k v 0)) with [VStr "SET"; VStr k; VStr v; VStr (Itoa 0)] in Hw1.
  rewrite Hw1. cbn [mbind outcome_bind persist_loop mret outcome_ret reply srv]. rewrite E1.
  cbn [with_cache srv cache].
  change (Cache.Unlock c0) with (Ret (Cache.with_mu c0 false)). cbn [mbind outcome_bind].
  destruct (p_log _ _ _ _ Hp) as (log & Hlog & Hf).
  eexists _, log. split; [reflexivity|]. split_and!; [| |done|exact Hf|].
  - cbn [reset_transaction with_state with_cache reply out]. by rewrite E3.
  - split; [done|]. exists xs. split; [by apply (rep_ext (cache (srv w)))|done].
  - intros lp l Hlp Hll. destruct (proj2 Hl lp Hlp) as (l0 & Hl0 & Hwf0).
    assert (l0 = l) as -> by congruence.
    destruct (p_leader _ _ _ _ Hp lp l Hlp Hll Hwf0) as (l' & Hl' & _ & Hrep). by exists l'.
Qed.

Definition rejected_world : World :=
  mkWorld demo_server 7 (mkConnState false true [[VStr "SET"; VStr "k"; VStr "v"; VStr "soon"]] None) "".

Lemma exec_logs_rejected_set_witness :
  ∃ w' log, handleExec (demo_env 0) rejected_world (Some 1%positive) = Ret w' ∧
    out w' = "" +:+ exec_reply [EncodeError err_range] ∧
    cache_rep (cache (srv w')) [] ∧
    encode_log [mkOp "SET" "k" "v" 0] = Ret log ∧ file (aof (srv w')) = "" +:+ log ∧
    ∀ lp l, Some 1%positive = Some lp → leaders (srv rejected_world) !! lp = Some l →
      ∃ l', leaders (srv w') !! lp = Some l' ∧
        for_each Leader.replicate_request l [Leader.mkReq OpSet "k" "v" 0] = Ret l'.
Proof.
  apply (exec_logs_rejected_set (demo_env 0) rejected_world (Some 1%positive) [] "k" "v" "soon").
  - apply cache_rep_new.
  - apply (s_linked _ _ (demo_serving 7)).
  - by apply (bool_decide_eq_true_1 (op_wf (mkOp "SET" "k" "v" 0))); vm_compute.
  - by vm_compute.
  - done.
  - done.
Defined.
End Transactions.
