(* ===== verification/Connection.v ===== *)
(** * The connection loop of handler.go

    The fuel of the loop of [handleConnection] is enough on every input; what an
    empty array does to the server; what a connection in subscriber mode can do; and that the
    transaction state is clean whenever no transaction is open. *)

From S2P Require Import Prelude GoStd Lru Metrics Cache Resp HashRing PubSub ReplProtocol.
From S2P Require Import Config NodeState Persistence Leader Handler HandlerSpec.
Import ReplProtocol(str_of).
Import Handler HandlerSpec.
Local Open Scope Z_scope.

Module Connection.

(** ** No operation runs out of fuel *)

(** The fuel was enough; [m] may still panic or block. *)
Definition fueled {A} (m : outcome A) : Prop := m ≠ OutOfFuel.

Create HintDb fueled.

Lemma fueled_bind {A B} (m : outcome A) (f : A → outcome B) :
  fueled m → (∀ a, fueled (f a)) → fueled (m ≫= f).
Proof. intros Hm Hf. destruct m; [apply Hf|done..]. Qed.

Lemma fueled_fmap {A B} (m : outcome A) (f : A → B) : fueled m → fueled (f <$> m).
Proof. by destruct m. Qed.

Lemma fueled_or_panic {A} (o : option A) : fueled (or_panic o).
Proof. by destruct o. Qed.

Lemma fueled_for_each {A B} (f : B → A → outcome B) b l :
  (∀ b x, fueled (f b x)) → fueled (for_each f b l).
Proof.
  intros Hf. revert b. induction l as [|x l IH]; intros b; [done|]. by apply fueled_bind.
Qed.

(** Follow binds and matches; known operations come from the database. *)
Ltac fin_step :=
  match goal with
  | |- fueled (mret _) => discriminate
  | |- fueled (Ret _) => discriminate
  | |- fueled Panic => discriminate
  | |- fueled Deadlock => discriminate
  | |- fueled (or_panic _) => apply fueled_or_panic
  | |- fueled (_ <$> _) => apply fueled_fmap
  | |- fueled (for_each _ _ _) => apply fueled_for_each; intros
  | |- fueled (_ ≫= _) => apply fueled_bind; [|intros]
  | |- fueled (let '_ := ?x in _) => destruct x
  | |- fueled (match ?x with _ => _ end) => destruct x
  | |- fueled _ => solve [auto with fueled nocore]
  end.
Ltac fin := repeat fin_step.

Lemma fueled_set_prev l p v : fueled (Lru.set_prev l p v).
Proof. unfold Lru.set_prev. fin. Qed.
Lemma fueled_set_next l p v : fueled (Lru.set_next l p v).
Proof. unfold Lru.set_next. fin. Qed.
#[local] Hint Resolve fueled_set_prev fueled_set_next : fueled.

Lemma fueled_deref l p : fueled (Lru.deref l p).
Proof. apply fueled_or_panic. Qed.
#[local] Hint Resolve fueled_deref : fueled.

Lemma fueled_RemoveNode l p : fueled (Lru.RemoveNode l p).
Proof. unfold Lru.RemoveNode. fin. Qed.
Lemma fueled_addToFront l p : fueled (Lru.addToFront l p).
Proof. unfold Lru.addToFront. cbv zeta. fin. Qed.
#[local] Hint Resolve fueled_RemoveNode fueled_addToFront : fueled.

Lemma fueled_MoveToFront l p : fueled (Lru.MoveToFront l p).
Proof. unfold Lru.MoveToFront. fin. Qed.
Lemma fueled_RemoveLRU l : fueled (Lru.RemoveLRU l).
Proof. unfold Lru.RemoveLRU. fin. Qed.
Lemma fueled_Add l k : fueled (Lru.Add l k).
Proof. unfold Lru.Add. cbv zeta. fin. Qed.
#[local] Hint Resolve fueled_MoveToFront fueled_RemoveLRU fueled_Add : fueled.

Lemma fueled_Lock c : fueled (Cache.Lock c).
Proof. unfold Cache.Lock. fin. Qed.
Lemma fueled_Unlock c : fueled (Cache.Unlock c).
Proof. unfold Cache.Unlock. fin. Qed.
Lemma fueled_evict c : fueled (Cache.evict c).
Proof. unfold Cache.evict. fin. Qed.
#[local] Hint Resolve fueled_Lock fueled_Unlock fueled_evict : fueled.

Lemma fueled_SetInternal c k v ttl now : fueled (Cache.SetInternal c k v ttl now).
Proof. unfold Cache.SetInternal. cbv zeta. fin. Qed.
Lemma fueled_GetInternal c k now : fueled (Cache.GetInternal c k now).
Proof. unfold Cache.GetInternal. cbv zeta. fin. Qed.
Lemma fueled_DeleteInternal c k : fueled (Cache.DeleteInternal c k).
Proof. unfold Cache.DeleteInternal. cbv zeta. fin. Qed.
#[local] Hint Resolve fueled_SetInternal fueled_GetInternal fueled_DeleteInternal : fueled.

Lemma fueled_db_size c : fueled (db_size c).
Proof. unfold db_size, Cache.GetAllKeys, Cache.RLock. fin. Qed.
#[local] Hint Resolve fueled_db_size : fueled.

Lemma fueled_encode_elements l s : fueled (encode_elements l s).
Proof.
  revert s. induction l as [|v l IH]; intros s; [done|]. cbn [encode_elements]. unfold encode_element.
  apply fueled_bind; [fin|intros; apply IH].
Qed.
Lemma fueled_EncodeArray l : fueled (EncodeArray l).
Proof. apply fueled_encode_elements. Qed.
#[local] Hint Resolve fueled_EncodeArray : fueled.

Lemma fueled_arg l i : fueled (arg l i).
Proof. unfold arg. fin. Qed.
Lemma fueled_append w l io : fueled (append_aof w l io).
Proof. unfold append_aof. fin. Qed.
Lemma fueled_replicate w leader op k v ttl : fueled (Handler.replicate w leader op k v ttl).
Proof. unfold Handler.replicate, Leader.Replicate, ReplProtocol.EncodeReplicateCommand. cbv zeta. fin. Qed.
#[local] Hint Resolve fueled_arg fueled_append fueled_replicate : fueled.

Lemma fueled_set_ttl e5 e4 l : fueled (set_ttl e5 e4 l).
Proof. unfold set_ttl. fin. Qed.
Lemma fueled_logged_ttl l : fueled (logged_ttl l).
Proof. unfold logged_ttl. fin. Qed.
#[local] Hint Resolve fueled_set_ttl fueled_logged_ttl : fueled.

Lemma fueled_execute now l c : fueled (execute_command now l c).
Proof.
  unfold execute_command, executeSetCommand, executeGetCommand, executeDeleteCommand, executeDBSizeCommand. fin.
Qed.
Lemma fueled_persist io leader w l : fueled (persist_command io leader w l).
Proof. unfold persist_command. fin. Qed.
#[local] Hint Resolve fueled_execute fueled_persist : fueled.

Lemma fueled_execute_loop clock i q rs c : fueled (execute_loop clock i q rs c).
Proof. revert i rs c. induction q; intros; cbn [execute_loop]; fin. Qed.
Lemma fueled_persist_loop disk leader i q w : fueled (persist_loop disk leader i q w).
Proof. revert i w. induction q; intros; cbn [persist_loop]; fin. Qed.
#[local] Hint Resolve fueled_execute_loop fueled_persist_loop : fueled.

Lemma fueled_Subscribe p c ch : fueled (PubSub.Subscribe p c ch).
Proof. unfold PubSub.Subscribe, PubSub.subscribe_tail. cbv zeta. fin. Qed.
Lemma fueled_Unsubscribe p c ch : fueled (PubSub.Unsubscribe p c ch).
Proof. unfold PubSub.Unsubscribe, PubSub.cleanupConnection, PubSub.close_subscriber. cbv zeta. fin. Qed.
Lemma fueled_Publish p o ch m : fueled (PubSub.Publish p o ch m).
Proof. unfold PubSub.Publish, PubSub.publish_step, PubSub.try_send. fin. Qed.
Lemma fueled_RemoveConnection p o c : fueled (PubSub.RemoveConnection p o c).
Proof. unfold PubSub.RemoveConnection, PubSub.close_subscriber. cbv zeta. fin. Qed.
#[local] Hint Resolve fueled_Subscribe fueled_Unsubscribe fueled_Publish fueled_RemoveConnection : fueled.

Lemma fueled_subscribe_loop w l : fueled (subscribe_loop w l).
Proof. revert w. induction l; intros; cbn [subscribe_loop]; unfold EncodeSubscribeConfirmation; fin. Qed.
Lemma fueled_unsubscribe_one w ch : fueled (unsubscribe_one w ch).
Proof. unfold unsubscribe_one, EncodeUnsubscribeConfirmation. cbv zeta. fin. Qed.
#[local] Hint Resolve fueled_subscribe_loop fueled_unsubscribe_one : fueled.
Lemma fueled_unsubscribe_loop w l : fueled (unsubscribe_loop w l).
Proof. revert w. induction l; intros; cbn [unsubscribe_loop]; fin. Qed.
#[local] Hint Resolve fueled_unsubscribe_loop : fueled.

Section handlers.
Context (cluster : World → list value → outcome World).
Context (cluster_fueled : ∀ w l, fueled (cluster w l)).

Lemma fueled_handle_locally env w command l : fueled (handle_locally cluster env w command l).
Proof.
  unfold handle_locally, handleSet, handleGet, handleDelete, handleDBSize, handleExec, Cache.Set_,
    Cache.Get, Cache.Delete. cbv zeta. fin.
Qed.
#[local] Hint Resolve fueled_handle_locally : fueled.

Lemma fueled_handle_request env w l : fueled (handle_request cluster env w l).
Proof.
  unfold handle_request, transaction_gate, dispatch, route, queueCommandForTransaction, handleSubscribe,
    handleUnsubscribe, handlePublish. cbv zeta. fin.
Qed.

Lemma fueled_serve_loop env fuel i w reader :
  (String.length reader < fuel)%nat → fueled (serve_loop cluster env fuel i w reader).
Proof.
  revert i w reader. induction fuel as [|fuel IH]; intros i w reader Hf; [lia|]. cbn [serve_loop].
  pose proof (Parse_consumes (S (String.length reader)) reader ltac:(lia)) as H.
  change (Parse (S (String.length reader)) reader) with (parse reader) in H.
  destruct (parse reader) as [[[v|e] rest]| | |]; simpl in H; try done.
  cbn [mbind outcome_bind]. destruct v; try done.
  apply fueled_bind; [apply fueled_handle_request|]. intros w'. apply IH. lia.
Qed.
End handlers.

(** One turn of the loop per byte of input is enough, since every turn consumes
    input, whatever the bytes: with a cluster handler that needs no fuel of its own
    the loop never runs out of it.  That it returns, and neither panics nor blocks,
    is proved for typed requests in [TypeSafety]. *)
Theorem handleConnection_fuel cluster env order s c input :
  (∀ w l, fueled (cluster w l)) → fueled (handleConnection cluster env order s c input).
Proof.
  intros Hc. unfold handleConnection. cbv zeta.
  apply fueled_bind; [apply fueled_serve_loop; [done|lia]|].
  intros w. apply fueled_bind; [apply fueled_RemoveConnection|done].
Qed.

Lemma handleConnection_fuel_witness :
  fueled (handleConnection no_cluster demo_env [] demo_server 7 "*1garbage").
Proof. apply (handleConnection_fuel no_cluster demo_env [] demo_server 7 "*1garbage"). done. Defined.

(** Five bytes take the whole server down: an empty (or null) array is a valid
    request for the parser, and the handler reads its first element, which
    panics in every state of the server; the panic is not recovered. *)
Theorem empty_request_panics cluster env order s c rest :
  handleConnection cluster env order s c ("*0" +:+ CRLF +:+ rest) = Panic ∧
  handleConnection cluster env order s c ("*-1" +:+ CRLF +:+ rest) = Panic.
Proof. done. Qed.

(** ** Subscriber mode *)

(** A connection in subscriber mode cannot read or write data: any command
    outside SUBSCRIBE, UNSUBSCRIBE, PSUBSCRIBE, PUNSUBSCRIBE, PING and QUIT is
    answered with one error and changes neither the server (but for the request
    timer) nor the connection's state. *)
Theorem subscriber_mode_restricts cluster env w command args :
  subscriberMode (state w) = true → subscriber_allowed command = false →
  ∃ e, handle_request cluster env w (command :: args) = Ret (observe (reply w (EncodeError e))).
Proof.
  intros Hs Ha. eexists. unfold handle_request.
  cbn [lookup list_lookup or_panic mbind outcome_bind]. rewrite Hs, Ha. reflexivity.
Qed.

Definition subscriber_world : World := mkWorld demo_server 7 (mkConnState true false [] None) "".

Lemma subscriber_mode_restricts_witness :
  ∃ e, handle_request no_cluster (demo_env 0) subscriber_world [VStr "GET"; VStr "k"] =
    Ret (observe (reply subscriber_world (EncodeError e))).
Proof.
  by apply (subscriber_mode_restricts no_cluster (demo_env 0) subscriber_world (VStr "GET") [VStr "k"]).
Defined.

(** ** The transaction state *)

Definition tx (w : World) : bool * list (list value) * option string :=
  (inTransaction (state w), commandQueue (state w), transactionError (state w)).

(** Outside a transaction nothing is queued and no error is pending. *)
Definition tx_clean (w : World) : Prop := inTransaction (state w) = false → tx w = (false, [], None).

(** [m] leaves the transaction state of [w] alone. *)
Definition keeps_tx (w : World) (m : outcome World) : Prop := ∀ w', m = Ret w' → tx w' = tx w.

Lemma keeps_ret w w' : tx w' = tx w → keeps_tx w (mret w').
Proof. by intros H w'' [= <-]. Qed.

Lemma keeps_bind {A} w (m : outcome A) (f : A → outcome World) :
  (∀ a, keeps_tx w (f a)) → keeps_tx w (m ≫= f).
Proof. intros Hf w' H. inv_ret. by eapply Hf. Qed.

Lemma keeps_seq w m f :
  keeps_tx w m → (∀ w1, tx w1 = tx w → keeps_tx w1 (f w1)) → keeps_tx w (m ≫= f).
Proof. intros Hm Hf w' H. inv_ret. rewrite (Hf r (Hm r E) w' H). by apply Hm. Qed.

Ltac keeps_step :=
  match goal with
  | |- keeps_tx _ (mret _) => apply keeps_ret
  | |- keeps_tx _ Panic => intros ? [=]
  | |- keeps_tx _ (let '_ := ?x in _) => destruct x
  | |- keeps_tx _ (match ?x with _ => _ end) => destruct x
  | |- keeps_tx _ _ => solve [auto with keeps nocore]
  | |- keeps_tx _ (?m ≫= _) =>
      lazymatch type of m with
      | outcome World => apply keeps_seq; [|intros ? ?]
      | _ => apply keeps_bind; intros
      end
  | |- tx _ = tx _ => first [done | assumption]
  end.
Ltac keeps := repeat keeps_step.
Create HintDb keeps.
#[local] Hint Extern 1 (tx _ = tx _) => (reflexivity || assumption || (etransitivity; eassumption)) : keeps.

Lemma keeps_replicate w0 w leader op k v ttl :
  tx w = tx w0 → keeps_tx w0 (Handler.replicate w leader op k v ttl).
Proof. intros H. unfold Handler.replicate. keeps. Qed.
Lemma keeps_append w0 w l io : tx w = tx w0 → keeps_tx w0 (append_aof w l io).
Proof. intros H. unfold append_aof. keeps. Qed.
#[local] Hint Resolve keeps_replicate keeps_append : keeps.

Lemma keeps_handleSet env w l leader : keeps_tx w (handleSet env w l leader).
Proof. unfold handleSet. cbv zeta. keeps. Qed.
Lemma keeps_handleDelete env w l leader : keeps_tx w (handleDelete env w l leader).
Proof. unfold handleDelete. cbv zeta. keeps. Qed.
Lemma keeps_handleGet env w l : keeps_tx w (handleGet env w l).
Proof. unfold handleGet. keeps. Qed.
Lemma keeps_handleDBSize w : keeps_tx w (handleDBSize w).
Proof. unfold handleDBSize. keeps. Qed.
Lemma keeps_handlePublish env w l : keeps_tx w (handlePublish env w l).
Proof. unfold handlePublish. keeps. Qed.
#[local] Hint Resolve keeps_handleSet keeps_handleDelete keeps_handleGet keeps_handleDBSize keeps_handlePublish : keeps.

Lemma keeps_subscribe_loop w l b w' : subscribe_loop w l = Ret (b, w') → tx w' = tx w.
Proof.
  revert w. induction l as [|v l IH]; intros w; cbn [subscribe_loop]; [by intros [= _ <-]|].
  destruct (str_of v); [|by intros [= _ <-]]. intros H. inv_ret. by apply IH in H.
Qed.
Lemma keeps_unsubscribe_one w ch : keeps_tx w (unsubscribe_one w ch).
Proof. unfold unsubscribe_one. cbv zeta. keeps. Qed.
Lemma keeps_unsubscribe_loop w l b w' : unsubscribe_loop w l = Ret (b, w') → tx w' = tx w.
Proof.
  revert w. induction l as [|v l IH]; intros w; cbn [unsubscribe_loop]; [by intros [= _ <-]|].
  destruct (str_of v); [|by intros [= _ <-]]. intros H. inv_ret. apply IH in H.
  rewrite H. by eapply keeps_unsubscribe_one.
Qed.
Lemma keeps_unsubscribe_all w l : keeps_tx w (for_each unsubscribe_one w l).
Proof.
  revert w. induction l as [|ch l IH]; intros w; cbn [for_each]; [by apply keeps_ret|].
  apply keeps_seq; [apply keeps_unsubscribe_one|]. intros w1 _. apply IH.
Qed.

Lemma keeps_handleSubscribe w l : keeps_tx w (handleSubscribe w l).
Proof.
  unfold handleSubscribe. case_match; [by apply keeps_ret|]. intros w' H'. inv_ret. destruct r as [b w1].
  apply keeps_subscribe_loop in E. by destruct b; injection H' as <-.
Qed.
Lemma keeps_handleUnsubscribe env w l : keeps_tx w (handleUnsubscribe env w l).
Proof.
  unfold handleUnsubscribe. cbv zeta. case_match.
  - apply keeps_seq; [apply keeps_unsubscribe_all|]. intros. by apply keeps_ret.
  - intros w' H'. inv_ret. destruct r as [b w1]. apply keeps_unsubscribe_loop in E.
    by destruct (b && _); injection H' as <-.
Qed.
#[local] Hint Resolve keeps_handleSubscribe keeps_handleUnsubscribe : keeps.

(** The transaction commands. *)
Lemma handleMulti_tx w : tx_clean w → tx_clean (handleMulti w).
Proof. unfold handleMulti. intros Hc. destruct (inTransaction (state w)); [exact Hc|intros [=]]. Qed.
Lemma handleDiscard_tx w : tx_clean w → tx (handleDiscard w) = (false, [], None).
Proof. unfold handleDiscard, tx_clean. destruct (inTransaction (state w)) eqn:E; cbn [negb]; [done|]. auto. Qed.
Lemma handleExec_tx env w leader w' :
  tx_clean w → handleExec env w leader = Ret w' → tx w' = (false, [], None).
Proof.
  unfold handleExec, tx_clean. destruct (inTransaction (state w)) eqn:E; cbn [negb].
  - intros _ H. destruct (transactionError (state w)); inv_ret; [done|]. destruct r0. by inv_ret.
  - intros Hc [= <-]. by apply Hc.
Qed.
Lemma queue_tx w l w' : inTransaction (state w) = true → queueCommandForTransaction w l = Ret w' →
  inTransaction (state w') = true.
Proof.
  intros Ht. unfold queueCommandForTransaction. destruct (transactionError (state w)); [by intros [= <-]|].
  intros H. inv_ret. by destruct (validation_error _ _).
Qed.

Lemma keeps_clean w m w' : keeps_tx w m → m = Ret w' → tx_clean w → tx_clean w'.
Proof.
  intros Hk Hm Hc Hi. apply Hk in Hm. rewrite Hm. apply Hc. unfold tx in Hm. congruence.
Qed.

Section clean.
Context (cluster : World → list value → outcome World).
Context (cluster_keeps : ∀ w l, keeps_tx w (cluster w l)).

Lemma handle_locally_clean env w command l w' :
  tx_clean w → handle_locally cluster env w command l = Ret w' → tx_clean w'.
Proof.
  intros Hc. unfold handle_locally. cbv zeta.
  repeat case_match; intros Hw;
    try (eapply keeps_clean; [|exact Hw|exact Hc]; auto with keeps; keeps; done).
  - injection Hw as <-. by apply handleMulti_tx.
  - intros _. by eapply handleExec_tx.
  - injection Hw as <-. intros _. by apply handleDiscard_tx.
Qed.

Lemma dispatch_clean env w command l w' :
  tx_clean w → dispatch cluster env w command l = Ret w' → tx_clean w'.
Proof.
  intros Hc. unfold dispatch. repeat case_match; intros Hw;
    try (eapply keeps_clean; [|exact Hw|exact Hc]; auto with keeps; done).
  unfold route in Hw. inv_ret.
  destruct (NodeState.ns_IsClusterMode _ && _); [|by eapply handle_locally_clean].
  destruct (NodeState.ShouldForwardRequest _ _ _) as [[fwd id] addr].
  destruct fwd; [by injection Hw as <-|by eapply handle_locally_clean].
Qed.

Lemma handle_request_clean env w l w' :
  tx_clean w → handle_request cluster env w l = Ret w' → tx_clean w'.
Proof.
  intros Hc Hw. unfold handle_request in Hw. inv_ret. cut (tx_clean r0); [done|].
  destruct (subscriberMode (state w) && _); [by injection E0 as <-|]. unfold transaction_gate in E0.
  destruct (str_of r) as [name|]; [|by eapply dispatch_clean].
  destruct (inTransaction (state w)) eqn:Ht; [|by eapply dispatch_clean].
  destruct (bool_decide _); [by eapply dispatch_clean|].
  destruct (canQueueCommand name); [|by injection E0 as <-].
  intros Hf. apply queue_tx in E0; [|done]. congruence.
Qed.
End clean.

(** A connection outside a transaction has nothing queued and no error
    pending, after any sequence of requests: what one transaction queued, or the
    error that poisoned it, can never leak into the next one. *)
Theorem transaction_state_clean cluster env ls w w' :
  (∀ w l, keeps_tx w (cluster w l)) → state w = new_state →
  for_each (handle_request cluster env) w ls = Ret w' → inTransaction (state w') = false →
  commandQueue (state w') = [] ∧ transactionError (state w') = None.
Proof.
  intros Hk Hs Hrun Hf. cut (tx_clean w').
  { intros Hc. specialize (Hc Hf). unfold tx in Hc. by simplify_eq. }
  assert (tx_clean w) as Hc by (unfold tx_clean, tx; by rewrite Hs). clear Hs Hf.
  revert w Hc Hrun. induction ls as [|l ls IH]; intros w Hc Hrun; cbn [for_each] in Hrun; inv_ret; [done|].
  eapply IH; [|exact Hrun]. by eapply handle_request_clean.
Qed.

(** An aborted transaction leaves the connection clean. *)
Definition aborted_session : list (list value) :=
  [[VStr "MULTI"]; [VStr "GET"]; [VStr "SET"; VStr "k"; VStr "v"]; [VStr "EXEC"]].

Definition aborted_world : World :=
  match for_each (handle_request no_cluster (demo_env 0)) (mkWorld demo_server 7 new_state "") aborted_session
  with Ret w => w | _ => mkWorld demo_server 7 new_state "" end.

Lemma transaction_state_clean_witness :
  commandQueue (state aborted_world) = [] ∧ transactionError (state aborted_world) = None.
Proof.
  apply (transaction_state_clean no_cluster (demo_env 0) aborted_session (mkWorld demo_server 7 new_state "")).
  - by intros w l w' [= <-].
  - done.
  - by vm_compute.
  - by vm_compute.
Defined.
End Connection.
