(* ===== verification/Network.v ===== *)
(** * The network, as the code that opens connections sees it

    The operating system's network is not part of the program: it is an instance
    of [Network] over some state.  [dial] opens a connection to an address;
    [exchange] writes a request on the connection to an address and gives the
    bytes that arrive in answer before the reader gives up, or the error of the
    write.  The client library, the key transfer and the cluster commands are
    written against this interface; [ClientServer.servers] implements it with the
    connection loop of the server. *)

From S2P Require Import Prelude.

Class Network (N : Type) := {
  dial : N → string → gres string () * N;
  exchange : N → string → string → outcome (gres string string * N)
}.

(** A network in which no one answers. *)
Definition no_network : Network () := {|
  dial _ _ := (GErr "connection refused", ());
  exchange _ _ _ := mret (GErr "broken pipe", ())
|}.
