(* ===== verification/Client.v ===== *)
(** * pkg/client/client.go: the client library

    Over any network; ClientServer instantiates it with the servers of this
    program. *)

From S2P Require Import Prelude GoStd Resp Network.
Local Open Scope Z_scope.

Module Client.

Definition MaxRedirects : nat := 5.

(** The connection: where it goes, the bytes received but not yet read, whether it
    was closed, and the error that its buffered writer keeps for ever after. *)
Record Client := mkConn {
  c_addr : string;
  c_reader : string;
  c_closed : bool;
  c_writeErr : option string
}.

(** A connection in order. *)
Abbreviation mkClient address reader := (mkConn address reader false None).

Definition Close (c : Client) : Client := mkConn (c_addr c) (c_reader c) true (c_writeErr c).

(** [%v] of a reply value. *)
Fixpoint format_v (v : value) : string :=
  match v with
  | VStr s => s
  | VInt n | VInt64 n => Itoa n
  | VSlice l =>
      "[" +:+ match l with
              | [] => ""
              | v :: l => format_v v +:+ foldr (λ v s, " " +:+ format_v v +:+ s) "" l
              end +:+ "]"
  | VNil => "<nil>"
  end.

Definition parse_error (e : perr) : string :=
  match e with EOF => "EOF" | UnexpectedEOF => "unexpected EOF" | ErrMsg m => m end.

(** The switch on the reply's type: an [int64] would be framed, but the parser
    produces [int], which takes the default branch. *)
Definition response_string (v : value) : string :=
  match v with
  | VStr s => s
  | VInt64 n => ":" +:+ Itoa n +:+ CRLF
  | _ => format_v v
  end.

Definition readResponse (c : Client) : outcome (gres perr string * Client) :=
  '(result, rest) ← parse (c_reader c);
  mret (match result with GErr e => GErr e | GOk v => GOk (response_string v) end,
        mkConn (c_addr c) rest (c_closed c) (c_writeErr c)).

Section network.
Context {N : Type} `{!Network N}.

Definition NewClient (n : N) (address : string) : gres string Client * N :=
  match dial n address with
  | (GErr e, n) => (GErr ("failed to connect: " +:+ e), n)
  | (GOk _, n) => (GOk (mkClient address ""), n)
  end.

Abbreviation step A := (outcome (gres string A * Client * N)).

(** [writer.WriteString] and [writer.Flush] of a command, and
    the bytes that arrive in answer.  A command that fits the buffer of 4096 bytes
    meets the connection in Flush. *)
Definition send_on (write_failed flush_failed : string) (data : string) (c : Client) (n : N) : step () :=
  match c_writeErr c with
  | Some e => mret (GErr (write_failed +:+ e), c, n)
  | None =>
      '(sent, n) ← (if c_closed c then mret (GErr "use of closed network connection", n)
                    else exchange n (c_addr c) data);
      mret match sent with
      | GErr e =>
          (GErr ((if slen data <=? 4096 then flush_failed else write_failed) +:+ e),
           mkConn (c_addr c) (c_reader c) (c_closed c) (Some e), n)
      | GOk bytes => (GOk (), mkClient (c_addr c) (c_reader c +:+ bytes), n)
      end
  end.

(** The loop of [executeCommandWithRedirect], with the redirects still allowed. *)
Fixpoint redirect_loop (more : nat) (command : list value) (c : Client) (n : N) : step string :=
  match more with
  | O => mret (GErr ("too many redirects (" +:+ Itoa (Z.of_nat MaxRedirects) +:+ ")"), c, n)
  | S more =>
      encoded ← EncodeArray command;
      '(sent, c, n) ← send_on "failed to write command: " "failed to flush: " encoded c n;
      match sent with
      | GErr e => mret (GErr e, c, n)
      | GOk _ =>
          '(response, c) ← readResponse c;
          match response with
          | GErr e => mret (GErr ("failed to read response: " +:+ parse_error e), c, n)
          | GOk response =>
              if IsRedirect response then
                match ParseRedirect response with
                | GErr e => mret (GErr ("failed to parse redirect: " +:+ e), c, n)
                | GOk redirect =>
                    let c := Close c in
                    match dial n (Address redirect) with
                    | (GErr e, n) => mret (GErr ("failed to connect to leader: " +:+ e), c, n)
                    | (GOk _, n) => redirect_loop more command (mkClient (Address redirect) "") n
                    end
                end
              else mret (GOk response, c, n)
          end
      end
  end.

Definition executeCommandWithRedirect (command : list value) (c : Client) (n : N) : step string :=
  redirect_loop MaxRedirects command c n.

(** A command whose reply must be one of [accepted]. *)
Definition expect_reply (accepted : list string) (prefix unexpected : string) (command : list value)
    (c : Client) (n : N) : step () :=
  '(response, c, n) ← executeCommandWithRedirect command c n;
  mret (match response with
        | GErr e => GErr (prefix +:+ e)
        | GOk r => if bool_decide (r ∈ accepted) then GOk () else GErr (unexpected +:+ r)
        end, c, n).

Definition Set_ (key value : string) : Client → N → step () :=
  expect_reply ["OK"] "" "unexpected response: " [VStr "SET"; VStr key; VStr value].

Definition SetWithTTL (key value : string) (ttl : Z) : Client → N → step () :=
  expect_reply ["OK"] "" "unexpected response: " [VStr "SET"; VStr key; VStr value; VStr (Itoa ttl)].

Definition Get (key : string) : Client → N → step string :=
  executeCommandWithRedirect [VStr "GET"; VStr key].

Definition Delete (key : string) : Client → N → step () :=
  expect_reply ["OK"; ":1" +:+ CRLF; "1"] "" "unexpected response: " [VStr "DEL"; VStr key].

Definition Multi : Client → N → step () :=
  expect_reply ["OK"] "MULTI failed: " "MULTI failed: " [VStr "MULTI"].

Definition Discard : Client → N → step () :=
  expect_reply ["OK"] "DISCARD failed: " "DISCARD failed: " [VStr "DISCARD"].

(** One element of the reply to EXEC. *)
Definition exec_element (v : value) : string :=
  match v with
  | VStr s => s
  | VInt64 n => Itoa n
  | VNil => "(nil)"
  | v => format_v v
  end.

Definition type_name (v : value) : string :=
  match v with
  | VStr _ => "string" | VInt _ => "int" | VInt64 _ => "int64"
  | VSlice _ => "[]interface {}" | VNil => "<nil>"
  end.

Definition Exec (c : Client) (n : N) : step (list string) :=
  command ← EncodeArray [VStr "EXEC"];
  '(sent, c, n) ← send_on "failed to write EXEC: " "failed to flush EXEC: " command c n;
  match sent with
  | GErr e => mret (GErr e, c, n)
  | GOk _ =>
      '(result, rest) ← parse (c_reader c);
      let c := mkConn (c_addr c) rest (c_closed c) (c_writeErr c) in
      mret match result with
      | GErr e => (GErr ("failed to read EXEC response: " +:+ parse_error e), c, n)
      | GOk (VSlice resultArray) => (GOk (exec_element <$> resultArray), c, n)
      | GOk v =>
          if HasPrefix (match v with VStr s => s | _ => "" end) "-"
          then (GErr ("EXEC error: " +:+ format_v v), c, n)
          else (GErr ("unexpected EXEC response type: " +:+ type_name v), c, n)
      end
  end.

(** ** The transaction pipeline *)

Record TransactionPipeline := mkPipe { commands : list (list value); started : bool }.

Definition NewTransaction : TransactionPipeline := mkPipe [] false.
Definition tp_Set (tp : TransactionPipeline) (key value : string) : TransactionPipeline :=
  mkPipe (commands tp ++ [[VStr "SET"; VStr key; VStr value]]) (started tp).
Definition tp_SetWithTTL (tp : TransactionPipeline) (key value : string) (ttl : Z) : TransactionPipeline :=
  mkPipe (commands tp ++ [[VStr "SET"; VStr key; VStr value; VStr (Itoa ttl)]]) (started tp).
Definition tp_Get (tp : TransactionPipeline) (key : string) : TransactionPipeline :=
  mkPipe (commands tp ++ [[VStr "GET"; VStr key]]) (started tp).
Definition tp_Del (tp : TransactionPipeline) (key : string) : TransactionPipeline :=
  mkPipe (commands tp ++ [[VStr "DEL"; VStr key]]) (started tp).

(** The loop that sends the queued commands. *)
Fixpoint send_queued (cmds : list (list value)) (c : Client) (n : N) : step () :=
  match cmds with
  | [] => mret (GOk (), c, n)
  | cmd :: cmds =>
      '(response, c, n) ← executeCommandWithRedirect cmd c n;
      match response with
      | GErr e =>
          '(_, c, n) ← Discard c n;
          mret (GErr ("command failed during transaction: " +:+ e), c, n)
      | GOk r =>
          if bool_decide (r = "QUEUED") then send_queued cmds c n
          else
            '(_, c, n) ← Discard c n;
            mret (GErr ("command rejected during transaction: " +:+ r), c, n)
      end
  end.

Definition Execute (tp : TransactionPipeline) (c : Client) (n : N) :
    outcome (gres string (list string) * TransactionPipeline * Client * N) :=
  '(multi, c, n) ← Multi c n;
  match multi with
  | GErr e => mret (GErr ("failed to start transaction: " +:+ e), tp, c, n)
  | GOk _ =>
      let tp := mkPipe (commands tp) true in
      '(queued, c, n) ← send_queued (commands tp) c n;
      match queued with
      | GErr e => mret (GErr e, tp, c, n)
      | GOk _ =>
          '(results, c, n) ← Exec c n;
          mret (match results with GErr e => GErr ("EXEC failed: " +:+ e) | GOk r => GOk r end, tp, c, n)
      end
  end.

Definition Cancel (tp : TransactionPipeline) (c : Client) (n : N) : step () :=
  if started tp then Discard c n else mret (GOk (), c, n).

(** [SendCommand]: no redirects. *)
Definition SendCommand (args : list string) (c : Client) (n : N) : step string :=
  cmd ← EncodeArray (VStr <$> args);
  '(sent, c, n) ← send_on "failed to write command: " "failed to flush: " cmd c n;
  match sent with
  | GErr e => mret (GErr e, c, n)
  | GOk _ =>
      '(response, rest) ← parse (c_reader c);
      let c := mkConn (c_addr c) rest (c_closed c) (c_writeErr c) in
      mret match response with
      | GErr e => (GErr ("failed to read response: " +:+ parse_error e), c, n)
      | GOk v => (GOk (format_v v), c, n)
      end
  end.

(** ** Following redirects *)

(** A connection that takes commands. *)
Definition usable (c : Client) : Prop := c_closed c = false ∧ c_writeErr c = None.

Lemma send_on_ok wf ff c n enc bytes n' :
  usable c → exchange n (c_addr c) enc = Ret (GOk bytes, n') →
  send_on wf ff enc c n = Ret (GOk (), mkClient (c_addr c) (c_reader c +:+ bytes), n').
Proof. intros [Ho He] Hx. unfold send_on. rewrite He, Ho, Hx. done. Qed.

(** The answer to [command] is read and is no redirect. *)
Lemma redirect_loop_direct more command c n enc bytes v rest n' :
  usable c → EncodeArray command = Ret enc → exchange n (c_addr c) enc = Ret (GOk bytes, n') →
  parse (c_reader c +:+ bytes) = Ret (GOk v, rest) → IsRedirect (response_string v) = false →
  redirect_loop (S more) command c n = Ret (GOk (response_string v), mkClient (c_addr c) rest, n').
Proof.
  intros Hu He Hx Hp Hr. cbn [redirect_loop]. rewrite He. cbn [mbind outcome_bind].
  rewrite (send_on_ok _ _ _ _ _ _ _ Hu Hx). cbn [mbind outcome_bind]. unfold readResponse.
  cbn [c_reader c_addr c_closed c_writeErr]. rewrite Hp. cbn [mbind outcome_bind mret outcome_ret]. by rewrite Hr.
Qed.

(** [command] sent on [c] is answered with a redirect to [addr], which can be
    dialled. *)
Definition redirected (command : list value) (c : Client) (n : N) (addr : string) (n' : N) : Prop :=
  ∃ enc bytes response rest redirect n1, usable c ∧
    EncodeArray command = Ret enc ∧ exchange n (c_addr c) enc = Ret (GOk bytes, n1) ∧
    parse (c_reader c +:+ bytes) = Ret (GOk (VStr response), rest) ∧ IsRedirect response = true ∧
    ParseRedirect response = GOk redirect ∧ Address redirect = addr ∧ dial n1 addr = (GOk (), n').

(** [hops] redirects in a row. *)
Inductive redirect_chain (command : list value) : nat → Client → N → Client → N → Prop :=
| chain_here c n : redirect_chain command 0 c n c n
| chain_hop k c n addr n1 c' n' :
    redirected command c n addr n1 → redirect_chain command k (mkClient addr "") n1 c' n' →
    redirect_chain command (S k) c n c' n'.

Lemma redirect_loop_hop more command c n addr n' :
  redirected command c n addr n' →
  redirect_loop (S more) command c n = redirect_loop more command (mkClient addr "") n'.
Proof.
  intros (enc & bytes & response & rest & redirect & n1 & Hu & He & Hx & Hp & Hr & Hpr & <- & Hd).
  cbn [redirect_loop]. rewrite He. cbn [mbind outcome_bind]. rewrite (send_on_ok _ _ _ _ _ _ _ Hu Hx).
  cbn [mbind outcome_bind]. unfold readResponse. cbn [c_reader c_addr]. rewrite Hp.
  cbn [mbind outcome_bind mret outcome_ret response_string]. by rewrite Hr, Hpr, Hd.
Qed.

Lemma redirect_loop_chain command k c n c' n' more :
  redirect_chain command k c n c' n' →
  redirect_loop (k + more) command c n = redirect_loop more command c' n'.
Proof.
  induction 1 as [|k c n addr n1 c' n' Hop _ IH]; [done|].
  cbn [Nat.add]. by rewrite (redirect_loop_hop _ _ _ _ _ _ Hop).
Qed.

(** C32. Redirects are followed, and only so far: when the first [k] nodes answer a
    command with a redirect, the client sends it to each of them in turn; with
    fewer than five redirects it returns the reply of the last node and stays
    connected to it, and after the fifth it gives up with an error, without
    sending the command again. *)
Theorem redirects_followed command k c n c' n' :
  redirect_chain command k c n c' n' →
  (k < MaxRedirects → ∀ enc bytes v rest n'',
     usable c' → EncodeArray command = Ret enc → exchange n' (c_addr c') enc = Ret (GOk bytes, n'') →
     parse (c_reader c' +:+ bytes) = Ret (GOk v, rest) → IsRedirect (response_string v) = false →
     executeCommandWithRedirect command c n =
       Ret (GOk (response_string v), mkClient (c_addr c') rest, n''))%nat ∧
  (k = MaxRedirects →
     executeCommandWithRedirect command c n = Ret (GErr "too many redirects (5)", c', n')).
Proof.
  intros Hch. unfold executeCommandWithRedirect. split.
  - intros Hk enc bytes v rest n'' Hu He Hx Hp Hr.
    replace MaxRedirects with (k + S (MaxRedirects - k - 1))%nat by (unfold MaxRedirects in *; lia).
    rewrite (redirect_loop_chain _ _ _ _ _ _ _ Hch). by eapply redirect_loop_direct.
  - intros ->. rewrite <-(Nat.add_0_r MaxRedirects).
    by rewrite (redirect_loop_chain _ _ _ _ _ _ 0 Hch).
Qed.
End network.

(** A network of two servers: "a:1" sends every client to "b:2". *)
Definition demo_network : Network () := {|
  dial _ _ := (GOk (), ());
  exchange _ addr _ :=
    mret (GOk (if decide (addr = "a:1") then EncodeRedirect "b" 2 else EncodeSimpleString "OK"), ())
|}.

Definition demo_command : list value := [VStr "GET"; VStr "k"].
Definition demo_bytes : string := match EncodeArray demo_command with Ret e => e | _ => "" end.

Lemma demo_chain :
  @redirect_chain () demo_network demo_command 1 (mkClient "a:1" "") () (mkClient "b:2" "") ().
Proof.
  apply (@chain_hop () demo_network _ _ _ _ "b:2" ()); [|apply chain_here].
  exists demo_bytes, (EncodeRedirect "b" 2), "MOVED b:2", "", {| LeaderHost := "b"; LeaderPort := "2" |}, ().
  split_and!; try done; by vm_compute.
Qed.

Lemma redirects_followed_witness :
  @executeCommandWithRedirect () demo_network demo_command (mkClient "a:1" "") () =
    Ret (GOk "OK", mkClient "b:2" "", ()).
Proof.
  apply (proj1 (@redirects_followed () demo_network demo_command 1 _ _ _ _ demo_chain)
    ltac:(unfold MaxRedirects; lia) demo_bytes (EncodeSimpleString "OK") (VStr "OK") "" ()); try done; by vm_compute.
Defined.

(** A redirect to a node that cannot be reached breaks the client for good: the old
    connection is closed before the new one is dialled, so every later command
    fails, although the node it was connected to is up. *)
Theorem failed_redirect_breaks_client {N : Type} `{!Network N} command more c n addr n1 n2 e enc bytes response rest redirect :
  usable c → EncodeArray command = Ret enc → exchange n (c_addr c) enc = Ret (GOk bytes, n1) →
  parse (c_reader c +:+ bytes) = Ret (GOk (VStr response), rest) → IsRedirect response = true →
  ParseRedirect response = GOk redirect → Address redirect = addr → dial n1 addr = (GErr e, n2) →
  ∃ c', redirect_loop (S more) command c n = Ret (GErr ("failed to connect to leader: " +:+ e), c', n2) ∧
    c_closed c' = true ∧
    ∀ command' enc' n', EncodeArray command' = Ret enc' →
      ∃ e' c'', executeCommandWithRedirect command' c' n' = Ret (GErr e', c'', n').
Proof.
  intros Hu He Hx Hp Hr Hpr <- Hd. exists (mkConn (c_addr c) rest true None). split_and!; [|done|].
  - cbn [redirect_loop]. rewrite He. cbn [mbind outcome_bind]. rewrite (send_on_ok _ _ _ _ _ _ _ Hu Hx).
    cbn [mbind outcome_bind]. unfold readResponse. cbn [c_reader c_addr]. rewrite Hp.
    cbn [mbind outcome_bind mret outcome_ret response_string]. by rewrite Hr, Hpr, Hd.
  - intros command' enc' n' He'. unfold executeCommandWithRedirect, MaxRedirects. cbn [redirect_loop].
    rewrite He'. cbn [mbind outcome_bind]. unfold send_on. cbn. eauto.
Qed.
End Client.
