(* ===== verification/ClientServer.v ===== *)
(** * A client against the servers of this program

    The network interface of the client library, implemented by the connection
    loop of the server: every flushed request is run by [serve_loop] on the state
    the connection was left in, and what the server wrote is what the client
    reads.  One client is connected to one node at a time. *)

From S2P Require Import Prelude GoStd Lru Metrics Cache CacheSpec CacheTrace Resp HashRing PubSub.
From S2P Require Import ReplProtocol Config NodeState Persistence Leader Handler HandlerSpec Transactions Network Client.
Import Handler HandlerSpec.
Import Persistence(io_ok, file, encode_log).
Import Client(Client, mkConn, mkClient, c_addr, c_reader, response_string, exec_element).
Local Open Scope Z_scope.

Module ClientServer.

(** The nodes by address, and the number of requests served so far. *)
Record Net := mkNet { nodes : gmap string World; tick : nat }.

(** A new connection to a node. *)
Definition accept (w : World) : World :=
  with_cache (mkWorld (srv w) (conn w) new_state "")
    (Cache.with_metrics (cache (srv w)) IncrementActiveConnections).

(** What was written has been read. *)
Definition drained (w : World) : World := mkWorld (srv w) (conn w) (state w) "".

(** ** Replies as the client reads them *)

Definition answer_value (now : Z) (r : request) (es : list entry) : value :=
  match r with
  | RSet _ _ _ => VStr "OK"
  | RGet k => VStr (default "" (spec_get k now es).1)
  | RDel _ => VInt 1
  | RPing => VStr "PONG"
  end.

Definition all_values (P : string → Prop) (es : list entry) : Prop := Forall (λ e, P e.2.1) es.
Definition new_value (P : string → Prop) (r : request) : Prop :=
  match r with RSet _ v _ => P v | _ => True end.

(** A reply and the value the parser makes of it. *)
Definition reply_of (a : string) (v : value) : Prop :=
  (0 < String.length a)%nat ∧ ∀ fuel rest, Parse (S fuel) (a +:+ rest) = Ret (GOk v, rest).

Lemma spec_find_values P k es e : all_values P es → spec_find k es = Some e → P e.2.1.
Proof. induction 1 as [|e' es He _ IH]; cbn; [done|]. case_decide; [by intros [= <-]|done]. Qed.

Lemma removelast_Forall {A} (P : A → Prop) l : Forall P l → Forall P (removelast l).
Proof.
  induction 1 as [|x l Hx Hl IH]; [done|]. destruct l; [done|]. by apply Forall_cons_2.
Qed.

Lemma spec_request_values P cap now r es :
  all_values P es → new_value P r → all_values P (spec_request cap now r es).2.
Proof.
  intros He Hr. assert (∀ k, all_values P (spec_del k es)) as Hd 
    by (intros; apply Forall_forall; intros e [_ ?]%list_elem_of_filter; by eapply Forall_forall in He).
  destruct r as [k v t|k|k|]; cbn [spec_request snd].
  - apply Forall_cons_2; [done|]. destruct (spec_find k es); [apply Hd|].
    case_match; [by apply removelast_Forall|done].
  - unfold spec_get. destruct (spec_find k es) eqn:E; [|done]. case_decide; [|done].
    apply Forall_cons_2; [by eapply spec_find_values|apply Hd].
  - apply Hd.
  - done.
Qed.

Lemma get_values P k now es :
  P "" → all_values P es → P (default "" (spec_get k now es).1).
Proof.
  intros H0 He. unfold spec_get. destruct (spec_find k es) eqn:E; [|done]. case_decide; [|done].
  by eapply spec_find_values.
Qed.

Lemma answer_reply cap now r es :
  all_values (λ v, slen v ≤ maxAlloc) es → reply_of (spec_request cap now r es).1 (answer_value now r es).
Proof.
  intros He. destruct r as [k v t|k|k|]; cbn [spec_request fst answer_value].
  - split; [cbn; lia|]. intros. by apply Parse_line_replies.
  - pose proof (get_values (λ v, slen v ≤ maxAlloc) k now es ltac:(by vm_compute) He) as Hv.
    destruct (spec_get k now es) as [[v|] es']; cbn [fst default from_option id] in *.
    + split; [unfold EncodeBulkString; cbn; lia|]. intros. by apply Parse_bulk.
    + split; [cbn; lia|]. intros. apply Parse_null_bulk.
  - split; [cbn; lia|]. intros fuel rest. apply (Parse_integer fuel 1 rest). by vm_compute.
  - split; [cbn; lia|]. intros. by apply Parse_line_replies.
Qed.

(** The array EXEC answers with. *)
Lemma replies_parsed answers vs g k acc rest :
  Forall2 reply_of answers vs → (length answers ≤ k)%nat →
  parse_elements (Parse (S g)) k (Z.of_nat (length answers)) acc (concat_strings answers +:+ rest)
  = Ret (GOk (acc ++ vs), rest).
Proof.
  intros Hf. revert k acc. induction Hf as [|a v answers vs [_ Ha] _ IH]; intros k acc Hk.
  { destruct k; cbn; by rewrite app_nil_r. }
  cbn [length] in *. destruct k as [|k]; [lia|]. cbn [parse_elements concat_strings foldr].
  destruct (Z.leb_spec (Z.of_nat (S (length answers))) 0); [lia|].
  fold (concat_strings answers). rewrite <-string_app_assoc, Ha. cbn [mbind outcome_bind].
  replace (Z.of_nat (S (length answers)) - 1) with (Z.of_nat (length answers)) by lia.
  rewrite IH by lia. by rewrite <-(assoc_L (++)).
Qed.

Lemma replies_length answers vs :
  Forall2 reply_of answers vs → (length answers ≤ String.length (concat_strings answers))%nat.
Proof.
  induction 1 as [|a v answers vs [Ha _] _ IH]; [done|]. cbn [length concat_strings foldr].
  fold (concat_strings answers). rewrite slength_app. lia.
Qed.

Lemma exec_reply_parsed answers vs rest :
  Forall2 reply_of answers vs → 16 * Z.of_nat (length answers) ≤ maxAlloc →
  parse (Transactions.exec_reply answers +:+ rest) = Ret (GOk (VSlice vs), rest).
Proof.
  intros Hf Hlen. pose proof (replies_length _ _ Hf) as Hl.
  unfold parse, Transactions.exec_reply. rewrite <-!string_app_assoc. change ("*" +:+ ?x) with (String "*" x).
  cbn [String.length]. rewrite (proj2 (proj2 (proj2 (proj2 (Parse_dispatch _ _))))). unfold parseArray.
  rewrite readLine_crlf by apply Itoa_no_LF.
  rewrite Atoi_Itoa by (unfold int64_range, two63, maxAlloc in *; lia).
  destruct (Z.eqb_spec (Z.of_nat (length answers)) (-1)); [lia|].
  rewrite make_slice_ok by lia. cbn [mbind outcome_bind].
  by rewrite (replies_parsed _ _ _ _ [] rest Hf) by (rewrite !slength_app; lia).
Qed.

(** The values of the replies to a sequence of requests. *)
Fixpoint answer_values (cap : Z) (clock : nat → Z) (i : nat) (rs : list request) (es : list entry) :
    list value :=
  match rs with
  | [] => []
  | r :: rs => answer_value (clock i) r es ::
      answer_values cap clock (S i) rs (spec_request cap (clock i) r es).2
  end.

Definition fits (v : string) : Prop := slen v ≤ maxAlloc.

Lemma session_replies cap clock rs i es :
  all_values fits es → Forall (new_value fits) rs →
  Forall2 reply_of (spec_session cap clock i rs es).1 (answer_values cap clock i rs es).
Proof.
  intros He Hwf. revert i es He. induction Hwf as [|r rs Hr _ IH]; intros i es He; [constructor|].
  cbn [spec_session answer_values]. pose proof (answer_reply cap (clock i) r es He) as Ha.
  pose proof (spec_request_values fits cap (clock i) r es He Hr) as He1.
  destruct (spec_request cap (clock i) r es) as [a es1]. cbn [fst snd] in *.
  specialize (IH (S i) es1 He1). destruct (spec_session cap clock (S i) rs es1). by constructor.
Qed.

Lemma req_wf_fits r : req_wf r → new_value fits r.
Proof. destruct r; [by intros (? & ? & ?)|done..]. Qed.

Section servers.
Context (cluster : World → list value → outcome World) (env : nat → Env).

Definition net_dial (n : Net) (addr : string) : gres string () * Net :=
  match nodes n !! addr with
  | None => (GErr "connection refused", n)
  | Some w => (GOk (), mkNet (<[addr := accept w]> (nodes n)) (tick n))
  end.

Definition net_exchange (n : Net) (addr bytes : string) : outcome (gres string string * Net) :=
  match nodes n !! addr with
  | None => mret (GErr "broken pipe", n)
  | Some w =>
      w ← serve_loop cluster (λ j, env (tick n + j)%nat) (S (String.length bytes)) 0 (drained w) bytes;
      mret (GOk (out w), mkNet (<[addr := w]> (nodes n)) (S (tick n)))
  end.

#[local] Instance servers : Network Net := {| dial := net_dial; exchange := net_exchange |}.

(** One request on the wire, whatever it does. *)
Lemma net_exchange_request n addr w slice enc w' :
  nodes n !! addr = Some w → parse enc = Ret (GOk (VSlice slice), "") → (0 < String.length enc)%nat →
  handle_request cluster (env (tick n)) (drained w) slice = Ret w' →
  exchange n addr enc = Ret (GOk (out w'), mkNet (<[addr := w']> (nodes n)) (S (tick n))).
Proof.
  intros Hn Hp Hlen Hh. cbn [exchange servers]. unfold net_exchange. rewrite Hn.
  rewrite (serve_loop_step _ _ _ _ _ _ _ _ Hp), Nat.add_0_r, Hh. cbn [mbind outcome_bind].
  destruct (String.length enc); [lia|]. done.
Qed.

(** ** Calls of the client library *)

Inductive invocation :=
| ISet (k v : string)
| ISetTTL (k v : string) (ttl : Z)
| IGet (k : string)
| IDel (k : string).

Definition inv_request (x : invocation) : request :=
  match x with
  | ISet k v => RSet k v NoTTL
  | ISetTTL k v ttl => RSet k v (Plain ttl)
  | IGet k => RGet k
  | IDel k => RDel k
  end.

Definition no_value (x : gres string () * Client * Net) : gres string string * Client * Net :=
  let '(r, c, n) := x in (match r with GErr e => GErr e | GOk _ => GOk "" end, c, n).

Definition invoke (x : invocation) (c : Client) (n : Net) : outcome (gres string string * Client * Net) :=
  match x with
  | ISet k v => no_value <$> Client.Set_ k v c n
  | ISetTTL k v ttl => no_value <$> Client.SetWithTTL k v ttl c n
  | IGet k => Client.Get k c n
  | IDel k => no_value <$> Client.Delete k c n
  end.

Fixpoint invoke_all (xs : list invocation) (c : Client) (n : Net) :
    outcome (list (gres string string) * Client * Net) :=
  match xs with
  | [] => mret ([], c, n)
  | x :: xs =>
      '(r, c, n) ← invoke x c n;
      '(rs, c, n) ← invoke_all xs c n;
      mret (r :: rs, c, n)
  end.

(** What the abstract cache answers to the calls. *)
Definition spec_invoke (cap now : Z) (x : invocation) (es : list entry) : string * list entry :=
  (match x with IGet k => default "" (spec_get k now es).1 | _ => "" end,
   (spec_request cap now (inv_request x) es).2).

Fixpoint spec_invoke_all (cap : Z) (clock : nat → Z) (i : nat) (xs : list invocation) (es : list entry) :
    list string * list entry :=
  match xs with
  | [] => ([], es)
  | x :: xs =>
      let '(a, es) := spec_invoke cap (clock i) x es in
      let '(l, es) := spec_invoke_all cap clock (S i) xs es in
      (a :: l, es)
  end.

(** Values that fit in a reply and do not look like a redirect. *)
Definition plain (v : string) : Prop := slen v ≤ maxAlloc ∧ IsRedirect v = false.

Definition inv_wf (x : invocation) : Prop := req_wf (inv_request x) ∧ new_value plain (inv_request x).

(** The connection of a client between two commands. *)
Definition idle (c : Client) : Prop := c = mkClient (c_addr c) "".

(** The client is connected to a node that serves its requests itself. *)
Record connected (c : Client) (n : Net) (w : World) (es : list entry) : Prop := {
  cn_node : nodes n !! c_addr c = Some w;
  cn_idle : idle c;
  cn_serving : serving w es;
  cn_state : state w = new_state
}.

(** A request of a connected client, as far as its reply on the wire. *)
Lemma connected_exchange c n w es r enc :
  connected c n w es → req_wf r → disk (env (tick n)) 0 = io_ok →
  EncodeArray (request_slice r) = Ret enc →
  let '(answer, es') := spec_request (Cache.maxSize (cache (srv w))) (clock (env (tick n)) 0) r es in
  ∃ w', exchange n (c_addr c) enc = Ret (GOk answer, mkNet (<[c_addr c := w']> (nodes n)) (S (tick n))) ∧
    serving w' es' ∧ state w' = new_state ∧
    Cache.maxSize (cache (srv w')) = Cache.maxSize (cache (srv w)) ∧
    persisted (NodeState.GetLeader (nodeState (srv w))) w w' (logged r).
Proof.
  intros [Hn _ Hs Hst] Hr Hd He.
  assert (serving (drained w) es) as Hs' by (by destruct Hs).
  pose proof (handle_request_spec cluster (env (tick n)) (drained w) es r Hs' Hr Hd
    ltac:(cbn; by rewrite Hst) ltac:(cbn; by rewrite Hst)) as H. cbn [drained srv] in H.
  destruct (spec_request _ _ r es) as [answer es']. destruct H as (w' & Hw & [Hsv Hcap Hp Hout] & Hst').
  destruct (parse_request r enc "" Hr He) as [Hparse Hlen]. rewrite string_app_nil_r in Hparse.
  exists w'. rewrite (net_exchange_request n _ w _ enc w' Hn Hparse Hlen Hw), Hout.
  split_and!; [done|done|by rewrite Hst'|done|by destruct Hp].
Qed.

Lemma request_encoded r : req_wf r → ∃ enc, EncodeArray (request_slice r) = Ret enc.
Proof.
  intros Hr. destruct (request_encodable r Hr) as (Hl & Hn & _).
  destruct (Parse_EncodeArray _ "" Hl Hn) as (enc & He & _). by exists enc.
Qed.

Lemma answer_no_redirect now r es :
  all_values plain es → IsRedirect (response_string (answer_value now r es)) = false.
Proof.
  intros Hv. destruct r as [k v t|k|k|]; try done.
  by apply (get_values plain k now es ltac:(by vm_compute) Hv).
Qed.

(** The redirect loop returns the reply of a connected node at once. *)
Lemma connected_execute c n w es r :
  connected c n w es → req_wf r → disk (env (tick n)) 0 = io_ok → all_values plain es →
  let cap := Cache.maxSize (cache (srv w)) in
  let now := clock (env (tick n)) 0 in
  ∃ w', Client.executeCommandWithRedirect (request_slice r) c n =
      Ret (GOk (response_string (answer_value now r es)), c, mkNet (<[c_addr c := w']> (nodes n)) (S (tick n))) ∧
    connected c (mkNet (<[c_addr c := w']> (nodes n)) (S (tick n))) w' (spec_request cap now r es).2 ∧
    Cache.maxSize (cache (srv w')) = cap ∧
    persisted (NodeState.GetLeader (nodeState (srv w))) w w' (logged r).
Proof.
  intros Hc Hr Hd Hv cap now. destruct (request_encoded r Hr) as (enc & He).
  pose proof (connected_exchange c n w es r enc Hc Hr Hd He) as H.
  destruct (answer_reply cap now r es) as [_ Ha].
  { eapply Forall_impl; [exact Hv|]. by intros e []. }
  unfold cap, now in *. destruct (spec_request _ _ r es) as [answer es'].
  destruct H as (w' & Hx & Hsv & Hst & Hm & Hp). exists w'. split_and!; [|split|done|done].
  - pose proof (cn_idle _ _ _ _ Hc) as Hi. unfold idle in Hi. revert Hx. rewrite Hi. cbn [c_addr]. intros Hx.
    unfold Client.executeCommandWithRedirect, Client.MaxRedirects.
    eapply (Client.redirect_loop_direct _ _ (mkClient (c_addr c) "") n enc answer); [done|exact He|exact Hx| |].
    + specialize (Ha (String.length answer) ""). rewrite string_app_nil_r in Ha. exact Ha.
    + by apply answer_no_redirect.
  - cbn. by rewrite lookup_insert_eq.
  - apply Hc.
  - done.
  - done.
Qed.

Lemma invoke_spec x c n w es :
  connected c n w es → inv_wf x → disk (env (tick n)) 0 = io_ok → all_values plain es →
  let '(a, es') := spec_invoke (Cache.maxSize (cache (srv w))) (clock (env (tick n)) 0) x es in
  ∃ w', invoke x c n = Ret (GOk a, c, mkNet (<[c_addr c := w']> (nodes n)) (S (tick n))) ∧
    connected c (mkNet (<[c_addr c := w']> (nodes n)) (S (tick n))) w' es' ∧ all_values plain es' ∧
    Cache.maxSize (cache (srv w')) = Cache.maxSize (cache (srv w)) ∧
    persisted (NodeState.GetLeader (nodeState (srv w))) w w' (logged (inv_request x)).
Proof.
  intros Hc [Hr Hnew] Hd Hv. unfold spec_invoke.
  destruct (connected_execute c n w es (inv_request x) Hc Hr Hd Hv) as (w' & Hx & Hc' & Hm & Hp).
  exists w'. split_and!; [|done|by apply spec_request_values|done|done].
  destruct x as [k v|k v ttl|k|k]; cbn [invoke].
  - unfold Client.Set_, Client.expect_reply. cbn [inv_request request_slice ttl_args] in Hx. by rewrite Hx.
  - unfold Client.SetWithTTL, Client.expect_reply. cbn [inv_request request_slice ttl_args] in Hx. by rewrite Hx.
  - exact Hx.
  - unfold Client.Delete, Client.expect_reply. cbn [inv_request request_slice ttl_args] in Hx. by rewrite Hx.
Qed.

Lemma invoke_all_spec xs c n w es :
  connected c n w es → Forall inv_wf xs → (∀ i, disk (env i) 0 = io_ok) → all_values plain es →
  let '(answers, es') :=
    spec_invoke_all (Cache.maxSize (cache (srv w))) (λ i, clock (env i) 0) (tick n) xs es in
  ∃ n' w', invoke_all xs c n = Ret (GOk <$> answers, c, n') ∧ connected c n' w' es' ∧
    persisted (NodeState.GetLeader (nodeState (srv w))) w w' (mjoin (logged <$> (inv_request <$> xs))).
Proof.
  intros Hc Hwf Hd. revert n w es Hc. induction Hwf as [|x xs Hx _ IH]; intros n w es Hc Hv.
  { cbn [spec_invoke_all]. exists n, w. split_and!; [done|done|apply persisted_refl]. }
  cbn [spec_invoke_all]. pose proof (invoke_spec x c n w es Hc Hx (Hd _) Hv) as H1.
  destruct (spec_invoke _ _ x es) as [a es1]. destruct H1 as (w1 & Hi & Hc1 & Hv1 & Hm1 & Hp1).
  specialize (IH _ w1 es1 Hc1 Hv1). rewrite Hm1 in IH. cbn [tick] in IH.
  destruct (spec_invoke_all _ _ _ xs es1) as [answers es2]. destruct IH as (n2 & w2 & Hi2 & Hc2 & Hp2).
  exists n2, w2. split_and!; [|done|].
  - cbn [invoke_all]. rewrite Hi. cbn [mbind outcome_bind]. rewrite Hi2. done.
  - rewrite !fmap_cons. change (mjoin (?a :: ?l)) with (a ++ mjoin l).
    eapply persisted_trans; [done|]. by rewrite (p_node _ _ _ _ Hp1) in Hp2.
Qed.

(** ** The transaction pipeline *)

(** The connection is inside a transaction with [rs] queued; nothing else
    happened since [w0]. *)
Record queueing (c : Client) (n : Net) (w0 w : World) (es : list entry) (rs : list request) : Prop := {
  q_node : nodes n !! c_addr c = Some w;
  q_idle : idle c;
  q_cache : cache_rep (cache (srv w)) es;
  q_state : state w = mkConnState false true (request_slice <$> rs) None;
  q_cap : Cache.maxSize (cache (srv w)) = Cache.maxSize (cache (srv w0));
  q_persisted : persisted (NodeState.GetLeader (nodeState (srv w0))) w0 w []
}.

(** A one-word command, answered with a line. *)
Lemma line_command name (answer : string) c n w w' :
  (∃ enc, EncodeArray [VStr name] = Ret enc ∧ parse enc = Ret (GOk (VSlice [VStr name]), "") ∧
     (0 < String.length enc)%nat) →
  nodes n !! c_addr c = Some w → idle c →
  handle_request cluster (env (tick n)) (drained w) [VStr name] = Ret w' →
  out w' = EncodeSimpleString answer → string_elem LF answer = false → IsRedirect answer = false →
  Client.executeCommandWithRedirect [VStr name] c n =
    Ret (GOk answer, c, mkNet (<[c_addr c := w']> (nodes n)) (S (tick n))).
Proof.
  intros (enc & He & Hp & Hlen) Hn Hi Hh Ho Hlf Hr.
  pose proof (net_exchange_request n _ w _ enc w' Hn Hp Hlen Hh) as Hx. rewrite Ho in Hx.
  unfold idle in Hi. rewrite Hi. cbn [c_addr].
  eapply (Client.redirect_loop_direct _ _ (mkClient (c_addr c) "") n enc _ (VStr answer)); [done|done|exact Hx| |done].
  destruct (Parse_line_replies (String.length (EncodeSimpleString answer)) answer "" Hlf) as [H _].
  rewrite string_app_nil_r in H. exact H.
Qed.

Lemma Multi_spec c n w es :
  connected c n w es →
  ∃ w', Client.Multi c n = Ret (GOk (), c, mkNet (<[c_addr c := w']> (nodes n)) (S (tick n))) ∧
    queueing c (mkNet (<[c_addr c := w']> (nodes n)) (S (tick n))) w w' es [].
Proof.
  intros [Hn Hrd Hs Hst]. eexists. split.
  - unfold Client.Multi, Client.expect_reply. rewrite (line_command "MULTI" "OK" c n w
      (observe (reply (with_state (drained w) (mkConnState false true [] None)) (EncodeSimpleString "OK")))).
    + reflexivity.
    + eexists. split; [reflexivity|]. split; [by vm_compute|by apply Nat.ltb_lt; vm_compute].
    + done.
    + done.
    + rewrite Transactions.request_multi by (cbn; by rewrite ?Hst; try apply Hs).
      unfold handleMulti. cbn [drained state]. by rewrite Hst.
    + done.
    + done.
    + done.
  - split; [by cbn; rewrite lookup_insert_eq|done| |done|done|].
    + apply cache_rep_metrics, Hs.
    + apply (persisted_ext _ w w); [done..|apply persisted_refl].
Qed.

Lemma queued_spec c n w0 w es rs r :
  queueing c n w0 w es rs → req_wf r →
  ∃ w', Client.executeCommandWithRedirect (request_slice r) c n =
      Ret (GOk "QUEUED", c, mkNet (<[c_addr c := w']> (nodes n)) (S (tick n))) ∧
    queueing c (mkNet (<[c_addr c := w']> (nodes n)) (S (tick n))) w0 w' es (rs ++ [r]).
Proof.
  intros [Hn Hrd Hc Hst Hcap Hp] Hr. destruct (request_encoded r Hr) as (enc & He).
  destruct (parse_request r enc "" Hr He) as [Hparse Hlen]. rewrite string_app_nil_r in Hparse.
  set (w' := Transactions.queued (drained w) (request_slice r)). exists w'.
  assert (handle_request cluster (env (tick n)) (drained w) (request_slice r) = Ret w') as Hh.
  { apply Transactions.request_queued; cbn; by rewrite Hst. }
  pose proof (net_exchange_request n _ w _ enc w' Hn Hparse Hlen Hh) as Hx. split.
  - unfold idle in Hrd. rewrite Hrd. cbn [c_addr].
    eapply (Client.redirect_loop_direct _ _ (mkClient (c_addr c) "") n enc _ (VStr "QUEUED")); [done|done|exact Hx| |done].
    by vm_compute.
  - split; [by cbn; rewrite lookup_insert_eq|done| | |done|].
    + by apply cache_rep_metrics.
    + unfold w', Transactions.queued. cbn [observe with_cache reply with_state drained state commandQueue
        subscriberMode inTransaction transactionError].
      rewrite Hst. cbn [commandQueue subscriberMode inTransaction transactionError]. by rewrite fmap_app.
    + by apply (persisted_ext _ w0 w).
Qed.

Lemma send_queued_spec rs' c n w0 w es rs :
  queueing c n w0 w es rs → Forall req_wf rs' →
  ∃ n' w', Client.send_queued (request_slice <$> rs') c n = Ret (GOk (), c, n') ∧
    tick n' = (tick n + length rs')%nat ∧ queueing c n' w0 w' es (rs ++ rs').
Proof.
  intros Hq Hwf. revert n w rs Hq. induction Hwf as [|r rs' Hr _ IH]; intros n w rs Hq.
  { exists n, w. rewrite app_nil_r. split_and!; [done|cbn; lia|done]. }
  destruct (queued_spec c n w0 w es rs r Hq Hr) as (w1 & Hx & Hq1).
  destruct (IH _ w1 _ Hq1) as (n' & w' & Hs & Ht & Hq'). rewrite <-(assoc_L (++)) in Hq'.
  exists n', w'. split_and!; [|cbn [tick length] in *; lia|done].
  rewrite fmap_cons. cbn [Client.send_queued]. rewrite Hx. cbn [mbind outcome_bind].
  by rewrite bool_decide_eq_true_2.
Qed.

Lemma Exec_spec c n w0 w es rs :
  queueing c n w0 w es rs → serving w0 es → Forall req_wf rs → (∀ i, disk (env (tick n)) i = io_ok) →
  all_values fits es → 16 * Z.of_nat (length rs) ≤ maxAlloc →
  let cap := Cache.maxSize (cache (srv w0)) in
  ∃ n' w', Client.Exec c n =
      Ret (GOk (exec_element <$> answer_values cap (clock (env (tick n))) 0 rs es), c, n') ∧
    connected c n' w' (spec_session cap (clock (env (tick n))) 0 rs es).2 ∧
    persisted (NodeState.GetLeader (nodeState (srv w0))) w0 w' (mjoin (logged <$> rs)).
Proof.
  intros [Hn Hrd Hc Hst Hcap Hp] Hs0 Hwf Hd Hv Hlen cap.
  pose proof (p_node _ _ _ _ Hp) as Hns.
  pose proof (persisted_linked _ _ _ _ Hp (s_linked _ _ Hs0)) as Hl.
  pose proof (Transactions.handleExec_spec (env (tick n)) (drained w) es rs
    (NodeState.GetLeader (nodeState (srv w0))) Hc Hl Hwf Hd ltac:(cbn; by rewrite Hst)
    ltac:(cbn; by rewrite Hst) ltac:(cbn; by rewrite Hst)) as Hex.
  pose proof (session_replies cap (clock (env (tick n))) rs 0 es Hv
    ltac:(eapply Forall_impl; [exact Hwf|]; apply req_wf_fits)) as Hrep.
  cbn [drained srv] in Hex. rewrite Hcap in Hex. fold cap in Hex.
  assert (length (spec_session cap (clock (env (tick n))) 0 rs es).1 = length rs) as Hlen'.
  { apply Forall2_length in Hrep. rewrite Hrep. generalize 0%nat es. clear.
    induction rs as [|r rs IH]; intros i es; [done|]. cbn [answer_values length]. by rewrite IH. }
  destruct (spec_session cap _ 0 rs es) as [answers es'].
  destruct Hex as (w' & Hh & Hc' & Hcap' & Hp' & Ho & Hst'). cbn [fst snd] in *.
  assert (handle_request cluster (env (tick n)) (drained w) [VStr "EXEC"] = Ret (observe w')) as Hreq.
  { rewrite Transactions.request_exec by (cbn; rewrite ?Hst, ?Hns; try done; apply Hs0).
    cbn [drained srv]. by rewrite Hns, Hh. }
  assert (persisted (NodeState.GetLeader (nodeState (srv w0))) w0 w' (mjoin (logged <$> rs))) as Hp0.
  { apply (persisted_trans _ w0 w w' [] _ Hp). by destruct Hp'. }
  assert (∃ enc, EncodeArray [VStr "EXEC"] = Ret enc ∧ parse enc = Ret (GOk (VSlice [VStr "EXEC"]), "") ∧
    (0 < String.length enc)%nat) as (enc & He & Hparse & Hle).
  { eexists. split; [reflexivity|]. split; [by vm_compute|by apply Nat.ltb_lt; vm_compute]. }
  exists (mkNet (<[c_addr c := observe w']> (nodes n)) (S (tick n))), (observe w'). split_and!.
  - unfold Client.Exec. rewrite He. cbn [mbind outcome_bind].
    assert (Client.usable c) as Hu by (unfold idle in Hrd; by rewrite Hrd).
    rewrite (Client.send_on_ok _ _ _ _ _ _ _ Hu (net_exchange_request n _ w _ enc _ Hn Hparse Hle Hreq)).
    cbn [mbind outcome_bind c_reader c_addr Client.c_closed Client.c_writeErr].
    assert (c_reader c = "") as -> by (unfold idle in Hrd; by rewrite Hrd). change (out (observe w')) with (out w'). rewrite Ho. cbn [drained out].
    pose proof (exec_reply_parsed answers _ "" Hrep ltac:(by rewrite Hlen')) as Hpa.
    rewrite string_app_nil_r in Hpa. change ("" +:+ ("" +:+ ?x)) with x. rewrite Hpa.
    cbn [mbind outcome_bind mret outcome_ret]. unfold idle in Hrd. by rewrite <-Hrd.
  - split; [by cbn; rewrite lookup_insert_eq|done| |].
    + split; [by apply cache_rep_metrics| | |].
      all: cbn [observe with_cache srv nodeState]; rewrite (p_node _ _ _ _ Hp0); try apply Hs0.
      destruct (persisted_linked _ _ _ _ Hp0 (s_linked _ _ Hs0)). by split.
    + cbn [observe with_cache state]. rewrite Hst'. cbn [drained state]. by rewrite Hst.
  - by apply (persisted_ext _ w0 w').
Qed.

Lemma Execute_spec tp rs c n w es :
  connected c n w es → Client.commands tp = request_slice <$> rs → Forall req_wf rs →
  (∀ i j, disk (env i) j = io_ok) → all_values fits es → 16 * Z.of_nat (length rs) ≤ maxAlloc →
  let cap := Cache.maxSize (cache (srv w)) in
  let clk := clock (env (S (tick n) + length rs)%nat) in
  ∃ n' w', Client.Execute tp c n =
      Ret (GOk (exec_element <$> answer_values cap clk 0 rs es), Client.mkPipe (request_slice <$> rs) true, c, n') ∧
    connected c n' w' (spec_session cap clk 0 rs es).2 ∧
    persisted (NodeState.GetLeader (nodeState (srv w))) w w' (mjoin (logged <$> rs)).
Proof.
  intros Hc Htp Hwf Hd Hv Hlen cap clk.
  destruct (Multi_spec c n w es Hc) as (w1 & Hm & Hq1).
  destruct (send_queued_spec rs c _ w w1 es [] Hq1 Hwf) as (n2 & w2 & Hs & Ht & Hq2).
  cbn [tick] in Ht. cbn [app] in Hq2.
  destruct (Exec_spec c n2 w w2 es rs Hq2 (cn_serving _ _ _ _ Hc) Hwf (Hd _) Hv Hlen) as (n3 & w3 & He & Hc3 & Hp).
  rewrite Ht in He, Hc3. exists n3, w3. split_and!; [|done|done].
  unfold Client.Execute. rewrite Hm. cbn [mbind outcome_bind Client.commands]. rewrite Htp, Hs.
  cbn [mbind outcome_bind]. rewrite He. done.
Qed.

(** ** Keys of another node *)

Definition request_key (r : request) : option string :=
  match r with RSet k _ _ | RGet k | RDel k => Some k | RPing => None end.
Definition writes (r : request) : bool := match r with RSet _ _ _ | RDel _ => true | _ => false end.

Lemma forwarded_reply e w r k id addr :
  request_key r = Some k → k ≠ "" → subscriberMode (state w) = false → inTransaction (state w) = false →
  NodeState.ns_IsClusterMode (nodeState (srv w)) = true →
  NodeState.ShouldForwardRequest (nodeState (srv w)) k (writes r) = (true, id, addr) →
  handle_request cluster e w (request_slice r) =
    Ret (observe (reply w (NodeState.moved_reply id addr))).
Proof.
  intros Hk Hne Hs Ht Hcm Hf. destruct (request_slice_head r) as (args & Hsl). rewrite Hsl at 1.
  rewrite Transactions.handle_request_gate, Ht by done. rewrite <-Hsl.
  assert (dispatch cluster e w (VStr (request_name r)) (request_slice r) =
    route cluster e w (VStr (request_name r)) (request_slice r)) as -> by by destruct r.
  unfold route.
  assert ((if bool_decide (2 ≤ length (request_slice r))%nat then arg (request_slice r) 1 else mret "") = Ret k) as ->
    by (destruct r; cbn in Hk; simplify_eq; reflexivity).
  cbn [mbind outcome_bind]. rewrite Hcm, bool_decide_eq_true_2 by done. cbn [andb].
  replace (is_command (VStr (request_name r)) "SET" || is_command (VStr (request_name r)) "DEL") with (writes r)
    by by destruct r.
  by rewrite Hf.
Qed.

Lemma forwarded_client_fails c n w r k id host port :
  nodes n !! c_addr c = Some w → idle c → state w = new_state → req_wf r →
  request_key r = Some k → k ≠ "" → NodeState.ns_IsClusterMode (nodeState (srv w)) = true →
  NodeState.ShouldForwardRequest (nodeState (srv w)) k (writes r) = (true, id, host +:+ ":" +:+ Itoa port) →
  string_elem ":" id = false → string_elem LF id = false →
  string_elem ":" host = false → string_elem LF host = false → int64_range port →
  nodes n !! ((id +:+ " " +:+ host) +:+ ":" +:+ Itoa port) = None →
  ∃ n', Client.executeCommandWithRedirect (request_slice r) c n =
      Ret (GErr "failed to connect to leader: connection refused", Client.Close c, n').
Proof.
  intros Hn Hrd Hst Hr Hk Hne Hcm Hf Hi1 Hi2 Hh1 Hh2 Hport Habs.
  destruct (request_encoded r Hr) as (enc & He).
  destruct (parse_request r enc "" Hr He) as [Hparse Hlen]. rewrite string_app_nil_r in Hparse.
  pose proof (forwarded_reply (env (tick n)) (drained w) r k id _ Hk Hne ltac:(cbn; by rewrite Hst)
    ltac:(cbn; by rewrite Hst) Hcm Hf) as Hh.
  pose proof (net_exchange_request n _ w _ enc _ Hn Hparse Hlen Hh) as Hx.
  destruct (NodeState.moved_reply_parsed id host port "" Hi1 Hi2 Hh1 Hh2 Hport) as (response & Hp & Hir & Hpr).
  rewrite string_app_nil_r in Hp. unfold idle in Hrd. rewrite Hrd. cbn [c_addr].
  eexists. unfold Client.executeCommandWithRedirect, Client.MaxRedirects. cbn [Client.redirect_loop].
  rewrite He. cbn [mbind outcome_bind]. rewrite (Client.send_on_ok _ _ (mkClient (c_addr c) "") n enc _ _ ltac:(done) Hx).
  cbn [mbind outcome_bind]. unfold Client.readResponse. cbn [c_reader c_addr]. change ("" +:+ ?x) with x.
  cbn [observe with_cache reply drained out]. change ("" +:+ ?x) with x. rewrite Hp.
  cbn [mbind outcome_bind mret outcome_ret response_string]. rewrite Hir, Hpr.
  cbn [dial servers]. unfold net_dial, Address. cbn [LeaderHost LeaderPort nodes].
  rewrite lookup_insert_ne, Habs; [reflexivity|]. intros E. rewrite E in Hn. congruence.
Qed.
End servers.

(** ** Claims *)

(** C5. The client library and the server agree on the abstract cache: any sequence
    of Set, SetWithTTL, Get and Delete calls of a client connected to a node that
    serves them itself returns without error, every Get with the abstract
    cache's value (the empty string for a missing key), and leaves the abstract
    cache's entries and, unless an append started the background rewrite, exactly
    the writes in the log.  The stored values must
    fit a reply and must not look like a redirect. *)
Theorem client_refines_spec cluster env xs c n w es :
  connected c n w es → Forall inv_wf xs → (∀ i, disk (env i) 0 = io_ok) → all_values plain es →
  let '(answers, es') :=
    spec_invoke_all (Cache.maxSize (cache (srv w))) (λ i, clock (env i) 0) (tick n) xs es in
  ∃ n' w', invoke_all cluster env xs c n = Ret (GOk <$> answers, c, n') ∧
    nodes n' !! c_addr c = Some w' ∧ cache_rep (cache (srv w')) es' ∧
    log_grew (aof (srv w)) (aof (srv w')) (mjoin (logged <$> (inv_request <$> xs))).
Proof.
  intros Hc Hwf Hd Hv. pose proof (invoke_all_spec cluster env xs c n w es Hc Hwf Hd Hv) as H.
  destruct (spec_invoke_all _ _ _ xs es) as [answers es']. destruct H as (n' & w' & Hi & [] & Hp).
  exists n', w'. split_and!; [done|done|apply cn_serving0|by eapply persisted_grew].
Qed.

Definition demo_net : Net := mkNet {["s:1" := Transactions.demo_world]} 0.
Definition demo_calls : list invocation :=
  [ISet "a" "1"; ISetTTL "b" "2" 60; IGet "a"; IDel "b"; IGet "b"].

Lemma demo_connected : connected (mkClient "s:1" "") demo_net Transactions.demo_world [].
Proof. split; [done|done|apply demo_serving|done]. Qed.

Lemma demo_calls_wf : Forall inv_wf demo_calls.
Proof. split_Forall; split; try done; by vm_compute. Qed.

Lemma client_refines_spec_witness :
  ∃ n' w',
    invoke_all no_cluster demo_env demo_calls (mkClient "s:1" "") demo_net =
      Ret (GOk <$> [""; ""; "1"; ""; ""], mkClient "s:1" "", n') ∧
    nodes n' !! "s:1" = Some w' ∧ cache_rep (cache (srv w')) [("a", ("1", 0))] ∧
    log_grew (aof demo_server) (aof (srv w')) (mjoin (logged <$> (inv_request <$> demo_calls))).
Proof.
  apply (client_refines_spec no_cluster demo_env demo_calls (mkClient "s:1" "") demo_net
    Transactions.demo_world []); [apply demo_connected|apply demo_calls_wf|done|constructor].
Defined.

(** C12. A transaction pipeline of the client has the effect of its commands in
    order: [Execute] returns one string per queued command, the abstract cache's
    replies at the time of EXEC (1 for every DEL, of a missing key too), and
    leaves the abstract cache's entries and, unless an append started the
    background rewrite, exactly the writes in the log; the client can go on using
    the connection. *)
Theorem pipeline_refines_spec cluster env tp rs c n w es :
  connected c n w es → Client.commands tp = request_slice <$> rs → Forall req_wf rs →
  (∀ i j, disk (env i) j = io_ok) → all_values fits es → 16 * Z.of_nat (length rs) ≤ maxAlloc →
  let cap := Cache.maxSize (cache (srv w)) in
  let clk := clock (env (S (tick n) + length rs)%nat) in
  ∃ n' w', @Client.Execute _ (servers cluster env) tp c n =
      Ret (GOk (exec_element <$> answer_values cap clk 0 rs es), Client.mkPipe (request_slice <$> rs) true, c, n') ∧
    connected c n' w' (spec_session cap clk 0 rs es).2 ∧
    log_grew (aof (srv w)) (aof (srv w')) (mjoin (logged <$> rs)).
Proof.
  intros Hc Htp Hwf Hd Hv Hlen cap clk.
  destruct (Execute_spec cluster env tp rs c n w es Hc Htp Hwf Hd Hv Hlen) as (n' & w' & He & Hc' & Hp).
  exists n', w'. split_and!; [done|done|by eapply persisted_grew].
Qed.

Definition demo_pipeline : Client.TransactionPipeline :=
  Client.tp_Get (Client.tp_Del (Client.tp_SetWithTTL (Client.tp_Set Client.NewTransaction "a" "1") "b" "2" 60)
    "b") "a".
Definition demo_queue : list request := [RSet "a" "1" NoTTL; RSet "b" "2" (Plain 60); RDel "b"; RGet "a"].

Lemma pipeline_refines_spec_witness :
  ∃ n' w', @Client.Execute _ (servers no_cluster demo_env) demo_pipeline (mkClient "s:1" "") demo_net =
      Ret (GOk ["OK"; "OK"; "1"; "1"], Client.mkPipe (request_slice <$> demo_queue) true,
           mkClient "s:1" "", n') ∧
    connected (mkClient "s:1" "") n' w' [("a", ("1", 0))] ∧
    log_grew (aof demo_server) (aof (srv w')) (mjoin (logged <$> demo_queue)).
Proof.
  apply (pipeline_refines_spec no_cluster demo_env demo_pipeline demo_queue (mkClient "s:1" "") demo_net
    Transactions.demo_world []).
  - apply demo_connected.
  - done.
  - apply (bool_decide_eq_true_1 (Forall req_wf demo_queue)). by vm_compute.
  - done.
  - constructor.
  - by vm_compute.
Defined.

(** In a cluster the client cannot follow the server's redirects: when a node
    answers a request for a key of another node, the client takes the node's ID
    and the host for a host name, and unless there is a server under that name
    the call fails and the connection is closed, although the owner is named in the
    reply and may be up. *)
Theorem redirected_client_fails cluster env c n w r k id host port :
  nodes n !! c_addr c = Some w → idle c → state w = new_state → req_wf r →
  request_key r = Some k → k ≠ "" → NodeState.ns_IsClusterMode (nodeState (srv w)) = true →
  NodeState.ShouldForwardRequest (nodeState (srv w)) k (writes r) = (true, id, host +:+ ":" +:+ Itoa port) →
  string_elem ":" id = false → string_elem LF id = false →
  string_elem ":" host = false → string_elem LF host = false → int64_range port →
  nodes n !! ((id +:+ " " +:+ host) +:+ ":" +:+ Itoa port) = None →
  ∃ n', @Client.executeCommandWithRedirect _ (servers cluster env) (request_slice r) c n =
      Ret (GErr "failed to connect to leader: connection refused", Client.Close c, n').
Proof. apply forwarded_client_fails. Qed.

(** Two nodes of a cluster, both up. *)
Definition member (id : string) : World :=
  mkWorld (mkServer (Cache.NewCache 3 NewCollector) (Persistence.NewAOF "" None Config.SyncAlways 2) ∅
    PubSub.NewPubSub (NodeState.node_of (NodeState.build_ring 3 NodeState.demo_cfg) NodeState.demo_cfg id))
    7 new_state "".
Definition demo_cluster : Net :=
  mkNet {["10.0.0.2:7002" := member "n2"; "10.0.0.3:7003" := member "n3"]} 0.

Lemma redirected_client_fails_witness :
  ∃ n', @Client.executeCommandWithRedirect _ (servers no_cluster demo_env) (request_slice (RGet "k4"))
      (mkClient "10.0.0.2:7002" "") demo_cluster =
    Ret (GErr "failed to connect to leader: connection refused", mkConn "10.0.0.2:7002" "" true None, n').
Proof.
  apply (redirected_client_fails no_cluster demo_env (mkClient "10.0.0.2:7002" "") demo_cluster (member "n2")
    (RGet "k4") "k4" "n3" "10.0.0.3" 7003).
  - unfold demo_cluster. cbn [nodes c_addr]. by rewrite lookup_insert_eq.
  - done.
  - done.
  - by vm_compute.
  - done.
  - done.
  - done.
  - apply NodeState.demo_forward.
  - done.
  - done.
  - done.
  - done.
  - by vm_compute.
  - unfold demo_cluster. cbn [nodes]. by rewrite !lookup_insert_ne.
Defined.

(** A value that starts with the word MOVED is taken for a redirect: it can be
    stored, and never be read back through the client. *)
Example moved_value_unreadable :
  match invoke_all no_cluster demo_env [ISet "k" "MOVED house"; IGet "k"] (mkClient "s:1" "") demo_net with
  | Ret (rs, _, _) => rs = [GOk ""; GErr ("failed to parse redirect: "
      +:+ "invalid redirect format, expected 'host:port' but got: house")]
  | _ => False
  end.
Proof. by vm_compute. Qed.
End ClientServer.
