(* ===== verification/Transfer.v ===== *)
(** * internal/cluster/transfer.go and migrator.go: moving keys between nodes

    A connection is the address it goes to and the bytes received but not yet
    read.  Pauses between batches and retries are left out; the read deadline is
    part of [exchange]. *)

From S2P Require Import Prelude GoStd Lru Metrics Cache Resp HashRing Migration Network.
Import HashRing Migration.
Local Open Scope Z_scope.

Module Transfer.

Definition parse_error (e : perr) : string :=
  match e with EOF => "EOF" | UnexpectedEOF => "unexpected EOF" | ErrMsg m => m end.

Definition isOKResponse (response : value) : bool :=
  match response with VStr v => bool_decide (v = "OK") | _ => false end.

Section transfer.
Context {N : Type} `{!Network N}.

(** One turn of the loop that sends the keys: the failures so far, the unread
    bytes and the network.  A missing key of the map is the empty string. *)
Definition send_key (addr : string) (values : gmap string string) (st : Z * string * N) (key : string) :
    outcome (Z * string * N) :=
  let '(failCount, reader, n) := st in
  cmd ← EncodeArray [VStr "SET"; VStr key; VStr (default "" (values !! key))];
  '(sent, n) ← exchange n addr cmd;
  match sent with
  | GErr _ => mret (failCount + 1, reader, n)
  | GOk bytes =>
      '(response, reader) ← parse (reader +:+ bytes);
      mret (match response with
            | GErr _ => failCount + 1
            | GOk response => if isOKResponse response then failCount else failCount + 1
            end, reader, n)
  end.

Definition transferKeysOnConnection (addr reader : string) (keys : list string)
    (values : gmap string string) (n : N) : outcome (gres string () * string * N) :=
  '(failCount, reader, n) ← for_each (send_key addr values) (0, reader, n) keys;
  mret (if 0 <? failCount
        then GErr ("transfer incomplete: " +:+ Itoa failCount +:+ " keys failed")
        else GOk (), reader, n).

Definition TransferKeys (targetAddr : string) (keys : list string) (values : gmap string string) (n : N) :
    outcome (gres string () * N) :=
  match dial n targetAddr with
  | (GErr e, n) => mret (GErr ("failed to connect to " +:+ targetAddr +:+ ": " +:+ e), n)
  | (GOk _, n) =>
      '(r, _, n) ← transferKeysOnConnection targetAddr "" keys values n;
      mret (r, n)
  end.

(** The loop of [TransferKeysWithRetry], with the attempts that are left. *)
Fixpoint retry_loop (attempts : nat) (maxRetries : Z) (lastErr : string) (targetAddr : string)
    (keys : list string) (values : gmap string string) (n : N) : outcome (gres string () * N) :=
  match attempts with
  | O => mret (GErr ("transfer failed after " +:+ Itoa maxRetries +:+ " attempts: " +:+ lastErr), n)
  | S attempts =>
      '(r, n) ← TransferKeys targetAddr keys values n;
      match r with
      | GOk _ => mret (GOk (), n)
      | GErr e => retry_loop attempts maxRetries e targetAddr keys values n
      end
  end.

Definition TransferKeysWithRetry (targetAddr : string) (keys : list string) (values : gmap string string)
    (maxRetries : Z) (n : N) : outcome (gres string () * N) :=
  retry_loop (Z.to_nat maxRetries) maxRetries "<nil>" targetAddr keys values n.

(** [keys[start:end]] *)
Definition slice {A} (l : list A) (start stop : Z) : outcome (list A) :=
  if (0 <=? start) && (start <=? stop) && (stop <=? Z.of_nat (length l))
  then mret (take (Z.to_nat (stop - start)) (drop (Z.to_nat start) l))
  else Panic.

(** The batches, by number; the first failure ends the loop. *)
Fixpoint batch_loop (addr : string) (keys : list string) (values : gmap string string) (batchSize : Z)
    (batches : list Z) (reader : string) (n : N) : outcome (gres string () * N) :=
  match batches with
  | [] => mret (GOk (), n)
  | i :: batches =>
      let start := i * batchSize in
      let stop := start + batchSize in
      let stop := if Z.of_nat (length keys) <? stop then Z.of_nat (length keys) else stop in
      batchKeys ← slice keys start stop;
      let batchValues := foldl (λ m key, <[key := default "" (values !! key)]> m) ∅ batchKeys in
      '(r, reader, n) ← transferKeysOnConnection addr reader batchKeys batchValues n;
      match r with
      | GErr e => mret (GErr ("batch " +:+ Itoa (i + 1) +:+ " failed: " +:+ e), n)
      | GOk _ => batch_loop addr keys values batchSize batches reader n
      end
  end.

Definition TransferKeysBatch (targetAddr : string) (keys : list string) (values : gmap string string)
    (batchSize : Z) (n : N) : outcome (gres string () * N) :=
  let totalKeys := Z.of_nat (length keys) in
  if batchSize =? 0 then Panic
  else
    let numBatches := Z.quot (totalKeys + batchSize - 1) batchSize in
    match dial n targetAddr with
    | (GErr e, n) => mret (GErr ("failed to connect to " +:+ targetAddr +:+ ": " +:+ e), n)
    | (GOk _, n) => batch_loop targetAddr keys values batchSize (seqZ 0 numBatches) "" n
    end.

(** The check of every key: a reply that is nil, which [protocol.Parse] never
    returns, would mean a missing key. *)
Fixpoint verify_loop (addr reader : string) (keys : list string) (n : N) : outcome (gres string () * N) :=
  match keys with
  | [] => mret (GOk (), n)
  | key :: keys =>
      cmd ← EncodeArray [VStr "GET"; VStr key];
      '(sent, n) ← exchange n addr cmd;
      match sent with
      | GErr e => mret (GErr ("verification failed for key " +:+ key +:+ ": " +:+ e), n)
      | GOk bytes =>
          '(response, reader) ← parse (reader +:+ bytes);
          match response with
          | GErr e => mret (GErr ("verification read failed for key " +:+ key +:+ ": " +:+ parse_error e), n)
          | GOk VNil => mret (GErr ("key " +:+ key +:+ " not found on target"), n)
          | GOk _ => verify_loop addr reader keys n
          end
      end
  end.

Definition VerifyTransfer (targetAddr : string) (keys : list string) (n : N) : outcome (gres string () * N) :=
  match dial n targetAddr with
  | (GErr e, n) => mret (GErr ("failed to connect for verification: " +:+ e), n)
  | (GOk _, n) => verify_loop targetAddr "" keys n
  end.

(** ** The migrator *)

(** Cache and ring are shared with the rest of the node. *)
Record Migrator := mkMigrator { m_cache : Cache.Cache; m_ring : HashRing; m_mu : bool }.

Definition NewMigrator (cache : Cache.Cache) (hashRing : HashRing) : Migrator :=
  mkMigrator cache hashRing false.

(** What the tasks of a migration see: the order in which the [i]-th task ranges
    over the cache's map, and the clock at its [j]-th read. *)
Record menv := mkMenv {
  map_order : nat → gmap string Cache.CacheItem → list string;
  read_clock : nat → nat → Z
}.

(** The values of the keys that still exist. *)
Fixpoint collect (clock : nat → Z) (j : nat) (keys : list string) (values : gmap string string)
    (c : Cache.Cache) : outcome (gmap string string * Cache.Cache) :=
  match keys with
  | [] => mret (values, c)
  | key :: keys =>
      '(value, exists_, c) ← Cache.Get c key (clock j);
      collect clock (S j) keys (if exists_ : bool then <[key := value]> values else values) c
  end.

(** One task: the same text in both migrations. *)
Definition migrate_task (env : menv) (i : nat) (targetAddr : string) (task : MigrationTask)
    (c : Cache.Cache) (n : N) : outcome (gres string () * Cache.Cache * N) :=
  let number := Itoa (Z.of_nat i + 1) in
  keys ← Cache.GetKeysInHashRange c (map_order env i (Cache.data c)) (StartHash task) (EndHash task) hash;
  if decide (keys = []) then mret (GOk (), c, n)
  else
    '(values, c) ← collect (read_clock env i) 0 keys ∅ c;
    '(transferred, n) ← TransferKeysBatch targetAddr keys values 100 n;
    match transferred with
    | GErr e => mret (GErr ("task " +:+ number +:+ " transfer failed: " +:+ e), c, n)
    | GOk _ =>
        '(verified, n) ← VerifyTransfer targetAddr keys n;
        match verified with
        | GErr e => mret (GErr ("task " +:+ number +:+ " verification failed: " +:+ e), c, n)
        | GOk _ =>
            c ← for_each Cache.Delete c keys;
            mret (GOk (), c, n)
        end
    end.

Fixpoint migrate_tasks (env : menv) (i : nat) (target : MigrationTask → string) (tasks : list MigrationTask)
    (c : Cache.Cache) (n : N) : outcome (gres string () * Cache.Cache * N) :=
  match tasks with
  | [] => mret (GOk (), c, n)
  | task :: tasks =>
      '(r, c, n) ← migrate_task env i (target task) task c n;
      match r with
      | GErr e => mret (GErr e, c, n)
      | GOk _ => migrate_tasks env (S i) target tasks c n
      end
  end.

(** A second migration waits for the first one's lock. *)
Definition MigrateToNewNode (env : menv) (newNodeID newNodeAddr : string) (m : Migrator) (n : N) :
    outcome (gres string () * Migrator * N) :=
  if m_mu m then Deadlock
  else
    tasks ← CalculateMigrations (m_ring m) newNodeID;
    let ring := SetNodeAddress (AddShard (m_ring m) newNodeID) newNodeID newNodeAddr in
    '(r, c, n) ← migrate_tasks env 0 (λ _, newNodeAddr) tasks (m_cache m) n;
    mret (r, mkMigrator c ring false, n).

Definition MigrateFromLeavingNode (env : menv) (leavingNodeID : string) (m : Migrator) (n : N) :
    outcome (gres string () * Migrator * N) :=
  if m_mu m then Deadlock
  else
    let ring := m_ring m in
    tasks ← CalculateMigrationsForRemoval ring leavingNodeID;
    if decide (tasks = []) then
      mret (GOk (), mkMigrator (m_cache m) (SetNodeAddress (RemoveShard ring leavingNodeID) leavingNodeID "") false, n)
    else
      '(r, c, n) ← migrate_tasks env 0 (λ task, GetNodeAddress ring (ToNode task)) tasks (m_cache m) n;
      match r with
      | GErr e => mret (GErr e, mkMigrator c ring false, n)
      | GOk _ => mret (GOk (), mkMigrator c (RemoveShard ring leavingNodeID) false, n)
      end.
End transfer.

(** [Status] tries the lock. *)
Record MigrationStatus := mkStatus { InProgress : bool; NodeID : string; Phase : string }.

Definition Status (m : Migrator) : MigrationStatus :=
  if m_mu m then mkStatus true "" "unknown" else mkStatus false "" "".
End Transfer.
