(* ===== verification/TransferSpec.v ===== *)
(** * What a migration does to the data

    Keys move from the cache of one node to a node that serves requests, over the
    network of ClientServer.  [migration_preserves_data] is the promise,
    [verification_vacuous], [failed_migration_changes_ring] and
    [expired_key_resurrected] are where the code does less than it says. *)

From S2P Require Import Prelude GoStd Lru Metrics Cache CacheSpec CacheTrace Resp HashRing Migration PubSub.
From S2P Require Import ReplProtocol Config NodeState Persistence Leader Handler HandlerSpec Transactions.
From S2P Require Import Network Client ClientServer Transfer.
Import Handler HandlerSpec ClientServer Transfer.
Import Migration(MigrationTask, StartHash, EndHash, ToNode, CalculateMigrations).
Import HashRing(hash, AddShard, SetNodeAddress).
Import Persistence(io_ok).
Import Client(mkClient, c_addr, c_reader).
Local Open Scope Z_scope.

Module TransferSpec.

(** ** Sending keys *)

Definition spec_transfer (cap : Z) (values : gmap string string) (keys : list string) (es : list entry) :
    list entry :=
  foldl (λ es k, spec_set cap k (default "" (values !! k)) 0 es) es keys.

Lemma spec_transfer_cons cap values k keys es :
  spec_transfer cap values (k :: keys) es =
  spec_transfer cap values keys (spec_set cap k (default "" (values !! k)) 0 es).
Proof. done. Qed.

Lemma spec_transfer_find cap values keys es k :
  Z.of_nat (length es + length keys) ≤ cap →
  spec_find k (spec_transfer cap values keys es) =
    if decide (k ∈ keys) then Some (k, (default "" (values !! k), 0)) else spec_find k es.
Proof.
  revert es. induction keys as [|k' keys IH]; intros es Hc.
  { by rewrite decide_False by apply not_elem_of_nil. }
  cbn [length] in Hc. rewrite spec_transfer_cons, IH by (pose proof (spec_set_length cap k' (default "" (values !! k')) 0 es); lia).
  destruct (decide (k ∈ keys)).
  - by rewrite decide_True by by apply elem_of_cons; right.
  - rewrite spec_find_set by lia. destruct (decide (k = k')) as [->|].
    + by rewrite decide_True by by apply elem_of_cons; left.
    + by rewrite decide_False by (rewrite elem_of_cons; naive_solver).
Qed.

Lemma spec_transfer_length cap values keys es :
  (length (spec_transfer cap values keys es) ≤ length es + length keys)%nat.
Proof.
  revert es. induction keys as [|k keys IH]; intros es; [cbn; lia|].
  rewrite spec_transfer_cons. cbn [length]. specialize (IH (spec_set cap k (default "" (values !! k)) 0 es)).
  pose proof (spec_set_length cap k (default "" (values !! k)) 0 es). lia.
Qed.

Lemma spec_transfer_app cap values keys1 keys2 es :
  spec_transfer cap values (keys1 ++ keys2) es = spec_transfer cap values keys2 (spec_transfer cap values keys1 es).
Proof. apply foldl_app. Qed.

Lemma spec_transfer_ext cap values values' keys es :
  (∀ k, k ∈ keys → default "" (values !! k) = default "" (values' !! k)) →
  spec_transfer cap values keys es = spec_transfer cap values' keys es.
Proof.
  intros H. revert es. induction keys as [|k keys IH]; intros es; [done|].
  rewrite !spec_transfer_cons. rewrite H by by apply elem_of_cons; left. apply IH. intros k' Hk'. apply H. by apply elem_of_cons; right.
Qed.

Lemma spec_transfer_fits cap values keys es :
  map_Forall (λ _, fits) values → all_values fits es → all_values fits (spec_transfer cap values keys es).
Proof.
  intros Hv. revert es. induction keys as [|k keys IH]; intros es He; [done|]. rewrite spec_transfer_cons.
  apply IH. apply (spec_request_values fits cap 0 (RSet k (default "" (values !! k)) NoTTL) es He).
  cbn [new_value]. destruct (values !! k) eqn:E; [by apply (Hv _ _ E)|by vm_compute].
Qed.

(** ** The local cache *)

Lemma collect_spec clock keys j values c es :
  cache_rep c es → NoDup keys →
  ∃ values' c' es', collect clock j keys values c = Ret (values', c') ∧ cache_rep c' es' ∧
    Cache.maxSize c' = Cache.maxSize c ∧ (∀ k, spec_find k es' = spec_find k es) ∧
    (length es' ≤ length es)%nat ∧
    (∀ k, k ∉ keys → values' !! k = values !! k) ∧
    (∀ k e, k ∈ keys → spec_find k es = Some e → (∀ i, live (clock i) e) → values' !! k = Some e.2.1) ∧
    (∀ k e, k ∈ keys → spec_find k es = Some e → (∀ i, ¬ live (clock i) e) → values' !! k = values !! k) ∧
    (map_Forall (λ _, fits) values → all_values fits es → map_Forall (λ _, fits) values').
Proof.
  intros Hr Hn. revert j values c es Hr.
  induction Hn as [|k keys Hk Hn IH]; intros j values c es Hr.
  { exists values, c, es. split_and!; try done; intros k e Hk; by apply elem_of_nil in Hk. }
  destruct (Get_rep c es k (clock j) Hr) as (v & ok & c1 & HG & Hm & _ & Hv & Hr1).
  set (values1 := if ok then <[k := v]> values else values).
  destruct (IH (S j) values1 c1 _ Hr1) as (values' & c' & es' & Hcol & Hr' & Hm' & Hf & Hl & Hout & Hin & Hex & Hfit).
  exists values', c', es'. split_and!; [|done|congruence| | | | | |].
  - cbn [collect]. rewrite HG. cbn [mbind outcome_bind]. exact Hcol.
  - intros k'. rewrite Hf. apply spec_find_get.
  - pose proof (spec_get_length k (clock j) es). lia.
  - intros k' [Hne Hk']%not_elem_of_cons. rewrite Hout by done. unfold values1.
    destruct ok; [by rewrite lookup_insert_ne|done].
  - intros k' e [->|Hk']%elem_of_cons Hfind Hlive.
    + rewrite Hout by done. unfold values1. unfold spec_get in Hv. rewrite Hfind, decide_True in Hv by done.
      destruct ok; [|done]. cbn in Hv. rewrite lookup_insert_eq. congruence.
    + apply Hin; [done| |done]. by rewrite spec_find_get.
  - intros k' e [->|Hk']%elem_of_cons Hfind Hdead.
    + rewrite Hout by done. unfold values1. unfold spec_get in Hv. rewrite Hfind, decide_False in Hv by done.
      by destruct ok.
    + rewrite (Hex k' e Hk'); [|by rewrite spec_find_get|done]. unfold values1.
      destruct ok; [|done]. rewrite lookup_insert_ne; [done|]. by intros ->.
  - intros Hvs He. apply Hfit.
    + unfold values1. destruct ok; [|done]. apply map_Forall_insert_2; [|done].
      pose proof (get_values fits k (clock j) es ltac:(by vm_compute) He) as Hg. by rewrite <-Hv in Hg.
    + unfold all_values. pose proof (spec_request_values fits 0 (clock j) (RGet k) es He I) as Hg.
      cbn [spec_request] in Hg. by destruct (spec_get k (clock j) es).
Qed.

Definition spec_delete_all (keys : list string) (es : list entry) : list entry :=
  foldl (λ es k, spec_del k es) es keys.

Lemma delete_all_rep keys c es :
  cache_rep c es →
  ∃ c', for_each Cache.Delete c keys = Ret c' ∧ cache_rep c' (spec_delete_all keys es).
Proof.
  revert c es. induction keys as [|k keys IH]; intros c es Hr; [by exists c|].
  destruct (Delete_rep c es k Hr) as (c1 & HD & _ & Hr1). destruct (IH c1 _ Hr1) as (c' & Hd & Hr').
  exists c'. cbn [for_each]. by rewrite HD.
Qed.

Lemma spec_delete_all_find keys es k :
  spec_find k (spec_delete_all keys es) = if decide (k ∈ keys) then None else spec_find k es.
Proof.
  revert es. induction keys as [|k' keys IH]; intros es.
  { by rewrite decide_False by apply not_elem_of_nil. }
  change (spec_delete_all (k' :: keys) es) with (spec_delete_all keys (spec_del k' es)). rewrite IH, spec_find_del.
  destruct (decide (k ∈ keys)) as [Hk|Hk].
  - by rewrite decide_True by by apply elem_of_cons; right.
  - destruct (decide (k = k')) as [->|].
    + by rewrite decide_True by by apply elem_of_cons; left.
    + by rewrite decide_False by (rewrite elem_of_cons; tauto).
Qed.

Lemma spec_delete_all_length keys es :
  NoDup keys → (∀ k, k ∈ keys → k ∈ es.*1) → (length (spec_delete_all keys es) + length keys ≤ length es)%nat.
Proof.
  intros Hn. revert es. induction Hn as [|k keys Hk _ IH]; intros es Hin; [cbn; lia|].
  change (spec_delete_all (k :: keys) es) with (spec_delete_all keys (spec_del k es)).
  destruct (proj2 (spec_find_elem k es)) as [e He]; [apply Hin, elem_of_cons; by left|].
  pose proof (spec_del_found k es e He). cbn [length].
  assert (∀ k', k' ∈ keys → k' ∈ (spec_del k es).*1) as Hin'.
  { intros k' Hk'. apply spec_find_elem. rewrite spec_find_del, decide_False by (intros ->; done).
    apply spec_find_elem, Hin, elem_of_cons. by right. }
  specialize (IH _ Hin'). lia.
Qed.

Definition in_range (task : MigrationTask) (k : string) : bool :=
  Cache.hashInRange (hash k) (StartHash task) (EndHash task).

(** The keys of a task. *)
Lemma task_keys c es order task :
  cache_rep c es → Cache.range_order (Cache.data c) order →
  ∃ keys, Cache.GetKeysInHashRange c order (StartHash task) (EndHash task) hash = Ret keys ∧ NoDup keys ∧
    (∀ k, k ∈ keys ↔ in_range task k = true ∧ k ∈ es.*1).
Proof.
  intros (Hm & xs & Hr & ->) Ho. exists (filter (λ k, in_range task k = true) order). split_and!.
  - unfold Cache.GetKeysInHashRange, Cache.RLock. rewrite Hm. cbn [mbind outcome_bind mret outcome_ret]. f_equal.
    clear Ho. induction order as [|k order IH] using rev_ind; [done|].
    rewrite foldl_snoc, IH, filter_app, (filter_cons _ k), filter_nil. fold (in_range task k).
    destruct (in_range task k); [by rewrite decide_True|by rewrite decide_False, app_nil_r].
  - apply NoDup_filter. rewrite Ho. apply NoDup_fst_map_to_list.
  - intros k. rewrite list_elem_of_filter. unfold Cache.range_order in Ho. rewrite Ho.
    rewrite (rep_data _ _ Hr). split; intros [H1 H2]; (split; [done|]).
    + apply list_elem_of_fmap in H2 as ([k' it] & -> & Hel). apply elem_of_map_to_list in Hel.
      apply elem_of_list_to_map_2, list_elem_of_fmap in Hel as (x & E & Hx).
      assert (k' = x.2.1) as -> by (by injection E). cbn [fst]. apply list_elem_of_fmap. exists x.2. split; [done|]. by apply list_elem_of_fmap_2.
    + assert (NoDup (item_of <$> xs).*1) as Hnd.
      { rewrite <-list_fmap_compose. pose proof (rep_nodup _ _ Hr) as Hn. by rewrite <-list_fmap_compose in Hn. }
      rewrite map_to_list_to_map by done. rewrite <-list_fmap_compose. by rewrite <-list_fmap_compose in H2.
Qed.

Section network.
Context (cluster : World → list value → outcome World) (nenv : nat → Env).
Context (Hdisk : ∀ i, disk (nenv i) 0 = io_ok).
#[local] Instance net : Network Net := ClientServer.servers cluster nenv.

(** A connection to a node of capacity [cap] with the entries [es]. *)
Definition target (addr : string) (cap : Z) (n : Net) (es : list entry) : Prop :=
  ∃ w, connected (mkClient addr "") n w es ∧ Cache.maxSize (cache (srv w)) = cap.

Lemma target_request addr cap n es r enc :
  target addr cap n es → req_wf r → EncodeArray (request_slice r) = Ret enc → all_values fits es →
  ∃ n' now answer, exchange n addr enc = Ret (GOk answer, n') ∧
    parse ("" +:+ answer) = Ret (GOk (answer_value now r es), "") ∧
    target addr cap n' (spec_request cap now r es).2.
Proof.
  intros (w & Hc & Hm) Hr He Hv.
  pose proof (connected_exchange cluster nenv (mkClient addr "") n w es r enc Hc Hr (Hdisk _) He) as H.
  pose proof (answer_reply cap (clock (nenv (tick n)) 0) r es Hv) as [_ Ha]. rewrite Hm in H.
  destruct (spec_request cap _ r es) as [answer es'] eqn:E. destruct H as (w' & Hx & Hs & Hst & Hm' & _).
  exists (mkNet (<[addr := w']> (nodes n)) (S (tick n))), (clock (nenv (tick n)) 0), answer. split_and!.
  - exact Hx.
  - specialize (Ha (String.length answer) ""). rewrite string_app_nil_r in Ha. exact Ha.
  - exists w'. rewrite E. split; [|congruence].
    split; [by cbn; rewrite lookup_insert_eq|done|done|done].
Qed.

Lemma dial_target addr cap n w es :
  nodes n !! addr = Some w → serving w es → Cache.maxSize (cache (srv w)) = cap →
  ∃ n', dial n addr = (GOk (), n') ∧ target addr cap n' es.
Proof.
  intros Hn Hs Hm. exists (mkNet (<[addr := accept w]> (nodes n)) (tick n)). split.
  - cbn [dial net ClientServer.servers]. unfold net_dial. by rewrite Hn.
  - exists (accept w). split; [|done]. split; [by cbn; rewrite lookup_insert_eq|done| |done].
    destruct Hs. split; [by apply cache_rep_metrics|done..].
Qed.

Lemma redial addr cap n es : target addr cap n es → ∃ n', dial n addr = (GOk (), n') ∧ target addr cap n' es.
Proof. intros (w & [] & Hm). by apply (dial_target addr cap n w). Qed.

Lemma send_key_spec addr cap values n es key f :
  target addr cap n es → fits key → map_Forall (λ _, fits) values → all_values fits es →
  ∃ n', send_key addr values (f, "", n) key = Ret (f, "", n') ∧
    target addr cap n' (spec_set cap key (default "" (values !! key)) 0 es).
Proof.
  intros Ht Hk Hv He. set (v := default "" (values !! key)).
  assert (req_wf (RSet key v NoTTL)) as Hr.
  { split_and!; [done| |by vm_compute]. unfold v. destruct (values !! key) eqn:E; [by apply (Hv _ _ E)|by vm_compute]. }
  destruct (request_encoded _ Hr) as (enc & Henc).
  destruct (target_request addr cap n es _ enc Ht Hr Henc He) as (n' & now & answer & Hx & Hp & Ht').
  exists n'. split; [|exact Ht']. unfold send_key. fold v.
  change [VStr "SET"; VStr key; VStr v] with (request_slice (RSet key v NoTTL)). rewrite Henc.
  cbn [mbind outcome_bind]. rewrite Hx. cbn [mbind outcome_bind]. rewrite Hp. done.
Qed.

Lemma send_keys_spec addr cap values keys n es :
  target addr cap n es → Forall fits keys → map_Forall (λ _, fits) values → all_values fits es →
  ∃ n', transferKeysOnConnection addr "" keys values n = Ret (GOk (), "", n') ∧
    target addr cap n' (spec_transfer cap values keys es).
Proof.
  intros Ht Hk Hv He. cut (∃ n', for_each (send_key addr values) (0, "", n) keys = Ret (0, "", n') ∧
    target addr cap n' (spec_transfer cap values keys es)).
  { intros (n' & Hs & Ht'). exists n'. split; [|done]. unfold transferKeysOnConnection. by rewrite Hs. }
  revert n es Ht He. induction Hk as [|k keys Hk _ IH]; intros n es Ht He; [by exists n|].
  destruct (send_key_spec addr cap values n es k 0 Ht Hk Hv He) as (n1 & Hs & Ht1).
  destruct (IH n1 _ Ht1) as (n2 & Hs2 & Ht2).
  { by apply (spec_transfer_fits cap values [k] es Hv). }
  exists n2. cbn [for_each]. by rewrite Hs.
Qed.

Lemma batch_values (values : gmap string string) l k :
  k ∈ l → default "" (foldl (λ m key, <[key := default "" (values !! key)]> m) (∅ : gmap string string) l !! k)
    = default "" (values !! k).
Proof.
  generalize (∅ : gmap string string). induction l as [|k' l IH] using rev_ind; intros m.
  { by intros ?%elem_of_nil. }
  rewrite foldl_snoc, elem_of_app, list_elem_of_singleton. intros Hk.
  destruct (decide (k = k')) as [->|]; [by rewrite lookup_insert_eq|].
  rewrite lookup_insert_ne by done. apply IH. tauto.
Qed.

Lemma batch_values_fit (values : gmap string string) l :
  map_Forall (λ _, fits) values →
  map_Forall (λ _, fits) (foldl (λ m key, <[key := default "" (values !! key)]> m) (∅ : gmap string string) l).
Proof.
  intros Hv. induction l as [|k l IH] using rev_ind; [apply map_Forall_empty|].
  rewrite foldl_snoc. apply map_Forall_insert_2; [|done].
  destruct (values !! k) eqn:E; [by apply (Hv _ _ E)|by vm_compute].
Qed.

Lemma slice_spec {A} (l : list A) start stop :
  0 ≤ start ≤ stop → stop ≤ Z.of_nat (length l) →
  ∃ batch, slice l start stop = Ret batch ∧ take (Z.to_nat start) l ++ batch = take (Z.to_nat stop) l.
Proof.
  intros [H1 H2] H3. exists (take (Z.to_nat (stop - start)) (drop (Z.to_nat start) l)). split.
  - unfold slice. rewrite (proj2 (Z.leb_le 0 start) H1), (proj2 (Z.leb_le start stop) H2),
      (proj2 (Z.leb_le stop _) H3). done.
  - rewrite take_take_drop. f_equal. lia.
Qed.

(** The batches put together are the keys. *)
Lemma batch_loop_spec addr cap keys values bs m i n es :
  0 < bs → 0 ≤ i → Z.of_nat (length keys) ≤ (i + Z.of_nat m) * bs →
  ((0 < m)%nat → (i + Z.of_nat m - 1) * bs < Z.of_nat (length keys)) →
  target addr cap n (spec_transfer cap values (take (Z.to_nat (i * bs)) keys) es) →
  Forall fits keys → map_Forall (λ _, fits) values → all_values fits es →
  ∃ n', batch_loop addr keys values bs (seqZ i (Z.of_nat m)) "" n = Ret (GOk (), n') ∧
    target addr cap n' (spec_transfer cap values keys es).
Proof.
  intros Hbs. revert i n. induction m as [|m IH]; intros i n Hi Hle Hlt Ht Hk Hv He.
  { exists n. rewrite take_ge in Ht by lia. done. }
  rewrite seqZ_cons by lia. replace (Z.pred (Z.of_nat (S m))) with (Z.of_nat m) by lia. cbn [batch_loop].
  specialize (Hlt ltac:(lia)).
  set (stop := if Z.of_nat (length keys) <? i * bs + bs then Z.of_nat (length keys) else i * bs + bs).
  assert (stop = Z.min (Z.of_nat (length keys)) (i * bs + bs)) as Hstop
    by (unfold stop; destruct (Z.ltb_spec (Z.of_nat (length keys)) (i * bs + bs)); lia).
  destruct (slice_spec keys (i * bs) stop) as (batch & Hsl & Hcat); [nia|lia|]. rewrite Hsl. cbn [mbind outcome_bind].
  assert (Forall fits batch) as Hkb.
  { apply (Forall_take _ (Z.to_nat stop)) in Hk. rewrite <-Hcat in Hk. by apply Forall_app in Hk as [_ ?]. }
  destruct (send_keys_spec addr cap _ batch n _ Ht Hkb (batch_values_fit values batch Hv)
    ltac:(by apply spec_transfer_fits)) as (n1 & Hs & Ht1).
  rewrite Hs. cbn [mbind outcome_bind].
  rewrite (spec_transfer_ext cap _ values batch) in Ht1 by apply batch_values.
  rewrite <-spec_transfer_app, Hcat in Ht1. apply IH; try done; [lia|lia|lia|].
  replace (take (Z.to_nat ((Z.succ i) * bs)) keys) with (take (Z.to_nat stop) keys); [done|].
  rewrite Hstop. destruct (Z.le_ge_cases (Z.of_nat (length keys)) (i * bs + bs)).
  - rewrite Z.min_l, !take_ge by lia. done.
  - rewrite Z.min_r by lia. f_equal. lia.
Qed.

Lemma TransferKeysBatch_spec addr cap keys values bs n w es :
  nodes n !! addr = Some w → serving w es → Cache.maxSize (cache (srv w)) = cap →
  0 < bs → Forall fits keys → map_Forall (λ _, fits) values → all_values fits es →
  ∃ n', TransferKeysBatch addr keys values bs n = Ret (GOk (), n') ∧
    target addr cap n' (spec_transfer cap values keys es).
Proof.
  intros Hn Hs Hm Hbs Hk Hv He. destruct (dial_target addr cap n w es Hn Hs Hm) as (n1 & Hd & Ht).
  unfold TransferKeysBatch. destruct (Z.eqb_spec bs 0); [lia|]. rewrite Hd.
  rewrite Z.quot_div_nonneg by lia. set (q := (Z.of_nat (length keys) + bs - 1) / bs).
  assert (0 ≤ q) by (apply Z.div_pos; lia).
  pose proof (Z.div_mod (Z.of_nat (length keys) + bs - 1) bs ltac:(lia)) as Hq. fold q in Hq.
  pose proof (Z.mod_pos_bound (Z.of_nat (length keys) + bs - 1) bs Hbs).
  rewrite <-(Z2Nat.id q) by done. apply batch_loop_spec; try done; nia.
Qed.

Lemma verify_loop_spec addr cap keys n es :
  target addr cap n es → Forall fits keys → all_values fits es →
  ∃ n' es', verify_loop addr "" keys n = Ret (GOk (), n') ∧ target addr cap n' es' ∧
    (∀ k, spec_find k es' = spec_find k es) ∧ (length es' ≤ length es)%nat ∧ all_values fits es'.
Proof.
  intros Ht Hk. revert n es Ht. induction Hk as [|k keys Hk _ IH]; intros n es Ht He; [by exists n, es|].
  destruct (request_encoded (RGet k) Hk) as (enc & Henc).
  destruct (target_request addr cap n es (RGet k) enc Ht Hk Henc He) as (n1 & now & answer & Hx & Hp & Ht1).
  assert (all_values fits (spec_request cap now (RGet k) es).2) as He1 by by apply spec_request_values.
  destruct (IH n1 _ Ht1 He1) as (n2 & es2 & Hv & Ht2 & Hf & Hl & He2).
  assert ((spec_request cap now (RGet k) es).2 = (spec_get k now es).2) as E
    by (cbn [spec_request]; by destruct (spec_get k now es)).
  rewrite E in *. exists n2, es2. split_and!; [|done| | |done].
  - cbn [verify_loop]. change [VStr "GET"; VStr k] with (request_slice (RGet k)). rewrite Henc.
    cbn [mbind outcome_bind]. rewrite Hx. cbn [mbind outcome_bind]. rewrite Hp. exact Hv.
  - intros k'. rewrite Hf. apply spec_find_get.
  - pose proof (spec_get_length k now es). lia.
Qed.

(** *** Tasks *)

(** The node at [addr] serves requests. *)
Definition node_with (addr : string) (cap : Z) (n : Net) (es : list entry) : Prop :=
  ∃ w, nodes n !! addr = Some w ∧ serving w es ∧ Cache.maxSize (cache (srv w)) = cap.

Lemma target_node addr cap n es : target addr cap n es → node_with addr cap n es.
Proof. intros (w & [] & Hm). by exists w. Qed.

Definition movable (es : list entry) : Prop := Forall (λ e, fits e.1 ∧ fits e.2.1) es.

Lemma movable_values es : movable es → all_values fits es.
Proof. intros H. eapply Forall_impl; [exact H|]. by intros e []. Qed.

Lemma movable_sub c es es' :
  cache_rep c es' → (∀ k e, spec_find k es' = Some e → spec_find k es = Some e) → movable es → movable es'.
Proof.
  intros (_ & xs & Hr & ->) Hsub Hm. apply Forall_forall. intros e He.
  pose proof (spec_find_unique e.1 e _ (rep_nodup _ _ Hr) He eq_refl) as Hf%Hsub.
  unfold movable in Hm. rewrite Forall_forall in Hm. apply Hm.
  clear -Hf. induction es as [|e' es IH]; [done|]. cbn in Hf. apply elem_of_cons.
  case_decide; [left; congruence|right; auto].
Qed.

(** From local entries [es] and remote entries [rs] to [es'] and [rs']: the keys in
    [range] have moved. *)
Record moved (clock : nat → nat → Z) (range : string → bool) (es rs es' rs' : list entry) : Prop := {
  mv_local k : spec_find k es' = if range k then None else spec_find k es;
  mv_kept k : spec_find k es = None ∨ range k = false → spec_find k rs' = spec_find k rs;
  mv_moved k e : range k = true → spec_find k es = Some e → (∀ i j, live (clock i j) e) →
    spec_find k rs' = Some (k, (e.2.1, 0));
  mv_expired k e : range k = true → spec_find k es = Some e → (∀ i j, ¬ live (clock i j) e) →
    spec_find k rs' = Some (k, ("", 0))
}.

Lemma moved_refl clock range es rs :
  (∀ k, range k = true → spec_find k es = None) → moved clock range es rs es rs.
Proof.
  intros H. split.
  - intros k. destruct (range k) eqn:E; [by apply H|done].
  - done.
  - intros k e Hr He. by rewrite (H k Hr) in He.
  - intros k e Hr He. by rewrite (H k Hr) in He.
Qed.

Lemma moved_trans clock r1 r2 es rs es1 rs1 es2 rs2 :
  moved clock r1 es rs es1 rs1 → moved clock r2 es1 rs1 es2 rs2 →
  moved clock (λ k, r1 k || r2 k) es rs es2 rs2.
Proof.
  intros [L1 K1 M1 X1] [L2 K2 M2 X2]. split.
  - intros k. rewrite L2, L1. by destruct (r1 k), (r2 k).
  - intros k Hk. rewrite K2, K1; [done| |].
    + destruct Hk as [|[]%orb_false_iff]; auto.
    + rewrite L1. destruct Hk as [->|[-> ->]%orb_false_iff]; [left; by destruct (r1 k)|by right].
  - intros k e Hr He Hl. destruct (r1 k) eqn:E1.
    + rewrite K2; [by apply M1|]. left. by rewrite L1, E1.
    + apply M2; [done| |done]. by rewrite L1, E1.
  - intros k e Hr He Hl. destruct (r1 k) eqn:E1.
    + rewrite K2; [by apply (X1 k e)|]. left. by rewrite L1, E1.
    + apply (X2 k e); [done| |done]. by rewrite L1, E1.
Qed.

Context (env : menv) (Horder : ∀ i m, Cache.range_order m (map_order env i m)).

Definition ready (addr : string) (cap : Z) (c : Cache.Cache) (n : Net) (es rs : list entry) : Prop :=
  cache_rep c es ∧ node_with addr cap n rs ∧ Z.of_nat (length es + length rs) ≤ cap ∧ movable es ∧
  all_values fits rs.

Lemma migrate_task_spec i addr cap task c n es rs :
  ready addr cap c n es rs →
  ∃ c' n' es' rs', migrate_task env i addr task c n = Ret (GOk (), c', n') ∧ ready addr cap c' n' es' rs' ∧
    moved (read_clock env) (in_range task) es rs es' rs'.
Proof.
  intros (Hr & (w & Hn & Hs & Hm) & Hcap & Hmov & Hfit).
  destruct (task_keys c es (map_order env i (Cache.data c)) task Hr (Horder _ _)) as (keys & Hkeys & Hnd & Hin).
  unfold migrate_task. rewrite Hkeys. cbn [mbind outcome_bind]. case_decide as Hnil.
  { exists c, n, es, rs. split_and!; [done|unfold ready; split_and!; try done; by exists w|].
    apply moved_refl. intros k Hk. apply spec_find_None. intros Hel.
    assert (k ∈ keys) as Hx by by apply Hin. rewrite Hnil in Hx. by apply elem_of_nil in Hx. }
  destruct (collect_spec (read_clock env i) keys 0 ∅ c es Hr Hnd)
    as (values & c1 & es1 & Hcol & Hr1 & _ & Hf1 & Hl1 & _ & Hval & Hexp & Hvfit).
  rewrite Hcol. cbn [mbind outcome_bind].
  assert (Forall fits keys) as Hkf.
  { apply Forall_forall. intros k [_ Hk]%Hin. apply list_elem_of_fmap in Hk as (e & -> & He).
    unfold movable in Hmov. rewrite Forall_forall in Hmov. by apply Hmov. }
  assert (map_Forall (λ _, fits) values) as Hvf by (apply Hvfit; [apply map_Forall_empty|by apply movable_values]).
  destruct (TransferKeysBatch_spec addr cap keys values 100 n w rs Hn Hs Hm ltac:(lia) Hkf Hvf Hfit)
    as (n1 & Htr & Ht1). rewrite Htr. cbn [mbind outcome_bind].
  destruct (redial addr cap n1 _ Ht1) as (n2 & Hd & Ht2).
  destruct (verify_loop_spec addr cap keys n2 _ Ht2 Hkf ltac:(by apply spec_transfer_fits))
    as (n3 & rs' & Hver & Ht3 & Hf3 & Hl3 & Hfit3).
  unfold VerifyTransfer. rewrite Hd, Hver. cbn [mbind outcome_bind].
  destruct (delete_all_rep keys c1 es1 Hr1) as (c' & Hdel & Hr'). rewrite Hdel.
  assert (∀ k, k ∈ keys → k ∈ es1.*1) as Hsub.
  { intros k [_ Hk]%Hin. apply spec_find_elem. rewrite Hf1. by apply spec_find_elem. }
  pose proof (spec_delete_all_length keys es1 Hnd Hsub) as Hlen.
  pose proof (spec_transfer_length cap values keys rs) as Hlen'.
  assert (∀ k, spec_find k rs' = if decide (k ∈ keys) then Some (k, (default "" (values !! k), 0))
    else spec_find k rs) as Hrs by (intros k; rewrite Hf3; apply spec_transfer_find; lia).
  assert (∀ k, spec_find k (spec_delete_all keys es1) = if decide (k ∈ keys) then None else spec_find k es)
    as Hes by (intros k; rewrite spec_delete_all_find, Hf1; done).
  exists c', n3, (spec_delete_all keys es1), rs'. split_and!; [done| |].
  - unfold ready. split_and!; [done|by apply target_node|lia| |done].
    eapply movable_sub; [exact Hr'| |exact Hmov]. intros k e. rewrite Hes. by case_decide.
  - split.
    + intros k. rewrite Hes. destruct (in_range task k) eqn:E.
      * case_decide as Hk; [done|]. apply spec_find_None. intros Hx. by apply Hk, Hin.
      * by rewrite decide_False by (intros [? _]%Hin; congruence).
    + intros k Hk. rewrite Hrs, decide_False; [done|]. intros [H1 H2]%Hin.
      apply spec_find_elem in H2 as [e He]. destruct Hk; congruence.
    + intros k e Hk He Hl. assert (k ∈ keys) as Hx by (apply Hin; split; [done|]; apply spec_find_elem; eauto).
      rewrite Hrs, decide_True by done. by rewrite (Hval k e Hx He (Hl i)).
    + intros k e Hk He Hl. assert (k ∈ keys) as Hx by (apply Hin; split; [done|]; apply spec_find_elem; eauto).
      rewrite Hrs, decide_True by done. by rewrite (Hexp k e Hx He (Hl i)).
Qed.

Definition in_ranges (tasks : list MigrationTask) (k : string) : bool := existsb (λ t, in_range t k) tasks.

Lemma migrate_tasks_spec addr cap tasks i c n es rs :
  ready addr cap c n es rs →
  ∃ c' n' es' rs', migrate_tasks env i (λ _, addr) tasks c n = Ret (GOk (), c', n') ∧
    ready addr cap c' n' es' rs' ∧ moved (read_clock env) (in_ranges tasks) es rs es' rs'.
Proof.
  revert i c n es rs. induction tasks as [|task tasks IH]; intros i c n es rs Hr.
  { exists c, n, es, rs. split_and!; [done|done|by apply moved_refl]. }
  destruct (migrate_task_spec i addr cap task c n es rs Hr) as (c1 & n1 & es1 & rs1 & Ht & Hr1 & Hm1).
  destruct (IH (S i) c1 n1 es1 rs1 Hr1) as (c2 & n2 & es2 & rs2 & Ht2 & Hr2 & Hm2).
  exists c2, n2, es2, rs2. split_and!; [|done|by eapply (moved_trans _ (in_range task) (in_ranges tasks))].
  cbn [migrate_tasks]. rewrite Ht. cbn [mbind outcome_bind]. exact Ht2.
Qed.
End network.

(** *** When the new node cannot be reached *)

Section unreachable.
Context {N : Type} `{!Network N} (env : menv) (Horder : ∀ i m, Cache.range_order m (map_order env i m)).
Context (addr : string) (Hdown : ∀ n, ∃ e n', dial n addr = (GErr e, n')).

Lemma tasks_unreachable tasks i c n es :
  cache_rep c es →
  ∃ r c' n' es', migrate_tasks env i (λ _, addr) tasks c n = Ret (r, c', n') ∧ cache_rep c' es' ∧
    (∀ k, spec_find k es' = spec_find k es) ∧
    ((∃ k, in_ranges tasks k = true ∧ k ∈ es.*1) → ∃ e, r = GErr e).
Proof.
  revert i n. induction tasks as [|task tasks IH]; intros i n Hr.
  { exists (GOk ()), c, n, es. split_and!; try done. by intros (k & ? & _). }
  destruct (task_keys c es (map_order env i (Cache.data c)) task Hr (Horder _ _)) as (keys & Hkeys & Hnd & Hin).
  cbn [migrate_tasks]. unfold migrate_task. rewrite Hkeys. cbn [mbind outcome_bind]. case_decide as Hnil.
  - destruct (IH (S i) n Hr) as (r & c' & n' & es' & Hrun & Hr' & Hf & Herr).
    exists r, c', n', es'. split_and!; try done. intros (k & [Hk|Hk]%orb_true_iff & Hel); [|eauto].
    assert (k ∈ keys) as Hx by by apply Hin. rewrite Hnil in Hx. by apply elem_of_nil in Hx.
  - destruct (collect_spec (read_clock env i) keys 0 ∅ c es Hr Hnd)
      as (values & c1 & es1 & Hcol & Hr1 & _ & Hf1 & _).
    rewrite Hcol. cbn [mbind outcome_bind]. unfold TransferKeysBatch. cbn [Z.eqb].
    destruct (Hdown n) as (e & n' & ->). cbn [mbind outcome_bind mret outcome_ret].
    eexists _, c1, n', es1. split_and!; [reflexivity|done|done|eauto].
Qed.
End unreachable.

(** ** Claims *)

(** C8. Adding a node loses no data: when the new node serves requests without
    forwarding them (as a node that waits to join does) and has room for all the
    keys, [MigrateToNewNode] succeeds, the ring knows the new node,
    the local cache has exactly the keys outside the ranges of the plan, every
    unexpired entry inside them is on the new node with its value (and without
    its expiry), and every other entry of the new node is as it was. *)
Theorem migration_preserves_data cluster nenv env newNodeID addr m n tasks es rs w :
  (∀ i, disk (nenv i) 0 = io_ok) → (∀ i m, Cache.range_order m (map_order env i m)) →
  m_mu m = false → CalculateMigrations (m_ring m) newNodeID = Ret tasks → cache_rep (m_cache m) es →
  nodes n !! addr = Some w → serving w rs →
  Z.of_nat (length es + length rs) ≤ Cache.maxSize (cache (srv w)) → movable es → all_values fits rs →
  ∃ c' n' w' es' rs',
    @MigrateToNewNode Net (servers cluster nenv) env newNodeID addr m n =
      Ret (GOk (), mkMigrator c' (SetNodeAddress (AddShard (m_ring m) newNodeID) newNodeID addr) false, n') ∧
    cache_rep c' es' ∧ nodes n' !! addr = Some w' ∧ cache_rep (cache (srv w')) rs' ∧
    (∀ k, spec_find k es' = if in_ranges tasks k then None else spec_find k es) ∧
    (∀ k e, in_ranges tasks k = true → spec_find k es = Some e → (∀ i j, live (read_clock env i j) e) →
       spec_find k rs' = Some (k, (e.2.1, 0))) ∧
    (∀ k, spec_find k es = None ∨ in_ranges tasks k = false → spec_find k rs' = spec_find k rs).
Proof.
  intros Hd Ho Hmu Hplan Hr Hn Hs Hcap Hmov Hfit.
  destruct (migrate_tasks_spec cluster nenv Hd env Ho addr (Cache.maxSize (cache (srv w))) tasks 0 (m_cache m) n es rs)
    as (c' & n' & es' & rs' & Hrun & (Hr' & (w' & Hn' & Hs' & _) & _) & [Hl Hk Hm _]).
  { unfold ready. split_and!; try done. by exists w. }
  exists c', n', w', es', rs'. split_and!; [|done|done|apply Hs'|done|done|done].
  unfold MigrateToNewNode. rewrite Hmu, Hplan. cbn [mbind outcome_bind].
  unfold net in Hrun. by rewrite Hrun.
Qed.

(** A node with one position on the ring and two keys, "b" with an expiry; the new
    node "D" gets both. *)
Definition demo_ring : HashRing.HashRing := HashRing.AddShard (HashRing.NewHashRing 1) "A".
Definition demo_migrator : Migrator := NewMigrator demo_cache demo_ring.
Definition demo_plan : list MigrationTask :=
  Eval vm_compute in match CalculateMigrations demo_ring "D" with Ret tasks => tasks | _ => [] end.
Definition demo_menv (now : Z) : menv := mkMenv (λ _ m, (map_to_list m).*1) (λ _ _, now).

Lemma demo_plan_ok : CalculateMigrations (m_ring demo_migrator) "D" = Ret demo_plan.
Proof. by vm_compute. Qed.
Lemma demo_order now i m : Cache.range_order m (map_order (demo_menv now) i m).
Proof. unfold Cache.range_order. reflexivity. Qed.
Lemma demo_movable : movable demo_entries.
Proof. split_Forall; split; by vm_compute. Qed.

(** The joining node: it runs in cluster mode with a configuration that knows "A"
    but not itself, and has no shard. *)
Definition joining_config : Config.Config :=
  Config.mkConfig 8382 9090 3 "leader" "" 0 0 "" "cache.aof" "cache.rdb" "always" 0 2 "D"
    [Config.mkNodeInfo "A" "10.0.0.1" 7000 8000 1 "s1" "leader"] [Config.mkShardInfo "s1" "A" []] "info".
Definition joining_state : NodeState.NodeState :=
  NodeState.SetMigrator (NodeState.SetHashRing (NodeState.SetConfig (NodeState.NewNodeState "pending" None "")
    joining_config) demo_ring) (Some 1%positive).
Definition joining_world : World :=
  mkWorld (mkServer (Cache.NewCache 3 NewCollector) (Persistence.NewAOF "" None Config.SyncAlways 8) ∅
    PubSub.NewPubSub joining_state) 7 new_state "".
Definition joining_net : Net := mkNet {["s:1" := joining_world]} 0.

Example joining_cluster : NodeState.ns_IsClusterMode joining_state = true.
Proof. done. Qed.

Lemma joining_serving : serving joining_world [].
Proof.
  split; [apply cache_rep_new|by split|done|]. intros key isWrite. by eapply NodeState.unassigned_local.
Qed.

Lemma migration_preserves_data_witness :
  ∃ c' n' w' es' rs',
    @MigrateToNewNode Net (servers no_cluster demo_env) (demo_menv 5) "D" "s:1" demo_migrator joining_net =
      Ret (GOk (), mkMigrator c' (SetNodeAddress (AddShard demo_ring "D") "D" "s:1") false, n') ∧
    cache_rep c' es' ∧ nodes n' !! "s:1" = Some w' ∧ cache_rep (cache (srv w')) rs' ∧
    (∀ k, spec_find k es' = if in_ranges demo_plan k then None else spec_find k demo_entries) ∧
    (∀ k e, in_ranges demo_plan k = true → spec_find k demo_entries = Some e →
       (∀ i j, live (read_clock (demo_menv 5) i j) e) → spec_find k rs' = Some (k, (e.2.1, 0))) ∧
    (∀ k, spec_find k demo_entries = None ∨ in_ranges demo_plan k = false → spec_find k rs' = spec_find k []).
Proof.
  apply (migration_preserves_data no_cluster demo_env (demo_menv 5) "D" "s:1" demo_migrator joining_net demo_plan
    demo_entries [] joining_world).
  - done.
  - apply demo_order.
  - done.
  - apply demo_plan_ok.
  - apply demo_cache_rep.
  - done.
  - apply joining_serving.
  - by vm_compute.
  - apply demo_movable.
  - constructor.
Defined.

(** An entry that has expired but was not cleaned up yet comes back to life when
    it is migrated: the new node stores it as an empty string that never
    expires. *)
Theorem expired_key_resurrected cluster nenv env addr m n newNodeID tasks es rs w k e :
  (∀ i, disk (nenv i) 0 = io_ok) → (∀ i m, Cache.range_order m (map_order env i m)) →
  m_mu m = false → CalculateMigrations (m_ring m) newNodeID = Ret tasks → cache_rep (m_cache m) es →
  nodes n !! addr = Some w → serving w rs →
  Z.of_nat (length es + length rs) ≤ Cache.maxSize (cache (srv w)) → movable es → all_values fits rs →
  in_ranges tasks k = true → spec_find k es = Some e → (∀ i j, ¬ live (read_clock env i j) e) →
  ∃ m' n' w' rs', @MigrateToNewNode Net (servers cluster nenv) env newNodeID addr m n = Ret (GOk (), m', n') ∧
    nodes n' !! addr = Some w' ∧ cache_rep (cache (srv w')) rs' ∧ spec_find k rs' = Some (k, ("", 0)).
Proof.
  intros Hd Ho Hmu Hplan Hr Hn Hs Hcap Hmov Hfit Hk He Hdead.
  destruct (migrate_tasks_spec cluster nenv Hd env Ho addr (Cache.maxSize (cache (srv w))) tasks 0 (m_cache m) n es rs)
    as (c' & n' & es' & rs' & Hrun & (Hr' & (w' & Hn' & Hs' & _) & _) & [_ _ _ Hx]).
  { unfold ready. split_and!; try done. by exists w. }
  eexists _, n', w', rs'. split_and!; [|done|apply Hs'|by eapply Hx].
  unfold MigrateToNewNode. rewrite Hmu, Hplan. cbn [mbind outcome_bind].
  unfold net in Hrun. by rewrite Hrun.
Qed.

Lemma expired_key_resurrected_witness :
  ∃ m' n' w' rs',
    @MigrateToNewNode Net (servers no_cluster demo_env) (demo_menv 20) "D" "s:1" demo_migrator demo_net =
      Ret (GOk (), m', n') ∧
    nodes n' !! "s:1" = Some w' ∧ cache_rep (cache (srv w')) rs' ∧ spec_find "b" rs' = Some ("b", ("", 0)).
Proof.
  apply (expired_key_resurrected no_cluster demo_env (demo_menv 20) "s:1" demo_migrator demo_net "D" demo_plan
    demo_entries [] Transactions.demo_world "b" ("b", ("2", 16))).
  - done.
  - apply demo_order.
  - done.
  - apply demo_plan_ok.
  - apply demo_cache_rep.
  - done.
  - apply demo_serving.
  - by vm_compute.
  - apply demo_movable.
  - constructor.
  - by vm_compute.
  - done.
  - intros i j. apply (bool_decide_eq_false_1 (live 20 ("b", ("2", 16)))). by vm_compute.
Defined.

(** The check before the local copies are deleted checks nothing: against a node
    that serves requests, [VerifyTransfer] succeeds for every list of keys,
    whether the node has them or not, because a missing key is read as an empty
    string and never as nil. *)
Theorem verification_vacuous cluster nenv addr keys n w rs :
  (∀ i, disk (nenv i) 0 = io_ok) → nodes n !! addr = Some w → serving w rs → Forall fits keys →
  all_values fits rs →
  ∃ n', @VerifyTransfer Net (servers cluster nenv) addr keys n = Ret (GOk (), n').
Proof.
  intros Hd Hn Hs Hk Hv. destruct (dial_target cluster nenv addr _ n w rs Hn Hs eq_refl) as (n1 & Hdial & Ht).
  destruct (verify_loop_spec cluster nenv Hd addr _ keys n1 rs Ht Hk Hv) as (n' & rs' & Hver & _).
  exists n'. unfold VerifyTransfer. unfold net in *. by rewrite Hdial, Hver.
Qed.

Lemma verification_vacuous_witness :
  ∃ n', @VerifyTransfer Net (servers no_cluster demo_env) "s:1" ["a"; "never stored"] demo_net = Ret (GOk (), n').
Proof.
  apply (verification_vacuous no_cluster demo_env "s:1" ["a"; "never stored"] demo_net Transactions.demo_world []).
  - done.
  - done.
  - apply demo_serving.
  - split_Forall; by vm_compute.
  - constructor.
Defined.

(** A migration that fails leaves the ring changed: when the new node cannot be
    reached and one of the local keys belongs to it, [MigrateToNewNode] returns an
    error and keeps every local entry, but the new node stays in the ring, so
    that requests for those keys are routed to it. *)
Theorem failed_migration_changes_ring {N : Type} `{!Network N} env newNodeID addr m (n : N) tasks es :
  (∀ i m, Cache.range_order m (map_order env i m)) → (∀ n, ∃ e n', dial n addr = (GErr e, n')) →
  m_mu m = false → CalculateMigrations (m_ring m) newNodeID = Ret tasks → cache_rep (m_cache m) es →
  (∃ k, in_ranges tasks k = true ∧ k ∈ es.*1) →
  ∃ e c' n' es', MigrateToNewNode env newNodeID addr m n =
      Ret (GErr e, mkMigrator c' (SetNodeAddress (AddShard (m_ring m) newNodeID) newNodeID addr) false, n') ∧
    cache_rep c' es' ∧ ∀ k, spec_find k es' = spec_find k es.
Proof.
  intros Ho Hdown Hmu Hplan Hr Hk.
  destruct (tasks_unreachable env Ho addr Hdown tasks 0 (m_cache m) n es Hr)
    as (r & c' & n' & es' & Hrun & Hr' & Hf & Herr).
  destruct (Herr Hk) as (e & ->). exists e, c', n', es'. split_and!; [|done|done].
  unfold MigrateToNewNode. rewrite Hmu, Hplan. cbn [mbind outcome_bind]. by rewrite Hrun.
Qed.

Lemma failed_migration_changes_ring_witness :
  ∃ e c' n' es', @MigrateToNewNode () no_network (demo_menv 5) "D" "s:1" demo_migrator () =
      Ret (GErr e, mkMigrator c' (SetNodeAddress (AddShard demo_ring "D") "D" "s:1") false, n') ∧
    cache_rep c' es' ∧ ∀ k, spec_find k es' = spec_find k demo_entries.
Proof.
  apply (@failed_migration_changes_ring () no_network (demo_menv 5) "D" "s:1" demo_migrator () demo_plan demo_entries).
  - apply demo_order.
  - intros n. by exists "connection refused", ().
  - done.
  - apply demo_plan_ok.
  - apply demo_cache_rep.
  - exists "a". split; [by vm_compute|]. repeat constructor.
Defined.
End TransferSpec.
