(* ===== verification/ClusterCommands.v ===== *)
(** * internal/server/cluster_commands.go: the CLUSTER commands

    The commands work on the connection's [World] and, to reach other nodes, on a
    network.  The node's migrator holds the node's own cache and ring; the health
    checkers are a store of pointers.  [orders] gives the iteration orders. *)

From S2P Require Import Prelude GoStd Lru Metrics Cache Resp HashRing Migration Health PubSub Config NodeState.
From S2P Require Import ReplProtocol Persistence Leader Handler Network Transfer.
Import HashRing Handler.
Import ReplProtocol(str_of).
Local Open Scope Z_scope.

Module ClusterCommands.

Record orders := mkOrders {
  ring_order : list string;                                    (* GetAllNodes *)
  status_order : list (string * Health.nodeptr);               (* GetAllNodeStatus *)
  copy_order : list string;                                    (* the copy it returns *)
  migration_env : Transfer.menv
}.

Definition with_node (w : World) (ns : NodeState.NodeState) : World :=
  mkWorld (mkServer (cache (srv w)) (aof (srv w)) (leaders (srv w)) (ps (srv w)) ns)
    (conn w) (state w) (out w).

(** The ring is shared: a change to it is a change to the node state's ring. *)
Definition with_ring (w : World) (ring : HashRing) : World :=
  with_node w (NodeState.SetHashRing (nodeState (srv w)) ring).

Definition node_addr (node : Config.NodeInfo) : string :=
  Config.Host node +:+ ":" +:+ Itoa (Config.Port node).

Definition handleClusterTopology (w : World) (command : list value) : outcome World :=
  if bool_decide (length command < 5)%nat then
    mret (reply w (EncodeError "TOPOLOGY requires operation, nodeID, and address"))
  else
    operation ← arg command 2;
    targetNodeID ← arg command 3;
    targetNodeAddr ← arg command 4;
    if bool_decide (operation = "ADD") then
      hashRing ← or_panic (NodeState.hashRing (nodeState (srv w)));
      mret (reply (with_ring w (SetNodeAddress (AddShard hashRing targetNodeID) targetNodeID targetNodeAddr))
        (EncodeSimpleString "OK"))
    else if bool_decide (operation = "REMOVE") then
      hashRing ← or_panic (NodeState.hashRing (nodeState (srv w)));
      mret (reply (with_ring w (SetNodeAddress (RemoveShard hashRing targetNodeID) targetNodeID ""))
        (EncodeSimpleString "OK"))
    else mret (reply w (EncodeError "Unknown TOPOLOGY operation")).

(** One line of CLUSTER NODES. *)
Definition node_line (hcs : gmap positive Health.HealthChecker) (hc : option positive) (response : string)
    (node : Config.NodeInfo) : outcome string :=
  status ← match hc with
           | None => mret "active"
           | Some p =>
               hc ← or_panic (hcs !! p);
               Health.NodeStatus_String <$> Health.GetNodeStatus hc (Config.ID node)
           end;
  mret (response +:+ Config.ID node +:+ " " +:+ node_addr node +:+ " " +:+ status +:+ String LF "").

Definition handleClusterNodes (hcs : gmap positive Health.HealthChecker) (w : World) : outcome World :=
  match NodeState.config (nodeState (srv w)) with
  | None => mret (reply w (EncodeError "Cluster is not initialized"))
  | Some config =>
      response ← for_each (node_line hcs (NodeState.healthChecker (nodeState (srv w)))) "" (Config.cfg_Nodes config);
      mret (reply w (EncodeBulkString response false))
  end.

Definition handleClusterHealth (ord : orders) (hcs : gmap positive Health.HealthChecker) (w : World) :
    outcome World :=
  match NodeState.healthChecker (nodeState (srv w)) with
  | None => mret (reply w (EncodeError "Health checker not initialized"))
  | Some p =>
      hc ← or_panic (hcs !! p);
      allStatuses ← Health.GetAllNodeStatus hc (status_order ord);
      response ← for_each (λ response nodeID,
        health ← or_panic (allStatuses !! nodeID);
        mret (response +:+ nodeID +:+ " " +:+ Health.Address health +:+ " "
          +:+ Health.NodeStatus_String (Health.Status health) +:+ String LF "")) "" (copy_order ord);
      mret (reply w (EncodeBulkString response false))
  end.

Section network.
Context {N : Type} `{!Network N}.

(** The reply is read and dropped; errors are only logged by the callers. *)
Definition notifyNodeAboutTopologyChange (nodeAddr operation targetNodeID targetNodeAddr : string) (n : N) :
    outcome N :=
  match dial n nodeAddr with
  | (GErr _, n) => mret n
  | (GOk _, n) =>
      cmd ← EncodeArray [VStr "CLUSTER"; VStr "TOPOLOGY"; VStr operation; VStr targetNodeID; VStr targetNodeAddr];
      '(sent, n) ← exchange n nodeAddr cmd;
      match sent with
      | GErr _ => mret n
      | GOk bytes => '(_, _) ← parse bytes; mret n
      end
  end.

(** The loop over the configured nodes, without this node. *)
Definition broadcast (config : Config.Config) (operation nodeID addr : string) (n : N) : outcome N :=
  for_each (λ n node,
    if bool_decide (Config.ID node = Config.cfg_NodeID config) then mret n
    else notifyNodeAboutTopologyChange (node_addr node) operation nodeID addr n) n (Config.cfg_Nodes config).

(** The migrator works on the node's cache and ring. *)
Definition with_migrator (w : World) (m : Transfer.Migrator) : World :=
  with_ring (with_cache w (Transfer.m_cache m)) (Transfer.m_ring m).

Definition handleClusterAddNode (ord : orders) (w : World) (command : list value) (n : N) : outcome (World * N) :=
  if bool_decide (length command < 4)%nat then
    mret (reply w (EncodeError "ADDNODE requires nodeID and address"), n)
  else
    newNodeID ← arg command 2;
    newNodeAddr ← arg command 3;
    hashRing ← or_panic (NodeState.hashRing (nodeState (srv w)));
    if bool_decide (newNodeID ∈ GetAllNodes hashRing (ring_order ord)) then
      mret (reply w (EncodeError ("Node " +:+ newNodeID +:+ " already exists in cluster")), n)
    else
      match dial n newNodeAddr with
      | (GErr e, n) =>
          mret (reply w (EncodeError ("Cannot connect to node " +:+ newNodeID +:+ " at " +:+ newNodeAddr
            +:+ ". Make sure the node is running first. Error: " +:+ e)), n)
      | (GOk _, n) =>
          match NodeState.migrator (nodeState (srv w)) with
          | None => mret (reply w (EncodeError "Cluster not initialized"), n)
          | Some _ =>
              '(r, m, n) ← Transfer.MigrateToNewNode (migration_env ord) newNodeID newNodeAddr
                (Transfer.NewMigrator (cache (srv w)) hashRing) n;
              let w := with_migrator w m in
              match r with
              | GErr e => mret (reply w (EncodeError ("Migration failed: " +:+ e)), n)
              | GOk _ =>
                  config ← or_panic (NodeState.config (nodeState (srv w)));
                  n ← broadcast config "ADD" newNodeID newNodeAddr n;
                  n ← notifyNodeAboutTopologyChange newNodeAddr "ADD" newNodeID newNodeAddr n;
                  mret (reply w (EncodeSimpleString "OK"), n)
              end
          end
      end.

(** A node that is not in the ring gets no reply at all. *)
Definition handleClusterRemoveNode (ord : orders) (w : World) (command : list value) (n : N) :
    outcome (World * N) :=
  if bool_decide (length command < 3)%nat then
    mret (reply w (EncodeError "REMOVENODE requires nodeID"), n)
  else
    nodeID ← arg command 2;
    hashRing ← or_panic (NodeState.hashRing (nodeState (srv w)));
    if bool_decide (nodeID ∉ GetAllNodes hashRing (ring_order ord)) then mret (w, n)
    else
      match NodeState.migrator (nodeState (srv w)) with
      | None => mret (reply w (EncodeError "Cluster is not initialized"), n)
      | Some _ =>
          '(r, m, n) ← Transfer.MigrateFromLeavingNode (migration_env ord) nodeID
            (Transfer.NewMigrator (cache (srv w)) hashRing) n;
          let w := with_migrator w m in
          match r with
          | GErr e => mret (reply w (EncodeError ("Migration failed: " +:+ e)), n)
          | GOk _ =>
              config ← or_panic (NodeState.config (nodeState (srv w)));
              n ← broadcast config "REMOVE" nodeID "" n;
              let leavingNodeAddr := GetNodeAddress (Transfer.m_ring m) nodeID in
              n ← (if bool_decide (leavingNodeAddr ≠ "")
                   then notifyNodeAboutTopologyChange leavingNodeAddr "REMOVE" nodeID "" n else mret n);
              mret (reply w (EncodeSimpleString "OK"), n)
          end
      end.

Definition handleClusterCommand (ord : orders) (hcs : gmap positive Health.HealthChecker) (w : World)
    (command : list value) (n : N) : outcome (World * N) :=
  if bool_decide (length command < 2)%nat then
    mret (reply w (EncodeError "CLUSTER command requires subcommand"), n)
  else
    subcommand ← arg command 1;
    if bool_decide (subcommand = "ADDNODE") then handleClusterAddNode ord w command n
    else if bool_decide (subcommand = "REMOVENODE") then handleClusterRemoveNode ord w command n
    else if bool_decide (subcommand = "NODES") then w ← handleClusterNodes hcs w; mret (w, n)
    else if bool_decide (subcommand = "TOPOLOGY") then w ← handleClusterTopology w command; mret (w, n)
    else if bool_decide (subcommand = "HEALTH") then w ← handleClusterHealth ord hcs w; mret (w, n)
    else mret (reply w (EncodeError "Unknown CLUSTER subcommand"), n).
End network.

(** A node in simple mode has no ring: asked to change it, the process dies. *)
Theorem topology_without_ring_panics w id addr :
  NodeState.hashRing (nodeState (srv w)) = None →
  handleClusterTopology w [VStr "CLUSTER"; VStr "TOPOLOGY"; VStr "ADD"; VStr id; VStr addr] = Panic.
Proof.
  intros Hr. unfold handleClusterTopology. rewrite bool_decide_eq_false_2 by (cbn; lia).
  cbn [arg lookup list_lookup or_panic str_of mbind outcome_bind]. by rewrite Hr.
Qed.

(** ** The rings of the coordinator and of a notified node *)

(** [w'] has answered [OK] since [w]. *)
Definition answered_ok (w w' : World) : Prop := out w' = out w +:+ EncodeSimpleString "OK".

Section agreement.
Context {N : Type} `{!Network N}.

Lemma error_not_ok w w0 w' (n n' : N) s :
  answered_ok w w' → mret (reply w0 (EncodeError s), n) = Ret (w', n') → out w0 = out w → False.
Proof.
  intros Hok [= <- _] Ho. unfold answered_ok in Hok. cbn [reply out] in Hok. rewrite Ho in Hok.
  by apply (inj (String.append _)) in Hok.
Qed.

(** A peer that is told of the new node computes the ring of the coordinator. *)
Lemma AddNode_ring ord w id addr n w' n' ring :
  NodeState.hashRing (nodeState (srv w)) = Some ring →
  handleClusterAddNode ord w [VStr "CLUSTER"; VStr "ADDNODE"; VStr id; VStr addr] n = Ret (w', n') →
  answered_ok w w' →
  NodeState.hashRing (nodeState (srv w')) = Some (SetNodeAddress (AddShard ring id) id addr) ∧
  ∃ config n1 n2, NodeState.config (nodeState (srv w)) = Some config ∧
    broadcast config "ADD" id addr n1 = Ret n2 ∧ notifyNodeAboutTopologyChange addr "ADD" id addr n2 = Ret n'.
Proof.
  intros Hr H Hok. unfold handleClusterAddNode in H. rewrite bool_decide_eq_false_2 in H by (cbn; lia).
  cbn [arg lookup list_lookup or_panic str_of mbind outcome_bind] in H. rewrite Hr in H.
  cbn [or_panic mbind outcome_bind] in H. case_bool_decide; [by destruct (error_not_ok _ _ _ _ _ _ Hok H eq_refl)|].
  destruct (dial n addr) as [[] n1]; [|by destruct (error_not_ok _ _ _ _ _ _ Hok H eq_refl)].
  destruct (NodeState.migrator _); [|by destruct (error_not_ok _ _ _ _ _ _ Hok H eq_refl)].
  apply outcome_bind_Ret_inv in H as ([[r m] n2] & E & H).
  unfold Transfer.MigrateToNewNode in E. cbn [Transfer.NewMigrator Transfer.m_mu Transfer.m_ring] in E.
  inv_ret. destruct r1 as [[r1 c] n3]. injection E as <- <- <-.
  destruct r1; [|by destruct (error_not_ok _ _ _ _ _ _ Hok H eq_refl)].
  change (NodeState.config _) with (NodeState.config (nodeState (srv w))) in H.
  destruct (NodeState.config (nodeState (srv w))) as [config|]; [|done]. cbn [or_panic mbind outcome_bind] in H.
  inv_ret. split; [done|]. by eexists config, _, _.
Qed.

(** The coordinator of a removal forgets the address only when there was nothing
    to move; the positions are the same either way. *)
Lemma RemoveNode_ring ord w id n w' n' ring :
  NodeState.hashRing (nodeState (srv w)) = Some ring →
  handleClusterRemoveNode ord w [VStr "CLUSTER"; VStr "REMOVENODE"; VStr id] n = Ret (w', n') →
  answered_ok w w' →
  ∃ ring', NodeState.hashRing (nodeState (srv w')) = Some ring' ∧
    (ring' = RemoveShard ring id ∨ ring' = SetNodeAddress (RemoveShard ring id) id "") ∧
    ∃ config n1 n2, NodeState.config (nodeState (srv w)) = Some config ∧
      broadcast config "REMOVE" id "" n1 = Ret n2 ∧
      (n' = n2 ∨ ∃ leaving, notifyNodeAboutTopologyChange leaving "REMOVE" id "" n2 = Ret n').
Proof.
  intros Hr H Hok. unfold handleClusterRemoveNode in H. rewrite bool_decide_eq_false_2 in H by (cbn; lia).
  cbn [arg lookup list_lookup or_panic str_of mbind outcome_bind] in H. rewrite Hr in H.
  cbn [or_panic mbind outcome_bind] in H. case_bool_decide.
  { injection H as <- <-. unfold answered_ok in Hok. rewrite <-(string_app_nil_r (out w)) in Hok at 1.
    by apply (inj (String.append _)) in Hok. }
  destruct (NodeState.migrator _); [|by destruct (error_not_ok _ _ _ _ _ _ Hok H eq_refl)].
  apply outcome_bind_Ret_inv in H as ([[r m] n2] & E & H).
  assert (r = GOk () → Transfer.m_ring m = RemoveShard ring id ∨
    Transfer.m_ring m = SetNodeAddress (RemoveShard ring id) id "") as Hm.
  { unfold Transfer.MigrateFromLeavingNode in E. cbn [Transfer.NewMigrator Transfer.m_mu Transfer.m_ring] in E.
    inv_ret. destruct (decide (r0 = [])); inv_ret; [by right|]. destruct r1 as [[r1 c] n3].
    destruct r1; inv_ret; [by left|done]. }
  destruct r as [[]|e]; [|by destruct (error_not_ok _ _ _ _ _ _ Hok H eq_refl)].
  change (NodeState.config _) with (NodeState.config (nodeState (srv w))) in H.
  destruct (NodeState.config (nodeState (srv w))) as [config|]; [|done]. cbn [or_panic mbind outcome_bind] in H.
  inv_ret. eexists. split_and!; [reflexivity|by apply Hm|]. eexists config, _, _. split_and!; [done|exact E0|].
  destruct (bool_decide _); [right; by eexists|left; by injection E1 as <-].
Qed.

End agreement.

(** *** What is written on the network *)

Section recording.
Context {N : Type} `{!Network N}.

(** Any network, with a record of what is written to which address. *)
#[export] Instance recording : Network (N * list (string * string)) := {|
  dial n addr := let '(r, n') := dial n.1 addr in (r, (n', n.2));
  exchange n addr data := '(r, n') ← exchange n.1 addr data; mret (r, (n', n.2 ++ [(addr, data)]))
|}.

(** The addresses that can be dialled. *)
Definition up (addr : string) : Prop := ∀ n : N, (dial n addr).1 = GOk ().

Definition notice (cmd id addr : string) : list value :=
  [VStr "CLUSTER"; VStr "TOPOLOGY"; VStr cmd; VStr id; VStr addr].

(** One notification: nothing but the notice is written, and it is if the node is up. *)
Lemma notify_recorded to cmd id addr enc n log n' log' :
  EncodeArray (notice cmd id addr) = Ret enc →
  notifyNodeAboutTopologyChange to cmd id addr (n, log) = Ret (n', log') →
  log' = log ++ [(to, enc)] ∨ ¬ up to ∧ log' = log.
Proof.
  intros He. unfold notifyNodeAboutTopologyChange. cbn [dial recording fst snd].
  destruct (dial n to) as [[u|e] n1] eqn:Hd.
  - change [VStr "CLUSTER"; VStr "TOPOLOGY"; VStr cmd; VStr id; VStr addr] with (notice cmd id addr).
    rewrite He. cbn [mbind outcome_bind exchange recording fst snd]. intros H. left. inv_ret.
    destruct r0 as [[bytes|e] n2]; inv_ret; [|done]. by destruct r; inv_ret.
  - intros [= _ <-]. right. split; [|done]. intros Hup. specialize (Hup n). by rewrite Hd in Hup.
Qed.

(** The other nodes of the configuration. *)
Definition others (config : Config.Config) : list Config.NodeInfo :=
  filter (λ node, Config.ID node ≠ Config.cfg_NodeID config) (Config.cfg_Nodes config).

Lemma broadcast_recorded config cmd id addr enc n log n' log' :
  EncodeArray (notice cmd id addr) = Ret enc → Forall (λ node, up (node_addr node)) (others config) →
  broadcast config cmd id addr (n, log) = Ret (n', log') →
  log' = log ++ ((λ node, (node_addr node, enc)) <$> others config).
Proof.
  intros He. unfold broadcast, others. generalize (Config.cfg_Nodes config). intros nodes. revert n log.
  induction nodes as [|node nodes IH]; intros n log Hup H; cbn [for_each] in H.
  { injection H as _ <-. by rewrite app_nil_r. }
  rewrite filter_cons in *. case_bool_decide as Hid.
  - rewrite decide_False in * by tauto. by apply IH in H.
  - rewrite decide_True in * by done. apply Forall_cons in Hup as [Hu Hup]. inv_ret. destruct r as [n1 log1].
    destruct (notify_recorded _ _ _ _ _ _ _ _ _ He E) as [-> |[? _]]; [|done].
    apply IH in H; [|done]. rewrite H, fmap_cons, <-app_assoc. done.
Qed.
End recording.

Lemma notice_parsed cmd id addr enc :
  slen cmd ≤ maxAlloc → slen id ≤ maxAlloc → slen addr ≤ maxAlloc → EncodeArray (notice cmd id addr) = Ret enc →
  parse enc = Ret (GOk (VSlice (notice cmd id addr)), "").
Proof.
  intros Hc Hi Ha He. destruct (Parse_EncodeArray (notice cmd id addr) "") as (e & He' & Hp).
  - split_Forall; cbn [encodable]; first [assumption|by vm_compute].
  - by vm_compute.
  - assert (e = enc) as -> by congruence. rewrite string_app_nil_r in Hp. unfold parse. apply Hp. lia.
Qed.

(** C30. The nodes of a cluster agree after a change: when the other configured
    nodes can be dialled and the node that was asked to add or remove a node has
    answered OK, it has written one and the same notice to every one of them, and
    last to the node that joins (if it can be dialled) or perhaps the one that
    leaves; and a peer that had the same ring and is sent the bytes of the notice
    answers OK and finds the same shard for every key. *)
Theorem topology_change_agrees {N : Type} `{!Network N} ord w w' config peer ord' hcs cmd (n n' : N) log' ring id addr :
  NodeState.hashRing (nodeState (srv w)) = Some ring → NodeState.hashRing (nodeState (srv peer)) = Some ring →
  NodeState.config (nodeState (srv w)) = Some config → Forall (λ node, up (node_addr node)) (others config) →
  slen id ≤ maxAlloc → slen addr ≤ maxAlloc → answered_ok w w' →
  cmd = "ADD" ∧
    handleClusterAddNode ord w [VStr "CLUSTER"; VStr "ADDNODE"; VStr id; VStr addr] (n, []) = Ret (w', (n', log')) ∨
  cmd = "REMOVE" ∧ addr = "" ∧
    handleClusterRemoveNode ord w [VStr "CLUSTER"; VStr "REMOVENODE"; VStr id] (n, []) = Ret (w', (n', log')) →
  ∃ migrated enc last, EncodeArray (notice cmd id addr) = Ret enc ∧
    log' = migrated ++ ((λ node, (node_addr node, enc)) <$> others config) ++ last ∧
    (last = [] ∨ ∃ to, last = [(to, enc)]) ∧ (cmd = "ADD" → up addr → last = [(addr, enc)]) ∧
    ∃ slice peer' r r', parse enc = Ret (GOk (VSlice slice), "") ∧
      handleClusterCommand ord' hcs peer slice n = Ret (peer', n) ∧ answered_ok peer peer' ∧
      NodeState.hashRing (nodeState (srv w')) = Some r ∧ NodeState.hashRing (nodeState (srv peer')) = Some r' ∧
      ∀ key, GetShard r' key = GetShard r key.
Proof.
  intros Hw Hp Hcfg Hup Hid Haddr Hok Hc.
  assert (∃ enc, EncodeArray (notice cmd id addr) = Ret enc) as (enc & He).
  { destruct (encode_elements_app (notice cmd id addr) ("*" +:+ Itoa 5 +:+ CRLF)) as (body & Hb & _).
    - split_Forall; cbn [encodable]; first [assumption|by destruct Hc as [[-> _]|[-> _]]; vm_compute|by vm_compute].
    - eexists. exact Hb. }
  assert (slen cmd ≤ maxAlloc) as Hcmd by (by destruct Hc as [[-> _]|[-> _]]; vm_compute).
  assert (∃ r migrated last, NodeState.hashRing (nodeState (srv w')) = Some r ∧
    (cmd = "ADD" ∧ r = SetNodeAddress (AddShard ring id) id addr ∨
     cmd = "REMOVE" ∧ (r = RemoveShard ring id ∨ r = SetNodeAddress (RemoveShard ring id) id "")) ∧
    log' = migrated ++ ((λ node, (node_addr node, enc)) <$> others config) ++ last ∧
    (last = [] ∨ ∃ to, last = [(to, enc)]) ∧ (cmd = "ADD" → up addr → last = [(addr, enc)]))
    as (r & migrated & last & Hr & Hring & Hlog & Hlast & Hjoin).
  { destruct Hc as [[-> H]|(-> & -> & H)].
    - destruct (AddNode_ring _ _ _ _ _ _ _ _ Hw H Hok) as (Hr & config' & [n1 l1] & [n2 l2] & Hcfg' & Hb & Hn).
      assert (config' = config) as -> by congruence.
      rewrite (broadcast_recorded _ _ _ _ _ _ _ _ _ He Hup Hb) in Hn.
      destruct (notify_recorded _ _ _ _ _ _ _ _ _ He Hn) as [-> |[Hdown ->]].
      + eexists _, l1, [(addr, enc)]. rewrite <-app_assoc. eauto 12.
      + eexists _, l1, []. rewrite app_nil_r. split_and!; [exact Hr|eauto|done|eauto|done].
    - destruct (RemoveNode_ring _ _ _ _ _ _ _ Hw H Hok)
        as (r & Hr & Hring & config' & [n1 l1] & [n2 l2] & Hcfg' & Hb & Hn).
      assert (config' = config) as -> by congruence.
      pose proof (broadcast_recorded _ _ _ _ _ _ _ _ _ He Hup Hb) as ->.
      destruct Hn as [[= -> ->]|[to Hn]].
      + eexists r, l1, []. rewrite app_nil_r. split_and!; [exact Hr|eauto|done|eauto|done].
      + destruct (notify_recorded _ _ _ _ _ _ _ _ _ He Hn) as [-> |[_ ->]].
        * eexists r, l1, [(to, enc)]. rewrite <-app_assoc. split_and!; [exact Hr|eauto|done|eauto|done].
        * eexists r, l1, []. rewrite app_nil_r. split_and!; [exact Hr|eauto|done|eauto|done]. }
  exists migrated, enc, last. split_and!; [done|done|done|done|].
  exists (notice cmd id addr). unfold handleClusterCommand. rewrite bool_decide_eq_false_2 by (cbn; lia).
  change (arg (notice cmd id addr) 1) with (Ret "TOPOLOGY"). cbn [mbind outcome_bind].
  change (bool_decide ("TOPOLOGY" = "ADDNODE")) with false. change (bool_decide ("TOPOLOGY" = "REMOVENODE")) with false.
  change (bool_decide ("TOPOLOGY" = "NODES")) with false. change (bool_decide ("TOPOLOGY" = "TOPOLOGY")) with true.
  cbv iota. unfold handleClusterTopology, notice. rewrite bool_decide_eq_false_2 by (cbn; lia).
  cbn [arg lookup list_lookup or_panic str_of mbind outcome_bind]. rewrite Hp.
  pose proof (notice_parsed cmd id addr enc Hcmd Hid Haddr He) as Hparse.
  destruct Hring as [[-> ->]|[-> Hring]]; eexists _, _, _; (split; [exact Hparse|]); (split; [reflexivity|]);
    (split; [reflexivity|]); (split; [exact Hr|]); (split; [reflexivity|]); [done|by destruct Hring as [-> | ->]].
Qed.

(** A node that accepts every connection and answers OK. *)
Definition welcoming : Network () :=
  {| dial := λ n _, (GOk (), n); exchange := λ n _ _, Ret (GOk (EncodeSimpleString "OK"), n) |}.

Definition pair_config : Config.Config :=
  Config.mkConfig 7000 9090 3 "leader" "" 0 0 "" "cache.aof" "cache.rdb" "always" 0 2 "A"
    [Config.mkNodeInfo "A" "10.0.0.1" 7000 0 1 "s1" "leader"; Config.mkNodeInfo "C" "10.0.0.3" 7000 0 1 "s2" "leader"]
    [Config.mkShardInfo "s1" "A" []; Config.mkShardInfo "s2" "C" []] "info".

Definition pair_ring : HashRing := AddShard (AddShard (NewHashRing 1) "A") "C".

(** A node of the cluster of [A] and [C]. *)
Definition pair_node (c : PubSub.conn) : World :=
  let ns := NodeState.SetConfig (NodeState.SetHashRing (NodeState.NewNodeState "leader" None "") pair_ring) pair_config in
  mkWorld (mkServer (Cache.NewCache 3 NewCollector) (Persistence.NewAOF "" None Config.SyncAlways 0) ∅
    PubSub.NewPubSub (NodeState.SetMigrator ns (Some 1%positive))) c new_state "".

Definition pair_orders : orders := mkOrders ["A"; "C"] [] [] (Transfer.mkMenv (λ _ _, []) (λ _ _, 0)).

(** Node [B] joins through node [A]. *)
Definition pair_added : outcome (World * (() * list (string * string))) :=
  handleClusterAddNode (Network0 := recording (Network0 := welcoming)) pair_orders (pair_node 1)
    [VStr "CLUSTER"; VStr "ADDNODE"; VStr "B"; VStr "10.0.0.2:7000"] ((), []).

Lemma topology_change_agrees_witness : ∃ w log, pair_added = Ret (w, ((), log)) ∧
  fst <$> log = ["10.0.0.3:7000"; "10.0.0.2:7000"] ∧
  ∃ migrated enc last, EncodeArray (notice "ADD" "B" "10.0.0.2:7000") = Ret enc ∧
    log = migrated ++ ((λ node, (node_addr node, enc)) <$> others pair_config) ++ last ∧
    (last = [] ∨ ∃ to, last = [(to, enc)]) ∧
    ("ADD" = "ADD" → up (Network0 := welcoming) "10.0.0.2:7000" → last = [("10.0.0.2:7000", enc)]) ∧
    ∃ slice peer r r', parse enc = Ret (GOk (VSlice slice), "") ∧
      handleClusterCommand (Network0 := welcoming) pair_orders ∅ (pair_node 2) slice () = Ret (peer, ()) ∧
      answered_ok (pair_node 2) peer ∧
      NodeState.hashRing (nodeState (srv w)) = Some r ∧ NodeState.hashRing (nodeState (srv peer)) = Some r' ∧
      ∀ key, GetShard r' key = GetShard r key.
Proof.
  assert (∃ w log, pair_added = Ret (w, ((), log)) ∧ fst <$> log = ["10.0.0.3:7000"; "10.0.0.2:7000"] ∧
    answered_ok (pair_node 1) w) as (w & log & E & Hlog & Hok).
  { destruct pair_added as [[w [[] log]]| | |] eqn:E; vm_compute in E; [|discriminate..].
    exists w, log. injection E as <- <-. by vm_compute. }
  exists w, log. split_and!; [exact E|exact Hlog|].
  refine (topology_change_agrees (Network0 := welcoming) pair_orders (pair_node 1) w pair_config (pair_node 2)
    pair_orders ∅ "ADD" () () log pair_ring "B" "10.0.0.2:7000" eq_refl eq_refl eq_refl _ _ _ Hok
    (or_introl (conj eq_refl E))).
  - by repeat constructor.
  - by vm_compute.
  - by vm_compute.
Defined.

End ClusterCommands.
