(* ===== verification/ClusterClient.v ===== *)
(** * pkg/client/cluster_client.go: the cluster-aware client

    The connections are a map from addresses to clients, changed in place by the
    calls.  [order] is the iteration order over the map of nodes.  The client's
    mutex is held by each of the small steps in turn, never twice. *)

From S2P Require Import Prelude GoStd Resp HashRing Network Client.
Import HashRing.
Import Client(Client, NewClient).
Local Open Scope Z_scope.

Module ClusterClient.

Record NodeInfo := mkNodeInfo { ID : string; Address : string; Status : string }.

Record ClusterClient := mkCC {
  seeds : list string;
  hashRing : HashRing;
  conns : gmap string Client;
  nodes : gmap string NodeInfo;
  stopped : bool
}.

Definition with_hashRing c r := mkCC (seeds c) r (conns c) (nodes c) (stopped c).
Definition with_conns c m := mkCC (seeds c) (hashRing c) m (nodes c) (stopped c).
Definition with_nodes c m := mkCC (seeds c) (hashRing c) (conns c) m (stopped c).

(** One line of the reply to CLUSTER NODES. *)
Definition parse_line (nodes : gmap string NodeInfo) (line : string) : gmap string NodeInfo :=
  let line := TrimSpace line in
  if decide (line = "") then nodes
  else
    match Fields line with
    | id :: addr :: status :: _ => <[id := mkNodeInfo id addr status]> nodes
    | _ => nodes
    end.

(** [strings.Split] never returns an empty slice. *)
Definition parseClusterNodes (c : ClusterClient) (response : string) : gres string () * ClusterClient :=
  let lines := Split (TrimSpace response) LF in
  let c := with_nodes c (foldl parse_line ∅ lines) in
  (if decide (nodes c = ∅) then GErr "no valid nodes found in CLUSTER NODES response" else GOk (), c).

Definition add_node (c : ClusterClient) (nodeID : string) : ClusterClient :=
  match nodes c !! nodeID with
  | Some nodeInfo =>
      if bool_decide (Status nodeInfo ≠ "active") then c
      else with_hashRing c (SetNodeAddress (AddShard (hashRing c) nodeID) nodeID (Address nodeInfo))
  | None => c
  end.

Definition buildHashRing (c : ClusterClient) (order : list string) : ClusterClient :=
  foldl add_node c order.

(** A possible order of the range loop. *)
Definition nodes_order (order : gmap string NodeInfo → list string) : Prop :=
  ∀ m, order m ≡ₚ (map_to_list m).*1.

Section network.
Context {N : Type} `{!Network N} (order : gmap string NodeInfo → list string).

Fixpoint discover_loop (seedAddrs : list string) (lastErr : string) (c : ClusterClient) (n : N) :
    outcome (gres string () * ClusterClient * N) :=
  match seedAddrs with
  | [] => mret (GErr ("failed to discover topology from any seed: " +:+ lastErr), c, n)
  | seedAddr :: seedAddrs =>
      match NewClient n seedAddr with
      | (GErr e, n) =>
          discover_loop seedAddrs ("failed to connect to seed " +:+ seedAddr +:+ ": " +:+ e) c n
      | (GOk seedClient, n) =>
          '(response, _, n) ← Client.SendCommand ["CLUSTER"; "NODES"] seedClient n;
          match response with
          | GErr e =>
              discover_loop seedAddrs ("CLUSTER NODES command failed on " +:+ seedAddr +:+ ": " +:+ e) c n
          | GOk response =>
              match parseClusterNodes c response with
              | (GErr e, c) =>
                  discover_loop seedAddrs ("failed to parse CLUSTER NODES response: " +:+ e) c n
              | (GOk _, c) => mret (GOk (), buildHashRing c (order (nodes c)), n)
              end
          end
      end
  end.

Definition discoverTopology (c : ClusterClient) (n : N) : outcome (gres string () * ClusterClient * N) :=
  discover_loop (seeds c) "<nil>" c n.

Definition NewClusterClient (seeds : list string) (n : N) : outcome (gres string ClusterClient * N) :=
  if bool_decide (length seeds = 0%nat) then mret (GErr "at least one seed address is required", n)
  else
    '(r, c, n) ← discoverTopology (mkCC seeds (NewHashRing 150) ∅ ∅ false) n;
    mret (match r with
          | GErr e => GErr ("failed to discover cluster topology: " +:+ e)
          | GOk _ => GOk c
          end, n).

(** The connection to [address], which is in the map afterwards. *)
Definition getOrCreateConnection (c : ClusterClient) (address : string) (n : N) :
    gres string Client * ClusterClient * N :=
  match conns c !! address with
  | Some conn => (GOk conn, c, n)
  | None =>
      match NewClient n address with
      | (GErr e, n) => (GErr ("failed to connect to " +:+ address +:+ ": " +:+ e), c, n)
      | (GOk conn, n) => (GOk conn, with_conns c (<[address := conn]> (conns c)), n)
      end
  end.

(** The routing that [Get], [Set], [SetWithTTL] and [Delete] share; [op] is the call
    on the connection.  A retry after a MOVED error calls the method again, with
    the fuel that is left. *)
Fixpoint routed_call {A} (fuel : nat) (key : string)
    (op : Client → N → outcome (gres string A * Client * N)) (c : ClusterClient) (n : N) :
    outcome (gres string A * ClusterClient * N) :=
  match fuel with
  | O => OutOfFuel
  | S fuel =>
      match GetNode (hashRing c) key with
      | GErr e => mret (GErr ("failed to find node for key " +:+ key +:+ ": " +:+ e), c, n)
      | GOk nodeID =>
          let address := GetNodeAddress (hashRing c) nodeID in
          if decide (address = "") then mret (GErr ("no address found for node " +:+ nodeID), c, n)
          else
            match getOrCreateConnection c address n with
            | (GErr e, c, n) => mret (GErr e, c, n)
            | (GOk conn, c, n) =>
                '(result, conn, n) ← op conn n;
                let c := with_conns c (<[address := conn]> (conns c)) in
                match result with
                | GErr e =>
                    if HasPrefix e "MOVED" then
                      '(refresh, c, n) ← discoverTopology c n;
                      match refresh with
                      | GErr e => mret (GErr ("failed to refresh topology: " +:+ e), c, n)
                      | GOk _ => routed_call fuel key op c n
                      end
                    else mret (GErr e, c, n)
                | GOk v => mret (GOk v, c, n)
                end
            end
      end
  end.

(** The retry is never taken (lemma [retry_dead]), so one unit of fuel is enough. *)
Definition Get (key : string) : ClusterClient → N → outcome (gres string string * ClusterClient * N) :=
  routed_call 1 key (Client.Get key).
Definition Set_ (key value : string) : ClusterClient → N → outcome (gres string () * ClusterClient * N) :=
  routed_call 1 key (Client.Set_ key value).
Definition SetWithTTL (key value : string) (ttl : Z) :
    ClusterClient → N → outcome (gres string () * ClusterClient * N) :=
  routed_call 1 key (Client.SetWithTTL key value (whole_seconds ttl)).
Definition Delete (key : string) : ClusterClient → N → outcome (gres string () * ClusterClient * N) :=
  routed_call 1 key (Client.Delete key).

(** One tick of [StartTopologyRefresh]: [false] ends the goroutine. *)
Definition refresh_tick (c : ClusterClient) (n : N) : outcome (bool * ClusterClient * N) :=
  if stopped c then mret (false, c, n)
  else '(_, c, n) ← discoverTopology c n; mret (true, c, n).

Definition RefreshTopology (c : ClusterClient) (n : N) : outcome (gres string () * ClusterClient * N) :=
  discoverTopology c n.
End network.

(** The stop channel is closed; closing it twice panics. *)
Definition Close (c : ClusterClient) : outcome ClusterClient :=
  if stopped c then Panic else mret (mkCC (seeds c) (hashRing c) ∅ (nodes c) true).

Definition GetNodes (c : ClusterClient) (order : list string) : list NodeInfo :=
  foldl (λ l id, match nodes c !! id with Some node => l ++ [node] | None => l end) [] order.
End ClusterClient.
