(* ===== verification/ClusterClientSpec.v ===== *)
(** * The cluster client against the server's CLUSTER NODES

    What the client learns of a cluster from a node of this program, from bytes to
    the hash ring; and that its retry after a redirect never happens. *)

From S2P Require Import Prelude GoStd Lru Metrics Cache CacheSpec CacheTrace Resp HashRing Migration Health PubSub.
From S2P Require Import ReplProtocol Config NodeState Persistence Leader Handler HandlerSpec Transactions.
From S2P Require Import Network Client ClientServer Transfer ClusterCommands ClusterClient.
Import Handler HandlerSpec ClientServer ClusterCommands.
Import HashRing(AddShard, SetNodeAddress, NewHashRing, GetNodeAddress, hashValues, nodeAddresses).
Import ClusterClient(ClusterClient, mkCC, mkNodeInfo, NewClusterClient, nodes_order, parse_line, routed_call, add_node).
Local Open Scope Z_scope.

Module ClusterClientSpec.

(** ** The reply to CLUSTER NODES *)

Section reply.
Context (status : Config.NodeInfo → string).

Definition info (node : Config.NodeInfo) : ClusterClient.NodeInfo :=
  mkNodeInfo (Config.ID node) (node_addr node) (status node).

Definition line (node : Config.NodeInfo) : string :=
  Config.ID node +:+ " " +:+ node_addr node +:+ " " +:+ status node.

Definition line_wf (node : Config.NodeInfo) : Prop :=
  word (Config.ID node) ∧ no_space (Config.Host node) = true ∧ word (status node).

Definition response (nodes : list Config.NodeInfo) : string :=
  concat_strings ((λ node, line node +:+ String LF "") <$> nodes).

Lemma node_addr_word node : line_wf node → word (node_addr node).
Proof.
  intros (_ & Hh & _). unfold node_addr. split; [by destruct (Config.Host node)|].
  rewrite !no_space_app, Hh. by destruct (Itoa_word (Config.Port node)) as [_ ->].
Qed.

Lemma line_trimmed node s : line_wf node → TrimSpace (line node +:+ s) = trim_right (line node +:+ s).
Proof.
  intros (Hid & _). unfold TrimSpace, line. rewrite <-!string_app_assoc. by rewrite trim_left_word.
Qed.

Lemma trim_line node : line_wf node → trim_right (line node) = line node.
Proof.
  intros (_ & _ & Hs). unfold line. rewrite !string_app_assoc.
  rewrite trim_right_app; rewrite trim_right_word by apply Hs; [done|apply Hs].
Qed.

Lemma parse_line_ok m node : line_wf node → parse_line m (line node) = <[Config.ID node := info node]> m.
Proof.
  intros Hwf. unfold parse_line. pose proof (line_trimmed node "" Hwf) as Ht. rewrite string_app_nil_r in Ht.
  rewrite Ht, trim_line by done.
  rewrite decide_False by (unfold line; destruct Hwf as ([? _] & _); by destruct (Config.ID node)).
  unfold line. rewrite Fields_three; [done|apply Hwf|by apply node_addr_word|apply Hwf].
Qed.

Lemma line_no_LF node : line_wf node → string_elem LF (line node) = false.
Proof.
  intros Hwf. pose proof (node_addr_word node Hwf) as [_ Ha]. destruct Hwf as ([_ Hid] & _ & [_ Hs]).
  unfold line. rewrite !string_elem_app. by rewrite (no_space_LF _ Hid), (no_space_LF _ Ha), (no_space_LF _ Hs).
Qed.

Lemma trim_response node nodes :
  Forall line_wf (node :: nodes) → trim_right (response (node :: nodes)) ≠ "" ∧
    Split (trim_right (response (node :: nodes))) LF = line <$> node :: nodes.
Proof.
  revert node. induction nodes as [|node' nodes IH]; intros node [Hwf Hrest]%Forall_cons.
  - unfold response. cbn [fmap list_fmap concat_strings foldr]. rewrite string_app_nil_r.
    rewrite trim_right_blank, trim_line by done. split.
    + unfold line. destruct Hwf as ([? _] & _). by destruct (Config.ID node).
    + by rewrite Split_no_sep by by apply line_no_LF.
  - destruct (IH node' Hrest) as [Hne Hsp].
    change (response (node :: node' :: nodes)) with ((line node +:+ String LF "") +:+ response (node' :: nodes)).
    rewrite trim_right_app by done. split; [by destruct (line node)|].
    rewrite <-string_app_assoc. change (String LF "" +:+ ?x) with (String LF x).
    rewrite Split_app_sep by by apply line_no_LF. by rewrite Hsp.
Qed.

(** What the client makes of the reply: the nodes, by ID. *)
Definition known (nodes : list Config.NodeInfo) : gmap string ClusterClient.NodeInfo :=
  foldl (λ m node, <[Config.ID node := info node]> m) ∅ nodes.

Lemma parse_response c nodes :
  Forall line_wf nodes → nodes ≠ [] →
  ClusterClient.parseClusterNodes c (response nodes) = (GOk (), ClusterClient.with_nodes c (known nodes)).
Proof.
  intros Hwf Hne. destruct nodes as [|node nodes]; [done|].
  assert (TrimSpace (response (node :: nodes)) = trim_right (response (node :: nodes))) as Ht.
  { change (response (node :: nodes)) with ((line node +:+ String LF "") +:+ response nodes).
    rewrite <-string_app_assoc. apply line_trimmed. by apply Forall_cons in Hwf as [? _]. }
  unfold ClusterClient.parseClusterNodes. rewrite Ht. destruct (trim_response node nodes Hwf) as [_ ->].
  assert (∀ m l, Forall line_wf l → foldl parse_line m (line <$> l) =
    foldl (λ m node, <[Config.ID node := info node]> m) m l) as Hfold.
  { intros m l Hl. revert m. induction Hl as [|x l Hx _ IH]; intros m; [done|].
    rewrite fmap_cons. cbn [foldl]. by rewrite parse_line_ok, IH. }
  rewrite Hfold by done. fold (known (node :: nodes)).
  rewrite decide_False; [done|]. cbn [ClusterClient.nodes ClusterClient.with_nodes].
  unfold known. destruct (exists_last (l := node :: nodes)) as (l & x & ->); [done|].
  rewrite foldl_snoc. apply insert_non_empty.
Qed.
End reply.

(** ** The server's side *)

(** The CLUSTER commands of a node that reaches no other node. *)
Definition cluster_handler (ord : orders) (hcs : gmap positive Health.HealthChecker) (w : World)
    (command : list value) : outcome World :=
  fst <$> @handleClusterCommand () no_network ord hcs w command ().

(** The status CLUSTER NODES reports of a node. *)
Definition reported (hcs : gmap positive Health.HealthChecker) (hc : option positive) (node : Config.NodeInfo)
    (status : string) : Prop :=
  match hc with
  | None => status = "active"
  | Some p => ∃ c st, hcs !! p = Some c ∧ Health.GetNodeStatus c (Config.ID node) = Ret st ∧
      status = Health.NodeStatus_String st
  end.

Lemma node_line_reported hcs hc acc node status :
  reported hcs hc node status →
  node_line hcs hc acc node = Ret (acc +:+ Config.ID node +:+ " " +:+ node_addr node +:+ " " +:+ status +:+ String LF "").
Proof.
  unfold node_line, reported. destruct hc as [p|]; [|by intros ->].
  intros (c & st & -> & Hg & ->). cbn [or_panic mbind outcome_bind]. by rewrite Hg.
Qed.

Lemma nodes_reply hcs w cfg status :
  NodeState.config (nodeState (srv w)) = Some cfg →
  Forall (λ node, reported hcs (NodeState.healthChecker (nodeState (srv w))) node (status node))
    (Config.cfg_Nodes cfg) →
  handleClusterNodes hcs w = Ret (reply w (EncodeBulkString (response status (Config.cfg_Nodes cfg)) false)).
Proof.
  intros Hcfg Hst. unfold handleClusterNodes. rewrite Hcfg.
  assert (∀ acc, for_each (node_line hcs (NodeState.healthChecker (nodeState (srv w)))) acc (Config.cfg_Nodes cfg)
    = Ret (acc +:+ response status (Config.cfg_Nodes cfg))) as H; [|by rewrite H].
  induction Hst as [|node nodes Hn _ IH]; intros acc; [by cbn; rewrite string_app_nil_r|].
  cbn [for_each]. rewrite (node_line_reported _ _ _ _ _ Hn). cbn [mbind outcome_bind]. rewrite IH. f_equal.
  change (response status (node :: nodes)) with ((line status node +:+ String LF "") +:+ response status nodes).
  unfold line. by rewrite <-!string_app_assoc.
Qed.

Section discovery.
Context (ord : orders) (hcs : gmap positive Health.HealthChecker) (nenv : nat → Env).
Context (order : gmap string ClusterClient.NodeInfo → list string).
#[local] Instance net : Network Net := servers (cluster_handler ord hcs) nenv.

Lemma cluster_nodes_request e w cfg status :
  subscriberMode (state w) = false → inTransaction (state w) = false →
  NodeState.config (nodeState (srv w)) = Some cfg →
  Forall (λ node, reported hcs (NodeState.healthChecker (nodeState (srv w))) node (status node))
    (Config.cfg_Nodes cfg) →
  handle_request (cluster_handler ord hcs) e w [VStr "CLUSTER"; VStr "NODES"] =
    Ret (observe (reply w (EncodeBulkString (response status (Config.cfg_Nodes cfg)) false))).
Proof.
  intros Hs Ht Hcfg Hst. rewrite Transactions.handle_request_gate, Ht by done.
  change (dispatch (cluster_handler ord hcs) e w (VStr "CLUSTER") [VStr "CLUSTER"; VStr "NODES"])
    with (cluster_handler ord hcs w [VStr "CLUSTER"; VStr "NODES"]).
  assert (cluster_handler ord hcs w [VStr "CLUSTER"; VStr "NODES"] = handleClusterNodes hcs w) as ->.
  { unfold cluster_handler.
    change (@handleClusterCommand () no_network ord hcs w [VStr "CLUSTER"; VStr "NODES"] ())
      with (w ← handleClusterNodes hcs w; mret (w, ())). by destruct (handleClusterNodes hcs w). }
  by rewrite (nodes_reply hcs w cfg status Hcfg Hst).
Qed.

(** A client that starts from a node of the cluster. *)
Lemma discovered seed n w cfg status :
  nodes n !! seed = Some w → NodeState.config (nodeState (srv w)) = Some cfg →
  Forall (λ node, reported hcs (NodeState.healthChecker (nodeState (srv w))) node (status node))
    (Config.cfg_Nodes cfg) →
  Forall (line_wf status) (Config.cfg_Nodes cfg) → Config.cfg_Nodes cfg ≠ [] →
  fits (response status (Config.cfg_Nodes cfg)) →
  ∃ n', NewClusterClient order [seed] n =
    Ret (GOk (ClusterClient.buildHashRing
      (mkCC [seed] (NewHashRing 150) ∅ (known status (Config.cfg_Nodes cfg)) false)
      (order (known status (Config.cfg_Nodes cfg)))), n').
Proof.
  intros Hn Hcfg Hrep Hwf Hne Hfit. set (text := response status (Config.cfg_Nodes cfg)).
  pose proof (cluster_nodes_request (nenv (tick n)) (drained (accept w)) cfg status eq_refl eq_refl Hcfg Hrep) as Hh.
  set (n1 := mkNet (<[seed := accept w]> (nodes n)) (tick n)).
  assert (∃ enc, EncodeArray [VStr "CLUSTER"; VStr "NODES"] = Ret enc ∧
    parse enc = Ret (GOk (VSlice [VStr "CLUSTER"; VStr "NODES"]), "") ∧ (0 < String.length enc)%nat)
    as (enc & Henc & Hp & Hlen).
  { eexists. split; [reflexivity|]. split; [by vm_compute|by apply Nat.ltb_lt; vm_compute]. }
  assert (nodes n1 !! seed = Some (accept w)) as Hn1 by (cbn; by rewrite lookup_insert_eq).
  pose proof (net_exchange_request (cluster_handler ord hcs) nenv n1 seed _ _ enc _ Hn1 Hp Hlen Hh) as Hx.
  cbn [observe with_cache reply drained out] in Hx. fold text in Hx. change ("" +:+ ?x) with x in Hx.
  change (servers (cluster_handler ord hcs) nenv) with net in Hx.
  eexists. unfold NewClusterClient. rewrite bool_decide_eq_false_2 by (cbn; lia).
  unfold ClusterClient.discoverTopology. cbn [ClusterClient.seeds ClusterClient.discover_loop].
  assert (Client.NewClient n seed = (GOk (Client.mkClient seed ""), n1)) as ->.
  { unfold Client.NewClient. cbn [dial net servers]. unfold net_dial. by rewrite Hn. }
  unfold Client.SendCommand. cbn [fmap list_fmap]. rewrite Henc. cbn [mbind outcome_bind].
  rewrite (Client.send_on_ok _ _ (Client.mkClient seed "") n1 enc _ _ ltac:(done) Hx).
  cbn [mbind outcome_bind Client.c_reader]. change ("" +:+ ?x) with x.
  pose proof (Parse_bulk (String.length (EncodeBulkString text false)) text "" Hfit) as Hpb.
  rewrite string_app_nil_r in Hpb. unfold parse. rewrite Hpb.
  cbn [mbind outcome_bind mret outcome_ret Client.format_v]. unfold text.
  by rewrite parse_response.
Qed.
End discovery.

(** ** The client's ring *)

Lemma add_node_inactive c order :
  (∀ id node, ClusterClient.nodes c !! id = Some node → ClusterClient.Status node ≠ "active") →
  ClusterClient.buildHashRing c order = c.
Proof.
  intros H. unfold ClusterClient.buildHashRing. induction order as [|id order IH]; [done|]. cbn [foldl].
  unfold add_node at 2. destruct (ClusterClient.nodes c !! id) eqn:E; [|exact IH].
  rewrite bool_decide_eq_true_2 by by eapply H. exact IH.
Qed.

(** After the nodes [ids] were added. *)
Record ring_of (nodes : gmap string ClusterClient.NodeInfo) (ids : list string) (c : ClusterClient) : Prop := {
  ro_nodes : ClusterClient.nodes c = nodes;
  ro_vn : HashRing.virtualNodes (ClusterClient.hashRing c) = 150;
  ro_ok : HashRing.ring_ok (ClusterClient.hashRing c);
  ro_owner h s : HashRing.hashToShard (ClusterClient.hashRing c) !! h = Some s → s ∈ ids;
  ro_addr id node : id ∈ ids → nodes !! id = Some node →
    GetNodeAddress (ClusterClient.hashRing c) id = ClusterClient.Address node;
  ro_some : ids ≠ [] → hashValues (ClusterClient.hashRing c) ≠ []
}.

Lemma SetNodeAddress_ok hr id a : HashRing.ring_ok hr → HashRing.ring_ok (SetNodeAddress hr id a).
Proof. by intros []. Qed.

Lemma AddShard_nonempty hr id : 0 < HashRing.virtualNodes hr → hashValues (AddShard hr id) ≠ [].
Proof.
  intros Hv E. assert (HashRing.hash (HashRing.virtualKey id 0) ∈ hashValues (AddShard hr id)) as Hin.
  { apply HashRing.elem_of_AddShard. right. unfold HashRing.positions.
    apply list_elem_of_fmap. exists 0. split; [done|]. apply elem_of_seqZ. lia. }
  rewrite E in Hin. by apply elem_of_nil in Hin.
Qed.

Lemma add_node_ring nodes ids c id node :
  ring_of nodes ids c → nodes !! id = Some node → ClusterClient.Status node = "active" →
  ring_of nodes (id :: ids) (add_node c id).
Proof.
  intros [Hn Hv Hok Ho Ha Hs] Hid Hst. unfold add_node. rewrite Hn, Hid, Hst.
  rewrite bool_decide_eq_false_2 by tauto.
  split; cbn [ClusterClient.with_hashRing ClusterClient.hashRing ClusterClient.nodes].
  - done.
  - cbn. by rewrite HashRing.virtualNodes_add.
  - by apply SetNodeAddress_ok, HashRing.ring_ok_add.
  - intros h s. cbn [SetNodeAddress HashRing.hashToShard]. rewrite HashRing.lookup_AddShard.
    case_decide; [intros [= <-]; apply elem_of_cons; by left|].
    intros Hh. apply elem_of_cons. right. by eapply Ho.
  - intros id' node' Hin Hid'. unfold GetNodeAddress. cbn [SetNodeAddress nodeAddresses].
    destruct (decide (id' = id)) as [->|Hne]; [rewrite lookup_insert_eq; cbn; congruence|].
    rewrite lookup_insert_ne by done. apply elem_of_cons in Hin as [|Hin]; [done|].
    rewrite <-(Ha id' node' Hin Hid'). unfold GetNodeAddress. by rewrite HashRing.AddShard_eq.
  - intros _. cbn [SetNodeAddress hashValues]. apply AddShard_nonempty. lia.
Qed.

Lemma buildHashRing_ring nodes order ids c :
  ring_of nodes ids c →
  (∀ id, id ∈ order → ∃ node, nodes !! id = Some node ∧ ClusterClient.Status node = "active") →
  ring_of nodes (reverse order ++ ids) (ClusterClient.buildHashRing c order).
Proof.
  revert ids c. induction order as [|id order IH]; intros ids c Hr Hact; [done|].
  destruct (Hact id) as (node & Hid & Hst); [apply elem_of_cons; by left|].
  rewrite reverse_cons, <-(assoc_L (++)). cbn [ClusterClient.buildHashRing foldl].
  apply (IH (id :: ids) (add_node c id)); [by eapply add_node_ring|].
  intros id' Hid'. apply Hact, elem_of_cons. by right.
Qed.

(** Every key is routed to a known node, at its address. *)
Lemma ring_routes nodes ids c key :
  ring_of nodes ids c → (∀ id, id ∈ ids → is_Some (nodes !! id)) → ids ≠ [] →
  ∃ id node, HashRing.GetNode (ClusterClient.hashRing c) key = GOk id ∧ nodes !! id = Some node ∧
    GetNodeAddress (ClusterClient.hashRing c) id = ClusterClient.Address node.
Proof.
  intros [_ _ Rok Ro Ra Rs] Hids Hne. change (HashRing.GetNode ?r key) with (HashRing.GetShard r key).
  pose proof (HashRing.GetShard_spec _ key Rok) as Hs. destruct (HashRing.GetShard _ key) as [s|e].
  - destruct Hs as (h & _ & Hin%Ro). destruct (Hids s Hin) as [node Hnode]. exists s, node. eauto.
  - by destruct (Rs Hne).
Qed.

Lemma known_lookup status nodes node :
  NoDup (Config.ID <$> nodes) → node ∈ nodes → known status nodes !! Config.ID node = Some (info status node).
Proof.
  unfold known. induction nodes as [|x nodes IH] using rev_ind; [by intros _ ?%elem_of_nil|].
  rewrite fmap_app, NoDup_app, elem_of_app, foldl_snoc. intros (Hn & Hd & _) [Hin|Hin].
  - rewrite lookup_insert_ne; [by apply IH|]. intros E. apply (Hd (Config.ID node)).
    + by apply list_elem_of_fmap_2.
    + rewrite <-E. by apply list_elem_of_singleton.
  - apply list_elem_of_singleton in Hin as ->. by rewrite lookup_insert_eq.
Qed.

Lemma known_inv status nodes id node :
  known status nodes !! id = Some node → ∃ x, x ∈ nodes ∧ id = Config.ID x ∧ node = info status x.
Proof.
  unfold known. induction nodes as [|x nodes IH] using rev_ind; [done|]. rewrite foldl_snoc.
  destruct (decide (id = Config.ID x)) as [->|Hne].
  - rewrite lookup_insert_eq. intros [= <-]. exists x. rewrite elem_of_app, list_elem_of_singleton. auto.
  - rewrite lookup_insert_ne by done. intros (y & Hy & -> & ->)%IH. exists y. rewrite elem_of_app. auto.
Qed.

(** ** The retry after a redirect *)

Section retry.
Context {N : Type} `{!Network N} (order : gmap string ClusterClient.NodeInfo → list string).

(** A call whose errors never start with the word MOVED. *)
Definition no_moved {A} (op : Client.Client → N → outcome (gres string A * Client.Client * N)) : Prop :=
  ∀ c n e c' n', op c n = Ret (GErr e, c', n') → HasPrefix e "MOVED" = false.

Lemma send_no_moved data c n e c' n' :
  Client.send_on "failed to write command: " "failed to flush: " data c n = Ret (GErr e, c', n') →
  HasPrefix e "MOVED" = false.
Proof.
  unfold Client.send_on. destruct (Client.c_writeErr c); [by intros [= <- _ _]|]. intros H. inv_ret.
  destruct r as [[bytes|e'] n1]; [done|]. injection H as <- _ _. by destruct (slen data <=? 4096).
Qed.

Lemma execute_no_moved command : no_moved (Client.executeCommandWithRedirect command).
Proof.
  intros c n e c' n'. unfold Client.executeCommandWithRedirect. generalize Client.MaxRedirects. intros more.
  revert c n. induction more as [|more IH]; intros c n H; cbn [Client.redirect_loop] in H.
  { by injection H as <- _ _. }
  inv_ret. destruct r0 as [[[u|e'] c0] n1]; [|injection H as <- _ _; by eapply send_no_moved]. inv_ret.
  destruct r0 as [[response|e'] c1]; [|by injection H as <- _ _].
  destruct (IsRedirect response); [|done].
  destruct (ParseRedirect response) as [redirect|e']; [|by injection H as <- _ _].
  destruct (dial n1 (Address redirect)) as [[]]; [by apply IH in H|by injection H as <- _ _].
Qed.

Lemma expect_no_moved accepted command :
  no_moved (Client.expect_reply accepted "" "unexpected response: " command).
Proof.
  intros c n e c' n' H. unfold Client.expect_reply in H. inv_ret. destruct r as [[r c1] n1]. inv_ret.
  destruct r as [r|e']; [|injection H as <-; by eapply execute_no_moved].
  case_bool_decide; [done|]. by injection H as <-.
Qed.

Lemma retry_dead {A} (op : Client.Client → N → outcome (gres string A * Client.Client * N)) fuel key c n :
  no_moved op → routed_call order (S fuel) key op c n = routed_call order 1 key op c n.
Proof.
  intros Hop. cbn [routed_call]. destruct (HashRing.GetNode _ key) as [nodeID|e]; [|done].
  case_decide; [done|]. destruct (ClusterClient.getOrCreateConnection _ _ _) as [[[conn|e] c1] n1]; [|done].
  destruct (op conn n1) as [[[[v|e] conn'] n2]| | |] eqn:E; try done. cbn [mbind outcome_bind].
  by rewrite (Hop _ _ _ _ _ E).
Qed.
End retry.

(** ** Claims *)

(** C31. The topology survives the wire: a cluster client that starts from a node
    without a health checker learns exactly the configured nodes, and routes every
    key to one of them, at its configured address. *)
Theorem cluster_discovery ord hcs nenv order seed n w cfg :
  nodes_order order → nodes n !! seed = Some w → NodeState.config (nodeState (srv w)) = Some cfg →
  NodeState.healthChecker (nodeState (srv w)) = None →
  Forall (line_wf (λ _, "active")) (Config.cfg_Nodes cfg) → Config.cfg_Nodes cfg ≠ [] →
  NoDup (Config.ID <$> Config.cfg_Nodes cfg) → fits (response (λ _, "active") (Config.cfg_Nodes cfg)) →
  ∃ c n', @NewClusterClient Net (servers (cluster_handler ord hcs) nenv) order [seed] n = Ret (GOk c, n') ∧
    (∀ id info, ClusterClient.nodes c !! id = Some info ↔
       ∃ node, node ∈ Config.cfg_Nodes cfg ∧ id = Config.ID node ∧ info = mkNodeInfo id (node_addr node) "active") ∧
    (∀ key, ∃ node, node ∈ Config.cfg_Nodes cfg ∧
       HashRing.GetNode (ClusterClient.hashRing c) key = GOk (Config.ID node) ∧
       GetNodeAddress (ClusterClient.hashRing c) (Config.ID node) = node_addr node).
Proof.
  intros Ho Hn Hcfg Hhc Hwf Hne Hnd Hfit. set (status := λ _ : Config.NodeInfo, "active") in *.
  destruct (discovered ord hcs nenv order seed n w cfg status Hn Hcfg) as (n' & Hnew); [|done..|].
  { apply Forall_true. intros node. unfold reported. by rewrite Hhc. }
  set (m := known status (Config.cfg_Nodes cfg)) in *.
  assert (∀ id, id ∈ order m → ∃ node, m !! id = Some node ∧ ClusterClient.Status node = "active") as Hact.
  { intros id Hid. rewrite (Ho m) in Hid. apply list_elem_of_fmap in Hid as ([id' node] & -> & Hel).
    apply elem_of_map_to_list in Hel. exists node. split; [done|].
    by destruct (known_inv _ _ _ _ Hel) as (x & _ & _ & ->). }
  pose proof (buildHashRing_ring m (order m) [] (mkCC [seed] (NewHashRing 150) ∅ m false)
    ltac:(split; try done; [apply HashRing.ring_ok_new|by intros id node ?%elem_of_nil]) Hact) as Hring.
  rewrite app_nil_r in Hring. eexists _, n'. split; [exact Hnew|]. split.
  { intros id x. rewrite (ro_nodes _ _ _ Hring). split.
    - intros (node & Hin & -> & ->)%known_inv. by exists node.
    - intros (node & Hin & -> & ->). by apply (known_lookup status). }
  intros key. destruct (ring_routes m (reverse (order m)) _ key Hring) as (id & node & Hkey & Hid & Haddr).
  - intros id Hid. rewrite elem_of_reverse in Hid. destruct (Hact id Hid) as (node & ? & _). eauto.
  - intros E%(f_equal reverse). rewrite reverse_involutive in E.
    destruct (Config.cfg_Nodes cfg) as [|x l] eqn:El; [done|].
    pose proof (known_lookup status (x :: l) x Hnd ltac:(apply elem_of_cons; by left)) as Hx.
    assert (Config.ID x ∈ order m) as Hin.
    { rewrite (Ho m). apply list_elem_of_fmap. eexists (_, _). split; [done|]. by apply elem_of_map_to_list. }
    rewrite E in Hin. by apply elem_of_nil in Hin.
  - destruct (known_inv _ _ _ _ Hid) as (x & Hx & -> & ->). by exists x.
Qed.

(** A pending node of the cluster: configuration, but no health checker. *)
Definition demo_orders : orders := mkOrders [] [] [] (Transfer.mkMenv (λ _ _, []) (λ _ _, 0)).
Definition demo_order (m : gmap string ClusterClient.NodeInfo) : list string := (map_to_list m).*1.
Definition clustered (hc : option positive) : World :=
  mkWorld (mkServer (Cache.NewCache 3 NewCollector) (Persistence.NewAOF "" None Config.SyncAlways 2) ∅
    PubSub.NewPubSub (NodeState.SetHealthChecker
      (NodeState.node_of (NewHashRing 150) NodeState.demo_cfg "n1") hc)) 7 new_state "".

Lemma cluster_discovery_witness :
  ∃ c n', @NewClusterClient Net (servers (cluster_handler demo_orders ∅) demo_env) demo_order ["s:1"]
      (mkNet {["s:1" := clustered None]} 0) = Ret (GOk c, n') ∧
    (∀ id info, ClusterClient.nodes c !! id = Some info ↔
       ∃ node, node ∈ Config.cfg_Nodes NodeState.demo_cfg ∧ id = Config.ID node ∧
         info = mkNodeInfo id (node_addr node) "active") ∧
    (∀ key, ∃ node, node ∈ Config.cfg_Nodes NodeState.demo_cfg ∧
       HashRing.GetNode (ClusterClient.hashRing c) key = GOk (Config.ID node) ∧
       GetNodeAddress (ClusterClient.hashRing c) (Config.ID node) = node_addr node).
Proof.
  apply (cluster_discovery demo_orders ∅ demo_env demo_order "s:1" (mkNet {["s:1" := clustered None]} 0)
    (clustered None) (NodeState.with_node_id NodeState.demo_cfg "n1")).
  - intros m. reflexivity.
  - done.
  - done.
  - done.
  - split_Forall; split_and!; by vm_compute.
  - done.
  - apply (bool_decide_eq_true_1 (NoDup (Config.ID <$> Config.cfg_Nodes NodeState.demo_cfg))). by vm_compute.
  - by vm_compute.
Defined.

(** C40. Against a running cluster the client has no nodes: every node that leads or
    follows a shard has a health checker, so CLUSTER NODES reports "alive",
    "suspected" or "dead", while the client puts only "active" nodes on its ring.
    The client starts without an error, and every call on it fails. *)
Theorem cluster_client_unusable ord hcs nenv order seed n w cfg p hc status :
  nodes n !! seed = Some w → NodeState.config (nodeState (srv w)) = Some cfg →
  NodeState.healthChecker (nodeState (srv w)) = Some p → hcs !! p = Some hc →
  (∀ node, node ∈ Config.cfg_Nodes cfg → Health.GetNodeStatus hc (Config.ID node) = Ret (status node)) →
  Forall (line_wf (λ node, Health.NodeStatus_String (status node))) (Config.cfg_Nodes cfg) →
  Config.cfg_Nodes cfg ≠ [] →
  fits (response (λ node, Health.NodeStatus_String (status node)) (Config.cfg_Nodes cfg)) →
  ∃ c n', @NewClusterClient Net (servers (cluster_handler ord hcs) nenv) order [seed] n = Ret (GOk c, n') ∧
    ∀ key value ttl n'', let e := "failed to find node for key " +:+ key +:+ ": hash ring is empty" in
      @ClusterClient.Get Net (servers (cluster_handler ord hcs) nenv) order key c n'' = Ret (GErr e, c, n'') ∧
      @ClusterClient.Set_ Net (servers (cluster_handler ord hcs) nenv) order key value c n'' = Ret (GErr e, c, n'') ∧
      @ClusterClient.SetWithTTL Net (servers (cluster_handler ord hcs) nenv) order key value ttl c n'' =
        Ret (GErr e, c, n'') ∧
      @ClusterClient.Delete Net (servers (cluster_handler ord hcs) nenv) order key c n'' = Ret (GErr e, c, n'').
Proof.
  intros Hn Hcfg Hhc Hp Hst Hwf Hne Hfit.
  destruct (discovered ord hcs nenv order seed n w cfg (λ node, Health.NodeStatus_String (status node)) Hn Hcfg)
    as (n' & Hnew); [|done..|].
  { apply Forall_forall. intros node Hnode. unfold reported. rewrite Hhc. exists hc, (status node). auto. }
  rewrite add_node_inactive in Hnew; [by exists (mkCC [seed] (NewHashRing 150) ∅
    (known (λ node, Health.NodeStatus_String (status node)) (Config.cfg_Nodes cfg)) false), n'|].
  cbn [ClusterClient.nodes]. intros id node Hid.
  destruct (known_inv _ _ _ _ Hid) as (x & _ & _ & ->). cbn [info ClusterClient.Status].
  by destruct (status x).
Qed.

Definition demo_health : Health.HealthChecker :=
  Health.RegisterNode (Health.RegisterNode (Health.NewHealthChecker 5 3 2) "n2" "10.0.0.2:7002" 1)
    "n3" "10.0.0.3:7003" 1.
Definition demo_status (node : Config.NodeInfo) : Health.NodeStatus :=
  if decide (Config.ID node = "n1") then Health.NodeStatusDead else Health.NodeStatusAlive.

Lemma cluster_client_unusable_witness :
  ∃ c n', @NewClusterClient Net (servers (cluster_handler demo_orders {[1%positive := demo_health]}) demo_env)
      demo_order ["s:1"] (mkNet {["s:1" := clustered (Some 1%positive)]} 0) = Ret (GOk c, n') ∧
    ∀ key value ttl n'', let e := "failed to find node for key " +:+ key +:+ ": hash ring is empty" in
      let net := servers (cluster_handler demo_orders {[1%positive := demo_health]}) demo_env in
      @ClusterClient.Get Net net demo_order key c n'' = Ret (GErr e, c, n'') ∧
      @ClusterClient.Set_ Net net demo_order key value c n'' = Ret (GErr e, c, n'') ∧
      @ClusterClient.SetWithTTL Net net demo_order key value ttl c n'' = Ret (GErr e, c, n'') ∧
      @ClusterClient.Delete Net net demo_order key c n'' = Ret (GErr e, c, n'').
Proof.
  apply (cluster_client_unusable demo_orders {[1%positive := demo_health]} demo_env demo_order "s:1"
    (mkNet {["s:1" := clustered (Some 1%positive)]} 0) (clustered (Some 1%positive))
    (NodeState.with_node_id NodeState.demo_cfg "n1") 1%positive demo_health demo_status).
  - done.
  - done.
  - done.
  - done.
  - intros node Hnode. cbn in Hnode. repeat (apply elem_of_cons in Hnode as [->|Hnode]; [by vm_compute|]).
    by apply elem_of_nil in Hnode.
  - split_Forall; split_and!; by vm_compute.
  - done.
  - by vm_compute.
Defined.

(** The calls of the cluster client end after one attempt: the retry after a
    MOVED error calls the method again without a bound, but no error of the
    underlying client starts with that word, so it is never taken, and the
    topology is never refreshed after a redirect. *)
Theorem moved_retry_never_taken {N : Type} `{!Network N} order fuel key value ttl c (n : N) :
  routed_call order (S fuel) key (Client.Get key) c n = ClusterClient.Get order key c n ∧
  routed_call order (S fuel) key (Client.Set_ key value) c n = ClusterClient.Set_ order key value c n ∧
  routed_call order (S fuel) key (Client.SetWithTTL key value (whole_seconds ttl)) c n =
    ClusterClient.SetWithTTL order key value ttl c n ∧
  routed_call order (S fuel) key (Client.Delete key) c n = ClusterClient.Delete order key c n.
Proof.
  split_and!; apply retry_dead; [apply execute_no_moved|apply expect_no_moved..].
Qed.

End ClusterClientSpec.
