(* ===== verification/Startup.v ===== *)
(** * internal/server/server.go: how a node starts

    Starting a node is a function from the configuration, the files on disk and
    what the system grants (ports, a random id, the clock) to the node: the state
    its connections share, its follower and its health checker.  [GErr] is an early
    return after a logged error.  Accepting connections is the scheduler that calls
    [Handler.handleConnection]; it is not part of the state. *)

From S2P Require Import Prelude GoStd Lru Metrics Cache CacheSpec CacheTrace Resp HashRing Health PubSub.
From S2P Require Import ReplProtocol Config NodeState Persistence Leader Follower Handler HandlerSpec.
Import HashRing.
Local Open Scope Z_scope.

Module Startup.

(** The files (an absent log is created empty), the clock of the recovery, the
    ports that can be listened on, a port the system chooses, a random id, and the
    clock when nodes are registered. *)
Record sys := mkSys {
  aof_content : string;
  snapshot_content : option string;
  can_open : bool;
  clock : nat → Z;
  can_listen : Z → bool;
  free_port : option Z;
  uuid : string;
  now : Z
}.

(** The pointers of a node: its leader, its health checker, migrator and cache. *)
Definition leader_ptr : positive := 1.
Definition health_ptr : positive := 1.
Definition migrator_ptr : positive := 1.
Definition cache_ptr : positive := 1.

Record Node := mkNode {
  server : Handler.Server;
  follower : option Follower.Follower;
  health : option Health.HealthChecker;
  replPort : Z;
  port : Z
}.

(** Cache, log and recovery, at the top of every way to start. *)
Definition open_store (s : sys) (cfg : Config.Config) : outcome (gres string (Cache.Cache * Persistence.AOF)) :=
  let myCache := Cache.NewCache (Config.cfg_MaxCacheSize cfg) NewCollector in
  if can_open s then
    let aof := Persistence.NewAOF (aof_content s) (snapshot_content s) (Config.GetSyncPolicy cfg)
                 (Config.cfg_GrowthFactor cfg) in
    myCache ← Persistence.RecoverAOF (clock s) (snapshot_content s) (Some (aof_content s)) myCache;
    mret (GOk (myCache, aof))
  else mret (GErr "Failed to create AOF").

Definition peers (cfg : Config.Config) : list string :=
  if bool_decide (Config.cfg_PeerReplAddrs cfg ≠ "") then Split (Config.cfg_PeerReplAddrs cfg) "," else [].

(** ** Simple mode *)

Definition computed_port (cfg : Config.Config) : Z :=
  let replPort := Config.cfg_Port cfg + 1000 in
  if 65535 <? replPort then Z.rem (Config.cfg_Port cfg) 1000 + 50000 else replPort.

(** The leader on the computed port, or on one the system chooses. *)
Definition start_leader (s : sys) (cfg : Config.Config) : gres string (Leader.Leader * Z) :=
  match Leader.NewLeader (can_listen s) (computed_port cfg) with
  | GOk leader => GOk (leader, computed_port cfg)
  | GErr _ =>
      match free_port s with
      | None => GErr "Failed to create leader"
      | Some replPort =>
          match Leader.NewLeader (can_listen s) replPort with
          | GOk leader => GOk (leader, replPort)
          | GErr _ => GErr "Failed to create leader"
          end
      end
  end.

(** An error of [NewFollower] is only logged: the loop is then started on a nil
    follower. *)
Definition Start (s : sys) (cfg : Config.Config) : outcome (gres string Node) :=
  store ← open_store s cfg;
  match store with
  | GErr e => mret (GErr e)
  | GOk (myCache, aof) =>
      let nodeState := NodeState.NewNodeState (Config.cfg_Role cfg) None "" in
      let ps := PubSub.NewPubSub in
      let listen node :=
        if can_listen s (Config.cfg_Port cfg) then mret (GOk node) else mret (GErr "Failed to create listener") in
      if bool_decide (Config.cfg_Role cfg = "leader") then
        match start_leader s cfg with
        | GErr e => mret (GErr e)
        | GOk (leader, replPort) =>
            listen (mkNode (Handler.mkServer myCache aof {[leader_ptr := leader]} ps
                              (NodeState.SetLeader nodeState (Some leader_ptr)))
                      None None replPort (Config.cfg_Port cfg))
        end
      else
        let replPort := if Config.cfg_ReplPort cfg =? 0 then Config.cfg_Port cfg + 1000
                        else Config.cfg_ReplPort cfg in
        match Follower.NewFollower (Some myCache) (Config.cfg_LeaderAddr cfg) (uuid s) [] (Config.cfg_Priority cfg)
                replPort (peers cfg) with
        | GErr _ => Panic
        | GOk follower =>
            listen (mkNode (Handler.mkServer myCache aof ∅ ps nodeState) (Some follower) None 0
                      (Config.cfg_Port cfg))
        end
  end.

(** [Stop]: the follower's loop is told to end and the log is synced and closed,
    after the connections have finished. *)
Definition Stop (n : Node) : Node :=
  let s := server n in
  mkNode (Handler.mkServer (Handler.cache s) (Persistence.Close (Handler.aof s)) (Handler.leaders s)
            (Handler.ps s) (Handler.nodeState s))
    (Follower.Stop <$> follower n) (health n) (replPort n) (port n).

(** ** Cluster mode *)

Definition node_addr (node : Config.NodeInfo) : string :=
  Config.Host node +:+ ":" +:+ Itoa (Config.Port node).
Definition repl_addr (node : Config.NodeInfo) : string :=
  Config.Host node +:+ ":" +:+ Itoa (Config.ReplPort node).

Definition set_addresses (cfg : Config.Config) (hr : HashRing) : HashRing :=
  foldl (λ hr node, SetNodeAddress hr (Config.ID node) (node_addr node)) hr (Config.cfg_Nodes cfg).

(** The nodes a health checker watches: all but those in [skip]. *)
Definition health_checker (s : sys) (cfg : Config.Config) (skip : list string) : Health.HealthChecker :=
  Health.SetCallbacks
    (foldl (λ hc node, if bool_decide (Config.ID node ∈ skip) then hc
                       else Health.RegisterNode hc (Config.ID node) (node_addr node) (now s))
       (Health.NewHealthChecker (5 * Second) 3 (2 * Second)) (Config.cfg_Nodes cfg)).

(** The node state with ring, configuration, migrator and health checker. *)
Definition cluster_state (cfg : Config.Config) (hr : HashRing) (role leaderAddr : string) : NodeState.NodeState :=
  let ns := NodeState.NewNodeState role None leaderAddr in
  let ns := NodeState.SetHashRing (NodeState.SetConfig ns cfg) (set_addresses cfg hr) in
  let ns := NodeState.SetCache (NodeState.SetMigrator ns (Some migrator_ptr)) (Some cache_ptr) in
  NodeState.SetHealthChecker ns (Some health_ptr).

Definition listen_on (s : sys) (n : Node) : outcome (gres string Node) :=
  if can_listen s (port n) then mret (GOk n) else mret (GErr "Error creating listener").

Definition startAsLeader (s : sys) (myNode : Config.NodeInfo) (myCache : Cache.Cache) (aof : Persistence.AOF)
    (cfg : Config.Config) (hashRing : HashRing) : outcome (gres string Node) :=
  let nodeState := cluster_state cfg hashRing "leader" "" in
  let healthChecker := health_checker s cfg [Config.cfg_NodeID cfg] in
  match Leader.NewLeader (can_listen s) (Config.ReplPort myNode) with
  | GErr _ => mret (GErr "Error creating leader")
  | GOk leader =>
      listen_on s (mkNode (Handler.mkServer myCache aof {[leader_ptr := leader]} PubSub.NewPubSub
          (NodeState.SetLeader nodeState (Some leader_ptr)))
        None (Some healthChecker) (Config.ReplPort myNode) (Config.Port myNode))
  end.

(** The highest-priority node is skipped, whether it leads this shard or not; it
    is dereferenced for every configured node. *)
Definition startAsFollower (s : sys) (myNode : Config.NodeInfo) (myCache : Cache.Cache) (aof : Persistence.AOF)
    (leaderAddr : string) (clusterNodes : list Config.NodeInfo) (cfg : Config.Config) (hashRing : HashRing) :
    outcome (gres string Node) :=
  let nodeState := cluster_state cfg hashRing "follower" leaderAddr in
  leaderID ← (if decide (Config.cfg_Nodes cfg = []) then mret ""
              else Config.ID <$> or_panic (Config.GetHighestPriorityNode cfg));
  let healthChecker := health_checker s cfg [Config.cfg_NodeID cfg; leaderID] in
  let shardLeader := match Config.GetShardForNode cfg (Config.cfg_NodeID cfg) with
                     | GErr _ => None
                     | GOk myShard => Config.find_node (Config.LeaderID myShard) (Config.cfg_Nodes cfg)
                     end in
  let shardLeaderReplAddr := match shardLeader with Some node => repl_addr node | None => leaderAddr end in
  let leaderClientAddr := match shardLeader with Some node => node_addr node | None => "" end in
  let nodeState := NodeState.SetLeaderAddr nodeState leaderClientAddr in
  match Follower.NewFollower (Some myCache) shardLeaderReplAddr (Config.ID myNode) clusterNodes
          (Config.Priority myNode) (Config.ReplPort myNode) (peers cfg) with
  | GErr _ => mret (GErr "Error creating follower")
  | GOk follower =>
      listen_on s (mkNode (Handler.mkServer myCache aof ∅ PubSub.NewPubSub nodeState)
        (Some follower) (Some healthChecker) 0 (Config.Port myNode))
  end.

(** A node outside the configuration has every configured node as a shard of its
    own, and no health checker. *)
Definition pending_ring (cfg : Config.Config) : HashRing :=
  foldl (λ hr node, SetNodeAddress (AddShard hr (Config.ID node)) (Config.ID node) (node_addr node))
    (NewHashRing 150) (Config.cfg_Nodes cfg).

Definition startPendingNode (s : sys) (cfg : Config.Config) : outcome (gres string Node) :=
  store ← open_store s cfg;
  match store with
  | GErr e => mret (GErr e)
  | GOk (myCache, aof) =>
      let ns := NodeState.NewNodeState "pending" None "" in
      let ns := NodeState.SetHashRing (NodeState.SetConfig ns cfg) (pending_ring cfg) in
      let ns := NodeState.SetCache (NodeState.SetMigrator ns (Some migrator_ptr)) (Some cache_ptr) in
      let port := if 0 <? Config.cfg_Port cfg then Config.cfg_Port cfg else 8382 in
      listen_on s (mkNode (Handler.mkServer myCache aof ∅ PubSub.NewPubSub ns) None None 0 port)
  end.

Definition StartClusterMode (s : sys) (cfg : Config.Config) : outcome (gres string Node) :=
  match Config.GetMyNode cfg with
  | GErr _ => startPendingNode s cfg
  | GOk myNode =>
      store ← open_store s cfg;
      match store with
      | GErr e => mret (GErr e)
      | GOk (myCache, aof) =>
          let hashRing := NodeState.build_ring 150 cfg in
          if Config.IsShardLeader cfg then startAsLeader s myNode myCache aof cfg hashRing
          else
            match Config.GetShardForNode cfg (Config.cfg_NodeID cfg) with
            | GErr _ => mret (GErr "Cannot find my shard")
            | GOk myShard =>
                match Config.find_node (Config.LeaderID myShard) (Config.cfg_Nodes cfg) with
                | None => mret (GErr "Cannot find shard leader node info")
                | Some leaderNode =>
                    startAsFollower s myNode myCache aof (repl_addr leaderNode) (Config.cfg_Nodes cfg) cfg hashRing
                end
            end
      end
  end.

Definition getHighestPriority (nodes : list Config.NodeInfo) : Z :=
  foldl (λ highest node, if highest <? Config.Priority node then Config.Priority node else highest) 0 nodes.

(** ** Starting, stopping and starting again *)

Import Handler(mkWorld, new_state, srv, handleConnection).
Import HandlerSpec.

Definition with_server (n : Node) (s : Handler.Server) : Node :=
  mkNode s (follower n) (health n) (replPort n) (port n).

Definition grants (s : sys) : Prop := can_open s = true ∧ ∀ p, can_listen s p = true.

(** A leader in simple mode, from the store it opened. *)
Lemma Start_leader s cfg myCache aof :
  Config.cfg_Role cfg = "leader" → (∀ p, can_listen s p = true) →
  open_store s cfg = Ret (GOk (myCache, aof)) →
  Start s cfg = Ret (GOk (mkNode
    (Handler.mkServer myCache aof {[leader_ptr := Leader.new_leader]} PubSub.NewPubSub
       (NodeState.SetLeader (NodeState.NewNodeState "leader" None "") (Some leader_ptr)))
    None None (computed_port cfg) (Config.cfg_Port cfg))).
Proof.
  intros Hrole Hlisten Hst. unfold Start. rewrite Hst. cbn [mbind outcome_bind]. rewrite Hrole.
  unfold start_leader, Leader.NewLeader. by rewrite !Hlisten.
Qed.

Lemma open_store_log s cfg ops :
  can_open s = true → snapshot_content s = None → Forall Persistence.op_wf ops →
  Persistence.encode_log ops = Ret (aof_content s) →
  ∃ c, open_store s cfg = Ret (GOk (c, Persistence.NewAOF (aof_content s) None (Config.GetSyncPolicy cfg)
      (Config.cfg_GrowthFactor cfg))) ∧
    cache_rep c (Persistence.spec_replay (Config.cfg_MaxCacheSize cfg) (clock s) 0 ops []).
Proof.
  intros Ho Hs Hwf Hlog. unfold open_store. rewrite Ho, Hs.
  destruct (recover_log (clock s) ops (aof_content s) (Config.cfg_MaxCacheSize cfg) NewCollector Hwf Hlog)
    as (c & -> & Hc). by exists c.
Qed.

Lemma new_leader_wf : Leader.leader_wf Leader.new_leader.
Proof.
  split_and!; [constructor|by intros p ?%elem_of_nil|]. intros p [f Hf]. cbn in Hf.
  by rewrite lookup_empty in Hf.
Qed.

Lemma started_serving c aof es pt :
  cache_rep c es → Persistence.file_open aof = true →
  serving (mkWorld (Handler.mkServer c aof {[leader_ptr := Leader.new_leader]} PubSub.NewPubSub
    (NodeState.SetLeader (NodeState.NewNodeState "leader" None "") (Some leader_ptr))) pt new_state "") es.
Proof.
  intros Hc Ho. split; [done| |done|by intros; apply NodeState.alone_local]. split; [done|].
  intros lp [= <-]. exists Leader.new_leader. split; [done|apply new_leader_wf].
Qed.

(** The node after a rewrite of its log. *)
Definition rewritten (s : Handler.Server) (c : Cache.Cache) (a : Persistence.AOF) : Handler.Server :=
  Handler.mkServer c a (Handler.leaders s) (Handler.ps s) (Handler.nodeState s).

(** A leader started on a log serves what the log replays to. *)
Lemma start_on_log s cfg ops pt :
  Config.cfg_Role cfg = "leader" → grants s → snapshot_content s = None → Forall Persistence.op_wf ops →
  Persistence.encode_log ops = Ret (aof_content s) →
  ∃ n, Start s cfg = Ret (GOk n) ∧ serving (mkWorld (server n) pt new_state "")
    (Persistence.spec_replay (Config.cfg_MaxCacheSize cfg) (clock s) 0 ops []).
Proof.
  intros Hrole [Ho Hl] Hsnap Hops Hlog.
  destruct (open_store_log s cfg ops Ho Hsnap Hops Hlog) as (c & Hst & Hc).
  eexists. split; [by apply Start_leader|by apply started_serving].
Qed.

(** A node outside the configuration is a target a migration can use: started in
    cluster mode on a log, it serves what the log replays to, forwarding nothing. *)
Theorem pending_node_serves s cfg e e' ops pt :
  Config.GetMyNode cfg = GErr e → Config.GetShardForNode cfg (Config.cfg_NodeID cfg) = GErr e' →
  grants s → snapshot_content s = None → Forall Persistence.op_wf ops →
  Persistence.encode_log ops = Ret (aof_content s) →
  ∃ n, StartClusterMode s cfg = Ret (GOk n) ∧
    NodeState.ns_IsClusterMode (Handler.nodeState (server n)) = Config.IsClusterMode cfg ∧
    serving (mkWorld (server n) pt new_state "")
      (Persistence.spec_replay (Config.cfg_MaxCacheSize cfg) (clock s) 0 ops []).
Proof.
  intros Hme Hshard [Ho Hl] Hsnap Hops Hlog.
  destruct (open_store_log s cfg ops Ho Hsnap Hops Hlog) as (c & Hst & Hc).
  unfold StartClusterMode, startPendingNode. rewrite Hme, Hst. cbn [mbind outcome_bind].
  unfold listen_on. rewrite Hl. eexists. split_and!; [reflexivity|done|].
  split; [done| |done|by intros; eapply NodeState.unassigned_local]. by split.
Qed.


Definition demo_sys (log : string) : sys :=
  mkSys log None true (λ _, 5000) (λ _, true) (Some 9000) "0f1e" 5000.
Definition demo_config : Config.Config :=
  Config.mkConfig 7000 9090 3 "leader" "" 0 0 "" "cache.aof" "cache.rdb" "always" 0 2 "" [] [] "info".


(** A replica without a leader's address takes the whole process down: the error of
    [NewFollower] is logged, and the follower's loop runs on a nil pointer. *)
Theorem start_without_leader_panics s cfg :
  can_open s = true → snapshot_content s = None → aof_content s = "" →
  Config.cfg_Role cfg ≠ "leader" → Config.cfg_LeaderAddr cfg = "" → Start s cfg = Panic.
Proof.
  intros Ho Hs Hl Hrole Haddr. unfold Start, open_store. rewrite Ho, Hs, Hl.
  cbn [mbind outcome_bind]. rewrite bool_decide_eq_false_2 by done.
  unfold Follower.NewFollower. by rewrite Haddr.
Qed.

(** ** Routing of a started node *)

Lemma set_addresses_ring cfg hr :
  hashValues (set_addresses cfg hr) = hashValues hr ∧ hashToShard (set_addresses cfg hr) = hashToShard hr ∧
  shardToNodes (set_addresses cfg hr) = shardToNodes hr.
Proof. unfold set_addresses. revert hr. induction (Config.cfg_Nodes cfg) as [|n l IH]; intros hr; [done|]. apply (IH (SetNodeAddress hr _ _)). Qed.

(** Routing looks only at the positions, their owners, the groups and the
    configuration. *)
Lemma ShouldForwardRequest_ext ns ns' ring ring' key isWrite :
  NodeState.hashRing ns = Some ring → NodeState.hashRing ns' = Some ring' →
  NodeState.config ns = NodeState.config ns' → hashValues ring = hashValues ring' →
  hashToShard ring = hashToShard ring' → shardToNodes ring = shardToNodes ring' →
  NodeState.ShouldForwardRequest ns key isWrite = NodeState.ShouldForwardRequest ns' key isWrite.
Proof.
  intros Hr Hr' Hc H1 H2 H3. unfold NodeState.ShouldForwardRequest, NodeState.ns_IsClusterMode.
  rewrite Hr, Hr', Hc. unfold GetShard, GetShardLeader, GetShardNodes. by rewrite H1, H2, H3.
Qed.

Lemma with_node_id_self cfg : NodeState.with_node_id cfg (Config.cfg_NodeID cfg) = cfg.
Proof. by destruct cfg. Qed.

Lemma cluster_state_routes cfg ns key isWrite :
  NodeState.hashRing ns = Some (set_addresses cfg (NodeState.build_ring 150 cfg)) →
  NodeState.config ns = Some cfg →
  NodeState.ShouldForwardRequest ns key isWrite =
  NodeState.ShouldForwardRequest
    (NodeState.node_of (NodeState.build_ring 150 cfg) cfg (Config.cfg_NodeID cfg)) key isWrite.
Proof.
  intros Hr Hc. destruct (set_addresses_ring cfg (NodeState.build_ring 150 cfg)) as (H1 & H2 & H3).
  eapply ShouldForwardRequest_ext; [exact Hr|reflexivity| |done..].
  rewrite Hc. cbn [NodeState.node_of NodeState.SetConfig NodeState.config]. by rewrite with_node_id_self.
Qed.

(** A node of the cluster routes by the configuration: whether it starts as the
    leader or as a follower of its shard, it decides about every request exactly as
    the node of the routing theorems, whose ring has the configured shards. *)
Theorem started_node_routes s cfg myNode n key isWrite :
  Config.GetMyNode cfg = GOk myNode → StartClusterMode s cfg = Ret (GOk n) →
  NodeState.ShouldForwardRequest (Handler.nodeState (server n)) key isWrite =
  NodeState.ShouldForwardRequest
    (NodeState.node_of (NodeState.build_ring 150 cfg) cfg (Config.cfg_NodeID cfg)) key isWrite.
Proof.
  intros Hmy Hst. unfold StartClusterMode in Hst. rewrite Hmy in Hst. inv_ret.
  destruct r as [[c a]|e]; [|discriminate Hst]. destruct (Config.IsShardLeader cfg).
  - unfold startAsLeader, listen_on in Hst. repeat case_match; try discriminate Hst.
    injection Hst as <-. by apply cluster_state_routes.
  - destruct (Config.GetShardForNode cfg _) as [myShard|]; [|discriminate Hst].
    destruct (Config.find_node _ _); [|discriminate Hst].
    unfold startAsFollower, listen_on in Hst. inv_ret. repeat case_match; try discriminate Hst;
      injection Hst as <-; by apply cluster_state_routes.
Qed.

(** The nodes of the demonstration cluster, started. *)
Lemma started_node_routes_witness :
  ∃ n, StartClusterMode (demo_sys "") (NodeState.with_node_id NodeState.demo_cfg "n2") = Ret (GOk n) ∧
  ∀ key isWrite, NodeState.ShouldForwardRequest (Handler.nodeState (server n)) key isWrite =
    NodeState.ShouldForwardRequest (NodeState.node_of
      (NodeState.build_ring 150 (NodeState.with_node_id NodeState.demo_cfg "n2"))
      (NodeState.with_node_id NodeState.demo_cfg "n2") "n2") key isWrite.
Proof.
  eexists. split; [reflexivity|]. intros key isWrite.
  apply (started_node_routes (demo_sys "") (NodeState.with_node_id NodeState.demo_cfg "n2")
    (Config.mkNodeInfo "n2" "10.0.0.2" 7002 8002 5 "shard-1" "follower")); reflexivity.
Defined.
End Startup.
