(* ===== verification/Concurrency.v ===== *)
(** * Several connections of one node at the same time (handler.go)

    Every connection of a node has its own goroutine.  A handler is a sequence of
    critical sections: the call on the cache (under the cache's mutex), the
    sequence number (under the leader's), one write per follower (under the
    follower's), the append to the log (under the log's) and the reply.  Each of
    them is an [action] here; a schedule chooses the goroutine that acts next.
    [handler_actions] shows that the actions of a request, one after another, are
    its handler.  Beside the connections run the rewrite of the log that an append
    starts and the periodic snapshot, each with a copy of the cache that replaces
    the log later ([machine]); the theorems are about every interleaving of all of
    them. *)

From S2P Require Import Prelude GoStd Lru Metrics Cache CacheSpec CacheTrace Resp HashRing PubSub.
From S2P Require Import ReplProtocol Config NodeState Persistence Leader Handler HandlerSpec.
Import ReplProtocol(str_of, OpSet, OpDelete, EncodeReplicateCommand, mkRepl).
Import Handler HandlerSpec.
Import Persistence(io_ok, append_io, file, file_open, Operation, mkOp, Type_, encode_log, log_entry,
  op_wf, encode_entry).
Import Leader(leader_wf, request_wf, next_seq, write_to).
Local Open Scope Z_scope.

Module Concurrency.

Inductive action :=
| Exec (r : request)                                             (* the cache's mutex *)
| Number (lp : positive) (op : Operation)                        (* the leader's mutex *)
| Send (lp : positive) (p : Leader.fptr) (data : string)         (* the follower's mutex *)
| Log (op : Operation)                                           (* the log's mutex *)
| Write (bytes : string).                                        (* the connection, not shared *)

Definition persist_actions (leader : option positive) (op : Operation) : list action :=
  match leader with Some lp => [Number lp op] | None => [] end ++ [Log op].

(** The actions of a request that this node handles itself. *)
Definition request_actions (leader : option positive) (r : request) : list action :=
  match r with
  | RSet k v t => Exec r :: persist_actions leader (mkOp "SET" k v (ttl_of t)) ++ [Write (EncodeSimpleString "OK")]
  | RDel k => Exec r :: persist_actions leader (mkOp "DEL" k "" 0) ++ [Write (":1" +:+ CRLF)]
  | RGet _ | RPing => [Exec r]
  end.

Definition set_cache (s : Server) (c : Cache.Cache) : Server :=
  mkServer c (aof s) (leaders s) (ps s) (nodeState s).
Definition set_aof (s : Server) (a : Persistence.AOF) : Server :=
  mkServer (cache s) a (leaders s) (ps s) (nodeState s).
Definition set_leader (s : Server) (lp : positive) (l : Leader.Leader) : Server :=
  mkServer (cache s) (aof s) (<[lp := l]> (leaders s)) (ps s) (nodeState s).

(** One action: what it adds to the goroutine's work, what it writes to the
    client, and the state it leaves.  A numbered command is sent to the followers
    that were tracked when it was numbered.  An append that starts a rewrite leaves
    the flag [rewriting] set; the steps of that goroutine are moves of the
    [machine] below. *)
Definition act (now : Z) (io : append_io) (a : action) (s : Server) : outcome (list action * string * Server) :=
  match a with
  | Exec (RSet k v t) =>
      c ← Cache.Set_ (cache s) k v (seconds (ttl_of t)) now; mret ([], "", set_cache s c)
  | Exec (RDel k) => c ← Cache.Delete (cache s) k; mret ([], "", set_cache s c)
  | Exec (RGet k) =>
      '(result, exists_, c) ← Cache.Get (cache s) k now; mret ([], get_reply result exists_, set_cache s c)
  | Exec RPing => mret ([], EncodeSimpleString "PONG", s)
  | Number lp op =>
      l ← or_panic (leaders s !! lp);
      let l := next_seq l in
      encoded ← EncodeReplicateCommand (Some (mkRepl (Leader.seqNum l)
        (if decide (Type_ op = "SET") then OpSet else OpDelete)
        (Persistence.Key op) (Persistence.Value op) (Persistence.TTL op)));
      mret (match encoded with
            | GErr _ => []
            | GOk data => (λ p, Send lp p data) <$> Leader.followers l
            end, "", set_leader s lp l)
  | Send lp p data =>
      l ← or_panic (leaders s !! lp); mret ([], "", set_leader s lp (write_to data l p))
  | Log op =>
      entry ← EncodeArray (log_entry op);
      mret ([], "", set_aof s (Persistence.Append (aof s) entry io).2)
  | Write bytes => mret ([], bytes, s)
  end.

(** ** The actions of a request are its handler *)

Definition set_server (w : World) (s : Server) (bytes : string) : World :=
  mkWorld s (conn w) (state w) (out w +:+ bytes).

(** An action and the actions it adds, which add no more. *)
Definition perform (now : Z) (io : append_io) (w : World) (a : action) : outcome World :=
  '(new, bytes, s) ← act now io a (srv w);
  for_each (λ w b, '(_, bytes, s) ← act now io b (srv w); mret (set_server w s bytes))
    (set_server w s bytes) new.

Lemma set_server_nil w s : set_server w s "" = mkWorld s (conn w) (state w) (out w).
Proof. unfold set_server. by rewrite string_app_nil_r. Qed.

Lemma perform_sends now io lp data fs w l :
  leaders (srv w) !! lp = Some l →
  for_each (λ w b, '(_, bytes, s) ← act now io b (srv w); mret (set_server w s bytes)) w
    ((λ p, Send lp p data) <$> fs) =
  Ret (with_leaders w (<[lp := foldl (write_to data) l fs]> (leaders (srv w)))).
Proof.
  revert w l. induction fs as [|p fs IH]; intros w l Hl.
  - cbn. f_equal. destruct w as [[] ? ? ?]. unfold with_leaders. cbn in *. by rewrite insert_id.
  - rewrite fmap_cons. cbn [for_each act]. rewrite Hl. cbn [or_panic mbind outcome_bind mret outcome_ret].
    rewrite set_server_nil. rewrite (IH _ (write_to data l p)) by (cbn; by rewrite lookup_insert_eq).
    f_equal. unfold with_leaders, set_leader. cbn. by rewrite insert_insert_eq.
Qed.

Lemma perform_number now io lp op w :
  perform now io w (Number lp op) =
  replicate w (Some lp) (if decide (Type_ op = "SET") then OpSet else OpDelete)
    (Persistence.Key op) (Persistence.Value op) (Persistence.TTL op).
Proof.
  unfold perform, replicate. cbn [act]. destruct (leaders (srv w) !! lp) as [l|] eqn:Hl; [|done].
  cbn [or_panic mbind outcome_bind]. unfold Leader.Replicate. cbv zeta.
  destruct (EncodeReplicateCommand _) as [[data|e]| | |]; try done;
    cbn [mbind outcome_bind mret outcome_ret]; rewrite set_server_nil; [|done].
  rewrite (perform_sends _ _ _ _ _ _ (next_seq l)) by (cbn; by rewrite lookup_insert_eq).
  unfold with_leaders, set_leader. cbn. by rewrite insert_insert_eq.
Qed.

Lemma perform_log now io op w : perform now io w (Log op) = append_aof w (log_entry op) io.
Proof.
  unfold perform, append_aof. cbn [act].
  destruct (EncodeArray (log_entry op)) as [e| | |]; try done. cbn [mbind outcome_bind mret outcome_ret for_each].
  rewrite set_server_nil. by destruct (Persistence.Append _ _ _).
Qed.

Lemma persist_actions_handler now io leader op w bytes :
  for_each (perform now io) w (persist_actions leader op ++ [Write bytes]) =
  (w ← replicate w leader (if decide (Type_ op = "SET") then OpSet else OpDelete)
         (Persistence.Key op) (Persistence.Value op) (Persistence.TTL op);
   w ← append_aof w (log_entry op) io;
   mret (reply w bytes)).
Proof.
  unfold persist_actions. destruct leader as [lp|]; cbn [app for_each];
    rewrite ?perform_number; [|cbn [replicate mbind outcome_bind]; by rewrite perform_log].
  destruct (replicate _ _ _ _ _ _) as [w1| | |]; try done. cbn [mbind outcome_bind]. by rewrite perform_log.
Qed.

Lemma perform_set now io k v t w :
  perform now io w (Exec (RSet k v t)) =
  (c ← Cache.Set_ (cache (srv w)) k v (seconds (ttl_of t)) now; mret (with_cache w c)).
Proof. unfold perform. cbn [act]. destruct (Cache.Set_ _ _ _ _ _); cbn; by rewrite ?set_server_nil. Qed.

Lemma perform_del now io k w :
  perform now io w (Exec (RDel k)) = (c ← Cache.Delete (cache (srv w)) k; mret (with_cache w c)).
Proof. unfold perform. cbn [act]. destruct (Cache.Delete _ _); cbn; by rewrite ?set_server_nil. Qed.

(** A handler is the sequence of its critical sections: on a node that is not a
    follower, handling a GET, SET, DEL or PING is performing its actions one after
    another, with the same result in every case, panics included. *)
Theorem handler_actions cluster env w r :
  req_wf r → NodeState.GetRole (nodeState (srv w)) ≠ "follower" →
  handle_locally cluster env w (VStr (request_name r)) (request_slice r) =
  for_each (perform (clock env 0) (disk env 0)) w
    (request_actions (NodeState.GetLeader (nodeState (srv w))) r).
Proof.
  intros Hr Hrole. destruct r as [k v t|k|k|]; cbn [request_actions for_each].
  - destruct Hr as (Hk & Hv & Ht).
    change (handle_locally cluster env w _ _) with
      (handleSet env w (request_slice (RSet k v t)) (NodeState.GetLeader (nodeState (srv w)))).
    unfold handleSet. rewrite bool_decide_eq_false_2 by done.
    destruct (set_slice_args k v t) as (-> & -> & ->). cbn [mbind outcome_bind].
    rewrite set_ttl_slice by done. cbn [mbind outcome_bind]. rewrite whole_seconds_seconds by done.
    rewrite perform_set. destruct (Cache.Set_ _ _ _ _ _) as [c| | |]; try done.
    cbn [mbind outcome_bind mret outcome_ret]. by rewrite persist_actions_handler.
  - unfold perform. cbn [act].
    change (handle_locally cluster env w _ _) with (handleGet env w [VStr "GET"; VStr k]).
    unfold handleGet. rewrite bool_decide_eq_false_2 by (cbn; lia).
    change (arg [VStr "GET"; VStr k] 1) with (Ret k). cbn [mbind outcome_bind].
    by destruct (Cache.Get _ _ _) as [[[v ok] c]| | |].
  - change (handle_locally cluster env w _ _) with
      (handleDelete env w [VStr "DEL"; VStr k] (NodeState.GetLeader (nodeState (srv w)))).
    unfold handleDelete. rewrite bool_decide_eq_false_2 by done.
    rewrite bool_decide_eq_false_2 by (cbn; lia).
    change (arg [VStr "DEL"; VStr k] 1) with (Ret k). cbn [mbind outcome_bind].
    rewrite perform_del. destruct (Cache.Delete _ _) as [c| | |]; try done.
    cbn [mbind outcome_bind mret outcome_ret]. by rewrite persist_actions_handler.
  - done.
Qed.

(** ** Schedules *)

Record goroutine := mkG { todo : list action; g_out : string }.
Record node := mkNode { shared : Server; gs : list goroutine }.

(** Who acts next, what the clock says then, and how the disk answers. *)
Record turn := mkTurn { who : nat; at_time : Z; disk_io : append_io }.
Record event := mkEvent { e_who : nat; e_act : action; e_now : Z }.

(** A goroutine that has nothing left to do does nothing. *)
Definition step (t : turn) (n : node) : outcome (list event * node) :=
  match gs n !! who t with
  | Some (mkG (a :: rest) out) =>
      '(new, bytes, s) ← act (at_time t) (disk_io t) a (shared n);
      mret ([mkEvent (who t) a (at_time t)], mkNode s (<[who t := mkG (new ++ rest) (out +:+ bytes)]> (gs n)))
  | _ => mret ([], n)
  end.

Fixpoint run (sched : list turn) (n : node) : outcome (list event * node) :=
  match sched with
  | [] => mret ([], n)
  | t :: sched => '(tr, n) ← step t n; '(tr', n) ← run sched n; mret (tr ++ tr', n)
  end.

(** One goroutine per connection, each with the requests its client will send. *)
Definition start (s : Server) (rss : list (list request)) : node :=
  mkNode s ((λ rs, mkG (rs ≫= request_actions (NodeState.GetLeader (nodeState s))) "") <$> rss).

(** *** What happened in an execution *)

(** The requests in the order of their calls on the cache, and the log's
    operations in the order in which they were appended. *)
Definition history (tr : list event) : list (nat * (request * Z)) :=
  omap (λ e, match e_act e with Exec r => Some (e_who e, (r, e_now e)) | _ => None end) tr.
Definition appended (tr : list event) : list (nat * Operation) :=
  omap (λ e, match e_act e with Log op => Some (e_who e, op) | _ => None end) tr.

Definition mine {A} (i : nat) (l : list (nat * A)) : list A := (filter (λ x, x.1 = i) l).*2.

(** The abstract cache answers the history. *)
Fixpoint spec_history (cap : Z) (h : list (nat * (request * Z))) (es : list entry) :
    list (nat * string) * list entry :=
  match h with
  | [] => ([], es)
  | (i, (r, now)) :: h =>
      let '(a, es) := spec_request cap now r es in
      let '(answers, es) := spec_history cap h es in
      ((i, a) :: answers, es)
  end.

Lemma spec_history_snoc cap h i r now es :
  spec_history cap (h ++ [(i, (r, now))]) es =
  ((spec_history cap h es).1 ++ [(i, (spec_request cap now r (spec_history cap h es).2).1)],
   (spec_request cap now r (spec_history cap h es).2).2).
Proof.
  revert es. induction h as [|[j [q t]] h IH]; intros es; cbn [app spec_history fst snd].
  - by destruct (spec_request cap now r es).
  - destruct (spec_request cap t q es) as [a es1]. rewrite IH. by destruct (spec_history cap h es1).
Qed.

Lemma mine_app {A} i (l1 l2 : list (nat * A)) : mine i (l1 ++ l2) = mine i l1 ++ mine i l2.
Proof. unfold mine. by rewrite filter_app, fmap_app. Qed.
Lemma mine_single {A} i j (x : A) : mine i [(j, x)] = if decide (j = i) then [x] else [].
Proof. unfold mine. rewrite filter_cons. cbn. by case_decide. Qed.

(** *** What is left of a request after its call on the cache *)

Definition writes (acts : list action) : string :=
  concat_strings (omap (λ a, match a with Write b => Some b | _ => None end) acts).
Definition logs (acts : list action) : list Operation :=
  omap (λ a, match a with Log op => Some op | _ => None end) acts.

Definition pending (leader : option positive) (a : action) : Prop :=
  match a with
  | Exec _ => False
  | Number lp op => leader = Some lp ∧ op_wf op
  | Send lp _ _ => leader = Some lp
  | Log op => op_wf op
  | Write _ => True
  end.

Lemma concat_strings_app l1 l2 : concat_strings (l1 ++ l2) = concat_strings l1 +:+ concat_strings l2.
Proof.
  induction l1 as [|s l1 IH]; [done|]. change (s +:+ concat_strings (l1 ++ l2) = (s +:+ concat_strings l1) +:+ concat_strings l2).
  by rewrite IH, string_app_assoc.
Qed.

Lemma writes_app a b : writes (a ++ b) = writes a +:+ writes b.
Proof. unfold writes. by rewrite omap_app, concat_strings_app. Qed.
Lemma logs_app a b : logs (a ++ b) = logs a ++ logs b.
Proof. apply omap_app. Qed.

(** The reply of a request, as far as it is written after the call on the cache. *)
Definition later_reply (r : request) : string :=
  match r with RSet _ _ _ => EncodeSimpleString "OK" | RDel _ => ":1" +:+ CRLF | _ => "" end.

Lemma request_actions_split leader r :
  req_wf r →
  ∃ pre, request_actions leader r = Exec r :: pre ∧ Forall (pending leader) pre ∧ logs pre = logged r ∧
    writes pre = later_reply r.
Proof.
  intros Hr. pose proof (logged_wf r Hr) as Hops. destruct r as [k v t|k|k|]; eexists; split_and!; try reflexivity.
  1,5: apply Forall_cons in Hops as [Hop _]; destruct leader;
    split_Forall; done.
  all: try by apply Forall_nil_2.
  all: unfold persist_actions; destruct leader; cbn; by rewrite ?string_app_nil_r.
Qed.

(** ** One action on a serving node *)

Lemma act_exec now io r s es :
  cache_rep (cache s) es →
  ∃ bytes c, act now io (Exec r) s = Ret ([], bytes, set_cache s c) ∧
    Cache.maxSize c = Cache.maxSize (cache s) ∧
    cache_rep c (spec_request (Cache.maxSize (cache s)) now r es).2 ∧
    bytes +:+ later_reply r = (spec_request (Cache.maxSize (cache s)) now r es).1.
Proof.
  intros Hc. destruct r as [k v t|k|k|]; cbn [act spec_request later_reply].
  - destruct (Set_rep _ es k v (seconds (ttl_of t)) now Hc) as (c & -> & Hm & Hc').
    by exists "", c.
  - destruct (Get_rep _ es k now Hc) as (v & ok & c & -> & Hm & _ & Hv & Hc').
    exists (get_reply v ok), c. cbn [mbind outcome_bind]. rewrite string_app_nil_r.
    destruct (spec_get k now es) as [o es']. cbn [fst snd] in *. subst o. by destruct ok.
  - destruct (Delete_rep _ es k Hc) as (c & -> & Hm & Hc'). by exists "", c.
  - exists (EncodeSimpleString "PONG"), (cache s). rewrite string_app_nil_r. by destruct s.
Qed.

Lemma leader_wf_write_to data l p : leader_wf l → leader_wf (write_to data l p).
Proof.
  intros (Hnd & Hf & Hn). destruct (Leader.write_to_followers l p data) as (E1 & E2 & E3).
  split_and!; [by rewrite E1|..]; intros q; rewrite ?E1, ?E3, Leader.write_to_conns;
    [intros Hq|]; (case_decide; [rewrite fmap_is_Some|]); eauto.
Qed.

(** The leader the node replicates through exists and is well formed. *)
Definition led (leader : option positive) (s : Server) : Prop :=
  ∀ lp, leader = Some lp → ∃ l, leaders s !! lp = Some l ∧ leader_wf l.

Lemma led_set_leader leader s lp l : led leader s → leader_wf l → led leader (set_leader s lp l).
Proof.
  intros Hl Hwf p Hp. cbn.
  destruct (decide (p = lp)) as [->|]; [rewrite lookup_insert_eq; eauto|].
  rewrite lookup_insert_ne by done. by apply Hl.
Qed.

Lemma number_encodes n op :
  op_wf op → int64_range n →
  ∃ data, EncodeReplicateCommand (Some (mkRepl n (if decide (Type_ op = "SET") then OpSet else OpDelete)
    (Persistence.Key op) (Persistence.Value op) (Persistence.TTL op))) = Ret (GOk data).
Proof.
  intros Hop Hn. destruct (replicated_wf op Hop) as (Hk & Hv & Ht & Ho).
  destruct (@ReplProtocol.codec_roundtrip _ ReplProtocol.repl_codec (mkRepl n
    (if decide (Type_ op = "SET") then OpSet else OpDelete)
    (Persistence.Key op) (Persistence.Value op) (Persistence.TTL op)) "") as (e & He & _); [|eauto].
  split_and!; done.
Qed.

(** The log has grown by [ops] and is open. *)
Definition logged_since (a a' : Persistence.AOF) (ops : list Operation) : Prop :=
  file_open a' = true ∧ ∃ log, encode_log ops = Ret log ∧ file a' = file a +:+ log.

Lemma logged_nothing a : file_open a = true → logged_since a a [].
Proof. intros Ho. split; [done|]. exists "". by rewrite string_app_nil_r. Qed.

Lemma logged_more a a1 a2 ops1 ops2 :
  logged_since a a1 ops1 → logged_since a1 a2 ops2 → logged_since a a2 (ops1 ++ ops2).
Proof.
  intros [_ (l1 & H1 & F1)] [Ho (l2 & H2 & F2)]. split; [done|]. exists (l1 +:+ l2).
  split; [by apply encode_log_app|]. by rewrite F2, F1, string_app_assoc.
Qed.

(** From [s] to [s'] the actions [a] after the call on the cache: the cache and the
    node state stay, and what [a] logs is appended if the disk takes it. *)
Record acted (leader : option positive) (io : append_io) (s s' : Server) (ops : list Operation) : Prop := {
  ac_cache : cache s' = cache s;
  ac_node : nodeState s' = nodeState s;
  ac_led : led leader s';
  ac_log : io = io_ok → file_open (aof s) = true → logged_since (aof s) (aof s') ops
}.

Lemma act_pending leader now io a s :
  pending leader a → led leader s →
  ∃ new s', act now io a s = Ret (new, writes [a], s') ∧ acted leader io s s' (logs [a]) ∧
    Forall (pending leader) new ∧ logs new = [] ∧ writes new = "".
Proof.
  intros Ha Hl. destruct a as [r|lp op|lp p data|op|bytes]; cbn [pending act] in *; [done|..].
  - destruct Ha as [-> Hop]. destruct (Hl lp eq_refl) as (l & Hlp & Hwf). rewrite Hlp.
    cbn [or_panic mbind outcome_bind].
    destruct (number_encodes (Leader.seqNum (next_seq l)) op Hop (wrap64_range _)) as (data & ->).
    eexists _, _. split; [reflexivity|]. split; [|split_and!].
    + split; [done..|by apply led_set_leader|]. intros _. apply logged_nothing.
    + by apply Forall_fmap, Forall_true.
    + by induction (Leader.followers _).
    + unfold writes. by induction (Leader.followers _).
  - subst leader. destruct (Hl lp eq_refl) as (l & Hlp & Hwf). rewrite Hlp.
    eexists _, _. split; [reflexivity|]. split; [|done].
    split; [done..|by apply led_set_leader, leader_wf_write_to|]. intros _. apply logged_nothing.
  - destruct (encode_entry op "" Ha) as (e & He & _). rewrite He. cbn [mbind outcome_bind].
    eexists _, _. split; [reflexivity|]. split; [|done]. split; [done..|]. intros -> Ho. cbn [set_aof aof].
    destruct (Append_ok (aof s) e Ho) as (started & a' & -> & Hf & Ho'). split; [done|].
    exists e. split; [|done]. cbn [logs omap list_omap encode_log]. cbn. rewrite He. cbn. by rewrite string_app_nil_r.
  - eexists _, s. split; [by rewrite <-(string_app_nil_r bytes) at 1|]. split; [|done].
    split; [done..|]. intros _. apply logged_nothing.
Qed.

(** ** Every interleaving *)

(** A goroutine that was given [rs]: it has called the cache for [reqs], which was
    answered [answers], and has appended [ops]; [pre] is what the request it is
    working on has left to do. *)
Definition g_inv (leader : option positive) (rs reqs : list request) (answers : list string)
    (ops : list Operation) (g : goroutine) : Prop :=
  ∃ pre rest, rs = reqs ++ rest ∧ todo g = pre ++ (rest ≫= request_actions leader) ∧
    Forall (pending leader) pre ∧ g_out g +:+ writes pre = concat_strings answers ∧
    ops ++ logs pre = mjoin (logged <$> reqs).

(** [calm]: nothing has disturbed the log. *)
Record n_inv (s0 : Server) (es0 : list entry) (rss : list (list request)) (calm : Prop) (tr : list event) (n : node) :
    Prop := {
  n_cap : Cache.maxSize (cache (shared n)) = Cache.maxSize (cache s0);
  n_cache : cache_rep (cache (shared n)) (spec_history (Cache.maxSize (cache s0)) (history tr) es0).2;
  n_node : nodeState (shared n) = nodeState s0;
  n_led : led (NodeState.GetLeader (nodeState s0)) (shared n);
  n_log : calm → logged_since (aof s0) (aof (shared n)) (appended tr).*2;
  n_gs : length (gs n) = length rss;
  n_who : Forall (λ e, (e_who e < length rss)%nat) tr;
  n_g : ∀ i rs g, rss !! i = Some rs → gs n !! i = Some g →
    g_inv (NodeState.GetLeader (nodeState s0)) rs (mine i (history tr)).*1
      (mine i (spec_history (Cache.maxSize (cache s0)) (history tr) es0).1) (mine i (appended tr)) g
}.

Lemma history_app t1 t2 : history (t1 ++ t2) = history t1 ++ history t2.
Proof. apply omap_app. Qed.
Lemma appended_app t1 t2 : appended (t1 ++ t2) = appended t1 ++ appended t2.
Proof. apply omap_app. Qed.

Lemma start_inv s es rss :
  serving (mkWorld s 0 new_state "") es → n_inv s es rss True [] (start s rss).
Proof.
  intros [Hc [Ho Hl] _ _]. split; try done.
  - intros _. by apply logged_nothing.
  - apply length_fmap.
  - intros i rs g Hrs Hg. cbn in Hg. rewrite list_lookup_fmap, Hrs in Hg. injection Hg as <-.
    by exists [], rs.
Qed.

(** The call on the cache. *)
Lemma exec_inv s0 es0 rss calm tr n i now io g r rest rs :
  n_inv s0 es0 rss calm tr n → Forall (Forall req_wf) rss → gs n !! i = Some g → rss !! i = Some rs →
  todo g = Exec r :: rest →
  ∃ bytes s', act now io (Exec r) (shared n) = Ret ([], bytes, s') ∧
    n_inv s0 es0 rss calm (tr ++ [mkEvent i (Exec r) now])
      (mkNode s' (<[i := mkG rest (g_out g +:+ bytes)]> (gs n))).
Proof.
  intros [Hcap Hc Hn Hl Hlog Hgs Hwho Hg] Hwf Hgi Hrsi Htodo.
  set (cap := Cache.maxSize (cache s0)) in *. set (leader := NodeState.GetLeader (nodeState s0)) in *.
  destruct (act_exec now io r (shared n) _ Hc) as (bytes & c & -> & Hm & Hc' & Hb). rewrite Hcap in Hc', Hb.
  exists bytes, (set_cache (shared n) c). split; [done|].
  assert (history (tr ++ [mkEvent i (Exec r) now]) = history tr ++ [(i, (r, now))]) as Hh by apply history_app.
  assert (appended (tr ++ [mkEvent i (Exec r) now]) = appended tr) as Ha.
  { rewrite appended_app. apply app_nil_r. }
  split; rewrite ?Hh, ?Ha, ?spec_history_snoc; cbn [shared set_cache cache nodeState aof gs fst snd]; try done.
  - by rewrite Hm, Hcap.
  - by rewrite length_insert.
  - apply Forall_app_2, Forall_singleton; [done|]. cbn. by eapply lookup_lt_Some.
  - fold cap leader. intros j rs' g' Hrs' Hg'. rewrite !mine_app, !mine_single. destruct (decide (i = j)) as [<-|Hij].
    + assert (rs' = rs) as -> by congruence. rewrite list_lookup_insert_eq in Hg' by (by eapply lookup_lt_Some).
      injection Hg' as <-. destruct (Hg i rs g Hrsi Hgi) as (pre & todo' & Hsplit & Htd & Hpre & Hout & Hops).
      rewrite Htodo in Htd. destruct pre as [|a pre]; [|by injection Htd as <-; apply Forall_cons in Hpre as []].
      assert (Forall req_wf rs) as Hrs by (eapply Forall_lookup_1; done).
      destruct todo' as [|q todo']; [done|]. rewrite Hsplit, Forall_app, Forall_cons in Hrs.
      destruct Hrs as (_ & Hq & _). destruct (request_actions_split leader q Hq) as (pre & Hqa & Hpend & Hlogs & Hw).
      cbn [app mbind list_bind] in Htd. rewrite Hqa in Htd. cbn [app] in Htd. injection Htd as <- ->.
      exists pre, todo'. rewrite fmap_app. split_and!.
      * by rewrite Hsplit, <-app_assoc.
      * done.
      * done.
      * cbn [g_out]. rewrite concat_strings_app, <-Hout. cbn [concat_strings foldr].
        change (writes []) with "". rewrite !string_app_nil_r, <-string_app_assoc. by rewrite Hw, <-Hb.
      * rewrite app_nil_r in Hops. rewrite Hlogs, fmap_app, join_app, Hops. cbn. by rewrite app_nil_r.
    + rewrite list_lookup_insert_ne in Hg' by done. rewrite !app_nil_r. by apply Hg.
Qed.

(** Everything after the call on the cache. *)
Lemma pending_inv s0 es0 rss calm tr n i now io g a rest rs :
  n_inv s0 es0 rss calm tr n → gs n !! i = Some g → rss !! i = Some rs →
  todo g = a :: rest → (∀ r, a ≠ Exec r) → Forall (Forall req_wf) rss →
  ∃ new bytes s', act now io a (shared n) = Ret (new, bytes, s') ∧
    n_inv s0 es0 rss (calm ∧ io = io_ok) (tr ++ [mkEvent i a now]) (mkNode s' (<[i := mkG (new ++ rest) (g_out g +:+ bytes)]> (gs n))).
Proof.
  intros [Hcap Hc Hn Hl Hlog Hgs Hwho Hg] Hgi Hrsi Htodo Ha Hwf.
  set (cap := Cache.maxSize (cache s0)) in *. set (leader := NodeState.GetLeader (nodeState s0)) in *.
  destruct (Hg i rs g Hrsi Hgi) as (pre & todo' & Hsplit & Htd & Hpre & Hout & Hops). rewrite Htodo in Htd.
  destruct pre as [|a' pre].
  { exfalso. destruct todo' as [|q todo']; [done|]. assert (Forall req_wf rs) as Hrs by (eapply Forall_lookup_1; done).
    rewrite Hsplit, Forall_app, Forall_cons in Hrs. destruct Hrs as (_ & Hq & _).
    destruct (request_actions_split leader q Hq) as (pre & Hqa & _).
    cbn [app mbind list_bind] in Htd. rewrite Hqa in Htd. injection Htd as -> _. by destruct (Ha q). }
  cbn [app] in Htd. injection Htd as <- ->. apply Forall_cons in Hpre as [Hpa Hpre].
  destruct (act_pending leader now io a (shared n) Hpa Hl) as (new & s' & Hact & [E1 E2 E3 E4] & Hnew & Hnl & Hnw).
  exists new, (writes [a]), s'. split; [done|].
  assert (history (tr ++ [mkEvent i a now]) = history tr) as Hh.
  { rewrite history_app. destruct a; cbn; by rewrite ?app_nil_r. }
  assert (appended (tr ++ [mkEvent i a now]) = appended tr ++ (pair i <$> logs [a])) as Hap.
  { rewrite appended_app. by destruct a. }
  split; rewrite ?Hh, ?Hap; cbn [shared gs]; rewrite ?E1, ?E2; try done.
  - intros [Hcalm Hio]. rewrite fmap_app, <-list_fmap_compose. change (snd ∘ pair i) with (λ op : Operation, op).
    rewrite list_fmap_id. eapply logged_more; [by apply Hlog|]. apply E4; [done|apply (Hlog Hcalm)].
  - by rewrite length_insert.
  - apply Forall_app_2, Forall_singleton; [done|]. cbn. by eapply lookup_lt_Some.
  - fold cap leader. intros j rs' g' Hrs' Hg'. destruct (decide (i = j)) as [<-|Hij].
    + assert (rs' = rs) as -> by congruence. rewrite list_lookup_insert_eq in Hg' by (by eapply lookup_lt_Some).
      injection Hg' as <-. exists (new ++ pre), todo'. cbn [todo g_out]. split_and!.
      * done.
      * by rewrite app_assoc.
      * by apply Forall_app.
      * rewrite writes_app, Hnw, <-Hout, <-string_app_assoc. f_equal. symmetry. apply (writes_app [a] pre).
      * assert (mine i (pair i <$> logs [a]) = logs [a]) as Hm.
        { destruct a as [|?|?|op|]; try done. change (mine i [(i, op)] = [op]). by rewrite mine_single, decide_True. }
        rewrite mine_app, Hm, logs_app, Hnl, <-Hops, <-app_assoc. f_equal. symmetry. apply (logs_app [a] pre).
    + rewrite list_lookup_insert_ne in Hg' by done.
      assert (mine j (pair i <$> logs [a]) = []) as Hm.
      { destruct a as [|?|?|op|]; try done. change (mine j [(i, op)] = []). by rewrite mine_single, decide_False. }
      rewrite mine_app, Hm, app_nil_r. by apply Hg.
Qed.

Lemma calm_weaken s0 es0 rss (calm calm' : Prop) tr n :
  (calm' → calm) → n_inv s0 es0 rss calm tr n → n_inv s0 es0 rss calm' tr n.
Proof. intros Hc []. split; auto. Qed.

Lemma step_inv s0 es0 rss calm tr n t :
  n_inv s0 es0 rss calm tr n → Forall (Forall req_wf) rss →
  ∃ tr' n', step t n = Ret (tr', n') ∧ n_inv s0 es0 rss (calm ∧ disk_io t = io_ok) (tr ++ tr') n'.
Proof.
  intros Hinv Hwf. unfold step.
  assert (n_inv s0 es0 rss (calm ∧ disk_io t = io_ok) tr n) as Hweak by by eapply calm_weaken; [intros [? _]|].
  destruct (gs n !! who t) as [[[|a rest] o]|] eqn:Hg; [by exists [], n; rewrite app_nil_r| |by exists [], n; rewrite app_nil_r].
  destruct (rss !! who t) as [rs|] eqn:Hrs.
  2:{ apply lookup_lt_Some in Hg. apply lookup_ge_None in Hrs. rewrite (n_gs _ _ _ _ _ _ Hinv) in Hg. lia. }
  assert ((∃ r, a = Exec r) ∨ ∀ r, a ≠ Exec r) as [[r ->]|Ha] by (destruct a; [left; eauto|by right..]).
  - destruct (exec_inv s0 es0 rss _ tr n (who t) (at_time t) (disk_io t) _ r rest rs Hweak Hwf Hg Hrs eq_refl)
      as (bytes & s' & -> & Hinv'). eexists _, _. split; [reflexivity|exact Hinv'].
  - destruct (pending_inv s0 es0 rss _ tr n (who t) (at_time t) (disk_io t) _ a rest rs Hinv Hg Hrs eq_refl Ha Hwf)
      as (new & bytes & s' & -> & Hinv'). eexists _, _. split; [reflexivity|exact Hinv'].
Qed.

Lemma run_inv s0 es0 rss sched calm tr n :
  n_inv s0 es0 rss calm tr n → Forall (Forall req_wf) rss →
  ∃ tr' n', run sched n = Ret (tr', n') ∧
    n_inv s0 es0 rss (calm ∧ Forall (λ t, disk_io t = io_ok) sched) (tr ++ tr') n'.
Proof.
  intros Hinv Hwf. revert calm tr n Hinv. induction sched as [|t sched IH]; intros calm tr n Hinv.
  { exists [], n. split; [done|]. rewrite app_nil_r. by eapply calm_weaken; [intros [? _]|]. }
  destruct (step_inv s0 es0 rss calm tr n t Hinv Hwf) as (tr1 & n1 & Hst & Hinv1).
  destruct (IH _ _ _ Hinv1) as (tr2 & n2 & Hrun & Hinv2).
  exists (tr1 ++ tr2), n2. cbn [run]. rewrite Hst. cbn [mbind outcome_bind]. rewrite Hrun. split; [done|].
  rewrite app_assoc. eapply calm_weaken; [|exact Hinv2]. by intros [? [? ?]%Forall_cons].
Qed.

(** ** The background goroutines *)

(** Where the goroutine that [Append] starts to rewrite the log is: not running; the
    cache copied and written to the temporary file; the files swapped, the flag
    not yet cleared. *)
Inductive rewriter := NotRewriting | Copied (temp : string) | Swapped.

(** The connections, the rewrite of the log, and the snapshot that the snapshot
    goroutine is writing. *)
Record machine := mkMachine { conns : node; rewriting_log : rewriter; snapshotting : option string }.

(** A connection acts, or one of the background goroutines takes its next step:
    it copies the cache (under the cache's mutex) and writes the copy out, in the
    order of the map, and later replaces the log (under the log's mutex), losing
    what was appended in between. *)
Inductive move :=
| Client (t : turn)
| RewriteCopy (order : list (string * Z))
| RewriteSwap (fail : option Persistence.rewrite_stage)
| RewriteDone
| SnapshotCopy (order : list (string * Z))
| SnapshotSwap (fail : option Persistence.snapshot_stage).

Definition take_copy (order : list (string * Z)) (n : node) : outcome (string * node) :=
  '(snap, c) ← Cache.Snapshot (cache (shared n));
  temp ← Persistence.dump snap order;
  mret (temp, mkNode (set_cache (shared n) c) (gs n)).

Definition with_log (n : node) (a : Persistence.AOF) : node := mkNode (set_aof (shared n) a) (gs n).

(** A move that is not possible changes nothing. *)
Definition advance (mv : move) (m : machine) : outcome (list event * machine) :=
  let '(mkMachine n r sn) := m in
  let log := aof (shared n) in
  match mv with
  | Client t => '(tr, n) ← step t n; mret (tr, mkMachine n r sn)
  | RewriteCopy order =>
      match r, Persistence.rewriting log with
      | NotRewriting, true => '(temp, n) ← take_copy order n; mret ([], mkMachine n (Copied temp) sn)
      | _, _ => mret ([], m)
      end
  | RewriteSwap fail =>
      match r with
      | Copied temp => mret ([], mkMachine (with_log n (Persistence.rewrite_swap log temp fail).2) Swapped sn)
      | _ => mret ([], m)
      end
  | RewriteDone =>
      match r with
      | Swapped => mret ([], mkMachine (with_log n (Persistence.with_rewriting log false)) NotRewriting sn)
      | _ => mret ([], m)
      end
  | SnapshotCopy order =>
      match sn with
      | None => '(temp, n) ← take_copy order n; mret ([], mkMachine n r (Some temp))
      | Some _ => mret ([], m)
      end
  | SnapshotSwap fail =>
      match sn with
      | Some temp => mret ([], mkMachine (with_log n (Persistence.snapshot_swap log temp fail).2) r None)
      | None => mret ([], m)
      end
  end.

Fixpoint execute (moves : list move) (m : machine) : outcome (list event * machine) :=
  match moves with
  | [] => mret ([], m)
  | mv :: moves => '(tr, m) ← advance mv m; '(tr', m) ← execute moves m; mret (tr ++ tr', m)
  end.

Definition boot (s : Server) (rss : list (list request)) : machine := mkMachine (start s rss) NotRewriting None.

(** The moves that do not disturb the log: the disk takes what is appended, and no
    background goroutine gets as far as replacing the log. *)
Definition undisturbed (mv : move) : Prop :=
  match mv with
  | Client t => disk_io t = io_ok
  | RewriteSwap (Some Persistence.fail_temp) => True
  | SnapshotSwap (Some Persistence.snap_temp) | SnapshotSwap (Some Persistence.snap_rename) => True
  | RewriteSwap _ | SnapshotSwap _ => False
  | _ => True
  end.

Lemma dump_returns snap order : ∃ out, Persistence.dump snap order = Ret out.
Proof.
  unfold Persistence.dump. generalize "". induction order as [|kn order IH]; intros out; [by eexists|].
  cbn [for_each]. assert (∃ out', Persistence.dump_loop snap out kn = Ret out') as [out' ->]; [|apply IH].
  unfold Persistence.dump_loop, Persistence.dump_entry. destruct (snap !! kn.1); [|by eexists]. case_match; by eexists.
Qed.

(** A copy changes nothing. *)
Lemma take_copy_returns order n es :
  cache_rep (cache (shared n)) es → ∃ temp, take_copy order n = Ret (temp, n).
Proof.
  intros (Hm & _). unfold take_copy, Cache.Snapshot, Cache.Lock. rewrite Hm. cbn [mbind outcome_bind mret outcome_ret].
  destruct (dump_returns ((λ v, Cache.mkEntry (Cache.value v) (Cache.expiresAt v)) <$> Cache.data (cache (shared n))) order)
    as [temp Hd]. exists temp. destruct n as [[[] ? ? ? ?] ?]. cbn in *. subst. cbn. by rewrite Hd.
Qed.

Lemma with_log_inv s0 es0 rss (calm calm' : Prop) tr n a :
  n_inv s0 es0 rss calm tr n →
  (calm' → calm ∧ file a = file (aof (shared n)) ∧ file_open a = file_open (aof (shared n))) →
  n_inv s0 es0 rss calm' tr (with_log n a).
Proof.
  intros [] Hc. split; try done. intros (Hcalm & Hf & Ho)%Hc.
  destruct (n_log0 Hcalm) as [Ho' Hlog]. split; cbn; [by rewrite Ho|by rewrite Hf].
Qed.

Lemma advance_inv s0 es0 rss calm tr m mv :
  n_inv s0 es0 rss calm tr (conns m) → Forall (Forall req_wf) rss →
  ∃ tr' m', advance mv m = Ret (tr', m') ∧ n_inv s0 es0 rss (calm ∧ undisturbed mv) (tr ++ tr') (conns m').
Proof.
  intros Hinv Hwf. destruct m as [n r sn]. cbn [conns] in Hinv.
  assert (n_inv s0 es0 rss (calm ∧ undisturbed mv) (tr ++ []) n) as Hsame.
  { rewrite app_nil_r. by eapply calm_weaken; [intros [? _]|]. }
  destruct mv as [t|order|fail| |order|fail]; cbn [advance undisturbed] in *.
  - destruct (step_inv s0 es0 rss calm tr n t Hinv Hwf) as (tr' & n' & -> & Hinv'). by eexists _, _.
  - destruct (take_copy_returns order n _ (n_cache _ _ _ _ _ _ Hinv)) as [temp Ht].
    destruct r, (Persistence.rewriting (aof (shared n))); rewrite ?Ht; by eexists _, _.
  - destruct r as [|temp|]; [by eexists _, _| |by eexists _, _]. eexists _, _. split; [reflexivity|].
    rewrite app_nil_r. eapply with_log_inv; [exact Hinv|]. by intros [? ?]; destruct fail as [[]|].
  - destruct r as [|temp|]; [by eexists _, _..|]. eexists _, _. split; [reflexivity|].
    rewrite app_nil_r. eapply with_log_inv; [exact Hinv|]. by intros [? _].
  - destruct (take_copy_returns order n _ (n_cache _ _ _ _ _ _ Hinv)) as [temp Ht].
    destruct sn; rewrite ?Ht; by eexists _, _.
  - destruct sn as [temp|]; [|by eexists _, _]. eexists _, _. split; [reflexivity|].
    rewrite app_nil_r. eapply with_log_inv; [exact Hinv|]. by intros [? ?]; destruct fail as [[]|].
Qed.

Lemma execute_inv s0 es0 rss moves calm tr m :
  n_inv s0 es0 rss calm tr (conns m) → Forall (Forall req_wf) rss →
  ∃ tr' m', execute moves m = Ret (tr', m') ∧
    n_inv s0 es0 rss (calm ∧ Forall undisturbed moves) (tr ++ tr') (conns m').
Proof.
  intros Hinv Hwf. revert calm tr m Hinv. induction moves as [|mv moves IH]; intros calm tr m Hinv.
  { exists [], m. split; [done|]. rewrite app_nil_r. by eapply calm_weaken; [intros [? _]|]. }
  destruct (advance_inv s0 es0 rss calm tr m mv Hinv Hwf) as (tr1 & m1 & Hst & Hinv1).
  destruct (IH _ _ _ Hinv1) as (tr2 & m2 & Hrun & Hinv2).
  exists (tr1 ++ tr2), m2. cbn [execute]. rewrite Hst. cbn [mbind outcome_bind]. rewrite Hrun. split; [done|].
  rewrite app_assoc. eapply calm_weaken; [|exact Hinv2]. by intros [? [? ?]%Forall_cons].
Qed.

(** C2. Concurrent sessions are linearizable: whatever the schedule of the
    connections, of the rewrites of the log that appends start and of the
    snapshots, and whatever the disk does, no goroutine panics or blocks, and
    there is one order of the requests, that of their calls on the cache, in which
    the abstract cache ends with the entries of the node's cache and gives every
    client the replies it has received (1 for every DEL, of a missing key too).
    The order keeps that of each client's requests.  If the disk takes every
    append and no rewrite or snapshot has replaced the log, it has grown by
    exactly the writes of each client that are done, in its order. *)
Theorem concurrent_sessions_linearizable s es rss moves :
  serving (mkWorld s 0 new_state "") es → Forall (Forall req_wf) rss →
  ∃ tr m, execute moves (boot s rss) = Ret (tr, m) ∧
    let n := conns m in
    let h := spec_history (Cache.maxSize (cache s)) (history tr) es in
    cache_rep (cache (shared n)) h.2 ∧
    (Forall undisturbed moves →
       ∃ log, encode_log (appended tr).*2 = Ret log ∧ file (aof (shared n)) = file (aof s) +:+ log) ∧
    ∀ i rs g, rss !! i = Some rs → gs n !! i = Some g →
      (mine i (history tr)).*1 `prefix_of` rs ∧ (∃ owed, g_out g +:+ owed = concat_strings (mine i h.1)) ∧
      (todo g = [] → (mine i (history tr)).*1 = rs ∧ g_out g = concat_strings (mine i h.1) ∧
         mine i (appended tr) = mjoin (logged <$> rs)).
Proof.
  intros Hs Hwf.
  destruct (execute_inv s es rss moves True [] (boot s rss) (start_inv s es rss Hs) Hwf) as (tr & m & Hrun & Hinv).
  exists tr, m. destruct Hinv. cbv zeta. split_and!; [done..| |].
  { intros Hq. apply (n_log0 (conj I Hq)). }
  intros i rs g Hrs Hg.
  destruct (n_g0 i rs g Hrs Hg) as (pre & rest & Hsplit & Htd & _ & Hout & Hops). split_and!.
  - by exists rest.
  - by exists (writes pre).
  - intros Hd. rewrite Hd in Htd. symmetry in Htd. apply app_nil in Htd as [-> Hrest].
    assert (rest = []) as ->.
    { destruct rest as [|r rest]; [done|]. by destruct r. }
    rewrite app_nil_r in Hsplit, Hops. rewrite string_app_nil_r in Hout.
    split_and!; [done|done|]. by rewrite Hsplit.
Qed.

(** ** Recovery when no key is written by two connections *)

Definition op_key (r : request) : option string :=
  match r with RSet k _ _ | RDel k => Some k | _ => None end.

(** The value of a key after some operations on it. *)
Definition value_of (k : string) (es : list entry) : option string := (λ e, e.2.1) <$> spec_find k es.
Definition apply_to (k : string) (o : option string) (op : Operation) : option string :=
  if decide (Persistence.Key op = k) then
    if decide (Type_ op = "SET") then Some (Persistence.Value op) else None
  else o.

(** Entries with distinct keys, all of them in [K]. *)
Definition within (K : gset string) (es : list entry) : Prop := NoDup es.*1 ∧ ∀ k, k ∈ es.*1 → k ∈ K.

(** While the keys in use are no more than the capacity nothing is evicted. *)
Lemma set_within (K : gset string) cap k v exp es :
  within K es → k ∈ K → Z.of_nat (size K) ≤ cap →
  within K (spec_set cap k v exp es) ∧
  ∀ k', value_of k' (spec_set cap k v exp es) = if decide (k = k') then Some v else value_of k' es.
Proof.
  intros [Hn HK] Hk Hcap. split.
  - split; [by apply spec_set_nodup|]. intros k' [-> |Hin]%elem_of_cons; [done|]. apply HK.
    destruct (spec_find k es); [by apply spec_del_keys in Hin as [_ ?]|]. destruct (cap <=? _); [|done].
    rewrite removelast_firstn_len in Hin. eapply elem_of_sublist; [exact Hin|apply (fmap_sublist fst), sublist_take].
  - intros k'. unfold value_of, spec_set. cbn [spec_find fst]. case_decide as Hkk; [done|].
    destruct (spec_find k es) eqn:E; [by rewrite spec_find_del, decide_False by congruence|].
    apply spec_find_None in E. destruct (Z.leb_spec cap (Z.of_nat (length es))) as [Hle|]; [|done].
    assert (length (k :: es.*1) ≤ size K)%nat as Hs; [|cbn in Hs; rewrite length_fmap in Hs; lia].
    apply nodup_size; [by apply NoDup_cons|]. intros k1 [-> |?]%elem_of_cons; auto.
Qed.

Lemma del_within K k es : within K es → within K (spec_del k es).
Proof. intros [Hn HK]. split; [by apply spec_del_nodup|]. intros k' [_ Hin]%spec_del_keys. auto. Qed.

Lemma value_of_del k k' es : value_of k' (spec_del k es) = if decide (k = k') then None else value_of k' es.
Proof. unfold value_of. rewrite spec_find_del. repeat case_decide; naive_solver. Qed.

Definition set_key (r : request) : option string := match r with RSet k _ _ => Some k | _ => None end.

(** The keys that are set. *)
Definition set_keys (rs : list request) : gset string := list_to_set (omap set_key rs).

Lemma elem_of_set_keys rs r k : r ∈ rs → set_key r = Some k → k ∈ set_keys rs.
Proof. intros Hr Hk. apply elem_of_list_to_set, list_elem_of_omap. eauto. Qed.

Lemma request_within (K : gset string) cap now r es :
  within K es → (∀ k, set_key r = Some k → k ∈ K) → Z.of_nat (size K) ≤ cap →
  within K (spec_request cap now r es).2 ∧
  ∀ k, value_of k (spec_request cap now r es).2 = foldl (apply_to k) (value_of k es) (logged r).
Proof.
  intros HK Hr Hcap. destruct r as [k v t|k|k|]; cbn [spec_request].
  - by apply set_within; [|apply Hr|].
  - assert (within K (spec_get k now es).2) as Hg.
    { destruct HK as [Hn HK]. split; [by apply spec_get_nodup|]. intros k' Hk'. apply HK. revert Hk'. unfold spec_get.
      destruct (spec_find k es) as [e|] eqn:E; [|done]. case_decide; [|done]. cbn [snd]. rewrite fmap_cons.
      intros [-> |[_ ?]%spec_del_keys]%elem_of_cons; [|done]. rewrite (spec_find_key _ _ _ E).
      destruct (decide (k ∈ es.*1)) as [|Hno%spec_find_None]; [done|]. by rewrite E in Hno. }
    pose proof (λ k', spec_find_get k k' now es) as Hf. destruct (spec_get k now es) as [o es']. cbn [snd] in *.
    split; [done|]. intros k'. unfold value_of. by rewrite Hf.
  - split; [by apply del_within|]. intros k'. cbn [snd logged foldl]. by rewrite value_of_del.
  - done.
Qed.

(** The operations of a history, with the goroutines they belong to. *)
Definition written (h : list (nat * (request * Z))) : list (nat * Operation) :=
  h ≫= λ x, pair x.1 <$> logged x.2.1.

Lemma history_value (K : gset string) cap h es k :
  within K es → (∀ x k, x ∈ h → set_key x.2.1 = Some k → k ∈ K) → Z.of_nat (size K) ≤ cap →
  value_of k (spec_history cap h es).2 = foldl (apply_to k) (value_of k es) (written h).*2.
Proof.
  intros HK Hh Hcap. revert es HK. induction h as [|[i [r now]] h IH]; intros es HK; [done|].
  destruct (request_within K cap now r es HK) as [HK1 Hv]; [|done|].
  { intros k' Hk'. by eapply (Hh (i, (r, now))); [left|]. }
  cbn [spec_history written mbind list_bind fst snd]. rewrite fmap_app, foldl_app, <-list_fmap_compose.
  change (snd ∘ pair i) with (λ op : Operation, op). rewrite list_fmap_id, <-Hv.
  destruct (spec_request cap now r es) as [a es1].
  specialize (IH ltac:(intros x k' Hx; apply Hh; by right) es1 HK1).
  by destruct (spec_history cap h es1) as [answers es2].
Qed.

Lemma replay_value (K : gset string) cap clock ops i es k :
  within K es → (∀ op, op ∈ ops → Type_ op = "SET" → Persistence.Key op ∈ K) → Z.of_nat (size K) ≤ cap →
  value_of k (Persistence.spec_replay cap clock i ops es) = foldl (apply_to k) (value_of k es) ops.
Proof.
  intros HK Hops Hcap. revert i es HK. induction ops as [|op ops IH]; intros i es HK; [done|].
  assert (∀ op, op ∈ ops → Type_ op = "SET" → Persistence.Key op ∈ K) as Hops' by (intros ? ?; apply Hops; by right).
  cbn [Persistence.spec_replay foldl]. unfold apply_to at 2. destruct (decide (Type_ op = "SET")) as [E|E].
  - destruct (set_within K cap (Persistence.Key op) (Persistence.Value op)
      (spec_expiry (seconds (Persistence.TTL op)) (clock i)) es HK) as [HK1 Hv]; [|done|].
    { apply Hops; [by left|done]. }
    by rewrite IH, Hv.
  - rewrite IH, value_of_del; [done|done|by apply del_within].
Qed.

(** Only the operations on a key count for it. *)
Definition on_key (k : string) (op : Operation) : Prop := Persistence.Key op = k.
#[export] Instance on_key_dec k op : Decision (on_key k op) := decide (Persistence.Key op = k).

Lemma apply_to_filter k ops o : foldl (apply_to k) o ops = foldl (apply_to k) o (filter (on_key k) ops).
Proof.
  revert o. induction ops as [|op ops IH]; intros o; [done|]. rewrite filter_cons. unfold on_key at 1.
  cbn [foldl]. rewrite IH. case_decide as E; [done|]. unfold apply_to at 2. by rewrite decide_False.
Qed.

(** When every operation on a key belongs to one goroutine, that goroutine's
    operations are all that count. *)
Lemma owner_filter k i (l : list (nat * Operation)) :
  Forall (λ x, on_key k x.2 → x.1 = i) l → filter (on_key k) l.*2 = filter (on_key k) (mine i l).
Proof.
  induction 1 as [|[j op] l Hx _ IH]; [done|]. change ((j, op) :: l) with ([(j, op)] ++ l).
  rewrite mine_app, mine_single, fmap_app, !filter_app, <-IH. f_equal. cbn [fst snd] in Hx.
  case_decide; [done|]. cbn. rewrite decide_False; naive_solver.
Qed.

Lemma mine_written i h : mine i (written h) = mjoin (logged <$> (mine i h).*1).
Proof.
  induction h as [|[j [r now]] h IH]; [done|].
  change (written ((j, (r, now)) :: h)) with ((pair j <$> logged r) ++ written h).
  change ((j, (r, now)) :: h) with ([(j, (r, now))] ++ h). rewrite !mine_app, mine_single, IH, fmap_app, fmap_app, join_app.
  f_equal. unfold mine. case_decide as E.
  - subst j. cbn. rewrite app_nil_r. induction (logged r) as [|op ops IHo]; [done|].
    rewrite fmap_cons, filter_cons. cbn. rewrite decide_True by done. cbn. by rewrite IHo.
  - cbn. induction (logged r) as [|op ops IHo]; [done|].
    rewrite fmap_cons, filter_cons. cbn. by rewrite decide_False.
Qed.

Definition tags_below {A} (N : nat) (l : list (nat * A)) : Prop := Forall (λ x, (x.1 < N)%nat) l.

Lemma appended_tags N tr : Forall (λ e, (e_who e < N)%nat) tr → tags_below N (appended tr).
Proof. induction 1 as [|[i a now] tr Hi _ IH]; [apply Forall_nil_2|]. destruct a; try done. by apply Forall_cons_2. Qed.

Lemma history_tags N tr : Forall (λ e, (e_who e < N)%nat) tr → tags_below N (history tr).
Proof. induction 1 as [|[i a now] tr Hi _ IH]; [apply Forall_nil_2|]. destruct a; try done. by apply Forall_cons_2. Qed.

Lemma written_tags N h : tags_below N h → tags_below N (written h).
Proof.
  induction 1 as [|[i [r now]] h Hi _ IH]; [apply Forall_nil_2|].
  change (written ((i, (r, now)) :: h)) with ((pair i <$> logged r) ++ written h).
  apply Forall_app_2; [|done]. by apply Forall_fmap, Forall_true.
Qed.

Lemma mine_beyond {A} N i (l : list (nat * A)) : tags_below N l → (N ≤ i)%nat → mine i l = [].
Proof.
  intros Hl Hi. unfold mine. induction Hl as [|[j x] l Hj _ IH]; [done|]. cbn in Hj.
  rewrite filter_cons, decide_False by (cbn; lia). done.
Qed.

Lemma elem_of_mine {A} (x : nat * A) l : x ∈ l → x.2 ∈ mine x.1 l.
Proof. intros Hx. apply list_elem_of_fmap. exists x. split; [done|]. by apply list_elem_of_filter. Qed.

Lemma logged_key r op : op ∈ logged r → op_key r = Some (Persistence.Key op).
Proof. destruct r; cbn; rewrite ?list_elem_of_singleton; [by intros ->|by intros ?%elem_of_nil|by intros ->|by intros ?%elem_of_nil]. Qed.

(** No key is written by two of the connections. *)
Definition disjoint_writers (rss : list (list request)) : Prop :=
  ∀ i j rs rs' r r' k, rss !! i = Some rs → rss !! j = Some rs' → r ∈ rs → r' ∈ rs' →
    op_key r = Some k → op_key r' = Some k → i = j.

Definition finished (n : node) : Prop := Forall (λ g, todo g = []) (gs n).

(** What the goroutines have done when all have finished. *)
Lemma finished_mine s es rss calm tr n :
  n_inv s es rss calm tr n → finished n →
  (∀ i rs, rss !! i = Some rs → (mine i (history tr)).*1 = rs) ∧
  ∀ i, mine i (appended tr) = mine i (written (history tr)).
Proof.
  intros Hinv Hf.
  assert (∀ i rs, rss !! i = Some rs →
    (mine i (history tr)).*1 = rs ∧ mine i (appended tr) = mjoin (logged <$> rs)) as H.
  { intros i rs Hrs. destruct (gs n !! i) as [g|] eqn:Hg.
    2:{ apply lookup_ge_None in Hg. apply lookup_lt_Some in Hrs. rewrite (n_gs _ _ _ _ _ _ Hinv) in Hg. lia. }
    destruct (n_g _ _ _ _ _ _ Hinv i rs g Hrs Hg) as (pre & rest & Hsplit & Htd & _ & _ & Hops).
    pose proof (Forall_lookup_1 _ _ _ _ Hf Hg) as Hd. cbn in Hd. rewrite Hd in Htd. symmetry in Htd.
    apply app_nil in Htd as [-> Hrest].
    assert (rest = []) as -> by (destruct rest as [|r rest]; [done|by destruct r]).
    rewrite app_nil_r in Hsplit, Hops. split; [done|]. by rewrite Hsplit. }
  split; [by intros i rs Hrs; apply H|]. intros i. rewrite mine_written.
  destruct (rss !! i) as [rs|] eqn:Hrs; [by destruct (H i rs Hrs) as [-> ->]|].
  apply lookup_ge_None in Hrs. pose proof (n_who _ _ _ _ _ _ Hinv) as Hw.
  rewrite (mine_beyond (length rss)), (mine_beyond (length rss)); [done|by apply history_tags|done|by apply appended_tags|done].
Qed.

Lemma history_elem s es rss calm tr n x :
  n_inv s es rss calm tr n → finished n → x ∈ history tr → x.2.1 ∈ mjoin rss.
Proof.
  intros Hinv Hf Hx%elem_of_mine. destruct (rss !! x.1) as [rs|] eqn:Hrs.
  - apply list_elem_of_join. exists rs. split; [|by eapply list_elem_of_lookup_2].
    rewrite <-(proj1 (finished_mine _ _ _ _ _ _ Hinv Hf) _ _ Hrs). by apply list_elem_of_fmap_2.
  - apply lookup_ge_None in Hrs. rewrite (mine_beyond (length rss)) in Hx; [by apply elem_of_nil in Hx| |done].
    apply history_tags, (n_who _ _ _ _ _ _ Hinv).
Qed.

Lemma written_elem s es rss calm tr n x :
  n_inv s es rss calm tr n → finished n → x ∈ written (history tr) →
  ∃ rs r, rss !! x.1 = Some rs ∧ r ∈ rs ∧ x.2 ∈ logged r.
Proof.
  intros Hinv Hf Hx%elem_of_mine. rewrite mine_written in Hx. destruct (rss !! x.1) as [rs|] eqn:Hrs.
  - rewrite (proj1 (finished_mine _ _ _ _ _ _ Hinv Hf) _ _ Hrs) in Hx.
    apply list_elem_of_join in Hx as (ops & Hop & (r & -> & Hr)%list_elem_of_fmap). eauto.
  - apply lookup_ge_None in Hrs. rewrite (mine_beyond (length rss)) in Hx; [by apply elem_of_nil in Hx| |done].
    apply history_tags, (n_who _ _ _ _ _ _ Hinv).
Qed.

Lemma appended_elem s es rss calm tr n x :
  n_inv s es rss calm tr n → finished n → x ∈ appended tr → x ∈ written (history tr).
Proof.
  intros Hinv Hf Hx%elem_of_mine. rewrite (proj2 (finished_mine _ _ _ _ _ _ Hinv Hf)) in Hx.
  apply list_elem_of_fmap in Hx as (y & E & [E' Hy]%list_elem_of_filter).
  assert (x = y) as -> by (destruct x, y; cbn in *; congruence). done.
Qed.

Lemma appended_wf s es rss calm tr n :
  n_inv s es rss calm tr n → finished n → Forall (Forall req_wf) rss → Forall op_wf (appended tr).*2.
Proof.
  intros Hinv Hf Hwf. apply Forall_fmap, Forall_forall. intros x Hx%(appended_elem _ _ _ _ _ _ _ Hinv Hf).
  destruct (written_elem _ _ _ _ _ _ _ Hinv Hf Hx) as (rs & r & Hrs & Hr & Hop).
  pose proof (Forall_lookup_1 _ _ _ _ Hwf Hrs) as Hrw. rewrite Forall_forall in Hrw.
  pose proof (logged_wf r (Hrw r Hr)) as Hl. rewrite Forall_forall in Hl. by apply Hl.
Qed.

(** With disjoint writers, log and history agree on every key. *)
Lemma same_on_key s es rss calm tr n k :
  n_inv s es rss calm tr n → finished n → disjoint_writers rss →
  filter (on_key k) (appended tr).*2 = filter (on_key k) (written (history tr)).*2.
Proof.
  intros Hinv Hf Hdis. destruct (finished_mine s es rss calm tr n Hinv Hf) as [_ Ha].
  assert (∃ i, ∀ x, x ∈ written (history tr) → on_key k x.2 → x.1 = i) as (i & Hi).
  { destruct (decide (Exists (λ x, on_key k x.2) (written (history tr)))) as [Hex|Hno].
    - apply Exists_exists in Hex as (x & Hx & Hk). exists x.1. intros y Hy Hky. unfold on_key in *.
      destruct (written_elem _ _ _ _ _ _ _ Hinv Hf Hx) as (rs & r & H1 & H2 & H3%logged_key).
      destruct (written_elem _ _ _ _ _ _ _ Hinv Hf Hy) as (rs' & r' & H1' & H2' & H3'%logged_key).
      subst k. rewrite Hky in H3'. by eapply Hdis.
    - exists 0%nat. intros x Hx Hk. destruct Hno. apply Exists_exists. eauto. }
  rewrite (owner_filter k i (appended tr)), (owner_filter k i (written _)), Ha; [done|..];
    apply Forall_forall; eauto using appended_elem.
Qed.

(** C14. Recovery after concurrent sessions: when the clients have written disjoint
    sets of keys, the keys set are no more than the capacity (so that nothing was
    evicted), the disk took every append and no rewrite or snapshot has replaced
    the log, then the log, in whatever order the goroutines appended to it,
    restores for every key the value it had in the cache. *)
Theorem concurrent_recovery s rss moves clock col tr m :
  serving (mkWorld s 0 new_state "") [] → file (aof s) = "" → Forall (Forall req_wf) rss →
  Forall undisturbed moves → disjoint_writers rss →
  Z.of_nat (size (set_keys (mjoin rss))) ≤ Cache.maxSize (cache s) →
  execute moves (boot s rss) = Ret (tr, m) → finished (conns m) →
  ∃ es c' es', cache_rep (cache (shared (conns m))) es ∧
    Persistence.RecoverAOF clock None (Some (file (aof (shared (conns m)))))
      (Cache.NewCache (Cache.maxSize (cache s)) col) = Ret c' ∧
    cache_rep c' es' ∧ ∀ k, value_of k es' = value_of k es.
Proof.
  intros Hs Hfile Hwf Hq Hdis Hcap Hrun Hf.
  destruct (execute_inv s [] rss moves True [] (boot s rss) (start_inv s [] rss Hs) Hwf) as (tr' & m' & Hrun' & Hinv).
  rewrite Hrun in Hrun'. injection Hrun' as <- <-. cbn [app] in Hinv. set (n := conns m) in *.
  destruct (n_log _ _ _ _ _ _ Hinv (conj I Hq)) as [_ (log & Hlog & Hfl)]. rewrite Hfile in Hfl. cbn in Hfl.
  pose proof (appended_wf s [] rss _ tr n Hinv Hf Hwf) as Hops.
  destruct (recover_log clock _ log (Cache.maxSize (cache s)) col Hops Hlog) as (c' & Hrec & Hc').
  eexists _, c', _. rewrite Hfl. split_and!; [apply (n_cache _ _ _ _ _ _ Hinv)|done|done|]. intros k.
  assert (within (set_keys (mjoin rss)) []) as HK by (split; [constructor|by intros ? ?%elem_of_nil]).
  rewrite (replay_value (set_keys (mjoin rss))), (history_value (set_keys (mjoin rss))); try done.
  - by rewrite apply_to_filter, (apply_to_filter k (written _).*2), (same_on_key s [] rss _ tr n k Hinv Hf).
  - intros x k' Hx%(history_elem _ _ _ _ _ _ _ Hinv Hf). by apply elem_of_set_keys.
  - intros op (x & -> & Hx%(appended_elem _ _ _ _ _ _ _ Hinv Hf))%list_elem_of_fmap Hset.
    destruct (written_elem _ _ _ _ _ _ _ Hinv Hf Hx) as (rs & r & Hrs & Hr & Hop).
    apply (elem_of_set_keys _ r); [apply list_elem_of_join; exists rs; split; [done|by eapply list_elem_of_lookup_2]|].
    destruct r; cbn in Hop; try (by apply elem_of_nil in Hop); apply list_elem_of_singleton in Hop as E; by rewrite E in *.
Qed.

Definition turns (l : list nat) : list turn := (λ i, mkTurn i 100 io_ok) <$> l.

Definition demo_sessions : list (list request) :=
  [[RSet "a" "1" NoTTL; RGet "b"]; [RSet "b" "2" (Ex 60); RGet "b"; RGet "a"; RSet "b" "3" NoTTL]].
(** The second client's SET is executed first and logged last; a snapshot is under way. *)
Definition demo_moves : list move :=
  (Client <$> turns [1; 0; 0; 0; 0; 0; 0; 1; 1; 1; 1; 1; 1]%nat) ++ [SnapshotCopy [("a", 100)]] ++
  (Client <$> turns [1; 1; 1; 1; 1; 1]%nat).
Definition demo_run : list event * machine :=
  match execute demo_moves (boot demo_server demo_sessions) with
  | Ret x => x
  | _ => ([], boot demo_server demo_sessions)
  end.

Lemma demo_sessions_wf : Forall (Forall req_wf) demo_sessions.
Proof. apply (bool_decide_eq_true_1 (Forall (Forall req_wf) demo_sessions)). by vm_compute. Qed.

Lemma demo_undisturbed : Forall undisturbed demo_moves.
Proof. by repeat (apply Forall_cons; split; [done|]). Qed.

Lemma concurrent_sessions_linearizable_witness :
  ∃ tr m, execute demo_moves (boot demo_server demo_sessions) = Ret (tr, m) ∧
    let n := conns m in
    let h := spec_history 3 (history tr) [] in
    cache_rep (cache (shared n)) h.2 ∧
    (Forall undisturbed demo_moves →
       ∃ log, encode_log (appended tr).*2 = Ret log ∧ file (aof (shared n)) = "" +:+ log) ∧
    ∀ i rs g, demo_sessions !! i = Some rs → gs n !! i = Some g →
      (mine i (history tr)).*1 `prefix_of` rs ∧ (∃ owed, g_out g +:+ owed = concat_strings (mine i h.1)) ∧
      (todo g = [] → (mine i (history tr)).*1 = rs ∧ g_out g = concat_strings (mine i h.1) ∧
         mine i (appended tr) = mjoin (logged <$> rs)).
Proof.
  apply (concurrent_sessions_linearizable demo_server [] demo_sessions demo_moves);
    [apply demo_serving|apply demo_sessions_wf].
Defined.

Lemma concurrent_recovery_witness :
  ∃ es c' es', cache_rep (cache (shared (conns demo_run.2))) es ∧
    Persistence.RecoverAOF (λ _, 5000) None (Some (file (aof (shared (conns demo_run.2)))))
      (Cache.NewCache 3 NewCollector) = Ret c' ∧
    cache_rep c' es' ∧ ∀ k, value_of k es' = value_of k es.
Proof.
  apply (concurrent_recovery demo_server demo_sessions demo_moves (λ _, 5000) NewCollector demo_run.1 demo_run.2).
  - apply demo_serving.
  - done.
  - apply demo_sessions_wf.
  - apply demo_undisturbed.
  - intros i j rs rs' r r' k Hi Hj Hr Hr' Hk Hk'.
    destruct i as [|[|i]], j as [|[|j]]; try done; simplify_eq/=;
      repeat match goal with H : _ ∈ _ |- _ => first [apply elem_of_nil in H; done | apply elem_of_cons in H as [->|H]] end;
      by simplify_eq/=.
  - by vm_compute.
  - by vm_compute.
  - apply (bool_decide_eq_true_1 (Forall (λ g, todo g = []) (gs (conns demo_run.2)))). by vm_compute.
Defined.

(** With the default growth factor the third write starts a rewrite.  The write of
    another client between the copy and the swap is answered OK, stays in the
    cache, and is lost from the log for good. *)
Definition small_server : Server :=
  mkServer (Cache.NewCache 3 NewCollector) (Persistence.NewAOF "" None Config.SyncAlways 2) ∅ PubSub.NewPubSub
    (NodeState.NewNodeState "leader" None "").

Example rewrite_loses_write :
  match execute ((Client <$> turns (repeat 0 9)%nat) ++ [RewriteCopy [("a", 100)]] ++
      (Client <$> turns (repeat 1 3)%nat) ++ [RewriteSwap None; RewriteDone])
    (boot small_server [[RSet "a" "1" NoTTL; RSet "a" "2" NoTTL; RSet "a" "3" NoTTL]; [RSet "b" "4" NoTTL]]) with
  | Ret (_, m) =>
      g_out <$> gs (conns m) !! 1%nat = Some (EncodeSimpleString "OK") ∧
      Cache.value <$> Cache.data (cache (shared (conns m))) !! "b" = Some "4" ∧
      match Persistence.RecoverAOF (λ _, 5000) None (Some (file (aof (shared (conns m))))) (Cache.NewCache 3 NewCollector) with
      | Ret c => Cache.value <$> Cache.data c !! "a" = Some "3" ∧ Cache.data c !! "b" = None
      | _ => False
      end
  | _ => False
  end.
Proof. by vm_compute. Qed.

(** ** Two clients that write the same key *)

Lemma run_app sched1 sched2 n tr1 n1 tr2 n2 :
  run sched1 n = Ret (tr1, n1) → run sched2 n1 = Ret (tr2, n2) → run (sched1 ++ sched2) n = Ret (tr1 ++ tr2, n2).
Proof.
  revert n tr1. induction sched1 as [|t sched1 IH]; intros n tr1 H1 H2.
  { injection H1 as <- <-. done. }
  cbn [run app] in *. apply outcome_bind_Ret_inv in H1 as ([tr n'] & -> & H1).
  apply outcome_bind_Ret_inv in H1 as ([tr' n''] & Hrun & [= <- <-]). cbn [mbind outcome_bind].
  rewrite (IH _ _ Hrun H2). cbn. by rewrite app_assoc.
Qed.

(** Goroutine [i] alone gets from [n] to [n'] without a call on the cache. *)
Definition advances (i : nat) (n n' : node) (ops : list Operation) : Prop :=
  ∃ N tr, run (repeat (mkTurn i 100 io_ok) N) n = Ret (tr, n') ∧ history tr = [] ∧ appended tr = pair i <$> ops.

Lemma advances_refl i n : advances i n n [].
Proof. by exists 0%nat, []. Qed.

Lemma advances_trans i n1 n2 n3 ops1 ops2 :
  advances i n1 n2 ops1 → advances i n2 n3 ops2 → advances i n1 n3 (ops1 ++ ops2).
Proof.
  intros (N1 & tr1 & R1 & H1 & A1) (N2 & tr2 & R2 & H2 & A2). exists (N1 + N2)%nat, (tr1 ++ tr2).
  rewrite repeat_app. split; [by eapply run_app|].
  rewrite history_app, appended_app, H1, H2, A1, A2, fmap_app. done.
Qed.

Definition added (a : action) : Prop := match a with Send _ _ _ => True | _ => False end.

Lemma advance_one leader i a rest n o :
  pending leader a → led leader (shared n) → gs n !! i = Some (mkG (a :: rest) o) →
  ∃ new s', advances i n (mkNode s' (<[i := mkG (new ++ rest) (o +:+ writes [a])]> (gs n))) (logs [a]) ∧
    led leader s' ∧ Forall (pending leader) new ∧ Forall added new ∧ writes new = "" ∧ logs new = [] ∧
    (added a → new = []).
Proof.
  intros Ha Hl Hg. destruct (act_pending leader 100 io_ok a (shared n) Ha Hl) as (new & s' & Hact & [_ _ Hl' _] & Hnew & Hnl & Hnw).
  exists new, s'. split_and!; try done.
  - exists 1%nat, [mkEvent i a 100]. cbn [repeat run]. unfold step. cbn [who at_time disk_io]. rewrite Hg, Hact.
    split; [reflexivity|]. by destruct a.
  - destruct a; [done|..]; cbn [act] in Hact; inv_ret; try apply Forall_nil_2.
    destruct r0; [|apply Forall_nil_2]. by apply Forall_fmap, Forall_true.
  - destruct a; try done. cbn [act] in Hact. by inv_ret.
Qed.

Lemma advance_flat leader i pre rest n o :
  Forall (pending leader) pre → Forall added pre → led leader (shared n) → gs n !! i = Some (mkG (pre ++ rest) o) →
  writes pre = "" → logs pre = [] →
  ∃ s', advances i n (mkNode s' (<[i := mkG rest o]> (gs n))) [] ∧ led leader s'.
Proof.
  intros Hpre Had. revert n. induction Hpre as [|a pre Ha _ IH]; intros n Hl Hg Hw Hlo.
  { exists (shared n). split; [|done]. rewrite list_insert_id by done. destruct n. apply advances_refl. }
  apply Forall_cons in Had as [Haa Had].
  destruct (advance_one leader i a (pre ++ rest) n o Ha Hl Hg) as (new & s' & Hadv & Hl' & _ & _ & _ & _ & Hn).
  rewrite (Hn Haa) in Hadv. cbn [app] in Hadv. assert (writes [a] = "" ∧ logs [a] = []) as [Ew El] by by destruct a.
  rewrite Ew, El, string_app_nil_r in Hadv.
  destruct (IH Had (mkNode s' (<[i := mkG (pre ++ rest) o]> (gs n)))) as (s2 & Hadv2 & Hl2).
  - done.
  - cbn. rewrite list_lookup_insert_eq; [done|by eapply lookup_lt_Some].
  - by destruct a.
  - by destruct a.
  - cbn [gs] in Hadv2. rewrite list_insert_insert_eq in Hadv2. exists s2. split; [|done].
    exact (advances_trans _ _ _ _ [] [] Hadv Hadv2).
Qed.

Lemma advance_pending leader i pre rest n o :
  Forall (pending leader) pre → led leader (shared n) → gs n !! i = Some (mkG (pre ++ rest) o) →
  ∃ s', advances i n (mkNode s' (<[i := mkG rest (o +:+ writes pre)]> (gs n))) (logs pre) ∧ led leader s'.
Proof.
  intros Hpre. revert n o. induction Hpre as [|a pre Ha Hpre IH]; intros n o Hl Hg.
  { exists (shared n). change (writes []) with "". rewrite string_app_nil_r, list_insert_id by done.
    destruct n. split; [apply advances_refl|done]. }
  destruct (advance_one leader i a (pre ++ rest) n o Ha Hl Hg) as (new & s1 & A1 & L1 & P1 & D1 & W1 & G1 & _).
  assert ((i < length (gs n))%nat) as Hi by by eapply lookup_lt_Some.
  destruct (advance_flat leader i new (pre ++ rest)
    (mkNode s1 (<[i := mkG (new ++ pre ++ rest) (o +:+ writes [a])]> (gs n))) (o +:+ writes [a]) P1 D1 L1) as (s2 & A2 & L2);
    [cbn; by rewrite list_lookup_insert_eq|done|done|].
  cbn [gs] in A2. rewrite list_insert_insert_eq in A2.
  destruct (IH (mkNode s2 (<[i := mkG (pre ++ rest) (o +:+ writes [a])]> (gs n))) (o +:+ writes [a]) L2) as (s3 & A3 & L3);
    [cbn; by rewrite list_lookup_insert_eq|].
  cbn [gs] in A3. rewrite list_insert_insert_eq, <-string_app_assoc in A3. exists s3. split; [|done].
  pose proof (advances_trans _ _ _ _ _ _ A1 (advances_trans _ _ _ _ _ _ A2 A3)) as A.
  by rewrite app_nil_l, <-(writes_app [a] pre), <-(logs_app [a] pre) in A.
Qed.

Lemma step_exec i r rest n o es :
  gs n !! i = Some (mkG (Exec r :: rest) o) → cache_rep (cache (shared n)) es →
  ∃ bytes c, step (mkTurn i 100 io_ok) n =
      Ret ([mkEvent i (Exec r) 100], mkNode (set_cache (shared n) c) (<[i := mkG rest (o +:+ bytes)]> (gs n))) ∧
    Cache.maxSize c = Cache.maxSize (cache (shared n)) ∧
    cache_rep c (spec_request (Cache.maxSize (cache (shared n))) 100 r es).2 ∧
    bytes +:+ later_reply r = (spec_request (Cache.maxSize (cache (shared n))) 100 r es).1.
Proof.
  intros Hg Hc. destruct (act_exec 100 io_ok r (shared n) es Hc) as (bytes & c & Hact & H).
  exists bytes, c. split; [|done]. unfold step. cbn [who at_time disk_io]. rewrite Hg, Hact. done.
Qed.

(** The clients 0 and 1 send one SET each; client 1 overtakes client 0 after the
    calls on the cache. *)
Lemma overtaking s k v1 v2 :
  let leader := NodeState.GetLeader (nodeState s) in
  serving (mkWorld s 0 new_state "") [] → req_wf (RSet k v1 NoTTL) → req_wf (RSet k v2 NoTTL) →
  ∃ sched tr s', Forall (λ t, disk_io t = io_ok) sched ∧
    run sched (start s [[RSet k v1 NoTTL]; [RSet k v2 NoTTL]]) =
      Ret (tr, mkNode s' [mkG [] (EncodeSimpleString "OK"); mkG [] (EncodeSimpleString "OK")]) ∧
    history tr = [(0%nat, (RSet k v1 NoTTL, 100)); (1%nat, (RSet k v2 NoTTL, 100))] ∧
    appended tr = [(1%nat, mkOp "SET" k v2 0); (0%nat, mkOp "SET" k v1 0)].
Proof.
  intros leader Hs Hr1 Hr2. set (r1 := RSet k v1 NoTTL) in *. set (r2 := RSet k v2 NoTTL) in *.
  destruct (request_actions_split leader r1 Hr1) as (pre1 & Hq1 & Hp1 & Hl1 & Hw1).
  destruct (request_actions_split leader r2 Hr2) as (pre2 & Hq2 & Hp2 & Hl2 & Hw2).
  assert (start s [[r1]; [r2]] = mkNode s [mkG (Exec r1 :: pre1) ""; mkG (Exec r2 :: pre2) ""]) as ->.
  { unfold start. fold leader. cbn [fmap list_fmap mbind list_bind]. by rewrite !app_nil_r, Hq1, Hq2. }
  set (n0 := mkNode s _). set (cap := Cache.maxSize (cache s)).
  destruct (step_exec 0 r1 pre1 n0 "" [] eq_refl (s_cache _ _ Hs)) as (b1 & c1 & Hst1 & Hm1 & Hc1 & Hb1).
  set (n1 := mkNode (set_cache s c1) [mkG pre1 b1; mkG (Exec r2 :: pre2) ""]).
  change (step (mkTurn 0 100 io_ok) n0 = Ret ([mkEvent 0 (Exec r1) 100], n1)) in Hst1.
  destruct (step_exec 1 r2 pre2 n1 "" _ eq_refl Hc1) as (b2 & c2 & Hst2 & Hm2 & Hc2 & Hb2).
  set (n2 := mkNode (set_cache (set_cache s c1) c2) [mkG pre1 b1; mkG pre2 b2]).
  change (step (mkTurn 1 100 io_ok) n1 = Ret ([mkEvent 1 (Exec r2) 100], n2)) in Hst2.
  assert (led leader (shared n2)) as Hlk by exact (proj2 (s_linked _ _ Hs)).
  destruct (advance_pending leader 1 pre2 [] n2 b2 Hp2 Hlk) as (s3 & (N3 & tr3 & Hrun3 & Hh3 & Ha3) & Hlk3).
  { cbn. by rewrite app_nil_r. }
  destruct (advance_pending leader 0 pre1 [] (mkNode s3 [mkG pre1 b1; mkG [] (b2 +:+ writes pre2)]) b1 Hp1 Hlk3)
    as (s4 & (N4 & tr4 & Hrun4 & Hh4 & Ha4) & _).
  { cbn. by rewrite app_nil_r. }
  exists ([mkTurn 0 100 io_ok; mkTurn 1 100 io_ok] ++ repeat (mkTurn 1 100 io_ok) N3 ++ repeat (mkTurn 0 100 io_ok) N4),
    ([mkEvent 0 (Exec r1) 100; mkEvent 1 (Exec r2) 100] ++ tr3 ++ tr4), s4. split_and!.
  - repeat (apply Forall_app; split); [by split_Forall| |];
      apply Forall_forall; intros t Ht%list_elem_of_In%repeat_spec; by subst.
  - eapply run_app; [|eapply run_app; [exact Hrun3|]].
    + cbn [run]. rewrite Hst1. cbn [mbind outcome_bind]. rewrite Hst2. reflexivity.
    + refine (eq_trans Hrun4 _). by rewrite Hw1, Hw2, Hb1, Hb2.
  - by rewrite !history_app, Hh3, Hh4.
  - by rewrite !appended_app, Ha3, Ha4, Hl1, Hl2.
Qed.

Lemma spec_del_single k x : spec_del k [(k, x)] = [].
Proof. unfold spec_del. rewrite filter_cons_False; [done|]. cbn. naive_solver. Qed.

Lemma spec_set_twice cap k v v' e e' : spec_set cap k v' e' (spec_set cap k v e []) = [(k, (v', e'))].
Proof.
  assert (spec_set cap k v e [] = [(k, (v, e))]) as -> by (unfold spec_set; cbn [spec_find length removelast]; by case_match).
  unfold spec_set. cbn [spec_find fst]. by rewrite decide_True, spec_del_single by done.
Qed.

(** C15. Concurrent writes to one key can leave the log behind the cache: on any node,
    for any key and values, there is a schedule of two clients that send one SET
    each, both are answered OK, the cache holds the second value, and recovery
    from the log restores the first. *)
Theorem concurrent_writes_diverge s k v1 v2 clock m :
  serving (mkWorld s 0 new_state "") [] → file (aof s) = "" →
  req_wf (RSet k v1 NoTTL) → req_wf (RSet k v2 NoTTL) →
  ∃ sched tr n c', run sched (start s [[RSet k v1 NoTTL]; [RSet k v2 NoTTL]]) = Ret (tr, n) ∧
    gs n = [mkG [] (EncodeSimpleString "OK"); mkG [] (EncodeSimpleString "OK")] ∧
    cache_rep (cache (shared n)) [(k, (v2, 0))] ∧
    Persistence.RecoverAOF clock None (Some (file (aof (shared n))))
      (Cache.NewCache (Cache.maxSize (cache s)) m) = Ret c' ∧
    cache_rep c' [(k, (v1, 0))].
Proof.
  intros Hs Hfile Hr1 Hr2.
  assert (Forall (Forall req_wf) [[RSet k v1 NoTTL]; [RSet k v2 NoTTL]]) as Hwf by by split_Forall.
  destruct (overtaking s k v1 v2 Hs Hr1 Hr2) as (sched & tr & s' & Hio & Hrun & Hh & Ha).
  destruct (run_inv s [] _ sched True [] _ (start_inv s [] _ Hs) Hwf) as (tr' & n' & Hrun' & Hinv).
  rewrite Hrun in Hrun'. injection Hrun' as <- <-. cbn [app] in Hinv. destruct Hinv.
  destruct (n_log0 (conj I Hio)) as [_ (log & Hlog & Hfl)]. rewrite Hfile in Hfl. rewrite Ha in Hlog.
  assert (Forall op_wf [mkOp "SET" k v2 0; mkOp "SET" k v1 0]) as Hops.
  { pose proof (logged_wf _ Hr1) as H1. pose proof (logged_wf _ Hr2) as H2. apply Forall_cons in H1 as [H1 _].
    apply Forall_cons in H2 as [H2 _]. by split_Forall. }
  destruct (recover_log clock _ log (Cache.maxSize (cache s)) m Hops Hlog) as (c' & Hrec & Hc').
  eexists sched, tr, _, c'. split; [exact Hrun|]. cbn [shared gs] in *. rewrite Hfl. split_and!; [done| |done|].
  - rewrite Hh in n_cache0. cbn [spec_history spec_request snd] in n_cache0. by rewrite spec_set_twice in n_cache0.
  - cbn [fmap list_fmap snd Persistence.spec_replay] in Hc'. rewrite !decide_True, spec_set_twice in Hc' by done. done.
Qed.

Lemma concurrent_writes_diverge_witness :
  ∃ sched tr n c', run sched (start demo_server [[RSet "k" "old" NoTTL]; [RSet "k" "new" NoTTL]]) = Ret (tr, n) ∧
    gs n = [mkG [] (EncodeSimpleString "OK"); mkG [] (EncodeSimpleString "OK")] ∧
    cache_rep (cache (shared n)) [("k", ("new", 0))] ∧
    Persistence.RecoverAOF (λ _, 5000) None (Some (file (aof (shared n)))) (Cache.NewCache 3 NewCollector) = Ret c' ∧
    cache_rep c' [("k", ("old", 0))].
Proof.
  apply (concurrent_writes_diverge demo_server "k" "old" "new" (λ _, 5000) NewCollector).
  - apply demo_serving.
  - done.
  - by vm_compute.
  - by vm_compute.
Defined.

Lemma handler_actions_witness :
  handle_locally no_cluster (demo_env 0) (mkWorld demo_server 7 new_state "") (VStr "SET")
    [VStr "SET"; VStr "a"; VStr "1"; VStr "EX"; VStr (Itoa 60)] =
  for_each (perform 100 io_ok) (mkWorld demo_server 7 new_state "")
    [Exec (RSet "a" "1" (Ex 60)); Number 1 (mkOp "SET" "a" "1" 60); Log (mkOp "SET" "a" "1" 60);
     Write (EncodeSimpleString "OK")].
Proof.
  apply (handler_actions no_cluster (demo_env 0) (mkWorld demo_server 7 new_state "") (RSet "a" "1" (Ex 60))).
  - by vm_compute.
  - done.
Defined.
End Concurrency.
