(* ===== verification/TypeSafety.v ===== *)
(** * Type safety of the request handlers (handler.go)

    A request arrives as [[]interface{}], and the handlers convert its elements with
    [.(string)] and index it without a recovery: an element of another type, or a
    missing one, takes the server down.  A request is typed when it has an element
    and all elements are strings.  On a well-formed connection a typed request
    never panics and leaves the connection well formed, whatever the command and the
    number of its arguments; an integer where a key is expected does panic. *)

From S2P Require Import Prelude GoStd Lru Metrics Cache CacheSpec CacheTrace Resp HashRing PubSub.
From S2P Require Import ReplProtocol Config NodeState Persistence Leader Handler HandlerSpec.
Import ReplProtocol(str_of, OpSet, OpDelete).
Import Handler HandlerSpec.
Local Open Scope Z_scope.

Module TypeSafety.

Definition is_string (v : value) : Prop := match v with VStr _ => True | _ => False end.
#[export] Instance is_string_dec v : Decision (is_string v).
Proof. destruct v; simpl; apply _. Defined.

Definition typed (l : list value) : Prop := Forall is_string l.
Definition typed_request (l : list value) : Prop := l ≠ [] ∧ typed l.

(** The requests of a client; CLUSTER is for administrators. *)
Definition client_request (l : list value) : Prop := typed_request l ∧ head l ≠ Some (VStr "CLUSTER").

(** ** Computations that do not go wrong *)

(** [m] neither panics nor runs out of fuel, and a result satisfies [P]; it blocks
    only if [may] holds. *)
Definition safe (may : Prop) {A} (P : A → Prop) (m : outcome A) : Prop :=
  match m with Ret a => P a | Deadlock => may | _ => False end.

Create HintDb safe.

Section safety.
Context {may : Prop} (allowed : list value → Prop).

Lemma safe_ret {A} (P : A → Prop) a : P a → safe may P (mret a).
Proof. done. Qed.

Lemma safe_bind {A B} (Q : A → Prop) (P : B → Prop) m f :
  safe may Q m → (∀ a, Q a → safe may P (f a)) → safe may P (m ≫= f).
Proof. intros Hm Hf. destruct m; [by apply Hf|done..]. Qed.

Lemma safe_mono {A} (P Q : A → Prop) m : safe may P m → (∀ a, P a → Q a) → safe may Q m.
Proof. intros Hm HPQ. destruct m; [by apply HPQ|done..]. Qed.

Lemma arg_typed l i : typed l → (i < length l)%nat → ∃ s, arg l i = Ret s.
Proof.
  intros Hl Hi. destruct (lookup_lt_is_Some_2 l i Hi) as [v Hv].
  pose proof (Forall_lookup_1 _ _ _ _ Hl Hv) as Hs. unfold arg. rewrite Hv. destruct v; try done. eauto.
Qed.

Lemma set_ttl_typed e5 e4 l : typed l → ∃ r, set_ttl e5 e4 l = Ret r.
Proof.
  intros Hl. unfold set_ttl. case_bool_decide as H5.
  - destruct (arg_typed l 3 Hl ltac:(lia)) as [s ->]. cbn. case_bool_decide; [eauto|].
    destruct (arg_typed l 4 Hl ltac:(lia)) as [s' ->]. cbn. eauto.
  - case_bool_decide as H4; [|eauto]. destruct (arg_typed l 3 Hl ltac:(lia)) as [s ->]. cbn. eauto.
Qed.

Lemma logged_ttl_typed l : typed l → ∃ n, logged_ttl l = Ret n.
Proof.
  intros Hl. unfold logged_ttl. case_bool_decide as H5.
  - destruct (arg_typed l 4 Hl ltac:(lia)) as [s ->]. cbn. eauto.
  - case_bool_decide as H4; [|eauto]. destruct (arg_typed l 3 Hl ltac:(lia)) as [s ->]. cbn. eauto.
Qed.

(** Strings and integers can be encoded. *)
Definition plain_value (v : value) : Prop := match v with VStr _ | VInt _ | VInt64 _ => True | _ => False end.

Lemma encode_plain l s : Forall plain_value l → ∃ e, encode_elements l s = Ret e.
Proof.
  intros Hl. revert s. induction Hl as [|v l Hv _ IH]; intros s; [by eexists|].
  cbn [encode_elements]. destruct v; try done; cbn [encode_element mbind outcome_bind]; apply IH.
Qed.

Lemma EncodeArray_plain l : Forall plain_value l → ∃ e, EncodeArray l = Ret e.
Proof. apply encode_plain. Qed.

Lemma EncodeReplicateCommand_returns m : ∃ r, ReplProtocol.EncodeReplicateCommand (Some m) = Ret r.
Proof.
  unfold ReplProtocol.EncodeReplicateCommand. repeat case_match; eauto;
    match goal with |- ∃ r, (EncodeArray ?l ≫= _) = _ =>
      destruct (EncodeArray_plain l) as [e ->]; [by split_Forall|] end; cbn; eauto.
Qed.

(** ** Well-formed servers *)

(** The leader that the node state names exists. *)
Definition leader_exists (leader : option positive) (s : Server) : Prop :=
  ∀ lp, leader = Some lp → is_Some (leaders s !! lp).

(** Everything but the cache, which EXEC holds locked for a while. *)
Definition rest_ok (w : World) : Prop :=
  leader_exists (NodeState.GetLeader (nodeState (srv w))) (srv w) ∧ PubSub.ps_inv (ps (srv w)).

(** A queued command is one the client may send, and has passed the check of its
    arguments. *)
Definition queued_ok (l : list value) : Prop :=
  (typed_request l ∧ allowed l) ∧ ∃ name, arg l 0 = Ret name ∧ validation_error name (length l) = None.

Record world_ok (w : World) : Prop := {
  ok_cache : ∃ es, cache_rep (cache (srv w)) es;
  ok_rest : rest_ok w;
  ok_queue : Forall queued_ok (commandQueue (state w))
}.

(** [w'] has the cache, the connection's state and the node state of [w]. *)
Definition persisted_only (w w' : World) : Prop :=
  cache (srv w') = cache (srv w) ∧ nodeState (srv w') = nodeState (srv w) ∧ state w' = state w ∧
  ps (srv w') = ps (srv w).

Lemma replicate_safe w leader op k v ttl :
  leader_exists leader (srv w) →
  safe may (λ w', persisted_only w w' ∧ leader_exists leader (srv w')) (Handler.replicate w leader op k v ttl).
Proof.
  intros Hl. unfold Handler.replicate. destruct leader as [lp|]; [|done].
  destruct (Hl lp eq_refl) as [l ->]. cbn [or_panic mbind outcome_bind]. unfold Leader.Replicate. cbv zeta.
  destruct (EncodeReplicateCommand_returns (ReplProtocol.mkRepl (Leader.seqNum (Leader.next_seq l)) op k v ttl))
    as [r ->]. cbn [mbind outcome_bind].
  destruct r; cbn; (split; [done|]); intros lp' [= <-]; cbn; rewrite lookup_insert_eq; eauto.
Qed.

Lemma append_safe w l io leader :
  Forall plain_value l → leader_exists leader (srv w) →
  safe may (λ w', persisted_only w w' ∧ leader_exists leader (srv w')) (append_aof w l io).
Proof.
  intros Hl Hle. unfold append_aof. destruct (EncodeArray_plain l Hl) as [e ->]. cbn [mbind outcome_bind].
  by destruct (Persistence.Append _ _ _).
Qed.

Lemma persisted_only_trans w1 w2 w3 : persisted_only w1 w2 → persisted_only w2 w3 → persisted_only w1 w3.
Proof. unfold persisted_only. intuition congruence. Qed.

Lemma persist_safe w leader op k v ttl l io :
  Forall plain_value l → leader_exists leader (srv w) →
  safe may (λ w', persisted_only w w' ∧ leader_exists leader (srv w'))
    (w ← Handler.replicate w leader op k v ttl; append_aof w l io).
Proof.
  intros Hl Hle. eapply safe_bind; [by apply replicate_safe|]. intros w1 [H1 Hle1].
  eapply safe_mono; [by apply append_safe|]. intros w2 [H2 Hle2]. split; [by eapply persisted_only_trans|done].
Qed.

(** ** The commands *)

Lemma ok_reply w s : world_ok w → world_ok (reply w s).
Proof. intros []. by split. Qed.

Lemma ok_with_cache w c es : world_ok w → cache_rep c es → world_ok (with_cache w c).
Proof. intros [] Hc. split; [by exists es|done..]. Qed.

Lemma ok_observe w : world_ok w → world_ok (observe w).
Proof. intros Hw. destruct (ok_cache _ Hw) as [es Hc]. by eapply ok_with_cache, cache_rep_metrics. Qed.

Lemma ok_persisted w w' :
  world_ok w → persisted_only w w' → leader_exists (NodeState.GetLeader (nodeState (srv w))) (srv w') → world_ok w'.
Proof.
  intros [Hc [_ Hp] Hq] (E1 & E2 & E3 & E4) Hl. split; [by rewrite E1| |by rewrite E3].
  split; [by rewrite E2|by rewrite E4].
Qed.
#[local] Hint Resolve ok_reply ok_observe : safe.

Section handlers.
Context (env : Env).

Lemma handleSet_safe w l :
  world_ok w → typed l → safe may world_ok (handleSet env w l (NodeState.GetLeader (nodeState (srv w)))).
Proof.
  intros Hw Hl. unfold handleSet. case_bool_decide; [by apply ok_reply|].
  unfold set_arity. case_bool_decide as Hn; [by apply ok_reply|].
  destruct (arg_typed l 1 Hl ltac:(lia)) as [k ->], (arg_typed l 2 Hl ltac:(lia)) as [v ->].
  cbn [mbind outcome_bind]. destruct (set_ttl_typed "ERR value is not an integer"
    "Couldn't convert seconds to a string" l Hl) as [[ttl|msg] ->]; cbn [mbind outcome_bind]; [|by apply ok_reply].
  destruct (ok_cache _ Hw) as [es Hc]. destruct (Set_rep _ es k v ttl (clock env 0) Hc) as (c & -> & _ & Hc').
  cbn [mbind outcome_bind]. rewrite <-outcome_bind_assoc. eapply safe_bind.
  - apply persist_safe; [by split_Forall|]. apply (ok_rest _ Hw).
  - intros w' [Hp Hle]. apply ok_reply. eapply (ok_persisted (with_cache w c)); [|done|done].
    by eapply ok_with_cache.
Qed.

Lemma handleGet_safe w l : world_ok w → typed l → safe may world_ok (handleGet env w l).
Proof.
  intros Hw Hl. unfold handleGet. case_bool_decide as Hn; [by apply ok_reply|].
  destruct (arg_typed l 1 Hl ltac:(lia)) as [k ->]. cbn [mbind outcome_bind].
  destruct (ok_cache _ Hw) as [es Hc]. destruct (Get_rep _ es k (clock env 0) Hc) as (v & ok & c & -> & _ & _ & _ & Hc').
  by eapply ok_reply, ok_with_cache.
Qed.

Lemma handleDelete_safe w l :
  world_ok w → typed l → safe may world_ok (handleDelete env w l (NodeState.GetLeader (nodeState (srv w)))).
Proof.
  intros Hw Hl. unfold handleDelete. case_bool_decide; [by apply ok_reply|].
  case_bool_decide as Hn; [by apply ok_reply|].
  destruct (arg_typed l 1 Hl ltac:(lia)) as [k ->]. cbn [mbind outcome_bind].
  destruct (ok_cache _ Hw) as [es Hc]. destruct (Delete_rep _ es k Hc) as (c & -> & _ & Hc').
  cbn [mbind outcome_bind]. rewrite <-outcome_bind_assoc. eapply safe_bind.
  - apply persist_safe; [by split_Forall|]. apply (ok_rest _ Hw).
  - intros w' [Hp Hle]. apply ok_reply. eapply (ok_persisted (with_cache w c)); [|done|done].
    by eapply ok_with_cache.
Qed.

Lemma handleDBSize_safe w : world_ok w → safe may world_ok (handleDBSize w).
Proof.
  intros Hw. unfold handleDBSize, db_size, Cache.GetAllKeys, Cache.RLock. destruct (ok_cache _ Hw) as [es [-> _]].
  cbn. by apply ok_reply.
Qed.

(** *** EXEC: the cache is locked while the queue runs *)

(** DBSIZE asks for the lock again. *)
Definition blocking (l : list value) : Prop := arg l 0 = Ret "DBSIZE".

Definition locked_ok (c : Cache.Cache) : Prop := Cache.mu c = true ∧ ∃ xs, rep c xs.

Lemma execute_safe now l c :
  locked_ok c → queued_ok l → (blocking l → may) → safe may (λ x, locked_ok x.2) (execute_command now l c).
Proof.
  intros [Hmu [xs Hr]] [[[_ Hl] _] (name & Hname & Hv)] Hmay. unfold blocking in Hmay. rewrite Hname in Hmay. unfold execute_command. rewrite Hname. cbn [mbind outcome_bind].
  case_bool_decide as E1; [|case_bool_decide as E2; [|case_bool_decide as E3; [|case_bool_decide as E4]]].
  - unfold executeSetCommand, set_arity. case_bool_decide as Hn; [by split; [|exists xs]|].
    destruct (arg_typed l 1 Hl ltac:(lia)) as [k ->], (arg_typed l 2 Hl ltac:(lia)) as [v ->]. cbn [mbind outcome_bind].
    destruct (set_ttl_typed err_range err_range l Hl) as [[ttl|msg] ->]; cbn [mbind outcome_bind];
      [|by split; [|exists xs]].
    destruct (SetInternal_rep c xs k v ttl now Hr) as (c' & xs' & -> & Hr' & [Hf _] & _). cbn.
    split; [congruence|by exists xs'].
  - unfold executeGetCommand. case_bool_decide as Hn; [by split; [|exists xs]|].
    destruct (arg_typed l 1 Hl ltac:(lia)) as [k ->]. cbn [mbind outcome_bind].
    destruct (GetInternal_rep c xs k now Hr) as (v & ok & c' & xs' & -> & Hr' & [Hf _] & _). cbn.
    split; [congruence|by exists xs'].
  - unfold executeDeleteCommand. case_bool_decide as Hn; [by split; [|exists xs]|].
    destruct (arg_typed l 1 Hl ltac:(lia)) as [k ->]. cbn [mbind outcome_bind].
    destruct (DeleteInternal_rep c xs k Hr) as (c' & xs' & -> & Hr' & _ & [Hf _]). cbn.
    split; [congruence|by exists xs'].
  - unfold executeDBSizeCommand, db_size, Cache.GetAllKeys, Cache.RLock. rewrite Hmu. apply Hmay. by rewrite E4.
  - case_bool_decide; by split; [|exists xs].
Qed.

Lemma execute_loop_safe clk i q rs c :
  locked_ok c → Forall queued_ok q → (Exists blocking q → may) →
  safe may (λ x, locked_ok x.2) (execute_loop clk i q rs c).
Proof.
  intros Hc Hq. revert i rs c Hc. induction Hq as [|l q Hl _ IH]; intros i rs c Hc Hmay; [done|].
  cbn [execute_loop]. eapply safe_bind; [apply execute_safe; [done|done|]|].
  - intros Hb. apply Hmay. by left.
  - intros [r c'] Hc'. apply IH; [done|]. intros Hb. apply Hmay. by right.
Qed.

Lemma persist_command_safe io leader w l :
  queued_ok l → leader_exists leader (srv w) →
  safe may (λ w', persisted_only w w' ∧ leader_exists leader (srv w')) (persist_command io leader w l).
Proof.
  intros [[[_ Hl] _] (name & Hname & Hv)] Hle. unfold persist_command. rewrite Hname. cbn [mbind outcome_bind].
  unfold validation_error in Hv. destruct (decide (name = "SET")) as [->|N1];
    [|destruct (decide (name = "DEL")) as [->|N2]].
  - change (bool_decide ("SET" = "SET")) with true in *. cbv iota in *. case_bool_decide as Hn; [done|].
    destruct (arg_typed l 1 Hl ltac:(lia)) as [k ->], (arg_typed l 2 Hl ltac:(lia)) as [v ->],
      (logged_ttl_typed l Hl) as [n ->]. cbn [mbind outcome_bind]. apply persist_safe; [by split_Forall|done].
  - change (bool_decide ("DEL" = "SET")) with false in *. change (bool_decide ("DEL" = "GET")) with false in *.
    change (bool_decide ("DEL" = "DEL")) with true in *. cbv iota in *. case_bool_decide as Hn; [done|].
    destruct (arg_typed l 1 Hl ltac:(lia)) as [k ->]. cbn [mbind outcome_bind].
    apply persist_safe; [by split_Forall|done].
  - by rewrite !bool_decide_eq_false_2.
Qed.

Lemma persist_loop_safe io leader i q w :
  Forall queued_ok q → leader_exists leader (srv w) →
  safe may (λ w', persisted_only w w' ∧ leader_exists leader (srv w')) (persist_loop io leader i q w).
Proof.
  intros Hq. revert i w. induction Hq as [|l q Hl _ IH]; intros i w Hle; [done|]. cbn [persist_loop].
  eapply safe_bind; [by apply persist_command_safe|]. intros w1 [H1 Hle1].
  eapply safe_mono; [by apply IH|]. intros w2 [H2 Hle2]. split; [by eapply persisted_only_trans|done].
Qed.

Lemma ok_reset w : world_ok w → world_ok (reset_transaction w).
Proof. intros []. split; [done|done|apply Forall_nil_2]. Qed.

(** EXEC of a transaction in which DBSIZE was queued blocks. *)
Definition exec_blocks (w : World) : Prop :=
  inTransaction (state w) = true ∧ transactionError (state w) = None ∧ Exists blocking (commandQueue (state w)).

Lemma handleExec_safe w :
  world_ok w → (exec_blocks w → may) → safe may world_ok (handleExec env w (NodeState.GetLeader (nodeState (srv w)))).
Proof.
  intros Hw Hmay. unfold handleExec. destruct (inTransaction (state w)) eqn:Ht; cbn [negb]; [|by apply ok_reply].
  destruct (transactionError (state w)) eqn:He; [by apply ok_reset, ok_reply|].
  destruct (ok_cache _ Hw) as [es (Hmu & xs & Hr & ->)]. unfold Cache.Lock. rewrite Hmu. cbn [mbind outcome_bind mret outcome_ret].
  eapply safe_bind; [apply execute_loop_safe; [|apply (ok_queue _ Hw)|by intros; apply Hmay]|].
  { split; [done|]. exists xs. by apply rep_with_mu. }
  intros [results c] [Hm [xs' Hr']]. eapply safe_bind;
    [apply persist_loop_safe; [apply (ok_queue _ Hw)|apply (ok_rest _ Hw)]|].
  intros w1 [(E1 & E2 & E3 & E4) Hle]. cbn [reply srv]. rewrite E1. cbn [with_cache srv cache].
  destruct (unlock_rep c xs' Hm Hr') as [-> Hc]. cbn. apply ok_reset. split.
  - by exists xs'.*2.
  - split; cbn [with_cache reply srv nodeState leaders ps]; [by rewrite E2|rewrite E4; apply (ok_rest _ Hw)].
  - cbn. rewrite E3. apply (ok_queue _ Hw).
Qed.

(** *** Pub/sub *)

Lemma ok_with_ps w p : world_ok w → PubSub.ps_inv p → world_ok (with_ps w p).
Proof. intros [Hc [Hl _] Hq] Hp. by split. Qed.

Lemma subscribe_loop_safe w l :
  world_ok w → typed l → safe may (λ x, world_ok x.2) (subscribe_loop w l).
Proof.
  intros Hw Hl. revert w Hw. induction Hl as [|v l Hv _ IH]; intros w Hw; [done|]. destruct v as [ch| | | |]; try done.
  cbn [subscribe_loop str_of]. destruct (PubSub.Subscribe_spec _ (conn w) ch (proj2 (ok_rest _ Hw))) as (p & -> & Hp & _).
  cbn [mbind outcome_bind]. unfold EncodeSubscribeConfirmation.
  match goal with |- context [EncodeArray ?l] => destruct (EncodeArray_plain l) as [e ->]; [by split_Forall|] end.
  cbn [mbind outcome_bind]. by apply IH, ok_reply, ok_with_ps.
Qed.

Lemma unsubscribe_one_safe w ch : world_ok w → safe may world_ok (unsubscribe_one w ch).
Proof.
  intros Hw. unfold unsubscribe_one.
  destruct (PubSub.Unsubscribe_spec _ (conn w) ch (proj2 (ok_rest _ Hw))) as (r & p & -> & Hp & _).
  cbn [mbind outcome_bind]. unfold EncodeUnsubscribeConfirmation.
  eapply (safe_bind (λ _, True)); [|intros e _; by apply ok_reply, ok_with_ps].
  repeat case_match; try done;
    match goal with |- context [EncodeArray ?l] => destruct (EncodeArray_plain l) as [e ->]; [by split_Forall|] end; done.
Qed.

Lemma unsubscribe_loop_safe w l :
  world_ok w → typed l → safe may (λ x, world_ok x.2) (unsubscribe_loop w l).
Proof.
  intros Hw Hl. revert w Hw. induction Hl as [|v l Hv _ IH]; intros w Hw; [done|]. destruct v as [ch| | | |]; try done.
  cbn [unsubscribe_loop str_of]. eapply safe_bind; [by apply unsubscribe_one_safe|]. intros w1 Hw1. by apply IH.
Qed.

Lemma for_each_safe {A} (f : World → A → outcome World) w l :
  (∀ w x, world_ok w → safe may world_ok (f w x)) → world_ok w → safe may world_ok (for_each f w l).
Proof.
  intros Hf. revert w. induction l as [|x l IH]; intros w Hw; [done|]. cbn [for_each].
  eapply safe_bind; [by apply Hf|]. intros w1 Hw1. by apply IH.
Qed.

Lemma ok_subscriber w b : world_ok w → world_ok (with_state w (set_subscriber (state w) b)).
Proof. intros []. by split. Qed.

Lemma handleSubscribe_safe w l : world_ok w → typed l → safe may world_ok (handleSubscribe w l).
Proof.
  intros Hw Hl. unfold handleSubscribe. case_bool_decide; [by apply ok_reply|].
  eapply safe_bind; [apply subscribe_loop_safe; [done|by apply Forall_tail]|].
  intros [b w1] Hw1. destruct b; [by apply ok_subscriber|done].
Qed.

Lemma handleUnsubscribe_safe w l : world_ok w → typed l → safe may world_ok (handleUnsubscribe env w l).
Proof.
  intros Hw Hl. unfold handleUnsubscribe. case_bool_decide.
  - eapply safe_bind; [apply for_each_safe; [intros; by apply unsubscribe_one_safe|done]|].
    intros w1 Hw1. by apply ok_subscriber.
  - eapply safe_bind; [apply unsubscribe_loop_safe; [done|by apply Forall_tail]|].
    intros [b w1] Hw1. cbn. case_match; [by apply ok_subscriber|done].
Qed.

(** The subscribers of the channel of a PUBLISH are visited in some order. *)
Definition order_ok (w : World) (l : list value) : Prop :=
  ∀ ch m, l = [VStr "PUBLISH"; VStr ch; m] → PubSub.publish_order (ps (srv w)) ch (publish_order env).

Lemma handlePublish_safe w l args :
  l = VStr "PUBLISH" :: args → world_ok w → typed l → order_ok w l → safe may world_ok (handlePublish env w l).
Proof.
  intros -> Hw Hl Ho. unfold handlePublish.
  destruct args as [|v1 [|v2 [|v3 args]]]; try by apply ok_reply.
  destruct v1 as [ch| | | |]; cbn [str_of]; try by apply ok_reply.
  destruct v2 as [m| | | |]; cbn [str_of]; try by apply ok_reply.
  destruct (PubSub.Publish_spec _ ch m _ (proj2 (ok_rest _ Hw)) (Ho ch _ eq_refl)) as (p & -> & Hp & _).
  cbn. by apply ok_reply, ok_with_ps.
Qed.
End handlers.

(** ** Requests *)

Section requests.
Context (cluster : World → list value → outcome World).

Lemma not_cluster name : name ≠ "CLUSTER" → is_command (VStr name) "CLUSTER" = false.
Proof. intros Hn. apply bool_decide_eq_false_2. cbn. congruence. Qed.

Lemma handle_locally_safe env w name args :
  world_ok w → typed (VStr name :: args) → name ≠ "CLUSTER" → (name = "EXEC" ∧ exec_blocks w → may) →
  safe may world_ok (handle_locally cluster env w (VStr name) (VStr name :: args)).
Proof.
  intros Hw Hl Hn Hmay. unfold handle_locally. rewrite not_cluster by done. cbv zeta.
  destruct (is_command (VStr name) "EXEC") eqn:Hex.
  { apply bool_decide_eq_true in Hex. cbn in Hex. injection Hex as ->. apply handleExec_safe; [done|]. auto. }
  repeat (match goal with |- safe may _ (if is_command _ _ then _ else _) => case_match end);
    try first [by apply handleSet_safe|by apply handleGet_safe|by apply handleDelete_safe
      |by apply handleDBSize_safe|by apply ok_reply].
  - unfold handleMulti. case_match; [by apply ok_reply|]. apply ok_reply. destruct Hw. split; [done|done|apply Forall_nil_2].
  - unfold handleDiscard. case_match; [by apply ok_reply|]. by apply ok_reply, ok_reset.
Qed.

Lemma route_safe env w name args :
  world_ok w → typed (VStr name :: args) → name ≠ "CLUSTER" → (name = "EXEC" ∧ exec_blocks w → may) →
  safe may world_ok (route cluster env w (VStr name) (VStr name :: args)).
Proof.
  intros Hw Hl Hnc Hmay. unfold route. eapply (safe_bind (λ _, True)).
  { case_bool_decide as Hn; [|done]. destruct (arg_typed _ 1 Hl ltac:(lia)) as [k ->]. done. }
  intros key _. case_match; [|by apply handle_locally_safe].
  destruct (NodeState.ShouldForwardRequest _ _ _) as [[[] target] addr]; [by apply ok_reply|by apply handle_locally_safe].
Qed.

Lemma dispatch_safe env w name args :
  world_ok w → typed (VStr name :: args) → name ≠ "CLUSTER" → order_ok env w (VStr name :: args) →
  (name = "EXEC" ∧ exec_blocks w → may) →
  safe may world_ok (dispatch cluster env w (VStr name) (VStr name :: args)).
Proof.
  intros Hw Hl Hn Ho Hmay. unfold dispatch. rewrite not_cluster by done.
  destruct (is_command (VStr name) "SUBSCRIBE"); [by apply handleSubscribe_safe|].
  destruct (is_command (VStr name) "UNSUBSCRIBE"); [by apply handleUnsubscribe_safe|].
  destruct (is_command (VStr name) "PUBLISH") eqn:E.
  { apply bool_decide_eq_true in E. cbn in E. injection E as ->. by eapply handlePublish_safe. }
  by apply route_safe.
Qed.

Lemma queue_safe w name args :
  world_ok w → typed (VStr name :: args) → allowed (VStr name :: args) →
  safe may world_ok (queueCommandForTransaction w (VStr name :: args)).
Proof.
  intros Hw Hl Hal. unfold queueCommandForTransaction. destruct (transactionError (state w)) eqn:E; [by apply ok_reply|].
  change (arg (VStr name :: args) 0) with (Ret name). cbn [mbind outcome_bind].
  destruct (validation_error name (length (VStr name :: args))) eqn:Hv; apply ok_reply; destruct Hw; split; try done.
  cbn. apply Forall_app_2; [done|]. apply Forall_singleton. split; [done|]. by exists name.
Qed.

Lemma handle_request_safe env w l :
  world_ok w → client_request l → allowed l → order_ok env w l →
  (head l = Some (VStr "EXEC") ∧ exec_blocks w → may) →
  safe may world_ok (handle_request cluster env w l).
Proof.
  intros Hw [[Hne Hl] Hnc] Hal Ho Hmay. destruct l as [|v args]; [done|]. pose proof Hl as [Hv _]%Forall_cons.
  destruct v as [name| | | |]; try done. assert (name ≠ "CLUSTER") as Hn by (intros ->; done).
  unfold handle_request. cbn [lookup list_lookup or_panic mbind outcome_bind].
  eapply safe_bind; [|intros w1 Hw1; by apply ok_observe]. case_match; [by apply ok_reply|].
  assert (name = "EXEC" ∧ exec_blocks w → may) as Hmay' by (intros [-> ?]; by apply Hmay).
  unfold transaction_gate. cbn [str_of]. destruct (inTransaction (state w)); [|by apply dispatch_safe].
  case_bool_decide; [by apply dispatch_safe|]. case_match; [by apply queue_safe|by apply ok_reply].
Qed.

End requests.
End safety.

(** ** Sequences of requests *)

Section sequences.
Context (cluster : World → list value → outcome World).

(** One request of a client that was handled. *)
Definition request_step (w w' : World) : Prop :=
  ∃ env l, client_request l ∧ order_ok env w l ∧ handle_request cluster env w l = Ret w'.

Definition any_command (l : list value) : Prop := True.

Lemma request_steps_ok w w' : world_ok any_command w → rtc request_step w w' → world_ok any_command w'.
Proof.
  intros Hw Hs. induction Hs as [|w w1 w' (env & l & Hl & Ho & Hr) _ IH]; [done|].
  apply IH. pose proof (handle_request_safe (may := True) any_command cluster env w l Hw Hl I Ho ltac:(done)) as H.
  by rewrite Hr in H.
Qed.

(** Every command but DBSIZE. *)
Definition no_dbsize (l : list value) : Prop := head l ≠ Some (VStr "DBSIZE").

Lemma no_dbsize_runs w : world_ok no_dbsize w → ¬ exec_blocks w.
Proof.
  intros Hw (_ & _ & (l & Hl & Hb)%Exists_exists).
  pose proof (proj1 (Forall_forall _ _) (ok_queue _ _ Hw) l Hl) as [[_ Hn] _]. apply Hn.
  unfold blocking, arg in Hb. destruct l as [|v l]; [done|]. cbn in *. by destruct v; simplify_eq/=.
Qed.

(** The orders of the range loops along a run: of the subscribers for every
    PUBLISH, and of the channels that the connection leaves at its end. *)
Fixpoint orders_ok (env : nat → Env) (remove : list string) (c : PubSub.conn) (i : nat) (w : World)
    (ls : list (list value)) : Prop :=
  match ls with
  | [] => PubSub.remove_order (ps (srv w)) c remove
  | l :: ls => order_ok (env i) w l ∧
      ∀ w', handle_request cluster (env i) w l = Ret w' → orders_ok env remove c (S i) w' ls
  end.

Fixpoint encode_values (ls : list (list value)) : outcome string :=
  match ls with
  | [] => mret ""
  | l :: ls => e ← EncodeArray l; es ← encode_values ls; mret (e +:+ es)
  end.

(** A request that fits the limits of the parser. *)
Definition sendable (l : list value) : Prop :=
  client_request l ∧ no_dbsize l ∧ Forall encodable l ∧ 16 * Z.of_nat (length l) ≤ maxAlloc.

Lemma typed_reread l : typed l → reread <$> l = l.
Proof. induction 1 as [|v l Hv _ IH]; [done|]. rewrite fmap_cons, IH. by destruct v. Qed.

Lemma parse_sendable l e rest :
  sendable l → EncodeArray l = Ret e →
  parse (e +:+ rest) = Ret (GOk (VSlice l), rest) ∧ (0 < String.length e)%nat.
Proof.
  intros ([[Hne Ht] _] & _ & Hl & Hn) He. destruct (Parse_EncodeArray l rest Hl Hn) as (e' & He' & Hp).
  assert (e' = e) as -> by congruence. rewrite typed_reread in Hp by done. split.
  - unfold parse. apply Hp. rewrite slength_app. lia.
  - destruct e; cbn; [|lia]. revert He. unfold EncodeArray.
    destruct (encode_elements_app l ("*" +:+ Itoa (Z.of_nat (length l)) +:+ CRLF) Hl) as (body & -> & _). intros [=].
Qed.

Lemma serve_loop_returns env remove c ls input tail err rest fuel i w :
  Forall sendable ls → encode_values ls = Ret input → parse tail = Ret (GErr err, rest) →
  (String.length (input +:+ tail) < fuel)%nat → world_ok no_dbsize w → orders_ok env remove c i w ls →
  ∃ w', serve_loop cluster env fuel i w (input +:+ tail) = Ret w' ∧ world_ok no_dbsize w' ∧
    PubSub.remove_order (ps (srv w')) c remove.
Proof.
  intros Hls Henc Htail. revert input fuel i w Henc.
  induction Hls as [|l ls Hl _ IH]; intros input fuel i w Henc Hf Hw Ho; cbn [encode_values orders_ok] in *.
  - injection Henc as <-. destruct fuel; [lia|]. cbn [serve_loop String.append]. rewrite Htail. eauto.
  - inv_ret. rename r into e, r0 into es. destruct fuel as [|fuel]; [lia|].
    destruct (parse_sendable l e (es +:+ tail) Hl E) as [Hp Hlen].
    rewrite <-string_app_assoc, (serve_loop_step _ _ _ _ _ _ _ _ Hp).
    destruct Ho as [Ho Hnext]. destruct Hl as (Hr & Hd & _).
    pose proof (handle_request_safe (may := False) no_dbsize cluster (env i) w l Hw Hr Hd Ho) as Hsafe.
    destruct (handle_request cluster (env i) w l) as [w1| | |]; cbn [safe] in Hsafe;
      try (destruct Hsafe; intros [_ Hb]; by apply (no_dbsize_runs w)).
    cbn [mbind outcome_bind]. apply IH; [done| |apply Hsafe; intros [_ Hb]; by apply (no_dbsize_runs w)|by apply Hnext].
    rewrite !slength_app in *. lia.
Qed.
End sequences.

Lemma new_world_ok allowed s es c :
  cache_rep (cache s) es → leader_exists (NodeState.GetLeader (nodeState s)) s → PubSub.ps_inv (ps s) →
  world_ok allowed (mkWorld s c new_state "").
Proof. intros Hc Hl Hp. split; [by exists es|done|apply Forall_nil_2]. Qed.


(** A connection in a transaction in which an argument is missing. *)
Definition demo_tx : World :=
  match handle_request no_cluster (demo_env 0) (mkWorld demo_server 7 new_state "") [VStr "MULTI"] with
  | Ret w => w | _ => mkWorld demo_server 7 new_state "" end.


(** C37. A connection comes to its end: whatever typed requests a client sends,
    with any commands but CLUSTER and DBSIZE, and whatever the parser rejects
    after them (the end of the input, or garbage), [handleConnection] returns: no
    request panics or blocks, one turn per byte is enough for the loop, and the
    connection has left the pub/sub registry. *)
Theorem typed_session_returns cluster env remove s es c ls input tail err rest :
  cache_rep (cache s) es → leader_exists (NodeState.GetLeader (nodeState s)) s → PubSub.ps_inv (ps s) →
  Forall sendable ls → encode_values ls = Ret input → parse tail = Ret (GErr err, rest) →
  orders_ok cluster env remove c 0
    (with_cache (mkWorld s c new_state "") (Cache.with_metrics (cache s) IncrementActiveConnections)) ls →
  ∃ w', handleConnection cluster env remove s c (input +:+ tail) = Ret w' ∧ world_ok no_dbsize w' ∧
    PubSub.connectionToSubscriber (ps (srv w')) !! c = None.
Proof.
  intros Hc Hl Hp Hls Henc Htail Ho.
  pose proof (new_world_ok no_dbsize s es c Hc Hl Hp) as Hw.
  destruct (serve_loop_returns cluster env remove c ls input tail err rest (S (String.length (input +:+ tail))) 0
    (with_cache (mkWorld s c new_state "") (Cache.with_metrics (cache s) IncrementActiveConnections))
    Hls Henc Htail ltac:(lia)) as (w1 & Hrun & Hw1 & Hrm); [|done|].
  { eapply ok_with_cache; [exact Hw|]. apply cache_rep_metrics. exact Hc. }
  destruct (ok_cache _ _ Hw1) as [es1 Hc1].
  destruct (PubSub.RemoveConnection_spec _ c remove (proj2 (ok_rest _ _ Hw1)) Hrm) as (p & Hrc & Hpi & _ & Hgone & _).
  exists (with_ps (with_cache w1 (Cache.with_metrics (cache (srv w1)) DecrementActiveConnections)) p).
  split_and!; [| |done].
  - unfold handleConnection. cbv zeta. cbn [srv cache]. rewrite Hrun. cbn [mbind outcome_bind].
    cbn [with_cache srv ps]. by rewrite Hrc.
  - apply ok_with_ps; [|done]. eapply ok_with_cache; [exact Hw1|]. by apply cache_rep_metrics.
Qed.

(** A transaction with an error in it, and garbage. *)
Definition demo_lists : list (list value) :=
  [[VStr "MULTI"]; [VStr "SET"; VStr "k"]; [VStr "GET"; VStr "k"]; [VStr "EXEC"; VStr "now"]; [VStr "?"]].
Definition demo_lists_input : string :=
  match encode_values demo_lists with Ret s => s | _ => "" end.

Lemma typed_session_returns_witness :
  ∃ w', handleConnection no_cluster demo_env [] demo_server 7 (demo_lists_input +:+ "garbage") = Ret w' ∧
    world_ok no_dbsize w' ∧ PubSub.connectionToSubscriber (ps (srv w')) !! 7 = None.
Proof.
  apply (typed_session_returns no_cluster demo_env [] demo_server [] 7 demo_lists demo_lists_input "garbage"
    (ErrMsg "unknown RESP type") "arbage").
  - apply (s_cache _ _ (demo_serving 7)).
  - intros lp [= <-]. by eexists.
  - apply PubSub.ps_inv_new.
  - split_Forall; (split; [split; [split; [done|by split_Forall]|done]|]); (split; [done|]);
      (split; [|by vm_compute]); split_Forall; by vm_compute.
  - by vm_compute.
  - by vm_compute.
  - repeat (split; [by intros ch m [=]|]; intros w' H; vm_compute in H; injection H as <-).
    change (orders_ok ?a ?b ?r ?c ?i ?w []) with (PubSub.remove_order (ps (srv w)) c r).
    unfold PubSub.remove_order. apply reflexive_eq. by vm_compute.
Defined.

(** An untyped request goes wrong: an integer for a key takes the whole server
    down, in every state of the server. *)
Theorem integer_key_panics cluster env order s c n enc rest :
  int64_range n → EncodeArray [VStr "GET"; VInt n] = Ret enc →
  handleConnection cluster env order s c (enc +:+ rest) = Panic.
Proof.
  intros Hn He.
  destruct (Parse_EncodeArray [VStr "GET"; VInt n] rest) as (e & He' & Hp); [by split_Forall|by vm_compute|].
  assert (e = enc) as -> by congruence. specialize (Hp (S (String.length (enc +:+ rest))) ltac:(rewrite slength_app; lia)).
  unfold handleConnection. cbv zeta. cbn [serve_loop]. unfold parse. rewrite Hp. reflexivity.
Qed.
End TypeSafety.
