(* ===== verification/Programs.v ===== *)
(** * The programs: cmd/server, cmd/client and internal/logger

    The command-line client is modelled from the bytes of its standard input to
    those of its standard output, over any network; the server's main from its
    arguments to the node it starts.  The last section runs the one against the
    other. *)

From S2P Require Import Prelude GoStd Lru Metrics Cache CacheSpec CacheTrace Resp HashRing Health PubSub.
From S2P Require Import ReplProtocol Config Flags NodeState Persistence Leader Follower Handler HandlerSpec Transactions.
From S2P Require Import Network Client ClientServer Startup.
Import Client(Client, NewClient, mkClient, c_addr, c_reader).
Local Open Scope Z_scope.

Module Programs.

Definition ln (s : string) : string := s +:+ String LF "".

(** ** internal/logger *)

(** The levels of log/slog. *)
Definition LevelDebug : Z := -4.
Definition LevelInfo : Z := 0.
Definition LevelWarn : Z := 4.
Definition LevelError : Z := 8.

Definition slog_level (level : string) : Z :=
  if decide (level = "debug") then LevelDebug
  else if decide (level = "info") then LevelInfo
  else if decide (level = "warn") then LevelWarn
  else if decide (level = "error") then LevelError
  else LevelInfo.

Inductive format := JSONFormat | TextFormat.
Record Logger := mkLogger { log_format : format; log_level : Z }.

Definition Enabled (l : Logger) (level : Z) : bool := log_level l <=? level.

(** The default logger afterwards, and the messages written. *)
Definition init_logger (f : format) (level : string) : Logger * list string :=
  let l := mkLogger f (slog_level level) in
  (l, if Enabled l LevelInfo then ["Logger initialized"] else []).
Definition InitLogger (level : string) : Logger * list string := init_logger JSONFormat level.
Definition InitTextLogger (level : string) : Logger * list string := init_logger TextFormat level.

(** A message is shown at a level exactly when it is shown at every more verbose
    one, whatever the names of the levels are; errors are always shown. *)
Lemma slog_level_range level : LevelDebug ≤ slog_level level ≤ LevelError.
Proof. unfold slog_level, LevelDebug, LevelInfo, LevelWarn, LevelError. repeat case_decide; lia. Qed.

Theorem errors_always_shown f level : Enabled (init_logger f level).1 LevelError = true.
Proof. pose proof (slog_level_range level). unfold Enabled. cbn. lia. Qed.

(** ** cmd/server/metrics_server.go *)

Record response := mkResponse { status : Z; content_type : option string; body : string }.

Definition quote (s : string) : string := String "034" (s +:+ String "034" "").
Definition tab (n : nat) (s : string) : string := String.concat "" (repeat (String "009" "") n) +:+ s.
Definition metric_item (name what : string) : string :=
  tab 2 ("<li><strong>" +:+ name +:+ "</strong> - " +:+ what +:+ "</li>").

Definition root_page (port : Z) : string :=
  String.concat (String LF "")
  ["";
   "<DOCTYPE html>";
   "<html>";
   "<head>";
   tab 1 "<title>GoCache Metrics</title>";
   "</head>";
   "<body>";
   tab 1 "<h1>GoCache Metrics Server</h1>";
   tab 1 "<p>This server exposes Prometheus metrics for monitoring.</p>";
   tab 1 "<ul>";
   tab 2 ("<li><a href=" +:+ quote "/metrics" +:+ ">Metrics Endpoint</a> - Prometheus metrics in text format</li>");
   tab 2 ("<li><a href=" +:+ quote "/health" +:+ ">Health Check</a> - Server health status</li>");
   tab 1 "</ul>";
   tab 1 "<h2>Usage</h2>";
   tab 1 ("<p>Configure Prometheus to scrape: <code>http://localhost:" +:+ Itoa port +:+ "/metrics</code></p>");
   tab 1 "<h2>Available Metrics</h2>";
   tab 1 "<ul>";
   metric_item "gocache_operations_total" "Total cache operations by type";
   metric_item "gocache_cache_hits_total" "Total cache hits";
   metric_item "gocache_cache_misses_total" "Total cache misses";
   metric_item "gocache_operation_duration_seconds" "Operation latency histogram";
   metric_item "gocache_memory_bytes" "Current memory usage";
   metric_item "gocache_items_count" "Number of items in cache";
   metric_item "gocache_evictions_total" "Total LRU evictions";
   metric_item "gocache_expirations_total" "Total TTL expirations";
   metric_item "gocache_active_connections" "Active client connections";
   tab 1 "</ul>";
   "</body>";
   "</html>";
   ""].

(** The handler for a path without empty or dot segments; the mux redirects the
    others to the path without them.  [promhttp] is the handler of the Prometheus
    library. *)
Definition mux (promhttp : response) (port : Z) (path : string) : response :=
  if decide (path = "/metrics") then promhttp
  else if decide (path = "/health") then mkResponse 200 None "OK"
  else mkResponse 200 (Some "text/html") (root_page port).

(** The server that is started, unless the port is taken, which is only logged. *)
Definition StartMetricsServer (can_listen : Z → bool) (promhttp : response) (port : Z) : option (string → response) :=
  if can_listen port then Some (mux promhttp port) else None.

(** ** cmd/server/main.go *)

Record Process := mkProcess {
  config : Config.Config;
  logger : Logger;
  metrics_server : option (string → response);
  node : outcome (gres string Startup.Node)
}.

(** [GErr] is the exit code of the flag parser. *)
Definition server_main (unmarshal : string → gres string Config.yamlConfig) (promhttp : response)
    (s : Startup.sys) (args : list string) : gres Z Process :=
  let '(logger, _) := InitLogger "info" in
  match Flags.load_config unmarshal args with
  | GErr code => GErr code
  | GOk cfg =>
      let logger := if decide (Config.cfg_LogLevel cfg = "info") then logger
                    else (InitLogger (Config.cfg_LogLevel cfg)).1 in
      GOk (mkProcess cfg logger
        (StartMetricsServer (Startup.can_listen s) promhttp (Config.cfg_MetricsPort cfg))
        (if Config.IsClusterMode cfg then Startup.StartClusterMode s cfg else Startup.Start s cfg))
  end.

(** ** cmd/client/main.go *)

(** [reader.ReadString('\n')]: up to the line end, or what is left; the error at
    the end of the input is dropped. *)
Fixpoint read_text (s : string) : string * string :=
  match s with
  | EmptyString => (EmptyString, EmptyString)
  | String c s =>
      if decide (c = LF) then (String LF EmptyString, s)
      else let '(line, rest) := read_text s in (String c line, rest)
  end.

Definition report {A} (ok : A → string) (r : gres string A) : string :=
  match r with GErr e => ln ("Error: " +:+ e) | GOk v => ln (ok v) end.

Section client.
Context {N : Type} `{!Network N}.

(** One turn of the loop on the parts of a line: whether the loop goes on, and
    what is printed. *)
Definition turn (parts : list string) (c : Client) (n : N) : outcome (bool * string * Client * N) :=
  match parts with
  | [] => mret (true, "", c, n)
  | cmd :: args =>
      let cmd := ToUpper cmd in
      if decide (cmd = "SET") then
        match args with
        | key :: value :: rest =>
            '(err, c, n) ← (match rest with
                            | [t] => Client.SetWithTTL key value (default 0 (scan_d t)) c n
                            | _ => Client.Set_ key value c n
                            end);
            mret (true, report (λ _, "OK") err, c, n)
        | _ => mret (true, ln "Usage: SET key value [ttl]", c, n)
        end
      else if decide (cmd = "GET") then
        match args with
        | [key] => '(r, c, n) ← Client.Get key c n; mret (true, report (λ v, "Value: " +:+ v) r, c, n)
        | _ => mret (true, ln "Usage: GET key", c, n)
        end
      else if decide (cmd = "DEL" ∨ cmd = "DELETE") then
        match args with
        | [key] => '(err, c, n) ← Client.Delete key c n; mret (true, report (λ _, "OK") err, c, n)
        | _ => mret (true, ln "Usage: DEL key", c, n)
        end
      else if decide (cmd = "QUIT" ∨ cmd = "EXIT") then mret (false, ln "Goodbye!", c, n)
      else mret (true, ln "Unknown command. Available SET, GET, DEL, QUIT", c, n)
  end.

Fixpoint repl (fuel : nat) (input : string) (c : Client) (n : N) : outcome (string * Client * N) :=
  match fuel with
  | O => OutOfFuel
  | S fuel =>
      let '(text, input) := read_text input in
      '(more, out, c, n) ← turn (Fields (TrimSpace text)) c n;
      if more : bool then
        '(out', c, n) ← repl fuel input c n; mret ("You:" +:+ out +:+ out', c, n)
      else mret ("You:" +:+ out, c, n)
  end.

Definition server_address : string := "localhost:6379".

(** [GErr]: the text [log.Fatalln] ends the process with. *)
Definition client_main (fuel : nat) (input : string) (n : N) : outcome (gres string string * N) :=
  match NewClient n server_address with
  | (GErr e, n) => mret (GErr e, n)
  | (GOk conn, n) =>
      '(out, _, n) ← repl fuel input conn n;
      mret (GOk (ln "Connected to server." +:+ ln "Commands: SET key value [ttl], GET key, DEL key" +:+ out), n)
  end.
End client.

(** ** Lines *)

Fixpoint join (ws : list string) : string :=
  match ws with
  | [] => ""
  | [w] => w
  | w :: ws => w +:+ " " +:+ join ws
  end.

Lemma join_head w ws : ∃ s, join (w :: ws) = w +:+ s.
Proof. destruct ws; [exists ""; by rewrite string_app_nil_r|by eexists]. Qed.

Lemma Fields_join ws : Forall word ws → Fields (join ws) = ws.
Proof.
  unfold Fields. induction 1 as [|w ws [Hne Hw] Hws IH]; [done|]. destruct ws as [|w' ws].
  - cbn [join]. rewrite <-(string_app_nil_r w) at 1. rewrite fields_go_word by done. cbn. by rewrite decide_False.
  - change (join (w :: w' :: ws)) with (w +:+ (" " +:+ join (w' :: ws))). rewrite fields_go_word by done. cbn [String.append fields_go].
    change (is_space " ") with true. cbv iota. rewrite decide_False by done. by rewrite IH.
Qed.

Lemma trim_right_join w ws : Forall word (w :: ws) → trim_right (join (w :: ws)) = join (w :: ws).
Proof.
  revert w. induction ws as [|w' ws IH]; intros w [[Hne Hw] Hws]%Forall_cons; [by apply trim_right_word|].
  change (join (w :: w' :: ws)) with (w +:+ (" " +:+ join (w' :: ws))).
  assert (join (w' :: ws) ≠ "") as Hj.
  { destruct (join_head w' ws) as [s ->]. apply Forall_cons in Hws as [[? _] _]. by intros [? _]%string_app_nil_inv. }
  assert (trim_right (" " +:+ join (w' :: ws)) = " " +:+ join (w' :: ws)) as E
    by (rewrite trim_right_app; rewrite IH; done).
  rewrite trim_right_app, E; [done|]. by rewrite E.
Qed.

Lemma trim_typed w ws : Forall word (w :: ws) → TrimSpace (ln (join (w :: ws))) = join (w :: ws).
Proof.
  intros Hws. unfold TrimSpace, ln. pose proof Hws as [Hw _]%Forall_cons.
  rewrite <-(trim_right_join w ws Hws) at 2. destruct (join_head w ws) as [s E].
  rewrite E, <-string_app_assoc, trim_left_word by done. rewrite string_app_assoc, <-E. by apply trim_right_blank.
Qed.

Lemma no_LF_join ws : Forall word ws → string_elem LF (join ws) = false.
Proof.
  induction 1 as [|w ws [_ Hw] Hws IH]; [done|]. destruct ws as [|w' ws]; [by apply no_space_LF|].
  change (join (w :: w' :: ws)) with (w +:+ (" " +:+ join (w' :: ws))). rewrite !string_elem_app.
  by rewrite no_space_LF.
Qed.

Lemma read_text_typed s rest : string_elem LF s = false → read_text (ln s +:+ rest) = (ln s, rest).
Proof.
  unfold ln. induction s as [|c s IH]; [done|]. cbn [string_elem]. intros [Hc Hs]%orb_false_iff.
  cbn [String.append read_text]. rewrite decide_False by (by apply bool_decide_eq_false in Hc). by rewrite IH.
Qed.

(** ** The client's loop against a node of this program *)

Import Handler HandlerSpec ClientServer.

(** What a user types for a call, and what is printed when it answers [a]. *)
Definition line_words (x : invocation) : list string :=
  match x with
  | ISet k v => ["SET"; k; v]
  | ISetTTL k v ttl => ["SET"; k; v; Itoa ttl]
  | IGet k => ["GET"; k]
  | IDel k => ["DEL"; k]
  end.
Definition typed_line (x : invocation) : string := ln (join (line_words x)).
Definition answer_line (x : invocation) (a : string) : string :=
  "You:" +:+ ln (match x with IGet _ => "Value: " +:+ a | _ => "OK" end).

Definition lines (xs : list invocation) : string := concat_strings (typed_line <$> xs).
Definition answer_lines (xs : list invocation) (answers : list string) : string :=
  concat_strings (zip_with answer_line xs answers).

Definition call_wf (x : invocation) : Prop := inv_wf x ∧ Forall word (line_words x).

Section servers.
Context (cluster : World → list Resp.value → outcome World) (env : nat → Env).
#[local] Instance net : Network Net := servers cluster env.

Lemma turn_call x c n a c' n' :
  call_wf x → invoke cluster env x c n = Ret (GOk a, c', n') →
  turn (line_words x) c n = Ret (true, ln (match x with IGet _ => "Value: " +:+ a | _ => "OK" end), c', n').
Proof.
  intros [[Hr _] _] Hi. destruct x as [k v|k v ttl|k|k]; cbn [invoke] in Hi; cbn [line_words turn].
  - change (ToUpper "SET") with "SET". rewrite decide_True by done.
    unfold net. destruct (Client.Set_ k v c n) as [[[r c1] n1]| | |]; try discriminate Hi.
    cbn in Hi. destruct r; simplify_eq. done.
  - change (ToUpper "SET") with "SET". rewrite decide_True by done. cbn in Hr. destruct Hr as (_ & _ & Hr).
    rewrite scan_d_Itoa by (unfold int64_range, two63, Second in *; lia). cbn [default from_option id].
    unfold net. destruct (Client.SetWithTTL k v ttl c n) as [[[r c1] n1]| | |]; try discriminate Hi.
    cbn in Hi. destruct r; simplify_eq. done.
  - change (ToUpper "GET") with "GET". rewrite decide_False, decide_True by done. unfold net. by rewrite Hi.
  - change (ToUpper "DEL") with "DEL". rewrite !decide_False, decide_True by naive_solver.
    unfold net. destruct (Client.Delete k c n) as [[[r c1] n1]| | |]; try discriminate Hi.
    cbn in Hi. destruct r; simplify_eq. done.
Qed.

(** One typed call. *)
Lemma repl_call fuel x rest c n a c' n' :
  call_wf x → invoke cluster env x c n = Ret (GOk a, c', n') →
  repl (S fuel) (typed_line x +:+ rest) c n =
    ('(out, c, n) ← repl fuel rest c' n'; mret (answer_line x a +:+ out, c, n)).
Proof.
  intros Hx Hi. cbn [repl]. unfold typed_line. rewrite read_text_typed by apply no_LF_join, Hx.
  assert (Fields (TrimSpace (ln (join (line_words x)))) = line_words x) as ->.
  { assert (∃ w ws, line_words x = w :: ws) as (w & ws & E) by (destruct x; eauto).
    destruct Hx as [_ Hw]. rewrite E in *. rewrite trim_typed by done. by apply Fields_join. }
  rewrite (turn_call x c n a c' n' Hx Hi). cbn [mbind outcome_bind].
  by destruct (repl fuel rest c' n') as [[[out c2] n2]| | |].
Qed.

(** Any sequence of typed calls, as far as the rest of the input. *)
Lemma repl_calls xs rest fuel c n w es :
  connected c n w es → Forall call_wf xs → (∀ i, disk (env i) 0 = Persistence.io_ok) → all_values plain es →
  let '(answers, es') :=
    spec_invoke_all (Cache.maxSize (cache (srv w))) (λ i, clock (env i) 0%nat) (tick n) xs es in
  ∃ n' w', repl (length xs + fuel) (lines xs +:+ rest) c n =
      ('(out, c, n) ← repl fuel rest c n'; mret (answer_lines xs answers +:+ out, c, n)) ∧
    connected c n' w' es' ∧
    persisted (NodeState.GetLeader (nodeState (srv w))) w w' (mjoin (logged <$> (inv_request <$> xs))).
Proof.
  intros Hc Hwf Hd. revert n w es Hc. induction Hwf as [|x xs Hx _ IH]; intros n w es Hc Hv.
  { cbn [spec_invoke_all]. exists n, w. split_and!; [|done|apply persisted_refl]. cbn.
    by destruct (repl fuel rest c n) as [[[? ?] ?]| | |]. }
  cbn [spec_invoke_all]. pose proof (invoke_spec cluster env x c n w es Hc (proj1 Hx) (Hd _) Hv) as H1.
  destruct (spec_invoke _ _ x es) as [a es1]. destruct H1 as (w1 & Hi & Hc1 & Hv1 & Hm1 & Hp1).
  specialize (IH _ w1 es1 Hc1 Hv1). rewrite Hm1 in IH. cbn [tick] in IH.
  destruct (spec_invoke_all _ _ _ xs es1) as [answers es2]. destruct IH as (n2 & w2 & Hi2 & Hc2 & Hp2).
  exists n2, w2. split_and!; [|done|].
  - change (lines (x :: xs)) with (typed_line x +:+ lines xs). rewrite <-string_app_assoc.
    cbn [length Nat.add]. rewrite (repl_call _ x _ c n a _ _ Hx Hi), Hi2.
    destruct (repl fuel rest c n2) as [[[out c3] n3]| | |]; try done. cbn.
    change (answer_lines (x :: xs) (a :: answers)) with (answer_line x a +:+ answer_lines xs answers).
    by rewrite <-string_app_assoc.
  - rewrite !fmap_cons. change (mjoin (?a :: ?l)) with (a ++ mjoin l).
    eapply persisted_trans; [done|]. by rewrite (p_node _ _ _ _ Hp1) in Hp2.
Qed.

Lemma repl_quit fuel c n : repl (S fuel) (ln "QUIT") c n = Ret ("You:" +:+ ln "Goodbye!", c, n).
Proof. reflexivity. Qed.

(** At the end of the input a turn reads an empty line, and the loop goes on. *)
Lemma repl_eof fuel c n : repl fuel "" c n = OutOfFuel.
Proof.
  induction fuel as [|fuel IH]; [done|]. cbn [repl read_text]. change (Fields (TrimSpace "")) with (@nil string).
  cbn [turn mbind outcome_bind mret outcome_ret]. by rewrite IH.
Qed.

Lemma accept_serving w es : serving w es → serving (accept w) es.
Proof. intros []. split; [by apply cache_rep_metrics|done..]. Qed.

(** The client's main on a node that serves requests itself. *)
Lemma client_main_calls xs n w es :
  nodes n !! server_address = Some w → serving w es → all_values plain es →
  Forall call_wf xs → (∀ i, disk (env i) 0 = Persistence.io_ok) →
  let '(answers, es') :=
    spec_invoke_all (Cache.maxSize (cache (srv w))) (λ i, clock (env i) 0%nat) (tick n) xs es in
  ∃ n' w', client_main (S (length xs)) (lines xs +:+ ln "QUIT") n =
      Ret (GOk (ln "Connected to server." +:+ ln "Commands: SET key value [ttl], GET key, DEL key" +:+
                answer_lines xs answers +:+ "You:" +:+ ln "Goodbye!"), n') ∧
    nodes n' !! server_address = Some w' ∧ cache_rep (cache (srv w')) es' ∧
    persisted (NodeState.GetLeader (nodeState (srv w))) w w' (mjoin (logged <$> (inv_request <$> xs))).
Proof.
  intros Hn Hs Hv Hwf Hd.
  assert (NewClient n server_address = (GOk (mkClient server_address ""),
    mkNet (<[server_address := accept w]> (nodes n)) (tick n))) as Hnew.
  { unfold NewClient. cbn [dial net servers]. unfold net_dial. by rewrite Hn. }
  set (n1 := mkNet _ _) in Hnew.
  assert (connected (mkClient server_address "") n1 (accept w) es) as Hc.
  { split; [apply lookup_insert_eq|done|by apply accept_serving|done]. }
  pose proof (repl_calls xs (ln "QUIT") 1 _ n1 (accept w) es Hc Hwf Hd Hv) as H.
  change (Cache.maxSize (cache (srv (accept w)))) with (Cache.maxSize (cache (srv w))) in H.
  change (tick n1) with (tick n) in H.
  destruct (spec_invoke_all _ _ _ xs es) as [answers es']. destruct H as (n' & w' & Hr & [Hn' _ Hsv _] & Hp).
  exists n', w'. split_and!; [|exact Hn'|apply Hsv|].
  - unfold client_main. rewrite Hnew, <-Nat.add_1_r, Hr, repl_quit. done.
  - destruct Hp. by split.
Qed.
End servers.

(** ** The two programs together *)

(** The server's main in simple mode, as a leader on empty files. *)
Lemma server_main_leader unmarshal promhttp s args cfg :
  Flags.load_config unmarshal args = GOk cfg → Config.IsClusterMode cfg = false →
  Config.cfg_Role cfg = "leader" → Startup.grants s → Startup.aof_content s = "" → Startup.snapshot_content s = None →
  ∃ p nd, server_main unmarshal promhttp s args = GOk p ∧ node p = Ret (GOk nd) ∧
    Startup.port nd = Config.cfg_Port cfg ∧
    Cache.maxSize (cache (Startup.server nd)) = Config.cfg_MaxCacheSize cfg ∧
    Persistence.file (aof (Startup.server nd)) = "" ∧
    ∀ pt, serving (mkWorld (Startup.server nd) pt new_state "") [].
Proof.
  intros Hl Hcm Hrole [Ho Hls] Hlog Hsnap.
  set (c1 := Cache.NewCache (Config.cfg_MaxCacheSize cfg) NewCollector).
  set (a1 := Persistence.NewAOF "" None (Config.GetSyncPolicy cfg) (Config.cfg_GrowthFactor cfg)).
  assert (Startup.open_store s cfg = Ret (GOk (c1, a1))) as Hst.
  { unfold Startup.open_store. by rewrite Ho, Hlog, Hsnap. }
  pose proof (Startup.Start_leader s cfg c1 a1 Hrole Hls Hst) as Hstart.
  eexists _, _. split_and!; [unfold server_main; rewrite Hl; reflexivity|cbn [node]; by rewrite Hcm|done|done|done|].
  intros pt. by apply Startup.started_serving; [apply cache_rep_new|].
Qed.

(** The machine: the node's port answers under the client's address. *)
Definition localhost (nd : Startup.Node) (pt : PubSub.conn) : Net :=
  mkNet {["localhost:" +:+ Itoa (Startup.port nd) := mkWorld (Startup.server nd) pt new_state ""]} 0.

(** C6. The programs together are the abstract cache: the server's main, run with any
    command line and file that make it a leader on port 6379 with empty files, and
    the command-line client, given any sequence of SET, GET and DEL lines and QUIT,
    print on the client's terminal exactly the answers of the abstract cache and
    end; the server's cache has the abstract cache's entries, and its log the
    writes, unless an append started the background rewrite.  The words of a line
    are free of blanks, and no stored value may look like a redirect (begin with
    MOVED or -MOVED): such a value is stored, but the client cannot read it back. *)
Theorem programs_refine_spec unmarshal promhttp s args cfg cluster env pt xs :
  Flags.load_config unmarshal args = GOk cfg → Config.IsClusterMode cfg = false →
  Config.cfg_Role cfg = "leader" → Config.cfg_Port cfg = 6379 →
  Startup.grants s → Startup.aof_content s = "" → Startup.snapshot_content s = None →
  Forall call_wf xs → (∀ i, disk (env i) 0 = Persistence.io_ok) →
  let '(answers, es) := spec_invoke_all (Config.cfg_MaxCacheSize cfg) (λ i, clock (env i) 0%nat) 0 xs [] in
  ∃ p nd n' w' log, server_main unmarshal promhttp s args = GOk p ∧ node p = Ret (GOk nd) ∧
    @client_main _ (servers cluster env) (S (length xs)) (lines xs +:+ ln "QUIT") (localhost nd pt) =
      Ret (GOk (ln "Connected to server." +:+ ln "Commands: SET key value [ttl], GET key, DEL key" +:+
                answer_lines xs answers +:+ "You:" +:+ ln "Goodbye!"), n') ∧
    nodes n' !! server_address = Some w' ∧ cache_rep (cache (srv w')) es ∧
    Persistence.encode_log (mjoin (logged <$> (inv_request <$> xs))) = Ret log ∧
    (Persistence.rewriting (aof (srv w')) = false → Persistence.file (aof (srv w')) = log).
Proof.
  intros Hl Hcm Hrole Hport Hg Hlog Hsnap Hwf Hd.
  destruct (server_main_leader unmarshal promhttp s args cfg Hl Hcm Hrole Hg Hlog Hsnap)
    as (p & nd & Hp & Hnd & Hpt & Hcap & Hfile & Hs).
  assert (nodes (localhost nd pt) !! server_address = Some (mkWorld (Startup.server nd) pt new_state "")) as Hn.
  { unfold localhost. rewrite Hpt, Hport. apply lookup_singleton_eq. }
  pose proof (client_main_calls cluster env xs _ _ [] Hn (Hs pt) ltac:(constructor) Hwf Hd) as H.
  cbn [tick localhost srv] in H. rewrite Hcap in H.
  destruct (spec_invoke_all _ _ _ xs []) as [answers es]. destruct H as (n' & w' & Hc & Hn' & Hrep & Hper).
  destruct (p_log _ _ _ _ Hper) as (log & Henc & Hf). exists p, nd, n', w', log. split_and!; try done.
  intros _. rewrite Hf. cbn [srv]. by rewrite Hfile.
Qed.

Definition demo_lines : list invocation :=
  [ISet "a" "1"; ISetTTL "b" "2" 60; IGet "a"; IDel "b"; IGet "b"].

Lemma programs_refine_spec_witness :
  ∃ p nd n' w' log,
    server_main (λ _, GErr "open config.yaml: no such file or directory") (mkResponse 200 None "")
      (Startup.demo_sys "") ["-port=6379"] = GOk p ∧ node p = Ret (GOk nd) ∧
    @client_main _ (servers no_cluster demo_env) 6 (lines demo_lines +:+ ln "QUIT") (localhost nd 7) =
      Ret (GOk (ln "Connected to server." +:+ ln "Commands: SET key value [ttl], GET key, DEL key" +:+
                (ln "You:OK" +:+ ln "You:OK" +:+ ln "You:Value: 1" +:+ ln "You:OK" +:+ ln "You:Value: ") +:+
                "You:" +:+ ln "Goodbye!"), n') ∧
    nodes n' !! server_address = Some w' ∧ cache_rep (cache (srv w')) [("a", ("1", 0))] ∧
    Persistence.encode_log (mjoin (logged <$> (inv_request <$> demo_lines))) = Ret log ∧
    (Persistence.rewriting (aof (srv w')) = false → Persistence.file (aof (srv w')) = log).
Proof.
  apply (programs_refine_spec (λ _, GErr "open config.yaml: no such file or directory") (mkResponse 200 None "")
    (Startup.demo_sys "") ["-port=6379"]
    (Config.ApplyFlags Config.DefaultConfig [("port", "6379")]) no_cluster demo_env 7 demo_lines).
  - by vm_compute.
  - done.
  - done.
  - done.
  - done.
  - done.
  - done.
  - split_Forall; split; try (split; [by vm_compute|by vm_compute]); split_Forall; by vm_compute.
  - done.
Defined.

(** The defaults do not meet: the client's address is fixed, and a server started
    without arguments and file listens on port 7000. *)
Example default_client_refused :
  match server_main (λ _, GErr "no such file") (mkResponse 200 None "") (Startup.demo_sys "") [] with
  | GOk p =>
      match node p with
      | Ret (GOk nd) => Startup.port nd = 7000 ∧
          match @client_main _ (servers no_cluster demo_env) 1 (ln "QUIT") (localhost nd 7) with
          | Ret (r, _) => r = GErr "failed to connect: connection refused"
          | _ => False
          end
      | _ => False
      end
  | GErr _ => False
  end.
Proof. by vm_compute. Qed.

(** The client does not end with its input: a terminal or a pipe that is closed
    without QUIT leaves it in a loop that prints its prompt for ever. *)
Theorem client_spins_at_eof cluster env xs fuel c n w es :
  connected c n w es → Forall call_wf xs → (∀ i, disk (env i) 0 = Persistence.io_ok) → all_values plain es →
  @repl _ (servers cluster env) (length xs + fuel) (lines xs) c n = OutOfFuel.
Proof.
  intros Hc Hwf Hd Hv. pose proof (repl_calls cluster env xs "" fuel c n w es Hc Hwf Hd Hv) as H.
  destruct (spec_invoke_all _ _ _ xs es) as [answers es']. destruct H as (n' & w' & Hr & _).
  rewrite string_app_nil_r, repl_eof in Hr. exact Hr.
Qed.
End Programs.
