(* ===== verification/Demo.v ===== *)
(** * demo/cluster_client_demo.go: the demonstration of the cluster client

    What the program logs, over any network.  Its run is far shorter than the
    thirty seconds to the first refresh of the topology; the pauses and the
    measured duration are left out. *)

From S2P Require Import Prelude GoStd Lru Metrics Cache Resp HashRing PubSub Persistence Config NodeState Handler HandlerSpec Network Client ClientServer.
From S2P Require Import ClusterCommands ClusterClient ClusterClientSpec.
Import ClusterClient(ClusterClient, NewClusterClient).
Local Open Scope Z_scope.

Module Demo.

Inductive level := Info | Warn | Error.
#[export] Instance level_eq : EqDecision level.
Proof. solve_decision. Defined.
Record record := mkRecord { r_level : level; r_msg : string; r_attrs : list (string * string) }.

Definition demo_seeds : list string := ["localhost:8379"; "localhost:8381"].
Definition testKeys : list string := ["user:1000"; "user:2000"; "product:500"; "session:abc123"; "order:999"].

Section network.
Context {N : Type} `{!Network N} (order : gmap string ClusterClient.NodeInfo → list string).

Abbreviation run A := (outcome (A * ClusterClient * N)).

(** Test 1. *)
Fixpoint set_keys (keys : list string) (c : ClusterClient) (n : N) : run (list record) :=
  match keys with
  | [] => mret ([], c, n)
  | key :: keys =>
      let value := "value_for_" +:+ key in
      '(err, c, n) ← ClusterClient.Set_ order key value c n;
      let r := match err with
               | GErr e => mkRecord Warn "SET failed" [("key", key); ("error", e)]
               | GOk _ => mkRecord Info "SET successful" [("key", key); ("value", value)]
               end in
      '(l, c, n) ← set_keys keys c n;
      mret (r :: l, c, n)
  end.

(** Test 2, with the number of successful calls. *)
Fixpoint get_keys (keys : list string) (successCount : Z) (c : ClusterClient) (n : N) : run (list record * Z) :=
  match keys with
  | [] => mret ([], successCount, c, n)
  | key :: keys =>
      '(result, c, n) ← ClusterClient.Get order key c n;
      let '(r, successCount) :=
        match result with
        | GErr e => (mkRecord Warn "GET failed" [("key", key); ("error", e)], successCount)
        | GOk value => (mkRecord Info "GET successful" [("key", key); ("value", value)], successCount + 1)
        end in
      '(l, successCount, c, n) ← get_keys keys successCount c n;
      mret (r :: l, successCount, c, n)
  end.

(** Test 5: a successful call counts in the counter of test 2. *)
Fixpoint bulk (more : nat) (i : Z) (successCount : Z) (c : ClusterClient) (n : N) : run Z :=
  match more with
  | O => mret (successCount, c, n)
  | S more =>
      '(err, c, n) ← ClusterClient.Set_ order ("bulk:key:" +:+ Itoa i) ("value_" +:+ Itoa i) c n;
      bulk more (i + 1) (match err with GOk _ => successCount + 1 | GErr _ => successCount end) c n
  end.

Definition node_record (node : ClusterClient.NodeInfo) : record :=
  mkRecord Info "Node discovered" [("node_id", ClusterClient.ID node); ("address", ClusterClient.Address node);
    ("status", ClusterClient.Status node)].

Definition opening (nodes : list ClusterClient.NodeInfo) (sets gets : list record) (successCount : Z)
    (ttl del verified : record) : list record :=
  [mkRecord Info "=== GoCache Cluster Client Demo ===" [];
   mkRecord Info "Connecting to cluster" [("seeds", "[localhost:8379 localhost:8381]")];
   mkRecord Info "--- Discovered Nodes ---" []] ++
  (node_record <$> nodes) ++
  [mkRecord Info "--- Testing Operations ---" [];
   mkRecord Info "1. Setting keys..." [("count", "5")]] ++ sets ++
  [mkRecord Info "2. Getting keys..." [("count", "5")]] ++ gets ++
  [mkRecord Info "GET operations completed" [("successful", Itoa successCount); ("total", "5")];
   mkRecord Info "3. Setting key with TTL..." []; ttl;
   mkRecord Info "4. Deleting key..." [("key", "user:1000")]; del; verified;
   mkRecord Info "5. Bulk test - inserting 100 keys..." []].

#[local] Arguments opening : simpl never.

Definition closing (bulkSuccessCount : Z) : list record :=
  [mkRecord Info "Bulk test completed" [("successful", Itoa bulkSuccessCount); ("total", "100")];
   mkRecord Info "=== Demo Complete ===" [];
   mkRecord Info "Cluster client is working! Keys are being routed to correct nodes." []].

(** The log is in the order of the program; [GErr] is the text [log.Fatalf]
    ends the process with. *)
Definition demo_main (n : N) : outcome (gres string (list record) * N) :=
  '(created, n) ← NewClusterClient order demo_seeds n;
  match created with
  | GErr e => mret (GErr ("Failed to create cluster client: " +:+ e), n)
  | GOk c =>
      let nodes := ClusterClient.GetNodes c (order (ClusterClient.nodes c)) in
      '(sets, c, n) ← set_keys testKeys c n;
      '(gets, successCount, c, n) ← get_keys testKeys 0 c n;
      '(err, c, n) ← ClusterClient.SetWithTTL order "temp:key" "expires_soon" (10 * Second) c n;
      let ttl := match err with
                 | GErr e => mkRecord Error "SET with TTL failed" [("error", e)]
                 | GOk _ => mkRecord Info "SET with TTL successful" [("key", "temp:key"); ("ttl_seconds", "10")]
                 end in
      '(err, c, n) ← ClusterClient.Delete order "user:1000" c n;
      let del := match err with
                 | GErr e => mkRecord Error "DELETE failed" [("key", "user:1000"); ("error", e)]
                 | GOk _ => mkRecord Info "DELETE successful" [("key", "user:1000")]
                 end in
      '(result, c, n) ← ClusterClient.Get order "user:1000" c n;
      let verified := match result with
                      | GErr _ => mkRecord Info "Deletion confirmed" [("key", "user:1000")]
                      | GOk value => mkRecord Warn "Deletion verification failed" [("key", "user:1000"); ("value", value)]
                      end in
      let bulkSuccessCount := 0 in
      '(_, c, n) ← bulk 100 0 successCount c n;
      _ ← ClusterClient.Close c;
      mret (GOk (opening nodes sets gets successCount ttl del verified ++ closing bulkSuccessCount), n)
  end.

(** Whatever the network does, the demonstration reports that none of the hundred
    insertions succeeded, and that the client works. *)
Theorem demo_reports n log n' :
  demo_main n = Ret (GOk log, n') → ∃ before, log = before ++
    [mkRecord Info "Bulk test completed" [("successful", "0"); ("total", "100")];
     mkRecord Info "=== Demo Complete ===" [];
     mkRecord Info "Cluster client is working! Keys are being routed to correct nodes." []].
Proof.
  unfold demo_main. intros H. inv_ret. destruct r as [[c|e] n1]; [|discriminate H]. cbv zeta in H. inv_ret.
  repeat match goal with x : (_ * _)%type |- _ => destruct x; inv_ret end.
  eexists (opening _ _ _ _ _ _ _). reflexivity.
Qed.
End network.

(** A cluster of one node without a health checker, at the first seed. *)
Definition demo_node : Handler.World :=
  Handler.mkWorld (Handler.mkServer (Cache.NewCache 200 Metrics.NewCollector)
    (Persistence.NewAOF "" None Config.SyncAlways 2) ∅ PubSub.NewPubSub
    (NodeState.SetConfig (NodeState.NewNodeState "leader" None "")
      (Config.mkConfig 8379 9090 200 "leader" "" 0 0 "" "a" "b" "always" 0 2 "n1"
        [Config.mkNodeInfo "n1" "localhost" 8379 9379 1 "s1" "leader"] [] "info"))) 7 Handler.new_state "".

Definition demo_run : list record :=
  match @demo_main ClientServer.Net
          (ClientServer.servers (ClusterClientSpec.cluster_handler ClusterClientSpec.demo_orders ∅) HandlerSpec.demo_env)
          ClusterClientSpec.demo_order
          (ClientServer.mkNet {["localhost:8379" := demo_node]} 0) with
  | Ret (GOk log, _) => log
  | _ => []
  end.

(** The demonstration runs on the servers of this program: the keys are stored and
    read back, and the only complaint is about the deletion, because the client
    returns an empty value, not an error, for a missing key. *)
Example demo_against_server :
  filter (λ r, r_level r ≠ Info) demo_run =
    [mkRecord Warn "Deletion verification failed" [("key", "user:1000"); ("value", "")]] ∧
  existsb (λ r, bool_decide (r_attrs r = [("successful", "5"); ("total", "5")])) demo_run = true.
Proof. by vm_compute. Qed.
End Demo.
