(* ===== verification/Lifecycle.v ===== *)
(** * Starting and stopping: the accept loop and Stop of the server (server.go), the
    replication leader's goroutines and Close (leader.go), and the loops that wait
    for a ticker or a stop signal (leader.go, health.go, snapshot.go, aof.go)

    Each is a state machine whose events are the atomic steps of its goroutines; a
    schedule is a list of events.  [None]: the event is not possible now. *)

From S2P Require Import Prelude GoStd Lru Metrics Cache Resp ReplProtocol Config Health Persistence Leader.
From stdpp Require Import fin_sets.
Local Open Scope Z_scope.

(** ** Loops over a ticker and a stop signal *)

Module Ticker.

Inductive signal := Tick (now : Z) | Done.

(** [for { select { case <-ticker.C: ...; case <-done: return } }] on the signals it
    receives: whether it has returned, and the state. *)
Fixpoint ticker_loop {S} (tick : Z → S → outcome S) (signals : list signal) (s : S) : outcome (bool * S) :=
  match signals with
  | [] => mret (false, s)
  | Done :: _ => mret (true, s)
  | Tick now :: signals => s ← tick now s; ticker_loop tick signals s
  end.

(** The ticks before the stop signal are all that happens. *)
Lemma ticker_loop_ticks {S} (tick : Z → S → outcome S) ticks after s :
  ticker_loop tick (map Tick ticks ++ Done :: after) s =
    (s ← for_each (λ s now, tick now s) s ticks; mret (true, s)).
Proof.
  revert s. induction ticks as [|now ticks IH]; intros s; [done|]. cbn [map app ticker_loop for_each].
  destruct (tick now s); try done. cbn [mbind outcome_bind]. apply IH.
Qed.

Definition sendHeartbeats : list signal → Leader.Leader → outcome (bool * Leader.Leader) :=
  ticker_loop (λ _, Leader.heartbeat_tick).

Definition monitorFollowerHealth : list signal → Leader.Leader → outcome (bool * Leader.Leader) :=
  ticker_loop (λ now l, mret (Leader.monitor_tick l now)).

(** [visits]: the nodes in the order of the map, with the answers to the pings. *)
Definition healthCheckLoop (visits : Z → list (Health.nodeptr * Health.answer * Z)) :
    list signal → Health.HealthChecker → outcome (bool * Health.HealthChecker) :=
  ticker_loop (λ now hc, Health.checkAllNodes hc (visits now)).

(** A snapshot every five minutes, whatever interval is configured; an error is
    only logged. *)
Definition checkSnapshotTrigger (order : Z → list (string * Z)) (fail : Z → option Persistence.snapshot_stage) :
    list signal → Persistence.AOF * Cache.Cache → outcome (bool * (Persistence.AOF * Cache.Cache)) :=
  ticker_loop (λ now '(a, c),
    '(_, a, c) ← Persistence.CreateSnapshot c a (order now) (fail now); mret (a, c)).

Definition periodicSync : list signal → Persistence.AOF → outcome (bool * Persistence.AOF) :=
  ticker_loop (λ _ a, mret (Persistence.periodic_sync a)).
End Ticker.

(** ** Server.Start's accept loop and Server.Stop *)

Module ServerLife.

Definition conn := positive.

(** Where the accept loop is: in [Accept], holding a new connection, after the
    registration, or returned. *)
Inductive acceptor_pc := Accepting | Accepted (c : conn) | Registered (c : conn) | Exited.

(** Where [Stop] is: not called; after [cancel]; after the listeners were closed;
    after the connections were closed, in [wg.Wait]; after it; done. *)
Inductive stop_pc := Running | Cancelled | Unlistened | Waiting | Waited | Stopped.
#[export] Instance stop_pc_eq : EqDecision stop_pc.
Proof. solve_decision. Defined.

Record Life := mkLife {
  cancelled : bool;
  listening : bool;
  acceptor : acceptor_pc;
  activeConns : gset conn;
  open_conns : gset conn;
  handlers : gset conn;   (* inside handleConnection *)
  leaving : gset conn;    (* returned from it, before the deferred calls *)
  wg : Z;
  stop : stop_pc;
  log_open : bool;
  stuck : gset conn       (* the handlers that wait for a lock they hold themselves *)
}.

(** The server when it starts to accept. *)
Definition started : Life := mkLife false true Accepting ∅ ∅ ∅ ∅ 1 Running true ∅.

Inductive event :=
| EAccept (c : conn)
| EAcceptError
| ERegister
| ESpawn
| EReturn (c : conn)
| EBlock (c : conn)   (* DBSIZE inside EXEC: the handler never goes on *)
| EExit (c : conn)
| EStop.
#[export] Instance event_eq : EqDecision event.
Proof. solve_decision. Defined.

(** The next step of [Stop]. *)
Definition stop_step (l : Life) : option Life :=
  let '(mkLife ca li ac act op ha le w st lo sk) := l in
  match st with
  | Running => Some (mkLife true li ac act op ha le w Cancelled lo sk)
  | Cancelled => Some (mkLife ca false ac act op ha le w Unlistened lo sk)
  | Unlistened => Some (mkLife ca li ac act (op ∖ act) ha le w Waiting lo sk)
  | Waiting => if w =? 0 then Some (mkLife ca li ac act op ha le w Waited lo sk) else None
  | Waited => Some (mkLife ca li ac act op ha le w Stopped false sk)
  | Stopped => None
  end.

Definition step (e : event) (l : Life) : option Life :=
  let '(mkLife ca li ac act op ha le w st lo sk) := l in
  match e, ac with
  | EAccept c, Accepting =>
      if li && bool_decide (c ∉ act ∪ op ∪ ha ∪ le)
      then Some (mkLife ca li (Accepted c) act (op ∪ {[c]}) ha le w st lo sk) else None
  | EAcceptError, Accepting =>
      if ca then Some (mkLife ca li Exited act op ha le (w - 1) st lo sk) else Some l
  | ERegister, Accepted c => Some (mkLife ca li (Registered c) (act ∪ {[c]}) op ha le w st lo sk)
  | ESpawn, Registered c => Some (mkLife ca li Accepting act op (ha ∪ {[c]}) le (w + 1) st lo sk)
  | EBlock c, _ =>
      if decide (c ∈ ha ∖ sk) then Some (mkLife ca li ac act op ha le w st lo (sk ∪ {[c]})) else None
  | EReturn c, _ =>
      if decide (c ∈ ha ∖ sk) then Some (mkLife ca li ac act (op ∖ {[c]}) (ha ∖ {[c]}) (le ∪ {[c]}) w st lo sk) else None
  | EExit c, _ =>
      if decide (c ∈ le) then Some (mkLife ca li ac (act ∖ {[c]}) op ha (le ∖ {[c]}) (w - 1) st lo sk) else None
  | EStop, _ => stop_step l
  | _, _ => None
  end.

Fixpoint run (es : list event) (l : Life) : option Life :=
  match es with
  | [] => Some l
  | e :: es => l ← step e l; run es l
  end.

Definition reachable (l : Life) : Prop := ∃ es, run es started = Some l.

(** *** The invariant *)

Definition registered (l : Life) : gset conn := match acceptor l with Registered c => {[c]} | _ => ∅ end.
Definition pending (l : Life) : gset conn :=
  match acceptor l with Accepted c | Registered c => {[c]} | _ => ∅ end.
Definition accepts (l : Life) : Z := match acceptor l with Exited => 0 | _ => 1 end.
Definition ended (l : Life) : Prop := acceptor l = Exited ∧ handlers l = ∅ ∧ leaving l = ∅.

Record inv (l : Life) : Prop := {
  i_wg : wg l = accepts l + Z.of_nat (size (handlers l)) + Z.of_nat (size (leaving l));
  i_disjoint : handlers l ## leaving l;
  i_pending : pending l ## handlers l ∪ leaving l;
  i_active : activeConns l = handlers l ∪ leaving l ∪ registered l;
  i_cancelled : stop l ≠ Running → cancelled l = true;
  i_listening : stop l ≠ Running → stop l ≠ Cancelled → listening l = false;
  i_ended : stop l = Waited ∨ stop l = Stopped → ended l;
  i_log : log_open l = false → stop l = Stopped;
  i_stuck : stuck l ⊆ handlers l
}.

Lemma size_add (x : conn) (X : gset conn) : x ∉ X → Z.of_nat (size (X ∪ {[x]})) = Z.of_nat (size X) + 1.
Proof. intros Hx. rewrite size_union, size_singleton by set_solver. lia. Qed.

Lemma size_remove (x : conn) (X : gset conn) : x ∈ X → Z.of_nat (size (X ∖ {[x]})) = Z.of_nat (size X) - 1.
Proof.
  intros Hx. rewrite size_difference, size_singleton by set_solver.
  assert (0 < size X)%nat; [|lia]. assert (size X ≠ 0%nat); [|lia]. intros H%size_empty_inv. set_solver.
Qed.

Lemma inv_started : inv started.
Proof. split; cbn; set_solver. Qed.

Lemma wg_zero l : inv l → wg l = 0 → ended l.
Proof.
  intros Hi Hw. pose proof (i_wg _ Hi) as H. unfold accepts in H.
  assert (acceptor l = Exited) as E by (destruct (acceptor l); done || lia). rewrite E in H.
  split_and!; [done|apply leibniz_equiv, size_empty_inv; lia..].
Qed.

Lemma stop_inv l l' : inv l → stop_step l = Some l' → inv l'.
Proof.
  intros Hi Hs. pose proof (wg_zero l Hi) as Hz.
  destruct Hi as [Hw Hd Hp Ha Hc Hl He Hlog Hsk], l as [ca li ac act op ha le w st lo sk].
  unfold stop_step in Hs. destruct st; cbn in *; try destruct (Z.eqb_spec w 0); simplify_eq.
  all: split; cbn; try done; try (by intros [?|?]); try (by intros; apply Hc); try (by intros; apply Hl);
    try (by intros; apply Hz); try (by intros; apply He; left); intros H; by specialize (Hlog H).
Qed.

(** In the steps of the goroutines [Stop] stays where it is, which is not past the
    wait while the accept loop or a handler runs. *)
Lemma life_step_inv e l l' : inv l → step e l = Some l' → inv l'.
Proof.
  intros Hi Hs. destruct (decide (e = EStop)) as [->|He].
  { apply (stop_inv l); [done|]. by destruct l as [? ? []]. }
  destruct Hi as [Hw Hd Hp Ha Hc Hl He' Hlog Hsk], l as [ca li ac act op ha le w st lo sk].
  unfold registered, pending, accepts, ended in *. cbn in *.
  destruct e as [c| | | |c|c|c|]; [..|done]; [destruct ac as [|c'|c'|]; try discriminate Hs..| | |]; cbn in Hs.
  - destruct li, (bool_decide_reflect (c ∉ act ∪ op ∪ ha ∪ le)) as [Hf|]; try discriminate Hs. injection Hs as <-.
    split; cbn; [done|done|set_solver|done|done|done|naive_solver|done|done].
  - destruct ca; injection Hs as <-.
    + split; cbn; [lia|done|done|done|done|done|naive_solver|done|done].
    + by split.
  - injection Hs as <-.
    split; cbn; [done|done|done|rewrite Ha; set_solver|done|done|naive_solver|done|done].
  - injection Hs as <-.
    split; cbn; [rewrite size_add by set_solver; lia|set_solver|set_solver|rewrite Ha; set_solver|done|done|naive_solver|done|set_solver].
  - case_decide as Hin; [|discriminate Hs]. injection Hs as <-. apply elem_of_difference in Hin as [Hin Hns].
    split; cbn; [| | | |done|done| |done|].
    + rewrite size_add, size_remove by set_solver. unfold accepts in *. cbn in *. lia.
    + set_solver.
    + unfold pending in *. cbn in *. set_solver.
    + rewrite Ha. unfold registered. cbn. apply leibniz_equiv. intros x. destruct (decide (x = c)); set_solver.
    + intros Hst. destruct (He' Hst) as (_ & -> & _). set_solver.
    + intros x Hx. assert (x ≠ c) by congruence. set_solver.
  - case_decide as Hin; [|discriminate Hs]. injection Hs as <-. split; cbn; try done. set_solver.
  - case_decide as Hin; [|discriminate Hs]. injection Hs as <-.
    split; cbn; [| | | |done|done| |done|done].
    + rewrite size_remove by set_solver. unfold accepts in *. cbn in *. lia.
    + set_solver.
    + unfold pending in *. cbn in *. set_solver.
    + rewrite Ha. unfold registered. cbn. apply leibniz_equiv. intros x. destruct (decide (x = c)), ac; set_solver.
    + intros Hst. destruct (He' Hst) as (_ & _ & ->). set_solver.
Qed.

Lemma life_run_inv es l l' : inv l → run es l = Some l' → inv l'.
Proof.
  revert l. induction es as [|e es IH]; intros l Hi; cbn [run]; [by intros [= <-]|].
  destruct (step e l) as [l1|] eqn:E; [|done]. apply IH. by eapply life_step_inv.
Qed.

Lemma life_inv l : reachable l → inv l.
Proof. intros [es H]. eapply life_run_inv; [apply inv_started|done]. Qed.

Lemma step_log e l l' : log_open l = false → step e l = Some l' → log_open l' = false.
Proof.
  destruct l as [ca li ac act op ha le w st lo sk]. cbn. intros ->.
  destruct e, ac; intros Hs; unfold stop_step in Hs; repeat case_match; by simplify_eq.
Qed.

(** C10. The log is closed last: whatever the order in which connections arrive, are
    served and end while [Stop] runs, when the log has been closed the accept loop
    has returned and no handler is running or will run again, so nothing is
    appended to a closed log. *)
Theorem log_closed_last l es l' :
  reachable l → log_open l = false → run es l = Some l' →
  acceptor l' = Exited ∧ handlers l' = ∅ ∧ leaving l' = ∅ ∧ activeConns l' = ∅ ∧ log_open l' = false.
Proof.
  intros Hr Hlog Hrun. pose proof (life_run_inv _ _ _ (life_inv l Hr) Hrun) as Hi.
  assert (log_open l' = false) as Hlog'.
  { clear Hr Hi. revert l Hlog Hrun. induction es as [|e es IH]; intros l Hlog; cbn [run]; [by intros [= <-]|].
    destruct (step e l) as [l1|] eqn:E; [|done]. apply IH. by eapply step_log. }
  destruct (i_ended _ Hi (or_intror (i_log _ Hi Hlog'))) as (H1 & H2 & H3). split_and!; try done.
  rewrite (i_active _ Hi). unfold registered. rewrite H1, H2, H3. set_solver.
Qed.

(** *** Stop comes to an end *)

(** The connections have been closed, and the accept loop holds no unregistered one. *)
Definition closing (l : Life) : Prop :=
  (stop l = Waiting ∨ stop l = Waited ∨ stop l = Stopped) ∧ (∀ c, acceptor l ≠ Accepted c) ∧
  open_conns l ## handlers l ∪ registered l.

(** The steps that are left. *)
Definition left_to_do (l : Life) : nat :=
  match acceptor l with Accepting => 1 | Registered _ => 4 | _ => 0 end +
  2 * size (handlers l ∖ stuck l) + size (leaving l) +
  match stop l with Unlistened => 3 | Waiting => 2 | Waited => 1 | _ => 0 end.

(** A step that waits neither for a client (the handler of a connection that is
    still open returns only when its client does something) nor for ever. *)
Definition own_step (l : Life) (e : event) : Prop :=
  (∀ c, e = EReturn c → c ∉ open_conns l) ∧ ∀ c, e ≠ EBlock c.

(** Closing the connections reaches every one that was registered. *)
Lemma close_conns l l' :
  inv l → stop l = Unlistened → (∀ c, acceptor l ≠ Accepted c) → step EStop l = Some l' →
  closing l' ∧ left_to_do l = S (left_to_do l').
Proof.
  intros Hi Hst Hac Hs. pose proof (i_active _ Hi) as Ha. destruct l as [ca li ac act op ha le w st lo sk].
  cbn in Hst, Hac, Ha. subst st. assert (mkLife ca li ac act (op ∖ act) ha le w Waiting lo sk = l') as <-.
  { destruct ac; cbn in Hs; by injection Hs. }
  unfold closing, left_to_do, registered in *. cbn in *. split; [|lia]. split_and!; [by left|done|]. set_solver.
Qed.

Lemma closing_step e l l' :
  inv l → closing l → step e l = Some l' → closing l' ∧ (left_to_do l' < left_to_do l)%nat.
Proof.
  intros Hi (Hst & Hac & Ho) Hs. pose proof (i_listening _ Hi) as Hl. pose proof (i_cancelled _ Hi) as Hc.
  pose proof (i_pending _ Hi) as Hp. pose proof (i_disjoint _ Hi) as Hd. pose proof (i_stuck _ Hi) as Hsk.
  destruct l as [ca li ac act op ha le w st lo sk]. unfold closing, left_to_do, registered, pending in *. cbn in *.
  assert (st ≠ Running ∧ st ≠ Cancelled) as [H1 H2] by (by destruct_or! Hst; subst).
  specialize (Hl H1 H2). specialize (Hc H1). subst ca li.
  destruct e as [c| | | |c|c|c|].
  - by destruct ac.
  - destruct ac; try discriminate Hs. injection Hs as <-. cbn. split; [done|lia].
  - destruct ac as [|c| |]; try discriminate Hs. by destruct (Hac c).
  - destruct ac as [| |c|]; try discriminate Hs. injection Hs as <-. cbn. split; [split_and!; [done|done|set_solver]|].
    assert ((ha ∪ {[c]}) ∖ sk = ha ∖ sk ∪ {[c]}) as -> by set_solver.
    rewrite (size_union (ha ∖ sk)), size_singleton by set_solver. lia.
  - case_decide as Hin; [|discriminate Hs]. injection Hs as <-. cbn. split; [split_and!; [done|done|set_solver]|].
    assert (ha ∖ {[c]} ∖ sk = ha ∖ sk ∖ {[c]}) as -> by set_solver.
    pose proof (size_remove c _ Hin). rewrite (size_union le {[c]}), size_singleton by set_solver. lia.
  - case_decide as Hin; [|discriminate Hs]. injection Hs as <-. cbn. split; [done|].
    assert (ha ∖ (sk ∪ {[c]}) = ha ∖ sk ∖ {[c]}) as -> by set_solver. pose proof (size_remove c _ Hin). lia.
  - case_decide as Hin; [|discriminate Hs]. injection Hs as <-. cbn. split; [done|]. pose proof (size_remove c le Hin). lia.
  - assert (stop_step (mkLife true false ac act op ha le w st lo sk) = Some l') as Hs' by (by destruct ac).
    destruct Hst as [->|[->| ->]]; cbn in Hs'; [destruct (w =? 0)| |]; simplify_eq; cbn; (split; [naive_solver|lia]).
Qed.

Lemma closing_progress l :
  inv l → closing l → stop l = Stopped ∨ stuck l ≠ ∅ ∨ ∃ e l', own_step l e ∧ step e l = Some l'.
Proof.
  intros Hi (Hst & Hac & Ho). destruct (decide (stuck l = ∅)) as [Hsk|]; [|by right; left].
  pose proof (i_cancelled _ Hi) as Hc. pose proof (i_wg _ Hi) as Hw.
  destruct l as [ca li ac act op ha le w st lo sk]. unfold accepts, own_step in *. cbn in *. subst sk.
  destruct Hst as [->|[->| ->]]; [| |by left]; right; right; rewrite Hc by done.
  - destruct (set_choose_or_empty ha) as [[c Hin]|He].
    { exists (EReturn c). eexists. split; [split; [intros ? [= <-]; set_solver|done]|]. by rewrite decide_True by set_solver. }
    destruct (set_choose_or_empty le) as [[c Hin]|Hle].
    { exists (EExit c). eexists. split; [done|]. by rewrite decide_True. }
    destruct ac as [|c|c|]; [by exists EAcceptError; eexists|by destruct (Hac c)|by exists ESpawn; eexists|].
    exists EStop. apply size_empty_iff in He, Hle. eexists. split; [done|]. by replace (w =? 0) with true by lia.
  - exists EStop. eexists. split; [done|]. by destruct ac.
Qed.

(** C11. Stop comes to an end unless a handler is stuck: when it closes the
    connections, and the accept loop is not just then between accepting a
    connection and registering it, every schedule has fewer than [left_to_do] more
    steps, and as long as Stop has not returned and no handler waits for its own
    lock (DBSIZE inside EXEC) some step is possible that waits for no client. *)
Theorem stop_completes l es l' :
  reachable l → stop l = Unlistened → (∀ c, acceptor l ≠ Accepted c) → run (EStop :: es) l = Some l' →
  (length es < left_to_do l)%nat ∧
  (stop l' = Stopped ∨ stuck l' ≠ ∅ ∨ ∃ e l'', own_step l' e ∧ step e l' = Some l'').
Proof.
  intros Hi%life_inv Hst Hac. cbn [run]. destruct (step EStop l) as [l1|] eqn:E; [|done]. intros Hrun.
  change (run es l1 = Some l') in Hrun. destruct (close_conns l l1 Hi Hst Hac E) as [Hc ->]. pose proof (life_step_inv _ _ _ Hi E) as Hi1.
  enough ((length es ≤ left_to_do l1)%nat ∧ closing l' ∧ inv l') as (H1 & H2 & H3).
  { split; [lia|]. by apply closing_progress. }
  clear dependent l. revert l1 Hi1 Hc Hrun. induction es as [|e es IH]; intros l Hi Hc; cbn [run length].
  { intros [= <-]. split_and!; [lia|done|done]. }
  destruct (step e l) as [l1|] eqn:E; [|done]. intros Hrun.
  destruct (closing_step e l l1 Hi Hc E) as [Hc1 Hlt].
  destruct (IH l1 (life_step_inv _ _ _ Hi E) Hc1 Hrun) as [Hlen Hp]. split; [lia|done].
Qed.

(** Stop closes the connections while one handler runs, one is about to end and a
    third connection is registered but not yet served. *)
Definition demo_schedule : list event :=
  [EAccept 1%positive; ERegister; ESpawn; EAccept 2%positive; ERegister; ESpawn; EReturn 2%positive; EStop;
   EAccept 3%positive; ERegister; EStop].
Definition demo_unlistened : Life := default started (run demo_schedule started).
Definition demo_end : list event :=
  [EReturn 1%positive; EExit 1%positive; ESpawn; EExit 2%positive; EAcceptError; EReturn 3%positive;
   EExit 3%positive; EStop; EStop].

Lemma stop_completes_witness :
  (9 < left_to_do demo_unlistened)%nat ∧
  ∃ l', run (EStop :: demo_end) demo_unlistened = Some l' ∧ stop l' = Stopped.
Proof.
  destruct (stop_completes demo_unlistened demo_end (default started (run (EStop :: demo_end) demo_unlistened)))
    as [H _]; [by exists demo_schedule; vm_compute|by vm_compute|by vm_compute|by vm_compute|].
  split; [exact H|]. eexists. split; [by vm_compute|done].
Defined.

Lemma log_closed_last_witness :
  let l := default started (run [EStop; EStop; EStop; EAcceptError; EStop; EStop] started) in
  log_open l = false ∧ acceptor l = Exited ∧ handlers l = ∅ ∧ leaving l = ∅ ∧ activeConns l = ∅.
Proof.
  intros l. split; [by vm_compute|].
  destruct (log_closed_last l [] l) as (H1 & H2 & H3 & H4 & _);
    [by exists [EStop; EStop; EStop; EAcceptError; EStop; EStop]; vm_compute|by vm_compute|done|done].
Defined.

(** *** A connection in between *)

Lemma waiting_step c e l l' :
  inv l → stop l = Waiting → c ∈ handlers l → e ≠ EReturn c → step e l = Some l' →
  stop l' = Waiting ∧ c ∈ handlers l'.
Proof.
  intros Hi Hst Hc He Hs. pose proof (i_wg _ Hi) as Hw. destruct l as [ca li ac act op ha le w st lo sk].
  unfold accepts in Hw. cbn in *. subst st.
  assert (size ha ≠ 0)%nat as Hsz by (intros H%size_empty_inv; set_solver).
  assert ((w =? 0) = false) as Hw0 by (destruct ac; cbn in Hw; lia).
  destruct e as [d| | | |d|d|d|]; [destruct ac as [|d'|d'|]; try discriminate Hs..| | | |].
  - case_match; [|discriminate Hs]. by injection Hs as <-.
  - destruct ca; by injection Hs as <-.
  - by injection Hs as <-.
  - injection Hs as <-. split; [done|]. cbn. set_solver.
  - case_decide; [|discriminate Hs]. injection Hs as <-. split; [done|]. cbn.
    assert (c ≠ d) by congruence. set_solver.
  - case_decide; [|discriminate Hs]. by injection Hs as <-.
  - case_decide; [|discriminate Hs]. by injection Hs as <-.
  - cbn in Hs. by rewrite Hw0 in Hs.
Qed.

(** The server can wait for a client for ever: when [Stop] closes the connections
    just after one was accepted and before it is registered, that one stays open,
    and [Stop] does not return before its client closes it. *)
Theorem stop_can_hang : ∃ l c, reachable l ∧ stop l = Waiting ∧ c ∈ handlers l ∧ c ∈ open_conns l ∧
  ∀ es l', EReturn c ∉ es → run es l = Some l' → stop l' = Waiting.
Proof.
  set (es0 := [EAccept 1%positive; EStop; EStop; EStop; ERegister; ESpawn]).
  exists (default started (run es0 started)), 1%positive.
  assert (reachable (default started (run es0 started))) as Hr by (exists es0; by vm_compute).
  split_and!; [done|done|set_solver|set_solver|].
  intros es. generalize (life_inv _ Hr).
  assert (1%positive ∈ handlers (default started (run es0 started))) as Hin by set_solver. revert Hin.
  assert (stop (default started (run es0 started)) = Waiting) as Hst by done. revert Hst.
  generalize (default started (run es0 started)). clear Hr.
  induction es as [|e es IH]; intros l Hst Hin Hi l' Hes; cbn [run]; [by intros [= <-]|].
  destruct (step e l) as [l1|] eqn:E; [|done]. rewrite not_elem_of_cons in Hes. destruct Hes as [He Hes].
  destruct (waiting_step 1%positive e l l1 Hi Hst Hin ltac:(congruence) E) as [H1 H2].
  apply IH; [done|done|by eapply life_step_inv|done].
Qed.

(** A stuck handler is in [wg.Wait]'s way: after a DBSIZE inside EXEC the server
    cannot be stopped any more. *)
Theorem stuck_handler_hangs_stop l es l' c :
  reachable l → c ∈ stuck l → run es l = Some l' → stop l' ≠ Waited ∧ stop l' ≠ Stopped.
Proof.
  intros Hi%life_inv Hc Hrun. pose proof (life_run_inv _ _ _ Hi Hrun) as Hi'.
  assert (c ∈ stuck l') as Hc'.
  { clear Hi Hi'. revert l Hc Hrun. induction es as [|e es IH]; intros l Hc; cbn [run]; [by intros [= <-]|].
    destruct (step e l) as [l1|] eqn:E; [|done]. apply IH. destruct l as [ca li ac act op ha le w st lo sk].
    cbn in Hc. destruct e, ac; unfold step, stop_step in E; repeat case_match; simplify_eq; cbn; set_solver. }
  apply (i_stuck _ Hi') in Hc'.
  split; intros Hst; destruct (i_ended _ Hi') as (_ & H & _); auto; rewrite H in Hc'; set_solver.
Qed.
End ServerLife.

(** ** Leader.Start and Leader.Close *)

Module LeaderLife.
Import Leader.

(** Where [Close] is: not called; after [cancel]; in [wg.Wait]; returned. *)
Inductive close_pc := Open | Cancelling | WaitingForBoth | Returned.
#[export] Instance close_pc_eq : EqDecision close_pc.
Proof. solve_decision. Defined.

Record LeaderLife := mkLL {
  leader : Leader;
  done : bool;          (* the context *)
  accepting : bool;     (* Start has not returned *)
  beating : bool;       (* sendHeartbeats *)
  monitoring : bool;    (* monitorFollowerHealth *)
  waiting : Z;          (* the wait group *)
  close : close_pc
}.

Definition leader_started (l : Leader) : LeaderLife := mkLL l false true true true 2 Open.

(** A follower that has been synchronised is tracked by its own goroutine, which
    the wait group does not count; replication goes on as long as it is called. *)
Inductive leader_event :=
| Beat | BeatDone | Monitor (now : Z) | MonitorDone | AcceptError
| Synced (id sent : string) (now : Z) | Replicated (r : request) | CloseStep.

Definition ret {A} (m : outcome A) : option A := match m with Ret a => Some a | _ => None end.

Definition close_step (s : LeaderLife) : option LeaderLife :=
  let '(mkLL l d a b m w c) := s in
  match c with
  | Open => Some (mkLL l true a b m w Cancelling)
  | Cancelling => Some (mkLL l d a b m w WaitingForBoth)
  | WaitingForBoth => if w =? 0 then Some (mkLL l d a b m w Returned) else None
  | Returned => None
  end.

Definition leader_step (e : leader_event) (s : LeaderLife) : option LeaderLife :=
  let '(mkLL l d a b m w c) := s in
  match e with
  | Beat => if b then (λ l, mkLL l d a b m w c) <$> ret (heartbeat_tick l) else None
  | BeatDone => if b && d then Some (mkLL l d a false m (w - 1) c) else None
  | Monitor now => if m then Some (mkLL (monitor_tick l now) d a b m w c) else None
  | MonitorDone => if m && d then Some (mkLL l d a b false (w - 1) c) else None
  | AcceptError => if a then Some (mkLL l d (negb d) b m w c) else None
  | Synced id sent now => Some (mkLL (addFollower l id sent now).2 d a b m w c)
  | Replicated r => (λ l, mkLL l d a b m w c) <$> ret (replicate_request l r)
  | CloseStep => close_step s
  end.

Fixpoint leader_run (es : list leader_event) (s : LeaderLife) : option LeaderLife :=
  match es with
  | [] => Some s
  | e :: es => s ← leader_step e s; leader_run es s
  end.

Record leader_inv (s : LeaderLife) : Prop := {
  i_waiting : waiting s = (if beating s then 1 else 0) + (if monitoring s then 1 else 0);
  i_done : close s ≠ Open → done s = true;
  i_returned : close s = Returned → beating s = false ∧ monitoring s = false
}.

Lemma leader_step_inv e s s' : leader_inv s → leader_step e s = Some s' → leader_inv s'.
Proof.
  destruct s as [l d a b m w c]. intros [Hw Hd Hr] Hs. cbn [waiting beating monitoring close done] in *.
  destruct e; cbn [leader_step close_step] in Hs; [destruct b|destruct b, d|destruct m|destruct m, d|destruct a| | |destruct c]; try discriminate Hs;
    try (destruct (ret _); [|discriminate Hs]); try (injection Hs as <-).
  all: try (destruct (Z.eqb_spec w 0); [injection Hs as <-|discriminate Hs]).
  all: split; cbn; try done; try lia; try (by intros Hc; destruct (Hr Hc)); try (by intros; apply Hd).
  all: intros _; destruct b, m; split; done || lia.
Qed.

Lemma leader_run_inv es s s' : leader_inv s → leader_run es s = Some s' → leader_inv s'.
Proof.
  revert s. induction es as [|e es IH]; intros s Hi; cbn [leader_run]; [by intros [= <-]|].
  destruct (leader_step e s) as [s1|] eqn:E; [|done]. apply IH. by eapply leader_step_inv.
Qed.

(** When [Close] has returned, both background loops have ended: no heartbeat is
    sent and no connection is closed by the monitor any more. *)
Theorem closed_leader_silent l es s e :
  leader_run es (leader_started l) = Some s → close s = Returned → (e = Beat ∨ ∃ now, e = Monitor now) → leader_step e s = None.
Proof.
  intros Hrun Hc He. assert (leader_inv (leader_started l)) as Hi by by split.
  destruct (i_returned _ (leader_run_inv _ _ _ Hi Hrun) Hc) as [Hb Hm]. destruct s as [l' d a b m w c]. cbn in *. subst.
  by destruct He as [->|[now ->]].
Qed.

Lemma write_all_open data fs l p f :
  conns l !! p = Some f → conn_closed f = false →
  ∃ f', conns (foldl (write_to data) l fs) !! p = Some f' ∧ conn_closed f' = false.
Proof.
  revert l f. induction fs as [|q fs IH]; intros l f Hp Ho; [by exists f|]. cbn [foldl].
  pose proof (write_to_conns l q data p) as H. rewrite Hp in H. case_decide; cbn in H; rewrite ?Ho in H; by eapply IH.
Qed.

Lemma addFollower_wf l id sent now : leader_wf l → leader_wf (addFollower l id sent now).2.
Proof.
  intros (Hnd & Hf & Hn).
  assert (next_conn l ∉ followers l) as Hfresh by (intros H%Hf%Hn; lia). cbn. split_and!; cbn.
  - apply NoDup_app. split_and!; [done| |apply NoDup_singleton]. intros x Hx ->%list_elem_of_singleton. done.
  - intros p [Hp| ->%list_elem_of_singleton]%elem_of_app; [|by rewrite lookup_insert_eq].
    destruct (decide (p = next_conn l)) as [->|]; [done|]. rewrite lookup_insert_ne by done. by apply Hf.
  - intros p. destruct (decide (p = next_conn l)) as [->|]; [lia|]. rewrite lookup_insert_ne by done.
    intros ?%Hn. lia.
Qed.

(** An event other than the monitor's keeps a leader well formed and its open
    connections open. *)
Lemma step_open e s s' p f :
  (∀ now, e ≠ Monitor now) → leader_wf (leader s) → leader_step e s = Some s' →
  conns (leader s) !! p = Some f → conn_closed f = false →
  leader_wf (leader s') ∧ ∃ f', conns (leader s') !! p = Some f' ∧ conn_closed f' = false.
Proof.
  destruct s as [l d a b m w c]. intros He Hwf Hs Hp Ho. cbn [leader] in *.
  destruct e as [| |now| | |id sent now|r|]; cbn [leader_step] in Hs.
  - destruct b; [|discriminate Hs]. cbn in Hs. injection Hs as <-. cbn [leader].
    split; [by apply leader_wf_write|by eapply write_all_open].
  - destruct b, d; simplify_eq/=; eauto.
  - by destruct (He now).
  - destruct m, d; simplify_eq/=; eauto.
  - destruct a; simplify_eq/=; eauto.
  - injection Hs as <-. split; [by apply addFollower_wf|]. exists f. split; [|done]. cbn.
    rewrite lookup_insert_ne; [done|]. intros <-. destruct Hwf as (_ & _ & Hn). specialize (Hn _ (mk_is_Some _ _ Hp)). lia.
  - unfold replicate_request, Replicate in Hs. cbv zeta in Hs.
    destruct (ReplProtocol.EncodeReplicateCommand _) as [[enc|]| | |]; cbn in Hs; try discriminate Hs; injection Hs as <-; cbn [leader].
    + split; [apply (leader_wf_write enc (next_seq l)); done|by apply (write_all_open enc (followers l) (next_seq l) p f)].
    + eauto.
  - destruct c; cbn in Hs; [..|destruct (w =? 0)|]; simplify_eq/=; eauto.
Qed.

(** Closing the leader leaves its followers connected: no event but the monitor's
    closes a connection, so a follower learns of the end of its leader only from
    missing heartbeats. *)
Theorem close_keeps_followers es s s' p f :
  (∀ now, Monitor now ∉ es) → leader_wf (leader s) → leader_run es s = Some s' →
  conns (leader s) !! p = Some f → conn_closed f = false →
  ∃ f', conns (leader s') !! p = Some f' ∧ conn_closed f' = false.
Proof.
  revert s f. induction es as [|e es IH]; intros s f Hm Hwf; cbn [leader_run]; [by intros [= <-]; exists f|].
  destruct (leader_step e s) as [s1|] eqn:E; [|done]. intros Hrun Hp Ho. setoid_rewrite not_elem_of_cons in Hm.
  destruct (step_open e s s1 p f) as (Hwf1 & f1 & Hp1 & Ho1); [|done..|].
  { intros now ->. by destruct (Hm now). }
  apply (IH s1 f1); [|done..]. intros now. apply Hm.
Qed.
End LeaderLife.

(** ** HealthChecker.Start and Stop *)

Module HealthLife.

(** Whether the stop channel is closed, and the loops that run. *)
Record HealthLife := mkHL { stopCh_closed : bool; loops : nat }.

Definition Start (h : HealthLife) : HealthLife := mkHL (stopCh_closed h) (S (loops h)).

(** A loop sees the closed channel and returns. *)
Definition loop_ends (h : HealthLife) : option HealthLife :=
  if stopCh_closed h then
    match loops h with O => None | S n => Some (mkHL true n) end
  else None.

(** [Stop] closes the channel, a second time a panic, and waits for the loops. *)
Fixpoint wait (fuel : nat) (h : HealthLife) : outcome HealthLife :=
  match loops h with
  | O => mret h
  | _ => match fuel, loop_ends h with S fuel, Some h => wait fuel h | _, _ => Deadlock end
  end.
Definition Stop (h : HealthLife) : outcome HealthLife :=
  if stopCh_closed h then Panic else wait (loops h) (mkHL true (loops h)).

Lemma wait_returns n : wait n (mkHL true n) = Ret (mkHL true 0).
Proof. induction n as [|n IH]; [done|]. exact IH. Qed.

(** [Stop] returns after every loop that was started has ended; calling it again
    panics. *)
Theorem health_stop h :
  stopCh_closed h = false → Stop h = Ret (mkHL true 0) ∧ Stop (mkHL true 0) = Panic.
Proof. intros Hc. unfold Stop. rewrite Hc. split; [apply wait_returns|done]. Qed.
End HealthLife.
